(* ===== verification/_CoqProject ===== *)
-Q . S2P
Prelude.v
F64.v
Json.v
Models.v
Filter.v
Keys.v
Schema.v
Meta.v
Wal.v
WalReplay.v
ObjectStore.v
Namespace.v
Monitor.v
Durability.v
Compaction.v
FilterIndex.v
View.v
ViewCache.v
Export.v
Buffer.v
VectorEncoding.v
Fts.v
Vector.v
Billing.v
Search.v
SearchSpec.v
VectorBuild.v
VectorSpec.v
Cache.v
Indexer.v
IndexerMonitor.v
IndexerSpec.v
IndexerQueue.v
ColdFetch.v
ColdSpec.v
ProbeSpec.v
Storage.v
StorageMonitor.v
CloneSpec.v
StorageSpec.v
Api.v
ApiSpec.v
Recall.v
Warm.v
CommitLock.v
ConcurrentCommits.v
Health.v
Serve.v
ExportHttp.v
IndexStore.v
