(* ===== verification/Prelude.v ===== *)
(** * openpuffer: a verification development

    openpuffer is a search service (vector, full-text and attribute search)
    whose only durable state is a bucket of an S3-compatible object store.  A
    namespace is a set of documents.  A write is appended to the namespace's
    write-ahead log: one object per batch, [wal/NNNNNNNN.bin], made part of the
    log by a conditional write of [meta.json].  A background indexer folds
    committed batches into index objects and advances [index_cursor] in
    [meta.json]; a compactor replaces indexed batches by [wal/snapshot.bin].
    A query loads the documents (snapshot and log) and the index objects,
    collects candidates, and ranks them.

    ** Parts, and where they are modelled

    Every file opens with a comment that says what it holds; sources are under
    [src/src/].

    - [Prelude], [F64], [Json]: integers at their width, results, iteration
      order of hash maps, stable sorting, strings; IEEE-754 binary64 on the
      Standard Library's executable specification; [serde_json::Value].
    - [Models] ([models.rs]), [Filter] ([filter.rs]), [Keys] ([limits.rs] and
      the key functions of [meta.rs], [wal.rs] and [index/*.rs]), [Schema]
      ([schema.rs]), [Meta] ([meta.rs]): the data model and its validation.
    - [Wal] ([wal.rs]: entries, wire format, batch application, snapshots, the
      indexer's delta) and [WalReplay] (its abstract specification: what a batch
      does to one document id, and the refinement theorem).
    - [ObjectStore]: the S3 client as a class [ObjectStore] with laws
      [StoreLaws]; the state-and-error monad [St]; a concrete store with a
      script of faults.  [Namespace] ([namespace.rs]): reads, replay, the commit
      protocol [append_wal].  [Monitor]: the ghost flag [misled] of runs in which
      an existing [meta.json] was misread as absent.  [Durability]: the abstract
      state of a namespace is its committed log ([ns_state]); appends are atomic
      and loads exact.
    - [Compaction] ([wal_compaction.rs]), [View] ([view.rs]), [ViewCache]
      ([view_cache.rs]), [Export] ([export.rs]).
    - [Buffer] ([buffer.rs]): group commit as a transition system over shared
      buffers, tasks and the store, with reachability and invariants.  An append
      is one step there; [ConcurrentCommits] has its single requests.
    - [FilterIndex] ([index/filter.rs]), [Fts] ([index/fts.rs],
      [index/fts_tokenizer.rs]), [VectorEncoding] ([vector_encoding.rs]),
      [Vector], [VectorBuild] and [VectorSpec] ([index/vector.rs]).
    - [Search] and [SearchSpec] ([search.rs]), [Billing] ([billing.rs]).
    - [Cache] ([cache.rs]): the disk copies of index objects; [CachedReads] is
      the interface through which [Indexer] and the queries read them, and
      [Cache] discharges its laws for a disk whose writes succeed, and shows for
      any disk that only a key with a failed write can be answered wrongly.
    - [Indexer], [IndexerMonitor], [IndexerSpec], [IndexerQueue] ([indexer.rs]):
      one index run, its safety and exactness, the work queue with wake-ups
      between the await points of a tick.
    - [ColdFetch], [ColdSpec], [ProbeSpec] ([s3_batch.rs], [load_cold_batched]
      of [view.rs]): planning and fetching without a cache.
    - [Storage], [StorageMonitor], [CloneSpec], [StorageSpec] ([storage.rs],
      [namespace_list_cache.rs]): what the handlers call: loads, writes by
      filter, conditions, copies and deletions, over the buffer and the views.
    - [Api], [ApiSpec] ([api.rs]): the checks and statuses of the handlers;
      [Recall] ([recall.rs]); [Warm] ([warm.rs]).
    - [CommitLock] ([commit_lock.rs]): the commits of a process and their locks
      as a transition system, in which they are shown to exclude each other;
      [ConcurrentCommits] runs the requests of [append_wal] one by one in that
      system, interleaved with other commits and with maintenance.
    - [ExportHttp] ([api.rs]): the two formats of an export response.
    - [IndexStore] ([indexer.rs], [index/vector.rs]): what the store holds after
      an index was written, and its inventory of objects.
    - [Health] ([health.rs]): the readiness probe; [Serve] ([config.rs],
      [main.rs]): the configuration and the state a process starts from, which
      satisfies what the other components assume of it.

    A component's state is a record with the source's fields, an operation is a
    definition with the source's name, and a call is a call: [search.rs] calls
    [index/filter.rs] as [Search] uses [FilterIndex].  Code outside the
    repository is a class with its documented behaviour as laws: the object
    store, the file system of the cache, [bincode] and [serde_json] codecs,
    CRC-32, Unicode tables and the stemmer, base64 and [half], the text form of
    a float.  Every such class has a concrete instance, which the witnesses use.

    ** What the theorems show

    - Durability: an append adds exactly its batch to the log or nothing,
      whatever requests fail; an acknowledged write of rows is in the log; a write is
      read back; compaction preserves the log; a load and a catch-up return the
      replay of the log; replay is idempotent and implements its abstract
      specification.
    - Formats: log entries and filters round-trip, corruption is detected, keys
      are unambiguous.
    - Indexes: the filter index answers as the evaluation of the filter on the
      documents, the full-text and vector deltas are exact, a vector index
      loses no document, probe plans stay within their cap.  An index run is
      safe whatever fails, and exact when it succeeds.
    - Queries: under strong consistency a filter selects exactly the matching
      documents, the rows are the best candidates and current, the answer does
      not depend on hash iteration order.
    - Reads without a cache: a round returns the objects of its keys whatever
      its batching; the batched open is equivalent to the replay.
      The index assembled from a few probed objects answers as the stored one,
      and what a build wrote is the stored one; a v3 index stays under its
      object cap.
    - Concurrency: interleaved commits of one process keep every acknowledged
      batch at its number.
    - The storage facade: a strong load gives the committed documents with a
      filter index and tail over which filters are exact; writes by filter and
      conditional writes act on exactly the matching rows; copies and deletions
      are exact; warming pins an exact view.
    - The handlers: only valid writes are queued, the column form means its
      rows, and a strong query, end to end, answers with committed documents
      that satisfy its filter.  The sampling of a recall evaluation terminates;
      an ndjson export reads back as its rows.

    Where the code does not do what it means to, the theorem states the
    counterexample it has (the findings of the manifest).

    ** Conditions

    Requests may fail in any way in the theorems that do not name a working
    store.  One kind of answer is excluded where the metadata is read:
    [get_meta_json] takes some errors for an absent [meta.json] by their
    message, and when the object is there a commit can be lost
    ([unhandled_error_loses_commit]).  Such an answer sets the ghost flag
    [misled] (any store can carry it, see [monitored]), and the theorems speak
    about the runs that end with the flag not set.  The other conditions are
    stated in the comment of each theorem with the finding that shows what
    happens without them: that a cached view agrees with the log ([views_ok],
    [view_of]), that a filter is one the index represents exactly
    ([filter_supported], [indexable]), that a range of the log does not delete
    what it wrote ([delta_safe]), that the snapshot object is the one the
    metadata names ([snapshot_current]), that a JSON codec reads a snapshot back
    as it was.

    ** Bounds and fuel

    Log lengths are assumed below 2^64 - 1 where a sequence number is
    incremented.  Loops that are not structural take fuel: [clamp_loop] and
    [shrink_coarse] decrease a width, k-means runs its fixed number of rounds,
    [list_pages] runs one page per unit of fuel (its callers' theorems hold for
    every fuel), [chunks] has one step per element.  The listing before a copy
    or a deletion needs as much fuel as it has pages, which those theorems
    assume of the fuel; the sampling loop of [Recall] is shown to end.
    Otherwise fuel is the length or the value that the loop decreases, so it
    does not run out; this is proved where a theorem depends on it.

    ** Not modelled

    HTTP routing, parsing and most of the serialisation of bodies ([main.rs] and
    the rest of [api.rs]: the metrics and debug endpoints), the counters of
    [metrics.rs] (written only, through a third-party library; no operation
    reads them), the timer loops that call the modelled steps, command-line
    parsing and the construction of the S3 client ([config.rs]), logging and
    the listener ([main.rs]).  They have no state of their own beyond what is
    modelled here. *)

From Stdlib Require Import ZArith Lia Bool Ascii.
From stdpp Require Import base gmap strings list sorting.

#[global] Open Scope Z_scope.

(** ** Machine integers

    [u64], [u32] and [usize] values of the source are [Z]; the saturating
    operations of [core] are written out at their width. *)

Definition u32_max : Z := 2 ^ 32 - 1.
Definition u64_max : Z := 2 ^ 64 - 1.

Definition is_u64 (n : Z) : Prop := 0 <= n <= u64_max.
Definition is_u32 (n : Z) : Prop := 0 <= n <= u32_max.

(** [u64::saturating_add], [u64::saturating_sub], [u64::saturating_mul]
    ([usize] is 64 bits wide on the platforms the server is built for). *)
Definition sat_add64 (a b : Z) : Z := Z.min (a + b) u64_max.
Definition sat_sub (a b : Z) : Z := Z.max (a - b) 0.
Definition sat_mul64 (a b : Z) : Z := Z.min (a * b) u64_max.
Definition sat_add32 (a b : Z) : Z := Z.min (a + b) u32_max.

(** [wrapping_add], [wrapping_mul] and the [as] casts truncate to the width. *)
Definition wrap64 (a : Z) : Z := a mod 2 ^ 64.
Definition wrap32 (a : Z) : Z := a mod 2 ^ 32.

(** [usize::div_ceil] and [Ord::clamp]. *)
Definition div_ceil (a b : Z) : Z := (a + b - 1) / b.
Definition clampZ (x lo hi : Z) : Z := if x <? lo then lo else if hi <? x then hi else x.

(** The inclusive range [a..=b] of the source. *)
Definition range_incl (a b : Z) : list Z := seqZ a (b - a + 1).

(** The half-open range [0..n]. *)
Definition range0 (n : Z) : list Z := seqZ 0 n.

(** The length of a [Vec] as the [usize] the code computes with. *)
Definition lenZ {A} (l : list A) : Z := Z.of_nat (length l).

(** ** Results

    [Result<A, E>]; [collect::<Result<Vec<_>, _>>()] is [collect_result]. *)

Inductive result (E A : Type) : Type :=
| Ok (a : A)
| Err (e : E).
Arguments Ok {E A} a.
Arguments Err {E A} e.

Definition result_bind {E A B} (m : result E A) (k : A -> result E B) : result E B :=
  match m with
  | Ok a => k a
  | Err e => Err e
  end.

Definition result_map {E A B} (f : A -> B) (m : result E A) : result E B :=
  match m with
  | Ok a => Ok (f a)
  | Err e => Err e
  end.

Definition is_ok {E A} (m : result E A) : bool :=
  match m with Ok _ => true | Err _ => false end.

(** [Option::ok_or_else]. *)
Definition ok_or {E A} (o : option A) (e : E) : result E A :=
  match o with
  | Some a => Ok a
  | None => Err e
  end.

(** [Result::ok]. *)
Definition result_ok {E A} (m : result E A) : option A :=
  match m with Ok a => Some a | Err _ => None end.

Fixpoint collect_result {E A B} (f : A -> result E B) (l : list A) : result E (list B) :=
  match l with
  | [] => Ok []
  | x :: xs =>
      match f x with
      | Ok y =>
          match collect_result f xs with
          | Ok ys => Ok (y :: ys)
          | Err e => Err e
          end
      | Err e => Err e
      end
  end.

Declare Scope puffer_scope.
Delimit Scope puffer_scope with puffer.
Notation "'let?' x := m 'in' k" := (result_bind m (fun x => k))
  (at level 10, x pattern, m at level 100, k at level 200) : puffer_scope.
#[global] Open Scope puffer_scope.

(** ** Iteration order of hash containers

    [HashMap] and [HashSet] iterate in an unspecified order: the order is a
    parameter, known only to list every entry exactly once. *)

Class IterOrder : Type := {
  iter_map : forall {K V : Type} `{Countable K}, gmap K V -> list (K * V);
  iter_set : forall {K : Type} `{Countable K}, gset K -> list K;
  iter_map_perm : forall {K V : Type} `{Countable K} (m : gmap K V),
      iter_map m ≡ₚ map_to_list m;
  iter_set_perm : forall {K : Type} `{Countable K} (s : gset K),
      iter_set s ≡ₚ elements s
}.

(** One concrete order, used by the witnesses. *)
Definition canonical_order : IterOrder := {|
  iter_map := fun K V EqK CK m => map_to_list m;
  iter_set := fun K EqK CK s => elements s;
  iter_map_perm := fun K V EqK CK m => Permutation_refl _;
  iter_set_perm := fun K EqK CK s => Permutation_refl _
|}.

(** [HashMap::values] and [HashMap::keys]. *)
Definition iter_values `{IterOrder} {K V} `{Countable K} (m : gmap K V) : list V :=
  (iter_map m).*2.
Definition iter_keys `{IterOrder} {K V} `{Countable K} (m : gmap K V) : list K :=
  (iter_map m).*1.

(** ** Sorting

    [slice::sort_by] is a stable sort by a three-way comparison; insertion
    before the first element that is not smaller is a stable reference
    implementation of it. *)

Fixpoint insert_by {A} (cmp : A -> A -> comparison) (x : A) (l : list A) : list A :=
  match l with
  | [] => [x]
  | y :: ys =>
      match cmp x y with
      | Gt => y :: insert_by cmp x ys
      | _ => x :: y :: ys
      end
  end.

Fixpoint sort_by {A} (cmp : A -> A -> comparison) (l : list A) : list A :=
  match l with
  | [] => []
  | x :: xs => insert_by cmp x (sort_by cmp xs)
  end.

(** [Ordering::then_with] and [Ordering::reverse]. *)
Definition cmp_then (c d : comparison) : comparison :=
  match c with Eq => d | _ => c end.

(** [Vec::dedup] on a sorted vector: drops consecutive repetitions. *)
Fixpoint dedup {A} `{EqDecision A} (l : list A) : list A :=
  match l with
  | [] => []
  | x :: xs =>
      match xs with
      | [] => [x]
      | y :: _ => if decide (x = y) then dedup xs else x :: dedup xs
      end
  end.

(** ** Strings

    A Rust [String] is its UTF-8 bytes, one [ascii] per byte; [str::len] is
    the byte length and [Ord] on [str] compares bytes. *)

Definition str_len (s : string) : Z := Z.of_nat (String.length s).

Definition str_cmp (a b : string) : comparison := String.compare a b.

(** [str::contains] of a non-empty or empty pattern. *)
Fixpoint str_contains (pat s : string) : bool :=
  String.prefix pat s ||
  match s with
  | EmptyString => false
  | String _ s' => str_contains pat s'
  end.

(** [str::ends_with]. *)
Fixpoint str_ends_with (suf s : string) : bool :=
  String.eqb suf s ||
  match s with
  | EmptyString => false
  | String _ s' => str_ends_with suf s'
  end.

Fixpoint str_forallb (f : Ascii.ascii -> bool) (s : string) : bool :=
  match s with
  | EmptyString => true
  | String c s' => f c && str_forallb f s'
  end.

Definition ascii_code (c : Ascii.ascii) : Z := Z.of_N (Ascii.N_of_ascii c).

Definition in_range (c : Ascii.ascii) (lo hi : Z) : bool :=
  (lo <=? ascii_code c) && (ascii_code c <=? hi).

Definition ascii_lower (c : Ascii.ascii) : Ascii.ascii :=
  if in_range c 65 90 then Ascii.ascii_of_N (Ascii.N_of_ascii c + 32) else c.

(** [str::to_ascii_lowercase]. *)
Fixpoint to_ascii_lowercase (s : string) : string :=
  match s with
  | EmptyString => EmptyString
  | String c s' => String (ascii_lower c) (to_ascii_lowercase s')
  end.

(** [str::strip_prefix]. *)
Fixpoint strip_prefix (p s : string) : option string :=
  match p, s with
  | EmptyString, _ => Some s
  | String a p', String b s' => if Ascii.eqb a b then strip_prefix p' s' else None
  | String _ _, EmptyString => None
  end.

(** The characters of a UTF-8 string, each as its bytes: a byte in
    [0x80..0xBF] continues the character before it. *)
Fixpoint utf8_chars (s : string) : list string :=
  match s with
  | EmptyString => []
  | String c s' =>
      match utf8_chars s' with
      | String d ch :: rest =>
          if in_range d 128 191 then String c (String d ch) :: rest
          else String c EmptyString :: String d ch :: rest
      | rest => String c EmptyString :: rest
      end
  end.

Definition str_codes (s : string) : list Z := map ascii_code (String.list_ascii_of_string s).

(** [char::is_whitespace]: the Unicode [White_Space] characters. *)
Definition char_is_whitespace (ch : string) : bool :=
  match str_codes ch with
  | [a] => (a =? 32) || ((9 <=? a) && (a <=? 13))
  | [a; b] => (a =? 194) && ((b =? 133) || (b =? 160))
  | [a; b; c] =>
      ((a =? 225) && (b =? 154) && (c =? 128)) ||
      ((a =? 226) && (b =? 128) &&
        (((128 <=? c) && (c <=? 138)) || (c =? 168) || (c =? 169) || (c =? 175))) ||
      ((a =? 226) && (b =? 129) && (c =? 159)) ||
      ((a =? 227) && (b =? 128) && (c =? 128))
  | _ => false
  end.

Fixpoint drop_while {A} (f : A -> bool) (l : list A) : list A :=
  match l with
  | [] => []
  | x :: xs => if f x then drop_while f xs else l
  end.

(** [str::trim]. *)
Definition str_trim (s : string) : string :=
  String.concat EmptyString
    (reverse (drop_while char_is_whitespace
      (reverse (drop_while char_is_whitespace (utf8_chars s))))).

(** [str::split_once] at a character. *)
Fixpoint split_once (c : Ascii.ascii) (s : string) : option (string * string) :=
  match s with
  | EmptyString => None
  | String d s' =>
      if Ascii.eqb c d then Some (EmptyString, s')
      else match split_once c s' with
           | Some (a, b) => Some (String d a, b)
           | None => None
           end
  end.

(** [{n}] of an unsigned integer: at most twenty decimal digits in 64 bits. *)
Definition digit_char (d : Z) : Ascii.ascii := Ascii.ascii_of_N (Z.to_N (48 + d)).

Fixpoint dec_go (fuel : nat) (n : Z) (acc : string) : string :=
  match fuel with
  | O => acc
  | S f =>
      let acc' := String (digit_char (n mod 10)) acc in
      if n <? 10 then acc' else dec_go f (n / 10) acc'
  end.

Definition dec (n : Z) : string := dec_go 20 n EmptyString.

Fixpoint zeros (n : nat) : string :=
  match n with
  | O => EmptyString
  | S n' => String "0"%char (zeros n')
  end.

(** [{n:08}]: decimal, left-padded with zeros to eight characters. *)
Definition pad08 (n : Z) : string :=
  let s := dec n in String.append (zeros (8 - String.length s)) s.

(** [str::parse] of a run of decimal digits, with the value read so far. *)
Fixpoint undec (v : Z) (s : string) : Z :=
  match s with
  | EmptyString => v
  | String c s' => undec (v * 10 + (ascii_code c - 48)) s'
  end.

(** [str::parse::<u32>]: an optional [+], then at least one digit, no overflow. *)
Definition parse_u32 (s : string) : option Z :=
  let digits := match s with String "+"%char s' => s' | _ => s end in
  if String.eqb digits EmptyString then None
  else if negb (str_forallb (fun c => in_range c 48 57) digits) then None
  else let n := undec 0 digits in if u32_max <? n then None else Some n.

(** ** Automation *)

Create HintDb puffer discriminated.

(** Splits a boolean test of the goal or of a hypothesis into its cases. *)
Ltac case_bool :=
  repeat match goal with
  | H : (?a && ?b)%bool = true |- _ => apply andb_true_iff in H; destruct H
  | H : (?a || ?b)%bool = false |- _ => apply orb_false_iff in H; destruct H
  | H : negb ?a = true |- _ => apply negb_true_iff in H
  | H : negb ?a = false |- _ => apply negb_false_iff in H
  | H : (_ <=? _) = true |- _ => apply Z.leb_le in H
  | H : (_ <=? _) = false |- _ => apply Z.leb_gt in H
  | H : (_ <? _) = true |- _ => apply Z.ltb_lt in H
  | H : (_ <? _) = false |- _ => apply Z.ltb_ge in H
  | H : (_ =? _) = true |- _ => apply Z.eqb_eq in H
  | H : (_ =? _) = false |- _ => apply Z.eqb_neq in H
  | H : bool_decide _ = true |- _ => apply bool_decide_eq_true in H
  | H : bool_decide _ = false |- _ => apply bool_decide_eq_false in H
  end.

(** Closes a boolean goal from the boolean hypotheses of the context. *)
Ltac rewrite_bools :=
  repeat match goal with
  | H : ?b = true |- context [?b] => rewrite H
  | H : ?b = false |- context [?b] => rewrite H
  end; done.

(** Destructs the scrutinee of the first [match] or [if] of the goal. *)
Ltac case_goal :=
  match goal with
  | |- context [match ?x with _ => _ end] => destruct x eqn:?
  end.

(** Destructs the scrutinee of the first [match] of a hypothesis. *)
Ltac case_hyp H :=
  match type of H with
  | context [match ?x with _ => _ end] => destruct x eqn:?
  end.

Ltac solve_arith := unfold sat_add64, sat_sub, sat_mul64, sat_add32, is_u64, is_u32, lenZ in *; lia.

(** ** Generic lemmas *)

Section GenericLists.
Context {A B : Type}.

Lemma elem_of_range_incl (a b x : Z) : x ∈ range_incl a b ↔ a <= x <= b.
Proof. unfold range_incl. rewrite elem_of_seqZ. lia. Qed.

Lemma range_incl_snoc (a b : Z) :
  a <= b + 1 -> range_incl a (b + 1) = range_incl a b ++ [b + 1].
Proof.
  intros Hab. unfold range_incl.
  replace (b + 1 - a + 1) with ((b - a + 1) + 1) by lia.
  rewrite seqZ_app by lia.
  replace (a + (b - a + 1)) with (b + 1) by lia. done.
Qed.

Lemma range_incl_empty (a b : Z) : b < a -> range_incl a b = [].
Proof. intros H. unfold range_incl. apply seqZ_nil. lia. Qed.

Lemma range_incl_cons (a b : Z) : a <= b -> range_incl a b = a :: range_incl (a + 1) b.
Proof.
  intros H. unfold range_incl. rewrite seqZ_cons by lia.
  do 2 f_equal. lia.
Qed.

Lemma range_incl_split (a c b : Z) :
  a <= c + 1 -> c <= b -> range_incl a b = range_incl a c ++ range_incl (c + 1) b.
Proof.
  intros H1 H2. unfold range_incl.
  replace (b - a + 1) with ((c - a + 1) + (b - (c + 1) + 1)) by lia.
  rewrite seqZ_app by lia. do 2 f_equal. lia.
Qed.

Lemma collect_result_map {E} (f : A -> result E B) (g : A -> B) (l : list A) :
  (forall x, x ∈ l -> f x = Ok (g x)) -> collect_result f l = Ok (g <$> l).
Proof.
  induction l as [|x l IH]; intros H; [done|]. cbn.
  rewrite H by set_solver. rewrite IH; [done|]. intros y Hy. apply H. set_solver.
Qed.

Lemma collect_result_Forall2 {E} (f : A -> result E B) (l : list A) (k : list B) :
  collect_result f l = Ok k <-> Forall2 (fun x y => f x = Ok y) l k.
Proof.
  revert k. induction l as [|x l IH]; intros k; cbn.
  - split; [intros [=<-]; constructor | by inversion 1].
  - split.
    + intros H. destruct (f x) as [y|e] eqn:Hf; [|done].
      destruct (collect_result f l) as [ys|e] eqn:Hl; [|done].
      injection H as <-. constructor; [done|]. by apply IH.
    + inversion 1 as [|? y ? ys Hf Hl]; subst. rewrite Hf.
      apply IH in Hl. by rewrite Hl.
Qed.

Lemma insert_by_perm (cmp : A -> A -> comparison) (x : A) (l : list A) :
  insert_by cmp x l ≡ₚ x :: l.
Proof.
  induction l as [|y l IH]; [done|]. cbn. destruct (cmp x y); [done|done|].
  rewrite IH. apply Permutation_swap.
Qed.

Lemma sort_by_perm (cmp : A -> A -> comparison) (l : list A) : sort_by cmp l ≡ₚ l.
Proof. induction l as [|x l IH]; [done|]. cbn. by rewrite insert_by_perm, IH. Qed.

Lemma sort_by_length (cmp : A -> A -> comparison) (l : list A) :
  length (sort_by cmp l) = length l.
Proof. apply Permutation_length, sort_by_perm. Qed.

Lemma elem_of_sort_by (cmp : A -> A -> comparison) (x : A) (l : list A) :
  x ∈ sort_by cmp l ↔ x ∈ l.
Proof. by rewrite sort_by_perm. Qed.
End GenericLists.

(** A three-way comparison is a total preorder on the elements satisfying
    [P]; sorting such elements yields a list in which no element is greater
    than a later one. *)
Section SortedBy.
Context {A : Type} (cmp : A -> A -> comparison) (P : A -> Prop).
Hypothesis cmp_flip : forall x y, P x -> P y -> cmp y x = CompOpp (cmp x y).
Hypothesis cmp_le_trans : forall x y z, P x -> P y -> P z ->
  cmp x y <> Gt -> cmp y z <> Gt -> cmp x z <> Gt.

Definition sorted_by (l : list A) : Prop := StronglySorted (fun x y => cmp x y <> Gt) l.

Lemma insert_by_sorted x l :
  P x -> Forall P l -> sorted_by l -> sorted_by (insert_by cmp x l).
Proof.
  intros Px Pl Hs. induction Hs as [|y l Hs IH Hy]; cbn.
  - repeat constructor.
  - inversion Pl as [|? ? Py Pl']; subst.
    assert (cmp x y <> Gt -> sorted_by (x :: y :: l)) as Hle.
    { intros Hxy. constructor; [by constructor|]. constructor; [done|].
      rewrite Forall_forall in Hy, Pl' |- *. intros z Hz. eauto. }
    destruct (cmp x y) eqn:Hxy; try (apply Hle; congruence).
    constructor; [by apply IH|].
    rewrite insert_by_perm. constructor; [|done].
    rewrite cmp_flip by done. by rewrite Hxy.
Qed.

Lemma sort_by_sorted l : Forall P l -> sorted_by (sort_by cmp l).
Proof.
  induction 1 as [|x l Px Pl IH]; cbn; [constructor|].
  apply insert_by_sorted; [done| |done]. by rewrite sort_by_perm.
Qed.
End SortedBy.

(** Two sorted arrangements of the same elements agree when only equal elements
    compare as equal. *)
Lemma sorted_by_unique {A} (cmp : A -> A -> comparison) (l1 l2 : list A) :
  sorted_by cmp l1 -> sorted_by cmp l2 -> l1 ≡ₚ l2 ->
  (forall x y, x ∈ l1 -> y ∈ l1 -> cmp x y <> Gt -> cmp y x <> Gt -> x = y) -> l1 = l2.
Proof.
  intros H1. revert l2. induction H1 as [|x l1 H1 IH Hx]; intros l2 H2 Hp Heq.
  { symmetry in Hp. by apply Permutation_nil_r in Hp. }
  destruct H2 as [|y l2 H2 Hy]; [by apply Permutation_nil_r in Hp|].
  rewrite Forall_forall in Hx, Hy.
  assert (x = y) as ->.
  { assert (x ∈ y :: l2) as Hx2 by (rewrite <- Hp; by left). apply elem_of_cons in Hx2 as [?|Hx2]; [done|].
    assert (y ∈ x :: l1) as Hy1 by (rewrite Hp; by left). apply elem_of_cons in Hy1 as [->|Hy1]; [done|].
    apply Heq; [by left|by right|by apply Hx|by apply Hy]. }
  f_equal. apply IH; [done|by apply (Permutation_cons_inv (a := y))|].
  intros a b Ha Hb. apply Heq; by right.
Qed.

(** ** Comparisons that order the elements satisfying [P] *)

Record cmp_order {A} (P : A -> Prop) (cmp : A -> A -> comparison) : Prop := {
  co_flip : forall x y, P x -> P y -> cmp y x = CompOpp (cmp x y);
  co_trans : forall x y z, P x -> P y -> P z -> cmp x y <> Gt -> cmp y z <> Gt -> cmp x z <> Gt
}.

Lemma cmp_order_Eq {A} (P : A -> Prop) cmp x y z :
  cmp_order P cmp -> P x -> P y -> P z -> cmp x y = Eq -> cmp x z = cmp y z.
Proof.
  intros [Hf Ht] Px Py Pz Hxy. assert (cmp y x = Eq) as Hyx by (rewrite Hf by done; by rewrite Hxy).
  pose proof (Ht x y z Px Py Pz) as H1. pose proof (Ht y x z Py Px Pz) as H2.
  pose proof (Ht z x y Pz Px Py) as H3. pose proof (Ht z y x Pz Py Px) as H4.
  rewrite (Hf x z Px Pz), (Hf y z Py Pz), Hxy, Hyx in *.
  destruct (cmp x z), (cmp y z); try done; cbn in *; exfalso; intuition congruence.
Qed.

Lemma cmp_order_then {A} (P : A -> Prop) c1 c2 :
  cmp_order P c1 -> cmp_order P c2 -> cmp_order P (fun x y => cmp_then (c1 x y) (c2 x y)).
Proof.
  intros H1 H2. split.
  - intros x y Px Py. rewrite (co_flip _ _ H1 x y), (co_flip _ _ H2 x y) by done. by destruct (c1 x y).
  - intros x y z Px Py Pz Hxy Hyz.
    pose proof (co_trans _ _ H1 x y z Px Py Pz) as Ht1. pose proof (co_trans _ _ H2 x y z Px Py Pz) as Ht2.
    pose proof (co_trans _ _ H1 y z x Py Pz Px) as Ht3. pose proof (co_flip _ _ H1 x y Px Py) as Hf.
    pose proof (co_flip _ _ H1 x z Px Pz) as Hf2.
    destruct (c1 x y) eqn:E1, (c1 y z) eqn:E2; cbn in *; try done.
    + rewrite (cmp_order_Eq _ _ x y z H1 Px Py Pz E1), E2. cbn. by apply Ht2.
    + rewrite (cmp_order_Eq _ _ x y z H1 Px Py Pz E1), E2. done.
    + destruct (c1 x z) eqn:E3; cbn; [|done|exfalso; by apply Ht1].
      exfalso. rewrite Hf in Ht3. apply Ht3; [done|by rewrite Hf2|done].
    + destruct (c1 x z) eqn:E3; cbn; [|done|exfalso; by apply Ht1].
      exfalso. rewrite Hf in Ht3. apply Ht3; [done|by rewrite Hf2|done].
Qed.

Lemma cmp_order_opp {A} (P : A -> Prop) c : cmp_order P c -> cmp_order P (fun x y => CompOpp (c x y)).
Proof.
  intros [Hf Ht]. split.
  - intros x y Px Py. by rewrite Hf.
  - intros x y z Px Py Pz. rewrite <- !Hf by done. intros H1 H2. by apply (Ht z y x).
Qed.

Lemma cmp_order_on {A B} (P : A -> Prop) (f : B -> A) c :
  cmp_order P c -> cmp_order (fun b => P (f b)) (fun x y => c (f x) (f y)).
Proof. intros [Hf Ht]. split; eauto. Qed.

Lemma cmp_order_weaken {A} (P Q : A -> Prop) c :
  (forall x, Q x -> P x) -> cmp_order P c -> cmp_order Q c.
Proof. intros Hi [Hf Ht]. split; eauto. Qed.

Lemma sort_by_order {A} (P : A -> Prop) cmp (l : list A) :
  cmp_order P cmp -> Forall P l -> sorted_by cmp (sort_by cmp l).
Proof. intros [Hf Ht]. by apply sort_by_sorted. Qed.

(** ** Iteration *)

Section Iteration.
Context `{IterOrder}.

Lemma iter_map_elem {K V} `{Countable K} (m : gmap K V) k v :
  (k, v) ∈ iter_map m <-> m !! k = Some v.
Proof. rewrite iter_map_perm. apply elem_of_map_to_list. Qed.

Lemma iter_map_NoDup_keys {K V} `{Countable K} (m : gmap K V) : NoDup (iter_map m).*1.
Proof. rewrite iter_map_perm. apply NoDup_fst_map_to_list. Qed.

Lemma elem_of_iter_values {K V} `{Countable K} (m : gmap K V) v :
  v ∈ iter_values m <-> exists k, m !! k = Some v.
Proof.
  unfold iter_values. rewrite list_elem_of_fmap. split.
  - intros [[k w] [-> Hin]]. exists k. by apply iter_map_elem.
  - intros [k Hk]. exists (k, v). split; [done|]. by apply iter_map_elem.
Qed.

Lemma elem_of_iter_keys {K V} `{Countable K} (m : gmap K V) k :
  k ∈ iter_keys m <-> is_Some (m !! k).
Proof.
  unfold iter_keys. rewrite list_elem_of_fmap. split.
  - intros [[k' w] [-> Hin]]. exists w. by apply iter_map_elem.
  - intros [v Hk]. exists (k, v). split; [done|]. by apply iter_map_elem.
Qed.

Lemma elem_of_iter_set {K} `{Countable K} (s : gset K) x : x ∈ iter_set s <-> x ∈ s.
Proof. rewrite iter_set_perm. apply elem_of_elements. Qed.

Lemma iter_set_NoDup {K} `{Countable K} (s : gset K) : NoDup (iter_set s).
Proof. rewrite iter_set_perm. apply NoDup_elements. Qed.
End Iteration.

(** ** Decimal keys *)

Lemma digit_char_code d : 0 <= d <= 9 -> ascii_code (digit_char d) = 48 + d.
Proof.
  intros H. unfold ascii_code, digit_char.
  rewrite Ascii.N_ascii_embedding by lia. lia.
Qed.

Lemma undec_dec_go fuel n acc :
  0 <= n < 10 ^ Z.of_nat fuel -> undec 0 (dec_go fuel n acc) = undec n acc.
Proof.
  revert n acc. induction fuel as [|f IH]; intros n acc Hn.
  - cbn in *. f_equal. lia.
  - assert (0 <= n mod 10 <= 9) by (pose proof (Z.mod_pos_bound n 10); lia).
    cbn [dec_go]. destruct (n <? 10) eqn:Hlt; case_bool.
    + cbn [undec]. rewrite digit_char_code by done.
      rewrite Z.mod_small by lia. f_equal. lia.
    + rewrite IH.
      * cbn [undec]. rewrite digit_char_code by done. f_equal.
        pose proof (Z.div_mod n 10). lia.
      * rewrite Nat2Z.inj_succ, Z.pow_succ_r in Hn by lia.
        split; [apply Z.div_pos; lia | apply Z.div_lt_upper_bound; lia].
Qed.

Lemma undec_zeros k s : undec 0 (String.append (zeros k) s) = undec 0 s.
Proof. induction k as [|k IH]; [done|]. cbn -[Z.mul Z.add]. exact IH. Qed.

Lemma undec_pad08 n : is_u64 n -> undec 0 (pad08 n) = n.
Proof.
  intros H. unfold pad08. rewrite undec_zeros. unfold dec.
  rewrite undec_dec_go; [done|]. unfold is_u64, u64_max in H. cbn. lia.
Qed.

Lemma pad08_inj n m : is_u64 n -> is_u64 m -> pad08 n = pad08 m -> n = m.
Proof. intros Hn Hm H. rewrite <- (undec_pad08 n), <- (undec_pad08 m) by done. by rewrite H. Qed.
