(* ===== verification/F64.v ===== *)
(** * IEEE-754 binary64

    The [f64] arithmetic of the source, on the Standard Library's executable
    specification of IEEE-754 ([spec_float] at precision 53 and maximal
    exponent 1024): comparison, rounding and the special values are those of
    the hardware type, and every definition computes. *)

From Stdlib Require Import ZArith Lia SpecFloat.
From stdpp Require Import base gmap strings list.
From S2P Require Import Prelude.

Abbreviation f64 := spec_float.

Definition f64_prec : Z := 53.
Definition f64_emax : Z := 1024.

Definition f64_add : f64 -> f64 -> f64 := SFadd f64_prec f64_emax.
Definition f64_sub : f64 -> f64 -> f64 := SFsub f64_prec f64_emax.
Definition f64_mul : f64 -> f64 -> f64 := SFmul f64_prec f64_emax.
Definition f64_div : f64 -> f64 -> f64 := SFdiv f64_prec f64_emax.
Definition f64_sqrt : f64 -> f64 := SFsqrt f64_prec f64_emax.
Definition f64_neg : f64 -> f64 := SFopp.
Definition f64_abs : f64 -> f64 := SFabs.

(** [n as f64] for an integer: round to nearest, ties to even. *)
Definition f64_of_Z (n : Z) : f64 := binary_normalize f64_prec f64_emax n 0 false.

Definition f64_zero : f64 := S754_zero false.
Definition f64_one : f64 := S754_finite false 4503599627370496 (-52).
Definition f64_infinity : f64 := S754_infinity false.
Definition f64_neg_infinity : f64 := S754_infinity true.

(** [PartialOrd::partial_cmp], [==], [<] and [>] of [f64]. *)
Definition f64_partial_cmp : f64 -> f64 -> option comparison := SFcompare.
Definition f64_eqb (a b : f64) : bool :=
  match SFcompare a b with Some Eq => true | _ => false end.
Definition f64_ltb (a b : f64) : bool :=
  match SFcompare a b with Some Lt => true | _ => false end.
Definition f64_gtb (a b : f64) : bool :=
  match SFcompare a b with Some Gt => true | _ => false end.
Definition f64_geb (a b : f64) : bool :=
  match SFcompare a b with Some Gt => true | Some Eq => true | _ => false end.

Definition f64_is_nan (a : f64) : bool :=
  match a with S754_nan => true | _ => false end.
Definition f64_is_finite (a : f64) : bool :=
  match a with S754_zero _ | S754_finite _ _ _ => true | _ => false end.

(** [f64::max], [f64::min]: the other operand when one is NaN. *)
Definition f64_max (a b : f64) : f64 :=
  if f64_is_nan a then b else if f64_is_nan b then a
  else if f64_ltb a b then b else a.
Definition f64_min (a b : f64) : f64 :=
  if f64_is_nan a then b else if f64_is_nan b then a
  else if f64_ltb b a then b else a.

(** [a.partial_cmp(b).unwrap_or(Ordering::Equal)]. *)
Definition f64_cmp_or_eq (a b : f64) : comparison :=
  match f64_partial_cmp a b with Some c => c | None => Eq end.

#[export] Instance f64_eq_decision : EqDecision f64.
Proof. solve_decision. Defined.

(** ** The order on values that are not NaN

    [f64_key] places a value in a lexicographic order of integers in which
    comparison of non-NaN values is integer comparison. *)

Definition f64_key (a : f64) : Z * Z * Z :=
  match a with
  | S754_zero _ => (0, 0, 0)
  | S754_infinity true => (-2, 0, 0)
  | S754_infinity false => (2, 0, 0)
  | S754_nan => (3, 0, 0)
  | S754_finite true m e => (-1, - e, - Z.pos m)
  | S754_finite false m e => (1, e, Z.pos m)
  end.

Definition key_compare (k1 k2 : Z * Z * Z) : comparison :=
  let '(a1, b1, c1) := k1 in
  let '(a2, b2, c2) := k2 in
  match Z.compare a1 a2 with
  | Eq => match Z.compare b1 b2 with Eq => Z.compare c1 c2 | c => c end
  | c => c
  end.

Lemma f64_partial_cmp_key a b :
  f64_is_nan a = false -> f64_is_nan b = false ->
  f64_partial_cmp a b = Some (key_compare (f64_key a) (f64_key b)).
Proof.
  unfold f64_partial_cmp.
  destruct a as [?|[]| |[] m1 e1], b as [?|[]| |[] m2 e2]; try done; intros _ _; cbn.
  f_equal. rewrite (Z.compare_opp e1 e2), (Z.compare_antisym e1 e2).
  destruct (e1 ?= e2); done.
Qed.

Lemma key_compare_flip k1 k2 : key_compare k2 k1 = CompOpp (key_compare k1 k2).
Proof.
  destruct k1 as [[a1 b1] c1], k2 as [[a2 b2] c2]. cbn.
  rewrite (Z.compare_antisym a1 a2), (Z.compare_antisym b1 b2), (Z.compare_antisym c1 c2).
  by destruct (a1 ?= a2), (b1 ?= b2), (c1 ?= c2).
Qed.

Lemma key_compare_le k1 k2 :
  key_compare k1 k2 <> Gt <->
  k1.1.1 < k2.1.1 \/ k1.1.1 = k2.1.1 /\
    (k1.1.2 < k2.1.2 \/ k1.1.2 = k2.1.2 /\ k1.2 <= k2.2).
Proof.
  destruct k1 as [[a1 b1] c1], k2 as [[a2 b2] c2]. cbn.
  destruct (Z.compare_spec a1 a2), (Z.compare_spec b1 b2), (Z.compare_spec c1 c2);
    split; intros; try congruence; try lia.
Qed.

Lemma key_compare_le_trans k1 k2 k3 :
  key_compare k1 k2 <> Gt -> key_compare k2 k3 <> Gt -> key_compare k1 k3 <> Gt.
Proof. rewrite !key_compare_le. lia. Qed.

Lemma f64_cmp_flip a b :
  f64_partial_cmp b a = CompOpp <$> f64_partial_cmp a b.
Proof.
  destruct (f64_is_nan a) eqn:Ha; [destruct a, b; done|].
  destruct (f64_is_nan b) eqn:Hb; [destruct a, b; done|].
  rewrite !f64_partial_cmp_key by done. cbn. f_equal. apply key_compare_flip.
Qed.

Lemma f64_cmp_or_eq_flip a b : f64_cmp_or_eq b a = CompOpp (f64_cmp_or_eq a b).
Proof. unfold f64_cmp_or_eq. rewrite f64_cmp_flip. by destruct (f64_partial_cmp a b). Qed.

Lemma f64_cmp_or_eq_trans a b c :
  f64_is_nan a = false -> f64_is_nan b = false -> f64_is_nan c = false ->
  f64_cmp_or_eq a b <> Gt -> f64_cmp_or_eq b c <> Gt -> f64_cmp_or_eq a c <> Gt.
Proof.
  intros Ha Hb Hc. unfold f64_cmp_or_eq. rewrite !f64_partial_cmp_key by done.
  apply key_compare_le_trans.
Qed.

Lemma f64_cmp_order : cmp_order (fun x => f64_is_nan x = false) f64_cmp_or_eq.
Proof. split; [intros x y _ _; apply f64_cmp_or_eq_flip|intros x y z; apply f64_cmp_or_eq_trans]. Qed.

Lemma key_compare_eq k1 k2 : key_compare k1 k2 = Eq -> k1 = k2.
Proof.
  destruct k1 as [[a1 b1] c1], k2 as [[a2 b2] c2]. cbn.
  destruct (Z.compare_spec a1 a2), (Z.compare_spec b1 b2), (Z.compare_spec c1 c2);
    congruence.
Qed.

Lemma f64_cmp_or_eq_Eq_trans a b c :
  f64_is_nan a = false -> f64_is_nan b = false -> f64_is_nan c = false ->
  f64_cmp_or_eq a b = Eq -> f64_cmp_or_eq b c = f64_cmp_or_eq a c.
Proof.
  intros Ha Hb Hc. unfold f64_cmp_or_eq. rewrite !f64_partial_cmp_key by done.
  intros ->%key_compare_eq. done.
Qed.

Lemma f64_eqb_refl a : f64_is_nan a = false -> f64_eqb a a = true.
Proof.
  intros Ha. unfold f64_eqb. change SFcompare with f64_partial_cmp.
  rewrite f64_partial_cmp_key by done.
  destruct (f64_key a) as [[x y] z]. cbn. by rewrite !Z.compare_refl.
Qed.

Lemma f64_finite_not_nan a : f64_is_finite a = true -> f64_is_nan a = false.
Proof. by destruct a. Qed.

#[export] Hint Resolve f64_finite_not_nan : puffer.

Lemma f64_eqb_cmp a b :
  f64_eqb a b = match f64_partial_cmp a b with Some Eq => true | _ => false end.
Proof. done. Qed.
