(* ===== verification/Json.v ===== *)
(** * JSON values

    The data model of [serde_json::Value] that the source pattern-matches on
    and reads through its accessors.  An object is the [BTreeMap] of the
    default build: an association list kept in ascending key order by
    [obj_insert]. *)

From Stdlib Require Import ZArith Lia.
From stdpp Require Import base gmap strings list sorting.
From S2P Require Import Prelude F64.

(** A number keeps the integer it was parsed from. *)
Inductive Number : Type :=
| PosInt (n : Z)
| NegInt (n : Z)
| Float (f : f64).

Inductive Value : Type :=
| VNull
| VBool (b : bool)
| VNumber (n : Number)
| VString (s : string)
| VArray (l : list Value)
| VObject (m : list (string * Value)).

Definition number_as_f64 (n : Number) : option f64 :=
  match n with
  | PosInt z => Some (f64_of_Z z)
  | NegInt z => Some (f64_of_Z z)
  | Float f => Some f
  end.

Definition as_f64 (v : Value) : option f64 :=
  match v with VNumber n => number_as_f64 n | _ => None end.
Definition as_str (v : Value) : option string :=
  match v with VString s => Some s | _ => None end.
Definition as_bool (v : Value) : option bool :=
  match v with VBool b => Some b | _ => None end.
Definition as_array (v : Value) : option (list Value) :=
  match v with VArray l => Some l | _ => None end.
Definition as_object (v : Value) : option (list (string * Value)) :=
  match v with VObject m => Some m | _ => None end.
Definition is_null (v : Value) : bool :=
  match v with VNull => true | _ => false end.

Fixpoint obj_get {A} (m : list (string * A)) (k : string) : option A :=
  match m with
  | [] => None
  | (k', v) :: m' => if String.eqb k' k then Some v else obj_get m' k
  end.

Fixpoint obj_insert {A} (m : list (string * A)) (k : string) (v : A) : list (string * A) :=
  match m with
  | [] => [(k, v)]
  | (k', v') :: m' =>
      match str_cmp k k' with
      | Lt => (k, v) :: (k', v') :: m'
      | Eq => (k, v) :: m'
      | Gt => (k', v') :: obj_insert m' k v
      end
  end.

(** [Value::get] on an object. *)
Definition value_get (v : Value) (k : string) : option Value :=
  match v with VObject m => obj_get m k | _ => None end.

Lemma str_cmp_eq a b : str_cmp a b = Eq <-> a = b.
Proof.
  unfold str_cmp. split; [apply String.compare_eq_iff|]. intros ->.
  pose proof (String.compare_antisym b b) as H. by destruct (String.compare b b).
Qed.

Lemma str_cmp_flip a b : str_cmp b a = CompOpp (str_cmp a b).
Proof. apply String.compare_antisym. Qed.

Lemma obj_get_insert {A} (m : list (string * A)) k v k' :
  obj_get (obj_insert m k v) k' = if String.eqb k k' then Some v else obj_get m k'.
Proof.
  induction m as [|[k0 v0] m IH]; cbn; [done|].
  destruct (str_cmp k k0) eqn:Hc; cbn.
  - apply str_cmp_eq in Hc as ->. by destruct (String.eqb k0 k').
  - done.
  - destruct (String.eqb_spec k0 k') as [->|]; [|apply IH].
    destruct (String.eqb_spec k k') as [->|]; [|done].
    assert (str_cmp k' k' = Eq) by by apply str_cmp_eq. congruence.
Qed.

(** Folding insertions over a patch: the last binding of the patch wins, and
    names it does not bind keep their old value. *)
Lemma obj_get_fold_insert {A} (patch : list (string * A)) (m : list (string * A)) k :
  NoDup patch.*1 ->
  obj_get (fold_left (fun acc kv => obj_insert acc kv.1 kv.2) patch m) k =
  match obj_get patch k with Some v => Some v | None => obj_get m k end.
Proof.
  revert m. induction patch as [|[k0 v0] patch IH]; intros m Hnd; [done|].
  cbn in Hnd. apply NoDup_cons in Hnd as [Hni Hnd]. cbn [fold_left fst snd].
  rewrite IH by done. cbn [obj_get]. rewrite obj_get_insert.
  destruct (String.eqb_spec k0 k) as [->|]; [|done].
  enough (obj_get patch k = None) as -> by done.
  clear -Hni. induction patch as [|[k1 v1] patch IH]; [done|]. cbn in *.
  destruct (String.eqb_spec k1 k) as [->|]; set_solver.
Qed.

(** ** Objects in key order *)

Lemma str_cmp_lt_trans a b c : str_cmp a b = Lt -> str_cmp b c = Lt -> str_cmp a c = Lt.
Proof.
  unfold str_cmp. revert b c. induction a as [|x a IH]; intros [|y b] [|z c]; try done. cbn.
  unfold Ascii.compare.
  destruct (N.compare_spec (Ascii.N_of_ascii x) (Ascii.N_of_ascii y)) as [E1|E1|E1];
    destruct (N.compare_spec (Ascii.N_of_ascii y) (Ascii.N_of_ascii z)) as [E2|E2|E2];
    try done; intros H1 H2.
  - replace (N.compare _ _) with Eq by (symmetry; apply N.compare_eq_iff; congruence). eauto.
  - replace (N.compare _ _) with Lt by (symmetry; apply N.compare_lt_iff; congruence). done.
  - replace (N.compare _ _) with Lt by (symmetry; apply N.compare_lt_iff; congruence). done.
  - replace (N.compare _ _) with Lt by (symmetry; apply N.compare_lt_iff; lia). done.
Qed.

Lemma str_cmp_refl a : str_cmp a a = Eq.
Proof. by apply str_cmp_eq. Qed.

Lemma str_cmp_le_trans a b c : str_cmp a b <> Gt -> str_cmp b c <> Gt -> str_cmp a c <> Gt.
Proof.
  intros Hab Hbc. destruct (str_cmp a b) eqn:E1; [|clear Hab|done].
  - apply str_cmp_eq in E1 as ->. done.
  - destruct (str_cmp b c) eqn:E2; [|clear Hbc|done].
    + apply str_cmp_eq in E2 as <-. by rewrite E1.
    + by rewrite (str_cmp_lt_trans a b c).
Qed.

Lemma str_cmp_order : cmp_order (fun _ => True) str_cmp.
Proof. split; [intros x y _ _; apply str_cmp_flip|intros x y z _ _ _; apply str_cmp_le_trans]. Qed.

(** The invariant of a [BTreeMap]'s entries. *)
Definition obj_sorted {A} (m : list (string * A)) : Prop :=
  StronglySorted (fun a b => str_cmp a b = Lt) m.*1.

Lemma obj_sorted_NoDup {A} (m : list (string * A)) : obj_sorted m -> NoDup m.*1.
Proof.
  unfold obj_sorted. induction 1 as [|k l _ IH Hk]; constructor; [|done].
  intros Hin. rewrite Forall_forall in Hk. apply Hk in Hin. by rewrite str_cmp_refl in Hin.
Qed.

Lemma obj_insert_keys {A} (m : list (string * A)) k v :
  forall k', k' ∈ (obj_insert m k v).*1 -> k' = k \/ k' ∈ m.*1.
Proof.
  induction m as [|[k0 v0] m IH]; intros k'; cbn; [set_solver|].
  destruct (str_cmp k k0) eqn:Hc; cbn; [set_solver..|].
  rewrite !elem_of_cons. intros [->|Hk']; [set_solver|]. apply IH in Hk'. tauto.
Qed.

Lemma obj_insert_sorted {A} (m : list (string * A)) k v :
  obj_sorted m -> obj_sorted (obj_insert m k v).
Proof.
  unfold obj_sorted. induction m as [|[k0 v0] m IH]; cbn; intros Hs.
  - repeat constructor.
  - apply StronglySorted_inv in Hs as [Hs Hk0].
    destruct (str_cmp k k0) eqn:Hc; cbn.
    + apply str_cmp_eq in Hc as ->. by constructor.
    + constructor; [by constructor|]. constructor; [done|].
      rewrite Forall_forall in Hk0 |- *. intros x Hx. eauto using str_cmp_lt_trans.
    + constructor; [by apply IH|]. rewrite Forall_forall in Hk0 |- *. intros x Hx.
      apply obj_insert_keys in Hx as [->|Hx]; [|by apply Hk0].
      by rewrite str_cmp_flip, Hc.
Qed.

Lemma obj_fold_insert_sorted {A} (patch m : list (string * A)) :
  obj_sorted m -> obj_sorted (fold_left (fun acc kv => obj_insert acc kv.1 kv.2) patch m).
Proof.
  revert m. induction patch as [|[k v] patch IH]; intros m Hm; [done|]. cbn.
  apply IH. by apply obj_insert_sorted.
Qed.

Lemma obj_get_elem {A} (m : list (string * A)) k v :
  NoDup m.*1 -> obj_get m k = Some v <-> (k, v) ∈ m.
Proof.
  induction m as [|[k0 v0] m IH]; cbn; intros Hnd.
  - split; [done|]. by intros ?%not_elem_of_nil.
  - apply NoDup_cons in Hnd as [Hni Hnd]. rewrite elem_of_cons.
    destruct (String.eqb_spec k0 k) as [->|Hk].
    + split; [intros [=->]; by left|]. intros [[=->]|Hin]; [done|].
      destruct Hni. apply list_elem_of_fmap. by exists (k, v).
    + rewrite IH by done. split; [by right|]. intros [[=]|?]; [congruence|done].
Qed.

#[export] Hint Resolve obj_sorted_NoDup obj_insert_sorted obj_fold_insert_sorted : puffer.

#[export] Instance Number_eq_decision : EqDecision Number.
Proof. solve_decision. Defined.

#[export] Instance Value_eq_decision : EqDecision Value.
Proof.
  refine (fix go (a b : Value) : Decision (a = b) :=
    match a, b with
    | VNull, VNull => left eq_refl
    | VBool x, VBool y => cast_if (decide (x = y))
    | VNumber x, VNumber y => cast_if (decide (x = y))
    | VString x, VString y => cast_if (decide (x = y))
    | VArray x, VArray y => cast_if (@list_eq_dec _ go x y)
    | VObject x, VObject y => cast_if (@list_eq_dec _ (@prod_eq_dec _ _ _ go) x y)
    | _, _ => right _
    end); abstract congruence.
Defined.

(** No floating-point number occurs in the value: such values survive
    [serde_json] printing and parsing exactly. *)
Fixpoint value_no_float (v : Value) : bool :=
  match v with
  | VNumber (Float _) => false
  | VArray l => forallb value_no_float l
  | VObject m => forallb (fun kv => value_no_float kv.2) m
  | _ => true
  end.

Lemma obj_insert_no_float (m : list (string * Value)) k v :
  forallb (fun kv => value_no_float kv.2) m = true -> value_no_float v = true ->
  forallb (fun kv => value_no_float kv.2) (obj_insert m k v) = true.
Proof.
  intros Hm Hv. induction m as [|[k' v'] m IH]; cbn in *; [by rewrite Hv|]. case_bool.
  destruct (str_cmp k k'); cbn; rewrite ?Hv; rewrite_bools || (rewrite H, IH by done; done).
Qed.
