(* ===== verification/Models.v ===== *)
(** * Shared data model ([models.rs])

    Documents, write statistics and the response built from them, the index
    status, and the validation of document ids. *)

From Stdlib Require Import ZArith Lia.
From stdpp Require Import base gmap strings list.
From S2P Require Import Prelude F64 Json.

Definition ROOT_PREFIX : string := "openpuffer/".

Definition MAX_DOC_ID_BYTES : Z := 255.

Record Document : Type := mkDocument {
  doc_id : string;
  doc_attributes : gmap string Value
}.

Inductive DocIdError : Type := IdEmpty | IdTooLong | IdBadChar.

Definition str_NUL : string := String (Ascii.ascii_of_nat 0) EmptyString.

Definition validate_doc_id (id : string) : result DocIdError unit :=
  if String.eqb id "" then Err IdEmpty
  else if MAX_DOC_ID_BYTES <? str_len id then Err IdTooLong
  else if (str_contains "/" id || str_contains "\" id || str_contains str_NUL id)%bool
  then Err IdBadChar
  else Ok tt.

Record WriteStats : Type := mkWriteStats {
  ws_rows_upserted : Z;
  ws_rows_patched : Z;
  ws_rows_deleted : Z;
  ws_upserted_ids : option (list string);
  ws_deleted_ids : option (list string);
  ws_rows_remaining : option bool
}.

Definition rows_affected (s : WriteStats) : Z :=
  ws_rows_upserted s + ws_rows_patched s + ws_rows_deleted s.

Definition billable_logical_bytes_written (s : WriteStats) : Z :=
  sat_mul64 (rows_affected s) 64.

Record WriteResponse : Type := mkWriteResponse {
  wr_status : string;
  wr_namespace : string;
  wr_rows_affected : Z;
  wr_rows_upserted : option Z;
  wr_rows_patched : option Z;
  wr_rows_deleted : option Z;
  wr_upserted_ids : option (list string);
  wr_deleted_ids : option (list string);
  wr_rows_remaining : option bool;
  wr_billable_bytes : Z
}.

(** [(cond).then_some(v)]. *)
Definition then_some {A} (c : bool) (v : A) : option A := if c then Some v else None.

Definition from_stats (namespace : string) (s : WriteStats) : WriteResponse := {|
  wr_status := "ok";
  wr_namespace := namespace;
  wr_rows_affected := rows_affected s;
  wr_rows_upserted := then_some (0 <? ws_rows_upserted s) (ws_rows_upserted s);
  wr_rows_patched := then_some (0 <? ws_rows_patched s) (ws_rows_patched s);
  wr_rows_deleted := then_some (0 <? ws_rows_deleted s) (ws_rows_deleted s);
  wr_upserted_ids := ws_upserted_ids s;
  wr_deleted_ids := ws_deleted_ids s;
  wr_rows_remaining := ws_rows_remaining s;
  wr_billable_bytes := billable_logical_bytes_written s
|}.

Inductive IndexStatus : Type := CatchingUp | UpToDate.

Definition index_status_from_meta (index_cursor wal_commit_seq : Z) : IndexStatus :=
  if index_cursor <? wal_commit_seq then CatchingUp else UpToDate.

Definition namespace_prefix (name : string) : string :=
  String.append ROOT_PREFIX (String.append name "/").

(** [UpsertRow] and [PatchRow] have the shape of a document. *)
Record WriteRequest : Type := mkWriteRequest {
  upsert_rows : list Document;
  upsert_columns : option Value;
  patch_rows : list Document;
  patch_columns : option Value;
  req_deletes : list string;
  req_schema : option Value;
  delete_by_filter : option Value;
  delete_by_filter_allow_partial : bool;
  patch_by_filter : option Value;
  patch_by_filter_allow_partial : bool;
  copy_from_namespace : option string;
  branch_from_namespace : option string;
  upsert_condition : option Value;
  patch_condition : option Value;
  delete_condition : option Value;
  req_distance_metric : option string;
  return_affected_ids : bool;
  block_until_indexed : bool
}.

#[export] Instance Document_eq_decision : EqDecision Document.
Proof. solve_decision. Defined.
