(* ===== verification/Filter.v ===== *)
(** * Filter expressions ([filter.rs])

    The filter DSL: its expression tree, the parser from JSON, evaluation
    against one document, and the conditional-write predicates. *)

From Stdlib Require Import ZArith Lia Bool.
From stdpp Require Import base gmap strings list.
From S2P Require Import Prelude F64 Json Models.

Inductive CmpOp : Type := CEq | CNe | CGt | CGte | CLt | CLte.

Inductive FilterValue : Type :=
| FString (s : string)
| FNumber (f : f64)
| FBool (b : bool)
| FNull
| FRefNew (field : string).

Inductive FilterExpr : Type :=
| FAnd (subs : list FilterExpr)
| FOr (subs : list FilterExpr)
| FCmp (field : string) (op : CmpOp) (value : FilterValue).

#[export] Instance CmpOp_eq_decision : EqDecision CmpOp.
Proof. solve_decision. Defined.
#[export] Instance FilterValue_eq_decision : EqDecision FilterValue.
Proof. solve_decision. Defined.

(** Every way [parse_filter] and [FilterValue::from_json] reject their input. *)
Inductive FilterError : Type :=
| NotAnArray
| EmptyArray
| HeadNotString
| AndNeedsSubArray
| OrNeedsSubArray
| CmpNeedsThree
| OpNotString
| InNeedsArray
| InEmpty
| UnsupportedOp (op : string)
| NumberNotFinite
| BadValueObject
| BadValue.

(** ** Parsing *)

Definition filter_value_from_json (v : Value) : result FilterError FilterValue :=
  match v with
  | VString s => Ok (FString s)
  | VBool b => Ok (FBool b)
  | VNumber n => ok_or (FNumber <$> number_as_f64 n) NumberNotFinite
  | VNull => Ok FNull
  | VObject m =>
      if lenZ m =? 1 then
        match obj_get m "$ref_new" ≫= as_str with
        | Some field => Ok (FRefNew field)
        | None => Err BadValueObject
        end
      else Err BadValueObject
  | VArray _ => Err BadValue
  end.

Definition from_json_array (arr : list Value) : result FilterError (list FilterValue) :=
  collect_result filter_value_from_json arr.

Definition parse_cmp_op (s : string) : result FilterError CmpOp :=
  if String.eqb s "Eq" then Ok CEq
  else if String.eqb s "Ne" then Ok CNe
  else if String.eqb s "Gt" then Ok CGt
  else if String.eqb s "Gte" then Ok CGte
  else if String.eqb s "Lt" then Ok CLt
  else if String.eqb s "Lte" then Ok CLte
  else Err (UnsupportedOp s).

(** The comparison branch of [parse_filter] ([field => ...]). *)
Definition parse_comparison (field : string) (arr : list Value) : result FilterError FilterExpr :=
  match arr with
  | _ :: op_v :: val_v :: _ =>
      let? op_str := ok_or (as_str op_v) OpNotString in
      if String.eqb op_str "In" then
        let? vs := ok_or (as_array val_v) InNeedsArray in
        let? values := from_json_array vs in
        match values with
        | [] => Err InEmpty
        | _ => Ok (FOr ((fun value => FCmp field CEq value) <$> values))
        end
      else
        let? op := parse_cmp_op op_str in
        let? value := filter_value_from_json val_v in
        Ok (FCmp field op value)
  | _ => Err CmpNeedsThree
  end.

Fixpoint parse_filter (v : Value) : result FilterError FilterExpr :=
  match v with
  | VArray arr =>
      match arr with
      | [] => Err EmptyArray
      | head_v :: rest =>
          match as_str head_v with
          | None => Err HeadNotString
          | Some head =>
              if (String.eqb head "And" || String.eqb head "and")%bool then
                match rest with
                | VArray subs :: _ => result_map FAnd (collect_result parse_filter subs)
                | _ => Err AndNeedsSubArray
                end
              else if (String.eqb head "Or" || String.eqb head "or")%bool then
                match rest with
                | VArray subs :: _ => result_map FOr (collect_result parse_filter subs)
                | _ => Err OrNeedsSubArray
                end
              else parse_comparison head arr
          end
      end
  | _ => Err NotAnArray
  end.

(** ** Evaluation *)

(** Derived [PartialEq] of [FilterValue]. *)
Definition fv_eqb (a b : FilterValue) : bool :=
  match a, b with
  | FString x, FString y => String.eqb x y
  | FNumber x, FNumber y => f64_eqb x y
  | FBool x, FBool y => Bool.eqb x y
  | FNull, FNull => true
  | FRefNew x, FRefNew y => String.eqb x y
  | _, _ => false
  end.

Definition attr_to_filter_value (v : Value) : option FilterValue :=
  match v with
  | VNull => None
  | VString s => Some (FString s)
  | VBool b => Some (FBool b)
  | VNumber n => FNumber <$> number_as_f64 n
  | _ => None
  end.

Definition doc_field_value (doc : Document) (field : string) : option FilterValue :=
  if String.eqb field "id" then Some (FString (doc_id doc))
  else doc_attributes doc !! field ≫= attr_to_filter_value.

Definition resolve_rhs (rhs : FilterValue) (new_doc : option Document) (ref_new_null : bool)
  : option FilterValue :=
  match rhs with
  | FRefNew field =>
      if ref_new_null then Some FNull
      else new_doc ≫= fun new => doc_field_value new field
  | other => Some other
  end.

(** [bool: Ord]: [false < true]. *)
Definition bool_cmp (a b : bool) : comparison :=
  match a, b with
  | false, true => Lt
  | true, false => Gt
  | _, _ => Eq
  end.

Definition bool_f64 (b : bool) : f64 := if b then f64_one else f64_zero.

Definition compare_values (lhs rhs : FilterValue) : option comparison :=
  match lhs, rhs with
  | FNumber a, FNumber b => f64_partial_cmp a b
  | FString a, FString b => Some (str_cmp a b)
  | FBool a, FBool b => Some (bool_cmp a b)
  | FNumber a, FBool b => f64_partial_cmp a (bool_f64 b)
  | FBool a, FNumber b => f64_partial_cmp (bool_f64 a) b
  | _, _ => None
  end.

(** The ordering test of a range operator. *)
Definition op_accepts (op : CmpOp) (o : option comparison) : bool :=
  match op, o with
  | CGt, Some Gt => true
  | CGte, Some (Gt | Eq) => true
  | CLt, Some Lt => true
  | CLte, Some (Lt | Eq) => true
  | _, _ => false
  end.

Definition eval_cmp (doc : Document) (field : string) (op : CmpOp) (rhs : FilterValue)
    (new_doc : option Document) (ref_new_null : bool) : bool :=
  let lhs := doc_field_value doc field in
  let rhs := resolve_rhs rhs new_doc ref_new_null in
  match op with
  | CEq =>
      match lhs, rhs with
      | None, Some FNull => true
      | None, _ => false
      | Some _, Some FNull => false
      | Some l, Some r => fv_eqb l r
      | _, None => false
      end
  | CNe =>
      match lhs, rhs with
      | None, Some FNull => false
      | None, _ => true
      | Some _, Some FNull => true
      | Some l, Some r => negb (fv_eqb l r)
      | _, None => false
      end
  | _ =>
      match lhs, rhs with
      | Some l, Some r => op_accepts op (compare_values l r)
      | _, _ => false
      end
  end.

Fixpoint eval_filter_with_new (expr : FilterExpr) (doc : Document)
    (new_doc : option Document) (ref_new_null : bool) : bool :=
  match expr with
  | FAnd subs => forallb (fun s => eval_filter_with_new s doc new_doc ref_new_null) subs
  | FOr subs => existsb (fun s => eval_filter_with_new s doc new_doc ref_new_null) subs
  | FCmp field op value => eval_cmp doc field op value new_doc ref_new_null
  end.

Definition eval_filter (expr : FilterExpr) (doc : Document) : bool :=
  eval_filter_with_new expr doc None false.

Definition should_apply_upsert (expr : FilterExpr) (current : option Document) (new : Document) : bool :=
  match current with
  | None => true
  | Some doc => eval_filter_with_new expr doc (Some new) false
  end.

Definition should_apply_patch (expr : FilterExpr) (current : option Document) (patch : Document) : bool :=
  match current with
  | None => false
  | Some doc => eval_filter_with_new expr doc (Some patch) false
  end.

Definition should_apply_delete (expr : FilterExpr) (current : option Document) : bool :=
  match current with
  | None => false
  | Some doc => eval_filter_with_new expr doc None true
  end.

(** ** Structure of expressions *)

Section FilterExprInd.
Variable P : FilterExpr -> Prop.
Hypothesis P_and : forall subs, Forall P subs -> P (FAnd subs).
Hypothesis P_or : forall subs, Forall P subs -> P (FOr subs).
Hypothesis P_cmp : forall field op value, P (FCmp field op value).

Fixpoint FilterExpr_nested_ind (e : FilterExpr) : P e :=
  let fix go (l : list FilterExpr) : Forall P l :=
    match l with
    | [] => Forall_nil_2 _
    | x :: xs => Forall_cons_2 _ _ _ (FilterExpr_nested_ind x) (go xs)
    end in
  match e with
  | FAnd subs => P_and subs (go subs)
  | FOr subs => P_or subs (go subs)
  | FCmp field op value => P_cmp field op value
  end.
End FilterExprInd.

(** The JSON a client writes for an expression: the inverse of the parser,
    used to state that the parser loses nothing. *)
Definition unparse_value (v : FilterValue) : Value :=
  match v with
  | FString s => VString s
  | FNumber f => VNumber (Float f)
  | FBool b => VBool b
  | FNull => VNull
  | FRefNew field => VObject [("$ref_new", VString field)]
  end.

Definition unparse_op (op : CmpOp) : string :=
  match op with
  | CEq => "Eq" | CNe => "Ne" | CGt => "Gt" | CGte => "Gte" | CLt => "Lt" | CLte => "Lte"
  end.

Fixpoint unparse (e : FilterExpr) : Value :=
  match e with
  | FAnd subs => VArray [VString "And"; VArray (unparse <$> subs)]
  | FOr subs => VArray [VString "Or"; VArray (unparse <$> subs)]
  | FCmp field op value => VArray [VString field; VString (unparse_op op); unparse_value value]
  end.

(** No comparison is on a field the parser reads as a connective. *)
Definition plain_field (field : string) : bool :=
  negb (String.eqb field "And" || String.eqb field "and" ||
        String.eqb field "Or" || String.eqb field "or").

Fixpoint plain_fields (e : FilterExpr) : bool :=
  match e with
  | FAnd subs | FOr subs => forallb plain_fields subs
  | FCmp field _ _ => plain_field field
  end.

(** Values compare within one JSON kind. *)
Definition same_kind (a b : FilterValue) : bool :=
  match a, b with
  | FString _, FString _ | FNumber _, FNumber _ | FBool _, FBool _ => true
  | _, _ => false
  end.

Definition fv_is_nan (v : FilterValue) : bool :=
  match v with FNumber f => f64_is_nan f | _ => false end.

Lemma filter_value_roundtrip v : filter_value_from_json (unparse_value v) = Ok v.
Proof. by destruct v. Qed.

Lemma parse_comparison_unparse field op v :
  parse_comparison field [VString field; VString (unparse_op op); unparse_value v]
  = Ok (FCmp field op v).
Proof. destruct op; cbn; by rewrite filter_value_roundtrip. Qed.

Lemma plain_field_heads field :
  plain_field field = true ->
  (String.eqb field "And" || String.eqb field "and")%bool = false /\
  (String.eqb field "Or" || String.eqb field "or")%bool = false.
Proof.
  unfold plain_field. rewrite negb_true_iff, !orb_false_iff. tauto.
Qed.

Lemma collect_parse_unparse subs :
  Forall (fun e => parse_filter (unparse e) = Ok e <-> plain_fields e = true) subs ->
  collect_result parse_filter (unparse <$> subs) = Ok subs <-> forallb plain_fields subs = true.
Proof.
  induction 1 as [|e subs He _ IH]; cbn; [done|]. rewrite andb_true_iff, <- He, <- IH.
  destruct (parse_filter (unparse e)) as [e'|err]; cbn; [|naive_solver].
  destruct (collect_result parse_filter (unparse <$> subs)) as [es|err]; cbn; naive_solver.
Qed.

Lemma eval_or_of_eqs field values doc :
  eval_filter (FOr ((fun value => FCmp field CEq value) <$> values)) doc
  = existsb (fun v => eval_cmp doc field CEq v None false) values.
Proof.
  unfold eval_filter. cbn. induction values as [|v values IH]; [done|]. cbn. by rewrite IH.
Qed.

(** Comparison and equality agree within a kind. *)
Lemma compare_same_kind l r :
  same_kind l r = true -> fv_is_nan l = false -> fv_is_nan r = false ->
  exists c, compare_values l r = Some c /\ fv_eqb l r = match c with Eq => true | _ => false end.
Proof.
  destruct l, r; try done; cbn; intros _ Hl Hr.
  - eexists. split; [done|]. destruct (str_cmp s s0) eqn:Hc.
    + apply str_cmp_eq in Hc as ->. apply String.eqb_refl.
    + apply String.eqb_neq. intros ->.
      assert (str_cmp s0 s0 = Eq) by by apply str_cmp_eq. congruence.
    + apply String.eqb_neq. intros ->.
      assert (str_cmp s0 s0 = Eq) by by apply str_cmp_eq. congruence.
  - rewrite f64_eqb_cmp.
    rewrite f64_partial_cmp_key by done. eexists. split; [done|].
    by destruct (key_compare _ _).
  - eexists. split; [done|]. by destruct b, b0.
Qed.

(** C34: the parser reads an expression back from its surface syntax exactly
    when no comparison in it is on a field named [And], [and], [Or] or [or]
    ([plain_fields]), which the parser takes for a connective; for all others no
    connective, operator, field or value is lost or confused. *)
Theorem parse_unparse e : parse_filter (unparse e) = Ok e <-> plain_fields e = true.
Proof.
  induction e as [subs IH|subs IH|field op v] using FilterExpr_nested_ind.
  - cbn. rewrite <- (collect_parse_unparse subs IH). destruct (collect_result _ _); cbn; naive_solver.
  - cbn. rewrite <- (collect_parse_unparse subs IH). destruct (collect_result _ _); cbn; naive_solver.
  - change (unparse (FCmp field op v)) with
      (VArray [VString field; VString (unparse_op op); unparse_value v]).
    cbn [parse_filter as_str plain_fields]. unfold plain_field.
    rewrite parse_comparison_unparse.
    by destruct (String.eqb field "And"), (String.eqb field "and"), (String.eqb field "Or"), (String.eqb field "or").
Qed.

Lemma parse_unparse_witness :
  parse_filter (unparse (FAnd [FCmp "tier" CEq (FString "pro"); FOr [FCmp "n" CGte (FRefNew "n")]]))
  = Ok (FAnd [FCmp "tier" CEq (FString "pro"); FOr [FCmp "n" CGte (FRefNew "n")]]).
Proof. apply parse_unparse. reflexivity. Defined.

(** a parsed [In] filter is a non-empty disjunction of equality tests: a
    document matches exactly when its field equals one of the listed values. *)
Theorem parse_in_eval field vs tail e doc :
  plain_field field = true ->
  parse_filter (VArray (VString field :: VString "In" :: VArray vs :: tail)) = Ok e ->
  exists values,
    from_json_array vs = Ok values /\ values <> [] /\
    eval_filter e doc = existsb (fun v => eval_cmp doc field CEq v None false) values.
Proof.
  intros Hf. apply plain_field_heads in Hf as [H1 H2].
  cbn [parse_filter as_str]. rewrite H1, H2. cbn.
  destruct (from_json_array vs) as [values|err] eqn:Hv; cbn; [|done].
  destruct values as [|v values]; [done|]. intros [=<-].
  exists (v :: values). split; [done|]. split; [done|]. apply (eval_or_of_eqs field (v :: values) doc).
Qed.

Lemma parse_in_eval_witness :
  exists values,
    from_json_array [VString "a"; VString "b"] = Ok values /\ values <> [] /\
    eval_filter (FOr [FCmp "tier" CEq (FString "a"); FCmp "tier" CEq (FString "b")])
      (mkDocument "x" {[ "tier" := VString "b" ]}) =
    existsb (fun v => eval_cmp (mkDocument "x" {[ "tier" := VString "b" ]}) "tier" CEq v None false)
      values.
Proof. eapply (parse_in_eval "tier" _ []); reflexivity. Defined.

(** [Ne] is the complement of [Eq] on every document, with one exception:
    the field is present and the right-hand side is a [$ref_new] that does not
    resolve, in which case both tests are false. *)
Theorem eval_ne_complement doc field rhs new_doc ref_new_null :
  eval_cmp doc field CNe rhs new_doc ref_new_null
    = negb (eval_cmp doc field CEq rhs new_doc ref_new_null)
  <-> ~ (is_Some (doc_field_value doc field) /\
         resolve_rhs rhs new_doc ref_new_null = None).
Proof.
  unfold eval_cmp.
  destruct (doc_field_value doc field) as [l|]; cbn;
    destruct (resolve_rhs rhs new_doc ref_new_null) as [r|]; cbn.
  - split; [intros _ [_ ?]; congruence|]. intros _. by destruct r.
  - split; [done|]. intros H. destruct H. split; [by eexists|done].
  - split; [intros _ [[? ?] _]; congruence|]. intros _. by destruct r.
  - split; [intros _ [[? ?] _]; congruence|done].
Qed.

(** on two values of one kind the five tests that hold are consistent:
    [Lte] is [Lt] or [Eq], [Gte] is [Gt] or [Eq], and exactly one of [Lt],
    [Eq] and [Gt] holds (NaN, which JSON cannot carry, excluded). *)
Theorem range_ops_consistent doc field l rhs r new_doc rn :
  doc_field_value doc field = Some l ->
  resolve_rhs rhs new_doc rn = Some r ->
  same_kind l r = true ->
  fv_is_nan l = false -> fv_is_nan r = false ->
  let ev op := eval_cmp doc field op rhs new_doc rn in
  ev CLte = (ev CLt || ev CEq)%bool /\
  ev CGte = (ev CGt || ev CEq)%bool /\
  ((ev CLt = true /\ ev CEq = false /\ ev CGt = false) \/
   (ev CLt = false /\ ev CEq = true /\ ev CGt = false) \/
   (ev CLt = false /\ ev CEq = false /\ ev CGt = true)).
Proof.
  intros Hl Hr Hk Hnl Hnr ev.
  destruct (compare_same_kind l r Hk Hnl Hnr) as [c [Hc Heq]].
  assert (ev CEq = match c with Eq => true | _ => false end) as E.
  { unfold ev, eval_cmp. rewrite Hl, Hr, <- Heq. by destruct l, r. }
  assert (forall op, op <> CEq -> op <> CNe -> ev op = op_accepts op (Some c)) as R.
  { intros op H1 H2. unfold ev, eval_cmp. rewrite Hl, Hr, Hc. by destruct op. }
  rewrite E, !R by done. destruct c; cbn; intuition.
Qed.

Lemma range_ops_consistent_witness :
  let doc := mkDocument "x" {[ "n" := VNumber (PosInt 3) ]} in
  let ev op := eval_cmp doc "n" op (FNumber (f64_of_Z 5)) None false in
  ev CLte = (ev CLt || ev CEq)%bool /\
  ev CGte = (ev CGt || ev CEq)%bool /\
  ((ev CLt = true /\ ev CEq = false /\ ev CGt = false) \/
   (ev CLt = false /\ ev CEq = true /\ ev CGt = false) \/
   (ev CLt = false /\ ev CEq = false /\ ev CGt = true)).
Proof. eapply (range_ops_consistent _ "n"); vm_compute; reflexivity. Defined.

(** the conditional-write predicates.  [["id","Eq",null]] on an upsert is
    insert-if-not-exists; a conditional patch or delete never touches a missing
    document; and under a delete every [$ref_new] reads as null, so
    [field = $ref_new] deletes exactly the documents without the field. *)
Theorem conditional_write_cases expr current new field :
  should_apply_upsert (FCmp "id" CEq FNull) current new
    = negb (bool_decide (is_Some current)) /\
  should_apply_upsert expr None new = true /\
  should_apply_patch expr None new = false /\
  should_apply_delete expr None = false /\
  (forall doc f, should_apply_delete (FCmp field CEq (FRefNew f)) (Some doc)
     = negb (bool_decide (is_Some (doc_field_value doc field)))).
Proof.
  repeat split.
  - by destruct current.
  - intros doc f. cbn. unfold eval_cmp. by destruct (doc_field_value doc field).
Qed.
