(* ===== verification/Keys.v ===== *)
(** * Object keys and request limits ([limits.rs] and the key functions)

    The validation of names that end up in object keys, the keys of every
    durable object of a namespace, and the row limits of a write. *)

From Stdlib Require Import ZArith Lia Bool Ascii.
From stdpp Require Import base gmap strings list.
From S2P Require Import Prelude F64 Json Models.

Definition MAX_NAMESPACE_NAME_LEN : Z := 128.
Definition DEFAULT_MAX_FILTER_BATCH_ROWS : Z := 5000.
Definition DEFAULT_MAX_UPSERT_ROWS : Z := 10000.

Inductive LimitError : Type :=
| SegmentDotDot | SegmentSeparator | SegmentControl
| KeyEmpty | KeyRoot | KeyDotDot | KeyBackslash | KeyEmptySegment
| NameEmpty | NameTooLong | NameBadChar
| FilterBatchTooLarge (matched max_rows : Z).

(** ** Validation *)

Definition is_ascii_alphanumeric (c : ascii) : bool :=
  in_range c 48 57 || in_range c 65 90 || in_range c 97 122.

(** A byte of a multi-byte character fails the test, as the character does. *)
Definition namespace_name_char_ok (c : ascii) : bool :=
  is_ascii_alphanumeric c || Ascii.eqb c "-" || Ascii.eqb c "_" || Ascii.eqb c ".".

(** [chars().any(char::is_control)] on UTF-8: the C0 controls and DEL are one
    byte, the C1 controls U+0080..U+009F are [0xC2] and a byte in [0x80..0x9F]. *)
Fixpoint any_control (s : string) : bool :=
  match s with
  | EmptyString => false
  | String c s' =>
      in_range c 0 31 || (ascii_code c =? 127) ||
      ((ascii_code c =? 194) &&
        match s' with String d _ => in_range d 128 159 | EmptyString => false end) ||
      any_control s'
  end.

Definition validate_s3_path_segment (segment : string) : result LimitError unit :=
  if String.eqb segment "" then Ok tt
  else if str_contains ".." segment then Err SegmentDotDot
  else if str_contains "/" segment || str_contains "\" segment then Err SegmentSeparator
  else if any_control segment then Err SegmentControl
  else Ok tt.

Definition validate_s3_object_key (key : string) : result LimitError unit :=
  if String.eqb key "" then Err KeyEmpty
  else if negb (String.prefix ROOT_PREFIX key) then Err KeyRoot
  else if str_contains ".." key then Err KeyDotDot
  else if str_contains "\" key then Err KeyBackslash
  else if str_contains "//" key then Err KeyEmptySegment
  else Ok tt.

Definition validate_namespace_name (name : string) : result LimitError unit :=
  if String.eqb name "" then Err NameEmpty
  else if MAX_NAMESPACE_NAME_LEN <? str_len name then Err NameTooLong
  else if negb (str_forallb namespace_name_char_ok name) then Err NameBadChar
  else Ok tt.

(** ** Row limits *)

Definition column_rows (cols : option Value) : Z :=
  match cols ≫= fun c => value_get c "id" ≫= as_array with
  | Some ids => lenZ ids
  | None => 0
  end.

Definition count_explicit_write_rows (body : WriteRequest) : Z :=
  lenZ (upsert_rows body) + lenZ (patch_rows body) + lenZ (req_deletes body)
  + column_rows (upsert_columns body) + column_rows (patch_columns body).

Definition cap_filter_batch (ids : list string) (allow_partial : bool) (max_rows : Z)
  : result LimitError (list string * bool) :=
  if lenZ ids <=? max_rows then Ok (ids, false)
  else if allow_partial then Ok (take (Z.to_nat max_rows) ids, true)
  else Err (FilterBatchTooLarge (lenZ ids) max_rows).

(** ** Keys *)

Local Infix "+:+" := String.append (right associativity, at level 60).

Definition meta_key (namespace : string) : string :=
  ROOT_PREFIX +:+ namespace +:+ "/meta.json".
Definition wal_key (namespace : string) (seq : Z) : string :=
  ROOT_PREFIX +:+ namespace +:+ "/wal/" +:+ pad08 seq +:+ ".bin".
Definition wal_snapshot_key (namespace : string) : string :=
  ROOT_PREFIX +:+ namespace +:+ "/wal/snapshot.bin".
Definition filter_segment_key (namespace : string) (segment_id : Z) : string :=
  ROOT_PREFIX +:+ namespace +:+ "/index/filter-" +:+ pad08 segment_id +:+ ".bin".
Definition fts_segment_key (namespace : string) (segment_id : Z) : string :=
  ROOT_PREFIX +:+ namespace +:+ "/index/fts-" +:+ pad08 segment_id +:+ ".bin".

Definition vector_index_prefix (namespace field : string) : string :=
  if String.eqb field "" then ROOT_PREFIX +:+ namespace +:+ "/index/"
  else ROOT_PREFIX +:+ namespace +:+ "/index/" +:+ field +:+ "/".

Definition l0_key (namespace field : string) : string :=
  vector_index_prefix namespace field +:+ "centroids-l0.bin".
Definition routing_key (namespace field : string) : string :=
  vector_index_prefix namespace field +:+ "centroids-routing.bin".
Definition l1_key (namespace field : string) (coarse_id : Z) : string :=
  vector_index_prefix namespace field +:+ "centroids-l1-" +:+ pad08 coarse_id +:+ ".bin".
Definition l2_key (namespace field : string) (coarse_id l2_id : Z) : string :=
  vector_index_prefix namespace field +:+ "centroids-l2-" +:+ pad08 coarse_id +:+ "-"
    +:+ pad08 l2_id +:+ ".bin".
Definition cluster_key (namespace field : string) (fine_id : Z) : string :=
  vector_index_prefix namespace field +:+ "clusters-" +:+ pad08 fine_id +:+ ".bin".

(** Every durable object of a namespace, by its key. *)
Inductive ObjectName : Type :=
| OMeta
| OWal (seq : Z)
| OSnapshot
| OFilter (segment_id : Z)
| OFts (segment_id : Z)
| OL0 (field : string)
| ORouting (field : string)
| OL1 (field : string) (coarse_id : Z)
| OL2 (field : string) (coarse_id l2_id : Z)
| OCluster (field : string) (fine_id : Z).

Definition object_key (namespace : string) (o : ObjectName) : string :=
  match o with
  | OMeta => meta_key namespace
  | OWal seq => wal_key namespace seq
  | OSnapshot => wal_snapshot_key namespace
  | OFilter id => filter_segment_key namespace id
  | OFts id => fts_segment_key namespace id
  | OL0 f => l0_key namespace f
  | ORouting f => routing_key namespace f
  | OL1 f c => l1_key namespace f c
  | OL2 f c l => l2_key namespace f c l
  | OCluster f i => cluster_key namespace f i
  end.

(** The field passes the segment check and the numbers are machine words. *)
Definition object_ok (o : ObjectName) : Prop :=
  match o with
  | OMeta | OSnapshot => True
  | OWal n | OFilter n | OFts n => is_u64 n
  | OL0 f | ORouting f => validate_s3_path_segment f = Ok tt
  | OL1 f c | OCluster f c => validate_s3_path_segment f = Ok tt /\ is_u32 c
  | OL2 f c l => validate_s3_path_segment f = Ok tt /\ is_u32 c /\ is_u32 l
  end.

(** ** Lemmas on strings and separators *)

Definition no_char (c : ascii) : string -> bool := str_forallb (fun d => negb (Ascii.eqb c d)).

Lemma str_app_cons x (a b : string) : String x a +:+ b = String x (a +:+ b).
Proof. done. Qed.

Lemma str_app_nil (b : string) : EmptyString +:+ b = b.
Proof. done. Qed.

Lemma str_app_assoc (a b c : string) : (a +:+ b) +:+ c = a +:+ b +:+ c.
Proof. induction a as [|x a IH]; [done|]. by rewrite !str_app_cons, IH. Qed.

Lemma str_forallb_app f a b : str_forallb f (a +:+ b) = str_forallb f a && str_forallb f b.
Proof. induction a as [|x a IH]; [done|]. rewrite str_app_cons. cbn. by rewrite IH, andb_assoc. Qed.

Lemma str_forallb_impl (f g : ascii -> bool) s :
  (forall c, f c = true -> g c = true) -> str_forallb f s = true -> str_forallb g s = true.
Proof.
  intros H. induction s as [|c s IH]; [done|]. cbn. intros Hs. case_bool.
  rewrite H by done. by apply IH.
Qed.

(** A separator absent from both heads splits a string in one way only. *)
Lemma split_at_char c a a' b b' :
  no_char c a = true -> no_char c a' = true ->
  a +:+ String c b = a' +:+ String c b' -> a = a' /\ b = b'.
Proof.
  unfold no_char. revert a'. induction a as [|x a IH]; intros [|x' a'];
    rewrite ?str_app_cons, ?str_app_nil; cbn; intros H H' E; case_bool.
  - by injection E as <-.
  - injection E as <- _. by rewrite Ascii.eqb_refl in *.
  - injection E as -> _. by rewrite Ascii.eqb_refl in *.
  - injection E as <- E. destruct (IH a') as [-> ->]; try done.
Qed.

Lemma no_char_split c a b s : no_char c s = true -> s = a +:+ String c b -> False.
Proof.
  unfold no_char. intros H ->. rewrite str_forallb_app in H. cbn in H.
  rewrite Ascii.eqb_refl in H. by rewrite andb_false_r in H.
Qed.

Lemma str_contains_one c s : str_contains (String c EmptyString) s = negb (no_char c s).
Proof.
  unfold no_char. induction s as [|x s IH]; [done|]. cbn. rewrite IH.
  destruct (ascii_dec c x) as [->|H]; cbn.
  - rewrite Ascii.eqb_refl. by destruct s.
  - apply Ascii.eqb_neq in H. by rewrite H.
Qed.

(** A two-character pattern across a boundary. *)
Lemma contains2_app p q a d b :
  Ascii.eqb q d = false ->
  str_contains (String p (String q EmptyString)) (a +:+ String d b)
  = str_contains (String p (String q EmptyString)) a
    || str_contains (String p (String q EmptyString)) (String d b).
Proof.
  intros Hd. apply Ascii.eqb_neq in Hd. induction a as [|x a IH]; [done|].
  rewrite str_app_cons.
  cbn [str_contains]. rewrite IH, orb_assoc. f_equal.
  destruct a as [|y a]; rewrite ?str_app_cons, ?str_app_nil; cbn.
  - destruct (ascii_dec p x); [|done]. by destruct (ascii_dec q d).
  - by destruct (ascii_dec p x), (ascii_dec q y), a.
Qed.

Lemma contains2_skip p q a b :
  no_char p a = true ->
  str_contains (String p (String q EmptyString)) (a +:+ b)
  = str_contains (String p (String q EmptyString)) b.
Proof.
  unfold no_char. induction a as [|x a IH]; [done|]. rewrite str_app_cons. cbn. intros H. case_bool.
  rewrite IH by done. apply Ascii.eqb_neq in H. by destruct (ascii_dec p x).
Qed.

Lemma contains2_none p q a :
  no_char p a = true -> str_contains (String p (String q EmptyString)) a = false.
Proof.
  unfold no_char. induction a as [|x a IH]; cbn; [done|]. intros H. case_bool.
  rewrite IH by done. apply Ascii.eqb_neq in H. by destruct (ascii_dec p x).
Qed.

(** ** Decimal numbers in keys *)

Definition is_digit (c : ascii) : bool := in_range c 48 57.

Lemma dec_go_digits fuel n acc :
  str_forallb is_digit acc = true -> str_forallb is_digit (dec_go fuel n acc) = true.
Proof.
  revert n acc. induction fuel as [|f IH]; intros n acc Hacc; cbn; [done|].
  assert (0 <= n mod 10 <= 9) by (pose proof (Z.mod_pos_bound n 10); lia).
  assert (str_forallb is_digit (String (digit_char (n mod 10)) acc) = true).
  { cbn. rewrite Hacc, andb_true_r. unfold is_digit, in_range.
    rewrite digit_char_code by done. apply andb_true_iff. lia. }
  destruct (n <? 10); [done|]. by apply IH.
Qed.

Lemma pad08_digits n : str_forallb is_digit (pad08 n) = true.
Proof.
  unfold pad08. rewrite str_forallb_app. apply andb_true_iff. split.
  - induction (8 - String.length (dec n))%nat; done.
  - by apply dec_go_digits.
Qed.

Lemma pad08_no_char c n : is_digit c = false -> no_char c (pad08 n) = true.
Proof.
  intros Hc. unfold no_char. eapply str_forallb_impl; [|by apply pad08_digits].
  intros d Hd. destruct (Ascii.eqb_spec c d) as [->|]; [congruence|done].
Qed.

Lemma name_no_char c name :
  namespace_name_char_ok c = false -> validate_namespace_name name = Ok tt -> no_char c name = true.
Proof.
  intros Hc. unfold validate_namespace_name. repeat case_goal; try done. intros _.
  case_bool. unfold no_char. eapply str_forallb_impl; [|done].
  intros d Hd. destruct (Ascii.eqb_spec c d) as [->|]; [congruence|done].
Qed.

(** ** Keys are unambiguous *)

Definition vec_dir (field : string) : string :=
  if String.eqb field "" then EmptyString else field +:+ "/".

(** The key of an object below its namespace's prefix. *)
Definition object_path (o : ObjectName) : string :=
  match o with
  | OMeta => "meta.json"
  | OWal seq => "wal/" +:+ pad08 seq +:+ ".bin"
  | OSnapshot => "wal/snapshot.bin"
  | OFilter id => "index/filter-" +:+ pad08 id +:+ ".bin"
  | OFts id => "index/fts-" +:+ pad08 id +:+ ".bin"
  | OL0 f => "index/" +:+ vec_dir f +:+ "centroids-l0.bin"
  | ORouting f => "index/" +:+ vec_dir f +:+ "centroids-routing.bin"
  | OL1 f c => "index/" +:+ vec_dir f +:+ "centroids-l1-" +:+ pad08 c +:+ ".bin"
  | OL2 f c l => "index/" +:+ vec_dir f +:+ "centroids-l2-" +:+ pad08 c +:+ "-" +:+ pad08 l +:+ ".bin"
  | OCluster f i => "index/" +:+ vec_dir f +:+ "clusters-" +:+ pad08 i +:+ ".bin"
  end.

Lemma object_key_path ns o : object_key ns o = namespace_prefix ns +:+ object_path o.
Proof.
  unfold namespace_prefix.
  destruct o; cbn [object_key object_path];
    unfold meta_key, wal_key, wal_snapshot_key, filter_segment_key, fts_segment_key,
      l0_key, routing_key, l1_key, l2_key, cluster_key, vector_index_prefix, vec_dir;
    try case_goal; by rewrite ?str_app_assoc.
Qed.

Lemma str_app_inv_l a b c : a +:+ b = a +:+ c -> b = c.
Proof.
  induction a as [|x a IH]; [done|]. rewrite !str_app_cons. intros [=E]. by apply IH.
Qed.

Lemma namespace_prefix_inj ns ns' t t' :
  validate_namespace_name ns = Ok tt -> validate_namespace_name ns' = Ok tt ->
  namespace_prefix ns +:+ t = namespace_prefix ns' +:+ t' -> ns = ns' /\ t = t'.
Proof.
  intros H H' E. unfold namespace_prefix in E. rewrite !str_app_assoc in E.
  apply str_app_inv_l in E.
  rewrite !str_app_cons, !str_app_nil in E.
  eapply split_at_char; [| |exact E]; by apply name_no_char.
Qed.

Lemma pad08_tail_inj n m c t t' :
  is_u64 n -> is_u64 m -> is_digit c = false ->
  pad08 n +:+ String c t = pad08 m +:+ String c t' -> n = m /\ t = t'.
Proof.
  intros Hn Hm Hc E. unfold is_u64 in *.
  apply split_at_char in E as [E ->]; [|by apply pad08_no_char..].
  split; [|done]. by apply pad08_inj.
Qed.

Lemma is_u32_u64 n : is_u32 n -> is_u64 n.
Proof. unfold is_u32, is_u64, u32_max, u64_max. lia. Qed.

Lemma segment_no_slash f : validate_s3_path_segment f = Ok tt -> no_char "/" f = true.
Proof.
  unfold validate_s3_path_segment. repeat case_goal; try done.
  - apply String.eqb_eq in Heqb. by subst.
  - case_bool. intros _. rewrite str_contains_one in *. by case_bool.
Qed.

(** The directory of a vector field and the file in it. *)
Lemma vec_dir_inj f f' t t' :
  validate_s3_path_segment f = Ok tt -> validate_s3_path_segment f' = Ok tt ->
  no_char "/" t = true -> no_char "/" t' = true ->
  vec_dir f +:+ t = vec_dir f' +:+ t' -> f = f' /\ t = t'.
Proof.
  intros Hf%segment_no_slash Hf'%segment_no_slash Ht Ht'. unfold vec_dir.
  destruct (String.eqb_spec f "") as [->|], (String.eqb_spec f' "") as [->|];
    rewrite ?str_app_assoc, ?str_app_cons, ?str_app_nil; intros E.
  - done.
  - by edestruct no_char_split; [exact Ht|].
  - by edestruct no_char_split; [exact Ht'|].
  - by eapply split_at_char in E.
Qed.

Lemma vec_dir_file f t file :
  no_char "/" file = true -> no_char "/" t = true ->
  vec_dir f +:+ t = file -> f = EmptyString /\ t = file.
Proof.
  intros Hfile Ht. unfold vec_dir.
  destruct (String.eqb_spec f "") as [->|]; rewrite ?str_app_assoc, ?str_app_cons, ?str_app_nil.
  - done.
  - intros <-. by edestruct no_char_split; [exact Hfile|].
Qed.

(** The field and file name of an object of a vector index. *)
Definition vec_parts (o : ObjectName) : option (string * string) :=
  match o with
  | OL0 f => Some (f, "centroids-l0.bin")
  | ORouting f => Some (f, "centroids-routing.bin")
  | OL1 f c => Some (f, "centroids-l1-" +:+ pad08 c +:+ ".bin")
  | OL2 f c l => Some (f, "centroids-l2-" +:+ pad08 c +:+ "-" +:+ pad08 l +:+ ".bin")
  | OCluster f i => Some (f, "clusters-" +:+ pad08 i +:+ ".bin")
  | _ => None
  end.

Lemma no_char_app c a b : no_char c (a +:+ b) = no_char c a && no_char c b.
Proof. apply str_forallb_app. Qed.

Lemma vec_parts_spec o f t :
  object_ok o -> vec_parts o = Some (f, t) ->
  object_path o = "index/" +:+ vec_dir f +:+ t /\
  validate_s3_path_segment f = Ok tt /\ no_char "/" t = true /\ exists t', t = String "c" t'.
Proof.
  unfold is_u32.
  destruct o; cbn [object_ok vec_parts]; intros Hok [=<- <-]; unfold is_u32 in *;
    (split; [done|]; split; [tauto|]; split; [|by eexists]);
    rewrite ?no_char_app, ?pad08_no_char by (done || lia); done.
Qed.

(** Peels equal numbers off the two sides of an equation between file names. *)
Ltac pad_inj :=
  repeat match goal with
  | H : _ /\ _ |- _ => destruct H
  | H : is_u32 _ |- _ => apply is_u32_u64 in H
  | H : context [String _ _ +:+ _] |- _ => rewrite !str_app_cons in H
  | H : context [EmptyString +:+ _] |- _ => rewrite !str_app_nil in H
  | H : String _ _ = String _ _ |- _ => injection H as H
  | H : pad08 ?n +:+ ?x = pad08 ?m +:+ ?y |- _ =>
      apply pad08_tail_inj in H as [-> ?]; [|done..]
  end; done.

Lemma vec_parts_inj o o' p :
  object_ok o -> object_ok o' -> vec_parts o = Some p -> vec_parts o' = Some p -> o = o'.
Proof.
  destruct o, o'; cbn [vec_parts object_ok]; intros Ho Ho' [=<-] [=]; subst; try done;
    pad_inj.
Qed.

Lemma vec_path_not_file f c o :
  object_ok o -> vec_parts o = None -> no_char "/" (String "c" c) = true ->
  "index/" +:+ vec_dir f +:+ String "c" c = object_path o -> False.
Proof.
  destruct o; cbn [object_ok vec_parts object_path]; intros Ho Hv Hc E; try done;
    rewrite ?str_app_cons, ?str_app_nil in E; try discriminate;
    injection E as E; unfold is_u64 in Ho;
    apply vec_dir_file in E as [_ E]; try done;
    cbn [no_char str_forallb] in *; rewrite ?str_app_cons, ?str_app_nil in *; try discriminate;
    change (str_forallb _) with (no_char "/"); cbn -[String.append no_char];
    rewrite ?no_char_app, ?pad08_no_char by (done || lia); done.
Qed.

Lemma dec_go_nonempty fuel n acc : acc <> EmptyString -> dec_go fuel n acc <> EmptyString.
Proof.
  revert n acc. induction fuel as [|f IH]; intros n acc H; cbn; [done|].
  destruct (n <? 10); [done|]. by apply IH.
Qed.

Lemma pad08_nonempty n : pad08 n <> EmptyString.
Proof.
  unfold pad08. destruct (8 - String.length (dec n))%nat; [|done].
  cbn [zeros]. rewrite str_app_nil. unfold dec.
  change (dec_go 20 n "") with
    (if n <? 10 then String (digit_char (n mod 10)) ""
     else dec_go 19 (n / 10) (String (digit_char (n mod 10)) "")).
  destruct (n <? 10); [done|]. by apply dec_go_nonempty.
Qed.

Lemma pad08_not_snapshot n t s : is_u64 n -> pad08 n +:+ t = String "s" s -> False.
Proof.
  intros Hn E. unfold is_u64 in Hn. pose proof (pad08_digits n) as D.
  destruct (pad08 n) as [|d p] eqn:P; [by apply pad08_nonempty in P|].
  rewrite str_app_cons in E. injection E as -> _. done.
Qed.

Lemma plain_path_inj o o' :
  object_ok o -> object_ok o' -> vec_parts o = None -> vec_parts o' = None ->
  object_path o = object_path o' -> o = o'.
Proof.
  destruct o, o'; cbn [vec_parts object_ok object_path]; intros Ho Ho' Hv Hv' E; try done;
    rewrite ?str_app_cons, ?str_app_nil in E; try discriminate; try pad_inj.
  - injection E as E. by eapply pad08_not_snapshot in E.
  - injection E as E. symmetry in E. by eapply pad08_not_snapshot in E.
Qed.

Lemma object_path_inj o o' :
  object_ok o -> object_ok o' -> object_path o = object_path o' -> o = o'.
Proof.
  intros Ho Ho' E.
  destruct (vec_parts o) as [[f t]|] eqn:Hv, (vec_parts o') as [[f' t']|] eqn:Hv'.
  - destruct (vec_parts_spec o f t) as (P & Hf & Ht & _); try done.
    destruct (vec_parts_spec o' f' t') as (P' & Hf' & Ht' & _); try done.
    rewrite P, P' in E. apply str_app_inv_l, vec_dir_inj in E as [<- <-]; try done.
    by eapply vec_parts_inj.
  - destruct (vec_parts_spec o f t) as (P & Hf & Ht & c & ->); try done.
    rewrite P in E. by eapply vec_path_not_file in E.
  - destruct (vec_parts_spec o' f' t') as (P & Hf & Ht & c & ->); try done.
    rewrite P in E. by eapply eq_sym, vec_path_not_file in E.
  - by apply plain_path_inj.
Qed.

(** Within one namespace no validity of the name is needed. *)
Lemma object_key_same_ns ns o o' :
  object_ok o -> object_ok o' -> object_key ns o = object_key ns o' -> o = o'.
Proof.
  intros Ho Ho'. rewrite !object_key_path. intros E%str_app_inv_l. by apply object_path_inj.
Qed.

Lemma wal_key_inj ns a b : is_u64 a -> is_u64 b -> wal_key ns a = wal_key ns b -> a = b.
Proof. intros Ha Hb E. by apply (object_key_same_ns ns (OWal a) (OWal b)) in E as [=]. Qed.

Lemma meta_key_not_wal ns a : is_u64 a -> meta_key ns <> wal_key ns a.
Proof. intros Ha E. by apply (object_key_same_ns ns OMeta (OWal a)) in E. Qed.

Lemma snapshot_key_not_wal ns a : is_u64 a -> wal_snapshot_key ns <> wal_key ns a.
Proof. intros Ha E. by apply (object_key_same_ns ns OSnapshot (OWal a)) in E. Qed.

Lemma meta_key_not_snapshot ns : meta_key ns <> wal_snapshot_key ns.
Proof. intros E. by apply (object_key_same_ns ns OMeta OSnapshot) in E. Qed.

(** ** Theorems *)

(** C35: keys are unambiguous: two objects, of any kind, in any two valid
    namespaces, share a key only when they are the same object of the same
    namespace. *)
Theorem object_key_inj ns ns' o o' :
  validate_namespace_name ns = Ok tt -> validate_namespace_name ns' = Ok tt ->
  object_ok o -> object_ok o' ->
  object_key ns o = object_key ns' o' -> ns = ns' /\ o = o'.
Proof.
  intros Hns Hns' Ho Ho' E. rewrite !object_key_path in E.
  apply namespace_prefix_inj in E as [-> E]; [|done..].
  split; [done|]. by apply object_path_inj.
Qed.

Lemma object_key_inj_witness : "docs" = "docs" /\ OWal 42 = OWal 42.
Proof.
  apply (object_key_inj "docs" "docs" (OWal 42) (OWal 42));
    try reflexivity; vm_compute; split; discriminate.
Defined.

Lemma prefix_app_iff p s : String.prefix p s = true <-> exists t, s = p +:+ t.
Proof.
  revert s. induction p as [|x p IH]; intros [|y s]; cbn.
  - split; [by exists ""|done].
  - split; [by exists (String y s)|done].
  - split; [done|]. by intros [t Ht].
  - destruct (ascii_dec x y) as [->|Hxy].
    + rewrite IH. split; intros [t Ht]; exists t.
      * by rewrite str_app_cons, Ht.
      * rewrite str_app_cons in Ht. by injection Ht.
    + split; [done|]. intros [t Ht]. rewrite str_app_cons in Ht. by injection Ht.
Qed.

(** namespace isolation: the prefix under which a namespace is listed,
    copied or deleted selects an object's key exactly when the object belongs
    to that namespace, so an operation on one namespace never reaches another
    (not even one whose name extends it). *)
Theorem namespace_isolation ns ns' o :
  validate_namespace_name ns = Ok tt -> validate_namespace_name ns' = Ok tt ->
  String.prefix (namespace_prefix ns) (object_key ns' o) = true <-> ns = ns'.
Proof.
  intros H H'. rewrite prefix_app_iff, object_key_path. split.
  - intros [t E]. by apply namespace_prefix_inj in E as [-> _].
  - intros ->. by eexists.
Qed.

Lemma namespace_isolation_witness :
  String.prefix (namespace_prefix "prod") (object_key "prod-2" OMeta) = true <-> "prod" = "prod-2".
Proof. apply namespace_isolation; reflexivity. Defined.

(** A path below the root: no forbidden pattern, and it does not start with
    a separator. *)
Definition path_clean (t : string) : bool :=
  negb (str_contains ".." t) && no_char "\" t && negb (str_contains "//" t)
  && match t with String c _ => negb (Ascii.eqb "/" c) | EmptyString => false end.

(** A segment without separators, backslashes or dots in a row. *)
Definition segment_clean (a : string) : bool :=
  negb (String.eqb a "") && no_char "/" a && no_char "\" a && negb (str_contains ".." a).

Lemma contains_ss_slash t :
  match t with String c _ => negb (Ascii.eqb "/" c) | EmptyString => false end = true ->
  str_contains "//" (String "/" t) = str_contains "//" t.
Proof.
  destruct t as [|c t]; [done|]. intros H. case_bool. apply Ascii.eqb_neq in H.
  change (str_contains "//" (String "/" (String c t))) with
    ((if ascii_dec "/" c then String.prefix "" t else false) || str_contains "//" (String c t)).
  by destruct (ascii_dec "/" c).
Qed.

Lemma path_clean_segment a : segment_clean a = true -> path_clean a = true.
Proof.
  unfold segment_clean, path_clean. intros H. case_bool.
  rewrite H0, H1. rewrite contains2_none by done.
  destruct a as [|c a]; [done|]. unfold no_char in *. cbn [str_forallb] in *. case_bool.
  rewrite_bools.
Qed.

Lemma path_clean_join a t :
  segment_clean a = true -> path_clean t = true -> path_clean (a +:+ String "/" t) = true.
Proof.
  unfold segment_clean, path_clean. intros Ha Ht. case_bool.
  rewrite contains2_app, contains2_skip by done.
  change (str_contains ".." (String "/" t)) with (str_contains ".." t).
  rewrite contains_ss_slash by done. rewrite no_char_app.
  change (no_char "\" (String "/" t)) with (no_char "\" t).
  destruct a as [|c a]; [done|]. rewrite str_app_cons.
  assert (Ascii.eqb "/" c = false).
  { unfold no_char in *. cbn [str_forallb] in *. by case_bool. }
  rewrite_bools.
Qed.

Lemma segment_clean_field f :
  validate_s3_path_segment f = Ok tt -> f <> EmptyString -> segment_clean f = true.
Proof.
  unfold validate_s3_path_segment, segment_clean. intros H Hf.
  apply String.eqb_neq in Hf. rewrite Hf in H |- *.
  repeat case_hyp H; try done. case_bool. rewrite !str_contains_one in *. case_bool.
  rewrite_bools.
Qed.

(** Heads and numbers without dots keep a file name clean. *)
Definition dotless (a : string) : bool := no_char "." a && no_char "/" a && no_char "\" a.

Lemma segment_clean_skip a t :
  dotless a = true -> segment_clean t = true -> segment_clean (a +:+ t) = true.
Proof.
  unfold dotless, segment_clean. intros Ha Ht. case_bool.
  rewrite !no_char_app, contains2_skip by done.
  assert (String.eqb (a +:+ t) "" = false).
  { destruct a; [done|]. by rewrite str_app_cons. }
  rewrite_bools.
Qed.

Lemma dotless_pad08 n : is_u64 n -> dotless (pad08 n) = true.
Proof. intros [H _]. unfold dotless. by rewrite !pad08_no_char. Qed.

#[local] Hint Resolve is_u32_u64 dotless_pad08 : puffer.

Lemma vec_dir_clean f t :
  validate_s3_path_segment f = Ok tt -> path_clean t = true -> path_clean (vec_dir f +:+ t) = true.
Proof.
  intros Hf Ht. unfold vec_dir. destruct (String.eqb_spec f "") as [->|Hne]; [done|].
  rewrite str_app_assoc, str_app_cons, str_app_nil.
  by apply path_clean_join; [apply segment_clean_field|].
Qed.

Lemma object_path_clean o : object_ok o -> path_clean (object_path o) = true.
Proof.
  destruct o; cbn [object_ok object_path]; intros Hok; try done;
    lazymatch goal with
    | |- context ["wal/" +:+ ?t] => change ("wal/" +:+ t) with ("wal" +:+ String "/" t)
    | |- context ["index/" +:+ ?t] => change ("index/" +:+ t) with ("index" +:+ String "/" t)
    | |- context ["index/filter-" +:+ ?t] =>
        change ("index/filter-" +:+ t) with ("index" +:+ String "/" ("filter-" +:+ t))
    | |- context ["index/fts-" +:+ ?t] =>
        change ("index/fts-" +:+ t) with ("index" +:+ String "/" ("fts-" +:+ t))
    end;
    apply path_clean_join; try done;
    try (apply vec_dir_clean; [tauto|]); try done; apply path_clean_segment;
    repeat (apply segment_clean_skip; [first [done | apply dotless_pad08; intuition auto with puffer]|]);
    done.
Qed.

(** Every key built from a valid namespace name without two dots in a row
    and a checked vector field passes the object-key check that guards each
    read and write, so no legitimate object is refused. *)
Lemma object_key_valid ns o :
  validate_namespace_name ns = Ok tt -> str_contains ".." ns = false -> object_ok o ->
  validate_s3_object_key (object_key ns o) = Ok tt.
Proof.
  intros Hns Hdd Ho. rewrite object_key_path.
  assert (segment_clean ns = true) as Hseg.
  { unfold segment_clean. rewrite !name_no_char, Hdd by done.
    unfold validate_namespace_name in Hns. by destruct (String.eqb ns ""). }
  pose proof (path_clean_join ns _ Hseg (object_path_clean o Ho)) as Hc.
  apply (path_clean_join "openpuffer") in Hc; [|done].
  unfold path_clean in Hc. case_bool.
  assert (namespace_prefix ns +:+ object_path o
          = "openpuffer" +:+ String "/" (ns +:+ String "/" (object_path o))) as ->.
  { unfold namespace_prefix. by rewrite !str_app_assoc. }
  unfold validate_s3_object_key. rewrite str_contains_one.
  set (k := "openpuffer" +:+ _) in *.
  assert (String.eqb k "" = false) by done.
  assert (String.prefix ROOT_PREFIX k = true) by (apply prefix_app_iff; by eexists).
  rewrite_bools.
Qed.

Lemma object_key_valid_witness :
  validate_s3_object_key (object_key "prod.v1" (OL2 "embedding" 3 17)) = Ok tt.
Proof.
  apply object_key_valid; [reflexivity|reflexivity|].
  split; [reflexivity|]. split; vm_compute; split; discriminate.
Defined.

(** the two validators disagree on names with two dots in a row: the
    namespace check, which follows the documented pattern, accepts them, and
    the object-key check then refuses every object of such a namespace. *)
Theorem dotdot_namespace_unusable o :
  validate_namespace_name ".." = Ok tt /\
  validate_s3_object_key (object_key ".." o) = Err KeyDotDot.
Proof. split; [reflexivity|]. rewrite object_key_path. reflexivity. Qed.

(** capping a filter batch returns a prefix of the matches, of at most the
    limit; it reports leftovers exactly when some match was cut off, and fails
    exactly when the matches exceed the limit and partial batches are off. *)
Theorem cap_filter_batch_spec ids allow_partial max_rows :
  0 <= max_rows ->
  match cap_filter_batch ids allow_partial max_rows with
  | Ok (kept, remaining) =>
      exists rest, ids = kept ++ rest /\ lenZ kept = Z.min (lenZ ids) max_rows /\
        (remaining = true <-> rest <> [])
  | Err _ => allow_partial = false /\ max_rows < lenZ ids
  end.
Proof.
  intros Hm. unfold cap_filter_batch. destruct (_ <=? _) eqn:E; case_bool.
  - exists []. rewrite app_nil_r. split; [done|]. split; [lia|done].
  - destruct allow_partial; [|done]. exists (drop (Z.to_nat max_rows) ids).
    rewrite take_drop. unfold lenZ in *. rewrite length_take. split; [done|]. split; [lia|].
    split; [|done]. intros _ Hn. apply (f_equal length) in Hn. rewrite length_drop in Hn.
    cbn in Hn. lia.
Qed.

Lemma cap_filter_batch_spec_witness :
  exists rest, ["a"; "b"; "c"] = ["a"; "b"] ++ rest /\ lenZ ["a"; "b"] = Z.min (lenZ ["a"; "b"; "c"]) 2 /\
    (true = true <-> rest <> []).
Proof. apply (cap_filter_batch_spec ["a"; "b"; "c"] true 2). lia. Defined.
