(* ===== verification/Schema.v ===== *)
(** * Namespace schema ([schema.rs])

    Field specifications, the merge of a write-time schema patch, which fields
    are indexed how, and the normalisation of attribute values. *)

From Stdlib Require Import ZArith Lia Bool Ascii.
From stdpp Require Import base gmap strings list sorting.
From S2P Require Import Prelude F64 Json Models.

Inductive VectorElement : Type := F32 | F16.

#[export] Instance VectorElement_eq_decision : EqDecision VectorElement.
Proof. solve_decision. Defined.

Definition MAX_VECTOR_FIELDS : Z := 2.

Inductive SchemaError : Type :=
| TooManyVectorFields (count : Z)
| CannotPatchVector (field : string)
| InvalidDatetime (raw : string)
| InvalidUuid (raw : string)
| DatetimeNotString (field : string)
| UuidNotString (field : string)
| UuidArrayNotArray (field : string)
| UuidElementNotString (field : string) (i : Z).

(** [time]'s RFC 3339 parser followed by conversion to UTC and the fixed-width
    format, and [uuid]'s parser followed by the hyphenated form, on a trimmed
    string. *)
Class Canonicalizers : Type := {
  datetime_canonical : string -> option string;
  uuid_canonical : string -> option string
}.

(** ** Vector columns *)

Definition spec_type_str (spec : Value) : option string :=
  match spec with
  | VString s => Some s
  | VObject m => obj_get m "type" ≫= as_str
  | _ => None
  end.

Definition parse_vector_type_str (s : string) : option (Z * VectorElement) :=
  let s := str_trim s in
  inner ← strip_prefix "[" s;
  '(dims_str, elem) ← split_once "]"%char inner;
  dims ← parse_u32 dims_str;
  let e := to_ascii_lowercase elem in
  if String.eqb e "f32" then Some (dims, F32)
  else if String.eqb e "f16" then Some (dims, F16)
  else None.

Definition parse_vector_type_spec (spec : Value) : option (Z * VectorElement) :=
  type_str ← spec_type_str spec;
  parse_vector_type_str type_str.

Definition vector_element_for_field (schema : Value) (field : string) : VectorElement :=
  match (as_object schema ≫= (fun o => obj_get o field)) ≫= parse_vector_type_spec with
  | Some (_, e) => e
  | None => F32
  end.

Definition vector_dimensions_for_field (schema : Value) (field : string) : option Z :=
  fst <$> ((as_object schema ≫= (fun o => obj_get o field)) ≫= parse_vector_type_spec).

Definition field_is_vector_type_str (t : string) : bool :=
  str_contains "f32" t || str_contains "f16" t || str_contains "vector" t || str_contains "[]f" t.

Definition field_is_vector_spec (spec : Value) : bool :=
  match spec_type_str spec with
  | Some t => field_is_vector_type_str (to_ascii_lowercase t)
  | None => false
  end.

Definition vector_fields_from_schema (schema : Value) : list string :=
  match as_object schema with
  | None => []
  | Some obj => (filter (fun kv => field_is_vector_spec kv.2 = true) obj).*1
  end.

(** ** Merging *)

Definition merge_schema (existing patch : Value) : result SchemaError Value :=
  match as_object patch with
  | None => Ok existing
  | Some patch_obj =>
      let out := match as_object existing with Some m => m | None => [] end in
      let merged := VObject (fold_left (fun acc kv => obj_insert acc kv.1 kv.2) patch_obj out) in
      let vector_count := lenZ (vector_fields_from_schema merged) in
      if MAX_VECTOR_FIELDS <? vector_count then Err (TooManyVectorFields vector_count)
      else Ok merged
  end.

(** ** Index selection *)

Definition type_is_text (t : string) : bool :=
  str_contains "string" t || str_contains "text" t || String.eqb t "full_text".

Definition scalar_type_filterable (t : string) : bool :=
  str_contains "string" t || str_contains "bool" t || str_contains "int" t ||
  str_contains "uint" t || str_contains "float" t || String.eqb t "number" ||
  String.eqb t "uuid" || str_contains "datetime" t.

Definition field_full_text_search (spec : Value) : bool :=
  match spec with
  | VObject m =>
      match obj_get m "full_text_search" ≫= as_bool with
      | Some true => true
      | _ =>
          match obj_get m "type" with
          | Some (VString t) => type_is_text (to_ascii_lowercase t)
          | _ => false
          end
      end
  | VString s => type_is_text (to_ascii_lowercase s)
  | _ => false
  end.

Definition field_filterable (spec : Value) : bool :=
  match spec with
  | VObject m =>
      match obj_get m "filterable" ≫= as_bool with
      | Some false => false
      | Some true => true
      | None =>
          if field_is_vector_spec spec then false
          else if field_full_text_search spec then true
          else match obj_get m "type" with
               | Some (VString t) => scalar_type_filterable (to_ascii_lowercase t)
               | _ => false
               end
      end
  | VString s =>
      let t := to_ascii_lowercase s in
      if field_is_vector_type_str t then false else scalar_type_filterable t
  | _ => false
  end.

(** ** Attribute checks *)

Definition field_type_name (spec : Value) : option string :=
  (fun t => to_ascii_lowercase (str_trim t)) <$> spec_type_str spec.

Definition type_name_is (spec : Value) (name : string) : bool :=
  match field_type_name spec with Some t => String.eqb t name | None => false end.

Definition field_is_datetime_scalar (spec : Value) : bool := type_name_is spec "datetime".
Definition field_is_uuid_scalar (spec : Value) : bool := type_name_is spec "uuid".
Definition field_is_uuid_array (spec : Value) : bool := type_name_is spec "[]uuid".

Section Attributes.
Context `{IterOrder} `{Canonicalizers}.

Fixpoint check_patch_keys (schema_obj : list (string * Value)) (keys : list string)
  : result SchemaError unit :=
  match keys with
  | [] => Ok tt
  | key :: keys' =>
      match obj_get schema_obj key with
      | Some spec =>
          if field_is_vector_spec spec then Err (CannotPatchVector key)
          else check_patch_keys schema_obj keys'
      | None => check_patch_keys schema_obj keys'
      end
  end.

Definition validate_patch_attributes (attributes : gmap string Value) (schema : Value)
  : result SchemaError unit :=
  match as_object schema with
  | None => Ok tt
  | Some schema_obj => check_patch_keys schema_obj (iter_keys attributes)
  end.

Definition canonicalize_datetime_str (raw : string) : result SchemaError string :=
  ok_or (datetime_canonical (str_trim raw)) (InvalidDatetime raw).
Definition canonicalize_uuid_str (raw : string) : result SchemaError string :=
  ok_or (uuid_canonical (str_trim raw)) (InvalidUuid raw).

Definition normalize_datetime_scalar_value (value : Value) (field : string)
  : result SchemaError Value :=
  let? s := ok_or (as_str value) (DatetimeNotString field) in
  let? c := canonicalize_datetime_str s in
  Ok (VString c).

Definition normalize_uuid_scalar_value (value : Value) (field : string)
  : result SchemaError Value :=
  let? s := ok_or (as_str value) (UuidNotString field) in
  let? c := canonicalize_uuid_str s in
  Ok (VString c).

Fixpoint normalize_uuid_items (field : string) (i : Z) (arr : list Value)
  : result SchemaError (list Value) :=
  match arr with
  | [] => Ok []
  | item :: rest =>
      let? s := ok_or (as_str item) (UuidElementNotString field i) in
      let? c := canonicalize_uuid_str s in
      let? out := normalize_uuid_items field (i + 1) rest in
      Ok (VString c :: out)
  end.

Definition normalize_uuid_array_value (value : Value) (field : string)
  : result SchemaError Value :=
  let? arr := ok_or (as_array value) (UuidArrayNotArray field) in
  let? out := normalize_uuid_items field 0 arr in
  Ok (VArray out).

(** The body of the loop of [validate_and_normalize_document_attributes]. *)
Definition normalize_field (schema_obj : list (string * Value)) (key : string) (value : Value)
  : result SchemaError Value :=
  match obj_get schema_obj key with
  | None => Ok value
  | Some spec =>
      if field_is_datetime_scalar spec then normalize_datetime_scalar_value value key
      else if field_is_uuid_scalar spec then normalize_uuid_scalar_value value key
      else if field_is_uuid_array spec then normalize_uuid_array_value value key
      else Ok value
  end.

Fixpoint normalize_entries (schema_obj : list (string * Value)) (entries : list (string * Value))
    (attributes : gmap string Value) : result SchemaError (gmap string Value) :=
  match entries with
  | [] => Ok attributes
  | (key, value) :: rest =>
      let? v := normalize_field schema_obj key value in
      normalize_entries schema_obj rest (<[key := v]> attributes)
  end.

Definition validate_and_normalize_document_attributes (attributes : gmap string Value)
    (schema : Value) : result SchemaError (gmap string Value) :=
  match as_object schema with
  | None => Ok attributes
  | Some schema_obj => normalize_entries schema_obj (iter_map attributes) attributes
  end.
End Attributes.

(** ** Theorems *)

Definition obj_of (v : Value) : list (string * Value) :=
  match as_object v with Some m => m | None => [] end.

Lemma merge_schema_bound existing patch merged :
  merge_schema existing patch = Ok merged ->
  merged = existing \/ lenZ (vector_fields_from_schema merged) <= MAX_VECTOR_FIELDS.
Proof.
  unfold merge_schema. destruct (as_object patch); [|intros [=<-]; by left].
  destruct (_ <? _) eqn:E; case_bool; [done|]. intros [=<-]. by right.
Qed.

Lemma merge_schema_sorted existing patch merged :
  obj_sorted (obj_of existing) ->
  merge_schema existing patch = Ok merged -> obj_sorted (obj_of merged).
Proof.
  intros He. unfold merge_schema, obj_of in *. destruct (as_object patch); [|by intros [=<-]].
  destruct (MAX_VECTOR_FIELDS <? _); [done|]. intros [=<-]. by apply obj_fold_insert_sorted.
Qed.

(** merging a schema patch: a field's spec is the patch's when the patch has
    the field and the old one otherwise, the result is an ordered object with
    at most two vector columns, and the merge is refused exactly when it would
    declare more. *)
Theorem merge_schema_spec existing patch :
  obj_sorted (obj_of existing) -> obj_sorted (obj_of patch) ->
  match merge_schema existing patch with
  | Ok merged =>
      obj_sorted (obj_of merged) /\
      (forall f, obj_get (obj_of merged) f =
         match obj_get (obj_of patch) f with
         | Some spec => Some spec
         | None => obj_get (obj_of existing) f
         end) /\
      (is_Some (as_object patch) -> lenZ (vector_fields_from_schema merged) <= MAX_VECTOR_FIELDS)
  | Err (TooManyVectorFields n) => MAX_VECTOR_FIELDS < n
  | Err _ => False
  end.
Proof.
  unfold merge_schema, obj_of. intros He Hp.
  destruct (as_object patch) as [p|]; cbn.
  - destruct (MAX_VECTOR_FIELDS <? _) eqn:E; case_bool; [done|]. cbn.
    split; [auto with puffer|]. split; [|done].
    intros f. apply obj_get_fold_insert. auto with puffer.
  - split; [done|]. split; [done|]. by intros [? ?].
Qed.

Lemma merge_schema_spec_witness :
  let old := VObject [("a", VString "string")] in
  let patch := VObject [("a", VString "uuid"); ("v", VString "[8]f32")] in
  match merge_schema old patch with
  | Ok merged =>
      obj_sorted (obj_of merged) /\
      (forall f, obj_get (obj_of merged) f =
         match obj_get (obj_of patch) f with
         | Some spec => Some spec
         | None => obj_get (obj_of old) f
         end) /\
      (is_Some (as_object patch) -> lenZ (vector_fields_from_schema merged) <= MAX_VECTOR_FIELDS)
  | Err (TooManyVectorFields n) => MAX_VECTOR_FIELDS < n
  | Err _ => False
  end.
Proof. apply merge_schema_spec; repeat constructor. Defined.

Section AttributeTheorems.
Context `{IterOrder} `{Canonicalizers}.

Lemma normalize_entries_spec obj entries attrs out :
  NoDup entries.*1 ->
  normalize_entries obj entries attrs = Ok out ->
  (forall k v, (k, v) ∈ entries -> exists w, normalize_field obj k v = Ok w /\ out !! k = Some w) /\
  (forall k, k ∉ entries.*1 -> out !! k = attrs !! k).
Proof.
  revert attrs. induction entries as [|[k v] es IH]; intros attrs Hnd.
  - intros [=<-]. split; [by intros ? ? ?%not_elem_of_nil|done].
  - cbn in Hnd. apply NoDup_cons in Hnd as [Hni Hnd]. cbn.
    destruct (normalize_field obj k v) as [w|e] eqn:Hw; cbn; [|done].
    intros Hgo. destruct (IH _ Hnd Hgo) as [Hin Hout]. split.
    + intros k' v' [[=-> ->]|Hk']%elem_of_cons; [|by apply Hin].
      exists w. split; [done|]. rewrite Hout by done. by rewrite lookup_insert_eq.
    + intros k' Hk'. rewrite not_elem_of_cons in Hk'. destruct Hk' as [Hne Hk'].
      rewrite Hout by done. by rewrite lookup_insert_ne.
Qed.

(** Normalisation acts on each attribute on its own. *)
Lemma normalize_attributes_lookup attrs schema out :
  validate_and_normalize_document_attributes attrs schema = Ok out ->
  forall k,
    match attrs !! k with
    | None => out !! k = None
    | Some v => exists w, normalize_field (obj_of schema) k v = Ok w /\ out !! k = Some w
    end.
Proof.
  unfold validate_and_normalize_document_attributes, obj_of.
  destruct (as_object schema) as [obj|].
  - intros Hn k. destruct (normalize_entries_spec _ _ _ _ (iter_map_NoDup_keys attrs) Hn) as [Hin Hout].
    destruct (attrs !! k) as [v|] eqn:Hk.
    + apply Hin. by apply iter_map_elem.
    + rewrite Hout; [done|]. intros Hel. apply list_elem_of_fmap in Hel as [[k' v'] [-> Hel]].
      apply iter_map_elem in Hel. cbn in Hk. congruence.
  - intros [=<-] k. destruct (attrs !! k) eqn:Hk; [|done]. by eexists.
Qed.

Lemma normalize_uuid_items_fix field i arr out :
  (forall x y, uuid_canonical x = Some y -> uuid_canonical (str_trim y) = Some y) ->
  normalize_uuid_items field i arr = Ok out -> normalize_uuid_items field i out = Ok out.
Proof.
  intros Hu. revert i out. induction arr as [|item arr IH]; intros i out; cbn; [by intros [=<-]|].
  destruct (as_str item) as [s|]; cbn; [|done]. unfold canonicalize_uuid_str.
  destruct (uuid_canonical (str_trim s)) as [c|] eqn:Hc; cbn; [|done].
  destruct (normalize_uuid_items field (i + 1) arr) as [o|] eqn:Ho; cbn; [|done].
  intros [=<-]. cbn. unfold canonicalize_uuid_str. rewrite (Hu _ _ Hc). cbn.
  by rewrite (IH _ _ Ho).
Qed.

Lemma normalize_field_fix obj k v w :
  (forall x y, datetime_canonical x = Some y -> datetime_canonical (str_trim y) = Some y) ->
  (forall x y, uuid_canonical x = Some y -> uuid_canonical (str_trim y) = Some y) ->
  normalize_field obj k v = Ok w -> normalize_field obj k w = Ok w.
Proof.
  intros Hd Hu. unfold normalize_field. destruct (obj_get obj k) as [spec|]; [|by intros [=<-]].
  destruct (field_is_datetime_scalar spec);
    [|destruct (field_is_uuid_scalar spec); [|destruct (field_is_uuid_array spec)]];
    [| | |by intros [=<-]].
  - unfold normalize_datetime_scalar_value, canonicalize_datetime_str.
    destruct (as_str v) as [s|]; cbn; [|done].
    destruct (datetime_canonical (str_trim s)) as [c|] eqn:Hc; cbn; [|done].
    intros [=<-]. cbn. by rewrite (Hd _ _ Hc).
  - unfold normalize_uuid_scalar_value, canonicalize_uuid_str.
    destruct (as_str v) as [s|]; cbn; [|done].
    destruct (uuid_canonical (str_trim s)) as [c|] eqn:Hc; cbn; [|done].
    intros [=<-]. cbn. by rewrite (Hu _ _ Hc).
  - unfold normalize_uuid_array_value. destruct (as_array v) as [arr|]; cbn; [|done].
    destruct (normalize_uuid_items k 0 arr) as [o|] eqn:Ho; cbn; [|done].
    intros [=<-]. cbn. by rewrite (normalize_uuid_items_fix _ _ _ _ Hu Ho).
Qed.

Lemma normalize_entries_same obj entries attrs :
  (forall k v, (k, v) ∈ entries -> normalize_field obj k v = Ok v /\ attrs !! k = Some v) ->
  normalize_entries obj entries attrs = Ok attrs.
Proof.
  induction entries as [|[k v] es IH]; intros Hs; cbn; [done|].
  destruct (Hs k v) as [-> Hk]; [set_solver|]. cbn.
  rewrite insert_id by done. apply IH. set_solver.
Qed.
End AttributeTheorems.

(** normalising attributes changes only declared [datetime], [uuid] and
    [[]uuid] columns, independently of the order in which the hash map lists
    them, and is idempotent: a stored document re-submitted is stored as is. *)
Theorem normalize_attributes_idempotent {IO : IterOrder} {C : Canonicalizers} attrs schema out :
  (forall x y, datetime_canonical x = Some y -> datetime_canonical (str_trim y) = Some y) ->
  (forall x y, uuid_canonical x = Some y -> uuid_canonical (str_trim y) = Some y) ->
  validate_and_normalize_document_attributes attrs schema = Ok out ->
  (forall k, attrs !! k = None <-> out !! k = None) /\
  (forall k, obj_get (obj_of schema) k = None -> out !! k = attrs !! k) /\
  validate_and_normalize_document_attributes out schema = Ok out.
Proof.
  intros Hd Hu Hn. pose proof (normalize_attributes_lookup _ _ _ Hn) as Hl. split; [|split].
  - intros k. specialize (Hl k). destruct (attrs !! k); [|done]. destruct Hl as (w & _ & ->). done.
  - intros k Hk. specialize (Hl k). destruct (attrs !! k); [|done].
    destruct Hl as (w & Hw & ->). unfold normalize_field in Hw. rewrite Hk in Hw. congruence.
  - unfold validate_and_normalize_document_attributes in *. unfold obj_of in Hl.
    destruct (as_object schema) as [obj|]; [|done].
    apply normalize_entries_same. intros k v Hkv%iter_map_elem. split; [|done].
    specialize (Hl k). destruct (attrs !! k); [|congruence].
    destruct Hl as (w & Hw & Hout). rewrite Hkv in Hout. injection Hout as ->.
    by eapply normalize_field_fix.
Qed.

(** A canonicaliser for the witness: it accepts two spellings of one value. *)
Definition sample_canonicalizers : Canonicalizers := {|
  datetime_canonical := fun s => if String.eqb s "t" then Some "T" else if String.eqb s "T" then Some "T" else None;
  uuid_canonical := fun s => if String.eqb s "u" then Some "U" else if String.eqb s "U" then Some "U" else None
|}.

Lemma sample_canonical_fix (a b x y : string) :
  String.eqb (str_trim b) a = false -> str_trim b = b ->
  (if String.eqb x a then Some b else if String.eqb x b then Some b else None) = Some y ->
  (if String.eqb (str_trim y) a then Some b else if String.eqb (str_trim y) b then Some b else None) = Some y.
Proof.
  intros Ha Hb. repeat case_goal; intros [=<-]; try done; rewrite Hb in *; try done;
    by rewrite String.eqb_refl in *.
Qed.

Lemma normalize_attributes_idempotent_witness :
  let attrs := {[ "when" := VString " t " ]} : gmap string Value in
  let out := {[ "when" := VString "T" ]} : gmap string Value in
  let schema := VObject [("when", VString "datetime")] in
  (forall k, attrs !! k = None <-> out !! k = None) /\
  (forall k, obj_get (obj_of schema) k = None -> out !! k = attrs !! k) /\
  @validate_and_normalize_document_attributes canonical_order sample_canonicalizers out schema = Ok out.
Proof.
  apply (@normalize_attributes_idempotent canonical_order sample_canonicalizers).
  - intros x y. by apply (sample_canonical_fix "t" "T").
  - intros x y. by apply (sample_canonical_fix "u" "U").
  - vm_compute. reflexivity.
Defined.
