(* ===== verification/Meta.v ===== *)
(** * Namespace metadata ([meta.rs])

    The durable [meta.json] record: the commit point, the index cursor, the
    schema and vector columns, and the functions that compute the record a
    commit writes. *)

From Stdlib Require Import ZArith Lia Bool.
From stdpp Require Import base gmap strings list sorting.
From S2P Require Import Prelude F64 Json Models Schema.

Definition META_RETRIES : nat := 8.
Definition ANN_VERSION_V2 : Z := 2.

Record VectorFieldConfig : Type := mkVectorField {
  vf_name : string;
  vf_dimensions : Z;
  vf_element : VectorElement;
  vf_segment_id : Z;
  vf_segment_ids : list Z
}.

Inductive DistanceMetric : Type := CosineDistance | EuclideanSquared.

#[export] Instance DistanceMetric_eq_decision : EqDecision DistanceMetric.
Proof. solve_decision. Defined.

Record NamespaceMeta : Type := mkMeta {
  index_cursor : Z;
  fts_segment_id : Z;
  fts_segment_ids : list Z;
  vector_segment_id : Z;
  vector_segment_ids : list Z;
  filter_segment_id : Z;
  filter_segment_ids : list Z;
  vector_fields : list VectorFieldConfig;
  vector_field : string;
  dimensions : Z;
  wal_commit_seq : Z;
  wal_snapshot_seq : Z;
  schema : Value;
  distance_metric : DistanceMetric;
  preferred_ann_version : Z
}.

(** Updates of single fields, as the source's assignments through [&mut]. *)
Definition set_wal_commit_seq (s : Z) (m : NamespaceMeta) : NamespaceMeta :=
  mkMeta (index_cursor m) (fts_segment_id m) (fts_segment_ids m) (vector_segment_id m)
    (vector_segment_ids m) (filter_segment_id m) (filter_segment_ids m) (vector_fields m)
    (vector_field m) (dimensions m) s (wal_snapshot_seq m) (schema m) (distance_metric m)
    (preferred_ann_version m).
Definition set_wal_snapshot_seq (s : Z) (m : NamespaceMeta) : NamespaceMeta :=
  mkMeta (index_cursor m) (fts_segment_id m) (fts_segment_ids m) (vector_segment_id m)
    (vector_segment_ids m) (filter_segment_id m) (filter_segment_ids m) (vector_fields m)
    (vector_field m) (dimensions m) (wal_commit_seq m) s (schema m) (distance_metric m)
    (preferred_ann_version m).
Definition set_schema (s : Value) (m : NamespaceMeta) : NamespaceMeta :=
  mkMeta (index_cursor m) (fts_segment_id m) (fts_segment_ids m) (vector_segment_id m)
    (vector_segment_ids m) (filter_segment_id m) (filter_segment_ids m) (vector_fields m)
    (vector_field m) (dimensions m) (wal_commit_seq m) (wal_snapshot_seq m) s (distance_metric m)
    (preferred_ann_version m).
Definition set_distance_metric (d : DistanceMetric) (m : NamespaceMeta) : NamespaceMeta :=
  mkMeta (index_cursor m) (fts_segment_id m) (fts_segment_ids m) (vector_segment_id m)
    (vector_segment_ids m) (filter_segment_id m) (filter_segment_ids m) (vector_fields m)
    (vector_field m) (dimensions m) (wal_commit_seq m) (wal_snapshot_seq m) (schema m) d
    (preferred_ann_version m).
Definition set_vector_fields (vfs : list VectorFieldConfig) (m : NamespaceMeta) : NamespaceMeta :=
  mkMeta (index_cursor m) (fts_segment_id m) (fts_segment_ids m) (vector_segment_id m)
    (vector_segment_ids m) (filter_segment_id m) (filter_segment_ids m) vfs
    (vector_field m) (dimensions m) (wal_commit_seq m) (wal_snapshot_seq m) (schema m)
    (distance_metric m) (preferred_ann_version m).
Definition set_legacy_vector (name : string) (dims seg : Z) (segs : list Z) (m : NamespaceMeta)
  : NamespaceMeta :=
  mkMeta (index_cursor m) (fts_segment_id m) (fts_segment_ids m) seg
    segs (filter_segment_id m) (filter_segment_ids m) (vector_fields m)
    name dims (wal_commit_seq m) (wal_snapshot_seq m) (schema m)
    (distance_metric m) (preferred_ann_version m).

Definition default_meta : NamespaceMeta :=
  mkMeta 0 0 [] 0 [] 0 [] [] "" 0 0 0 (VObject []) CosineDistance ANN_VERSION_V2.

Inductive MetaError : Type :=
| InvalidMetric (s : string)
| MetricConflict (requested current : DistanceMetric)
| SeqGap (seq commit : Z)
| MetaSchema (e : SchemaError).

Definition parse_distance_metric (s : string) : result MetaError DistanceMetric :=
  if String.eqb s "cosine_distance" then Ok CosineDistance
  else if String.eqb s "euclidean_squared" then Ok EuclideanSquared
  else Err (InvalidMetric s).

Definition metric_name (m : DistanceMetric) : string :=
  match m with
  | CosineDistance => "cosine_distance"
  | EuclideanSquared => "euclidean_squared"
  end.

Definition resolve_distance_metric (meta : NamespaceMeta) (requested : option DistanceMetric)
  : result MetaError DistanceMetric :=
  match requested with
  | None => Ok (distance_metric meta)
  | Some m =>
      if wal_commit_seq meta =? 0 then Ok m
      else if decide (m = distance_metric meta) then Ok (distance_metric meta)
      else Err (MetricConflict m (distance_metric meta))
  end.

Definition next_wal_seq (meta : NamespaceMeta) : Z := sat_add64 (wal_commit_seq meta) 1.

Definition push_segment_id (ids : list Z) (id : Z) : list Z :=
  if id =? 0 then ids
  else if decide (last ids = Some id) then ids
  else ids ++ [id].

(** ** Vector columns *)

(** [iter_mut().find(|f| f.name == name)] followed by the assignment. *)
Fixpoint update_slot (name : string) (f : VectorFieldConfig -> VectorFieldConfig)
    (vfs : list VectorFieldConfig) : option (list VectorFieldConfig) :=
  match vfs with
  | [] => None
  | v :: vs =>
      if String.eqb (vf_name v) name then Some (f v :: vs)
      else match update_slot name f vs with
           | Some vs' => Some (v :: vs')
           | None => None
           end
  end.

Definition hydrate_slot (dims : Z) (element : VectorElement) (slot : VectorFieldConfig)
  : VectorFieldConfig :=
  mkVectorField (vf_name slot)
    (if vf_segment_id slot =? 0 then dims else vf_dimensions slot)
    element (vf_segment_id slot) (vf_segment_ids slot).

(** One turn of the loop of [hydrate_vector_fields_from_schema]. *)
Definition hydrate_name (sch : Value) (vfs : list VectorFieldConfig) (name : string)
  : list VectorFieldConfig :=
  let dims := default 0 (vector_dimensions_for_field sch name) in
  let element := vector_element_for_field sch name in
  match update_slot name (hydrate_slot dims element) vfs with
  | Some vfs' => vfs'
  | None =>
      if lenZ vfs <? MAX_VECTOR_FIELDS
      then vfs ++ [mkVectorField name dims element 0 []]
      else vfs
  end.

Definition hydrate_vector_fields_from_schema (meta : NamespaceMeta) : NamespaceMeta :=
  let names := take (Z.to_nat MAX_VECTOR_FIELDS) (vector_fields_from_schema (schema meta)) in
  set_vector_fields (fold_left (hydrate_name (schema meta)) names (vector_fields meta)) meta.

Definition sync_legacy_vector_fields (meta : NamespaceMeta) : NamespaceMeta :=
  match vector_fields meta with
  | first :: _ =>
      set_legacy_vector (vf_name first) (vf_dimensions first) (vf_segment_id first)
        (vf_segment_ids first) meta
  | [] =>
      if negb (String.eqb (vector_field meta) "") && (0 <? dimensions meta) then meta
      else set_legacy_vector "" 0 0 [] meta
  end.

Definition effective_vector_fields (meta : NamespaceMeta) : list VectorFieldConfig :=
  match vector_fields meta with
  | [] =>
      if String.eqb (vector_field meta) "" || (dimensions meta =? 0) then []
      else [mkVectorField (vector_field meta) (dimensions meta) F32
              (vector_segment_id meta) (vector_segment_ids meta)]
  | vfs => vfs
  end.

Definition vector_index_uses_legacy_paths (meta : NamespaceMeta) (field : string) : bool :=
  match vector_fields meta with [] => true | _ => false end
  && String.eqb (vector_field meta) field && (0 <? vector_segment_id meta).

(** ** The record written by a commit *)

Definition meta_schema {A} (r : result SchemaError A) : result MetaError A :=
  match r with Ok a => Ok a | Err e => Err (MetaSchema e) end.

Definition meta_after_wal_commit_options (meta : NamespaceMeta) (seq : Z)
    (schema_patch : option Value) (metric : option DistanceMetric)
  : result MetaError NamespaceMeta :=
  if negb (seq =? sat_add64 (wal_commit_seq meta) 1)
  then Err (SeqGap seq (wal_commit_seq meta))
  else
    let next := set_wal_commit_seq seq meta in
    let? next :=
      match schema_patch with
      | Some patch =>
          let? merged := meta_schema (merge_schema (schema next) patch) in
          Ok (set_schema merged next)
      | None => Ok next
      end in
    let next := sync_legacy_vector_fields (hydrate_vector_fields_from_schema next) in
    let? d := resolve_distance_metric meta metric in
    Ok (set_distance_metric d next).

Definition meta_after_wal_commit_with_schema (meta : NamespaceMeta) (seq : Z)
    (schema_patch : option Value) : result MetaError NamespaceMeta :=
  meta_after_wal_commit_options meta seq schema_patch None.

Definition meta_after_wal_commit (meta : NamespaceMeta) (seq : Z)
  : result MetaError NamespaceMeta :=
  meta_after_wal_commit_options meta seq None None.

(** ** Invariant *)

(** What the rest of the system relies on in a stored record. *)
Record meta_wf (m : NamespaceMeta) : Prop := {
  wf_cursors : 0 <= wal_snapshot_seq m <= index_cursor m /\ index_cursor m <= wal_commit_seq m;
  wf_commit_u64 : wal_commit_seq m <= u64_max;
  wf_schema_sorted : obj_sorted (obj_of (schema m));
  wf_schema_vectors : lenZ (vector_fields_from_schema (schema m)) <= MAX_VECTOR_FIELDS;
  wf_fields_bound : lenZ (vector_fields m) <= MAX_VECTOR_FIELDS;
  wf_fields_unique : NoDup (vf_name <$> vector_fields m);
  wf_legacy : forall first rest, vector_fields m = first :: rest ->
    vector_field m = vf_name first /\ dimensions m = vf_dimensions first /\
    vector_segment_id m = vf_segment_id first /\ vector_segment_ids m = vf_segment_ids first
}.

Lemma default_meta_wf : meta_wf default_meta.
Proof. split; cbn; try done; try lia; try constructor. Qed.

(** ** Vector columns under hydration *)

Lemma update_slot_names name f vfs vfs' :
  (forall v, vf_name (f v) = vf_name v) ->
  update_slot name f vfs = Some vfs' ->
  vf_name <$> vfs' = vf_name <$> vfs.
Proof.
  intros Hf. revert vfs'. induction vfs as [|v vs IH]; intros vfs'; cbn; [done|].
  destruct (String.eqb (vf_name v) name).
  - intros [=<-]. cbn. by rewrite Hf.
  - destruct (update_slot name f vs) as [vs'|]; [|done]. intros [=<-]. cbn. by rewrite (IH vs').
Qed.

Lemma update_slot_None name f vfs : update_slot name f vfs = None <-> name ∉ vf_name <$> vfs.
Proof.
  induction vfs as [|v vs IH]; cbn.
  - split; [|done]. intros _. apply not_elem_of_nil.
  - rewrite not_elem_of_cons. destruct (String.eqb_spec (vf_name v) name) as [->|Hn].
    + split; [done|]. by intros [? _].
    + destruct (update_slot name f vs); [|rewrite <- IH; split; [split; congruence|done]].
      split; [done|]. intros [_ ?%IH]. done.
Qed.

(** An indexed column is never re-dimensioned. *)
Definition indexed_kept (vfs vfs' : list VectorFieldConfig) : Prop :=
  forall v, v ∈ vfs -> exists v', v' ∈ vfs' /\ vf_name v' = vf_name v /\
    vf_segment_id v' = vf_segment_id v /\ vf_segment_ids v' = vf_segment_ids v /\
    (vf_segment_id v <> 0 -> vf_dimensions v' = vf_dimensions v).

Lemma indexed_kept_refl vfs : indexed_kept vfs vfs.
Proof. intros v Hv. by exists v. Qed.

Lemma indexed_kept_trans a b c : indexed_kept a b -> indexed_kept b c -> indexed_kept a c.
Proof.
  intros Hab Hbc v Hv. destruct (Hab v Hv) as (v' & Hv' & N & S & SS & D).
  destruct (Hbc v' Hv') as (w & Hw & N' & S' & SS' & D').
  exists w. repeat split; try congruence. intros Hs. rewrite D' by congruence. by apply D.
Qed.

Lemma update_slot_kept name dims element vfs vfs' :
  update_slot name (hydrate_slot dims element) vfs = Some vfs' -> indexed_kept vfs vfs'.
Proof.
  revert vfs'. induction vfs as [|v vs IH]; intros vfs'; cbn; [done|].
  destruct (String.eqb (vf_name v) name).
  - intros [=<-] w [->|Hw]%elem_of_cons.
    + exists (hydrate_slot dims element v). split; [by left|]. cbn. repeat split; try done.
      intros Hs. by destruct (Z.eqb_spec (vf_segment_id v) 0).
    + exists w. split; [by right|done].
  - destruct (update_slot _ _ vs) as [vs'|]; [|done]. intros [=<-] w [->|Hw]%elem_of_cons.
    + exists v. split; [by left|done].
    + destruct (IH vs' eq_refl w Hw) as (w' & Hw' & Hrest). exists w'. split; [by right|done].
Qed.

Lemma hydrate_name_inv sch vfs name :
  lenZ vfs <= MAX_VECTOR_FIELDS -> NoDup (vf_name <$> vfs) ->
  let vfs' := hydrate_name sch vfs name in
  lenZ vfs' <= MAX_VECTOR_FIELDS /\ NoDup (vf_name <$> vfs') /\ indexed_kept vfs vfs'.
Proof.
  intros Hl Hnd. unfold hydrate_name.
  destruct (update_slot _ _ vfs) as [vfs'|] eqn:Hu.
  - assert (vf_name <$> vfs' = vf_name <$> vfs) as Hn by (by eapply update_slot_names; [|exact Hu]).
    split; [|split].
    + unfold lenZ in *. apply (f_equal length) in Hn. rewrite !length_fmap in Hn. lia.
    + by rewrite Hn.
    + by eapply update_slot_kept.
  - destruct (_ <? _) eqn:E; case_bool; [|by eauto using indexed_kept_refl].
    split; [|split].
    + unfold lenZ in *. rewrite length_app. cbn. lia.
    + rewrite fmap_app. apply NoDup_app. split; [done|]. cbn. split; [|by apply NoDup_singleton].
      apply update_slot_None in Hu. set_solver.
    + intros v Hv. exists v. split; [by apply elem_of_app; left|done].
Qed.

Lemma hydrate_fold_inv sch names vfs :
  lenZ vfs <= MAX_VECTOR_FIELDS -> NoDup (vf_name <$> vfs) ->
  let vfs' := fold_left (hydrate_name sch) names vfs in
  lenZ vfs' <= MAX_VECTOR_FIELDS /\ NoDup (vf_name <$> vfs') /\ indexed_kept vfs vfs'.
Proof.
  revert vfs. induction names as [|n names IH]; intros vfs Hl Hnd; cbn.
  - eauto using indexed_kept_refl.
  - destruct (hydrate_name_inv sch vfs n Hl Hnd) as (Hl' & Hnd' & Hk).
    destruct (IH _ Hl' Hnd') as (? & ? & ?). eauto using indexed_kept_trans.
Qed.

Lemma sync_legacy_fields m :
  vector_fields (sync_legacy_vector_fields m) = vector_fields m /\
  schema (sync_legacy_vector_fields m) = schema m /\
  wal_commit_seq (sync_legacy_vector_fields m) = wal_commit_seq m /\
  index_cursor (sync_legacy_vector_fields m) = index_cursor m /\
  wal_snapshot_seq (sync_legacy_vector_fields m) = wal_snapshot_seq m /\
  fts_segment_ids (sync_legacy_vector_fields m) = fts_segment_ids m /\
  filter_segment_ids (sync_legacy_vector_fields m) = filter_segment_ids m /\
  (forall first rest, vector_fields m = first :: rest ->
     let n := sync_legacy_vector_fields m in
     vector_field n = vf_name first /\ dimensions n = vf_dimensions first /\
     vector_segment_id n = vf_segment_id first /\ vector_segment_ids n = vf_segment_ids first).
Proof.
  unfold sync_legacy_vector_fields. destruct (vector_fields m) as [|v vs] eqn:Hv.
  - case_goal; cbn; rewrite ?Hv; repeat split; done.
  - cbn. rewrite Hv. repeat split; intros; simplify_eq; done.
Qed.

Lemma fold_insert_no_float patch (m : list (string * Value)) :
  forallb (fun kv => value_no_float kv.2) patch = true ->
  forallb (fun kv => value_no_float kv.2) m = true ->
  forallb (fun kv => value_no_float kv.2)
    (fold_left (fun acc kv => obj_insert acc kv.1 kv.2) patch m) = true.
Proof.
  revert m. induction patch as [|[k v] patch IH]; intros m Hp Hm; cbn in *; [done|]. case_bool.
  apply IH; [done|]. by apply obj_insert_no_float.
Qed.

Lemma merge_schema_no_float existing patch merged :
  value_no_float existing = true -> value_no_float patch = true ->
  merge_schema existing patch = Ok merged -> value_no_float merged = true.
Proof.
  intros He Hp. unfold merge_schema. destruct patch; cbn [as_object]; try by intros [=<-].
  destruct (_ <? _); [done|]. intros [=<-]. cbn. apply fold_insert_no_float; [done|].
  by destruct existing.
Qed.

(** The schema after the optional patch of a commit. *)
Definition patched_schema (old : Value) (patch : option Value) : result SchemaError Value :=
  match patch with Some p => merge_schema old p | None => Ok old end.

Lemma meta_commit_inv meta seq patch metric next :
  meta_after_wal_commit_options meta seq patch metric = Ok next ->
  seq = sat_add64 (wal_commit_seq meta) 1 /\
  exists sch d,
    patched_schema (schema meta) patch = Ok sch /\
    resolve_distance_metric meta metric = Ok d /\
    next = set_distance_metric d (sync_legacy_vector_fields
             (hydrate_vector_fields_from_schema (set_schema sch (set_wal_commit_seq seq meta)))).
Proof.
  unfold meta_after_wal_commit_options, patched_schema.
  destruct (negb _) eqn:E; [done|]. case_bool. intros H. split; [done|].
  destruct patch as [p|]; cbn in H.
  - destruct (merge_schema (schema meta) p) as [sch|]; cbn in H; [|done].
    destruct (resolve_distance_metric meta metric) as [d|]; cbn in H; [|done].
    injection H as <-. by exists sch, d.
  - destruct (resolve_distance_metric meta metric) as [d|]; cbn in H; [|done].
    injection H as <-. exists (schema meta), d. repeat split; done.
Qed.

Lemma patched_schema_wf old patch sch :
  obj_sorted (obj_of old) -> lenZ (vector_fields_from_schema old) <= MAX_VECTOR_FIELDS ->
  patched_schema old patch = Ok sch ->
  obj_sorted (obj_of sch) /\ lenZ (vector_fields_from_schema sch) <= MAX_VECTOR_FIELDS.
Proof.
  intros Ho Hv. destruct patch as [p|]; cbn; [|by intros [=<-]]. intros Hm. split.
  - by eapply merge_schema_sorted.
  - by destruct (merge_schema_bound _ _ _ Hm) as [->|].
Qed.

Lemma meta_commit_no_float meta seq patch metric next :
  value_no_float (schema meta) = true ->
  (forall p, patch = Some p -> value_no_float p = true) ->
  meta_after_wal_commit_options meta seq patch metric = Ok next ->
  value_no_float (schema next) = true.
Proof.
  intros Hm Hp H. apply meta_commit_inv in H as (-> & sch & d & Hsch & _ & ->).
  set (h := hydrate_vector_fields_from_schema _).
  destruct (sync_legacy_fields h) as (_ & F2 & _). cbn. rewrite F2. cbn.
  destruct patch as [p|]; cbn in Hsch; [|by injection Hsch as <-].
  eapply merge_schema_no_float; [exact Hm|by apply Hp|exact Hsch].
Qed.

Lemma meta_commit_facts meta seq patch metric next :
  meta_wf meta -> wal_commit_seq meta < u64_max ->
  meta_after_wal_commit_options meta seq patch metric = Ok next ->
  meta_wf next /\
  wal_commit_seq next = wal_commit_seq meta + 1 /\
  index_cursor next = index_cursor meta /\
  wal_snapshot_seq next = wal_snapshot_seq meta /\
  fts_segment_ids next = fts_segment_ids meta /\
  filter_segment_ids next = filter_segment_ids meta /\
  indexed_kept (vector_fields meta) (vector_fields next) /\
  (wal_commit_seq meta <> 0 -> distance_metric next = distance_metric meta).
Proof.
  intros [Hcur Hu64 Hss Hsv Hfb Hfu Hleg] Hlt H.
  apply meta_commit_inv in H as (-> & sch & d & Hsch & Hd & ->).
  assert (sat_add64 (wal_commit_seq meta) 1 = wal_commit_seq meta + 1) as Eseq by solve_arith.
  set (h := hydrate_vector_fields_from_schema _).
  destruct (sync_legacy_fields h) as (F1 & F2 & F3 & F4 & F5 & F6 & F7 & F8).
  destruct (hydrate_fold_inv sch
    (take (Z.to_nat MAX_VECTOR_FIELDS) (vector_fields_from_schema sch)) _ Hfb Hfu) as (G1 & G2 & G3).
  destruct (patched_schema_wf _ _ _ Hss Hsv Hsch) as [S1 S2].
  split; [split|]; cbn; rewrite ?F1, ?F2, ?F3, ?F4, ?F5, ?F6, ?F7; cbn; rewrite ?Eseq; try done; try lia.
  repeat split; try done; try lia.
  intros Hne. unfold resolve_distance_metric in Hd. destruct metric as [m|]; [|by injection Hd as <-].
  destruct (Z.eqb_spec (wal_commit_seq meta) 0); [done|].
  destruct (decide _); [|done]. by injection Hd as <-.
Qed.

(** The segments of the index after a commit.  A record that has its vector
    column only in the legacy fields keeps it as long as the schema declares no
    vector column. *)
Lemma meta_commit_index meta seq patch metric next :
  meta_wf meta -> 0 <= dimensions meta ->
  meta_after_wal_commit_options meta seq patch metric = Ok next ->
  patched_schema (schema meta) patch = Ok (schema next) /\
  fts_segment_id next = fts_segment_id meta /\ filter_segment_id next = filter_segment_id meta /\
  preferred_ann_version next = preferred_ann_version meta /\
  (vector_fields meta <> [] \/ vector_fields_from_schema (schema next) = [] ->
     indexed_kept (effective_vector_fields meta) (effective_vector_fields next)).
Proof.
  intros [_ _ _ _ Hfb Hfu _] Hdim H. apply meta_commit_inv in H as (-> & sch & d & Hsch & _ & ->).
  destruct (hydrate_fold_inv sch
    (take (Z.to_nat MAX_VECTOR_FIELDS) (vector_fields_from_schema sch)) _ Hfb Hfu) as (_ & _ & Hkept).
  unfold hydrate_vector_fields_from_schema. cbn [schema set_schema vector_fields set_wal_commit_seq]. revert Hkept.
  remember (fold_left (hydrate_name sch) (take (Z.to_nat MAX_VECTOR_FIELDS) (vector_fields_from_schema sch)) (vector_fields meta))
    as vfs eqn:Hvfs. intros Hkept. unfold sync_legacy_vector_fields. cbn. destruct vfs as [|first rest].
  - assert (vector_fields meta = []) as Hnil.
    { destruct (vector_fields meta) as [|v vs]; [done|]. destruct (Hkept v) as (v' & Hv' & _); [by left|]. by apply not_elem_of_nil in Hv'. }
    destruct (negb (String.eqb (vector_field meta) "") && (0 <? dimensions meta)) eqn:E; cbn; split_and!; try done; intros _.
    + unfold effective_vector_fields. cbn. rewrite Hnil. apply indexed_kept_refl.
    + unfold effective_vector_fields. rewrite Hnil. destruct (String.eqb (vector_field meta) ""); [apply indexed_kept_refl|].
      cbn in E. destruct (Z.eqb_spec (dimensions meta) 0); [apply indexed_kept_refl|]. apply Z.ltb_ge in E. lia.
  - cbn. split_and!; try done. intros [Hne|Hn].
    + unfold effective_vector_fields. cbn. destruct (vector_fields meta) as [|v vs]; [done|exact Hkept].
    + rewrite Hn, take_nil in Hvfs. cbn in Hvfs. unfold effective_vector_fields. cbn. rewrite <- Hvfs. apply indexed_kept_refl.
Qed.

(** C25: a WAL commit keeps the metadata invariant (ordered cursors, at most two
    uniquely named vector columns, an ordered schema, legacy mirror fields in
    step) and moves the commit point by exactly one; the index cursor, the
    snapshot, the current full-text and filter segments, their chains and the
    preferred index version are untouched, and the distance metric is fixed from
    the first commit on.  No vector column is dropped and none loses its
    segments; one with an index is not re-dimensioned.  For a record that has its
    vector column only in the legacy fields this holds as long as the schema
    declares no vector column: see [legacy_vector_index_dropped]. *)
Theorem meta_commit_preserves_wf meta seq patch metric next :
  meta_wf meta -> 0 <= dimensions meta -> wal_commit_seq meta < u64_max ->
  meta_after_wal_commit_options meta seq patch metric = Ok next ->
  meta_wf next /\
  wal_commit_seq next = wal_commit_seq meta + 1 /\
  index_cursor next = index_cursor meta /\
  wal_snapshot_seq next = wal_snapshot_seq meta /\
  fts_segment_id next = fts_segment_id meta /\ fts_segment_ids next = fts_segment_ids meta /\
  filter_segment_id next = filter_segment_id meta /\ filter_segment_ids next = filter_segment_ids meta /\
  preferred_ann_version next = preferred_ann_version meta /\
  patched_schema (schema meta) patch = Ok (schema next) /\
  (vector_fields meta <> [] \/ vector_fields_from_schema (schema next) = [] ->
     indexed_kept (effective_vector_fields meta) (effective_vector_fields next)) /\
  (wal_commit_seq meta <> 0 -> distance_metric next = distance_metric meta).
Proof.
  intros Hwf Hdim Hlt H. destruct (meta_commit_facts _ _ _ _ _ Hwf Hlt H) as (H1 & H2 & H3 & H4 & H5 & H6 & _ & H7).
  destruct (meta_commit_index _ _ _ _ _ Hwf Hdim H) as (K1 & K2 & K3 & K4 & K5). by split_and!.
Qed.

(** A namespace with an indexed vector column. *)
Definition indexed_meta : NamespaceMeta :=
  mkMeta 1 1 [1] 1 [1] 1 [1] [mkVectorField "v" 4 F32 1 [1]] "v" 4 1 0 (VObject [("v", VString "[4]f32")]) CosineDistance ANN_VERSION_V2.

Lemma indexed_meta_wf : meta_wf indexed_meta.
Proof.
  split; cbn; try done; try lia.
  - repeat constructor.
  - apply NoDup_singleton.
  - by intros first rest [= <- <-].
Qed.

Lemma meta_commit_preserves_wf_witness :
  exists next, meta_after_wal_commit_options indexed_meta 2 (Some (VObject [("w", VString "[8]f32")])) None = Ok next /\
  meta_wf next /\ wal_commit_seq next = 2 /\ fts_segment_id next = 1 /\
  indexed_kept [mkVectorField "v" 4 F32 1 [1]] (effective_vector_fields next).
Proof.
  eexists. split; [vm_compute; reflexivity|].
  destruct (meta_commit_preserves_wf indexed_meta 2 (Some (VObject [("w", VString "[8]f32")])) None
    _ indexed_meta_wf ltac:(discriminate) ltac:(reflexivity) ltac:(vm_compute; reflexivity))
    as (H1 & H2 & _ & _ & H3 & _ & _ & _ & _ & _ & H4 & _).
  split; [exact H1|]. split; [exact H2|]. split; [exact H3|]. apply H4. left. discriminate.
Defined.

(** a commit drops a legacy vector index.  A record written before the list
    of vector columns existed has its column and segment in the legacy fields,
    which the readers still support; the first commit after its schema declares
    the column adds the column with segment 0 and then overwrites the legacy
    fields with it, so the index is no longer found. *)
Theorem legacy_vector_index_dropped :
  let legacy := mkMeta 1 1 [1] 7 [7] 1 [1] [] "v" 4 1 0 (VObject [("v", VString "[4]f32")]) CosineDistance ANN_VERSION_V2 in
  vf_segment_id <$> effective_vector_fields legacy = [7] /\
  exists next, meta_after_wal_commit legacy 2 = Ok next /\ vf_segment_id <$> effective_vector_fields next = [0] /\
    vector_segment_id next = 0.
Proof. split; [reflexivity|]. eexists. split; [vm_compute; reflexivity|]. by split. Qed.

(** a commit record is refused for exactly three reasons: a gap in the
    sequence, a schema with a third vector column, or a metric that differs
    from the one fixed by the first commit. *)
Theorem meta_commit_errors meta seq patch metric e :
  meta_after_wal_commit_options meta seq patch metric = Err e <->
  (e = SeqGap seq (wal_commit_seq meta) /\ seq <> sat_add64 (wal_commit_seq meta) 1) \/
  (seq = sat_add64 (wal_commit_seq meta) 1 /\
   ((exists e', e = MetaSchema e' /\ patched_schema (schema meta) patch = Err e') \/
    (is_ok (patched_schema (schema meta) patch) = true /\
     exists m, metric = Some m /\ wal_commit_seq meta <> 0 /\ m <> distance_metric meta /\
       e = MetricConflict m (distance_metric meta)))).
Proof.
  unfold meta_after_wal_commit_options, patched_schema, resolve_distance_metric.
  destruct (Z.eqb_spec seq (sat_add64 (wal_commit_seq meta) 1)) as [Hs|Hs]; cbn.
  2: { split; [intros [=<-]; by left|]. intros [[-> _]|[? _]]; done. }
  destruct patch as [p|]; cbn;
    [destruct (merge_schema (schema meta) p) as [sch|e0]; cbn|];
    try (split; [intros [=<-]; right; split; [done|]; left; by exists e0|];
         intros [[-> ?]|(_ & [(e' & -> & [=->])|[? _]])]; done);
    (destruct metric as [m|]; cbn;
      [destruct (Z.eqb_spec (wal_commit_seq meta) 0); cbn;
       [|destruct (decide (m = distance_metric meta)); cbn]|]);
    split; intros H; simplify_eq; try naive_solver.
Qed.
