(* ===== verification/Wal.v ===== *)
(** * Write-ahead log entries ([wal.rs])

    One WAL object is a batch of deletes, upserts and patches.  The wire format
    (version byte, payload, CRC-32 trailer), the corruption policy, the
    application of a batch to the document map, the compaction snapshot and the
    delta handed to the indexer. *)

From Stdlib Require Import ZArith Lia Bool.
From stdpp Require Import base gmap strings list.
From S2P Require Import Prelude F64 Json Models.

(** A byte string; each element is a [u8]. *)
Abbreviation bytes := (list Z).

Definition WAL_FORMAT_CRC32 : Z := 1.
Definition CRC32_TRAILER_LEN : Z := 4.

Record WalUpsert : Type := mkWalUpsert { wu_id : string; wu_attributes : bytes }.
Record WalPatch : Type := mkWalPatch { wp_id : string; wp_attributes : bytes }.

Record WalEntry : Type := mkWalEntry {
  upserts : list WalUpsert;
  patches : list WalPatch;
  deletes : list string
}.

Record WalSnapshot : Type := mkWalSnapshot {
  snap_seq : Z;
  snap_docs : list Document
}.

Abbreviation Docs := (gmap string Document).

(** ** The serialisation crates

    [bincode] on [WalEntry], [crc32fast], and [serde_json] on attribute maps
    and snapshots.  A map is serialised from its entries in iteration order. *)
Class WalCodec : Type := {
  bincode_serialize : WalEntry -> option bytes;
  bincode_deserialize : bytes -> option WalEntry;
  crc32 : bytes -> Z;
  json_to_vec : list (string * Value) -> option bytes;
  json_from_slice : bytes -> option (gmap string Value);
  snapshot_to_vec : WalSnapshot -> option bytes;
  snapshot_from_slice : bytes -> option WalSnapshot
}.

(** What the code relies on: [bincode] reads back what it wrote and writes at
    least one byte (an entry starts with a length), and the checksum is a
    [u32].  Nothing is assumed of floating-point attributes through JSON. *)
Class WalCodecLaws `{WalCodec} : Prop := {
  bincode_roundtrip : forall e b, bincode_serialize e = Some b -> bincode_deserialize b = Some e;
  bincode_nonempty : forall e b, bincode_serialize e = Some b -> b <> [];
  crc32_range : forall b, is_u32 (crc32 b)
}.

(** ** Errors *)

Inductive CorruptReason : Type :=
| EmptySegment
| TruncatedV1 (len : Z)
| CrcMismatch (stored computed : Z)
| PayloadAfterCrc
| LegacyDecode.

Inductive WalError : Type :=
| WalCorrupt (seq : option Z) (reason : CorruptReason)
| EncodePayload
| EncodeAttributes
| DecodeAttributes
| EncodeSnapshot
| DecodeSnapshot.

Definition is_corrupt_error (e : WalError) : bool :=
  match e with WalCorrupt _ _ => true | _ => false end.

Inductive WalCorruptPolicy : Type := PolicyFail | PolicySkip.

Definition from_env_str (s : string) : WalCorruptPolicy :=
  if String.eqb (to_ascii_lowercase (str_trim s)) "skip" then PolicySkip else PolicyFail.

(** ** Words *)

(** [u32::to_le_bytes] and [u32::from_le_bytes]. *)
Definition to_le_bytes (w : Z) : bytes :=
  [Z.land w 255; Z.land (Z.shiftr w 8) 255; Z.land (Z.shiftr w 16) 255; Z.land (Z.shiftr w 24) 255].

Definition from_le_bytes (b : bytes) : Z :=
  match b with
  | [b0; b1; b2; b3] =>
      Z.lor b0 (Z.lor (Z.shiftl b1 8) (Z.lor (Z.shiftl b2 16) (Z.shiftl b3 24)))
  | _ => 0
  end.

Section Wal.
Context `{IterOrder} `{WalCodec}.

(** ** Documents in an entry *)

Definition document_to_upsert (doc : Document) : result WalError WalUpsert :=
  let? a := ok_or (json_to_vec (iter_map (doc_attributes doc))) EncodeAttributes in
  Ok (mkWalUpsert (doc_id doc) a).

Definition document_to_patch (doc : Document) : result WalError WalPatch :=
  let? a := ok_or (json_to_vec (iter_map (doc_attributes doc))) EncodeAttributes in
  Ok (mkWalPatch (doc_id doc) a).

Definition wal_upsert_to_document (u : WalUpsert) : result WalError Document :=
  let? a := ok_or (json_from_slice (wu_attributes u)) DecodeAttributes in
  Ok (mkDocument (wu_id u) a).

Definition wal_patch_to_document (p : WalPatch) : result WalError Document :=
  let? a := ok_or (json_from_slice (wp_attributes p)) DecodeAttributes in
  Ok (mkDocument (wp_id p) a).

Definition from_write (ups pats : list Document) (dels : list string) : result WalError WalEntry :=
  let? us := collect_result document_to_upsert ups in
  let? ps := collect_result document_to_patch pats in
  Ok (mkWalEntry us ps dels).

Definition into_documents (e : WalEntry) : result WalError (list Document) :=
  collect_result wal_upsert_to_document (upserts e).

Definition patch_documents (e : WalEntry) : result WalError (list Document) :=
  collect_result wal_patch_to_document (patches e).

Definition merge_document_attributes (doc patch : Document) : Document :=
  mkDocument (doc_id doc)
    (fold_left (fun acc kv => <[kv.1 := kv.2]> acc) (iter_map (doc_attributes patch))
      (doc_attributes doc)).

(** ** Segments *)

Definition encode (entry : WalEntry) : result WalError bytes :=
  let? payload := ok_or (bincode_serialize entry) EncodePayload in
  let crc := crc32 payload in
  Ok ([WAL_FORMAT_CRC32] ++ payload ++ to_le_bytes crc).

Definition decode_crc32_format (b : bytes) (seq : option Z) : result WalError WalEntry :=
  if lenZ b <? 1 + CRC32_TRAILER_LEN + 1 then Err (WalCorrupt seq (TruncatedV1 (lenZ b)))
  else
    let body := Z.to_nat (lenZ b - CRC32_TRAILER_LEN) in
    let payload := drop 1 (take body b) in
    let stored_crc := from_le_bytes (drop body b) in
    let computed_crc := crc32 payload in
    if negb (stored_crc =? computed_crc)
    then Err (WalCorrupt seq (CrcMismatch stored_crc computed_crc))
    else ok_or (bincode_deserialize payload) (WalCorrupt seq PayloadAfterCrc).

Definition decode_segment (b : bytes) (seq : option Z) : result WalError WalEntry :=
  match b with
  | [] => Err (WalCorrupt seq EmptySegment)
  | b0 :: _ =>
      if (b0 =? WAL_FORMAT_CRC32) && (1 + CRC32_TRAILER_LEN <? lenZ b) then
        match decode_crc32_format b seq with
        | Ok entry => Ok entry
        | Err e =>
            if is_corrupt_error e then
              match bincode_deserialize b with
              | Some entry => Ok entry
              | None => Err e
              end
            else Err e
        end
      else ok_or (bincode_deserialize b) (WalCorrupt seq LegacyDecode)
  end.

Definition decode (b : bytes) : result WalError WalEntry := decode_segment b None.

Definition decode_segment_with_policy (b : bytes) (seq : Z) (policy : WalCorruptPolicy)
  : result WalError (option WalEntry) :=
  match decode_segment b (Some seq) with
  | Ok entry => Ok (Some entry)
  | Err e =>
      if is_corrupt_error e then
        match policy with
        | PolicyFail => Err e
        | PolicySkip => Ok None
        end
      else Err e
  end.

(** ** Application

    The map is mutated in place: on an error the state holds what was applied
    before it. *)

Definition apply_deletes (ids : list string) (docs : Docs) : Docs :=
  fold_left (fun m id => delete id m) ids docs.

Definition apply_upserts (ds : list Document) (docs : Docs) : Docs :=
  fold_left (fun m d => <[doc_id d := d]> m) ds docs.

Definition apply_patch (docs : Docs) (patch : Document) : Docs :=
  match docs !! doc_id patch with
  | Some existing => <[doc_id patch := merge_document_attributes existing patch]> docs
  | None => docs
  end.

Definition apply_patches (ps : list Document) (docs : Docs) : Docs :=
  fold_left apply_patch ps docs.

Definition apply_entry (docs : Docs) (entry : WalEntry) : Docs * result WalError unit :=
  let docs := apply_deletes (deletes entry) docs in
  match into_documents entry with
  | Err e => (docs, Err e)
  | Ok us =>
      let docs := apply_upserts us docs in
      match patch_documents entry with
      | Err e => (docs, Err e)
      | Ok ps => (apply_patches ps docs, Ok tt)
      end
  end.

(** ** Snapshots *)

Definition from_docs (seq : Z) (docs : Docs) : WalSnapshot :=
  mkWalSnapshot seq (iter_values docs).

Definition into_docs (s : WalSnapshot) : Docs := apply_upserts (snap_docs s) ∅.

Definition encode_snapshot (s : WalSnapshot) : result WalError bytes :=
  ok_or (snapshot_to_vec s) EncodeSnapshot.

Definition decode_snapshot (b : bytes) : result WalError WalSnapshot :=
  ok_or (snapshot_from_slice b) DecodeSnapshot.

(** ** The indexer's delta *)

(** One turn of the loop of [collect_index_delta]: the baseline, the collected
    upserts and the collected deletes after one entry. *)
Definition collect_step (st : Docs * Docs * list string) (entry : WalEntry)
  : result WalError (Docs * Docs * list string) :=
  let '(baseline, upsert_map, dels) := st in
  let dels := dels ++ deletes entry in
  let upsert_ids := wu_id <$> upserts entry in
  let patch_ids := wp_id <$> patches entry in
  let '(baseline, r) := apply_entry baseline entry in
  let? _ := r in
  let upsert_map :=
    fold_left (fun m id =>
      match baseline !! id with
      | Some doc => <[id := doc]> m
      | None => m
      end) (upsert_ids ++ patch_ids) upsert_map in
  Ok (baseline, upsert_map, dels).

Fixpoint collect_loop (st : Docs * Docs * list string) (entries : list WalEntry)
  : result WalError (Docs * Docs * list string) :=
  match entries with
  | [] => Ok st
  | e :: es => let? st := collect_step st e in collect_loop st es
  end.

Definition collect_index_delta (baseline : Docs) (entries : list WalEntry)
  : result WalError (Docs * (list (string * Document) * list string)) :=
  let? (baseline, upsert_map, dels) := collect_loop (baseline, ∅, []) entries in
  Ok (baseline, (iter_map upsert_map, dels)).

End Wal.

(** ** Wire format: lemmas *)

Lemma testbit_byte w n : 0 <= n -> Z.testbit (Z.land w 255) n = (n <? 8) && Z.testbit w n.
Proof.
  intros Hn. rewrite Z.land_spec. change 255 with (Z.ones 8). rewrite Z.testbit_ones by lia.
  replace (0 <=? n) with true by lia. by rewrite andb_comm.
Qed.

Lemma testbit_byte_shift w n k :
  0 <= n -> 0 <= k ->
  Z.testbit (Z.shiftl (Z.land (Z.shiftr w k) 255) k) n = (k <=? n) && (n <? k + 8) && Z.testbit w n.
Proof.
  intros Hn Hk. destruct (Z.le_gt_cases k n) as [Hkn|Hkn].
  - rewrite Z.shiftl_spec by lia. rewrite testbit_byte by lia. rewrite Z.shiftr_spec by lia.
    replace (n - k + k) with n by lia. replace (k <=? n) with true by lia.
    by replace (n - k <? 8) with (n <? k + 8) by lia.
  - rewrite Z.shiftl_spec_low by lia. by replace (k <=? n) with false by lia.
Qed.

Lemma u32_testbit_high w n : is_u32 w -> 32 <= n -> Z.testbit w n = false.
Proof.
  intros [H0 H1] Hn. destruct (Z.eq_dec w 0) as [->|]; [apply Z.testbit_0_l|].
  apply Z.bits_above_log2; [lia|]. apply Z.log2_lt_pow2; [lia|].
  unfold u32_max in H1. apply Z.lt_le_trans with (2 ^ 32); [lia|]. by apply Z.pow_le_mono_r.
Qed.

Lemma le_bytes_roundtrip w : is_u32 w -> from_le_bytes (to_le_bytes w) = w.
Proof.
  intros Hw. apply Z.bits_inj'. intros n Hn. cbn [from_le_bytes to_le_bytes].
  rewrite !Z.lor_spec, testbit_byte, !testbit_byte_shift by lia.
  destruct (Z.le_gt_cases 32 n) as [Hh|Hh].
  - rewrite (u32_testbit_high w n) by done. by rewrite !andb_false_r.
  - destruct (Z.testbit w n); rewrite ?andb_false_r, ?andb_true_r; [|done].
    repeat rewrite orb_true_iff, ?andb_true_iff. lia.
Qed.

Section WalTheorems.
Context `{IterOrder} `{WalCodec}.

(** A version-1 segment read back: the payload and the stored checksum are
    recovered from their positions. *)
Lemma decode_crc32_v1 payload crc seq :
  payload <> [] -> is_u32 crc ->
  decode_crc32_format ([WAL_FORMAT_CRC32] ++ payload ++ to_le_bytes crc) seq =
  if crc =? crc32 payload
  then ok_or (bincode_deserialize payload) (WalCorrupt seq PayloadAfterCrc)
  else Err (WalCorrupt seq (CrcMismatch crc (crc32 payload))).
Proof.
  intros Hne Hcrc. unfold decode_crc32_format.
  assert (lenZ ([WAL_FORMAT_CRC32] ++ payload ++ to_le_bytes crc) = lenZ payload + 5) as Hlen.
  { unfold lenZ. rewrite !length_app. cbn. lia. }
  assert (0 < lenZ payload) by (destruct payload; [done|]; unfold lenZ; cbn; lia).
  rewrite Hlen. unfold CRC32_TRAILER_LEN.
  destruct (Z.ltb_spec (lenZ payload + 5) (1 + 4 + 1)); [lia|].
  replace (Z.to_nat (lenZ payload + 5 - 4)) with (length ([WAL_FORMAT_CRC32] ++ payload))
    by (rewrite length_app; unfold lenZ; cbn; lia).
  rewrite app_assoc, take_app_length, drop_app_length.
  rewrite le_bytes_roundtrip by done. cbn [app drop]. rewrite drop_0.
  by destruct (crc =? crc32 payload).
Qed.

Lemma decode_segment_v1 payload crc seq :
  payload <> [] -> is_u32 crc ->
  let b := [WAL_FORMAT_CRC32] ++ payload ++ to_le_bytes crc in
  decode_segment b seq =
  match (if crc =? crc32 payload then bincode_deserialize payload else None) with
  | Some e => Ok e
  | None =>
      ok_or (bincode_deserialize b)
        (WalCorrupt seq (if crc =? crc32 payload then PayloadAfterCrc
                         else CrcMismatch crc (crc32 payload)))
  end.
Proof.
  intros Hne Hcrc b. unfold b, decode_segment.
  rewrite decode_crc32_v1 by done. cbn [app].
  assert (1 + CRC32_TRAILER_LEN <? lenZ (WAL_FORMAT_CRC32 :: payload ++ to_le_bytes crc) = true) as ->.
  { unfold lenZ, CRC32_TRAILER_LEN. cbn. rewrite length_app. destruct payload; [done|]. cbn.
    apply Z.ltb_lt. lia. }
  cbn [andb Z.eqb WAL_FORMAT_CRC32].
  destruct (crc =? crc32 payload); cbn.
  - destruct (bincode_deserialize payload); cbn; [done|]. by case_goal.
  - by case_goal.
Qed.
End WalTheorems.

(** ** A concrete codec

    A codec that knows finitely many values and writes their position in a
    table; it satisfies the laws, and the witnesses run on it. *)
#[export] Instance WalEntry_eq_decision : EqDecision WalEntry.
Proof.
  assert (EqDecision WalUpsert) by solve_decision.
  assert (EqDecision WalPatch) by solve_decision. solve_decision.
Defined.
#[export] Instance WalSnapshot_eq_decision : EqDecision WalSnapshot.
Proof. solve_decision. Defined.

Section TableCodec.
Context (entries : list WalEntry) (attrs : list (gmap string Value)) (snaps : list WalSnapshot).

Definition table_write {A} `{EqDecision A} (tbl : list A) (x : A) : option bytes :=
  (fun p => [Z.of_nat p.1 + 65]) <$> list_find (fun y => x = y) tbl.

Definition table_read {A} (tbl : list A) (b : bytes) : option A :=
  match b with [n] => tbl !! Z.to_nat (n - 65) | _ => None end.

Lemma table_roundtrip {A} `{EqDecision A} (tbl : list A) (x : A) b :
  table_write tbl x = Some b -> table_read tbl b = Some x.
Proof.
  unfold table_write. destruct (list_find _ tbl) as [[i y]|] eqn:Hf; [|done].
  intros [=<-]. apply list_find_Some in Hf as (Hi & -> & _). cbn [table_read fst].
  by replace (Z.to_nat (Z.of_nat i + 65 - 65)) with i by lia.
Qed.

Lemma table_write_nonempty {A} `{EqDecision A} (tbl : list A) (x : A) b :
  table_write tbl x = Some b -> b <> [].
Proof. unfold table_write. destruct (list_find _ tbl); by intros [=<-]. Qed.

Definition table_codec : WalCodec := {|
  bincode_serialize := table_write entries;
  bincode_deserialize := table_read entries;
  crc32 := fun b => (fold_left Z.add b 7) mod 2 ^ 32;
  json_to_vec := fun kvs => table_write attrs (list_to_map kvs);
  json_from_slice := table_read attrs;
  snapshot_to_vec := table_write snaps;
  snapshot_from_slice := table_read snaps
|}.

Lemma table_codec_laws : @WalCodecLaws table_codec.
Proof.
  split.
  - apply table_roundtrip.
  - intros e b. apply table_write_nonempty.
  - intros b. pose proof (Z.mod_pos_bound (fold_left Z.add b 7) (2 ^ 32)).
    unfold is_u32, u32_max. cbn [crc32 table_codec]. lia.
Qed.
End TableCodec.

Definition sample_entry : WalEntry := mkWalEntry [mkWalUpsert "a" [65]] [] ["b"].
Definition sample_codec : WalCodec := table_codec [sample_entry] [∅] [].

(** ** Wire format: theorems *)

Lemma decode_segment_encode {C : WalCodec} {L : WalCodecLaws} entry b seq :
  encode entry = Ok b -> decode_segment b seq = Ok entry.
Proof.
  unfold encode. destruct (bincode_serialize entry) as [payload|] eqn:Hs; cbn [ok_or result_bind]; [|done].
  intros [=<-].
  change (decode_segment ([WAL_FORMAT_CRC32] ++ payload ++ to_le_bytes (crc32 payload)) seq = Ok entry).
  rewrite decode_segment_v1 by eauto using bincode_nonempty, crc32_range.
  rewrite Z.eqb_refl. by rewrite (bincode_roundtrip _ _ Hs).
Qed.

Lemma decode_encode_ok {C : WalCodec} {L : WalCodecLaws} entry b :
  encode entry = Ok b -> decode b = Ok entry.
Proof. apply decode_segment_encode. Qed.

Lemma decode_policy_encode {C : WalCodec} {L : WalCodecLaws} entry b seq policy :
  encode entry = Ok b -> decode_segment_with_policy b seq policy = Ok (Some entry).
Proof.
  intros He. unfold decode_segment_with_policy. by rewrite (decode_segment_encode _ _ (Some seq) He).
Qed.

(** C22: decoding an encoded WAL segment gives back the entry, under every
    corruption policy and whatever sequence number tags the read. *)
Theorem wal_decode_encode {C : WalCodec} {L : WalCodecLaws} entry b seq policy :
  encode entry = Ok b ->
  decode b = Ok entry /\ decode_segment_with_policy b seq policy = Ok (Some entry).
Proof.
  intros He. split; [by apply decode_encode_ok|by apply decode_policy_encode].
Qed.

Lemma wal_decode_encode_witness :
  let b := [1; 65; 72; 0; 0; 0] in
  @decode sample_codec b = Ok sample_entry /\
  @decode_segment_with_policy sample_codec b 7 PolicyFail = Ok (Some sample_entry).
Proof.
  apply (@wal_decode_encode sample_codec (table_codec_laws _ _ _)). vm_compute. reflexivity.
Defined.

(** C23: corruption is never silent.  A version-1 segment whose stored checksum
    differs from the checksum of its payload is accepted only if all of its
    bytes are a legacy entry; otherwise the default policy stops the replay
    with a corruption error that names the segment, and the skip policy drops
    exactly this segment. *)
Theorem wal_corruption_detected {C : WalCodec} payload crc seq :
  payload <> [] -> is_u32 crc -> crc <> crc32 payload ->
  let b := [WAL_FORMAT_CRC32] ++ payload ++ to_le_bytes crc in
  bincode_deserialize b = None ->
  decode_segment_with_policy b seq PolicyFail
    = Err (WalCorrupt (Some seq) (CrcMismatch crc (crc32 payload))) /\
  decode_segment_with_policy b seq PolicySkip = Ok None.
Proof.
  intros Hne Hcrc Hneq b Hleg. unfold decode_segment_with_policy.
  unfold b in *. rewrite decode_segment_v1 by done.
  destruct (Z.eqb_spec crc (crc32 payload)); [done|]. by rewrite Hleg.
Qed.

Lemma wal_corruption_detected_witness :
  let b := [WAL_FORMAT_CRC32] ++ [66] ++ to_le_bytes 72 in
  @decode_segment_with_policy sample_codec b 3 PolicyFail
    = Err (WalCorrupt (Some 3) (CrcMismatch 72 (@crc32 sample_codec [66]))) /\
  @decode_segment_with_policy sample_codec b 3 PolicySkip = Ok None.
Proof.
  apply (@wal_corruption_detected sample_codec).
  - discriminate.
  - vm_compute. split; discriminate.
  - vm_compute. discriminate.
  - vm_compute. reflexivity.
Defined.
