(* ===== verification/WalReplay.v ===== *)
(** * Replaying the log ([wal.rs], [apply_entry] and its clients)

    An abstract specification of what a batch does to one document (set it,
    remove it, or merge attributes into it), the refinement theorem that
    [apply_entry] implements it, and its consequences: replay is idempotent,
    snapshots are exact, and when the indexer's delta is faithful. *)

From Stdlib Require Import ZArith Lia Bool.
From stdpp Require Import base gmap strings list.
From S2P Require Import Prelude F64 Json Models Wal.

(** ** The abstract operation on one document id *)

Inductive IdOp : Type :=
| OpSet (o : option Document)
| OpMerge (m : gmap string Value).

Definition merged (m : gmap string Value) (d : Document) : Document :=
  mkDocument (doc_id d) (m ∪ doc_attributes d).

Definition run_op (op : IdOp) (cur : option Document) : option Document :=
  match op with
  | OpSet o => o
  | OpMerge m => merged m <$> cur
  end.

Definition then_op (f g : IdOp) : IdOp :=
  match g, f with
  | OpSet o, _ => OpSet o
  | OpMerge _, OpSet o => OpSet (run_op g o)
  | OpMerge m2, OpMerge m1 => OpMerge (m2 ∪ m1)
  end.

Lemma merged_merged m2 m1 d : merged m2 (merged m1 d) = merged (m2 ∪ m1) d.
Proof. unfold merged. cbn. by rewrite (assoc_L (∪)). Qed.

Lemma run_then f g cur : run_op (then_op f g) cur = run_op g (run_op f cur).
Proof.
  destruct f, g; cbn; try done. destruct cur; cbn; [|done]. by rewrite merged_merged.
Qed.

Lemma run_op_idem f cur : run_op f (run_op f cur) = run_op f cur.
Proof.
  destruct f; cbn; [done|]. destruct cur; cbn; [|done].
  by rewrite merged_merged, (idemp_L (∪)).
Qed.

(** What a decoded batch does to [id]: deletes, then upserts, then patches. *)
Definition base_op (id : string) (dels : list string) (us : list Document) : IdOp :=
  match last (filter (fun d => doc_id d = id) us) with
  | Some d => OpSet (Some d)
  | None => if decide (id ∈ dels) then OpSet None else OpMerge ∅
  end.

Definition patches_op (id : string) (ps : list Document) : IdOp :=
  OpMerge (fold_left (fun m p => doc_attributes p ∪ m) (filter (fun p => doc_id p = id) ps) ∅).

Definition batch_op (id : string) (dels : list string) (us ps : list Document) : IdOp :=
  then_op (base_op id dels us) (patches_op id ps).

(** Documents are stored under their own id. *)
Definition docs_keyed (docs : Docs) : Prop := map_Forall (fun id d => doc_id d = id) docs.

Section Replay.
Context `{IterOrder} `{WalCodec}.

(** ** [apply_entry] refines [batch_op] *)

Lemma fold_insert_union (kvs : list (string * Value)) (m : gmap string Value) :
  NoDup kvs.*1 ->
  fold_left (fun acc kv => <[kv.1 := kv.2]> acc) kvs m = list_to_map kvs ∪ m.
Proof.
  revert m. induction kvs as [|[k v] kvs IH]; intros m Hnd; cbn.
  - by rewrite (left_id_L ∅ (∪)).
  - cbn in Hnd. apply NoDup_cons in Hnd as [Hni Hnd]. rewrite IH by done.
    rewrite <- insert_union_l, <- insert_union_r; [done|]. by apply not_elem_of_list_to_map_1.
Qed.

Lemma merge_document_attributes_union doc patch :
  merge_document_attributes doc patch = merged (doc_attributes patch) doc.
Proof.
  unfold merge_document_attributes, merged. f_equal.
  rewrite fold_insert_union by apply iter_map_NoDup_keys. f_equal.
  rewrite (list_to_map_proper (iter_map (doc_attributes patch)) (map_to_list (doc_attributes patch))).
  - apply list_to_map_to_list.
  - apply iter_map_NoDup_keys.
  - apply iter_map_perm.
Qed.

Lemma apply_deletes_lookup ids docs id :
  apply_deletes ids docs !! id = if decide (id ∈ ids) then None else docs !! id.
Proof.
  unfold apply_deletes. revert docs. induction ids as [|i ids IH]; intros docs; [done|]. cbn.
  rewrite IH. destruct (decide (id ∈ ids)), (decide (id ∈ i :: ids)); try done; try set_solver.
  - assert (id = i) as -> by set_solver. by rewrite lookup_delete_eq.
  - rewrite lookup_delete_ne; [done|]. set_solver.
Qed.

Lemma apply_upserts_lookup us docs id :
  apply_upserts us docs !! id =
  match last (filter (fun d => doc_id d = id) us) with
  | Some d => Some d
  | None => docs !! id
  end.
Proof.
  unfold apply_upserts. revert docs. induction us as [|u us IH] using rev_ind; intros docs; [done|].
  rewrite fold_left_app, filter_app. cbn [fold_left]. destruct (decide (doc_id u = id)) as [<-|Hne].
  - rewrite filter_cons_True by done. rewrite filter_nil. rewrite last_snoc. by rewrite lookup_insert_eq.
  - rewrite filter_cons_False by done. rewrite filter_nil, app_nil_r.
    rewrite lookup_insert_ne by done. apply IH.
Qed.

Lemma apply_patch_lookup docs p id :
  apply_patch docs p !! id =
  if decide (doc_id p = id) then merged (doc_attributes p) <$> docs !! id else docs !! id.
Proof.
  unfold apply_patch. destruct (docs !! doc_id p) as [d|] eqn:Hd.
  - destruct (decide (doc_id p = id)) as [<-|Hne].
    + by rewrite lookup_insert_eq, Hd, merge_document_attributes_union.
    + by rewrite lookup_insert_ne.
  - destruct (decide (doc_id p = id)) as [<-|]; [|done]. by rewrite Hd.
Qed.

Lemma apply_patches_lookup ps docs id :
  apply_patches ps docs !! id = run_op (patches_op id ps) (docs !! id).
Proof.
  unfold apply_patches. induction ps as [|p ps IH] using rev_ind.
  - cbn. destruct (docs !! id) as [d|]; cbn; [|done].
    unfold merged. rewrite (left_id_L ∅ (∪)). by destruct d.
  - rewrite fold_left_app. cbn [fold_left]. rewrite apply_patch_lookup, IH.
    unfold patches_op. rewrite filter_app.
    destruct (decide (doc_id p = id)) as [<-|Hne].
    + rewrite filter_cons_True, filter_nil by done. rewrite fold_left_app. cbn [fold_left run_op].
      destruct (docs !! doc_id p); cbn; [|done]. by rewrite merged_merged.
    + by rewrite filter_cons_False, filter_nil, app_nil_r by done.
Qed.

Lemma apply_batch_lookup dels us ps docs id :
  apply_patches ps (apply_upserts us (apply_deletes dels docs)) !! id =
  run_op (batch_op id dels us ps) (docs !! id).
Proof.
  unfold batch_op. rewrite run_then, apply_patches_lookup. f_equal.
  rewrite apply_upserts_lookup, apply_deletes_lookup. unfold base_op.
  destruct (last _); [done|]. destruct (decide (id ∈ dels)); [done|]. cbn.
  destruct (docs !! id) as [d|]; [|done]. cbn. unfold merged.
  rewrite (left_id_L ∅ (∪)). by destruct d.
Qed.

Lemma apply_entry_ok docs entry docs' :
  apply_entry docs entry = (docs', Ok tt) <->
  exists us ps, into_documents entry = Ok us /\ patch_documents entry = Ok ps /\
    docs' = apply_patches ps (apply_upserts us (apply_deletes (deletes entry) docs)).
Proof.
  unfold apply_entry. destruct (into_documents entry) as [us|]; [|naive_solver].
  destruct (patch_documents entry) as [ps|]; [|naive_solver].
  split; [intros [=<-]; by exists us, ps|]. intros (us' & ps' & [=<-] & [=<-] & ->). done.
Qed.

(** ** Replay *)

Fixpoint replay (docs : Docs) (es : list WalEntry) : result WalError Docs :=
  match es with
  | [] => Ok docs
  | e :: es' =>
      match apply_entry docs e with
      | (docs', Ok _) => replay docs' es'
      | (_, Err err) => Err err
      end
  end.

Lemma replay_app docs es es' :
  replay docs (es ++ es') = let? d := replay docs es in replay d es'.
Proof.
  revert docs. induction es as [|e es IH]; intros docs; [done|]. cbn.
  destruct (apply_entry docs e) as [d [[]|err]]; [apply IH|done].
Qed.

(** The operation of a whole sequence on one id. *)
Lemma replay_op es :
  (forall docs, is_ok (replay docs es) = false) \/
  exists op : string -> IdOp, forall docs, exists docs',
    replay docs es = Ok docs' /\ forall id, docs' !! id = run_op (op id) (docs !! id).
Proof.
  induction es as [|e es IH].
  - right. exists (fun _ => OpMerge ∅). intros docs. exists docs. split; [done|].
    intros id. cbn. destruct (docs !! id) as [[i a]|]; [|done]. cbn. unfold merged. cbn.
    by rewrite (left_id_L ∅ (∪)).
  - cbn. destruct (into_documents e) as [us|] eqn:Hu.
    2: { left. intros docs. unfold apply_entry. by rewrite Hu. }
    destruct (patch_documents e) as [ps|] eqn:Hp.
    2: { left. intros docs. unfold apply_entry. by rewrite Hu, Hp. }
    assert (forall docs, apply_entry docs e =
      (apply_patches ps (apply_upserts us (apply_deletes (deletes e) docs)), Ok tt)) as He.
    { intros docs. apply apply_entry_ok. eauto. }
    destruct IH as [IH|[op Hop]].
    + left. intros docs. rewrite He. apply IH.
    + right. exists (fun id => then_op (batch_op id (deletes e) us ps) (op id)).
      intros docs. rewrite He. destruct (Hop (apply_patches ps (apply_upserts us
        (apply_deletes (deletes e) docs)))) as (docs' & Hr & Hl).
      exists docs'. split; [done|]. intros id. by rewrite Hl, apply_batch_lookup, run_then.
Qed.

Lemma replay_twice docs docs' es es' :
  replay docs es = Ok docs' -> replay docs' es' = Ok docs' ->
  replay docs (es ++ es') = Ok docs'.
Proof. intros H1 H2. by rewrite replay_app, H1. Qed.

Lemma replay_self docs docs' es : replay docs es = Ok docs' -> replay docs' es = Ok docs'.
Proof.
  intros Hr. destruct (replay_op es) as [Hf|[op Hop]].
  - specialize (Hf docs). by rewrite Hr in Hf.
  - destruct (Hop docs) as (d1 & H1 & L1). rewrite Hr in H1. injection H1 as <-.
    destruct (Hop docs') as (d2 & H2 & L2). rewrite H2. f_equal.
    apply map_eq. intros id. by rewrite L2, L1, run_op_idem.
Qed.

(** ** Keyed maps *)

Lemma apply_upserts_keyed us docs : docs_keyed docs -> docs_keyed (apply_upserts us docs).
Proof.
  intros Hk id d. rewrite apply_upserts_lookup.
  destruct (last (filter _ us)) as [d'|] eqn:Hl; [|apply Hk]. intros [=<-].
  apply last_Some_elem_of in Hl. by apply list_elem_of_filter in Hl as [? _].
Qed.

Lemma apply_entry_keyed docs e docs' r :
  docs_keyed docs -> apply_entry docs e = (docs', r) -> docs_keyed docs'.
Proof.
  intros Hk.
  assert (docs_keyed (apply_deletes (deletes e) docs)) as Hd.
  { intros id d. rewrite apply_deletes_lookup. destruct (decide _); [done|apply Hk]. }
  unfold apply_entry. destruct (into_documents e) as [us|]; [|by intros [=<- <-]].
  pose proof (apply_upserts_keyed us _ Hd) as Hu.
  destruct (patch_documents e) as [ps|]; [|by intros [=<- <-]]. intros [=<- <-] id d.
  rewrite apply_patches_lookup. cbn. destruct (_ !! id) as [d'|] eqn:Hl; [|done].
  cbn. intros [=<-]. cbn. by apply Hu.
Qed.

Lemma replay_keyed docs es docs' :
  docs_keyed docs -> replay docs es = Ok docs' -> docs_keyed docs'.
Proof.
  revert docs. induction es as [|e es IH]; intros docs Hk; cbn; [by intros [=<-]|].
  destruct (apply_entry docs e) as [d [[]|err]] eqn:He; [|done].
  apply IH. by eapply apply_entry_keyed.
Qed.

(** ** Snapshots *)

Lemma into_docs_from_docs seq docs : docs_keyed docs -> into_docs (from_docs seq docs) = docs.
Proof.
  intros Hk. apply map_eq. intros id. unfold into_docs. rewrite apply_upserts_lookup. cbn.
  destruct (last _) as [d|] eqn:Hl.
  - apply last_Some_elem_of, list_elem_of_filter in Hl as [<- Hin].
    apply elem_of_iter_values in Hin as [k Hd]. by rewrite (Hk k d Hd).
  - apply last_None in Hl. rewrite lookup_empty. destruct (docs !! id) as [d|] eqn:Hd; [|done].
    assert (d ∈ filter (fun d => doc_id d = id) (iter_values docs)) as Hin.
    { apply list_elem_of_filter. split; [by apply Hk|]. apply elem_of_iter_values. by exists id. }
    rewrite Hl in Hin. by apply not_elem_of_nil in Hin.
Qed.

(** ** Documents through an entry *)

(** The JSON codec reads back the attributes of [d] as they were. *)
Definition json_faithful (d : Document) : Prop :=
  forall b, json_to_vec (iter_map (doc_attributes d)) = Some b ->
    json_from_slice b = Some (doc_attributes d).

Lemma collect_roundtrip {A} (enc : Document -> result WalError A) (dec : A -> result WalError Document)
    (ds : list Document) (l : list A) :
  (forall d a, d ∈ ds -> enc d = Ok a -> dec a = Ok d) ->
  collect_result enc ds = Ok l -> collect_result dec l = Ok ds.
Proof.
  rewrite !collect_result_Forall2. intros Hrt Hf. revert Hrt.
  induction Hf as [|d a ds l Hd _ IH]; intros Hrt; [constructor|]. constructor.
  - apply Hrt; [by left|done].
  - apply IH. intros d' a' Hin. apply Hrt. by right.
Qed.

Lemma from_write_documents ups pats dels e :
  Forall json_faithful ups -> Forall json_faithful pats ->
  from_write ups pats dels = Ok e ->
  into_documents e = Ok ups /\ patch_documents e = Ok pats /\ deletes e = dels.
Proof.
  rewrite !Forall_forall. intros Hu Hp. unfold from_write.
  destruct (collect_result document_to_upsert ups) as [us|] eqn:Eu; cbn; [|done].
  destruct (collect_result document_to_patch pats) as [ps|] eqn:Ep; cbn; [|done].
  intros [=<-]. split; [|split; [|done]]; (eapply collect_roundtrip; [|eassumption]); intros d a Hd.
  - unfold document_to_upsert, wal_upsert_to_document.
    destruct (json_to_vec _) as [b|] eqn:Hj; [|done]. cbn. intros [=<-]. cbn.
    rewrite (Hu d Hd b Hj). by destruct d.
  - unfold document_to_patch, wal_patch_to_document.
    destruct (json_to_vec _) as [b|] eqn:Hj; [|done]. cbn. intros [=<-]. cbn.
    rewrite (Hp d Hd b Hj). by destruct d.
Qed.

(** ** The indexer's delta *)

Lemma record_lookup (ids : list string) (base m : Docs) id :
  fold_left (fun m i => match base !! i with Some d => <[i := d]> m | None => m end) ids m !! id
  = match (if decide (id ∈ ids) then base !! id else None) with
    | Some d => Some d
    | None => m !! id
    end.
Proof.
  revert m. induction ids as [|i ids IH]; intros m; [done|]. cbn [fold_left]. rewrite IH.
  destruct (decide (id ∈ ids)) as [Hin|Hni].
  - rewrite decide_True by (by right). destruct (base !! id) eqn:Hb; [done|].
    destruct (decide (i = id)) as [->|Hne]; [by rewrite Hb|].
    destruct (base !! i); [by rewrite lookup_insert_ne|done].
  - destruct (decide (i = id)) as [->|Hne].
    + rewrite decide_True by (by left). destruct (base !! id); [by rewrite lookup_insert_eq|done].
    + rewrite decide_False by set_solver.
      destruct (base !! i); [by rewrite lookup_insert_ne|done].
Qed.

(** How the collected delta relates to the state reached. *)
Definition delta_inv (base0 base umap : Docs) (dels : list string) : Prop := forall id,
  match base !! id with
  | Some d => umap !! id = Some d \/ (umap !! id = None /\ id ∉ dels /\ base0 !! id = Some d)
  | None => id ∈ dels \/ (umap !! id = None /\ base0 !! id = None)
  end.

Lemma into_documents_ids e us :
  into_documents e = Ok us -> doc_id <$> us = wu_id <$> upserts e.
Proof.
  unfold into_documents. rewrite collect_result_Forall2.
  induction 1 as [|u d l k Hu _ IH]; [done|]. rewrite !fmap_cons, IH. f_equal.
  unfold wal_upsert_to_document in Hu. destruct (json_from_slice _); [|done]. by injection Hu as <-.
Qed.

Lemma patch_documents_ids e ps :
  patch_documents e = Ok ps -> doc_id <$> ps = wp_id <$> patches e.
Proof.
  unfold patch_documents. rewrite collect_result_Forall2.
  induction 1 as [|u d l k Hu _ IH]; [done|]. rewrite !fmap_cons, IH. f_equal.
  unfold wal_patch_to_document in Hu. destruct (json_from_slice _); [|done]. by injection Hu as <-.
Qed.

Lemma filter_id_nil id (l : list Document) :
  id ∉ doc_id <$> l -> filter (fun d => doc_id d = id) l = [].
Proof.
  induction l as [|d l IH]; [done|]. rewrite fmap_cons, not_elem_of_cons. intros [Hne Hni].
  rewrite filter_cons_False by congruence. by apply IH.
Qed.

Lemma batch_op_untouched id dels us ps :
  id ∉ doc_id <$> us -> id ∉ doc_id <$> ps ->
  batch_op id dels us ps = if decide (id ∈ dels) then OpSet None else OpMerge ∅.
Proof.
  intros Hu Hp. unfold batch_op, base_op, patches_op. rewrite !filter_id_nil by done. cbn.
  destruct (decide _); [done|]. by rewrite (left_id_L ∅ (∪)).
Qed.

Lemma batch_op_None id dels us ps cur :
  run_op (batch_op id dels us ps) cur = None -> id ∈ dels \/ cur = None.
Proof.
  unfold batch_op. rewrite run_then. unfold base_op, patches_op. cbn [run_op].
  rewrite fmap_None. destruct (last _); [done|].
  destruct (decide (id ∈ dels)); [by left|]. cbn. rewrite fmap_None. by right.
Qed.

Lemma run_merge_empty cur : run_op (OpMerge ∅) cur = cur.
Proof.
  destruct cur as [[i a]|]; cbn; [|done]. unfold merged. cbn. by rewrite (left_id_L ∅ (∪)).
Qed.

Lemma collect_step_inv base0 base umap dels e base' umap' dels' :
  delta_inv base0 base umap dels ->
  collect_step (base, umap, dels) e = Ok (base', umap', dels') ->
  delta_inv base0 base' umap' dels'.
Proof.
  intros Hinv. unfold collect_step.
  destruct (apply_entry base e) as [b [[]|err]] eqn:He; cbn; [|done]. intros [=<- <- <-] id.
  apply apply_entry_ok in He as (us & ps & Hus & Hps & ->).
  rewrite record_lookup, !apply_batch_lookup.
  rewrite <- (into_documents_ids _ _ Hus), <- (patch_documents_ids _ _ Hps).
  specialize (Hinv id). destruct (decide (id ∈ (doc_id <$> us) ++ (doc_id <$> ps))) as [Ht|Ht].
  - destruct (run_op _ _) as [d|] eqn:Hr; [by left|].
    apply batch_op_None in Hr as [Hd|Hn]; [left; set_solver|].
    rewrite Hn in Hinv. set_solver.
  - rewrite not_elem_of_app in Ht. destruct Ht as [Hu Hp].
    rewrite batch_op_untouched by done. destruct (decide (id ∈ deletes e)) as [Hd|Hd].
    + left. set_solver.
    + rewrite run_merge_empty. destruct (base !! id); set_solver.
Qed.

Lemma collect_loop_inv base0 es st st' :
  delta_inv base0 st.1.1 st.1.2 st.2 -> collect_loop st es = Ok st' ->
  delta_inv base0 st'.1.1 st'.1.2 st'.2 /\ replay st.1.1 es = Ok st'.1.1.
Proof.
  revert st. induction es as [|e es IH]; intros [[b u] d] Hinv;
    cbn [collect_loop replay fst snd].
  - by intros [=<-].
  - destruct (collect_step (b, u, d) e) as [[[b1 u1] d1]|] eqn:Hs; cbn [result_bind]; [|done]. intros Hl.
    assert (apply_entry b e = (b1, Ok tt)) as ->.
    { unfold collect_step in Hs. destruct (apply_entry b e) as [b2 [[]|]]; cbn in Hs; [|done].
      by injection Hs as <- _ _. }
    apply (IH (b1, u1, d1)); [|done]. by eapply collect_step_inv.
Qed.

Lemma apply_upserts_map (m docs : Docs) :
  docs_keyed m -> apply_upserts (iter_map m).*2 docs = m ∪ docs.
Proof.
  intros Hk. apply map_eq. intros id. rewrite apply_upserts_lookup, lookup_union.
  pose proof (into_docs_from_docs 0 m Hk) as Hid. unfold into_docs, from_docs, iter_values in Hid.
  apply (f_equal (fun x => x !! id)) in Hid. rewrite apply_upserts_lookup, lookup_empty in Hid.
  cbn [snap_docs] in Hid. destruct (last _) as [d|].
  - rewrite <- Hid. by rewrite union_Some_l.
  - rewrite <- Hid. by rewrite (left_id_L None (∪)).
Qed.
End Replay.

Lemma collect_delta_exact {IO : IterOrder} {C : WalCodec} base entries final ups dels :
  docs_keyed base ->
  collect_index_delta base entries = Ok (final, (ups, dels)) ->
  (forall id, id ∈ ups.*1 -> is_Some (final !! id)) ->
  (replay base entries = Ok final /\ apply_upserts ups.*2 (apply_deletes dels base) = final) /\
  Forall (fun p => doc_id p.2 = p.1) ups.
Proof.
  intros Hk. unfold collect_index_delta.
  destruct (collect_loop (base, ∅, []) entries) as [[[b u] d]|] eqn:Hl; cbn [result_bind]; [|done].
  intros [=<- <- <-] Hex.
  assert (delta_inv base base ∅ []) as Hinv0.
  { intros id. rewrite lookup_empty. destruct (base !! id); [right|]; set_solver. }
  apply (collect_loop_inv base) in Hl as [Hinv Hr]; [|done]. cbn in Hinv, Hr.
  assert (forall id dd, u !! id = Some dd -> b !! id = Some dd) as Hub.
  { intros id dd Hu. destruct (Hex id) as [x Hx].
    { apply elem_of_iter_keys. by eexists. }
    specialize (Hinv id). rewrite Hx in Hinv. rewrite Hx. destruct Hinv; [congruence|]. set_solver. }
  pose proof (replay_keyed _ _ _ Hk Hr) as Hbk.
  split; [|apply Forall_forall; intros [i dd] Hin; apply iter_map_elem in Hin; by apply Hbk, Hub].
  split; [done|]. rewrite apply_upserts_map by (intros id dd Hu; by apply Hbk, Hub).
  apply map_eq. intros id. rewrite lookup_union, apply_deletes_lookup. specialize (Hinv id).
  destruct (u !! id) as [dd|] eqn:Hu.
  - rewrite union_Some_l. symmetry. by apply Hub.
  - rewrite (left_id_L None (∪)). destruct (b !! id), (decide (id ∈ d)); naive_solver.
Qed.

(** ** Theorems *)

(** C19: [apply_entry] implements the abstract batch: when the attributes decode,
    every id ends up with exactly what deletes, then upserts, then patches make
    of it (the last upsert wins; a patch merges into an existing document and
    is ignored otherwise), and when they do not, an error is returned. *)
Theorem apply_entry_refines {IO : IterOrder} {C : WalCodec} docs entry :
  match into_documents entry, patch_documents entry with
  | Ok us, Ok ps =>
      exists docs', apply_entry docs entry = (docs', Ok tt) /\
        forall id, docs' !! id = run_op (batch_op id (deletes entry) us ps) (docs !! id)
  | _, _ => exists docs' e, apply_entry docs entry = (docs', Err e)
  end.
Proof.
  unfold apply_entry. destruct (into_documents entry) as [us|]; [|by eauto].
  destruct (patch_documents entry) as [ps|]; [|by eauto].
  eexists. split; [done|]. intros id. apply apply_batch_lookup.
Qed.

(** C20: replay is idempotent: replaying a suffix of the log (in particular all
    of it) over the state it already produced changes nothing, so a reader that
    re-applies segments after a crash or a retry reaches the same documents. *)
Theorem replay_idempotent {IO : IterOrder} {C : WalCodec} docs docs' es es' :
  replay docs (es ++ es') = Ok docs' -> replay docs' es' = Ok docs'.
Proof.
  rewrite replay_app. destruct (replay docs es) as [d|] eqn:Hd; cbn; [|done]. apply replay_self.
Qed.

Definition tier_doc (id tier : string) : Document := mkDocument id {[ "tier" := VString tier ]}.

Definition replay_codec : WalCodec :=
  table_codec [] [ {[ "tier" := VString "free" ]}; {[ "plan" := VString "x" ]} ] [].

Lemma replay_idempotent_witness :
  let e1 := mkWalEntry [mkWalUpsert "a" [65]; mkWalUpsert "b" [65]] [] [] in
  let e2 := mkWalEntry [] [mkWalPatch "a" [66]] ["b"] in
  let docs' := {[ "a" := mkDocument "a" {[ "tier" := VString "free"; "plan" := VString "x" ]} ]} in
  @replay canonical_order replay_codec docs' [e2] = Ok docs'.
Proof.
  intros e1 e2 docs'.
  apply (@replay_idempotent canonical_order replay_codec ∅ docs' [e1] [e2]).
  vm_compute. reflexivity.
Defined.

(** what a client wrote is what a replay applies: a batch turned into an
    entry, encoded, read back and applied has on every id the effect of the
    documents that were submitted. *)
Theorem write_replay_roundtrip {IO : IterOrder} {C : WalCodec} {L : WalCodecLaws}
    ups pats dels entry b docs :
  Forall json_faithful ups -> Forall json_faithful pats ->
  from_write ups pats dels = Ok entry -> encode entry = Ok b ->
  exists entry' docs',
    decode b = Ok entry' /\ apply_entry docs entry' = (docs', Ok tt) /\
    forall id, docs' !! id = run_op (batch_op id dels ups pats) (docs !! id).
Proof.
  intros Hu Hp Hw He. exists entry, (apply_patches pats (apply_upserts ups (apply_deletes dels docs))).
  destruct (from_write_documents _ _ _ _ Hu Hp Hw) as (H1 & H2 & <-). split; [|split].
  - by apply decode_encode_ok.
  - by apply apply_entry_ok; eauto.
  - intros id. apply apply_batch_lookup.
Qed.

Definition roundtrip_entry : WalEntry := mkWalEntry [mkWalUpsert "a" [65]] [] ["b"].
Definition roundtrip_codec : WalCodec :=
  table_codec [roundtrip_entry] [ {[ "tier" := VString "free" ]} ] [].

Lemma write_replay_roundtrip_witness :
  exists entry' docs',
    @decode roundtrip_codec [1; 65; 72; 0; 0; 0] = Ok entry' /\
    @apply_entry canonical_order roundtrip_codec ∅ entry' = (docs', Ok tt) /\
    forall id, docs' !! id = run_op (batch_op id ["b"] [tier_doc "a" "free"] []) ((∅ : Docs) !! id).
Proof.
  apply (@write_replay_roundtrip canonical_order roundtrip_codec (table_codec_laws _ _ _)
    [tier_doc "a" "free"] [] ["b"] roundtrip_entry).
  - repeat constructor. intros b. vm_compute. by intros [=<-].
  - constructor.
  - vm_compute. reflexivity.
  - vm_compute. reflexivity.
Defined.

(** a snapshot taken of a document map and loaded back gives the same map
    and sequence number, in whatever order the map listed its documents. *)
Theorem snapshot_roundtrip {IO : IterOrder} {C : WalCodec} seq docs b :
  docs_keyed docs ->
  (forall b', snapshot_to_vec (from_docs seq docs) = Some b' ->
     snapshot_from_slice b' = Some (from_docs seq docs)) ->
  encode_snapshot (from_docs seq docs) = Ok b ->
  exists s, decode_snapshot b = Ok s /\ snap_seq s = seq /\ into_docs s = docs.
Proof.
  intros Hk Hf. unfold encode_snapshot, decode_snapshot.
  destruct (snapshot_to_vec _) as [b'|] eqn:Hb; [|done]. intros [=<-].
  exists (from_docs seq docs). rewrite (Hf _ eq_refl). split; [done|]. split; [done|].
  by apply into_docs_from_docs.
Qed.

Lemma snapshot_roundtrip_witness :
  let snap := mkWalSnapshot 12 [tier_doc "a" "pro"] in
  exists s, @decode_snapshot (table_codec [] [] [snap]) [65] = Ok s /\ snap_seq s = 12 /\
    into_docs s = {[ "a" := tier_doc "a" "pro" ]}.
Proof.
  apply (@snapshot_roundtrip canonical_order (table_codec [] [] [mkWalSnapshot 12 [tier_doc "a" "pro"]])
           12 {[ "a" := tier_doc "a" "pro" ]}).
  - apply map_Forall_singleton. reflexivity.
  - intros b'. vm_compute. by intros [=<-].
  - vm_compute. reflexivity.
Defined.

(** the delta collected for the index (upserts and deletes of a run of
    entries) reproduces the replayed state, deletes first, provided every
    document it upserts still exists at the end of the run. *)
Theorem index_delta_faithful {IO : IterOrder} {C : WalCodec} base entries final ups dels :
  docs_keyed base ->
  collect_index_delta base entries = Ok (final, (ups, dels)) ->
  (forall id, id ∈ ups.*1 -> is_Some (final !! id)) ->
  replay base entries = Ok final /\
  apply_upserts ups.*2 (apply_deletes dels base) = final.
Proof. intros Hk Hc Hex. by apply (collect_delta_exact base entries final ups dels Hk Hc Hex). Qed.

Lemma index_delta_faithful_witness :
  let e1 := mkWalEntry [mkWalUpsert "a" [65]] [] [] in
  let e2 := mkWalEntry [] [mkWalPatch "a" [66]] ["old"] in
  let base := {[ "old" := tier_doc "old" "free" ]} in
  let final := {[ "a" := mkDocument "a" {[ "tier" := VString "free"; "plan" := VString "x" ]} ]} in
  @replay canonical_order replay_codec base [e1; e2] = Ok final /\
  apply_upserts [mkDocument "a" {[ "tier" := VString "free"; "plan" := VString "x" ]}]
    (apply_deletes ["old"] base) = final.
Proof.
  intros e1 e2 base final.
  apply (@index_delta_faithful canonical_order replay_codec base [e1; e2] final
    [("a", mkDocument "a" {[ "tier" := VString "free"; "plan" := VString "x" ]})] ["old"]).
  - apply map_Forall_singleton. reflexivity.
  - vm_compute. reflexivity.
  - intros id. cbn. rewrite list_elem_of_singleton. intros ->. vm_compute. by eexists.
Defined.

(** without that proviso the delta is wrong: a document upserted by one
    entry and deleted by a later entry of the same run is absent from the
    replayed state, but the delta still upserts it after its delete, so the
    index gets a document that no longer exists. *)
Theorem index_delta_resurrects :
  let e1 := mkWalEntry [mkWalUpsert "a" [65]] [] [] in
  let e2 := mkWalEntry [] [] ["a"] in
  exists ups dels,
    @collect_index_delta canonical_order replay_codec ∅ [e1; e2] = Ok (∅, (ups, dels)) /\
    apply_upserts ups.*2 (apply_deletes dels ∅) = {[ "a" := tier_doc "a" "free" ]}.
Proof. exists [("a", tier_doc "a" "free")], ["a"]. vm_compute. done. Qed.
