(* ===== verification/ObjectStore.v ===== *)
(** * The object store and the effects of the code on it

    The S3 client is not part of the repository: its operations are a class
    over an abstract world, and [StoreLaws] states the documented behaviour the
    code relies on (strong read-after-write consistency, conditional writes).
    A request may fail at any point; a failed write may or may not have taken
    effect, except for a refused precondition.  Code that talks to the store is
    written in the state-and-error monad [St]. *)

From Stdlib Require Import ZArith Lia Bool.
From stdpp Require Import base gmap strings list.
From S2P Require Import Prelude Wal.

(** What the code inspects of a service error. *)
Record S3Error : Type := mkS3Error {
  se_no_such_key : bool;
  se_code : option string;
  se_msg : string
}.

Definition has_code (e : S3Error) (c : string) : bool :=
  match se_code e with Some c' => String.eqb c' c | None => false end.

Inductive PutCond : Type :=
| PutAlways
| PutIfMatch (etag : string)
| PutIfNoneMatch.

(** A response to GET carries an etag and a body stream that can fail. *)
Inductive GetOutcome : Type :=
| GetOk (etag : option string) (body : option bytes)
| GetErr (e : S3Error).

Class ObjectStore : Type := {
  World : Type;
  objects : World -> gmap string (bytes * string);
  s3_get : World -> string -> World * GetOutcome;
  s3_put : World -> string -> bytes -> PutCond -> World * result S3Error (option string);
  s3_delete : World -> string -> World * result S3Error unit
}.

Definition put_cond_holds (cur : option (bytes * string)) (c : PutCond) : Prop :=
  match c with
  | PutAlways => True
  | PutIfMatch t => exists b, cur = Some (b, t)
  | PutIfNoneMatch => cur = None
  end.

Definition absent_error (e : S3Error) : bool :=
  se_no_such_key e || has_code e "NoSuchKey" || has_code e "NotFound".

Class StoreLaws {S : ObjectStore} : Prop := {
  get_objects : forall w k, objects (s3_get w k).1 = objects w;
  get_ok : forall w k etag b, (s3_get w k).2 = GetOk etag (Some b) ->
    exists t, etag = Some t /\ objects w !! k = Some (b, t);
  get_absent : forall w k e, (s3_get w k).2 = GetErr e -> absent_error e = true ->
    objects w !! k = None;
  put_ok : forall w k b c et, (s3_put w k b c).2 = Ok et ->
    put_cond_holds (objects w !! k) c /\
    exists t, et = Some t /\ objects (s3_put w k b c).1 = <[k := (b, t)]> (objects w);
  put_err : forall w k b c e, (s3_put w k b c).2 = Err e ->
    objects (s3_put w k b c).1 = objects w \/
    (put_cond_holds (objects w !! k) c /\
     exists t, objects (s3_put w k b c).1 = <[k := (b, t)]> (objects w));
  put_refused : forall w k b c e, (s3_put w k b c).2 = Err e ->
    has_code e "PreconditionFailed" = true -> objects (s3_put w k b c).1 = objects w;
  delete_ok : forall w k, (s3_delete w k).2 = Ok tt ->
    objects (s3_delete w k).1 = delete k (objects w);
  delete_err : forall w k e, (s3_delete w k).2 = Err e ->
    objects (s3_delete w k).1 = objects w \/ objects (s3_delete w k).1 = delete k (objects w)
}.

(** No request fails: every object can be read, every write whose condition
    holds succeeds. *)
Class StoreReliable {S : ObjectStore} : Prop := {
  reliable_get : forall w k,
    (s3_get w k).2 =
      match objects w !! k with
      | Some (b, t) => GetOk (Some t) (Some b)
      | None => GetErr (mkS3Error true (Some "NoSuchKey") "NoSuchKey")
      end;
  reliable_put : forall w k b c, put_cond_holds (objects w !! k) c ->
    is_ok (s3_put w k b c).2 = true;
  reliable_delete : forall w k, (s3_delete w k).2 = Ok tt
}.

(** ** The effect monad *)

Definition St {S : ObjectStore} (E A : Type) : Type := World -> World * result E A.

Section Monad.
Context {S : ObjectStore} {E : Type}.

Definition st_ret {A} (a : A) : St E A := fun w => (w, Ok a).
Definition st_err {A} (e : E) : St E A := fun w => (w, Err e).
Definition st_bind {A B} (m : St E A) (k : A -> St E B) : St E B := fun w =>
  match m w with
  | (w', Ok a) => k a w'
  | (w', Err e) => (w', Err e)
  end.
(** A request whose outcome is a value, not an error of the function. *)
Definition st_lift {A} (f : World -> World * A) : St E A := fun w =>
  let '(w', a) := f w in (w', Ok a).
Definition st_result {A} (r : result E A) : St E A := fun w => (w, r).
(** Runs [m] and hands its result, error or not, to the continuation. *)
Definition st_try {A} (m : St E A) : St E (result E A) := fun w =>
  let '(w', r) := m w in (w', Ok r).
End Monad.

Notation "'do?' x <- m ; k" := (st_bind m (fun x => k))
  (at level 20, x pattern, m at level 100, k at level 200) : puffer_scope.
(** ** A concrete store

    A map of objects with a version counter for etags and a script of faults:
    the next request takes the head of the script.  It satisfies the laws, and
    with no faults it is reliable. *)

Inductive Fault : Type :=
| NoFault
| FailGet (e : S3Error)
| FailBody
| FailLost (e : S3Error)      (** the request did not reach the store *)
| FailApplied (e : S3Error).  (** it took effect, the response was lost *)

Record MemWorld : Type := mkMem {
  mem_objects : gmap string (bytes * string);
  mem_version : Z;
  mem_faults : list Fault
}.

Definition next_fault (w : MemWorld) : Fault :=
  match mem_faults w with f :: _ => f | [] => NoFault end.
Definition mem_tick (objs : gmap string (bytes * string)) (w : MemWorld) : MemWorld :=
  mkMem objs (mem_version w + 1) (tail (mem_faults w)).

Definition no_such_key : S3Error := mkS3Error true (Some "NoSuchKey") "NoSuchKey".
Definition precondition_failed : S3Error :=
  mkS3Error false (Some "PreconditionFailed") "PreconditionFailed".

(** A fault that claims an absent object or a refused precondition would
    contradict the store's documentation; such scripts are read as timeouts. *)
Definition honest (e : S3Error) : S3Error :=
  if absent_error e || has_code e "PreconditionFailed"
  then mkS3Error false (Some "Timeout") "timeout" else e.

Definition mem_get (w : MemWorld) (k : string) : MemWorld * GetOutcome :=
  (mem_tick (mem_objects w) w,
   match next_fault w with
   | FailGet e | FailLost e | FailApplied e => GetErr (honest e)
   | FailBody => GetOk (snd <$> mem_objects w !! k) None
   | NoFault =>
       match mem_objects w !! k with
       | Some (b, t) => GetOk (Some t) (Some b)
       | None => GetErr no_such_key
       end
   end).

Definition mem_cond (cur : option (bytes * string)) (c : PutCond) : bool :=
  match c, cur with
  | PutAlways, _ => true
  | PutIfMatch t, Some (_, t') => String.eqb t t'
  | PutIfMatch _, None => false
  | PutIfNoneMatch, None => true
  | PutIfNoneMatch, Some _ => false
  end.

Definition mem_put (w : MemWorld) (k : string) (b : bytes) (c : PutCond)
  : MemWorld * result S3Error (option string) :=
  let etag := dec (mem_version w) in
  let written := <[k := (b, etag)]> (mem_objects w) in
  if mem_cond (mem_objects w !! k) c then
    match next_fault w with
    | FailLost e | FailGet e => (mem_tick (mem_objects w) w, Err (honest e))
    | FailApplied e => (mem_tick written w, Err (honest e))
    | _ => (mem_tick written w, Ok (Some etag))
    end
  else (mem_tick (mem_objects w) w, Err precondition_failed).

Definition mem_delete (w : MemWorld) (k : string) : MemWorld * result S3Error unit :=
  match next_fault w with
  | FailLost e | FailGet e => (mem_tick (mem_objects w) w, Err (honest e))
  | FailApplied e => (mem_tick (delete k (mem_objects w)) w, Err (honest e))
  | _ => (mem_tick (delete k (mem_objects w)) w, Ok tt)
  end.

Definition mem_store : ObjectStore := {|
  World := MemWorld;
  objects := mem_objects;
  s3_get := mem_get;
  s3_put := mem_put;
  s3_delete := mem_delete
|}.

Lemma honest_absent e : absent_error (honest e) = false.
Proof. unfold honest. destruct (absent_error e) eqn:Ha; [done|]. cbn. by destruct (has_code e _). Qed.

Lemma honest_refused e : has_code (honest e) "PreconditionFailed" = false.
Proof. unfold honest. destruct (has_code e "PreconditionFailed") eqn:Ha; by destruct (absent_error e). Qed.

Lemma mem_cond_holds cur c : mem_cond cur c = true <-> put_cond_holds cur c.
Proof.
  destruct c as [|t|], cur as [[b t']|]; cbn; try done.
  - rewrite String.eqb_eq. split; [intros ->; by exists b|]. by intros [? [=]].
  - split; [done|]. by intros [? ?].
Qed.

#[export] Instance mem_store_laws : @StoreLaws mem_store.
Proof.
  split; cbn [objects s3_get s3_put s3_delete mem_store].
  - done.
  - intros w k etag b. unfold mem_get. cbn [snd].
    destruct (next_fault w); [|done..]. destruct (mem_objects w !! k) as [[b' t]|]; [|done].
    intros [=<- <-]. by exists t.
  - intros w k e. unfold mem_get. cbn [snd].
    destruct (next_fault w); try done; try (intros [=<-]; by rewrite honest_absent).
    destruct (mem_objects w !! k) as [[b' t]|]; done.
  - intros w k b c et. unfold mem_put. destruct (mem_cond _ c) eqn:Hc; [|done].
    apply mem_cond_holds in Hc. destruct (next_fault w); cbn; try done; intros [=<-]; eauto.
  - intros w k b c e. unfold mem_put. destruct (mem_cond _ c) eqn:Hc; [|by left].
    apply mem_cond_holds in Hc. destruct (next_fault w); cbn; eauto.
  - intros w k b c e. unfold mem_put. destruct (mem_cond _ c) eqn:Hc; [|done].
    destruct (next_fault w); cbn; try done; intros [=<-]; by rewrite honest_refused.
  - intros w k. unfold mem_delete. destruct (next_fault w); done.
  - intros w k e. unfold mem_delete. destruct (next_fault w); cbn; eauto.
Qed.

(** The same store without faults. *)
Definition calm (w : MemWorld) : MemWorld := mkMem (mem_objects w) (mem_version w) [].

Definition calm_store : ObjectStore := {|
  World := MemWorld;
  objects := mem_objects;
  s3_get := fun w k => mem_get (calm w) k;
  s3_put := fun w k b c => mem_put (calm w) k b c;
  s3_delete := fun w k => mem_delete (calm w) k
|}.

#[export] Instance calm_store_laws : @StoreLaws calm_store.
Proof.
  destruct mem_store_laws as [L1 L2 L3 L4 L5 L6 L7 L8].
  split; cbn [objects s3_get s3_put s3_delete calm_store] in *; intros w *.
  - apply (L1 (calm w)).
  - apply (L2 (calm w)).
  - apply (L3 (calm w)).
  - apply (L4 (calm w)).
  - apply (L5 (calm w)).
  - apply (L6 (calm w)).
  - apply (L7 (calm w)).
  - apply (L8 (calm w)).
Qed.

#[export] Instance calm_store_reliable : @StoreReliable calm_store.
Proof.
  split; cbn [objects s3_get s3_put s3_delete calm_store].
  - done.
  - intros w k b c Hc. apply mem_cond_holds in Hc. unfold mem_put. cbn [mem_objects calm]. by rewrite Hc.
  - done.
Qed.

(** ** Reasoning about effects *)

Definition st_post {S : ObjectStore} {E A} (m : St E A) (w : World)
    (Q : World -> result E A -> Prop) : Prop := Q (m w).1 (m w).2.

Section StoreLogic.
Context {S : ObjectStore} {E : Type}.

Lemma st_post_bind {A B} (m : St E A) (k : A -> St E B) w Q :
  st_post m w (fun w' r =>
    match r with Ok a => st_post (k a) w' Q | Err e => Q w' (Err e) end) ->
  st_post (st_bind m k) w Q.
Proof. unfold st_post, st_bind. by destruct (m w) as [w' [a|e]]. Qed.

Lemma st_post_mono {A} (m : St E A) w (P Q : World -> result E A -> Prop) :
  st_post m w P -> (forall w' r, P w' r -> Q w' r) -> st_post m w Q.
Proof. unfold st_post. auto. Qed.

Lemma st_post_ret {A} (a : A) w (Q : World -> result E A -> Prop) :
  Q w (Ok a) -> st_post (st_ret a) w Q.
Proof. done. Qed.

Lemma st_post_err {A} (e : E) w (Q : World -> result E A -> Prop) :
  Q w (Err e) -> st_post (st_err e) w Q.
Proof. done. Qed.

Lemma st_post_result {A} (r : result E A) w (Q : World -> result E A -> Prop) :
  Q w r -> st_post (st_result r) w Q.
Proof. done. Qed.

Lemma st_post_lift {A} (f : World -> World * A) w (Q : World -> result E A -> Prop) :
  Q (f w).1 (Ok (f w).2) -> st_post (st_lift f) w Q.
Proof. unfold st_post, st_lift. by destruct (f w). Qed.

(** Reads leave the objects alone; what they return is described by [P]. *)
Definition reads {A} (m : St E A) (P : gmap string (bytes * string) -> A -> Prop) : Prop :=
  forall w, st_post m w (fun w' r =>
    objects w' = objects w /\ match r with Ok a => P (objects w) a | Err _ => True end).

Lemma reads_bind {A B} (m : St E A) (k : A -> St E B) P Q :
  reads m P ->
  (forall objs a, P objs a -> forall w, objects w = objs ->
     st_post (k a) w (fun w' r => objects w' = objects w /\
       match r with Ok b => Q objs b | Err _ => True end)) ->
  reads (st_bind m k) Q.
Proof.
  intros Hm Hk w. apply st_post_bind. eapply st_post_mono; [apply Hm|].
  intros w' [a|e] [Ho HP]; [|done].
  eapply st_post_mono; [exact (Hk _ _ HP w' Ho)|].
  intros w'' r [Ho' HQ]. split; [by rewrite Ho'|done].
Qed.

Lemma reads_weaken {A} (m : St E A) (P Q : gmap string (bytes * string) -> A -> Prop) :
  reads m P -> (forall objs a, P objs a -> Q objs a) -> reads m Q.
Proof.
  intros Hm HPQ w. eapply st_post_mono; [apply Hm|]. intros w' [a|e] [Ho HP]; eauto.
Qed.

Lemma reads_ret {A} (a : A) (P : gmap string (bytes * string) -> A -> Prop) :
  (forall objs, P objs a) -> reads (st_ret a) P.
Proof. intros HP w. split; [done|apply HP]. Qed.

Lemma reads_err {A} (e : E) (P : gmap string (bytes * string) -> A -> Prop) : reads (st_err e) P.
Proof. intros w. split; done. Qed.

Lemma reads_result {A} (r : result E A) (P : gmap string (bytes * string) -> A -> Prop) :
  (forall objs a, r = Ok a -> P objs a) -> reads (st_result r) P.
Proof. intros HP w. split; [done|]. unfold st_result. cbn. destruct r; eauto. Qed.

(** [m] succeeds in [w] with [a] and changes no object. *)
Definition yields {A} (m : St E A) (w : World) (a : A) : Prop :=
  st_post m w (fun w' r => objects w' = objects w /\ r = Ok a).

Lemma yields_bind {A B} (m : St E A) (k : A -> St E B) w a b :
  yields m w a -> (forall w', objects w' = objects w -> yields (k a) w' b) ->
  yields (st_bind m k) w b.
Proof.
  intros [Ho Hm] Hk. unfold yields, st_post, st_bind in *.
  destruct (m w) as [w' r]. cbn in Ho, Hm. subst r.
  destruct (Hk w' Ho) as [Ho' Hr]. by rewrite Ho', Hr.
Qed.

Lemma yields_ret {A} (a : A) w : yields (st_ret a) w a.
Proof. by split. Qed.

Lemma yields_result {A} (a : A) w : yields (st_result (Ok a)) w a.
Proof. by split. Qed.

End StoreLogic.
