(* ===== verification/Namespace.v ===== *)
(** * WAL append and replay on the object store ([namespace.rs])

    The commit protocol of a namespace: a batch is durable when its WAL object
    exists and [meta.json] has been advanced to its sequence number by a
    conditional write; readers load the snapshot and replay the segments after
    it. *)

From Stdlib Require Import ZArith Lia Bool.
From stdpp Require Import base gmap strings list.
From S2P Require Import Prelude F64 Json Models Schema Meta Keys Wal ObjectStore.

(** [serde_json] on [NamespaceMeta]. *)
Class MetaCodec : Type := {
  meta_to_vec : NamespaceMeta -> option bytes;
  meta_from_slice : bytes -> option NamespaceMeta
}.

Inductive NsError : Type :=
| GetObject (key : string) (e : S3Error)
| ReadBody (key : string)
| ParseJson (key : string)
| BucketNotFound
| ObjectNotFound (key : string)
| PutWal (seq : Z) (e : S3Error)
| PutMeta (e : S3Error)
| PutSnapshot (e : S3Error)
| CasExhausted
| EncodeMeta
| NsWal (e : WalError)
| NsMeta (e : MetaError).

Definition GET_RETRIES : nat := 4.
Definition PUT_RETRIES : nat := 4.

Definition wal_result {A} (r : result WalError A) : result NsError A :=
  match r with Ok a => Ok a | Err e => Err (NsWal e) end.
Definition meta_result {A} (r : result MetaError A) : result NsError A :=
  match r with Ok a => Ok a | Err e => Err (NsMeta e) end.

Definition wal_replay_from (snapshot_seq commit_seq : Z) : option Z :=
  if commit_seq =? 0 then None
  else
    let from := sat_add64 snapshot_seq 1 in
    if commit_seq <? from then None else Some (Z.max from 1).

Section Namespace.
Context {IO : IterOrder} {WC : WalCodec} {MC : MetaCodec} {S : ObjectStore}.

(** [WalCorruptPolicy::current()], fixed when the process starts. *)
Context (policy : WalCorruptPolicy).

(** ** Reads *)

Definition get_object_bytes_optional (key : string) : St NsError (option (bytes * option string)) :=
  do? out <- st_lift (fun w => s3_get w key);
  match out with
  | GetOk etag (Some b) => st_ret (Some (b, etag))
  | GetOk _ None => st_err (ReadBody key)
  | GetErr e => if se_no_such_key e then st_ret None else st_err (GetObject key e)
  end.

Definition get_object_bytes (key : string) : St NsError bytes :=
  do? o <- get_object_bytes_optional key;
  st_result (ok_or (fst <$> o) (ObjectNotFound key)).

Definition get_meta_json (key : string) : St NsError (option (NamespaceMeta * option string)) :=
  do? out <- st_lift (fun w => s3_get w key);
  match out with
  | GetOk etag (Some b) =>
      match meta_from_slice b with
      | Some m => st_ret (Some (m, etag))
      | None => st_err (ParseJson key)
      end
  | GetOk _ None => st_err (ReadBody key)
  | GetErr e =>
      if absent_error e then st_ret None
      else if has_code e "NoSuchBucket" then st_err BucketNotFound
      else if str_ends_with "/meta.json" key
              && (str_contains "unhandled error" (se_msg e) || str_contains "NotFound" (se_msg e))
      then st_ret None
      else st_err (GetObject key e)
  end.

(** [for attempt in 0..n]: the first success, or the last error. *)
Fixpoint retry {A} (n : nat) (m : St NsError A) (last_err : NsError) : St NsError A :=
  match n with
  | O => st_err last_err
  | Datatypes.S n' =>
      do? r <- st_try m;
      match r with
      | Ok a => st_ret a
      | Err e => retry n' m e
      end
  end.

Definition get_meta_with_retry (key : string) : St NsError (option (NamespaceMeta * option string)) :=
  retry GET_RETRIES (get_meta_json key) CasExhausted.

Definition fetch_meta (namespace : string) : St NsError (option (NamespaceMeta * option string)) :=
  get_meta_with_retry (meta_key namespace).

Definition read_wal_segment (namespace : string) (seq : Z) : St NsError bytes :=
  get_object_bytes (wal_key namespace seq).

Definition read_wal_entry (namespace : string) (seq : Z) : St NsError WalEntry :=
  do? b <- read_wal_segment namespace seq;
  st_result (wal_result (decode_segment b (Some seq))).

Fixpoint read_entries (namespace : string) (seqs : list Z) : St NsError (list WalEntry) :=
  match seqs with
  | [] => st_ret []
  | seq :: rest =>
      do? e <- read_wal_entry namespace seq;
      do? es <- read_entries namespace rest;
      st_ret (e :: es)
  end.

Definition replay_wal_entries (namespace : string) (from_seq to_seq : Z) : St NsError (list WalEntry) :=
  if (from_seq =? 0) || (to_seq =? 0) || (to_seq <? from_seq) then st_ret []
  else read_entries namespace (range_incl from_seq to_seq).

Definition read_wal_snapshot (namespace : string) : St NsError (option WalSnapshot) :=
  do? o <- get_object_bytes_optional (wal_snapshot_key namespace);
  match o with
  | None => st_ret None
  | Some (b, _) =>
      do? s <- st_result (wal_result (decode_snapshot b));
      st_ret (Some s)
  end.

(** The loop of [replay_wal_range]. *)
Fixpoint replay_seqs (namespace : string) (docs : Docs) (seqs : list Z) : St NsError Docs :=
  match seqs with
  | [] => st_ret docs
  | seq :: rest =>
      do? b <- read_wal_segment namespace seq;
      do? o <- st_result (wal_result (decode_segment_with_policy b seq policy));
      match o with
      | Some entry =>
          let '(docs', r) := apply_entry docs entry in
          do? _ <- st_result (wal_result r);
          replay_seqs namespace docs' rest
      | None => replay_seqs namespace docs rest
      end
  end.

Definition replay_wal_range (namespace : string) (docs : Docs) (from_seq to_seq : Z)
  : St NsError Docs :=
  if (from_seq =? 0) || (to_seq =? 0) || (to_seq <? from_seq) then st_ret docs
  else replay_seqs namespace docs (range_incl from_seq to_seq).

Definition load_docs_at_wal_commit (namespace : string) (meta : NamespaceMeta)
  : St NsError (Docs * Z) :=
  do? base <-
    (if 0 <? wal_snapshot_seq meta then
       do? o <- read_wal_snapshot namespace;
       match o with
       | Some snap =>
           if snap_seq snap =? wal_snapshot_seq meta
           then st_ret (into_docs snap, snap_seq snap)
           else st_ret (∅, 0)
       | None => st_ret (∅, 0)
       end
     else st_ret (∅, 0));
  let '(docs, last_applied) := base in
  match wal_replay_from last_applied (wal_commit_seq meta) with
  | Some from =>
      do? docs <- replay_wal_range namespace docs from (wal_commit_seq meta);
      st_ret (docs, wal_commit_seq meta)
  | None => st_ret (docs, last_applied)
  end.

Definition docs_at_index_cursor (namespace : string) (cursor : Z) : St NsError Docs :=
  if cursor =? 0 then st_ret ∅
  else
    do? o <- read_wal_snapshot namespace;
    let '(docs, replay_from) :=
      match o with
      | Some snap =>
          if snap_seq snap <=? cursor then (into_docs snap, sat_add64 (snap_seq snap) 1)
          else (∅, 1)
      | None => (∅, 1)
      end in
    if replay_from <=? cursor then replay_wal_range namespace docs replay_from cursor
    else st_ret docs.

(** ** Writes *)

Definition put_wal (namespace : string) (seq : Z) (body : bytes) : St NsError unit := fun w =>
  let '(w', r) := s3_put w (wal_key namespace seq) body PutAlways in
  (w', match r with Ok _ => Ok tt | Err e => Err (PutWal seq e) end).

Definition put_wal_with_retry (namespace : string) (seq : Z) (wal_body : bytes) : St NsError unit :=
  retry PUT_RETRIES (put_wal namespace seq wal_body) CasExhausted.

Definition cas_cond (etag : option string) : PutCond :=
  match etag with Some t => PutIfMatch t | None => PutIfNoneMatch end.

(** The three stages of one attempt of [append_wal], each a request (or a run
    of retried requests) to the store: read the metadata, write the segment,
    advance the metadata. *)
Definition append_read (namespace : string) : St NsError (NamespaceMeta * option string) :=
  do? cur <- get_meta_with_retry (meta_key namespace);
  st_ret (match cur with Some (m, e) => (m, e) | None => (default_meta, None) end).

Definition append_put (namespace : string) (entry : WalEntry) (seq : Z) : St NsError unit :=
  do? wal_body <- st_result (wal_result (encode entry));
  put_wal_with_retry namespace seq wal_body.

(** [Some seq] on success, [None] to retry. *)
Definition append_cas (namespace : string) (schema_patch : option Value)
    (metric : option DistanceMetric) (last_attempt : bool) (meta : NamespaceMeta)
    (meta_etag : option string) (seq : Z) : St NsError (option Z) :=
  do? next_meta <- st_result (meta_result
    (meta_after_wal_commit_options meta seq schema_patch metric));
  do? body <- st_result (ok_or (meta_to_vec next_meta) EncodeMeta);
  do? r <- st_lift (fun w => s3_put w (meta_key namespace) body (cas_cond meta_etag));
  match r with
  | Ok _ => st_ret (Some seq)
  | Err e =>
      if has_code e "PreconditionFailed" && negb last_attempt then
        do? _ <- st_lift (fun w => s3_delete w (wal_key namespace seq));
        st_ret None
      else st_err (PutMeta e)
  end.

Definition append_attempt (namespace : string) (entry : WalEntry) (schema_patch : option Value)
    (metric : option DistanceMetric) (last_attempt : bool) : St NsError (option Z) :=
  do? cur <- append_read namespace;
  let '(meta, meta_etag) := cur in
  let seq := next_wal_seq meta in
  do? _ <- append_put namespace entry seq;
  append_cas namespace schema_patch metric last_attempt meta meta_etag seq.

Fixpoint append_loop (attempts : nat) (namespace : string) (entry : WalEntry)
    (schema_patch : option Value) (metric : option DistanceMetric) : St NsError Z :=
  match attempts with
  | O => st_err CasExhausted
  | Datatypes.S n =>
      do? r <- append_attempt namespace entry schema_patch metric (Nat.eqb n 0);
      match r with
      | Some seq => st_ret seq
      | None => append_loop n namespace entry schema_patch metric
      end
  end.

Definition append_wal (namespace : string) (entry : WalEntry) (schema_patch : option Value)
    (metric : option DistanceMetric) : St NsError Z :=
  append_loop META_RETRIES namespace entry schema_patch metric.
End Namespace.

(** ** Reads: lemmas *)

Class MetaCodecLaws {C : MetaCodec} : Prop := {
  meta_roundtrip : forall m b, value_no_float (schema m) = true ->
    meta_to_vec m = Some b -> meta_from_slice b = Some m
}.

(** A failed GET that [get_meta_json] takes for an absent object because of its
    message alone. *)
Definition taken_for_absent (key : string) (e : S3Error) : bool :=
  negb (absent_error e) && negb (has_code e "NoSuchBucket") && str_ends_with "/meta.json" key
  && (str_contains "unhandled error" (se_msg e) || str_contains "NotFound" (se_msg e)).

(** Reading [key] in [w] gives such an answer although the object is there. *)
Definition misread {S : ObjectStore} (w : World) (key : string) : bool :=
  match (s3_get w key).2 with
  | GetErr e => taken_for_absent key e && bool_decide (is_Some (objects w !! key))
  | GetOk _ _ => false
  end.

(** A store that never gives such an answer. *)
Class NoMisreads {S : ObjectStore} : Prop := {
  no_misread : forall w k, misread w k = false
}.

Section NamespaceReads.
Context {IO : IterOrder} {WC : WalCodec} {MC : MetaCodec} {S : ObjectStore} {SL : StoreLaws}.

Lemma get_object_bytes_optional_reads key :
  reads (get_object_bytes_optional key) (fun objs o =>
    match o with
    | Some (b, et) => exists t, et = Some t /\ objs !! key = Some (b, t)
    | None => objs !! key = None
    end).
Proof.
  intros w. apply st_post_bind, st_post_lift. cbn beta.
  destruct ((s3_get w key).2) as [et [b|]|e] eqn:Hg.
  - split; [apply get_objects|]. by apply get_ok in Hg.
  - split; [apply get_objects|done].
  - destruct (se_no_such_key e) eqn:He; (split; [apply get_objects|]); cbn; [|done].
    eapply get_absent; [done|]. unfold absent_error. by rewrite He.
Qed.

Lemma get_object_bytes_reads key :
  reads (get_object_bytes key) (fun objs b => exists t, objs !! key = Some (b, t)).
Proof.
  eapply reads_bind; [apply get_object_bytes_optional_reads|].
  intros objs o Ho w Hw. split; [done|]. destruct o as [[b et]|]; cbn; [|done].
  destruct Ho as (t & _ & ->). by exists t.
Qed.

Lemma retry_reads {A} n (m : St NsError A) e P : reads m P -> reads (retry n m e) P.
Proof.
  intros Hm. revert e. induction n as [|n IH]; intros e; cbn; [apply reads_err|].
  intros w. apply st_post_bind. unfold st_try, st_post at 1. specialize (Hm w). unfold st_post in Hm.
  destruct (m w) as [w' [a|e']] eqn:Hmw; cbn in *.
  - done.
  - destruct Hm as [Ho _]. eapply st_post_mono; [apply (IH e' w')|]. by rewrite Ho.
Qed.

Lemma get_meta_reads {HM : NoMisreads} ns :
  reads (fetch_meta ns) (fun objs o =>
    match o with
    | Some (m, et) => exists b t, et = Some t /\ objs !! meta_key ns = Some (b, t) /\
        meta_from_slice b = Some m
    | None => objs !! meta_key ns = None
    end).
Proof.
  apply retry_reads. intros w. apply st_post_bind, st_post_lift. cbn beta.
  destruct ((s3_get w (meta_key ns)).2) as [et [b|]|e] eqn:Hg.
  - destruct (meta_from_slice b) as [m|] eqn:Hm; (split; [apply get_objects|]); cbn; [|done].
    apply get_ok in Hg as (t & -> & Ho). by exists b, t.
  - split; [apply get_objects|done].
  - destruct (absent_error e) eqn:Ha; [split; [apply get_objects|by eapply get_absent]|].
    destruct (has_code e "NoSuchBucket") eqn:Hc; [split; [apply get_objects|done]|].
    destruct (str_ends_with _ _ && _) eqn:Hq; (split; [apply get_objects|]); cbn; [|done].
    apply andb_true_iff in Hq as [Hk Hq]. pose proof (no_misread w (meta_key ns)) as Hn. unfold misread in Hn. rewrite Hg in Hn.
    unfold taken_for_absent in Hn. rewrite Ha, Hc, Hk, Hq in Hn. cbn in Hn. apply bool_decide_eq_false in Hn.
    by apply eq_None_not_Some.
Qed.

Lemma read_wal_segment_reads ns seq :
  reads (read_wal_segment ns seq) (fun objs b => exists t, objs !! wal_key ns seq = Some (b, t)).
Proof. apply get_object_bytes_reads. Qed.

Lemma read_wal_snapshot_reads ns :
  reads (read_wal_snapshot ns) (fun objs o =>
    match o with
    | Some s => exists b t, objs !! wal_snapshot_key ns = Some (b, t) /\ decode_snapshot b = Ok s
    | None => objs !! wal_snapshot_key ns = None
    end).
Proof.
  eapply reads_bind; [apply get_object_bytes_optional_reads|].
  intros objs [[b et]|] Ho w Hw.
  - destruct Ho as (t & -> & Ho). apply st_post_bind, st_post_result.
    destruct (decode_snapshot b) as [s|] eqn:Hd; cbn; [|done]. split; [done|]. by exists b, t.
  - done.
Qed.
End NamespaceReads.
