(* ===== verification/Monitor.v ===== *)
(** * Runs in which the metadata was not misread

    [get_meta_json] takes some errors for an absent [meta.json] because of their
    message ([taken_for_absent]); when the object is there, a commit is lost
    (see [unhandled_error_loses_commit]).  The theorems about runs with failing
    requests therefore exclude exactly the runs in which that happened.  A
    [Monitor] is a ghost flag of the world that is set by such an answer and
    never cleared; every store can be given one ([monitored]).

    The proofs compare a run with the run on the [recognised] store, which gives
    such answers as plain errors: while the flag is not set, both are the same
    run ([agree]), and on the recognised store nothing is misread. *)

From Stdlib Require Import ZArith Lia Bool.
From stdpp Require Import base gmap strings list.
From S2P Require Import Prelude F64 Json Models Schema Meta Keys Wal ObjectStore Namespace.

Class Monitor {S : ObjectStore} : Type := {
  misled : World -> bool;
  misled_get : forall w k, misled w || misread w k = true -> misled (s3_get w k).1 = true;
  misled_put : forall w k b c, misled w = true -> misled (s3_put w k b c).1 = true;
  misled_delete : forall w k, misled w = true -> misled (s3_delete w k).1 = true
}.

(** Any store with the flag beside its world. *)
Definition monitored (S : ObjectStore) : ObjectStore := {|
  World := World * bool;
  objects := fun w => objects w.1;
  s3_get := fun w k => let '(w', r) := s3_get w.1 k in ((w', w.2 || misread w.1 k), r);
  s3_put := fun w k b c => let '(w', r) := s3_put w.1 k b c in ((w', w.2), r);
  s3_delete := fun w k => let '(w', r) := s3_delete w.1 k in ((w', w.2), r)
|}.

#[export] Instance monitored_monitor (S : ObjectStore) : @Monitor (monitored S).
Proof.
  refine {| misled := (snd : @World (monitored S) -> bool) |}.
  - intros [w f] k H. cbn in *. unfold misread in *. cbn in *. destruct (s3_get w k) as [w' r]. exact H.
  - intros [w f] k b c H. cbn in *. by destruct (s3_put w k b c).
  - intros [w f] k H. cbn in *. by destruct (s3_delete w k).
Defined.

Lemma monitored_laws (S : ObjectStore) : StoreLaws -> @StoreLaws (monitored S).
Proof.
  intros [L1 L2 L3 L4 L5 L6 L7 L8]. split; cbn [objects s3_get s3_put s3_delete monitored]; intros [w f] k; cbn [fst snd].
  - specialize (L1 w k). by destruct (s3_get w k).
  - intros etag b. specialize (L2 w k etag b). by destruct (s3_get w k).
  - intros e. specialize (L3 w k e). by destruct (s3_get w k).
  - intros b c et. specialize (L4 w k b c et). by destruct (s3_put w k b c).
  - intros b c e. specialize (L5 w k b c e). by destruct (s3_put w k b c).
  - intros b c e. specialize (L6 w k b c e). by destruct (s3_put w k b c).
  - specialize (L7 w k). by destruct (s3_delete w k).
  - intros e. specialize (L8 w k e). by destruct (s3_delete w k).
Qed.

(** A store without misread answers has a monitor whose flag is never set. *)
Definition calm_monitor {S : ObjectStore} {N : NoMisreads} : Monitor.
Proof.
  refine {| misled := fun _ => false |}; [|done..]. intros w k. by rewrite no_misread.
Defined.

(** ** The recognised store *)

Definition timeout : S3Error := mkS3Error false (Some "Timeout") "timeout".

Definition recognised (S : ObjectStore) : ObjectStore := {|
  World := World;
  objects := objects;
  s3_get := fun w k => ((s3_get w k).1, if misread w k then GetErr timeout else (s3_get w k).2);
  s3_put := s3_put;
  s3_delete := s3_delete
|}.

#[export] Instance recognised_laws (S : ObjectStore) : StoreLaws -> @StoreLaws (recognised S).
Proof.
  intros [L1 L2 L3 L4 L5 L6 L7 L8]. split; cbn [objects s3_get s3_put s3_delete recognised fst snd]; try done.
  - intros w k etag b. by destruct (@misread S w k); [|apply L2].
  - intros w k e. destruct (@misread S w k); [by intros [= <-]|apply L3].
Qed.

#[export] Instance recognised_no_misreads (S : ObjectStore) : @NoMisreads (recognised S).
Proof.
  split. intros w k. unfold misread. cbn [s3_get recognised snd objects]. destruct (@misread S w k) eqn:E; [|exact E].
  unfold taken_for_absent. by rewrite !andb_false_r.
Qed.

(** ** Agreement of runs *)

Section Agreement.
Context {S : ObjectStore} {MO : Monitor}.

(** [m] never clears the flag, and unless it ends with the flag set it is the
    same as [m'] on the recognised store. *)
Definition agree {A} (m : World -> World * A) (m' : @World (recognised S) -> @World (recognised S) * A) : Prop :=
  forall w, (misled w = true -> misled (m w).1 = true) /\ (misled (m w).1 = false -> m w = m' w).

Lemma agree_keep {A} (m : World -> World * A) :
  (forall w, misled w = true -> misled (m w).1 = true) -> agree m m.
Proof. intros H w. split; [apply H|done]. Qed.

Context {E : Type}.

Lemma agree_ret {A} (a : A) : agree (st_ret (E := E) a) (st_ret (S := recognised S) a).
Proof. by apply agree_keep. Qed.

Lemma agree_err {A} (e : E) : agree (st_err (A := A) e) (st_err (S := recognised S) e).
Proof. by apply agree_keep. Qed.

Lemma agree_result {A} (r : result E A) : agree (st_result r) (st_result (S := recognised S) r).
Proof. by apply agree_keep. Qed.

Lemma agree_bind {A B} (m : St E A) (k : A -> St E B) (m' : @St (recognised S) E A) (k' : A -> @St (recognised S) E B) :
  agree m m' -> (forall a, agree (k a) (k' a)) -> agree (st_bind m k) (st_bind (S := recognised S) m' k').
Proof.
  intros Hm Hk w. destruct (Hm w) as [M1 M2]. unfold st_bind. destruct (m w) as [w1 [a|e]]; cbn in M1, M2 |- *.
  - destruct (Hk a w1) as [K1 K2]. split; [auto|]. intros H. destruct (misled w1) eqn:Hw1; [by rewrite K1 in H|].
    rewrite <- (M2 eq_refl). by apply K2.
  - split; [done|]. intros H. by rewrite <- (M2 H).
Qed.

Lemma agree_lift {A} (f : World -> World * A) (f' : @World (recognised S) -> @World (recognised S) * A) :
  agree f f' -> agree (st_lift (E := E) f) (st_lift (S := recognised S) f').
Proof.
  intros Hf w. destruct (Hf w) as [F1 F2]. unfold st_lift. destruct (f w) as [w1 a]; cbn in F1, F2 |- *.
  split; [done|]. intros H. by rewrite <- (F2 H).
Qed.

Lemma agree_try {A} (m : St E A) (m' : @St (recognised S) E A) :
  agree m m' -> agree (st_try m) (st_try (S := recognised S) m').
Proof.
  intros Hf w. destruct (Hf w) as [F1 F2]. unfold st_try. destruct (m w) as [w1 a]; cbn in F1, F2 |- *.
  split; [done|]. intros H. by rewrite <- (F2 H).
Qed.

(** The rules for code that passes the world on explicitly. *)
Lemma agree_pure {A} (a : A) : agree (fun w => (w, a)) (fun w => (w, a)).
Proof. by apply agree_keep. Qed.

Lemma agree_seq {A B} (m : World -> World * A) (k : A -> World -> World * B)
    (m' : @World (recognised S) -> @World (recognised S) * A) (k' : A -> @World (recognised S) -> @World (recognised S) * B) :
  agree m m' -> (forall a, agree (k a) (k' a)) ->
  agree (fun w => let '(w1, a) := m w in k a w1) (fun w => let '(w1, a) := m' w in k' a w1).
Proof.
  intros Hm Hk w. destruct (Hm w) as [M1 M2]. destruct (m w) as [w1 a]; cbn in M1, M2 |- *.
  destruct (Hk a w1) as [K1 K2]. split; [auto|]. intros H. destruct (misled w1) eqn:Hw1; [by rewrite K1 in H|].
  rewrite <- (M2 eq_refl). by apply K2.
Qed.

Lemma agree_get k : agree (fun w => s3_get w k) (fun w => @s3_get (recognised S) w k).
Proof.
  intros w. cbn [s3_get recognised]. split; intros H.
  - apply misled_get. by rewrite H.
  - destruct (misread w k) eqn:E0; [|by destruct (s3_get w k)].
    rewrite misled_get in H; [done|]. rewrite E0. apply orb_true_r.
Qed.

Lemma agree_put k b c : agree (fun w => s3_put w k b c) (fun w => @s3_put (recognised S) w k b c).
Proof. exact (agree_keep (fun w => s3_put w k b c) (fun w => misled_put w k b c)). Qed.

Lemma agree_delete k : agree (fun w => s3_delete w k) (fun w => @s3_delete (recognised S) w k).
Proof. exact (agree_keep (fun w => s3_delete w k) (fun w => misled_delete w k)). Qed.
End Agreement.

(** What holds of the run on the recognised store holds of this run unless the
    flag is set at its end. *)
Lemma agree_run {S : ObjectStore} {MO : Monitor} {A} (m : World -> World * A)
    (m' : @World (recognised S) -> @World (recognised S) * A) w (P : World -> A -> Prop) :
  agree m m' -> (let '(w', r) := m' w in P w' r) -> let '(w', r) := m w in misled w' = false -> P w' r.
Proof.
  intros Hm H. destruct (Hm w) as [_ E]. destruct (m w) as [w' r]. intros Hw'. by rewrite <- (E Hw') in H.
Qed.

Create HintDb agree.
#[export] Hint Resolve agree_ret agree_err agree_result agree_pure agree_get agree_put agree_delete : agree.

(** One rule of [agree]: the sides have the same shape. *)
Ltac agree_step :=
  match goal with
  | |- forall _, _ => intro
  | |- agree (st_bind _ _) _ => apply agree_bind
  | |- agree (st_lift _) _ => apply agree_lift
  | |- agree (st_try _) _ => apply agree_try
  | |- agree (let '(_, _) := ?x in _) _ => destruct x
  | |- agree (match ?x with _ => _ end) _ => destruct x
  | |- agree (fun _ => let '(_, _) := ?x in _) _ => destruct x
  | |- agree (fun _ => match ?x with _ => _ end) _ => destruct x
  | |- _ => solve [eauto 4 with agree]
  end.
Ltac solve_agree := repeat (cbn zeta; agree_step).

Section NamespaceAgree.
Context {IO : IterOrder} {WC : WalCodec} {MC : MetaCodec} {S : ObjectStore} {MO : Monitor}.

Lemma agree_bytes_optional key : agree (get_object_bytes_optional key) (get_object_bytes_optional (S := recognised S) key).
Proof. unfold get_object_bytes_optional. solve_agree. Qed.
#[local] Hint Resolve agree_bytes_optional : agree.

Lemma agree_bytes key : agree (get_object_bytes key) (get_object_bytes (S := recognised S) key).
Proof. unfold get_object_bytes. solve_agree. Qed.
#[local] Hint Resolve agree_bytes : agree.

Lemma agree_retry {A} n (m : St NsError A) m' e : agree m m' -> agree (retry n m e) (retry (S := recognised S) n m' e).
Proof. intros Hm. revert e. induction n as [|n IH]; intros e; cbn [retry]; solve_agree. Qed.

Lemma agree_meta key : agree (get_meta_with_retry key) (get_meta_with_retry (S := recognised S) key).
Proof. apply agree_retry. unfold get_meta_json. solve_agree. Qed.
#[local] Hint Resolve agree_meta : agree.

Lemma agree_fetch_meta ns : agree (fetch_meta ns) (fetch_meta (S := recognised S) ns).
Proof. apply agree_meta. Qed.

Lemma agree_read_entry ns seq : agree (read_wal_entry ns seq) (read_wal_entry (S := recognised S) ns seq).
Proof. unfold read_wal_entry, read_wal_segment. solve_agree. Qed.
#[local] Hint Resolve agree_read_entry : agree.

Lemma agree_read_entries ns seqs : agree (read_entries ns seqs) (read_entries (S := recognised S) ns seqs).
Proof. induction seqs as [|q seqs IH]; cbn [read_entries]; solve_agree. Qed.
#[local] Hint Resolve agree_read_entries : agree.

Lemma agree_replay_entries ns from to : agree (replay_wal_entries ns from to) (replay_wal_entries (S := recognised S) ns from to).
Proof. unfold replay_wal_entries. solve_agree. Qed.

Lemma agree_snapshot ns : agree (read_wal_snapshot ns) (read_wal_snapshot (S := recognised S) ns).
Proof. unfold read_wal_snapshot. solve_agree. Qed.
#[local] Hint Resolve agree_snapshot : agree.

Context (policy : WalCorruptPolicy).

Lemma agree_replay_seqs ns docs seqs :
  agree (replay_seqs policy ns docs seqs) (replay_seqs (S := recognised S) policy ns docs seqs).
Proof. revert docs. induction seqs as [|q seqs IH]; intros docs; cbn [replay_seqs]; unfold read_wal_segment; solve_agree. Qed.
#[local] Hint Resolve agree_replay_seqs : agree.

Lemma agree_replay_range ns docs from to :
  agree (replay_wal_range policy ns docs from to) (replay_wal_range (S := recognised S) policy ns docs from to).
Proof. unfold replay_wal_range. solve_agree. Qed.
#[local] Hint Resolve agree_replay_range : agree.

Lemma agree_load_docs ns meta : agree (load_docs_at_wal_commit policy ns meta) (load_docs_at_wal_commit (S := recognised S) policy ns meta).
Proof. unfold load_docs_at_wal_commit. solve_agree. Qed.

Lemma agree_docs_at_cursor ns cursor :
  agree (docs_at_index_cursor policy ns cursor) (docs_at_index_cursor (S := recognised S) policy ns cursor).
Proof. unfold docs_at_index_cursor. solve_agree. Qed.

Lemma agree_put_wal ns seq b : agree (put_wal ns seq b) (put_wal (S := recognised S) ns seq b).
Proof.
  unfold put_wal. intros w. destruct (agree_put (S := S) (wal_key ns seq) b PutAlways w) as [H1 H2]. cbn in H1, H2 |- *.
  by destruct (s3_put w (wal_key ns seq) b PutAlways).
Qed.
#[local] Hint Resolve agree_put_wal : agree.

Lemma agree_append_read ns : agree (append_read ns) (append_read (S := recognised S) ns).
Proof. unfold append_read. solve_agree. Qed.

Lemma agree_append_put ns entry seq : agree (append_put ns entry seq) (append_put (S := recognised S) ns entry seq).
Proof. unfold append_put. solve_agree. by apply agree_retry, agree_put_wal. Qed.

Lemma agree_append_cas ns patch metric last meta etag seq :
  agree (append_cas ns patch metric last meta etag seq) (append_cas (S := recognised S) ns patch metric last meta etag seq).
Proof. unfold append_cas. solve_agree. Qed.
#[local] Hint Resolve agree_append_read agree_append_put agree_append_cas : agree.

Lemma agree_append_loop n ns entry patch metric :
  agree (append_loop n ns entry patch metric) (append_loop (S := recognised S) n ns entry patch metric).
Proof. induction n as [|n IH]; cbn [append_loop]; unfold append_attempt; solve_agree. Qed.
End NamespaceAgree.

#[export] Hint Resolve agree_bytes_optional agree_bytes agree_retry agree_meta agree_fetch_meta agree_read_entry agree_read_entries
  agree_replay_entries agree_snapshot agree_replay_seqs agree_replay_range agree_load_docs agree_docs_at_cursor
  agree_append_read agree_append_put agree_append_cas agree_append_loop : agree.
