(* ===== verification/Durability.v ===== *)
(** * Durability of the commit protocol

    The abstract state of a namespace is its committed log, a list of entries;
    [ns_state] relates it to the objects in the store.  [append_wal] appends
    exactly one entry or none whatever requests fail, and a load returns the
    replay of the committed log. *)

From Stdlib Require Import ZArith Lia Bool.
From stdpp Require Import base gmap strings list.
From S2P Require Import Prelude F64 Json Models Schema Meta Keys Wal WalReplay ObjectStore Namespace Monitor.

Abbreviation Objects := (gmap string (bytes * string)).

Section State.
Context {IO : IterOrder} {WC : WalCodec} {MC : MetaCodec}.

(** The attributes stored in an entry decode. *)
Definition entry_ok (e : WalEntry) : bool := is_ok (into_documents e) && is_ok (patch_documents e).

(** The object of segment [seq] holds entry [e]. *)
Definition segment_at (objs : Objects) (ns : string) (seq : Z) (e : WalEntry) : Prop :=
  exists b t, objs !! wal_key ns seq = Some (b, t) /\ forall tag, decode_segment b tag = Ok e.

(** The state of the documents after the first [n] commits. *)
Definition docs_after (log : list WalEntry) (n : Z) (docs : Docs) : Prop :=
  replay ∅ (take (Z.to_nat n) log) = Ok docs.

Definition stored_meta (objs : Objects) (ns : string) (m : NamespaceMeta) : Prop :=
  (objs !! meta_key ns = None /\ m = default_meta) \/
  exists b t, objs !! meta_key ns = Some (b, t) /\ meta_from_slice b = Some m.

(** The snapshot object, if any, is a true state between the recorded snapshot
    and the index cursor. *)
Definition snapshot_sound (objs : Objects) (ns : string) (m : NamespaceMeta) (log : list WalEntry)
  : Prop :=
  match objs !! wal_snapshot_key ns with
  | None => wal_snapshot_seq m = 0
  | Some (b, _) => exists s, decode_snapshot b = Ok s /\
      wal_snapshot_seq m <= snap_seq s <= index_cursor m /\ 0 < snap_seq s /\
      docs_after log (snap_seq s) (into_docs s)
  end.

Record ns_state (objs : Objects) (ns : string) (m : NamespaceMeta) (log : list WalEntry) : Prop := {
  nss_meta : stored_meta objs ns m;
  nss_wf : meta_wf m;
  nss_exact : value_no_float (schema m) = true;
  nss_commit : wal_commit_seq m = lenZ log;
  nss_snapshot : snapshot_sound objs ns m log;
  nss_segments : forall seq e, wal_snapshot_seq m < seq -> log !! Z.to_nat (seq - 1) = Some e ->
    segment_at objs ns seq e;
  nss_entries : Forall (fun e => entry_ok e = true) log
}.

(** The snapshot object is the one the metadata names. *)
Definition snapshot_current (objs : Objects) (ns : string) (m : NamespaceMeta) : Prop :=
  wal_snapshot_seq m = 0 \/
  exists b t s, objs !! wal_snapshot_key ns = Some (b, t) /\ decode_snapshot b = Ok s /\
    snap_seq s = wal_snapshot_seq m.

(** ** Replay of a log *)

Lemma replay_total docs es :
  Forall (fun e => entry_ok e = true) es -> exists docs', replay docs es = Ok docs'.
Proof.
  intros Hes. revert docs. induction Hes as [|e es He _ IH]; intros docs; cbn; [by eexists|].
  unfold entry_ok in He. case_bool. unfold apply_entry.
  destruct (into_documents e); [|done]. destruct (patch_documents e); [|done]. apply IH.
Qed.

Lemma docs_after_full log docs n : lenZ log <= n -> docs_after log n docs <-> replay ∅ log = Ok docs.
Proof. intros Hn. unfold docs_after. rewrite take_ge; [done|]. unfold lenZ in Hn. lia. Qed.

Lemma docs_after_app log e n docs :
  n <= lenZ log -> docs_after (log ++ [e]) n docs <-> docs_after log n docs.
Proof. intros Hn. unfold docs_after. rewrite take_app_le; [done|]. unfold lenZ in Hn. lia. Qed.

Lemma docs_after_extend log n docs docs' :
  docs_after log n docs -> replay docs (drop (Z.to_nat n) log) = Ok docs' -> replay ∅ log = Ok docs'.
Proof.
  unfold docs_after. intros H1 H2.
  rewrite <- (take_drop (Z.to_nat n) log), replay_app, H1. done.
Qed.

(** The entries of the segments [from..=to]. *)
Lemma segments_range_to objs ns m log from to_seq :
  ns_state objs ns m log -> wal_snapshot_seq m < from -> 1 <= from -> to_seq <= lenZ log ->
  Forall2 (segment_at objs ns) (range_incl from to_seq)
    (drop (Z.to_nat (from - 1)) (take (Z.to_nat to_seq) log)).
Proof.
  intros Hst Hf Hf1 Hto. apply Forall2_same_length_lookup. split.
  - unfold range_incl. rewrite length_seqZ, length_drop, length_take. unfold lenZ in *. lia.
  - intros i seq e Hs He. unfold range_incl in Hs. apply lookup_seqZ in Hs as [-> Hi].
    rewrite lookup_drop in He. apply lookup_take_Some in He as [He _].
    apply (nss_segments _ _ _ _ Hst); [lia|]. rewrite <- He. f_equal. lia.
Qed.

Lemma segments_range objs ns m log from :
  ns_state objs ns m log -> wal_snapshot_seq m < from -> 1 <= from ->
  Forall2 (segment_at objs ns) (range_incl from (lenZ log)) (drop (Z.to_nat (from - 1)) log).
Proof.
  intros Hst Hf Hf1. pose proof (segments_range_to objs ns m log from (lenZ log) Hst Hf Hf1) as Hr.
  rewrite take_ge in Hr by (unfold lenZ; lia). by apply Hr.
Qed.
End State.

Section Loading.
Context {IO : IterOrder} {WC : WalCodec} {MC : MetaCodec} {S : ObjectStore} {SL : StoreLaws}.
Context (policy : WalCorruptPolicy).

Lemma fetch_meta_state {HM : NoMisreads} ns m log (w : World) :
  ns_state (objects w) ns m log ->
  st_post (fetch_meta ns) w (fun w' r => objects w' = objects w /\
    match r with
    | Ok (Some (m0, _)) => m0 = m
    | Ok None => m = default_meta
    | Err _ => True
    end).
Proof.
  intros Hst. eapply st_post_mono; [apply get_meta_reads|].
  intros w' [[[m0 et]|]|e] [Ho Hr]; (split; [done|]); [| |done].
  - destruct Hr as (b & t & _ & Hb & Hm0).
    destruct (nss_meta _ _ _ _ Hst) as [[Hn _]|(b' & t' & Hb' & Hm)]; congruence.
  - destruct (nss_meta _ _ _ _ Hst) as [[_ ?]|(b' & t' & Hb' & _)]; congruence.
Qed.

Lemma replay_seqs_reads ns docs seqs :
  reads (replay_seqs policy ns docs seqs) (fun objs docs' =>
    forall es, Forall2 (segment_at objs ns) seqs es -> replay docs es = Ok docs').
Proof.
  revert docs. induction seqs as [|seq seqs IH]; intros docs.
  - apply reads_ret. intros objs es Hes. by inversion Hes.
  - eapply reads_bind; [apply read_wal_segment_reads|].
    intros objs b [t Hb] w Hw. apply st_post_bind, st_post_result.
    destruct (decode_segment_with_policy b seq policy) as [o|err] eqn:Hd; cbn; [|done].
    assert (forall e, segment_at objs ns seq e -> o = Some e) as Hseg.
    { intros e (b' & t' & Hb' & Hdec). rewrite Hb in Hb'. injection Hb' as <- <-.
      unfold decode_segment_with_policy in Hd. rewrite Hdec in Hd. by injection Hd as <-. }
    destruct o as [e|].
    + destruct (apply_entry docs e) as [docs1 r] eqn:Ha. apply st_post_bind, st_post_result.
      destruct r as [[]|err]; cbn; [|done].
      eapply st_post_mono; [apply (IH docs1)|]. intros w' [d|] [Ho Hd']; (split; [done|]); [|done].
      intros es Hes. inversion Hes as [|? e' ? es' He Hes']; subst.
      apply Hseg in He as [=->]. cbn. rewrite Ha. by apply Hd'.
    + eapply st_post_mono; [apply (IH docs)|]. intros w' [d|] [Ho Hd']; (split; [done|]); [|done].
      intros es Hes. inversion Hes as [|? e' ? es' He Hes']; subst. by apply Hseg in He.
Qed.

Lemma replay_wal_range_reads ns docs from to_seq :
  reads (replay_wal_range policy ns docs from to_seq) (fun objs docs' =>
    1 <= from -> forall es, Forall2 (segment_at objs ns) (range_incl from to_seq) es ->
    replay docs es = Ok docs').
Proof.
  unfold replay_wal_range. destruct (_ || _) eqn:E.
  - apply reads_ret. intros objs Hf es Hes.
    rewrite !orb_true_iff, !Z.eqb_eq, Z.ltb_lt in E.
    rewrite range_incl_empty in Hes by lia. by inversion Hes.
  - eapply reads_weaken; [apply replay_seqs_reads|]. auto.
Qed.

(** The first stage of a load: the state it starts from. *)
Definition load_base (ns : string) (meta : NamespaceMeta) : St NsError (Docs * Z) :=
  if 0 <? wal_snapshot_seq meta then
    do? o <- read_wal_snapshot ns;
    match o with
    | Some snap =>
        if snap_seq snap =? wal_snapshot_seq meta
        then st_ret (into_docs snap, snap_seq snap)
        else st_ret (∅, 0)
    | None => st_ret (∅, 0)
    end
  else st_ret (∅, 0).

Lemma load_base_reads ns m :
  reads (load_base ns m) (fun objs base =>
    forall log, ns_state objs ns m log -> snapshot_current objs ns m ->
      base.2 = wal_snapshot_seq m /\ docs_after log base.2 base.1).
Proof.
  unfold load_base. destruct (0 <? wal_snapshot_seq m) eqn:Hpos; case_bool.
  - eapply reads_bind; [apply read_wal_snapshot_reads|]. intros objs o Ho w Hw.
    destruct o as [s|].
    + destruct Ho as (b & t & Hb & Hs).
      destruct (snap_seq s =? wal_snapshot_seq m) eqn:E; case_bool; (split; [done|]); cbn; intros log Hst Hcur.
      * split; [done|]. pose proof (nss_snapshot _ _ _ _ Hst) as Hss. unfold snapshot_sound in Hss.
        rewrite Hb in Hss. destruct Hss as (s' & Hs' & _ & _ & Hd).
        rewrite Hs in Hs'. by injection Hs' as <-.
      * destruct Hcur as [?|(b' & t' & s' & Hb' & Hs' & Hq)]; [lia|].
        rewrite Hb in Hb'. injection Hb' as <- <-. rewrite Hs in Hs'. by injection Hs' as <-.
    + split; [done|]. cbn. intros log Hst Hcur.
      destruct Hcur as [?|(b' & t' & s' & Hb' & _)]; [lia|]. by rewrite Ho in Hb'.
  - apply reads_ret. intros objs log Hst _. pose proof (wf_cursors _ (nss_wf _ _ _ _ Hst)).
    cbn. split; [lia|]. done.
Qed.

Lemma load_reads ns m :
  reads (load_docs_at_wal_commit policy ns m) (fun objs out =>
    forall log, lenZ log < u64_max -> ns_state objs ns m log -> snapshot_current objs ns m ->
      replay ∅ log = Ok out.1 /\ out.2 = lenZ log).
Proof.
  change (load_docs_at_wal_commit policy ns m) with
    (do? base <- load_base ns m;
     let '(docs, last_applied) := base in
     match wal_replay_from last_applied (wal_commit_seq m) with
     | Some from =>
         do? docs <- replay_wal_range policy ns docs from (wal_commit_seq m);
         st_ret (docs, wal_commit_seq m)
     | None => st_ret (docs, last_applied)
     end).
  eapply reads_bind; [apply load_base_reads|]. intros objs [docs last] Hbase w Hw. cbn in Hbase.
  destruct (wal_replay_from last (wal_commit_seq m)) as [from|] eqn:Hf; unfold wal_replay_from in Hf.
  - apply st_post_bind. eapply st_post_mono; [apply replay_wal_range_reads|].
    intros w' [d|] [Ho Hd]; (split; [done|]); [|done]. cbn. intros log Hlen Hst Hcur.
    destruct (Hbase log Hst Hcur) as [-> Hdocs].
    pose proof (wf_cursors _ (nss_wf _ _ _ _ Hst)). pose proof (nss_commit _ _ _ _ Hst) as Hcom.
    destruct (Z.eqb_spec (wal_commit_seq m) 0); [done|].
    destruct (_ <? _) eqn:E; [done|]. case_bool. injection Hf as <-.
    assert (sat_add64 (wal_snapshot_seq m) 1 = wal_snapshot_seq m + 1) as Hsat
      by (unfold sat_add64; lia).
    rewrite Hsat in *. split; [|done]. eapply docs_after_extend; [exact Hdocs|].
    rewrite Hcom in Hd. apply Hd; [lia|]. rewrite Hw.
    pose proof (segments_range objs ns m log (Z.max (wal_snapshot_seq m + 1) 1) Hst) as Hr.
    replace (Z.to_nat (Z.max (wal_snapshot_seq m + 1) 1 - 1)) with (Z.to_nat (wal_snapshot_seq m)) in Hr by lia.
    apply Hr; lia.
  - split; [done|]. cbn. intros log Hlen Hst Hcur. destruct (Hbase log Hst Hcur) as [-> Hdocs].
    pose proof (wf_cursors _ (nss_wf _ _ _ _ Hst)). pose proof (nss_commit _ _ _ _ Hst) as Hcom.
    assert (wal_snapshot_seq m = lenZ log) as Hall.
    { destruct (Z.eqb_spec (wal_commit_seq m) 0); [lia|].
      destruct (_ <? _) eqn:E; [|done]. case_bool. unfold sat_add64 in E. lia. }
    split; [|done]. apply docs_after_full with (n := wal_snapshot_seq m); [lia|done].
Qed.
End Loading.

(** ** Loads succeed on a reliable store *)

Section LoadTotal.
Context {IO : IterOrder} {WC : WalCodec} {MC : MetaCodec} {S : ObjectStore}.
Context {SL : StoreLaws} {SR : StoreReliable} (policy : WalCorruptPolicy).

Lemma yields_get w k :
  yields (get_object_bytes_optional k) w ((fun p => (p.1, Some p.2)) <$> objects w !! k).
Proof.
  unfold yields, get_object_bytes_optional. apply st_post_bind, st_post_lift. cbn beta.
  rewrite reliable_get. destruct (objects w !! k) as [[b t]|]; cbn;
    (split; [apply get_objects|done]).
Qed.

Lemma yields_segment w ns seq e :
  segment_at (objects w) ns seq e ->
  exists b, yields (read_wal_segment ns seq) w b /\ forall tag, decode_segment b tag = Ok e.
Proof.
  intros (b & t & Hb & Hd). exists b. split; [|done].
  eapply yields_bind; [apply yields_get|]. intros w' Ho. rewrite Hb. by split.
Qed.

Lemma yields_replay_seqs w ns docs seqs es docs' :
  Forall2 (segment_at (objects w) ns) seqs es -> replay docs es = Ok docs' ->
  yields (replay_seqs policy ns docs seqs) w docs'.
Proof.
  intros Hes. revert w docs Hes.
  induction seqs as [|seq seqs IH] in es |- *; intros w docs Hes Hr.
  - inversion Hes; subst. injection Hr as <-. apply yields_ret.
  - inversion Hes as [|? e ? es' He Hes']; subst. destruct (yields_segment w ns seq e He) as (b & Hy & Hd).
    assert (decode_segment_with_policy b seq policy = Ok (Some e)) as Hp
      by (unfold decode_segment_with_policy; by rewrite Hd).
    cbn [replay] in Hr. cbn [replay_seqs].
    eapply yields_bind; [exact Hy|]. intros w1 Ho1. rewrite Hp.
    eapply yields_bind; [apply yields_result|]. intros w2 Ho2. cbn beta iota.
    destruct (apply_entry docs e) as [docs1 [[]|]]; [|done].
    eapply yields_bind; [apply yields_result|]. intros w3 Ho3. eapply IH; [|exact Hr].
    by rewrite Ho3, Ho2, Ho1.
Qed.

Lemma yields_load_base w ns m log :
  ns_state (objects w) ns m log -> snapshot_current (objects w) ns m ->
  exists base, yields (load_base ns m) w base.
Proof.
  intros Hst Hcur. unfold load_base. destruct (0 <? wal_snapshot_seq m) eqn:Hp; case_bool.
  2: { eexists. apply yields_ret. }
  destruct Hcur as [?|(b & t & s & Hb & Hs & Hq)]; [lia|].
  exists (into_docs s, snap_seq s). eapply yields_bind.
  - eapply yields_bind; [apply yields_get|]. intros w' Ho. rewrite Hb. cbn. rewrite Hs. by split.
  - intros w' Ho. cbn. rewrite Hq, Z.eqb_refl. by split.
Qed.

Lemma load_total w ns m log :
  lenZ log < u64_max ->
  ns_state (objects w) ns m log -> snapshot_current (objects w) ns m ->
  exists docs, yields (load_docs_at_wal_commit policy ns m) w (docs, lenZ log) /\ replay ∅ log = Ok docs.
Proof.
  intros Hlen Hst Hcur. destruct (replay_total ∅ log (nss_entries _ _ _ _ Hst)) as [docs Hdocs].
  enough (exists out, yields (load_docs_at_wal_commit policy ns m) w out) as [out Hout].
  { pose proof (load_reads policy ns m w) as Hl. unfold yields, st_post in *.
    destruct (load_docs_at_wal_commit policy ns m w) as [w' r]. cbn in *.
    destruct Hout as [Ho ->]. destruct Hl as [_ Hl].
    destruct (Hl log Hlen Hst Hcur) as [Hr Hl2]. exists docs. split; [|done].
    rewrite Hdocs in Hr. injection Hr as ->. rewrite <- Hl2. by destruct out. }
  destruct (yields_load_base w ns m log Hst Hcur) as [[bd last] Hb].
  pose proof (load_base_reads ns m w) as Hbr.
  assert (last = wal_snapshot_seq m /\ docs_after log last bd) as [-> Hbd].
  { unfold yields, st_post in Hb, Hbr. destruct (load_base ns m w) as [w' r]. cbn in *.
    destruct Hb as [_ ->]. destruct Hbr as [_ Hbr]. exact (Hbr log Hst Hcur). }
  destruct (wal_replay_from (wal_snapshot_seq m) (wal_commit_seq m)) as [from|] eqn:Hf.
  - exists (docs, wal_commit_seq m). eapply yields_bind; [exact Hb|]. intros w' Ho. cbn. rewrite Hf.
    eapply yields_bind; [|intros; by split].
    pose proof (wf_cursors _ (nss_wf _ _ _ _ Hst)). pose proof (nss_commit _ _ _ _ Hst) as Hcom.
    unfold wal_replay_from in Hf. destruct (Z.eqb_spec (wal_commit_seq m) 0); [done|].
    destruct (_ <? _) eqn:E; [done|]. case_bool. injection Hf as <-. unfold sat_add64 in *.
    assert (Z.max (Z.min (wal_snapshot_seq m + 1) u64_max) 1 = wal_snapshot_seq m + 1) as -> by lia.
    unfold replay_wal_range. destruct (_ || _) eqn:E2.
    { rewrite !orb_true_iff, !Z.eqb_eq, Z.ltb_lt in E2. lia. }
    eapply yields_replay_seqs.
    + rewrite Ho, Hcom. apply (segments_range _ _ m); [done|lia..].
    + replace (wal_snapshot_seq m + 1 - 1) with (wal_snapshot_seq m) by lia.
      unfold docs_after in Hbd. rewrite <- (take_drop (Z.to_nat (wal_snapshot_seq m)) log) in Hdocs.
      rewrite replay_app, Hbd in Hdocs. exact Hdocs.
  - exists (bd, wal_snapshot_seq m). eapply yields_bind; [exact Hb|]. intros w' Ho. cbn. rewrite Hf. by split.
Qed.
End LoadTotal.

(** ** Appending *)

Section Append.
Context {IO : IterOrder} {WC : WalCodec} {WL : WalCodecLaws} {MC : MetaCodec} {ML : MetaCodecLaws}.

(** The state only depends on the objects it names. *)
Lemma ns_state_frame objs objs' ns m log :
  (forall k, k = meta_key ns \/ k = wal_snapshot_key ns \/
     (exists seq, k = wal_key ns seq /\ wal_snapshot_seq m < seq <= lenZ log) ->
     objs' !! k = objs !! k) ->
  ns_state objs ns m log -> ns_state objs' ns m log.
Proof.
  intros Hf [H1 H2 H3 H4 H5 H6 H7]. split; try done.
  - unfold stored_meta. rewrite Hf by (by left). done.
  - unfold snapshot_sound. rewrite Hf by (right; by left). done.
  - intros seq e Hs He. destruct (H6 seq e Hs He) as (b & t & Hb & Hd). exists b, t.
    split; [|done]. rewrite Hf; [done|]. right; right. exists seq. split; [done|].
    apply lookup_lt_Some in He. pose proof (wf_cursors _ H2). unfold lenZ. lia.
Qed.

Lemma next_segment_fresh ns (log : list WalEntry) k :
  lenZ log < u64_max ->
  k = meta_key ns \/ k = wal_snapshot_key ns \/
    (exists seq, k = wal_key ns seq /\ 0 <= seq <= lenZ log) ->
  k <> wal_key ns (lenZ log + 1).
Proof.
  intros Hl. assert (is_u64 (lenZ log + 1)) by (unfold is_u64, lenZ in *; lia).
  intros [->|[->|(seq & -> & Hs)]].
  - by apply meta_key_not_wal.
  - by apply snapshot_key_not_wal.
  - intros E. apply wal_key_inj in E; [lia|unfold is_u64; lia|done].
Qed.

Lemma ns_state_next_segment objs ns m log v :
  lenZ log < u64_max -> ns_state objs ns m log ->
  ns_state (<[wal_key ns (lenZ log + 1) := v]> objs) ns m log /\
  ns_state (delete (wal_key ns (lenZ log + 1)) objs) ns m log.
Proof.
  intros Hl Hst. pose proof (wf_cursors _ (nss_wf _ _ _ _ Hst)) as Hc.
  split; (eapply ns_state_frame; [|exact Hst]); intros k Hk.
  - apply lookup_insert_ne, not_eq_sym, next_segment_fresh; [done|].
    destruct Hk as [?|[?|(seq & ? & ?)]]; [tauto..|]. right; right. exists seq. split; [done|lia].
  - apply lookup_delete_ne, not_eq_sym, next_segment_fresh; [done|].
    destruct Hk as [?|[?|(seq & ? & ?)]]; [tauto..|]. right; right. exists seq. split; [done|lia].
Qed.

(** Advancing the metadata over a written segment commits its entry. *)
Lemma ns_state_commit objs ns m log e m' patch metric mb t :
  lenZ log < u64_max -> ns_state objs ns m log -> entry_ok e = true ->
  segment_at objs ns (lenZ log + 1) e ->
  (forall p, patch = Some p -> value_no_float p = true) ->
  meta_after_wal_commit_options m (lenZ log + 1) patch metric = Ok m' ->
  meta_to_vec m' = Some mb ->
  ns_state (<[meta_key ns := (mb, t)]> objs) ns m' (log ++ [e]).
Proof.
  intros Hl Hst He (b & tb & Hb & Hd) Hpf Hm' Hmb. pose proof Hst as [H1 H2 H3 H4 H5 H6 H7].
  pose proof (meta_commit_no_float _ _ _ _ _ H3 Hpf Hm') as Hnf.
  destruct (meta_commit_facts _ _ _ _ _ H2 ltac:(lia) Hm') as (W & C1 & C2 & C3 & _).
  split; try done.
  - right. exists mb, t. rewrite lookup_insert_eq. split; [done|]. by apply meta_roundtrip.
  - rewrite C1, H4. unfold lenZ. rewrite length_app. cbn. lia.
  - unfold snapshot_sound in *. rewrite lookup_insert_ne by apply meta_key_not_snapshot.
    destruct (objs !! wal_snapshot_key ns) as [[sb st]|]; [|by rewrite C3].
    destruct H5 as (s & Hs & Hle & Hpos & Hds). exists s. rewrite C2, C3.
    split; [done|]. split; [done|]. split; [done|]. pose proof (wf_cursors _ H2).
    apply docs_after_app; [lia|done].
  - intros seq e' Hs Hlog. rewrite C3 in Hs. pose proof (wf_cursors _ H2).
    assert (1 <= seq <= lenZ log + 1) as Hseq.
    { apply lookup_lt_Some in Hlog. rewrite length_app in Hlog. cbn in Hlog. unfold lenZ. lia. }
    assert (segment_at objs ns seq e') as (b' & t' & Hb' & Hd').
    { destruct (decide (seq = lenZ log + 1)) as [->|Hne].
      - rewrite lookup_app_r in Hlog by (unfold lenZ; lia).
        replace (_ - _)%nat with 0%nat in Hlog by (unfold lenZ; lia).
        cbn in Hlog. injection Hlog as <-. by exists b, tb.
      - rewrite lookup_app_l in Hlog by (unfold lenZ in *; lia). by apply H6. }
    exists b', t'. split; [|done]. rewrite lookup_insert_ne; [done|].
    apply meta_key_not_wal. unfold is_u64. lia.
  - apply Forall_app. split; [done|]. by constructor.
Qed.
End Append.

Section AppendProtocol.
Context {IO : IterOrder} {WC : WalCodec} {WL : WalCodecLaws} {MC : MetaCodec} {ML : MetaCodecLaws}.
Context {S : ObjectStore} {SL : StoreLaws}.
Context (ns : string) (m : NamespaceMeta) (log : list WalEntry) (entry : WalEntry).
Context (patch : option Value) (metric : option DistanceMetric).
Hypothesis log_bound : lenZ log < u64_max.
Hypothesis entry_decodes : entry_ok entry = true.
Hypothesis patch_exact : forall p, patch = Some p -> value_no_float p = true.

(** Objects that differ from [objs] at most in the next segment. *)
Definition before_commit (objs objs' : Objects) : Prop :=
  ns_state objs' ns m log /\ forall k, k <> wal_key ns (lenZ log + 1) -> objs' !! k = objs !! k.

(** The commit has happened. *)
Definition after_commit (objs objs' : Objects) : Prop :=
  (exists m', meta_after_wal_commit_options m (lenZ log + 1) patch metric = Ok m' /\
     ns_state objs' ns m' (log ++ [entry])) /\
  forall k, k <> wal_key ns (lenZ log + 1) -> k <> meta_key ns -> objs' !! k = objs !! k.

Lemma before_commit_insert objs objs' v :
  before_commit objs objs' -> before_commit objs (<[wal_key ns (lenZ log + 1) := v]> objs').
Proof.
  intros [Hst Hf]. split; [by apply ns_state_next_segment|].
  intros k Hk. rewrite lookup_insert_ne by done. by apply Hf.
Qed.

Lemma before_commit_delete objs objs' :
  before_commit objs objs' -> before_commit objs (delete (wal_key ns (lenZ log + 1)) objs').
Proof.
  intros [Hst Hf]. split.
  - by apply (ns_state_next_segment _ _ _ _ ([], "")) in Hst as [_ ?].
  - intros k Hk. rewrite lookup_delete_ne by done. by apply Hf.
Qed.

Lemma put_wal_post objs w body :
  before_commit objs (objects w) ->
  st_post (put_wal ns (lenZ log + 1) body) w (fun w' r =>
    before_commit objs (objects w') /\
    (r = Ok tt -> exists t, objects w' !! wal_key ns (lenZ log + 1) = Some (body, t))).
Proof.
  intros Hb. unfold st_post, put_wal.
  destruct (s3_put w (wal_key ns (lenZ log + 1)) body PutAlways) as [w' r] eqn:Hp. cbn.
  pose proof (put_ok w (wal_key ns (lenZ log + 1)) body PutAlways) as Hok.
  pose proof (put_err w (wal_key ns (lenZ log + 1)) body PutAlways) as Herr.
  rewrite Hp in Hok, Herr. cbn in Hok, Herr. destruct r as [et|e].
  - destruct (Hok et eq_refl) as [_ (t & _ & ->)]. split; [by apply before_commit_insert|].
    intros _. exists t. by rewrite lookup_insert_eq.
  - split; [|done]. destruct (Herr e eq_refl) as [->|[_ [t ->]]]; [done|by apply before_commit_insert].
Qed.

Lemma put_wal_retry_post n e0 objs w body :
  before_commit objs (objects w) ->
  st_post (retry n (put_wal ns (lenZ log + 1) body) e0) w (fun w' r =>
    before_commit objs (objects w') /\
    (r = Ok tt -> exists t, objects w' !! wal_key ns (lenZ log + 1) = Some (body, t))).
Proof.
  revert e0 w. induction n as [|n IH]; intros e0 w Hb; cbn [retry]; [by split|].
  apply st_post_bind. unfold st_try, st_post at 1. pose proof (put_wal_post objs w body Hb) as Hp.
  unfold st_post in Hp. destruct (put_wal _ _ _ w) as [w' [[]|e]]; cbn in *; [done|].
  apply IH. by destruct Hp.
Qed.

Lemma meta_put_post objs w (m' : NamespaceMeta) mb c :
  before_commit objs (objects w) ->
  segment_at (objects w) ns (lenZ log + 1) entry ->
  meta_after_wal_commit_options m (lenZ log + 1) patch metric = Ok m' ->
  meta_to_vec m' = Some mb ->
  let '(w', r) := s3_put w (meta_key ns) mb c in
  match r with
  | Ok _ => after_commit objs (objects w')
  | Err e =>
      (has_code e "PreconditionFailed" = true -> before_commit objs (objects w')) /\
      (before_commit objs (objects w') \/ after_commit objs (objects w'))
  end.
Proof.
  intros Hb Hseg Hm' Hmb. destruct (s3_put w (meta_key ns) mb c) as [w' r] eqn:Hp.
  pose proof (put_ok w (meta_key ns) mb c) as Hok. pose proof (put_err w (meta_key ns) mb c) as Herr.
  pose proof (put_refused w (meta_key ns) mb c) as Href.
  rewrite Hp in Hok, Herr, Href. cbn in Hok, Herr, Href.
  assert (forall t, objects w' = <[meta_key ns := (mb, t)]> (objects w) -> after_commit objs (objects w')) as Hins.
  { intros t ->. destruct Hb as [Hst Hf]. split.
    - exists m'. split; [done|]. by eapply ns_state_commit.
    - intros k Hk Hk'. rewrite lookup_insert_ne by done. by apply Hf. }
  destruct r as [et|e].
  - destruct (Hok et eq_refl) as [_ (t & _ & Ht)]. by apply (Hins t).
  - split.
    + intros Hc. by rewrite (Href e eq_refl Hc).
    + destruct (Herr e eq_refl) as [->|[_ [t Ht]]]; [by left|]. right. by apply (Hins t).
Qed.

Context {HM : NoMisreads}.

Lemma append_read_post objs w :
  before_commit objs (objects w) ->
  st_post (append_read ns) w (fun w' r =>
    objects w' = objects w /\ match r with Ok cur => cur.1 = m | Err _ => True end).
Proof.
  intros [Hst _]. apply st_post_bind. eapply st_post_mono; [apply (get_meta_reads ns)|].
  intros w' [[[m0 et]|]|e] [Ho Hr]; (split; [done|]); [| |done].
  - destruct Hr as (b & t & _ & Hb & Hm0). cbn.
    destruct (nss_meta _ _ _ _ Hst) as [[Hn _]|(b' & t' & Hb' & Hm)]; congruence.
  - cbn. destruct (nss_meta _ _ _ _ Hst) as [[_ ->]|(b' & t' & Hb' & _)]; congruence.
Qed.

Lemma append_put_post objs w :
  before_commit objs (objects w) ->
  st_post (append_put ns entry (lenZ log + 1)) w (fun w' r =>
    before_commit objs (objects w') /\
    (r = Ok tt -> segment_at (objects w') ns (lenZ log + 1) entry)).
Proof.
  intros Hb. apply st_post_bind, st_post_result.
  destruct (encode entry) as [body|] eqn:Henc; cbn [wal_result]; [|done].
  eapply st_post_mono; [by apply (put_wal_retry_post PUT_RETRIES CasExhausted objs)|].
  intros w' r [Hb' Hput]. split; [done|]. intros ->. destruct (Hput eq_refl) as [t Hseg].
  exists body, t. split; [done|]. intros tag. by apply decode_segment_encode.
Qed.

Lemma append_cas_post objs w last_attempt et :
  before_commit objs (objects w) ->
  segment_at (objects w) ns (lenZ log + 1) entry ->
  st_post (append_cas ns patch metric last_attempt m et (lenZ log + 1)) w (fun w' r =>
    match r with
    | Ok (Some seq) => seq = lenZ log + 1 /\ after_commit objs (objects w')
    | Ok None => before_commit objs (objects w')
    | Err _ => before_commit objs (objects w') \/ after_commit objs (objects w')
    end).
Proof.
  intros Hb Hsa. apply st_post_bind, st_post_result.
  destruct (meta_after_wal_commit_options m (lenZ log + 1) patch metric) as [m'|] eqn:Hm';
    cbn [meta_result]; [|by left].
  apply st_post_bind, st_post_result.
  destruct (meta_to_vec m') as [mb|] eqn:Hmb; cbn [ok_or]; [|by left].
  apply st_post_bind, st_post_lift.
  pose proof (meta_put_post objs w m' mb (cas_cond et) Hb Hsa Hm' Hmb) as Hmp.
  destruct (s3_put w (meta_key ns) mb (cas_cond et)) as [w3 [tag|e]]; cbn [fst snd]; [by split|].
  destruct Hmp as [Hpre Hor]. destruct (has_code e "PreconditionFailed" && negb last_attempt) eqn:Hc; [|done].
  apply andb_true_iff in Hc as [Hc _]. specialize (Hpre Hc).
  apply st_post_bind, st_post_lift. cbn [st_ret].
  pose proof (delete_ok w3 (wal_key ns (lenZ log + 1))) as Hdok.
  pose proof (delete_err w3 (wal_key ns (lenZ log + 1))) as Hderr.
  destruct (s3_delete w3 (wal_key ns (lenZ log + 1))) as [w4 [[]|e']]; cbn in *.
  - rewrite (Hdok eq_refl). by apply before_commit_delete.
  - destruct (Hderr e' eq_refl) as [->| ->]; [done|by apply before_commit_delete].
Qed.

Lemma next_seq_log objs objs' : before_commit objs objs' -> next_wal_seq m = lenZ log + 1.
Proof.
  intros [Hst _]. unfold next_wal_seq, sat_add64. rewrite (nss_commit _ _ _ _ Hst). lia.
Qed.

Lemma append_attempt_post objs w last_attempt :
  before_commit objs (objects w) ->
  st_post (append_attempt ns entry patch metric last_attempt) w (fun w' r =>
    match r with
    | Ok (Some seq) => seq = lenZ log + 1 /\ after_commit objs (objects w')
    | Ok None => before_commit objs (objects w')
    | Err _ => before_commit objs (objects w') \/ after_commit objs (objects w')
    end).
Proof.
  intros Hb. apply st_post_bind. eapply st_post_mono; [by apply (append_read_post objs)|].
  intros w1 [[m0 et]|e] [Ho1 Hm]; [|left; by rewrite Ho1]. rewrite <- Ho1 in Hb.
  cbn in Hm. rewrite Hm, (next_seq_log _ _ Hb).
  apply st_post_bind. eapply st_post_mono; [by apply (append_put_post objs)|].
  intros w2 [[]|e] [Hb2 Hseg]; [|by left]. apply append_cas_post; [done|]. by apply Hseg.
Qed.

Lemma append_loop_post n objs w :
  before_commit objs (objects w) ->
  st_post (append_loop n ns entry patch metric) w (fun w' r =>
    match r with
    | Ok seq => seq = lenZ log + 1 /\ after_commit objs (objects w')
    | Err _ => before_commit objs (objects w') \/ after_commit objs (objects w')
    end).
Proof.
  revert w. induction n as [|n IH]; intros w Hb; cbn [append_loop]; [by left|].
  apply st_post_bind. eapply st_post_mono; [by apply (append_attempt_post objs)|].
  intros w' [[seq|]|e] Hr; [done|by apply IH|done].
Qed.
End AppendProtocol.

(** ** A concrete metadata codec for the witnesses *)

#[export] Instance NamespaceMeta_eq_decision : EqDecision NamespaceMeta.
Proof. assert (EqDecision VectorFieldConfig) by solve_decision. solve_decision. Defined.

Definition meta_table (tbl : list NamespaceMeta) : MetaCodec := {|
  meta_to_vec := table_write tbl;
  meta_from_slice := table_read tbl
|}.

Lemma meta_table_laws tbl : @MetaCodecLaws (meta_table tbl).
Proof. split. intros m b _. apply table_roundtrip. Qed.

#[export] Instance calm_store_honest : @NoMisreads calm_store.
Proof.
  split. intros w k. unfold misread. cbn. destruct (mem_objects w !! k) as [[? ?]|]; [done|]. by rewrite andb_false_r.
Qed.

Definition meta_at (n : Z) : NamespaceMeta := set_wal_commit_seq n default_meta.
Definition put_entry (id : string) : WalEntry := mkWalEntry [mkWalUpsert id [65]] [] [].
Definition demo_codec : WalCodec :=
  table_codec [put_entry "a"; put_entry "b"; put_entry "c"] [ {[ "tier" := VString "free" ]} ] [].
Definition demo_metas : MetaCodec := meta_table [meta_at 1; meta_at 2; meta_at 3].

Lemma ns_state_empty {IO : IterOrder} {WC : WalCodec} {MC : MetaCodec} objs ns :
  objs !! meta_key ns = None -> objs !! wal_snapshot_key ns = None ->
  ns_state objs ns default_meta [].
Proof.
  intros Hm Hs. split; try done.
  - by left.
  - apply default_meta_wf.
  - unfold snapshot_sound. by rewrite Hs.
Qed.

(** ** Theorems *)

(** On a store without misread answers. *)
Lemma append_wal_post {IO : IterOrder} {WC : WalCodec} {WL : WalCodecLaws} {MC : MetaCodec}
    {ML : MetaCodecLaws} {S : ObjectStore} {SL : StoreLaws} {HM : NoMisreads} ns m log entry patch metric w :
  lenZ log < u64_max -> ns_state (objects w) ns m log -> entry_ok entry = true ->
  (forall p, patch = Some p -> value_no_float p = true) ->
  let '(w', r) := append_wal ns entry patch metric w in
  match r with
  | Ok seq => seq = lenZ log + 1 /\ exists m', ns_state (objects w') ns m' (log ++ [entry])
  | Err _ => ns_state (objects w') ns m log \/ exists m', ns_state (objects w') ns m' (log ++ [entry])
  end /\
  forall k, k <> wal_key ns (lenZ log + 1) -> k <> meta_key ns -> objects w' !! k = objects w !! k.
Proof.
  intros Hl Hst He Hp.
  assert (before_commit ns m log (objects w) (objects w)) as Hb by done.
  pose proof (append_loop_post ns m log entry patch metric Hl He Hp META_RETRIES _ _ Hb) as Hpost.
  unfold st_post in Hpost. unfold append_wal.
  destruct (append_loop META_RETRIES ns entry patch metric w) as [w' [seq|e]]; cbn in Hpost.
  - destruct Hpost as [-> [(m' & _ & Hst') Hf]]. split; [by eauto|done].
  - destruct Hpost as [[Hst' Hf]|[(m' & _ & Hst') Hf]]; (split; [by eauto|]); auto.
Qed.

(** C1: a write is atomic and durable whatever requests fail, unless a read of
    the existing [meta.json] was answered in this run by an error the code takes
    for its absence ([misled], see [unhandled_error_loses_commit]).  From a
    namespace whose committed log is [log], for a segment that encodes and a
    schema patch without floats, [append_wal] returns [Ok seq] only if [seq] is
    the next sequence number and the store now holds exactly [log] followed by
    the entry; if it returns an error, the store holds either [log] or [log]
    followed by the entry, never anything else.  No other object is touched. *)
Theorem append_wal_atomic {IO : IterOrder} {WC : WalCodec} {WL : WalCodecLaws} {MC : MetaCodec}
    {ML : MetaCodecLaws} {S : ObjectStore} {SL : StoreLaws} {MO : Monitor}
    ns m log entry patch metric w :
  lenZ log < u64_max -> ns_state (objects w) ns m log -> entry_ok entry = true ->
  (forall p, patch = Some p -> value_no_float p = true) ->
  let '(w', r) := append_wal ns entry patch metric w in
  misled w' = false ->
  match r with
  | Ok seq => seq = lenZ log + 1 /\ exists m', ns_state (objects w') ns m' (log ++ [entry])
  | Err _ => ns_state (objects w') ns m log \/ exists m', ns_state (objects w') ns m' (log ++ [entry])
  end /\
  forall k, k <> wal_key ns (lenZ log + 1) -> k <> meta_key ns -> objects w' !! k = objects w !! k.
Proof.
  intros Hl Hst He Hp. refine (agree_run _ _ w _ (agree_append_loop META_RETRIES ns entry patch metric) _).
  exact (append_wal_post (S := recognised S) ns m log entry patch metric w Hl Hst He Hp).
Qed.

Lemma append_wal_atomic_witness :
  let w := mkMem ∅ 0 [] in
  let '(w', r) := @append_wal demo_codec demo_metas calm_store "ns" (put_entry "a") None None w in
  match r with
  | Ok seq => seq = lenZ (@nil WalEntry) + 1 /\
      exists m', @ns_state canonical_order demo_codec demo_metas (@objects calm_store w') "ns" m' ([] ++ [put_entry "a"])
  | Err _ => @ns_state canonical_order demo_codec demo_metas (@objects calm_store w') "ns" default_meta [] \/
      exists m', @ns_state canonical_order demo_codec demo_metas (@objects calm_store w') "ns" m' ([] ++ [put_entry "a"])
  end /\
  forall k, k <> wal_key "ns" (lenZ (@nil WalEntry) + 1) -> k <> meta_key "ns" ->
    @objects calm_store w' !! k = @objects calm_store w !! k.
Proof.
  pose proof (@append_wal_atomic canonical_order demo_codec (table_codec_laws _ _ _) demo_metas
    (meta_table_laws _) calm_store calm_store_laws calm_monitor "ns" default_meta [] (put_entry "a") None None (mkMem ∅ 0 [])) as H.
  cbn zeta. destruct (@append_wal demo_codec demo_metas calm_store _ _ _ _ _) as [w' r]. apply H.
  - reflexivity.
  - apply ns_state_empty; reflexivity.
  - vm_compute. reflexivity.
  - discriminate.
  - reflexivity.
Defined.

(** C6: a load is never wrong: on a store that may fail any request, a load
    that succeeds returns the replay of the whole committed log, whether it
    started from a snapshot or from the first segment, and changes nothing. *)
Theorem load_sound {IO : IterOrder} {WC : WalCodec} {MC : MetaCodec} {S : ObjectStore}
    {SL : StoreLaws} policy ns m log w :
  lenZ log < u64_max -> ns_state (objects w) ns m log -> snapshot_current (objects w) ns m ->
  let '(w', r) := load_docs_at_wal_commit policy ns m w in
  objects w' = objects w /\
  match r with
  | Ok (docs, last_applied) => replay ∅ log = Ok docs /\ last_applied = lenZ log
  | Err _ => True
  end.
Proof.
  intros Hl Hst Hcur. pose proof (load_reads policy ns m w) as Hr. unfold st_post in Hr.
  destruct (load_docs_at_wal_commit policy ns m w) as [w' [[docs n]|e]]; cbn in Hr; [|done].
  destruct Hr as [Ho Hr]. split; [done|]. by apply Hr.
Qed.

Definition demo_world : MemWorld :=
  (@append_wal demo_codec demo_metas calm_store "ns" (put_entry "a") None None (mkMem ∅ 0 [])).1.

Lemma demo_world_state :
  @ns_state canonical_order demo_codec demo_metas (mem_objects demo_world) "ns" (meta_at 1) [put_entry "a"].
Proof.
  split.
  - right. exists [65], "2". split; vm_compute; reflexivity.
  - split; cbn; try done; try lia; try constructor.
  - done.
  - done.
  - unfold snapshot_sound. vm_compute. reflexivity.
  - intros seq e Hs He. assert (seq = 1) as ->.
    { apply lookup_lt_Some in He. cbn in He, Hs. lia. }
    injection He as <-. exists [1; 65; 72; 0; 0; 0], "1".
    split; [vm_compute; reflexivity|]. intros tag. vm_compute. reflexivity.
  - repeat constructor.
Qed.

Lemma load_sound_witness :
  let '(w', r) := @load_docs_at_wal_commit canonical_order demo_codec calm_store PolicyFail "ns"
                    (meta_at 1) demo_world in
  @objects calm_store w' = mem_objects demo_world /\
  match r with
  | Ok (docs, last_applied) =>
      @replay canonical_order demo_codec ∅ [put_entry "a"] = Ok docs /\
      last_applied = lenZ [put_entry "a"]
  | Err _ => True
  end.
Proof.
  apply (@load_sound canonical_order demo_codec demo_metas calm_store calm_store_laws PolicyFail "ns"
    (meta_at 1) [put_entry "a"]).
  - reflexivity.
  - exact demo_world_state.
  - left. reflexivity.
Defined.

Section AppendTotal.
Context {IO : IterOrder} {WC : WalCodec} {WL : WalCodecLaws} {MC : MetaCodec} {ML : MetaCodecLaws}.
Context {S : ObjectStore} {SL : StoreLaws} {SR : StoreReliable}.

Lemma reliable_honest : NoMisreads.
Proof.
  split. intros w k. unfold misread. rewrite reliable_get. destruct (objects w !! k) as [[b t]|]; [done|]. by rewrite andb_false_r.
Qed.

Lemma reliable_append_read ns m log w :
  ns_state (objects w) ns m log ->
  exists w' et, append_read ns w = (w', Ok (m, et)) /\ objects w' = objects w /\
    put_cond_holds (objects w !! meta_key ns) (cas_cond et).
Proof.
  intros Hst. pose proof (get_objects w (meta_key ns)) as Hgo. pose proof (reliable_get w (meta_key ns)) as Hg.
  unfold append_read, get_meta_with_retry, GET_RETRIES. cbn [retry].
  unfold st_bind, st_try, get_meta_json, st_bind, st_lift.
  destruct (s3_get w (meta_key ns)) as [w' out]. cbn in Hgo, Hg. subst out.
  destruct (nss_meta _ _ _ _ Hst) as [[Hn ->]|(b & t & Hb & Hm)].
  - rewrite Hn. cbn. by exists w', None.
  - rewrite Hb, Hm. cbn. exists w', (Some t). split; [done|]. split; [done|]. by exists b.
Qed.

Lemma reliable_append_put ns entry seq body w :
  encode entry = Ok body ->
  exists w' t, append_put ns entry seq w = (w', Ok tt) /\
    objects w' = <[wal_key ns seq := (body, t)]> (objects w).
Proof.
  intros He. pose proof (reliable_put w (wal_key ns seq) body PutAlways I) as Hr.
  destruct ((s3_put w (wal_key ns seq) body PutAlways).2) as [et|] eqn:Hp2; [|done].
  destruct (put_ok w (wal_key ns seq) body PutAlways et Hp2) as [_ (t & _ & Ht)].
  unfold append_put, st_bind, st_result. rewrite He. cbn [wal_result].
  unfold put_wal_with_retry, PUT_RETRIES. cbn [retry]. unfold st_bind, st_try, put_wal.
  destruct (s3_put w (wal_key ns seq) body PutAlways) as [w' r]. cbn in Hp2, Ht. subst r.
  cbn. by exists w', t.
Qed.

Lemma reliable_append ns m log entry patch metric w body m' mb :
  lenZ log < u64_max -> ns_state (objects w) ns m log -> encode entry = Ok body ->
  meta_after_wal_commit_options m (lenZ log + 1) patch metric = Ok m' ->
  meta_to_vec m' = Some mb ->
  exists w', append_wal ns entry patch metric w = (w', Ok (lenZ log + 1)).
Proof.
  intros Hl Hst He Hm' Hmb. unfold append_wal, META_RETRIES. cbn [append_loop Nat.eqb].
  destruct (reliable_append_read ns m log w Hst) as (w1 & et & Hr1 & Ho1 & Hc).
  destruct (reliable_append_put ns entry (lenZ log + 1) body w1 He) as (w2 & t & Hr2 & Ho2).
  assert (next_wal_seq m = lenZ log + 1) as Hseq
    by (unfold next_wal_seq, sat_add64; rewrite (nss_commit _ _ _ _ Hst); lia).
  assert (put_cond_holds (objects w2 !! meta_key ns) (cas_cond et)) as Hc2.
  { rewrite Ho2, Ho1, lookup_insert_ne; [done|]. apply not_eq_sym, meta_key_not_wal.
    unfold is_u64, lenZ in *. lia. }
  pose proof (reliable_put w2 (meta_key ns) mb (cas_cond et) Hc2) as Hr3.
  unfold append_attempt, st_bind at 1 2. rewrite Hr1, Hseq. unfold st_bind at 1. rewrite Hr2.
  unfold append_cas, st_bind, st_result, st_lift. rewrite Hm'. cbn [meta_result]. rewrite Hmb. cbn [ok_or].
  destruct (s3_put w2 (meta_key ns) mb (cas_cond et)) as [w3 [et'|e]]; cbn in Hr3; [|done]. by exists w3.
Qed.
End AppendTotal.



(** an acknowledged write can be lost by a failed read.  A read of
    [meta.json] that fails with MinIO's "unhandled error" message is taken to
    mean that the namespace does not exist; the next write then overwrites
    segment 1 before its conditional write is refused, removes it, and commits
    at the real next number.  Here segment 1 was committed and could be loaded;
    after a write that reports success the namespace can no longer be loaded. *)
Theorem unhandled_error_loses_commit :
  let load w m := (@load_docs_at_wal_commit canonical_order demo_codec mem_store PolicyFail "ns" m w).2 in
  let faulty := mkMem (mem_objects demo_world) 3
    [FailGet (mkS3Error false (Some "InternalError") "unhandled error")] in
  let '(w', r) := @append_wal demo_codec demo_metas mem_store "ns" (put_entry "b") None None faulty in
  is_ok (load (mkMem (mem_objects demo_world) 3 []) (meta_at 1)) = true /\
  r = Ok 2 /\ load w' (meta_at 2) = Err (ObjectNotFound (wal_key "ns" 1)).
Proof. vm_compute. done. Qed.

(** two server processes can lose an acknowledged write.  The commit lock
    is local to a process; when both read the metadata before either commits,
    the second overwrites the segment the first has committed and acknowledged,
    is refused by the conditional write, and deletes it.  Every request of this
    run succeeds or fails as documented; afterwards the committed namespace
    cannot be loaded. *)
Theorem two_instances_lose_commit :
  let store := calm_store in
  let put e := @append_put demo_codec store "ns" e 1 in
  let cas et := @append_cas demo_metas store "ns" None None false default_meta et 1 in
  let w0 := mkMem ∅ 0 [] in
  let '(wa, read_a) := @append_read demo_metas store "ns" w0 in
  let '(wb, read_b) := @append_read demo_metas store "ns" wa in
  let '(w1, put_a) := put (put_entry "a") wb in
  let '(w2, cas_a) := cas None w1 in
  let '(w3, put_b) := put (put_entry "b") w2 in
  let '(w4, cas_b) := cas None w3 in
  read_a = Ok (default_meta, None) /\ read_b = Ok (default_meta, None) /\
  put_a = Ok tt /\ cas_a = Ok (Some 1) /\ put_b = Ok tt /\ cas_b = Ok None /\
  (@load_docs_at_wal_commit canonical_order demo_codec store PolicyFail "ns" (meta_at 1) w4).2
    = Err (ObjectNotFound (wal_key "ns" 1)).
Proof. vm_compute. done. Qed.
