(* ===== verification/Compaction.v ===== *)
(** * WAL compaction ([wal_compaction.rs])

    When the indexer has caught up, the document map at the index cursor is
    written as a snapshot, the metadata records it, and the segments before it
    are deleted. *)

From Stdlib Require Import ZArith Lia Bool.
From stdpp Require Import base gmap strings list.
From S2P Require Import Prelude F64 Json Models Schema Meta Keys Wal WalReplay ObjectStore Namespace Monitor Durability.

Definition WAL_COMPACTION_THRESHOLD : Z := 10.
Definition WAL_COMPACT_KEEP : Z := 3.

Definition should_compact_wal (meta : NamespaceMeta) : bool :=
  (wal_commit_seq meta <=? index_cursor meta)
  && (WAL_COMPACTION_THRESHOLD <? wal_commit_seq meta)
  && (WAL_COMPACT_KEEP <? index_cursor meta).

Definition needs_wal_compaction (meta : NamespaceMeta) : bool :=
  should_compact_wal meta && (wal_snapshot_seq meta <? index_cursor meta).

Definition wal_seqs_to_delete (cursor keep_k : Z) : list Z :=
  if cursor <=? keep_k then [] else range_incl 1 (sat_sub cursor keep_k).

(** ** The local cache

    The process keeps a disk cache of objects beside the store ([cache.rs]); it
    is told about every object written or removed, and affects no object. *)
Class LocalCache {S : ObjectStore} : Type := {
  cache_populate : string -> bytes -> option string -> World -> World;
  cache_invalidate : string -> World -> World
}.

Class LocalCacheLaws {S : ObjectStore} {LC : LocalCache} : Prop := {
  populate_objects : forall k b t w, objects (cache_populate k b t w) = objects w;
  invalidate_objects : forall k w, objects (cache_invalidate k w) = objects w
}.

(** [SegmentCache::disabled()]. *)
Definition no_cache (S : ObjectStore) : @LocalCache S := {|
  cache_populate := fun _ _ _ w => w;
  cache_invalidate := fun _ w => w
|}.

Lemma no_cache_laws (S : ObjectStore) : @LocalCacheLaws S (no_cache S).
Proof. done. Qed.

Definition st_do {S : ObjectStore} {E} (f : World -> World) : St E unit := fun w => (f w, Ok tt).

Section Compaction.
Context {IO : IterOrder} {WC : WalCodec} {MC : MetaCodec} {S : ObjectStore} {LC : LocalCache}.
Context (policy : WalCorruptPolicy).

(** The delete loop: how many objects were deleted. *)
Fixpoint delete_segments (ns : string) (seqs : list Z) (deleted : Z) : St NsError Z :=
  match seqs with
  | [] => st_ret deleted
  | seq :: rest =>
      let key := wal_key ns seq in
      do? r <- st_lift (fun w => s3_delete w key);
      match r with
      | Ok _ =>
          do? _ <- st_do (cache_invalidate key);
          delete_segments ns rest (deleted + 1)
      | Err _ => delete_segments ns rest deleted
      end
  end.

(** The body of the retry loop once compaction is needed: [None] to retry. *)
Definition compact_attempt (ns : string) (last_attempt : bool) (meta : NamespaceMeta)
    (etag : option string) : St NsError (option Z) :=
  let cursor := index_cursor meta in
  do? docs <- docs_at_index_cursor policy ns cursor;
  do? snap_body <- st_result (wal_result (encode_snapshot (from_docs cursor docs)));
  do? snap_resp <- st_lift (fun w => s3_put w (wal_snapshot_key ns) snap_body PutAlways);
  do? snap_etag <- st_result
    (match snap_resp with Ok t => Ok t | Err e => Err (PutSnapshot e) end);
  do? _ <- st_do (cache_populate (wal_snapshot_key ns) snap_body snap_etag);
  let next_meta := set_wal_snapshot_seq cursor meta in
  do? meta_body <- st_result (ok_or (meta_to_vec next_meta) EncodeMeta);
  do? put <- st_lift (fun w => s3_put w (meta_key ns) meta_body (cas_cond etag));
  match put with
  | Ok _ =>
      do? deleted <- delete_segments ns (wal_seqs_to_delete cursor WAL_COMPACT_KEEP) 0;
      st_ret (Some deleted)
  | Err e =>
      if has_code e "PreconditionFailed" && negb last_attempt then st_ret None
      else st_err (PutMeta e)
  end.

Fixpoint compact_loop (attempts : nat) (ns : string) : St NsError Z :=
  match attempts with
  | O => st_err CasExhausted
  | Datatypes.S n =>
      do? cur <- fetch_meta ns;
      match cur with
      | None => st_ret 0
      | Some (meta, etag) =>
          if negb (needs_wal_compaction meta) then st_ret 0
          else
            do? r <- compact_attempt ns (Nat.eqb n 0) meta etag;
            match r with
            | Some deleted => st_ret deleted
            | None => compact_loop n ns
            end
      end
  end.

Definition maybe_compact_wal (ns : string) : St NsError Z :=
  do? cur <- fetch_meta ns;
  match cur with
  | None => st_ret 0
  | Some (meta, _) =>
      if negb (needs_wal_compaction meta) then st_ret 0
      else compact_loop META_RETRIES ns
  end.
End Compaction.

(** ** Lemmas *)

Section CompactionLemmas.
Context {IO : IterOrder} {WC : WalCodec} {MC : MetaCodec} {ML : MetaCodecLaws}.
Context (ns : string) (m : NamespaceMeta) (log : list WalEntry).
Hypothesis log_bound : lenZ log < u64_max.
Hypothesis needs : needs_wal_compaction m = true.
(** The JSON codec reads snapshots of this log back exactly. *)
Hypothesis snapshot_exact : forall seq docs b, docs_after log seq docs ->
  snapshot_to_vec (from_docs seq docs) = Some b -> snapshot_from_slice b = Some (from_docs seq docs).

Lemma needs_facts : 3 < index_cursor m /\ wal_snapshot_seq m < index_cursor m.
Proof.
  unfold needs_wal_compaction, should_compact_wal in needs. case_bool.
  unfold WAL_COMPACT_KEEP in *. lia.
Qed.

Lemma docs_after_keyed n docs : docs_after log n docs -> docs_keyed docs.
Proof. intros Hd. eapply replay_keyed; [|exact Hd]. apply map_Forall_empty. Qed.

(** Writing a snapshot at the index cursor keeps the state sound. *)
Lemma ns_state_put_snapshot objs docs b t :
  ns_state objs ns m log -> docs_after log (index_cursor m) docs ->
  encode_snapshot (from_docs (index_cursor m) docs) = Ok b ->
  ns_state (<[wal_snapshot_key ns := (b, t)]> objs) ns m log.
Proof.
  intros Hst Hd Henc. pose proof Hst as [H1 H2 H3 H4 H5 H6 H7]. destruct needs_facts.
  split; try done.
  - unfold stored_meta in *. by rewrite lookup_insert_ne by apply not_eq_sym, meta_key_not_snapshot.
  - unfold snapshot_sound. rewrite lookup_insert_eq. exists (from_docs (index_cursor m) docs).
    unfold encode_snapshot in Henc. destruct (snapshot_to_vec _) as [b'|] eqn:Hb; [|done].
    injection Henc as ->. unfold decode_snapshot. rewrite (snapshot_exact _ _ _ Hd Hb).
    split; [done|]. split; [cbn; lia|]. split; [cbn; lia|].
    by rewrite into_docs_from_docs by (by eapply docs_after_keyed).
  - intros seq e Hs He. destruct (H6 seq e Hs He) as (b' & t' & Hb' & Hdec).
    exists b', t'. split; [|done]. rewrite lookup_insert_ne; [done|].
    apply snapshot_key_not_wal. apply lookup_lt_Some in He. pose proof (wf_cursors _ H2).
    unfold is_u64, lenZ in *. lia.
Qed.

Lemma set_snapshot_wf : meta_wf m -> meta_wf (set_wal_snapshot_seq (index_cursor m) m).
Proof. intros [Hc Hu H3 H4 H5 H6 H7]. split; cbn; try done. lia. Qed.

(** Recording the snapshot in the metadata. *)
Lemma ns_state_record_snapshot objs docs b t mb tm :
  ns_state objs ns m log -> docs_after log (index_cursor m) docs ->
  encode_snapshot (from_docs (index_cursor m) docs) = Ok b ->
  objs !! wal_snapshot_key ns = Some (b, t) ->
  meta_to_vec (set_wal_snapshot_seq (index_cursor m) m) = Some mb ->
  let objs' := <[meta_key ns := (mb, tm)]> objs in
  let m' := set_wal_snapshot_seq (index_cursor m) m in
  ns_state objs' ns m' log /\ snapshot_current objs' ns m'.
Proof.
  intros Hst Hd Henc Hb Hmb objs' m'. pose proof Hst as [H1 H2 H3 H4 H5 H6 H7]. destruct needs_facts.
  assert (decode_snapshot b = Ok (from_docs (index_cursor m) docs)) as Hdec.
  { unfold encode_snapshot in Henc. destruct (snapshot_to_vec _) as [b'|] eqn:Hb'; [|done].
    injection Henc as ->. unfold decode_snapshot. by rewrite (snapshot_exact _ _ _ Hd Hb'). }
  assert (objs' !! wal_snapshot_key ns = Some (b, t)) as Hb2.
  { unfold objs'. by rewrite lookup_insert_ne by apply meta_key_not_snapshot. }
  split; [|right; by exists b, t, (from_docs (index_cursor m) docs)].
  split; try done.
  - right. exists mb, tm. unfold objs'. rewrite lookup_insert_eq. split; [done|].
    by apply meta_roundtrip.
  - by apply set_snapshot_wf.
  - unfold snapshot_sound. rewrite Hb2. exists (from_docs (index_cursor m) docs).
    split; [done|]. split; [cbn; lia|]. split; [cbn; lia|].
    by rewrite into_docs_from_docs by (by eapply docs_after_keyed).
  - cbn. intros seq e Hs He. destruct (H6 seq e ltac:(lia) He) as (b' & t' & Hb' & Hdec').
    exists b', t'. split; [|done]. unfold objs'. rewrite lookup_insert_ne; [done|].
    apply meta_key_not_wal. apply lookup_lt_Some in He. unfold is_u64, lenZ in *. lia.
Qed.

(** Deleting segments the snapshot covers. *)
Lemma ns_state_delete_old objs m' seq :
  wal_snapshot_seq m' = index_cursor m -> 1 <= seq <= index_cursor m ->
  ns_state objs ns m' log /\ snapshot_current objs ns m' ->
  ns_state (delete (wal_key ns seq) objs) ns m' log /\
  snapshot_current (delete (wal_key ns seq) objs) ns m'.
Proof.
  intros Hm' Hseq [Hst Hcur].
  assert (index_cursor m <= lenZ log) as Hle.
  { pose proof (wf_cursors _ (nss_wf _ _ _ _ Hst)). rewrite (nss_commit _ _ _ _ Hst) in *. lia. }
  assert (is_u64 seq) by (unfold is_u64; lia).
  split.
  - eapply ns_state_frame; [|exact Hst]. intros k Hk. apply lookup_delete_ne.
    destruct Hk as [->|[->|(s & -> & Hs)]]; intros E.
    + by apply (meta_key_not_wal ns seq).
    + by apply (snapshot_key_not_wal ns seq).
    + apply wal_key_inj in E; [lia|done|unfold is_u64; lia].
  - unfold snapshot_current in *. rewrite lookup_delete_ne; [done|].
    apply not_eq_sym. by apply snapshot_key_not_wal.
Qed.
End CompactionLemmas.

Section CompactionReads.
Context {IO : IterOrder} {WC : WalCodec} {MC : MetaCodec} {S : ObjectStore} {SL : StoreLaws}.
Context (policy : WalCorruptPolicy).

(** The documents at the index cursor, from any sound snapshot. *)
Lemma docs_at_index_cursor_reads ns m :
  reads (docs_at_index_cursor policy ns (index_cursor m)) (fun objs docs =>
    forall log, lenZ log < u64_max -> ns_state objs ns m log -> docs_after log (index_cursor m) docs).
Proof.
  unfold docs_at_index_cursor. destruct (Z.eqb_spec (index_cursor m) 0) as [Hz|Hz].
  { apply reads_ret. intros objs log _ _. rewrite Hz. done. }
  eapply reads_bind; [apply read_wal_snapshot_reads|]. intros objs o Ho w Hw.
  assert (exists docs from,
    match o with
    | Some snap => if snap_seq snap <=? index_cursor m
                   then (into_docs snap, sat_add64 (snap_seq snap) 1) else (∅, 1)
    | None => (∅, 1)
    end = (docs, from) /\
    (forall log, lenZ log < u64_max -> ns_state objs ns m log ->
       1 <= from <= index_cursor m + 1 /\ wal_snapshot_seq m < from /\ docs_after log (from - 1) docs))
    as (docs & from & -> & Hfrom).
  { destruct o as [s|].
    - destruct Ho as (b & t & Hb & Hs). destruct (snap_seq s <=? index_cursor m) eqn:E; case_bool.
      + do 2 eexists. split; [done|]. intros log Hl Hst.
        pose proof (nss_snapshot _ _ _ _ Hst) as Hss. unfold snapshot_sound in Hss. rewrite Hb, Hs in Hss.
        destruct Hss as (s' & [=<-] & Hle & Hpos & Hd).
        pose proof (wf_cursors _ (nss_wf _ _ _ _ Hst)). rewrite (nss_commit _ _ _ _ Hst) in *.
        unfold sat_add64. rewrite Z.min_l by lia. rewrite Z.add_simpl_r. split; [lia|]. split; [lia|done].
      + do 2 eexists. split; [done|]. intros log Hl Hst.
        pose proof (nss_snapshot _ _ _ _ Hst) as Hss. unfold snapshot_sound in Hss. rewrite Hb, Hs in Hss.
        destruct Hss as (s' & [=<-] & Hle & _). lia.
    - do 2 eexists. split; [done|]. intros log Hl Hst.
      pose proof (nss_snapshot _ _ _ _ Hst) as Hss. unfold snapshot_sound in Hss. rewrite Ho in Hss.
      pose proof (wf_cursors _ (nss_wf _ _ _ _ Hst)). split; [lia|]. split; [lia|done]. }
  destruct (from <=? index_cursor m) eqn:E; case_bool.
  - eapply st_post_mono; [apply replay_wal_range_reads|]. intros w' [d|] [Ho' Hd]; (split; [done|]); [|done].
    intros log Hl Hst. destruct (Hfrom log Hl Hst) as (Hb1 & Hb2 & Hda). rewrite Hw in Hd.
    pose proof (wf_cursors _ (nss_wf _ _ _ _ Hst)). rewrite (nss_commit _ _ _ _ Hst) in *.
    specialize (Hd ltac:(lia) _ (segments_range_to objs ns m log from (index_cursor m) Hst Hb2 ltac:(lia) ltac:(lia))).
    unfold docs_after in *.
    rewrite <- (take_drop (Z.to_nat (from - 1)) (take (Z.to_nat (index_cursor m)) log)), replay_app.
    rewrite take_take, Nat.min_l by lia. rewrite Hda. exact Hd.
  - split; [done|]. intros log Hl Hst. destruct (Hfrom log Hl Hst) as (Hb1 & Hb2 & Hda).
    by replace (from - 1) with (index_cursor m) in Hda by lia.
Qed.
End CompactionReads.

Section CompactionProtocol.
Context {IO : IterOrder} {WC : WalCodec} {MC : MetaCodec} {ML : MetaCodecLaws}.
Context {S : ObjectStore} {SL : StoreLaws} {LC : LocalCache} {LL : LocalCacheLaws}.
Context (policy : WalCorruptPolicy).
Context (ns : string) (m : NamespaceMeta) (log : list WalEntry).
Hypothesis log_bound : lenZ log < u64_max.
Hypothesis snapshot_exact : forall seq docs b, docs_after log seq docs ->
  snapshot_to_vec (from_docs seq docs) = Some b -> snapshot_from_slice b = Some (from_docs seq docs).

(** The snapshot is recorded and every segment after it is present. *)
Definition compacted (objs : Objects) : Prop :=
  let m' := set_wal_snapshot_seq (index_cursor m) m in
  ns_state objs ns m' log /\ snapshot_current objs ns m'.

Lemma delete_segments_post seqs n (w : World) :
  Forall (fun seq => 1 <= seq <= index_cursor m) seqs -> compacted (objects w) ->
  st_post (delete_segments ns seqs n) w (fun w' r => is_ok r = true /\ compacted (objects w')).
Proof.
  intros Hs. revert n w. induction Hs as [|seq seqs Hseq _ IH]; intros n w Hc; [done|].
  cbn [delete_segments]. apply st_post_bind, st_post_lift.
  pose proof (delete_ok w (wal_key ns seq)) as Hok. pose proof (delete_err w (wal_key ns seq)) as Herr.
  assert (compacted (delete (wal_key ns seq) (objects w))) as Hd
    by (by apply (ns_state_delete_old ns m log log_bound)).
  destruct (s3_delete w (wal_key ns seq)) as [w' [[]|e]]; cbn [fst snd] in *.
  - apply st_post_bind. apply IH. cbn. by rewrite invalidate_objects, (Hok eq_refl).
  - apply IH. destruct (Herr e eq_refl) as [->| ->]; done.
Qed.

Lemma seqs_to_delete_range k : Forall (fun seq => 1 <= seq <= index_cursor m) (wal_seqs_to_delete (index_cursor m) (Z.max k 0)).
Proof.
  unfold wal_seqs_to_delete. destruct (_ <=? _) eqn:E; case_bool; [constructor|].
  apply Forall_forall. intros x Hx%elem_of_range_incl. unfold sat_sub in Hx. lia.
Qed.

Lemma compact_attempt_post last_attempt et (w : World) :
  needs_wal_compaction m = true -> ns_state (objects w) ns m log ->
  st_post (compact_attempt policy ns last_attempt m et) w (fun w' r =>
    match r with
    | Ok (Some _) => compacted (objects w')
    | Ok None => ns_state (objects w') ns m log
    | Err _ => ns_state (objects w') ns m log \/ compacted (objects w')
    end).
Proof.
  intros Hneed Hst. apply st_post_bind.
  eapply st_post_mono; [apply docs_at_index_cursor_reads|].
  intros w1 [docs|e] [Ho1 Hdocs]; [|left; by rewrite Ho1]. rewrite <- Ho1 in Hst.
  rewrite <- Ho1 in Hdocs. specialize (Hdocs log log_bound Hst).
  apply st_post_bind, st_post_result.
  destruct (encode_snapshot _) as [sb|] eqn:Henc; cbn [wal_result]; [|by left].
  apply st_post_bind, st_post_lift.
  pose proof (put_ok w1 (wal_snapshot_key ns) sb PutAlways) as Hok.
  pose proof (put_err w1 (wal_snapshot_key ns) sb PutAlways) as Herr.
  destruct (s3_put w1 (wal_snapshot_key ns) sb PutAlways) as [w2 [setag|e]]; cbn [fst snd] in *.
  2: { apply st_post_bind, st_post_result. left. destruct (Herr e eq_refl) as [->|[_ [t ->]]]; [done|].
       by eapply ns_state_put_snapshot. }
  destruct (Hok setag eq_refl) as [_ (t & _ & Ho2)].
  assert (ns_state (objects w2) ns m log) as Hst2 by (rewrite Ho2; by eapply ns_state_put_snapshot).
  apply st_post_bind, st_post_result. apply st_post_bind. unfold st_post at 1, st_do. cbn [fst snd].
  set (w3 := cache_populate _ _ _ w2). assert (objects w3 = objects w2) as Ho3 by apply populate_objects.
  apply st_post_bind, st_post_result.
  destruct (meta_to_vec _) as [mb|] eqn:Hmb; cbn [ok_or]; [|left; by rewrite Ho3].
  assert (forall tm, compacted (<[meta_key ns := (mb, tm)]> (objects w3))) as Hrec.
  { intros tm. rewrite Ho3. eapply ns_state_record_snapshot; try done. rewrite Ho2. apply lookup_insert_eq. }
  rewrite <- Ho3 in Hst2. clearbody w3.
  apply st_post_bind, st_post_lift.
  pose proof (put_ok w3 (meta_key ns) mb (cas_cond et)) as Hmok.
  pose proof (put_err w3 (meta_key ns) mb (cas_cond et)) as Hmerr.
  pose proof (put_refused w3 (meta_key ns) mb (cas_cond et)) as Hmref.
  destruct (s3_put w3 (meta_key ns) mb (cas_cond et)) as [w4 [mtag|e]]; cbn [fst snd] in *.
  - destruct (Hmok mtag eq_refl) as [_ (tm & _ & Ho4)]. apply st_post_bind.
    eapply st_post_mono.
    + apply delete_segments_post; [apply (seqs_to_delete_range WAL_COMPACT_KEEP)|]. rewrite Ho4. apply Hrec.
    + intros w5 [d|] [Hd Hc]; [done|done].
  - destruct (has_code e "PreconditionFailed" && negb last_attempt) eqn:Hc.
    + apply andb_true_iff in Hc as [Hc _]. unfold st_post. cbn. by rewrite (Hmref e eq_refl Hc).
    + unfold st_post. cbn. destruct (Hmerr e eq_refl) as [->|[_ [tm ->]]]; [by left|right; apply Hrec].
Qed.

Context {HM : NoMisreads}.

Lemma compact_loop_post n (w : World) :
  needs_wal_compaction m = true -> ns_state (objects w) ns m log ->
  st_post (compact_loop policy n ns) w (fun w' r =>
    match r with
    | Ok _ => compacted (objects w')
    | Err _ => ns_state (objects w') ns m log \/ compacted (objects w')
    end).
Proof.
  intros Hneed. revert w. induction n as [|n IH]; intros w Hst; cbn [compact_loop]; [by left|].
  apply st_post_bind. eapply st_post_mono; [by apply (fetch_meta_state ns m log)|].
  intros w1 [[[m0 et]|]|e] [Ho Hm]; cbn.
  - subst m0. rewrite Hneed. cbn. apply st_post_bind.
    eapply st_post_mono; [apply compact_attempt_post; [done|by rewrite Ho]|].
    intros w2 [[d|]|e] Hr; [done|by apply IH|done].
  - rewrite Hm in Hneed. done.
  - left. by rewrite Ho.
Qed.
End CompactionProtocol.

Lemma maybe_compact_keeps {IO : IterOrder} {WC : WalCodec} {MC : MetaCodec}
    {ML : MetaCodecLaws} {S : ObjectStore} {SL : StoreLaws} {LC : LocalCache} {LL : LocalCacheLaws}
    {HM : NoMisreads} policy ns m log w :
  lenZ log < u64_max -> ns_state (objects w) ns m log ->
  (forall seq docs b, docs_after log seq docs -> snapshot_to_vec (from_docs seq docs) = Some b ->
     snapshot_from_slice b = Some (from_docs seq docs)) ->
  let '(w', r) := maybe_compact_wal policy ns w in
  exists m', ns_state (objects w') ns m' log /\
    (m' = m \/ m' = set_wal_snapshot_seq (index_cursor m) m) /\
    (is_ok r = true -> snapshot_current (objects w) ns m -> snapshot_current (objects w') ns m').
Proof.
  intros Hl Hst Hex.
  assert (st_post (maybe_compact_wal policy ns) w (fun w' r =>
    (objects w' = objects w) \/ compacted ns m log (objects w') \/
    (is_ok r = false /\ ns_state (objects w') ns m log))) as Hpost.
  { apply st_post_bind. eapply st_post_mono; [by apply (fetch_meta_state ns m log)|].
    intros w1 [[[m0 et]|]|e] [Ho Hm]; cbn; [|by left..]. subst m0.
    destruct (needs_wal_compaction m) eqn:Hneed; cbn; [|by left].
    eapply st_post_mono; [apply (compact_loop_post policy ns m log Hl Hex META_RETRIES); [done|by rewrite Ho]|].
    intros w2 [d|e] Hr; [auto|]. destruct Hr as [Hr|Hr]; auto. }
  unfold st_post in Hpost. destruct (maybe_compact_wal policy ns w) as [w' r]. cbn in Hpost.
  destruct Hpost as [Ho|[[Hst' Hcur]|[Hr Hst']]].
  - exists m. rewrite Ho. auto.
  - exists (set_wal_snapshot_seq (index_cursor m) m). auto.
  - exists m. split; [done|]. split; [by left|]. by rewrite Hr.
Qed.

(** ** Agreement with the recognised store *)

Definition recognised_cache {S : ObjectStore} (LC : LocalCache) : @LocalCache (recognised S) :=
  @Build_LocalCache (recognised S) (@cache_populate S LC) (@cache_invalidate S LC).

Lemma recognised_cache_laws {S : ObjectStore} {LC : LocalCache} : LocalCacheLaws -> @LocalCacheLaws _ (recognised_cache LC).
Proof. intros [H1 H2]. by split. Qed.

(** The disk cache does not touch the flag. *)
Class CacheMonitor {S : ObjectStore} {MO : Monitor} {LC : LocalCache} : Prop := {
  misled_populate : forall k b t w, misled w = true -> misled (cache_populate k b t w) = true;
  misled_invalidate : forall k w, misled w = true -> misled (cache_invalidate k w) = true
}.

#[export] Instance no_cache_monitor {S : ObjectStore} {MO : Monitor} : @CacheMonitor S MO (no_cache S).
Proof. by split. Qed.

Section CompactionAgree.
Context {IO : IterOrder} {WC : WalCodec} {MC : MetaCodec} {S : ObjectStore} {MO : Monitor} {LC : LocalCache} {CM : CacheMonitor}.
Context (policy : WalCorruptPolicy).

Lemma agree_populate {E} k b t :
  agree (st_do (E := E) (cache_populate k b t)) (st_do (S := recognised S) (@cache_populate _ (recognised_cache LC) k b t)).
Proof. exact (agree_keep (st_do (cache_populate k b t)) (misled_populate k b t)). Qed.

Lemma agree_invalidate {E} k :
  agree (st_do (E := E) (cache_invalidate k)) (st_do (S := recognised S) (@cache_invalidate _ (recognised_cache LC) k)).
Proof. exact (agree_keep (st_do (cache_invalidate k)) (misled_invalidate k)). Qed.
#[local] Hint Resolve agree_populate agree_invalidate : agree.

Lemma agree_delete_segments ns seqs n :
  agree (delete_segments ns seqs n) (delete_segments (LC := recognised_cache LC) ns seqs n).
Proof. revert n. induction seqs as [|q seqs IH]; intros n; cbn [delete_segments]; solve_agree. Qed.
#[local] Hint Resolve agree_delete_segments : agree.

Lemma agree_compact_attempt ns last meta etag :
  agree (compact_attempt policy ns last meta etag) (compact_attempt (LC := recognised_cache LC) policy ns last meta etag).
Proof. unfold compact_attempt. solve_agree. Qed.
#[local] Hint Resolve agree_compact_attempt : agree.

Lemma agree_compact_loop n ns : agree (compact_loop policy n ns) (compact_loop (LC := recognised_cache LC) policy n ns).
Proof. induction n as [|n IH]; cbn [compact_loop]; solve_agree. Qed.
#[local] Hint Resolve agree_compact_loop : agree.

Lemma agree_compact ns : agree (maybe_compact_wal policy ns) (maybe_compact_wal (LC := recognised_cache LC) policy ns).
Proof. unfold maybe_compact_wal. solve_agree. Qed.
End CompactionAgree.

#[export] Hint Resolve agree_populate agree_invalidate agree_compact : agree.

(** ** Theorems *)

(** C4: compaction never changes the committed documents, whatever requests
    fail, unless a read of the existing [meta.json] was answered by an error
    taken for its absence ([misled]); the JSON codec must read the snapshots of
    this log back exactly, which fails for documents with numbers JSON does not
    keep.  Afterwards the store still represents the same committed log; if
    compaction reports success, the metadata and the snapshot object agree if they
    did before, so
    a load returns the same documents as before, and it reads only the
    segments after the snapshot, which are all still there. *)
Theorem compaction_preserves_log {IO : IterOrder} {WC : WalCodec} {MC : MetaCodec}
    {ML : MetaCodecLaws} {S : ObjectStore} {SL : StoreLaws} {MO : Monitor} {LC : LocalCache} {LL : LocalCacheLaws}
    {CM : CacheMonitor} policy ns m log w :
  lenZ log < u64_max -> ns_state (objects w) ns m log ->
  (forall seq docs b, docs_after log seq docs -> snapshot_to_vec (from_docs seq docs) = Some b ->
     snapshot_from_slice b = Some (from_docs seq docs)) ->
  let '(w', r) := maybe_compact_wal policy ns w in
  misled w' = false ->
  exists m', ns_state (objects w') ns m' log /\
    (m' = m \/ m' = set_wal_snapshot_seq (index_cursor m) m) /\
    (is_ok r = true -> snapshot_current (objects w) ns m -> snapshot_current (objects w') ns m').
Proof.
  intros Hl Hst Hex. refine (agree_run _ _ w _ (agree_compact policy ns) _).
  exact (maybe_compact_keeps (S := recognised S) (LL := recognised_cache_laws LL) policy ns m log w Hl Hst Hex).
Qed.

(** the segments compaction deletes are exactly the ones the snapshot makes
    redundant, less the [keep_k] most recent: never one that a load from the
    snapshot reads. *)
Theorem wal_seqs_to_delete_spec cursor keep_k commit seq :
  0 <= keep_k -> 0 <= cursor <= commit -> commit < u64_max ->
  (seq ∈ wal_seqs_to_delete cursor keep_k <-> 1 <= seq <= cursor - keep_k) /\
  (forall from, wal_replay_from cursor commit = Some from ->
     seq ∈ wal_seqs_to_delete cursor keep_k -> seq < from).
Proof.
  intros Hk Hc Hu.
  assert (seq ∈ wal_seqs_to_delete cursor keep_k <-> 1 <= seq <= cursor - keep_k) as Hin.
  { unfold wal_seqs_to_delete. destruct (_ <=? _) eqn:E; case_bool.
    - rewrite elem_of_nil. lia.
    - rewrite elem_of_range_incl. unfold sat_sub. lia. }
  split; [done|]. intros from. unfold wal_replay_from. destruct (_ =? _) eqn:E; case_bool; [done|].
  destruct (_ <? _) eqn:E2; case_bool; [done|]. intros [=<-]. rewrite Hin. unfold sat_add64. lia.
Qed.

Lemma wal_seqs_to_delete_spec_witness :
  (7 ∈ wal_seqs_to_delete 12 3 <-> 1 <= 7 <= 12 - 3) /\
  (forall from, wal_replay_from 12 14 = Some from -> 7 ∈ wal_seqs_to_delete 12 3 -> 7 < from).
Proof. apply wal_seqs_to_delete_spec; vm_compute; repeat split; discriminate. Defined.

(** ** A namespace that needs compaction *)

Definition compact_meta (commit snap : Z) : NamespaceMeta :=
  mkMeta commit 0 [] 0 [] 0 [] [] "" 0 commit snap (VObject []) CosineDistance ANN_VERSION_V2.

Definition compact_codec : WalCodec :=
  table_codec [put_entry "a"] [ {[ "tier" := VString "free" ]} ]
    [mkWalSnapshot 11 [tier_doc "a" "free"]; mkWalSnapshot 12 [tier_doc "a" "free"]].
Definition compact_metas : MetaCodec :=
  meta_table [compact_meta 11 0; compact_meta 11 11; compact_meta 12 11; compact_meta 12 12].

Definition segment_bytes : bytes := [1; 65; 72; 0; 0; 0].
Definition segments (seqs : list Z) : Objects :=
  list_to_map ((fun seq => (wal_key "ns" seq, (segment_bytes, "w"))) <$> seqs).

(** Eleven committed and indexed batches, never compacted. *)
Definition full_log : list WalEntry := replicate 11 (put_entry "a").
Definition full_objects : Objects :=
  <[meta_key "ns" := ([65], "m")]> (segments (range_incl 1 11)).

Lemma full_objects_state :
  @ns_state canonical_order compact_codec compact_metas full_objects "ns" (compact_meta 11 0) full_log.
Proof.
  split.
  - right. exists [65], "m". split; vm_compute; reflexivity.
  - split; cbn; try done; try lia; try constructor.
  - done.
  - done.
  - unfold snapshot_sound. vm_compute. reflexivity.
  - intros seq e Hs He. cbn in Hs. apply lookup_replicate in He as [-> Hi].
    exists segment_bytes, "w". split; [|intros tag; vm_compute; reflexivity].
    assert (seq ∈ range_incl 1 11) as Hin by (apply elem_of_range_incl; lia).
    vm_compute in Hin. repeat (apply elem_of_cons in Hin as [->|Hin]; [vm_compute; reflexivity|]).
    by apply elem_of_nil in Hin.
  - apply Forall_replicate. vm_compute. reflexivity.
Qed.

Lemma compaction_preserves_log_witness :
  let '(w', r) := @maybe_compact_wal canonical_order compact_codec compact_metas calm_store
                    (no_cache calm_store) PolicyFail "ns" (mkMem full_objects 1 []) in
  exists m', @ns_state canonical_order compact_codec compact_metas (mem_objects w') "ns" m' full_log /\
    (m' = compact_meta 11 0 \/ m' = set_wal_snapshot_seq 11 (compact_meta 11 0)) /\
    (is_ok r = true -> @snapshot_current compact_codec full_objects "ns" (compact_meta 11 0) ->
     @snapshot_current compact_codec (mem_objects w') "ns" m').
Proof.
  pose proof (@compaction_preserves_log canonical_order compact_codec compact_metas (meta_table_laws _)
    calm_store calm_store_laws calm_monitor (no_cache calm_store) (no_cache_laws calm_store) no_cache_monitor
    PolicyFail "ns" (compact_meta 11 0) full_log (mkMem full_objects 1 [])) as H.
  destruct (maybe_compact_wal _ _ _) as [w' r]. apply H.
  - reflexivity.
  - exact full_objects_state.
  - intros seq docs b _. apply table_roundtrip.
  - reflexivity.
Defined.

(** Twelve batches, compacted at the eleventh: the state a first compaction
    and one more indexed write leave. *)
Definition tail_objects : Objects :=
  <[meta_key "ns" := ([67], "m")]> (<[wal_snapshot_key "ns" := ([65], "s")]> (segments [9; 10; 11; 12])).

(** an interrupted second compaction makes the namespace unloadable.  The
    snapshot object is overwritten before the metadata is advanced; if that
    metadata write fails, the snapshot no longer matches the recorded sequence
    number, a load ignores it, and then misses the segments the first
    compaction deleted, although the documents were loadable before. *)
Theorem interrupted_compaction_unloadable :
  let load w := (@load_docs_at_wal_commit canonical_order compact_codec mem_store PolicyFail "ns"
                   (compact_meta 12 11) w).2 in
  let timeout := mkS3Error false (Some "Timeout") "timeout" in
  let '(w', r) := @maybe_compact_wal canonical_order compact_codec compact_metas mem_store
    (no_cache mem_store) PolicyFail "ns"
    (mkMem tail_objects 1 [NoFault; NoFault; NoFault; NoFault; NoFault; FailLost timeout]) in
  is_ok (load (mkMem tail_objects 1 [])) = true /\
  r = Err (PutMeta timeout) /\
  load w' = Err (ObjectNotFound (wal_key "ns" 1)).
Proof. vm_compute. done. Qed.
