(* ===== verification/FilterIndex.v ===== *)
(** * The attribute filter index ([index/filter.rs])

    An inverted index from (field, value key) to document ids, its incremental
    maintenance, and the evaluation of a filter on it.  The reference is
    [eval_filter] on the documents themselves. *)

From Stdlib Require Import ZArith Lia Bool Ascii SpecFloat.
From stdpp Require Import base gmap strings list sets.
From S2P Require Import Prelude F64 Json Models Schema Filter.

(** [{n}] and [str::parse] of an [f64]. *)
Class F64Text : Type := {
  f64_display : f64 -> string;
  f64_parse : string -> option f64
}.

(** The standard library documents that parsing the displayed form of a finite
    number gives back that number. *)
Class F64TextLaws {T : F64Text} : Prop := {
  f64_text_roundtrip : forall x, f64_is_finite x = true -> f64_parse (f64_display x) = Some x
}.

Record FilterSegment : Type := mkFilterSegment {
  fs_segment_id : Z;
  all_doc_ids : gset string;
  postings : gmap string (gmap string (gset string))
}.

Definition filter_fields_from_schema (schema : Value) : list string :=
  match as_object schema with
  | None => []
  | Some obj => (filter (fun kv => field_filterable kv.2 = true) obj).*1
  end.

Section FilterIndex.
Context {IO : IterOrder} {T : F64Text}.

(** [None] is the [unreachable!] panic on [$ref_new]. *)
Definition value_key (v : FilterValue) : option string :=
  match v with
  | FString s => Some (String.append "s:" s)
  | FBool b => Some (String.append "b:" (if b then "true" else "false"))
  | FNumber n => Some (String.append "n:" (f64_display n))
  | FNull => Some "null"
  | FRefNew _ => None
  end.

Definition parse_bool (s : string) : option bool :=
  if String.eqb s "true" then Some true else if String.eqb s "false" then Some false else None.

Definition parse_value_key (vk : string) : option FilterValue :=
  match strip_prefix "s:" vk with
  | Some s => Some (FString s)
  | None =>
      match strip_prefix "b:" vk with
      | Some b => FBool <$> parse_bool b
      | None =>
          match strip_prefix "n:" vk with
          | Some n => FNumber <$> f64_parse n
          | None => None
          end
      end
  end.

Definition cmp_values (lhs rhs : FilterValue) (op : CmpOp) : bool :=
  let ord :=
    match lhs, rhs with
    | FNumber a, FNumber b => f64_partial_cmp a b
    | FString a, FString b => Some (str_cmp a b)
    | FBool a, FBool b => Some (bool_cmp a b)
    | _, _ => None
    end in
  op_accepts op ord.

(** ** Maintenance *)

(** [postings.entry(field).or_default().entry(vk).or_default().insert(id)]. *)
Definition add_posting (id field vk : string) (p : gmap string (gmap string (gset string)))
  : gmap string (gmap string (gset string)) :=
  let m := default ∅ (p !! field) in
  let s := default ∅ (m !! vk) in
  <[field := <[vk := {[id]} ∪ s]> m]> p.

(** The field's key in the index, when the document has an indexable value;
    attributes never yield [$ref_new], so the key exists. *)
Definition attr_key (doc : Document) (field : string) : option string :=
  v ← doc_attributes doc !! field;
  fv ← attr_to_filter_value v;
  value_key fv.

Definition add_document (seg : FilterSegment) (id : string) (doc : Document) (fields : list string)
  : FilterSegment :=
  let indexed_fields := match fields with [] => iter_keys (doc_attributes doc) | _ => fields end in
  mkFilterSegment (fs_segment_id seg) ({[id]} ∪ all_doc_ids seg)
    (fold_left (fun p field =>
       match attr_key doc field with
       | Some vk => add_posting id field vk p
       | None => p
       end) indexed_fields (postings seg)).

Definition nonempty_set (s : gset string) : Prop := s <> ∅.
Definition nonempty_map (m : gmap string (gset string)) : Prop := m <> ∅.

Definition remove_from_field (id : string) (m : gmap string (gset string)) : gmap string (gset string) :=
  filter (fun kv => nonempty_set kv.2) ((fun s => s ∖ {[id]}) <$> m).

Definition remove_document (seg : FilterSegment) (id : string) : FilterSegment :=
  if decide (id ∈ all_doc_ids seg) then
    mkFilterSegment (fs_segment_id seg) (all_doc_ids seg ∖ {[id]})
      (filter (fun kv => nonempty_map kv.2) (remove_from_field id <$> postings seg))
  else seg.

Definition filter_build (segment_id : Z) (schema : Value) (docs : list (string * Document))
  : FilterSegment :=
  let fields := filter_fields_from_schema schema in
  fold_left (fun seg d => add_document seg d.1 d.2 fields) docs (mkFilterSegment segment_id ∅ ∅).

Definition filter_apply_delta (seg : FilterSegment) (schema : Value)
    (upserts : list (string * Document)) (deletes : list string) : FilterSegment :=
  let fields := filter_fields_from_schema schema in
  let seg := fold_left remove_document deletes seg in
  fold_left (fun seg d => add_document (remove_document seg d.1) d.1 d.2 fields) upserts seg.

(** ** Queries

    [None] when evaluation reaches the panic. *)

Definition match_cmp (seg : FilterSegment) (field : string) (op : CmpOp) (value : FilterValue)
  : option (gset string) :=
  let field_map := postings seg !! field in
  match op with
  | CEq =>
      match field_map with
      | None => Some ∅
      | Some m => vk ← value_key value; Some (default ∅ (m !! vk))
      end
  | CNe =>
      match field_map with
      | None => Some (all_doc_ids seg)
      | Some m => vk ← value_key value; Some (all_doc_ids seg ∖ default ∅ (m !! vk))
      end
  | _ =>
      match field_map with
      | None => Some ∅
      | Some m =>
          Some (fold_left (fun out kv =>
            match parse_value_key kv.1 with
            | Some lhs => if cmp_values lhs value op then out ∪ kv.2 else out
            | None => out
            end) (iter_map m) ∅)
      end
  end.

Section Combine.
Context (f : FilterExpr -> option (gset string)).

(** [it.fold(first, |acc, set| acc.intersection(&set)...)]. *)
Fixpoint intersect_all (acc : gset string) (l : list FilterExpr) : option (gset string) :=
  match l with
  | [] => Some acc
  | s :: l' => set ← f s; intersect_all (acc ∩ set) l'
  end.

(** [subs.iter().flat_map(...).collect()]. *)
Fixpoint union_all (acc : gset string) (l : list FilterExpr) : option (gset string) :=
  match l with
  | [] => Some acc
  | s :: l' => set ← f s; union_all (acc ∪ set) l'
  end.
End Combine.

Fixpoint matching_doc_ids (seg : FilterSegment) (expr : FilterExpr) : option (gset string) :=
  match expr with
  | FAnd [] => Some (all_doc_ids seg)
  | FAnd (s :: rest) =>
      first ← matching_doc_ids seg s;
      intersect_all (matching_doc_ids seg) first rest
  | FOr subs => union_all (matching_doc_ids seg) ∅ subs
  | FCmp field op value => match_cmp seg field op value
  end.
End FilterIndex.

(** ** What a segment represents *)

Definition posting (p : gmap string (gmap string (gset string))) (field vk : string) : gset string :=
  default ∅ (p !! field ≫= fun m => m !! vk).

(** An empty field list indexes every attribute. *)
Definition field_indexed (fields : list string) (field : string) : Prop :=
  fields = [] \/ field ∈ fields.

Section Represents.
Context {IO : IterOrder} {T : F64Text}.

Record represents (seg : FilterSegment) (fields : list string) (docs : gmap string Document) : Prop := {
  rep_ids : all_doc_ids seg = dom docs;
  rep_postings : forall field vk id, id ∈ posting (postings seg) field vk <->
    exists doc, docs !! id = Some doc /\ field_indexed fields field /\ attr_key doc field = Some vk
}.

Lemma posting_add id field vk p field' vk' :
  posting (add_posting id field vk p) field' vk' =
  if decide (field' = field /\ vk' = vk) then {[id]} ∪ posting p field vk else posting p field' vk'.
Proof.
  unfold posting, add_posting. destruct (decide (field' = field)) as [->|Hf].
  - rewrite lookup_insert_eq. cbn. destruct (decide (vk' = vk)) as [->|Hv].
    + rewrite decide_True by done. rewrite lookup_insert_eq. cbn. by destruct (p !! field).
    + rewrite decide_False by tauto. rewrite lookup_insert_ne by done. by destruct (p !! field).
  - rewrite decide_False by tauto. by rewrite lookup_insert_ne.
Qed.

Lemma add_fields_posting id doc fs p field vk id' :
  id' ∈ posting (fold_left (fun p f =>
    match attr_key doc f with Some k => add_posting id f k p | None => p end) fs p) field vk <->
  id' ∈ posting p field vk \/ (id' = id /\ field ∈ fs /\ attr_key doc field = Some vk).
Proof.
  revert p. induction fs as [|f fs IH]; intros p; cbn [fold_left].
  - split; [by left|]. intros [?|(_ & ?%not_elem_of_nil & _)]; done.
  - rewrite IH. destruct (attr_key doc f) as [k|] eqn:Hk.
    + rewrite posting_add. destruct (decide (field = f /\ vk = k)) as [[-> ->]|Hne].
      * rewrite elem_of_union, elem_of_singleton, elem_of_cons. naive_solver.
      * rewrite elem_of_cons. naive_solver.
    + rewrite elem_of_cons. naive_solver.
Qed.

Lemma add_document_posting seg id doc fields field vk id' :
  id' ∈ posting (postings (add_document seg id doc fields)) field vk <->
  id' ∈ posting (postings seg) field vk \/
  (id' = id /\ field_indexed fields field /\ attr_key doc field = Some vk).
Proof.
  unfold add_document. cbn [postings]. rewrite add_fields_posting. unfold field_indexed.
  destruct fields as [|f fields]; [|naive_solver].
  enough (attr_key doc field = Some vk -> field ∈ iter_keys (doc_attributes doc)) by naive_solver.
  unfold attr_key. rewrite elem_of_iter_keys. destruct (doc_attributes doc !! field); [by eexists|done].
Qed.

Lemma remove_posting id (p : gmap string (gmap string (gset string))) field vk :
  posting (filter (fun kv => nonempty_map kv.2) (remove_from_field id <$> p)) field vk
  = posting p field vk ∖ {[id]}.
Proof.
  unfold posting. rewrite map_lookup_filter, lookup_fmap.
  destruct (p !! field) as [m|]; cbn; [|set_solver].
  assert (remove_from_field id m !! vk =
    (s ← m !! vk; guard (nonempty_set (s ∖ {[id]}));; Some (s ∖ {[id]}))) as Hr.
  { unfold remove_from_field. rewrite map_lookup_filter, lookup_fmap. by destruct (m !! vk). }
  assert (default ∅ (remove_from_field id m !! vk) = default ∅ (m !! vk) ∖ {[id]}) as Hd.
  { rewrite Hr. destruct (m !! vk) as [s|]; cbn; [|set_solver].
    case_guard as Hg; cbn; [done|]. unfold nonempty_set in Hg. set_solver. }
  rewrite <- Hd. case_guard as Hg; cbn; [done|].
  unfold nonempty_map in Hg. assert (remove_from_field id m = ∅) as -> by (by apply dec_stable).
  by rewrite lookup_empty.
Qed.

Lemma remove_document_represents seg fields docs id :
  represents seg fields docs -> represents (remove_document seg id) fields (delete id docs).
Proof.
  intros [Hids Hp]. unfold remove_document. destruct (decide (id ∈ all_doc_ids seg)) as [Hin|Hni].
  - split; cbn.
    + rewrite dom_delete_L. by rewrite Hids.
    + intros field vk id'. rewrite remove_posting, elem_of_difference, elem_of_singleton, Hp.
      split.
      * intros [(doc & Hd & Hrest) Hne]. exists doc. by rewrite lookup_delete_ne.
      * intros (doc & Hd & Hrest). apply lookup_delete_Some in Hd as [Hne Hd].
        split; [by exists doc|done].
  - rewrite delete_id by (apply not_elem_of_dom; by rewrite <- Hids). done.
Qed.

Lemma add_document_represents seg fields docs id doc :
  docs !! id = None -> represents seg fields docs ->
  represents (add_document seg id doc fields) fields (<[id := doc]> docs).
Proof.
  intros Hfresh [Hids Hp]. split.
  - cbn. by rewrite dom_insert_L, Hids.
  - intros field vk id'. rewrite add_document_posting, Hp. destruct (decide (id' = id)) as [->|Hne].
    + rewrite lookup_insert_eq. rewrite Hfresh. naive_solver.
    + rewrite lookup_insert_ne by done. naive_solver.
Qed.

Lemma fold_remove_represents seg fields docs ids :
  represents seg fields docs ->
  represents (fold_left remove_document ids seg) fields (fold_left (fun m id => delete id m) ids docs).
Proof.
  revert seg docs. induction ids as [|id ids IH]; intros seg docs Hr; [done|]. cbn.
  apply IH. by apply remove_document_represents.
Qed.

Lemma fold_upsert_represents seg fields docs ups :
  represents seg fields docs ->
  represents
    (fold_left (fun seg d => add_document (remove_document seg d.1) d.1 d.2 fields) ups seg) fields
    (fold_left (fun m d => <[d.1 := d.2]> m) ups docs).
Proof.
  revert seg docs. induction ups as [|[id doc] ups IH]; intros seg docs Hr; [done|]. cbn.
  apply IH. rewrite <- insert_delete_eq. apply add_document_represents.
  - apply lookup_delete_eq.
  - by apply remove_document_represents.
Qed.

Lemma empty_represents segment_id fields : represents (mkFilterSegment segment_id ∅ ∅) fields ∅.
Proof.
  split; [done|]. intros field vk id. unfold posting. cbn. rewrite lookup_empty. cbn.
  split; [set_solver|]. by intros (doc & ?%lookup_empty_Some & _).
Qed.

Lemma fold_add_represents seg fields docs l :
  represents seg fields docs -> NoDup l.*1 -> (forall id, id ∈ l.*1 -> docs !! id = None) ->
  represents (fold_left (fun seg d => add_document seg d.1 d.2 fields) l seg) fields
    (fold_left (fun m d => <[d.1 := d.2]> m) l docs).
Proof.
  revert seg docs. induction l as [|[id doc] l IH]; intros seg docs Hr Hnd Hfresh; [done|].
  cbn in Hnd. apply NoDup_cons in Hnd as [Hni Hnd]. cbn [fold_left fst snd]. apply IH; [|done|].
  - apply add_document_represents; [|done]. apply Hfresh. set_solver.
  - intros id' Hin. rewrite lookup_insert_ne by set_solver. apply Hfresh. set_solver.
Qed.

(** ** Keys identify values *)

Context {TL : F64TextLaws}.

(** A finite number other than negative zero. *)
Definition plain_number (n : f64) : bool :=
  f64_is_finite n && negb (bool_decide (n = f64_neg f64_zero)).

Definition plain_value (v : FilterValue) : bool :=
  match v with
  | FNumber n => plain_number n
  | FString _ | FBool _ => true
  | FNull | FRefNew _ => false
  end.

Lemma strip_prefix_app pre t : strip_prefix pre (String.append pre t) = Some t.
Proof.
  induction pre as [|c pre IH]; [done|].
  change (String.append (String c pre) t) with (String c (String.append pre t)). cbn.
  by rewrite Ascii.eqb_refl.
Qed.

Lemma parse_value_key_inv v k :
  plain_value v = true -> value_key v = Some k -> parse_value_key k = Some v.
Proof.
  destruct v as [t|n|b| |f]; try done; cbn [plain_value value_key]; intros Hp [=<-].
  - unfold parse_value_key. by rewrite strip_prefix_app.
  - unfold plain_number in Hp. case_bool.
    change (parse_value_key (String.append "n:" (f64_display n))) with (FNumber <$> f64_parse (f64_display n)).
    by rewrite f64_text_roundtrip.
  - by destruct b.
Qed.

Lemma value_key_inj a b :
  plain_value a = true -> plain_value b = true -> value_key a = value_key b -> a = b.
Proof.
  intros Ha Hb E. destruct (value_key a) as [k|] eqn:Ka; [|by destruct a].
  apply (parse_value_key_inv a k) in Ha; [|done]. apply (parse_value_key_inv b k) in Hb; [|done]. congruence.
Qed.

Lemma plain_number_eqb a b :
  plain_number a = true -> plain_number b = true -> f64_eqb a b = true <-> a = b.
Proof.
  intros Ha Hb. unfold plain_number in *. case_bool.
  rewrite f64_eqb_cmp, f64_partial_cmp_key by auto with puffer. split.
  - destruct (key_compare _ _) eqn:E; try done. apply key_compare_eq in E. intros _.
    destruct a as [[]|[]| |[] ma ea], b as [[]|[]| |[] mb eb]; try done; cbn in E; simplify_eq; try done;
      f_equal; lia.
  - intros ->. destruct (f64_key b) as [[x y] z]. cbn. by rewrite !Z.compare_refl.
Qed.

Lemma fv_eqb_key a b :
  plain_value a = true -> plain_value b = true -> fv_eqb a b = true <-> value_key a = value_key b.
Proof.
  intros Ha Hb. assert (fv_eqb a b = true <-> a = b) as ->.
  { destruct a, b; try done; cbn [fv_eqb plain_value] in *.
    - rewrite String.eqb_eq. naive_solver.
    - rewrite plain_number_eqb by done. naive_solver.
    - rewrite eqb_true_iff. naive_solver. }
  split; [by intros ->|]. by apply value_key_inj.
Qed.

(** ** Queries *)

(** The values a segment indexes are plain: JSON numbers are finite, and none
    is negative zero. *)
Definition docs_plain (docs : gmap string Document) : Prop :=
  forall id doc field v fv, docs !! id = Some doc -> doc_attributes doc !! field = Some v ->
    attr_to_filter_value v = Some fv -> plain_value fv = true.

Definition number_and_bool (a b : FilterValue) : bool :=
  match a, b with FNumber _, FBool _ | FBool _, FNumber _ => true | _, _ => false end.

(** A comparison on which index and documents agree: an indexed attribute,
    a plain value for [Eq] and [Ne], and for a range test no mix of numbers and
    booleans. *)
Definition cmp_indexable (fields : list string) (docs : gmap string Document)
    (field : string) (op : CmpOp) (value : FilterValue) : Prop :=
  field <> "id" /\ field_indexed fields field /\
  match op with
  | CEq | CNe => plain_value value = true
  | _ => forall id doc l, docs !! id = Some doc -> doc_field_value doc field = Some l ->
      number_and_bool l value = false
  end.

Fixpoint indexable (fields : list string) (docs : gmap string Document) (e : FilterExpr) : Prop :=
  match e with
  | FAnd subs | FOr subs => fold_right (fun s P => indexable fields docs s /\ P) True subs
  | FCmp field op value => cmp_indexable fields docs field op value
  end.

Lemma indexable_subs fields docs subs :
  fold_right (fun s P => indexable fields docs s /\ P) True subs <-> Forall (indexable fields docs) subs.
Proof.
  induction subs as [|s subs IH]; cbn; [by split; [constructor|]|].
  rewrite Forall_cons, IH. done.
Qed.

Lemma attr_key_value doc field :
  field <> "id" -> attr_key doc field = doc_field_value doc field ≫= value_key.
Proof.
  intros Hid. unfold attr_key, doc_field_value. apply String.eqb_neq in Hid. rewrite Hid.
  by destruct (doc_attributes doc !! field).
Qed.

Lemma doc_value_plain docs id doc field l :
  docs_plain docs -> field <> "id" -> docs !! id = Some doc -> doc_field_value doc field = Some l ->
  plain_value l = true.
Proof.
  intros Hp Hid Hd Hl. unfold doc_field_value in Hl. apply String.eqb_neq in Hid. rewrite Hid in Hl.
  destruct (doc_attributes doc !! field) as [v|] eqn:Hv; [|done]. by eapply Hp.
Qed.

Lemma eval_eq_key docs id doc field value :
  docs_plain docs -> field <> "id" -> docs !! id = Some doc -> plain_value value = true ->
  eval_cmp doc field CEq value None false = true <-> attr_key doc field = value_key value.
Proof.
  intros Hp Hid Hd Hv. rewrite attr_key_value by done. unfold eval_cmp.
  assert (resolve_rhs value None false = Some value) as -> by (by destruct value).
  destruct (doc_field_value doc field) as [l|] eqn:Hl; cbn.
  - pose proof (doc_value_plain docs id doc field l Hp Hid Hd Hl) as Hpl.
    rewrite <- (fv_eqb_key l value) by done. by destruct value.
  - by destruct value.
Qed.

Lemma eval_ne_eq doc field value :
  plain_value value = true ->
  eval_cmp doc field CNe value None false = negb (eval_cmp doc field CEq value None false).
Proof.
  intros Hv. unfold eval_cmp. assert (resolve_rhs value None false = Some value) as -> by (by destruct value).
  destruct (doc_field_value doc field); by destruct value.
Qed.

(** Matching a filter on the index returns exactly the documents it selects. *)
Definition matches (docs : gmap string Document) (e : FilterExpr) (ids : gset string) : Prop :=
  forall id, id ∈ ids <-> exists doc, docs !! id = Some doc /\ eval_filter e doc = true.

Lemma posting_Some (p : gmap string (gmap string (gset string))) field m vk :
  p !! field = Some m -> default ∅ (m !! vk) = posting p field vk.
Proof. intros Hm. unfold posting. by rewrite Hm. Qed.

Lemma posting_None (p : gmap string (gmap string (gset string))) field vk :
  p !! field = None -> posting p field vk = ∅.
Proof. intros Hm. unfold posting. by rewrite Hm. Qed.

Lemma match_cmp_eq seg fields docs field value :
  represents seg fields docs -> docs_plain docs -> cmp_indexable fields docs field CEq value ->
  exists ids, match_cmp seg field CEq value = Some ids /\ matches docs (FCmp field CEq value) ids.
Proof.
  intros [Hids Hp] Hpl (Hid & Hf & Hv). assert (exists k, value_key value = Some k) as [k Hk]
    by (destruct value; try done; by eexists).
  assert (matches docs (FCmp field CEq value) (posting (postings seg) field k)) as Hm.
  { intros id. rewrite Hp. split.
    - intros (doc & Hd & _ & Ha). exists doc. split; [done|].
      apply (eval_eq_key docs id doc field value Hpl Hid Hd Hv). by rewrite Ha.
    - intros (doc & Hd & He). exists doc. split; [done|]. split; [done|].
      apply (eval_eq_key docs id doc field value Hpl Hid Hd Hv) in He. by rewrite He. }
  unfold match_cmp. destruct (postings seg !! field) as [m|] eqn:Hfm.
  - rewrite Hk. cbn. eexists. split; [done|]. by rewrite (posting_Some (postings seg) field m k Hfm).
  - exists ∅. split; [done|]. by rewrite <- (posting_None (postings seg) field k Hfm).
Qed.

Lemma match_cmp_ne seg fields docs field value :
  represents seg fields docs -> docs_plain docs -> cmp_indexable fields docs field CNe value ->
  exists ids, match_cmp seg field CNe value = Some ids /\ matches docs (FCmp field CNe value) ids.
Proof.
  intros Hr Hpl Hc. destruct (match_cmp_eq seg fields docs field value Hr Hpl Hc) as (eqs & Heq & Hm).
  exists (all_doc_ids seg ∖ eqs). destruct Hc as (_ & _ & Hv). split.
  - unfold match_cmp in *. destruct (postings seg !! field) as [m|].
    + destruct (value_key value); [|done]. cbn in *. by injection Heq as <-.
    + injection Heq as <-. by rewrite difference_empty_L.
  - intros id. rewrite elem_of_difference, (rep_ids _ _ _ Hr), elem_of_dom. specialize (Hm id).
    unfold eval_filter in *. cbn [eval_filter_with_new] in *. split.
    + intros [[doc Hd] Hn]. exists doc. split; [done|]. rewrite eval_ne_eq by done.
      apply negb_true_iff. destruct (eval_cmp doc field CEq value None false) eqn:He; [|done].
      destruct Hn. apply Hm. by exists doc.
    + intros (doc & Hd & He). split; [by eexists|]. rewrite Hm. intros (doc' & Hd' & He').
      assert (doc' = doc) as -> by congruence. rewrite eval_ne_eq, He' in He by done. done.
Qed.

Lemma range_fold_elem (value : FilterValue) (op : CmpOp) kvs out id :
  id ∈ fold_left (fun (out : gset string) (kv : string * gset string) =>
    match parse_value_key kv.1 with
    | Some lhs => if cmp_values lhs value op then out ∪ kv.2 else out
    | None => out
    end) kvs out <->
  id ∈ out \/ exists vk ids lhs, (vk, ids) ∈ kvs /\ id ∈ ids /\ parse_value_key vk = Some lhs /\
    cmp_values lhs value op = true.
Proof.
  revert out. induction kvs as [|[vk ids] kvs IH]; intros out; cbn [fold_left fst snd].
  - split; [by left|]. intros [?|(? & ? & ? & ?%not_elem_of_nil & _)]; done.
  - rewrite IH. set (hit := exists lhs, parse_value_key vk = Some lhs /\ cmp_values lhs value op = true).
    assert (id ∈ match parse_value_key vk with
                 | Some lhs => if cmp_values lhs value op then out ∪ ids else out
                 | None => out
                 end <-> id ∈ out \/ (id ∈ ids /\ hit)) as ->.
    { destruct (parse_value_key vk) as [lhs|].
      - destruct (cmp_values lhs value op) eqn:Hc.
        + assert hit by (by exists lhs). rewrite elem_of_union. tauto.
        + assert (~ hit) by (intros (l & [=<-] & Hl); congruence). tauto.
      - assert (~ hit) by (by intros (l & ? & _)). tauto. }
    unfold hit. clear hit IH. split.
    + intros [[?|(Hin & lhs & Hl)]|(k & s & lhs & Hin & Hrest)]; [by left|right..].
      * exists vk, ids, lhs. split; [by left|done].
      * exists k, s, lhs. split; [by right|done].
    + intros [?|(k & s & lhs & [[=-> ->]|Hin]%elem_of_cons & Hid & Hl)]; [by left; left|..].
      * left; right. eauto.
      * right. exists k, s, lhs. done.
Qed.

Lemma compare_values_cmp l value op :
  op <> CEq -> op <> CNe -> number_and_bool l value = false ->
  cmp_values l value op = op_accepts op (compare_values l value).
Proof. intros _ _. unfold cmp_values. by destruct l, value. Qed.

Lemma match_cmp_range seg fields docs field op value :
  op <> CEq -> op <> CNe ->
  represents seg fields docs -> docs_plain docs -> cmp_indexable fields docs field op value ->
  exists ids, match_cmp seg field op value = Some ids /\ matches docs (FCmp field op value) ids.
Proof.
  intros H1 H2 [Hids Hp] Hpl (Hid & Hf & Hmix).
  assert (forall id doc l, docs !! id = Some doc -> doc_field_value doc field = Some l ->
            number_and_bool l value = false) as Hmx by (by destruct op).
  set (out := match postings seg !! field with
    | None => ∅
    | Some m => fold_left (fun (out : gset string) (kv : string * gset string) =>
            match parse_value_key kv.1 with
            | Some lhs => if cmp_values lhs value op then out ∪ kv.2 else out
            | None => out
            end) (iter_map m) ∅ end).
  exists out. split; [unfold match_cmp, out; destruct op; try done; by destruct (postings seg !! field)|].
  intros id.
  assert (id ∈ out <-> exists vk lhs, id ∈ posting (postings seg) field vk /\
    parse_value_key vk = Some lhs /\ cmp_values lhs value op = true) as ->.
  { unfold out, posting. destruct (postings seg !! field) as [m|]; cbn [mbind option_bind default].
    - rewrite range_fold_elem. setoid_rewrite iter_map_elem. split.
      + intros [?|(vk & ids & lhs & Hm & Hin & Hrest)]; [set_solver|]. exists vk, lhs. by rewrite Hm.
      + intros (vk & lhs & Hin & Hrest). right. destruct (m !! vk) as [ids|] eqn:Hm; cbn in Hin; [|set_solver].
        by exists vk, ids, lhs.
    - set_solver. }
  setoid_rewrite Hp. unfold eval_filter. cbn [eval_filter_with_new].
  assert (forall doc, eval_cmp doc field op value None false =
    match doc_field_value doc field, resolve_rhs value None false with
    | Some l, Some r => op_accepts op (compare_values l r) | _, _ => false end) as Hev
    by (intros doc; unfold eval_cmp; by destruct op).
  setoid_rewrite Hev. setoid_rewrite attr_key_value; [|done]. split.
  - intros (vk & lhs & (doc & Hd & _ & Hk) & Hpv & Hc). exists doc. split; [done|].
    destruct (doc_field_value doc field) as [l|] eqn:Hl; cbn in Hk; [|done].
    pose proof (doc_value_plain docs id doc field l Hpl Hid Hd Hl) as Hlp.
    rewrite (parse_value_key_inv l vk Hlp Hk) in Hpv. injection Hpv as <-.
    rewrite compare_values_cmp in Hc by eauto. destruct value; try done. by destruct l, op.
  - intros (doc & Hd & He). destruct (doc_field_value doc field) as [l|] eqn:Hl; [|done].
    pose proof (doc_value_plain docs id doc field l Hpl Hid Hd Hl) as Hlp.
    assert (exists k, value_key l = Some k) as [k Hk] by (destruct l; try done; by eexists).
    exists k, l. split; [|split].
    + exists doc. by rewrite Hl.
    + by apply parse_value_key_inv.
    + rewrite compare_values_cmp by eauto. by destruct value.
Qed.

Lemma match_cmp_matches seg fields docs field op value :
  represents seg fields docs -> docs_plain docs -> cmp_indexable fields docs field op value ->
  exists ids, match_cmp seg field op value = Some ids /\ matches docs (FCmp field op value) ids.
Proof.
  intros Hr Hp Hc. destruct (decide (op = CEq)) as [->|H1]; [by eapply match_cmp_eq|].
  destruct (decide (op = CNe)) as [->|H2]; [by eapply match_cmp_ne|]. by eapply match_cmp_range.
Qed.

Lemma Forall_impl2 {A} (P Q : A -> Prop) (l : list A) :
  Forall (fun x => P x -> Q x) l -> Forall P l -> Forall Q l.
Proof. intros H. induction H; inversion 1; constructor; auto. Qed.

(** The test of one id against the documents. *)
Definition selects (docs : gmap string Document) (e : FilterExpr) (id : string) : bool :=
  match docs !! id with Some doc => eval_filter e doc | None => false end.

Lemma matches_selects docs e ids :
  matches docs e ids <-> forall id, id ∈ ids <-> selects docs e id = true.
Proof.
  unfold matches, selects. split; intros Hm id; rewrite Hm; destruct (docs !! id) as [doc|]; naive_solver.
Qed.

Lemma intersect_all_elem f docs l acc :
  Forall (fun s => exists set, f s = Some set /\ matches docs s set) l ->
  exists out, intersect_all f acc l = Some out /\
    forall id, id ∈ out <-> id ∈ acc /\ forallb (fun s => selects docs s id) l = true.
Proof.
  intros Hl. revert acc. induction Hl as [|s l (set & Hs & Hm) _ IH]; intros acc; cbn.
  - exists acc. split; [done|]. tauto.
  - rewrite Hs. cbn. destruct (IH (acc ∩ set)) as (out & Ho & Hin). exists out. split; [done|].
    intros id. rewrite matches_selects in Hm. rewrite Hin, elem_of_intersection, Hm, andb_true_iff. tauto.
Qed.

Lemma union_all_elem f docs l acc :
  Forall (fun s => exists set, f s = Some set /\ matches docs s set) l ->
  exists out, union_all f acc l = Some out /\
    forall id, id ∈ out <-> id ∈ acc \/ existsb (fun s => selects docs s id) l = true.
Proof.
  intros Hl. revert acc. induction Hl as [|s l (set & Hs & Hm) _ IH]; intros acc; cbn.
  - exists acc. split; [done|]. intros id. split; [by left|]. by intros [?|?].
  - rewrite Hs. cbn. destruct (IH (acc ∪ set)) as (out & Ho & Hin). exists out. split; [done|].
    intros id. rewrite matches_selects in Hm. rewrite Hin, elem_of_union, Hm, orb_true_iff. tauto.
Qed.

Lemma selects_and docs s subs id :
  selects docs (FAnd (s :: subs)) id = forallb (fun s => selects docs s id) (s :: subs).
Proof. unfold selects. destruct (docs !! id); done. Qed.

Lemma selects_or docs subs id :
  selects docs (FOr subs) id = existsb (fun s => selects docs s id) subs.
Proof.
  unfold selects. destruct (docs !! id); [done|]. induction subs; done.
Qed.

Lemma matching_represents seg fields docs e :
  represents seg fields docs -> docs_plain docs -> indexable fields docs e ->
  exists ids, matching_doc_ids seg e = Some ids /\ matches docs e ids.
Proof.
  intros Hr Hp. induction e as [subs IH|subs IH|field op value] using FilterExpr_nested_ind; intros Hi.
  - cbn in Hi. apply indexable_subs in Hi. pose proof (Forall_impl2 _ _ _ IH Hi) as Hsubs.
    destruct subs as [|s subs].
    { exists (all_doc_ids seg). split; [done|]. intros id. rewrite (rep_ids _ _ _ Hr), elem_of_dom.
      split; [intros [doc Hd]; by exists doc|intros (doc & Hd & _); by eexists]. }
    inversion Hsubs as [|? ? (first & Hfirst & Hm) Hrest]; subst.
    destruct (intersect_all_elem (matching_doc_ids seg) docs subs first Hrest) as (out & Ho & Hin).
    exists out. cbn. rewrite Hfirst. split; [done|]. rewrite matches_selects in Hm |- *.
    intros id. rewrite Hin, Hm, selects_and. cbn. by rewrite andb_true_iff.
  - cbn in Hi. apply indexable_subs in Hi. pose proof (Forall_impl2 _ _ _ IH Hi) as Hsubs.
    destruct (union_all_elem (matching_doc_ids seg) docs subs ∅ Hsubs) as (out & Ho & Hin).
    exists out. split; [done|]. rewrite matches_selects. intros id. rewrite Hin, selects_or. set_solver.
  - by eapply match_cmp_matches.
Qed.
End Represents.

Lemma fold_insert_list_to_map (l : list (string * Document)) :
  NoDup l.*1 -> fold_left (fun m d => <[d.1 := d.2]> m) l (∅ : gmap string Document) = list_to_map l.
Proof.
  intros Hnd. enough (forall m : gmap string Document,
    fold_left (fun m d => <[d.1 := d.2]> m) l m = list_to_map l ∪ m) as ->
    by apply (right_id_L ∅ (∪)).
  induction l as [|[k d] l IH]; intros m; cbn; [by rewrite (left_id_L ∅ (∪))|].
  cbn in Hnd. apply NoDup_cons in Hnd as [Hni Hnd]. rewrite IH by done.
  rewrite <- insert_union_l, <- insert_union_r; [done|]. by apply not_elem_of_list_to_map_1.
Qed.

(** ** A concrete number text for the witnesses *)

Fixpoint bits (p : positive) : string :=
  match p with
  | xH => EmptyString
  | xO p' => String "0" (bits p')
  | xI p' => String "1" (bits p')
  end.

Fixpoint unbits (s : string) : positive :=
  match s with
  | EmptyString => xH
  | String c s' => if Ascii.eqb c "1" then xI (unbits s') else xO (unbits s')
  end.

Lemma unbits_bits p : unbits (bits p) = p.
Proof. induction p as [p IH|p IH|]; cbn; by rewrite ?IH. Qed.

Definition f64_to_sum (x : f64) : (bool + bool) + option (bool * positive * Z) :=
  match x with
  | SpecFloat.S754_zero s => inl (inl s)
  | SpecFloat.S754_infinity s => inl (inr s)
  | SpecFloat.S754_nan => inr None
  | SpecFloat.S754_finite s m e => inr (Some (s, m, e))
  end.

Definition f64_of_sum (x : (bool + bool) + option (bool * positive * Z)) : f64 :=
  match x with
  | inl (inl s) => SpecFloat.S754_zero s
  | inl (inr s) => SpecFloat.S754_infinity s
  | inr None => SpecFloat.S754_nan
  | inr (Some (s, m, e)) => SpecFloat.S754_finite s m e
  end.

Definition sample_text : F64Text := {|
  f64_display := fun x => bits (encode (f64_to_sum x));
  f64_parse := fun s => f64_of_sum <$> decode (unbits s)
|}.

Lemma sample_text_laws : @F64TextLaws sample_text.
Proof.
  split. intros x _. cbn. rewrite unbits_bits, decode_encode. cbn. by destruct x.
Qed.

Definition sample_schema : Value := VObject [("n", VString "int"); ("tier", VString "string")].
Definition sample_doc : Document :=
  mkDocument "a" {[ "tier" := VString "pro"; "n" := VNumber (PosInt 3) ]}.
Definition sample_filter : FilterExpr :=
  FAnd [FCmp "tier" CEq (FString "pro"); FCmp "n" CGt (FNumber (f64_of_Z 2))].
Definition sample_segment : FilterSegment :=
  @filter_build canonical_order sample_text 1 sample_schema [("a", sample_doc)].

(** ** Theorems *)

(** building the index from documents and updating it by deletes and
    upserts keep it exact: the segment's ids are the documents, and an id is
    listed under a field and value key exactly when that document has an
    indexed attribute with that value; nothing stale survives an update. *)
Theorem filter_index_maintained {IO : IterOrder} {T : F64Text} segment_id schema docs0 ups dels :
  NoDup docs0.*1 ->
  let fields := filter_fields_from_schema schema in
  let built := filter_build segment_id schema docs0 in
  let docs := list_to_map docs0 : gmap string Document in
  represents built fields docs /\
  represents (filter_apply_delta built schema ups dels) fields
    (fold_left (fun m d => <[d.1 := d.2]> m) ups (fold_left (fun m id => delete id m) dels docs)).
Proof.
  intros Hnd fields built docs.
  assert (represents built fields docs) as Hb.
  { assert (docs = fold_left (fun m d => <[d.1 := d.2]> m) docs0 (∅ : gmap string Document)) as ->.
    { symmetry. apply fold_insert_list_to_map. done. }
    apply fold_add_represents; [apply empty_represents|done|]. intros id _. apply lookup_empty. }
  split; [done|]. apply fold_upsert_represents, fold_remove_represents, Hb.
Qed.

Lemma filter_index_maintained_witness :
  let fields := filter_fields_from_schema sample_schema in
  let docs := list_to_map [("a", sample_doc)] : gmap string Document in
  @represents sample_text sample_segment fields docs /\
  @represents sample_text
    (@filter_apply_delta canonical_order sample_text sample_segment sample_schema [("b", sample_doc)] ["a"]) fields
    (fold_left (fun m d => <[d.1 := d.2]> m) [("b", sample_doc)] (fold_left (fun m id => delete id m) ["a"] docs)).
Proof.
  apply (@filter_index_maintained canonical_order sample_text 1 sample_schema [("a", sample_doc)]).
  apply NoDup_singleton.
Defined.

(** C24: the index refines the filter language: on a segment that represents the
    documents, for a filter over indexed attributes with plain values, the
    index returns exactly the ids of the documents the filter accepts, for
    every nesting of [And] and [Or]; it never reaches the panic. *)
Theorem filter_index_exact {IO : IterOrder} {T : F64Text} {TL : F64TextLaws} seg fields docs e :
  represents seg fields docs -> docs_plain docs -> indexable fields docs e ->
  exists ids, matching_doc_ids seg e = Some ids /\
    forall id, id ∈ ids <-> exists doc, docs !! id = Some doc /\ eval_filter e doc = true.
Proof. apply matching_represents. Qed.

Lemma sample_docs_plain : docs_plain {[ "a" := sample_doc ]}.
Proof.
  intros id doc field v fv Hd Hv Hf. apply lookup_singleton_Some in Hd as [<- <-].
  cbn in Hv. apply lookup_insert_Some in Hv as [[<- <-]|[_ Hv]]; [by injection Hf as <-|].
  apply lookup_singleton_Some in Hv as [<- <-]. injection Hf as <-. vm_compute. reflexivity.
Qed.

Lemma filter_index_exact_witness :
  exists ids, @matching_doc_ids canonical_order sample_text sample_segment sample_filter = Some ids /\
    forall id, id ∈ ids <-> exists doc, ({[ "a" := sample_doc ]} : gmap string Document) !! id = Some doc /\
      eval_filter sample_filter doc = true.
Proof.
  apply (@filter_index_exact canonical_order sample_text sample_text_laws sample_segment ["n"; "tier"]).
  - apply add_document_represents; [reflexivity|apply empty_represents].
  - exact sample_docs_plain.
  - split; [|split; [|exact I]].
    + split; [discriminate|]. split; [right; set_solver|reflexivity].
    + split; [discriminate|]. split; [right; set_solver|].
      intros id doc l Hd Hl. apply lookup_singleton_Some in Hd as [<- <-].
      vm_compute in Hl. injection Hl as <-. reflexivity.
Defined.

(** outside that fragment index and documents disagree.  A test for null
    finds the documents without the field when evaluated on documents and
    nothing on the index; a test on [id] reads the document id on documents and
    an attribute named id on the index; negative zero equals zero on documents
    only; and a [$ref_new] in a query, false on documents, stops the process. *)
Theorem filter_index_divergence :
  let doc := mkDocument "x" {[ "id" := VString "y"; "n" := VNumber (Float (f64_neg f64_zero)) ]} in
  let seg := @filter_build canonical_order sample_text 1 VNull [("x", doc)] in
  let index e := @matching_doc_ids canonical_order sample_text seg e in
  (eval_filter (FCmp "missing" CEq FNull) doc = true /\ index (FCmp "missing" CEq FNull) = Some ∅) /\
  (eval_filter (FCmp "id" CEq (FString "x")) doc = true /\ index (FCmp "id" CEq (FString "x")) = Some ∅) /\
  (eval_filter (FCmp "n" CEq (FNumber f64_zero)) doc = true /\
   index (FCmp "n" CEq (FNumber f64_zero)) = Some ∅) /\
  (eval_filter (FCmp "n" CEq (FRefNew "n")) doc = false /\ index (FCmp "n" CEq (FRefNew "n")) = None).
Proof. vm_compute. done. Qed.
