(* ===== verification/View.v ===== *)
(** * The in-process view of a namespace ([view.rs])

    A query process keeps the documents of a namespace in memory and advances
    them by the WAL segments committed since. *)

From Stdlib Require Import ZArith Lia Bool.
From stdpp Require Import base gmap strings list.
From S2P Require Import Prelude F64 Json Models Schema Meta Keys Wal WalReplay ObjectStore Namespace Monitor Durability.

Record NamespaceView : Type := mkView {
  v_docs : Docs;
  v_meta : NamespaceMeta;
  v_meta_etag : option string;
  v_last_applied_wal_seq : Z;
  v_doc_last_wal_seq : gmap string Z
}.

Definition view_empty : NamespaceView := mkView ∅ default_meta None 0 ∅.

Definition docs_for_query (v : NamespaceView) (skip_wal_tail : bool) : Docs :=
  if negb skip_wal_tail || (wal_commit_seq (v_meta v) <=? index_cursor (v_meta v)) then v_docs v
  else filter (fun kv => default 0 (v_doc_last_wal_seq v !! kv.1) <= index_cursor (v_meta v)) (v_docs v).

Section View.
Context {IO : IterOrder} {WC : WalCodec} {MC : MetaCodec} {S : ObjectStore}.
Context (policy : WalCorruptPolicy).

Definition update_doc_wal_seq_map (map : gmap string Z) (seq : Z) (entry : WalEntry) : gmap string Z :=
  let map := fold_left (fun m id => delete id m) (deletes entry) map in
  let map :=
    match into_documents entry with
    | Ok docs => fold_left (fun m d => <[doc_id d := seq]> m) docs map
    | Err _ => map
    end in
  fold_left (fun m p =>
    match m !! wp_id p with Some _ => <[wp_id p := seq]> m | None => m end) (patches entry) map.

(** On an error the documents keep what was applied, and the sequence number
    and metadata are those of before. *)
Definition apply_committed (v : NamespaceView) (seq : Z) (entry : WalEntry)
  : NamespaceView * result WalError unit :=
  let seqs := update_doc_wal_seq_map (v_doc_last_wal_seq v) seq entry in
  let '(docs, r) := apply_entry (v_docs v) entry in
  match r with
  | Err e => (mkView docs (v_meta v) (v_meta_etag v) (v_last_applied_wal_seq v) seqs, Err e)
  | Ok _ =>
      let meta := if wal_commit_seq (v_meta v) <? seq then set_wal_commit_seq seq (v_meta v) else v_meta v in
      (mkView docs meta (v_meta_etag v) seq seqs, Ok tt)
  end.

Fixpoint build_seq_map (ns : string) (map : gmap string Z) (seqs : list Z) : St NsError (gmap string Z) :=
  match seqs with
  | [] => st_ret map
  | seq :: rest =>
      do? entry <- read_wal_entry ns seq;
      build_seq_map ns (update_doc_wal_seq_map map seq entry) rest
  end.

Definition build_doc_last_wal_seq (ns : string) (meta : NamespaceMeta) (seed_docs : option Docs)
  : St NsError (gmap string Z) :=
  let map :=
    match seed_docs with
    | Some docs =>
        if 0 <? wal_snapshot_seq meta then (fun _ => wal_snapshot_seq meta) <$> docs else ∅
    | None => ∅
    end in
  let from := if 0 <? wal_snapshot_seq meta then sat_add64 (wal_snapshot_seq meta) 1 else 1 in
  build_seq_map ns map (range_incl from (wal_commit_seq meta)).

(** The incremental loop of [catch_up]; the view is mutated entry by entry. *)
Fixpoint catch_up_loop (ns : string) (v : NamespaceView) (seqs : list Z) (w : World)
  : World * (NamespaceView * result NsError unit) :=
  match seqs with
  | [] => (w, (v, Ok tt))
  | seq :: rest =>
      match read_wal_entry ns seq w with
      | (w', Err e) => (w', (v, Err e))
      | (w', Ok entry) =>
          let seqmap := update_doc_wal_seq_map (v_doc_last_wal_seq v) seq entry in
          let '(docs, r) := apply_entry (v_docs v) entry in
          let v' := mkView docs (v_meta v) (v_meta_etag v) (v_last_applied_wal_seq v) seqmap in
          match r with
          | Err e => (w', (v', Err (NsWal e)))
          | Ok _ => catch_up_loop ns v' rest w'
          end
      end
  end.

Definition catch_up (ns : string) (v : NamespaceView) (w : World)
  : World * (NamespaceView * result NsError bool) :=
  match fetch_meta ns w with
  | (w, Err e) => (w, (v, Err e))
  | (w, Ok None) => (w, (v, Ok false))
  | (w, Ok (Some (meta, etag))) =>
      if wal_commit_seq meta <=? v_last_applied_wal_seq v then
        (w, (mkView (v_docs v) meta etag (v_last_applied_wal_seq v) (v_doc_last_wal_seq v), Ok false))
      else if v_last_applied_wal_seq v <? wal_snapshot_seq meta then
        match load_docs_at_wal_commit policy ns meta w with
        | (w, Err e) => (w, (v, Err e))
        | (w, Ok (docs, last)) =>
            let v := mkView docs (v_meta v) (v_meta_etag v) (v_last_applied_wal_seq v) (v_doc_last_wal_seq v) in
            match build_doc_last_wal_seq ns meta (Some docs) w with
            | (w, Err e) => (w, (v, Err e))
            | (w, Ok seqmap) => (w, (mkView docs meta etag last seqmap, Ok true))
            end
        end
      else
        let from := sat_add64 (v_last_applied_wal_seq v) 1 in
        match catch_up_loop ns v (range_incl from (wal_commit_seq meta)) w with
        | (w, (v, Err e)) => (w, (v, Err e))
        | (w, (v, Ok _)) =>
            (w, (mkView (v_docs v) meta etag (wal_commit_seq meta) (v_doc_last_wal_seq v), Ok true))
        end
  end.

Definition view_load (ns : string) : St NsError NamespaceView :=
  do? cur <- fetch_meta ns;
  match cur with
  | None => st_ret view_empty
  | Some (meta, etag) =>
      do? out <- load_docs_at_wal_commit policy ns meta;
      let '(docs, last) := out in
      do? seqmap <- build_doc_last_wal_seq ns meta (Some docs);
      st_ret (mkView docs meta etag last seqmap)
  end.
End View.

(** ** Invariant *)

Section ViewTheorems.
Context {IO : IterOrder} {WC : WalCodec} {MC : MetaCodec} {S : ObjectStore} {SL : StoreLaws}.
Context {HM : NoMisreads} (policy : WalCorruptPolicy).

(** Replaying the entries after the last one it counts as applied brings the
    view to a true state.  An interrupted catch-up leaves documents ahead of the
    counter, possibly with only some of the later entries re-applied, which
    this invariant allows. *)
Definition view_of (log : list WalEntry) (v : NamespaceView) : Prop :=
  exists k docs, 0 <= v_last_applied_wal_seq v <= k /\ k <= lenZ log /\ docs_after log k docs /\
    replay (v_docs v) (drop (Z.to_nat (v_last_applied_wal_seq v)) (take (Z.to_nat k) log)) = Ok docs.

Lemma read_wal_entry_reads ns seq :
  reads (read_wal_entry ns seq) (fun objs e => forall e', segment_at objs ns seq e' -> e = e').
Proof.
  eapply reads_bind; [apply read_wal_segment_reads|]. intros objs b [t Hb] w Hw.
  split; [done|]. unfold st_result. cbn. destruct (decode_segment b (Some seq)) as [e|] eqn:Hd; cbn; [|done].
  intros e' (b' & t' & Hb' & Hd'). rewrite Hb in Hb'. injection Hb' as <- <-. rewrite Hd' in Hd.
  by injection Hd as <-.
Qed.

Lemma catch_up_loop_spec ns v es seqs w w' v' r :
  Forall2 (segment_at (objects w) ns) seqs es ->
  catch_up_loop ns v seqs w = (w', (v', r)) ->
  objects w' = objects w /\ v_last_applied_wal_seq v' = v_last_applied_wal_seq v /\
  (Forall (fun e => entry_ok e = true) es -> exists es1 es2, es = es1 ++ es2 /\
    replay (v_docs v) es1 = Ok (v_docs v') /\ (r = Ok tt -> es2 = [])).
Proof.
  intros Hes. revert v w Hes. induction seqs as [|seq seqs IH] in es |- *; intros v w Hes; cbn.
  - inversion Hes; subst. intros [=<- <- <-]. split; [done|]. split; [done|]. intros _. by exists [], [].
  - inversion Hes as [|? e ? es' He Hes']; subst. pose proof (read_wal_entry_reads ns seq w) as Hr.
    unfold st_post in Hr. destruct (read_wal_entry ns seq w) as [w1 [e1|err]]; cbn in Hr.
    + destruct Hr as [Ho1 Heq]. rewrite (Heq e He). clear Heq e1.
      destruct (apply_entry (v_docs v) e) as [docs [[]|err]] eqn:Ha.
      * intros Hl. apply (IH es') in Hl; [|by rewrite Ho1]. cbn in Hl. destruct Hl as (Ho & Hlast & Hrep).
        split; [by rewrite Ho|]. split; [done|]. intros Hok. inversion Hok as [|? ? H1 H2]; subst.
        destruct (Hrep H2) as (es1 & es2 & -> & Hr1 & Hr2). exists (e :: es1), es2.
        split; [done|]. cbn. rewrite Ha. done.
      * intros [=<- <- <-]. split; [done|]. split; [done|]. intros Hok.
        inversion Hok as [|? ? H1 H2]; subst. unfold entry_ok in H1. case_bool.
        unfold apply_entry in Ha. destruct (into_documents e); [|done].
        destruct (patch_documents e); [|done]. by injection Ha.
    + destruct Hr as [Ho1 _]. intros [=<- <- <-]. split; [done|]. split; [done|].
      intros _. exists [], (e :: es'). done.
Qed.

(** A view brought up to the whole log. *)
Lemma view_of_extend log v docs :
  view_of log v -> replay ∅ log = Ok docs ->
  replay (v_docs v) (drop (Z.to_nat (v_last_applied_wal_seq v)) log) = Ok docs.
Proof.
  intros (k & dk & Hl & Hk & Hd & Hr) Hlog.
  assert (drop (Z.to_nat (v_last_applied_wal_seq v)) log =
    drop (Z.to_nat (v_last_applied_wal_seq v)) (take (Z.to_nat k) log) ++ drop (Z.to_nat k) log) as ->.
  { rewrite <- (take_drop (Z.to_nat k) log) at 1. rewrite drop_app_le; [done|].
    rewrite length_take. unfold lenZ in *. lia. }
  rewrite replay_app, Hr. cbn. rewrite <- (take_drop (Z.to_nat k) log), replay_app in Hlog.
  unfold docs_after in Hd. rewrite Hd in Hlog. exact Hlog.
Qed.

(** Re-applying a prefix of the outstanding entries keeps the invariant. *)
Lemma view_of_partial log v v' docs es1 es2 :
  view_of log v -> replay ∅ log = Ok docs ->
  v_last_applied_wal_seq v' = v_last_applied_wal_seq v ->
  drop (Z.to_nat (v_last_applied_wal_seq v)) log = es1 ++ es2 ->
  replay (v_docs v) es1 = Ok (v_docs v') ->
  view_of log v' /\ (es2 = [] -> v_docs v' = docs).
Proof.
  intros Hv Hlog Hlast Hes Hr. pose proof (view_of_extend log v docs Hv Hlog) as Hx.
  destruct Hv as (k & dk & Hl & Hk & _). rewrite Hes, replay_app, Hr in Hx. cbn in Hx. split.
  - exists (lenZ log), docs. rewrite Hlast. split; [lia|]. split; [lia|].
    split; [by apply docs_after_full|].
    rewrite take_ge by (unfold lenZ; lia). rewrite Hes, replay_app, (replay_self _ _ _ Hr). exact Hx.
  - intros ->. by injection Hx.
Qed.

Lemma view_of_full log v docs :
  replay ∅ log = Ok docs -> v_docs v = docs -> 0 <= v_last_applied_wal_seq v <= lenZ log -> view_of log v.
Proof.
  intros Hlog Hd Hl. exists (lenZ log), docs. split; [lia|]. split; [lia|].
  split; [by apply docs_after_full|]. rewrite Hd, take_ge by (unfold lenZ; lia).
  rewrite <- (take_drop (Z.to_nat (v_last_applied_wal_seq v)) log), replay_app in Hlog.
  destruct (replay ∅ (take _ log)) as [d|] eqn:E; [|done]. by eapply replay_self.
Qed.

Lemma build_doc_last_wal_seq_reads ns m seed :
  reads (build_doc_last_wal_seq ns m seed) (fun _ _ => True).
Proof.
  unfold build_doc_last_wal_seq. generalize (range_incl
    (if 0 <? wal_snapshot_seq m then sat_add64 (wal_snapshot_seq m) 1 else 1) (wal_commit_seq m)).
  intros seqs. match goal with |- reads (build_seq_map ns ?m0 _) _ => generalize m0 end.
  induction seqs as [|seq seqs IH]; intros mp; [by apply reads_ret|].
  eapply reads_bind; [apply read_wal_entry_reads|]. intros objs e _ w Hw.
  eapply st_post_mono; [apply IH|]. intros w' [r|] [Ho _]; done.
Qed.

(** One catch-up, whatever requests fail. *)
Lemma catch_up_post ns m log v w :
  lenZ log < u64_max -> ns_state (objects w) ns m log -> snapshot_current (objects w) ns m ->
  view_of log v ->
  let '(w', (v', r)) := catch_up policy ns v w in
  objects w' = objects w /\ view_of log v' /\
  (is_ok r = true -> replay ∅ log = Ok (v_docs v') /\
     (is_Some (objects w !! meta_key ns) -> v_meta v' = m /\ lenZ log <= v_last_applied_wal_seq v')).
Proof.
  intros Hl Hst Hcur Hv. destruct (replay_total ∅ log (nss_entries _ _ _ _ Hst)) as [docs Hdocs].
  pose proof (wf_cursors _ (nss_wf _ _ _ _ Hst)) as Hwf. pose proof (nss_commit _ _ _ _ Hst) as Hcom.
  unfold catch_up. pose proof (fetch_meta_state ns m log w Hst) as Hf. unfold st_post in Hf.
  pose proof (get_meta_reads ns w) as Hg. unfold st_post in Hg.
  pose proof (view_of_extend log v docs Hv Hdocs) as Hext.
  destruct (fetch_meta ns w) as [w1 [[[m0 et]|]|e]]; cbn in Hf, Hg; destruct Hf as [Ho Hm]; [| |done].
  2: { split; [done|]. split; [done|]. destruct Hg as [_ Hg]. intros _. rewrite Hg.
       split; [|by intros [? ?]]. rewrite Hm in Hcom. cbn in Hcom.
       destruct log as [|e0 log]; [|unfold lenZ in Hcom; cbn in Hcom; lia].
       rewrite drop_nil in Hext. injection Hext as <-. done. }
  subst m0. rewrite Hcom.
  destruct (lenZ log <=? v_last_applied_wal_seq v) eqn:E1; case_bool.
  { split; [done|]. split; [done|]. intros _. cbn. rewrite drop_ge in Hext by (unfold lenZ in *; lia).
    injection Hext as ->. split; [done|]. intros _. split; [done|lia]. }
  assert (0 <= v_last_applied_wal_seq v) as Hpos by (destruct Hv as (k & dk & Hk & _); lia).
  destruct (v_last_applied_wal_seq v <? wal_snapshot_seq m) eqn:E2; case_bool.
  - pose proof (load_reads policy ns m w1) as Hload. unfold st_post in Hload.
    destruct (load_docs_at_wal_commit policy ns m w1) as [w2 [[d last]|e]]; cbn in Hload;
      destruct Hload as [Ho2 Hld]; rewrite Ho in *; [|done].
    destruct (Hld log Hl Hst Hcur) as [Hd Hlast]. rewrite Hdocs in Hd. injection Hd as <-.
    pose proof (build_doc_last_wal_seq_reads ns m (Some docs) w2) as Hb. unfold st_post in Hb.
    destruct (build_doc_last_wal_seq ns m (Some docs) w2) as [w3 [sm|e]]; cbn in Hb; destruct Hb as [Ho3 _];
      (split; [by rewrite Ho3|]); cbn; (split; [apply (view_of_full log _ docs); cbn; try done; lia|]); [|done].
    intros _. split; [done|]. intros _. split; [done|lia].
  - assert (sat_add64 (v_last_applied_wal_seq v) 1 = v_last_applied_wal_seq v + 1) as ->
      by (unfold sat_add64; lia).
    destruct (catch_up_loop ns v _ w1) as [w2 [v2 r]] eqn:Hloop.
    pose proof (segments_range _ _ _ _ (v_last_applied_wal_seq v + 1) Hst ltac:(lia) ltac:(lia)) as Hseg.
    replace (v_last_applied_wal_seq v + 1 - 1) with (v_last_applied_wal_seq v) in Hseg by lia.
    rewrite <- Ho in Hseg. destruct (catch_up_loop_spec _ _ _ _ _ _ _ _ Hseg Hloop) as (Ho2 & Hlast2 & Hrep).
    destruct Hrep as (es1 & es2 & Hes & Hr1 & Hr2); [by apply Forall_drop, (nss_entries _ _ _ _ Hst)|].
    destruct (view_of_partial log v v2 docs es1 es2 Hv Hdocs Hlast2 Hes Hr1) as [Hv2 Hfull].
    destruct r as [[]|e].
    + split; [by rewrite Ho2|]. cbn. rewrite (Hfull (Hr2 eq_refl)).
      split; [apply (view_of_full log _ docs); [done|done|]; cbn; unfold lenZ; lia|].
      intros _. split; [done|]. intros _. split; [done|lia].
    + split; [by rewrite Ho2|]. split; done.
Qed.
End ViewTheorems.

(** ** Agreement with the recognised store *)

Section ViewAgree.
Context {IO : IterOrder} {WC : WalCodec} {MC : MetaCodec} {S : ObjectStore} {MO : Monitor}.
Context (policy : WalCorruptPolicy).

Lemma agree_build_seq_map ns m seqs : agree (build_seq_map ns m seqs) (build_seq_map (S := recognised S) ns m seqs).
Proof. revert m. induction seqs as [|q seqs IH]; intros m; cbn [build_seq_map]; solve_agree. Qed.
#[local] Hint Resolve agree_build_seq_map : agree.

Lemma agree_build_doc_seq ns meta seed :
  agree (build_doc_last_wal_seq ns meta seed) (build_doc_last_wal_seq (S := recognised S) ns meta seed).
Proof. unfold build_doc_last_wal_seq. solve_agree. Qed.
#[local] Hint Resolve agree_build_doc_seq : agree.

Lemma agree_catch_up_loop ns v seqs : agree (catch_up_loop ns v seqs) (catch_up_loop (S := recognised S) ns v seqs).
Proof.
  revert v. induction seqs as [|q seqs IH]; intros v; cbn [catch_up_loop]; [solve_agree|].
  apply agree_seq; solve_agree.
Qed.
#[local] Hint Resolve agree_catch_up_loop : agree.

Lemma agree_catch_up ns v : agree (catch_up policy ns v) (catch_up (S := recognised S) policy ns v).
Proof. unfold catch_up. repeat (solve_agree; try apply agree_seq). Qed.

Lemma agree_view_load ns : agree (view_load policy ns) (view_load (S := recognised S) policy ns).
Proof. unfold view_load. solve_agree. Qed.
End ViewAgree.

#[export] Hint Resolve agree_build_doc_seq agree_catch_up agree_view_load : agree.

(** ** Theorems *)

(** C27: catching up is exact and restartable.  From any view of the log
    ([view_of]: replaying the entries it does not count as applied gives a true
    state, which also holds of what a failed catch-up left behind, but not after
    [apply_committed] skipped a batch, see [apply_committed_gap]), and with the
    snapshot object in step with the metadata, [catch_up] changes no object; if
    it succeeds the view holds exactly the replay of the committed log (the same
    documents as a cold load), and if it fails it is still a view of the log,
    from which a later catch-up recovers.  Requests may fail, unless a failed
    read of the existing [meta.json] was taken for its absence ([misled]). *)
Theorem catch_up_exact {IO : IterOrder} {WC : WalCodec} {MC : MetaCodec} {S : ObjectStore}
    {SL : StoreLaws} {MO : Monitor} policy ns m log v w :
  lenZ log < u64_max -> ns_state (objects w) ns m log -> snapshot_current (objects w) ns m ->
  view_of log v ->
  let '(w', (v', r)) := catch_up policy ns v w in
  misled w' = false ->
  objects w' = objects w /\ view_of log v' /\
  (is_ok r = true -> replay ∅ log = Ok (v_docs v')).
Proof.
  intros Hl Hst Hcur Hv. pose proof (agree_catch_up policy ns v w) as [_ E].
  pose proof (catch_up_post (S := recognised S) policy ns m log v w Hl Hst Hcur Hv) as H.
  destruct (catch_up policy ns v w) as [w' [v' r]]. intros Hw'. rewrite <- (E Hw') in H.
  destruct H as (H1 & H2 & H3). split_and!; [done..|]. intros Hr. by destruct (H3 Hr).
Qed.

Lemma catch_up_exact_witness :
  let '(w', (v', r)) := @catch_up canonical_order demo_codec demo_metas calm_store PolicyFail "ns"
                          view_empty demo_world in
  @objects calm_store w' = mem_objects demo_world /\
  @view_of canonical_order demo_codec [put_entry "a"] v' /\
  (is_ok r = true -> @replay canonical_order demo_codec ∅ [put_entry "a"] = Ok (v_docs v')).
Proof.
  pose proof (@catch_up_exact canonical_order demo_codec demo_metas calm_store calm_store_laws
    calm_monitor PolicyFail "ns" (meta_at 1) [put_entry "a"] view_empty demo_world) as H.
  destruct (@catch_up canonical_order demo_codec demo_metas calm_store _ _ _ _) as [w' [v' r]]. apply H; [..|reflexivity].
  - reflexivity.
  - exact demo_world_state.
  - left. reflexivity.
  - exists 0, ∅. vm_compute. repeat split; discriminate.
Defined.

Lemma drop_cons_lookup {A} (l : list A) n x : l !! n = Some x -> drop n l = x :: drop (Datatypes.S n) l.
Proof. intros Hx. by rewrite (drop_S l x n). Qed.

(** applying the next committed batch to a view, as a writer does after its
    commit, keeps it a view of the log and advances it by one; and applying the
    batch a view already ends with, as every waiter of a group commit does,
    leaves its documents unchanged. *)
Theorem apply_committed_next {IO : IterOrder} {WC : WalCodec} log v seq entry :
  1 <= seq <= lenZ log -> log !! Z.to_nat (seq - 1) = Some entry -> entry_ok entry = true ->
  (v_last_applied_wal_seq v = seq - 1 -> view_of log v ->
     let '(v', r) := apply_committed v seq entry in
     r = Ok tt /\ view_of log v' /\ v_last_applied_wal_seq v' = seq) /\
  (docs_after log seq (v_docs v) ->
     let '(v', r) := apply_committed v seq entry in r = Ok tt /\ v_docs v' = v_docs v).
Proof.
  intros Hseq He Hok. unfold entry_ok in Hok. case_bool.
  destruct (into_documents entry) as [us|] eqn:Hu; [|done].
  destruct (patch_documents entry) as [ps|] eqn:Hp; [|done].
  set (d' := apply_patches ps (apply_upserts us (apply_deletes (deletes entry) (v_docs v)))).
  assert (apply_entry (v_docs v) entry = (d', Ok tt)) as Ha by (apply apply_entry_ok; eauto).
  assert (replay (v_docs v) [entry] = Ok d') as Hone by (cbn; by rewrite Ha).
  unfold apply_committed. rewrite Ha. split.
  - intros Hlast (k & dk & Hk & Hkl & Hd & Hr). split; [done|]. split; [|done]. rewrite Hlast in *.
    destruct (decide (k = seq - 1)) as [->|Hne].
    + rewrite drop_ge in Hr by (rewrite length_take; lia). injection Hr as Hr.
      exists seq, d'. cbn. split; [lia|]. split; [lia|]. split.
      * unfold docs_after in *. replace (Z.to_nat seq) with (Datatypes.S (Z.to_nat (seq - 1))) by lia.
        rewrite (take_S_r _ _ entry) by done. rewrite replay_app, Hd. cbn [result_bind]. by rewrite <- Hr.
      * by rewrite drop_ge by (rewrite length_take; lia).
    + exists k, dk. cbn. split; [lia|]. split; [done|]. split; [done|].
      rewrite (drop_cons_lookup _ _ entry) in Hr by (rewrite lookup_take_lt; [done|lia]).
      cbn in Hr. rewrite Ha in Hr.
      by replace (Datatypes.S (Z.to_nat (seq - 1))) with (Z.to_nat seq) in Hr by lia.
  - intros Hd. split; [done|]. cbn. unfold docs_after in Hd.
    replace (Z.to_nat seq) with (Datatypes.S (Z.to_nat (seq - 1))) in Hd by lia.
    rewrite (take_S_r _ _ entry), replay_app in Hd by done.
    destruct (replay ∅ (take _ log)) as [d0|]; [|done]. cbn [result_bind] in Hd.
    apply replay_self in Hd. congruence.
Qed.

Definition two_log : list WalEntry := [put_entry "a"; put_entry "b"].

Lemma apply_committed_next_witness :
  let v := mkView {[ "a" := tier_doc "a" "free" ]} default_meta None 1 ∅ in
  (v_last_applied_wal_seq v = 2 - 1 -> @view_of canonical_order demo_codec two_log v ->
     let '(v', r) := @apply_committed canonical_order demo_codec v 2 (put_entry "b") in
     r = Ok tt /\ @view_of canonical_order demo_codec two_log v' /\ v_last_applied_wal_seq v' = 2) /\
  (@docs_after canonical_order demo_codec two_log 2 (v_docs v) ->
     let '(v', r) := @apply_committed canonical_order demo_codec v 2 (put_entry "b") in
     r = Ok tt /\ v_docs v' = v_docs v).
Proof.
  apply (@apply_committed_next canonical_order demo_codec two_log).
  - vm_compute. split; discriminate.
  - reflexivity.
  - vm_compute. reflexivity.
Defined.

(** a cached view can lose a committed write for good.  When another
    process has committed sequence 2 and this process commits 3, the writer
    applies 3 to its cached view and marks it as applied; the view never gets
    2, because a catch-up sees nothing to do. *)
Theorem apply_committed_gap :
  let log := [put_entry "a"; put_entry "b"; put_entry "c"] in
  let v := mkView {[ "a" := tier_doc "a" "free" ]} (meta_at 1) None 1 ∅ in
  let '(v', r) := @apply_committed canonical_order demo_codec v 3 (put_entry "c") in
  let objs := <[meta_key "ns" := ([67], "t")]> ∅ in
  let '(_, (v2, r2)) := @catch_up canonical_order demo_codec demo_metas calm_store PolicyFail "ns" v'
                          (mkMem objs 0 []) in
  @view_of canonical_order demo_codec log v /\
  r = Ok tt /\ v_last_applied_wal_seq v' = 3 /\
  r2 = Ok false /\ v_docs v2 !! "b" = None /\
  match @replay canonical_order demo_codec ∅ log with
  | Ok docs => docs !! "b" = Some (tier_doc "b" "free")
  | Err _ => False
  end.
Proof.
  split.
  - exists 1, {[ "a" := tier_doc "a" "free" ]}. vm_compute. repeat split; discriminate.
  - vm_compute. done.
Qed.

(** eventual reads see a subset of the strong documents: a document is
    served exactly when it is a current document and either the read is strong,
    or the index has caught up, or the document was last written at or before
    the index cursor; an older version is never served. *)
Theorem docs_for_query_spec v skip id doc :
  docs_for_query v skip !! id = Some doc <->
  v_docs v !! id = Some doc /\
  (skip = false \/ wal_commit_seq (v_meta v) <= index_cursor (v_meta v) \/
   default 0 (v_doc_last_wal_seq v !! id) <= index_cursor (v_meta v)).
Proof.
  unfold docs_for_query. destruct skip; cbn; [|naive_solver].
  destruct (_ <=? _) eqn:E; case_bool; [naive_solver|].
  rewrite map_lookup_filter_Some. cbn. split; [naive_solver|].
  intros [Hd [?|[?|?]]]; [done|lia|done].
Qed.
