(* ===== verification/ViewCache.v ===== *)
(** * The LRU cache of views ([view_cache.rs]) *)

From Stdlib Require Import ZArith Lia Bool.
From stdpp Require Import base gmap strings list.
From S2P Require Import Prelude F64 Json Models Meta View.

Definition DEFAULT_MAX_PINNED : Z := 32.

Record ViewCache : Type := mkViewCache {
  vc_max : Z;
  vc_views : gmap string NamespaceView;
  vc_order : list string  (** front = least recently used *)
}.

Definition vc_new (max : Z) : ViewCache := mkViewCache (Z.max max 1) ∅ [].

Definition vc_len (c : ViewCache) : Z := Z.of_nat (size (vc_views c)).

(** [VecDeque::remove] at the first position of [name], if any. *)
Fixpoint remove_first (name : string) (l : list string) : list string :=
  match l with
  | [] => []
  | x :: xs => if String.eqb x name then xs else x :: remove_first name xs
  end.

Definition vc_touch (c : ViewCache) (name : string) : ViewCache :=
  if bool_decide (name ∈ vc_order c)
  then mkViewCache (vc_max c) (vc_views c) (remove_first name (vc_order c) ++ [name])
  else c.

(** The view is returned by reference: the caller may mutate it in place,
    modelled by the function [f]. *)
Definition vc_get_mut (c : ViewCache) (name : string) (f : NamespaceView -> NamespaceView)
  : ViewCache * option NamespaceView :=
  match vc_views c !! name with
  | Some v =>
      let c := vc_touch c name in
      (mkViewCache (vc_max c) (<[name := f v]> (vc_views c)) (vc_order c), Some v)
  | None => (c, None)
  end.

(** The [while] loop drops the front of [order] each turn. *)
Fixpoint evict_loop (max : Z) (views : gmap string NamespaceView) (order : list string)
  : gmap string NamespaceView * list string :=
  if Z.of_nat (size views) <? max then (views, order)
  else
    match order with
    | [] => (views, [])
    | oldest :: rest => evict_loop max (delete oldest views) rest
    end.

Definition evict_if_needed (c : ViewCache) : ViewCache :=
  let '(views, order) := evict_loop (vc_max c) (vc_views c) (vc_order c) in
  mkViewCache (vc_max c) views order.

Definition vc_insert (c : ViewCache) (name : string) (view : NamespaceView) : ViewCache :=
  match vc_views c !! name with
  | Some _ => vc_touch (mkViewCache (vc_max c) (<[name := view]> (vc_views c)) (vc_order c)) name
  | None =>
      let c := evict_if_needed c in
      mkViewCache (vc_max c) (<[name := view]> (vc_views c)) (vc_order c ++ [name])
  end.

Definition vc_remove (c : ViewCache) (name : string) : ViewCache * option NamespaceView :=
  (mkViewCache (vc_max c) (delete name (vc_views c)) (remove_first name (vc_order c)),
   vc_views c !! name).

(** ** Invariant *)

Record vc_wf (c : ViewCache) : Prop := {
  vc_max_pos : 1 <= vc_max c;
  vc_bound : vc_len c <= vc_max c;
  vc_order_views : forall name, name ∈ vc_order c <-> is_Some (vc_views c !! name);
  vc_order_nodup : NoDup (vc_order c)
}.

Lemma elem_of_remove_first name l x : x ∈ remove_first name l -> x ∈ l.
Proof.
  induction l as [|y l IH]; cbn; [done|]. destruct (String.eqb y name); set_solver.
Qed.

Lemma remove_first_perm name l : name ∈ l -> l ≡ₚ name :: remove_first name l.
Proof.
  induction l as [|y l IH]; [by intros ?%not_elem_of_nil|]. cbn.
  destruct (String.eqb_spec y name) as [->|Hne]; [done|]. intros [->|Hin]%elem_of_cons; [done|].
  rewrite Permutation_swap. f_equiv. by apply IH.
Qed.

Lemma remove_first_not name l : name ∉ l -> remove_first name l = l.
Proof.
  induction l as [|y l IH]; [done|]. rewrite not_elem_of_cons. intros [Hne Hni]. cbn.
  destruct (String.eqb_spec y name); [congruence|]. by rewrite IH.
Qed.

Lemma touch_order_perm c name : vc_order (vc_touch c name) ≡ₚ vc_order c.
Proof.
  unfold vc_touch. case_bool_decide as Hin; [|done]. cbn.
  rewrite <- Permutation_cons_append. symmetry. by apply remove_first_perm.
Qed.

Lemma touch_views c name : vc_views (vc_touch c name) = vc_views c /\ vc_max (vc_touch c name) = vc_max c.
Proof. unfold vc_touch. by case_bool_decide. Qed.

(** The order and the views stay in step while evicting, and there is room
    afterwards. *)
Lemma evict_loop_spec max views order views' order' :
  1 <= max -> (forall name, name ∈ order <-> is_Some (views !! name)) -> NoDup order ->
  evict_loop max views order = (views', order') ->
  Z.of_nat (size views') < max /\ (forall name, name ∈ order' <-> is_Some (views' !! name)) /\
  NoDup order' /\ views' ⊆ views /\ exists gone, order = gone ++ order'.
Proof.
  revert views. induction order as [|o order IH]; intros views Hm Ho Hnd; cbn.
  - assert (views = ∅) as ->.
    { apply map_eq. intros i. rewrite lookup_empty. apply eq_None_not_Some. rewrite <- Ho.
      apply not_elem_of_nil. }
    rewrite map_size_empty. destruct (_ <? max) eqn:E; case_bool; [|lia].
    intros [=<- <-]. split; [done|]. split; [done|]. split; [done|]. split; [done|]. by exists [].
  - destruct (_ <? max) eqn:E; case_bool.
    + intros [=<- <-]. split; [done|]. split; [done|]. split; [done|]. split; [done|]. by exists [].
    + apply NoDup_cons in Hnd as [Hni Hnd]. intros Hl. apply IH in Hl; [|done| |done].
      * destruct Hl as (H1 & H2 & H3 & H4 & gone & ->). split; [done|]. split; [done|]. split; [done|].
        split; [etrans; [exact H4|apply delete_subseteq]|]. by exists (o :: gone).
      * intros name. specialize (Ho name). rewrite elem_of_cons in Ho.
        destruct (decide (name = o)) as [->|Hne].
        -- rewrite lookup_delete_eq. split; [done|]. by intros [? ?].
        -- rewrite lookup_delete_ne by done. naive_solver.
Qed.

Lemma vc_new_wf max : vc_wf (vc_new max).
Proof.
  split; cbn; [lia| | |constructor].
  - unfold vc_len. cbn. rewrite map_size_empty. lia.
  - intros n. rewrite lookup_empty. split; [by intros ?%not_elem_of_nil|by intros [? ?]].
Qed.

Lemma vc_touch_wf c name : vc_wf c -> vc_wf (vc_touch c name).
Proof.
  intros [Hm Hb Ho Hnd]. destruct (touch_views c name) as [Hv Hmx]. split.
  - by rewrite Hmx.
  - unfold vc_len. by rewrite Hv, Hmx.
  - intros n. by rewrite touch_order_perm, Hv.
  - by rewrite touch_order_perm.
Qed.

Lemma vc_update_wf c name (g : gmap string NamespaceView -> gmap string NamespaceView) :
  (forall n, is_Some (g (vc_views c) !! n) <-> is_Some (vc_views c !! n)) ->
  size (g (vc_views c)) = size (vc_views c) ->
  vc_wf c -> vc_wf (vc_touch (mkViewCache (vc_max c) (g (vc_views c)) (vc_order c)) name).
Proof.
  intros Hg Hs [Hm Hb Ho Hnd]. apply vc_touch_wf. split; cbn; try done.
  - unfold vc_len in *. cbn. by rewrite Hs.
  - intros n. by rewrite Hg.
Qed.

Lemma vc_insert_wf c name view : vc_wf c -> vc_wf (vc_insert c name view).
Proof.
  intros Hwf. unfold vc_insert. destruct (vc_views c !! name) as [old|] eqn:Hl.
  - apply (vc_update_wf c name (fun m => <[name := view]> m)); [| |done].
    + intros n. destruct (decide (n = name)) as [->|Hne].
      * rewrite lookup_insert_eq, Hl. split; by eexists.
      * by rewrite lookup_insert_ne.
    + by rewrite map_size_insert, Hl.
  - destruct Hwf as [Hm Hb Ho Hnd]. unfold evict_if_needed.
    destruct (evict_loop _ _ _) as [views' order'] eqn:He.
    apply evict_loop_spec in He as (H1 & H2 & H3 & H4 & gone & Hg); [|done..]. cbn.
    assert (views' !! name = None) as Hn by (by eapply lookup_weaken_None).
    split; cbn; [done| | |].
    + unfold vc_len. cbn. rewrite map_size_insert, Hn. lia.
    + intros n. rewrite elem_of_app, list_elem_of_singleton, H2. destruct (decide (n = name)) as [->|Hne].
      * rewrite lookup_insert_eq. split; [by eexists|by right].
      * rewrite lookup_insert_ne by done. naive_solver.
    + apply NoDup_app. split; [done|]. split; [|apply NoDup_singleton].
      intros n Hin ->%list_elem_of_singleton. apply H2 in Hin as [? ?]. congruence.
Qed.

Lemma vc_remove_wf c name : vc_wf c -> vc_wf (vc_remove c name).1.
Proof.
  intros [Hm Hb Ho Hnd]. split; cbn; [done| | |].
  - unfold vc_len in *. cbn. pose proof (map_size_delete name (vc_views c)) as Hs.
    rewrite Hs. unfold id. destruct (vc_views c !! name); lia.
  - intros n. destruct (decide (name ∈ vc_order c)) as [Hin|Hni].
    + pose proof (remove_first_perm name _ Hin) as Hp. rewrite Hp in Hnd.
      apply NoDup_cons in Hnd as [Hni Hnd]. destruct (decide (n = name)) as [->|Hne].
      * rewrite lookup_delete_eq. split; [done|]. by intros [? ?].
      * rewrite lookup_delete_ne by done. rewrite <- Ho.
        assert (n ∈ vc_order c <-> n = name \/ n ∈ remove_first name (vc_order c)) as ->
          by (rewrite Hp at 1; apply elem_of_cons). naive_solver.
    + rewrite remove_first_not, delete_id; [done| |done].
      apply eq_None_not_Some. by rewrite <- Ho.
  - destruct (decide (name ∈ vc_order c)) as [Hin|Hni]; [|by rewrite remove_first_not].
    rewrite (remove_first_perm name _ Hin) in Hnd. by apply NoDup_cons in Hnd as [_ ?].
Qed.

Lemma vc_get_mut_wf c name f : vc_wf c -> vc_wf (vc_get_mut c name f).1.
Proof.
  intros Hwf. unfold vc_get_mut. destruct (vc_views c !! name) as [v|] eqn:Hl; [|done]. cbn.
  destruct (vc_touch_wf c name Hwf) as [Hm Hb Ho Hnd].
  split; cbn; [done| | |done].
  - unfold vc_len in *. cbn. by rewrite map_size_insert, (proj1 (touch_views c name)), Hl,
      <- (proj1 (touch_views c name)).
  - intros n. rewrite Ho, (proj1 (touch_views c name)). destruct (decide (n = name)) as [->|Hne].
    + rewrite lookup_insert_eq, Hl. split; by eexists.
    + by rewrite lookup_insert_ne.
Qed.

(** ** Theorems *)

(** the cache never holds more views than its bound, and the recency list
    names exactly the cached namespaces, once each: every operation keeps
    this, from an empty cache on. *)
Theorem view_cache_invariant c name view f :
  vc_wf c -> vc_wf (vc_insert c name view) /\ vc_wf (vc_remove c name).1 /\ vc_wf (vc_get_mut c name f).1.
Proof. intros Hwf. split; [|split]; auto using vc_insert_wf, vc_remove_wf, vc_get_mut_wf. Qed.

Lemma view_cache_invariant_witness :
  let c := vc_new 2 in
  vc_wf (vc_insert c "ns" view_empty) /\ vc_wf (vc_remove c "ns").1 /\
  vc_wf (vc_get_mut c "ns" (fun v => v)).1.
Proof. apply view_cache_invariant. apply vc_new_wf. Defined.

(** eviction is least-recently-used: inserting a new namespace into a cache
    with room evicts nothing; into a full cache it evicts exactly the front of
    the recency list; the others keep their views and their order, and the new
    view is the most recent. *)
Theorem view_cache_lru c name view :
  vc_wf c -> vc_views c !! name = None ->
  let c' := vc_insert c name view in
  exists gone kept, vc_order c = gone ++ kept /\ vc_order c' = kept ++ [name] /\
    Z.of_nat (length gone) = (if vc_len c <? vc_max c then 0 else 1) /\
    vc_views c' !! name = Some view /\
    (forall n, n ∈ kept -> vc_views c' !! n = vc_views c !! n).
Proof.
  intros [Hm Hb Ho Hnd] Hfresh. unfold vc_insert. rewrite Hfresh. unfold evict_if_needed.
  assert (forall n, n ∈ vc_order c -> n <> name) as Hne.
  { intros n Hn ->. apply Ho in Hn as [? ?]. congruence. }
  unfold vc_len in *. destruct (vc_order c) as [|o order] eqn:Eo; cbn [evict_loop].
  - assert (vc_views c = ∅) as Hem.
    { apply map_eq. intros i. rewrite lookup_empty. apply eq_None_not_Some. rewrite <- Ho.
      apply not_elem_of_nil. }
    rewrite Hem, map_size_empty. destruct (_ <? _) eqn:E; case_bool; [|lia]. cbn.
    exists [], []. repeat split; try done; [apply lookup_insert_eq|by intros n ?%not_elem_of_nil].
  - destruct (_ <? _) eqn:E; case_bool.
    + cbn. exists [], (o :: order). repeat split; try done; [apply lookup_insert_eq|].
      intros n Hn. rewrite lookup_insert_ne; [done|]. apply not_eq_sym. by apply Hne.
    + assert (is_Some (vc_views c !! o)) as [vo Hvo] by (apply Ho; by left).
      pose proof (map_size_delete o (vc_views c)) as Hsz. rewrite Hvo in Hsz.
      assert (evict_loop (vc_max c) (delete o (vc_views c)) order = (delete o (vc_views c), order)) as ->.
      { destruct order; cbn; destruct (_ <? _) eqn:E2; case_bool; try done;
          assert (size (vc_views c) <> 0%nat) by (apply map_size_non_empty_iff; intros He; by rewrite He in Hvo); lia. }
      cbn. apply NoDup_cons in Hnd as [Hni Hnd].
      exists [o], order. repeat split; try done; [apply lookup_insert_eq|].
      intros n Hn. rewrite lookup_insert_ne by (apply not_eq_sym, Hne; by right).
      rewrite lookup_delete_ne; [done|]. intros ->. done.
Qed.

Lemma view_cache_lru_witness :
  let c := vc_insert (vc_insert (vc_new 2) "a" view_empty) "b" view_empty in
  let c' := vc_insert c "c" view_empty in
  exists gone kept, vc_order c = gone ++ kept /\ vc_order c' = kept ++ ["c"] /\
    Z.of_nat (length gone) = (if vc_len c <? vc_max c then 0 else 1) /\
    vc_views c' !! "c" = Some view_empty /\
    (forall n, n ∈ kept -> vc_views c' !! n = vc_views c !! n).
Proof. apply view_cache_lru; [repeat apply vc_insert_wf; apply vc_new_wf|reflexivity]. Defined.
