(* ===== verification/Export.v ===== *)
(** * Paged export ([export.rs])

    One page of the export of a document map, and the client's loop that
    follows [next_last_id] from page to page: it visits every document once,
    in ascending id order, and stops. *)

From Stdlib Require Import ZArith Lia Bool Sorted.
From stdpp Require Import base gmap strings list sorting.
From S2P Require Import Prelude F64 Json Models Wal WalReplay.

Definition DEFAULT_EXPORT_LIMIT : Z := 10000.
Definition MAX_EXPORT_LIMIT : Z := 10000.

Record ExportRow : Type := mkExportRow {
  er_id : string;
  er_attributes : gmap string Value
}.

Record ExportPage : Type := mkExportPage {
  ep_wal_commit_seq : Z;
  ep_rows : list ExportRow;
  ep_next_last_id : option string
}.

Definition document_to_export_row (doc : Document) : ExportRow :=
  mkExportRow (doc_id doc) (doc_attributes doc).

(** The cursor test [id > last_id], true without a cursor. *)
Definition after_cursor (last_id : option string) (id : string) : bool :=
  match last_id with
  | Some l => match str_cmp id l with Gt => true | _ => false end
  | None => true
  end.

Definition clamp_limit (limit : Z) : Z := Z.min (Z.max limit 1) MAX_EXPORT_LIMIT.

Definition sorted_ids {IO : IterOrder} (docs : Docs) : list string :=
  sort_by str_cmp (iter_keys docs).

Definition export_page {IO : IterOrder} (docs : Docs) (wal_commit_seq : Z)
    (last_id : option string) (limit : Z) : ExportPage :=
  let limit := clamp_limit limit in
  let ids := sorted_ids docs in
  let rows :=
    omap (fun id => document_to_export_row <$> docs !! id)
      (take (Z.to_nat limit) (List.filter (after_cursor last_id) ids)) in
  let next_last_id :=
    if Z.of_nat (length rows) =? limit then er_id <$> last rows else None in
  mkExportPage wal_commit_seq rows next_last_id.

(** ** The client's loop *)

(** What a client does to export a namespace: ask for a page, and while the
    answer carries a cursor ask again with it. [None]: out of fuel. *)
Fixpoint export_all {IO : IterOrder} (fuel : nat) (docs : Docs) (seq : Z)
    (last_id : option string) (limit : Z) : option (list ExportPage) :=
  match fuel with
  | O => None
  | S f =>
      let page := export_page docs seq last_id limit in
      match ep_next_last_id page with
      | None => Some [page]
      | Some c => (cons page) <$> export_all f docs seq (Some c) limit
      end
  end.

(** ** Strictly sorted id lists *)

Definition ids_sorted (l : list string) : Prop := StronglySorted (fun a b => str_cmp a b = Lt) l.

Lemma sort_ids_strict l : NoDup l -> ids_sorted (sort_by str_cmp l).
Proof.
  intros Hnd. assert (sorted_by str_cmp (sort_by str_cmp l)) as Hs.
  { apply (sort_by_sorted str_cmp (fun _ => True)).
    - intros x y _ _. apply str_cmp_flip.
    - intros x y z _ _ _. apply str_cmp_le_trans.
    - by apply Forall_true. }
  rewrite <- (sort_by_perm str_cmp l) in Hnd. revert Hs Hnd.
  generalize (sort_by str_cmp l) as s. induction 1 as [|x s _ IH Hx]; [constructor|].
  intros [Hni Hnd]%NoDup_cons. constructor; [by apply IH|].
  rewrite Forall_forall in Hx |- *. intros y Hy. specialize (Hx y Hy).
  destruct (str_cmp x y) eqn:E; [|done|done]. apply str_cmp_eq in E as ->. done.
Qed.

(** Filtering a strictly sorted list by a cursor taken from it is dropping
    the list up to and including the cursor. *)
Lemma filter_after_cursor pre x post :
  ids_sorted (pre ++ x :: post) ->
  List.filter (after_cursor (Some x)) (pre ++ x :: post) = post.
Proof.
  induction pre as [|p pre IH]; cbn [app List.filter]; intros Hs.
  - apply StronglySorted_inv in Hs as [_ Hx]. cbn. rewrite str_cmp_refl.
    rewrite Forall_forall in Hx. induction post as [|y post IHp]; [done|]. cbn.
    rewrite (str_cmp_flip x y), (Hx y) by (by left). cbn. f_equal. apply IHp.
    intros z Hz. apply Hx. by right.
  - apply StronglySorted_inv in Hs as [Hs Hp]. rewrite Forall_forall in Hp.
    assert (str_cmp p x = Lt) as Hpx by (apply Hp; set_solver). cbn. rewrite Hpx. by apply IH.
Qed.

Section Paging.
Context {IO : IterOrder} (docs : Docs) (seq limit : Z).
Hypothesis Hkeyed : docs_keyed docs.

Definition row_of (id : string) : ExportRow :=
  mkExportRow id (default ∅ (doc_attributes <$> docs !! id)).

Lemma sorted_ids_spec id : id ∈ sorted_ids docs <-> is_Some (docs !! id).
Proof. unfold sorted_ids. rewrite elem_of_sort_by. apply elem_of_iter_keys. Qed.

Lemma sorted_ids_strict : ids_sorted (sorted_ids docs).
Proof. apply sort_ids_strict, iter_map_NoDup_keys. Qed.

Lemma omap_rows (ids : list string) :
  (forall id, id ∈ ids -> is_Some (docs !! id)) ->
  omap (fun id => document_to_export_row <$> docs !! id) ids = row_of <$> ids.
Proof.
  induction ids as [|i ids IH]; intros Hin; [done|]. cbn.
  destruct (Hin i) as [d Hd]; [by left|]. unfold row_of at 1. rewrite Hd. cbn.
  rewrite IH by (intros j Hj; apply Hin; by right).
  unfold document_to_export_row. by rewrite (Hkeyed i d Hd).
Qed.

Lemma clamp_limit_pos : 1 <= clamp_limit limit <= MAX_EXPORT_LIMIT.
Proof. unfold clamp_limit, MAX_EXPORT_LIMIT. lia. Qed.

(** A page is the first [limit] ids after the cursor; it carries the next
    cursor, the last of them, exactly when it is full. *)
Lemma export_page_rest last_id rest :
  List.filter (after_cursor last_id) (sorted_ids docs) = rest ->
  let k := Z.to_nat (clamp_limit limit) in
  export_page docs seq last_id limit =
    mkExportPage seq (row_of <$> take k rest)
      (if decide (k <= length rest)%nat then last (take k rest) else None).
Proof.
  intros Hf. cbn zeta. unfold export_page. rewrite Hf.
  rewrite omap_rows; [|].
  - f_equal. rewrite length_fmap, length_take. pose proof clamp_limit_pos.
    destruct (decide _) as [Hle|Hgt]; destruct (Z.eqb_spec (Z.of_nat (Nat.min (Z.to_nat (clamp_limit limit)) (length rest)))
      (clamp_limit limit)); try lia; [|done].
    rewrite fmap_last. by destruct (last _).
  - intros id Hin. apply sorted_ids_spec. assert (id ∈ rest) as Hi
      by (apply elem_of_take in Hin as (i & Hi & _); by eapply list_elem_of_lookup_2).
    rewrite <- Hf in Hi.
    apply list_elem_of_In, filter_In in Hi as [Hi _]. by apply list_elem_of_In.
Qed.

(** The rows of the pages from a cursor on are the documents after it. *)
Lemma export_all_rest fuel last_id pre rest :
  sorted_ids docs = pre ++ rest ->
  List.filter (after_cursor last_id) (sorted_ids docs) = rest ->
  (length rest < fuel)%nat ->
  exists pages, export_all fuel docs seq last_id limit = Some pages /\
    concat (ep_rows <$> pages) = row_of <$> rest /\
    Forall (fun p => (length (ep_rows p) <= Z.to_nat (clamp_limit limit))%nat /\
                     ep_wal_commit_seq p = seq) pages.
Proof.
  revert last_id pre rest. induction fuel as [|fuel IH]; intros last_id pre rest Hl Hf Hfu; [lia|].
  cbn [export_all]. rewrite (export_page_rest last_id rest Hf). cbn [ep_next_last_id ep_rows].
  set (k := Z.to_nat (clamp_limit limit)).
  assert (1 <= k)%nat as Hk by (pose proof clamp_limit_pos; lia).
  assert (length (row_of <$> take k rest) <= k)%nat as Hlen by (rewrite length_fmap, length_take; lia).
  destruct (decide _) as [Hle|Hgt].
  - destruct (last (take k rest)) as [c|] eqn:Hc.
    2: { apply last_None in Hc. apply (f_equal length) in Hc. rewrite length_take in Hc. cbn in Hc. lia. }
    apply last_Some in Hc as [tk Htk].
    assert (rest = tk ++ c :: drop k rest) as Hr.
    { rewrite <- (take_drop k rest) at 1. by rewrite Htk, <- app_assoc. }
    destruct (IH (Some c) (pre ++ tk ++ [c]) (drop k rest)) as (pages & Ha & Hrows & Hb).
    + rewrite Hl, Hr at 1. by rewrite <- !app_assoc.
    + rewrite Hl, Hr at 1. rewrite app_assoc. rewrite filter_after_cursor; [done|].
      rewrite <- app_assoc, <- Hr, <- Hl. apply sorted_ids_strict.
    + rewrite length_drop. lia.
    + rewrite Ha. eexists. split; [done|]. split; [|by constructor].
      cbn. by rewrite Hrows, <- fmap_app, take_drop.
  - eexists. split; [done|]. split; [|by repeat constructor].
    cbn. rewrite app_nil_r, take_ge by lia. done.
Qed.
End Paging.

(** ** Theorem *)

(** C30: following [next_last_id] terminates, and the pages, each of at most
    [clamp(limit, 1, 10000)] rows, list every document of the map exactly once,
    in ascending id order. *)
Theorem export_all_complete {IO : IterOrder} docs seq limit :
  docs_keyed docs ->
  exists pages ids,
    export_all (S (size docs)) docs seq None limit = Some pages /\
    StronglySorted (fun a b => str_cmp a b = Lt) ids /\
    (forall id, id ∈ ids <-> is_Some (docs !! id)) /\
    Forall2 (fun row id => er_id row = id /\
      exists d, docs !! id = Some d /\ er_attributes row = doc_attributes d)
      (concat (ep_rows <$> pages)) ids /\
    Forall (fun p => Z.of_nat (length (ep_rows p)) <= clamp_limit limit) pages.
Proof.
  intros Hk.
  destruct (export_all_rest docs seq limit Hk (S (size docs)) None [] (sorted_ids docs))
    as (pages & Ha & Hr & Hb); [done| | |].
  - generalize (sorted_ids docs). induction l as [|x l IH]; [done|]. cbn in *. by rewrite IH.
  - unfold sorted_ids. rewrite sort_by_length. unfold iter_keys.
    rewrite iter_map_perm, length_fmap, length_map_to_list. lia.
  - exists pages, (sorted_ids docs). split; [done|]. split; [apply sorted_ids_strict|].
    split; [apply sorted_ids_spec|]. rewrite Hr. split.
    + rewrite Forall2_fmap_l. apply Forall_Forall2_diag. apply Forall_forall. intros id Hid.
      apply sorted_ids_spec in Hid as [d Hd]. split; [done|]. exists d. split; [done|]. cbn. by rewrite Hd.
    + eapply Forall_impl; [exact Hb|]. cbn. pose proof (clamp_limit_pos limit). lia.
Qed.

Definition three_docs : Docs :=
  let d id := mkDocument id {[ "k" := VString id ]} in
  <["c" := d "c"]> (<["a" := d "a"]> (<["b" := d "b"]> ∅)).

Lemma export_all_complete_witness :
  exists pages ids,
    export_all (IO := canonical_order) (S (size three_docs)) three_docs 3 None 2 = Some pages /\
    StronglySorted (fun a b => str_cmp a b = Lt) ids /\
    (forall id, id ∈ ids <-> is_Some (three_docs !! id)) /\
    Forall2 (fun row id => er_id row = id /\
      exists d, three_docs !! id = Some d /\ er_attributes row = doc_attributes d)
      (concat (ep_rows <$> pages)) ids /\
    Forall (fun p => Z.of_nat (length (ep_rows p)) <= clamp_limit 2) pages.
Proof.
  apply (export_all_complete (IO := canonical_order)).
  unfold three_docs. repeat (apply map_Forall_insert_2; [reflexivity|]). apply map_Forall_empty.
Defined.
