(* ===== verification/Buffer.v ===== *)
(** * The group-commit write buffer ([buffer.rs])

    Writes of a namespace are queued in a shared buffer and committed in
    batches by a flush task.  The tasks interleave: the model is a transition
    system over the heap of buffers (they are shared by reference, and a flush
    may outlive the registration of its buffer), the map of registered buffers,
    the running tasks and the object store.  A step of a task is the code it
    runs between two points where another task can interfere: the acquisition
    of a lock, an [await], an atomic operation. *)

From Stdlib Require Import ZArith Lia Bool.
From stdpp Require Import base gmap strings list.
From S2P Require Import Prelude F64 Json Models Schema Meta Keys Wal WalReplay ObjectStore Namespace Monitor Durability.

(** Durations and instants are in milliseconds. *)
Record WriteBufferConfig : Type := mkConfig {
  max_delay : Z;
  max_batch_ops : Z;
  min_commit_interval : Z
}.

Definition default_config : WriteBufferConfig :=
  let one_second := 1000 in mkConfig one_second 512 one_second.

Record CommittedBatch : Type := mkCommitted {
  cb_seq : Z;
  cb_entry : WalEntry;
  cb_stats : WriteStats
}.

(** The sender of a [oneshot] channel is the id of the writer that waits on
    its receiver. *)
Record WriteWaiter : Type := mkWaiter { ww_stats : WriteStats; ww_tx : positive }.

Record BufferState : Type := mkBuffer {
  b_upserts : list Document;
  b_patches : list Document;
  b_deletes : list string;
  b_schema_patch : option Value;
  b_distance_metric : option DistanceMetric;
  b_waiters : list WriteWaiter;
  b_timer : option positive  (** the handle of a timer task *)
}.

Definition empty_buffer : BufferState := mkBuffer [] [] [] None None [] None.

(** [flush_lock] holds the id of the task that owns it. *)
Record NamespaceBuffer : Type := mkNsBuffer {
  nb_state : BufferState;
  nb_flush_lock : option positive;
  nb_last_committed_at : option Z;
  nb_flush_running : bool
}.

Definition new_ns_buffer : NamespaceBuffer := mkNsBuffer empty_buffer None None false.

Definition remaining_commit_cooldown (last_committed_at : option Z) (min_interval now : Z) : Z :=
  match last_committed_at with
  | None => 0
  | Some t => sat_sub min_interval (sat_sub now t)
  end.

(** The arguments of [write]. *)
Record WriteArgs : Type := mkArgs {
  wa_namespace : string;
  wa_upserts : list Document;
  wa_patches : list Document;
  wa_deletes : list string;
  wa_schema_patch : option Value;
  wa_distance_metric : option DistanceMetric;
  wa_stats : WriteStats
}.

Inductive BufError : Type :=
| BufSchema (e : SchemaError)
| BufWal (e : WalError)
| BufAppend (e : NsError).

(** ** Operations on one buffer *)

Definition ops (st : BufferState) : Z :=
  lenZ (b_upserts st) + lenZ (b_patches st) + lenZ (b_deletes st).

Definition has_metadata (st : BufferState) : bool :=
  match b_schema_patch st, b_distance_metric st with None, None => false | _, _ => true end.

Definition metadata_only (st : BufferState) : bool := (ops st =? 0) && has_metadata st.

(** Something to commit. *)
Definition pending (st : BufferState) : bool := (0 <? ops st) || metadata_only st.

Definition set_timer (t : option positive) (st : BufferState) : BufferState :=
  mkBuffer (b_upserts st) (b_patches st) (b_deletes st) (b_schema_patch st) (b_distance_metric st)
    (b_waiters st) t.

Definition take_waiters (st : BufferState) : BufferState :=
  mkBuffer (b_upserts st) (b_patches st) (b_deletes st) (b_schema_patch st) (b_distance_metric st)
    [] (b_timer st).

(** The part of [write] under the state lock, up to the decision to flush.
    On a schema error the rows stay queued, the waiter is not, and the queued
    schema patch, already taken, is gone. *)
Definition enqueue (st : BufferState) (a : WriteArgs) (tx : positive) : BufferState * result BufError unit :=
  let ups := b_upserts st ++ wa_upserts a in
  let pats := b_patches st ++ wa_patches a in
  let dels := b_deletes st ++ wa_deletes a in
  let merged :=
    match wa_schema_patch a with
    | Some patch =>
        match b_schema_patch st with
        | Some existing =>
            match merge_schema existing patch with
            | Ok m => Ok (Some m)
            | Err e => Err (BufSchema e)
            end
        | None => Ok (Some patch)
        end
    | None => Ok (b_schema_patch st)
    end in
  match merged with
  | Err e => (mkBuffer ups pats dels None (b_distance_metric st) (b_waiters st) (b_timer st), Err e)
  | Ok schema =>
      let metric := match wa_distance_metric a with Some m => Some m | None => b_distance_metric st end in
      (mkBuffer ups pats dels schema metric (b_waiters st ++ [mkWaiter (wa_stats a) tx]) (b_timer st),
       Ok tt)
  end.

(** What a flush takes out of the buffer. *)
Record Drained : Type := mkDrained {
  d_upserts : list Document;
  d_patches : list Document;
  d_deletes : list string;
  d_schema_patch : option Value;
  d_distance_metric : option DistanceMetric;
  d_waiters : list WriteWaiter
}.

Definition drained_empty (st : BufferState) : bool :=
  match b_upserts st, b_patches st, b_deletes st, b_schema_patch st, b_distance_metric st with
  | [], [], [], None, None => true
  | _, _, _, _, _ => false
  end.

Definition drain (st : BufferState) : BufferState * Drained :=
  (empty_buffer,
   mkDrained (b_upserts st) (b_patches st) (b_deletes st) (b_schema_patch st) (b_distance_metric st)
     (b_waiters st)).

Definition empty_entry : WalEntry := mkWalEntry [] [] [].

(** ** The tasks *)

(** What runs after [flush_namespace] returns: [after_flush_task] on the buffer
    that requested the flush, or the rest of [flush_all]. *)
Inductive Kont : Type :=
| KAfter (buf : positive)
| KAll (rest : list string).

Inductive Phase : Type :=
| PLookup
| PLock (buf : positive)
| PCool (buf : positive)
| PDrain (buf : positive)
| PEmpty (buf : positive)
| PAppend (buf : positive) (d : Drained)
| PDone (buf : positive) (waiters : list WriteWaiter) (r : result BufError (Z * WalEntry)).

Inductive Task : Type :=
| TEnqueue (buf : positive) (args : WriteArgs)
| TKick (ns : string) (buf : positive)
| TRequest (ns : string) (buf : positive)
| TTimer (due : Z) (ns : string) (buf : positive)
| TFlush (ns : string) (bypass_rate_limit : bool) (k : Kont) (p : Phase)
| TAfter (ns : string) (buf : positive)
| TAfterCheck (ns : string) (buf : positive)
| TAll (names : list string)
| TAllCheck (ns : string) (rest : list string).

(** A successful [append_wal], in the order they happened: recorded for the
    theorems, not read by the program. *)
Record Commit : Type := mkCommit {
  c_namespace : string;
  c_seq : Z;
  c_entry : WalEntry
}.

Section Manager.
Context {IO : IterOrder} {WC : WalCodec} {MC : MetaCodec} {S : ObjectStore}.
Context (config : WriteBufferConfig).

Record Manager : Type := mkManager {
  heap : gmap positive NamespaceBuffer;
  buffers : gmap string positive;
  tasks : gmap positive Task;
  next_id : positive;
  now : Z;
  world : World;
  answers : list (positive * result BufError CommittedBatch);
  requests : gmap positive WriteArgs;  (** the writes received, by writer *)
  commits : list Commit
}.

Definition set_heap (h : gmap positive NamespaceBuffer) (s : Manager) : Manager :=
  mkManager h (buffers s) (tasks s) (next_id s) (now s) (world s) (answers s) (requests s) (commits s).
Definition set_tasks (t : gmap positive Task) (s : Manager) : Manager :=
  mkManager (heap s) (buffers s) t (next_id s) (now s) (world s) (answers s) (requests s) (commits s).
Definition set_buffer (a : positive) (b : NamespaceBuffer) (s : Manager) : Manager :=
  set_heap (<[a := b]> (heap s)) s.
Definition set_task (t : positive) (k : Task) (s : Manager) : Manager :=
  set_tasks (<[t := k]> (tasks s)) s.
Definition end_task (t : positive) (s : Manager) : Manager := set_tasks (delete t (tasks s)) s.
Definition answer (l : list (positive * result BufError CommittedBatch)) (s : Manager) : Manager :=
  mkManager (heap s) (buffers s) (tasks s) (next_id s) (now s) (world s) (answers s ++ l)
    (requests s) (commits s).

(** [tokio::spawn]. *)
Definition spawn (k : Task) (s : Manager) : Manager :=
  mkManager (heap s) (buffers s) (<[next_id s := k]> (tasks s)) (Pos.succ (next_id s)) (now s) (world s)
    (answers s) (requests s) (commits s).

Definition with_state (st : BufferState) (b : NamespaceBuffer) : NamespaceBuffer :=
  mkNsBuffer st (nb_flush_lock b) (nb_last_committed_at b) (nb_flush_running b).
Definition with_lock (l : option positive) (b : NamespaceBuffer) : NamespaceBuffer :=
  mkNsBuffer (nb_state b) l (nb_last_committed_at b) (nb_flush_running b).
Definition with_last (t : option Z) (b : NamespaceBuffer) : NamespaceBuffer :=
  mkNsBuffer (nb_state b) (nb_flush_lock b) t (nb_flush_running b).
Definition with_running (r : bool) (b : NamespaceBuffer) : NamespaceBuffer :=
  mkNsBuffer (nb_state b) (nb_flush_lock b) (nb_last_committed_at b) r.

(** [compare_exchange(false, true)], then at most one spawned flush. *)
Definition request_flush (ns : string) (a : positive) (s : Manager) : Manager :=
  match heap s !! a with
  | Some b =>
      if nb_flush_running b then s
      else spawn (TFlush ns false (KAfter a) PLookup) (set_buffer a (with_running true b) s)
  | None => s
  end.

(** A sleeping task and its handle in the buffer. *)
Definition arm_timer (delay : Z) (ns : string) (a : positive) (b : NamespaceBuffer) (s : Manager) : Manager :=
  spawn (TTimer (now s + delay) ns a)
    (set_buffer a (with_state (set_timer (Some (next_id s)) (nb_state b)) b) s).

(** [contended]: another thread holds a lock when [try_lock] is tried. *)
Definition arm_cooldown_flush_timer (contended : bool) (ns : string) (a : positive) (s : Manager)
  : Manager :=
  match heap s !! a with
  | Some b =>
      if contended then s
      else if pending (nb_state b) && match b_timer (nb_state b) with None => true | Some _ => false end
      then
        let cooldown := remaining_commit_cooldown (nb_last_committed_at b)
                          (min_commit_interval config) (now s) in
        arm_timer (Z.max cooldown 1) ns a b s
      else s
  | None => s
  end.

(** [buffer_for] and the start of [write]: the writer's id is its channel. *)
Definition write_start (args : WriteArgs) (s : Manager) : Manager :=
  let tx := next_id s in
  let ns := wa_namespace args in
  match buffers s !! ns with
  | Some a =>
      mkManager (heap s) (buffers s) (<[tx := TEnqueue a args]> (tasks s)) (Pos.succ tx) (now s)
        (world s) (answers s) (<[tx := args]> (requests s)) (commits s)
  | None =>
      let a := Pos.succ tx in
      mkManager (<[a := new_ns_buffer]> (heap s)) (<[ns := a]> (buffers s))
        (<[tx := TEnqueue a args]> (tasks s)) (Pos.succ a) (now s)
        (world s) (answers s) (<[tx := args]> (requests s)) (commits s)
  end.

Definition run_enqueue (tx a : positive) (args : WriteArgs) (s : Manager) : option Manager :=
  b ← heap s !! a;
  let '(st, r) := enqueue (nb_state b) args tx in
  let s1 := end_task tx (set_buffer a (with_state st b) s) in
  match r with
  | Err e => Some (answer [(tx, Err e)] s1)
  | Ok _ =>
      if (max_batch_ops config <=? ops st) || metadata_only st
      then Some (set_task tx (TKick (wa_namespace args) a) s1)
      else match b_timer st with
           | None => Some (arm_timer (max_delay config) (wa_namespace args) a (with_state st b) s1)
           | Some _ => Some s1
           end
  end.

(** [timer.take()] and [abort()]: a timer that has fired is no longer a task. *)
Definition run_kick (tid : positive) (ns : string) (a : positive) (s : Manager) : option Manager :=
  b ← heap s !! a;
  let s1 := set_buffer a (with_state (set_timer None (nb_state b)) b) s in
  let s2 :=
    match b_timer (nb_state b) with
    | Some t =>
        match tasks s1 !! t with
        | Some (TTimer _ _ _) => end_task t s1
        | _ => s1
        end
    | None => s1
    end in
  Some (set_task tid (TRequest ns a) s2).

(** ** [flush_namespace] *)

Definition flush_end (tid : positive) (ns : string) (k : Kont) (ok : bool) (s : Manager) : Manager :=
  match k with
  | KAfter a => set_task tid (TAfter ns a) s
  | KAll rest => if ok then set_task tid (TAllCheck ns rest) s else end_task tid s
  end.

Definition goto (tid : positive) (ns : string) (bypass : bool) (k : Kont) (p : Phase) (s : Manager)
  : Manager := set_task tid (TFlush ns bypass k p) s.

Definition flush_lookup (tid : positive) (ns : string) (bypass : bool) (k : Kont) (s : Manager)
  : option Manager :=
  match buffers s !! ns with
  | Some a => Some (goto tid ns bypass k (PLock a) s)
  | None => Some (flush_end tid ns k true s)
  end.

Definition flush_acquire (tid : positive) (ns : string) (bypass : bool) (k : Kont) (a : positive)
    (s : Manager) : option Manager :=
  b ← heap s !! a;
  match nb_flush_lock b with
  | Some _ => None
  | None =>
      Some (goto tid ns bypass k (if bypass then PDrain a else PCool a)
              (set_buffer a (with_lock (Some tid) b) s))
  end.

(** [wait_commit_cooldown]: goes on when the cooldown has run out. *)
Definition flush_cool (tid : positive) (ns : string) (bypass : bool) (k : Kont) (a : positive)
    (s : Manager) : option Manager :=
  b ← heap s !! a;
  if remaining_commit_cooldown (nb_last_committed_at b) (min_commit_interval config) (now s) =? 0
  then Some (goto tid ns bypass k (PDrain a) s)
  else None.

Definition flush_drain (tid : positive) (ns : string) (bypass : bool) (k : Kont) (a : positive)
    (s : Manager) : option Manager :=
  b ← heap s !! a;
  if drained_empty (nb_state b) then Some (goto tid ns bypass k (PEmpty a) s)
  else
    let '(st, d) := drain (nb_state b) in
    Some (goto tid ns bypass k (PAppend a d) (set_buffer a (with_state st b) s)).

(** Nothing was drained: the waiters are answered only if that is still so. *)
Definition flush_empty (tid : positive) (ns : string) (k : Kont) (a : positive) (s : Manager)
  : option Manager :=
  b ← heap s !! a;
  let st := set_timer None (nb_state b) in
  let '(st, waiters) := if drained_empty st then (take_waiters st, b_waiters st) else (st, []) in
  Some (flush_end tid ns k true
    (answer ((fun w => (ww_tx w, Ok (mkCommitted 0 empty_entry (ww_stats w)))) <$> waiters)
       (set_buffer a (with_lock None (with_state st b)) s))).

Definition flush_append (tid : positive) (ns : string) (bypass : bool) (k : Kont) (a : positive)
    (d : Drained) (s : Manager) : option Manager :=
  match from_write (d_upserts d) (d_patches d) (d_deletes d) with
  | Err e => Some (goto tid ns bypass k (PDone a (d_waiters d) (Err (BufWal e))) s)
  | Ok entry =>
      let '(w, r) := append_wal ns entry (d_schema_patch d) (d_distance_metric d) (world s) in
      let s1 :=
        mkManager (heap s) (buffers s) (tasks s) (next_id s) (now s) w (answers s) (requests s)
          (commits s ++ match r with Ok seq => [mkCommit ns seq entry] | Err _ => [] end) in
      Some (goto tid ns bypass k
        (PDone a (d_waiters d)
           (match r with Ok seq => Ok (seq, entry) | Err e => Err (BufAppend e) end)) s1)
  end.

Definition flush_done (tid : positive) (ns : string) (k : Kont) (a : positive)
    (waiters : list WriteWaiter) (r : result BufError (Z * WalEntry)) (s : Manager) : option Manager :=
  b ← heap s !! a;
  match r with
  | Ok (seq, entry) =>
      Some (flush_end tid ns k true
        (answer ((fun w => (ww_tx w, Ok (mkCommitted seq entry (ww_stats w)))) <$> waiters)
           (set_buffer a (with_lock None (with_last (Some (now s)) b)) s)))
  | Err e =>
      Some (flush_end tid ns k false
        (answer ((fun w => (ww_tx w, Err e)) <$> waiters) (set_buffer a (with_lock None b) s)))
  end.

Definition run_flush (tid : positive) (ns : string) (bypass : bool) (k : Kont) (p : Phase)
    (s : Manager) : option Manager :=
  match p with
  | PLookup => flush_lookup tid ns bypass k s
  | PLock a => flush_acquire tid ns bypass k a s
  | PCool a => flush_cool tid ns bypass k a s
  | PDrain a => flush_drain tid ns bypass k a s
  | PEmpty a => flush_empty tid ns k a s
  | PAppend a d => flush_append tid ns bypass k a d s
  | PDone a waiters r => flush_done tid ns k a waiters r s
  end.

(** [after_flush_task], after the flag is cleared. *)
Definition run_after_check (contended : bool) (tid : positive) (ns : string) (a : positive)
    (s : Manager) : option Manager :=
  b ← heap s !! a;
  let cooldown := remaining_commit_cooldown (nb_last_committed_at b) (min_commit_interval config)
                    (now s) in
  let s1 := end_task tid s in
  if negb (pending (nb_state b)) then Some s1
  else if cooldown =? 0 then Some (request_flush ns a s1)
  else Some (arm_cooldown_flush_timer contended ns a s1).

(** [flush_all]: flush a namespace until nothing is pending, then the next. *)
Definition run_all_check (tid : positive) (ns : string) (rest : list string) (s : Manager)
  : option Manager :=
  match buffers s !! ns with
  | None => Some (set_task tid (TAll rest) s)
  | Some a =>
      b ← heap s !! a;
      Some (set_task tid (TAll (if (0 <? ops (nb_state b)) || has_metadata (nb_state b)
                                then ns :: rest else rest)) s)
  end.

(** One step of task [tid]; [None] when it has to wait. *)
Definition run_task (contended : bool) (tid : positive) (s : Manager) : option Manager :=
  k ← tasks s !! tid;
  match k with
  | TEnqueue a args => run_enqueue tid a args s
  | TKick ns a => run_kick tid ns a s
  | TRequest ns a => Some (request_flush ns a (end_task tid s))
  | TTimer due ns a => if due <=? now s then Some (request_flush ns a (end_task tid s)) else None
  | TFlush ns bypass k p => run_flush tid ns bypass k p s
  | TAfter ns a =>
      b ← heap s !! a;
      Some (set_task tid (TAfterCheck ns a) (set_buffer a (with_running false b) s))
  | TAfterCheck ns a => run_after_check contended tid ns a s
  | TAll [] => Some (end_task tid s)
  | TAll (ns :: rest) => Some (goto tid ns true (KAll rest) PLookup s)
  | TAllCheck ns rest => run_all_check tid ns rest s
  end.

Definition drop_namespace (ns : string) (s : Manager) : Manager :=
  mkManager (heap s) (delete ns (buffers s)) (tasks s) (next_id s) (now s) (world s) (answers s)
    (requests s) (commits s).

Definition flush_all (s : Manager) : Manager := spawn (TAll (iter_keys (buffers s))) s.

(** The documents a conditional write is checked against: committed documents
    with the queued operations on top. *)
Definition overlay_pending_writes (ns : string) (docs : Docs) (s : Manager) : Docs * result WalError unit :=
  match a ← buffers s !! ns; heap s !! a with
  | None => (docs, Ok tt)
  | Some b =>
      let st := nb_state b in
      if ops st =? 0 then (docs, Ok tt)
      else match from_write (b_upserts st) (b_patches st) (b_deletes st) with
           | Ok entry => apply_entry docs entry
           | Err e => (docs, Err e)
           end
  end.

(** ** Schedules *)

Inductive Action : Type :=
| AWrite (args : WriteArgs)
| ARun (contended : bool) (tid : positive)
| ASleep (d : Z)
| AFlushAll
| ADrop (ns : string).

Definition step (a : Action) (s : Manager) : option Manager :=
  match a with
  | AWrite args => Some (write_start args s)
  | ARun contended tid => run_task contended tid s
  | ASleep d =>
      Some (mkManager (heap s) (buffers s) (tasks s) (next_id s) (now s + Z.max d 0) (world s)
              (answers s) (requests s) (commits s))
  | AFlushAll => Some (flush_all s)
  | ADrop ns => Some (drop_namespace ns s)
  end.

Fixpoint run (l : list Action) (s : Manager) : option Manager :=
  match l with
  | [] => Some s
  | a :: l => s' ← step a s; run l s'
  end.

Definition manager_new (t : Z) (w : World) : Manager :=
  mkManager ∅ ∅ ∅ 1 t w [] ∅ [].
End Manager.

(** ** What a queued write is owed *)

Definition infix_of {A} (l k : list A) : Prop := exists pre post, k = pre ++ l ++ post.

Lemma infix_app_r {A} (l k x : list A) : infix_of l k -> infix_of l (k ++ x).
Proof. intros (pre & post & ->). exists pre, (post ++ x). by rewrite <- !app_assoc. Qed.

Lemma infix_end {A} (l k : list A) : infix_of l (k ++ l).
Proof. exists k, []. by rewrite app_nil_r. Qed.

Lemma infix_nil {A} (l : list A) : infix_of l [] -> l = [].
Proof. intros (pre & post & E). symmetry in E. apply app_nil in E as [_ E]. by apply app_nil in E as [? _]. Qed.

(** The rows of a write appear, in order and together, among those of a batch. *)
Definition covers (ups pats : list Document) (dels : list string) (a : WriteArgs) : Prop :=
  infix_of (wa_upserts a) ups /\ infix_of (wa_patches a) pats /\ infix_of (wa_deletes a) dels.

Definition no_rows (a : WriteArgs) : Prop :=
  wa_upserts a = [] /\ wa_patches a = [] /\ wa_deletes a = [].

Lemma covers_nil a : covers [] [] [] a -> no_rows a.
Proof. intros (Hu & Hp & Hd). split; [|split]; by apply infix_nil. Qed.

Section Invariant.
Context {IO : IterOrder} {WC : WalCodec} {MC : MetaCodec} {S : ObjectStore}.
Context (config : WriteBufferConfig).
Implicit Types s : @Manager S.

(** Documents whose attributes survive JSON, a schema without floats, a valid
    namespace: what the request handlers let through and the codec carries. *)
Definition rows_faithful (ups pats : list Document) : Prop :=
  Forall json_faithful ups /\ Forall json_faithful pats.
Definition schema_exact (p : option Value) : Prop := forall v, p = Some v -> value_no_float v = true.
Definition args_ok (a : WriteArgs) : Prop :=
  validate_namespace_name (wa_namespace a) = Ok tt /\
  rows_faithful (wa_upserts a) (wa_patches a) /\ schema_exact (wa_schema_patch a).

(** The waiters of a batch for [ns] are writes to [ns] whose rows it holds. *)
Definition waiters_covered s (ns : string) (ups pats : list Document) (dels : list string)
    (ws : list WriteWaiter) : Prop :=
  Forall (fun w => exists a, requests s !! ww_tx w = Some a /\ wa_namespace a = ns /\
                     wa_stats a = ww_stats w /\ covers ups pats dels a) ws.

Definition buffer_ok (owner : positive -> string) s (a : positive) (b : NamespaceBuffer) : Prop :=
  let st := nb_state b in
  waiters_covered s (owner a) (b_upserts st) (b_patches st) (b_deletes st) (b_waiters st) /\
  rows_faithful (b_upserts st) (b_patches st) /\ schema_exact (b_schema_patch st).

(** A flush that holds the lock of buffer [a]; [cool] if it has passed the
    rate limit. *)
Definition holds_lock s (tid : positive) (a : positive) (cool : bool) : Prop :=
  exists b, heap s !! a = Some b /\ nb_flush_lock b = Some tid /\
    (cool = true ->
     remaining_commit_cooldown (nb_last_committed_at b) (min_commit_interval config) (now s) = 0).

Definition committed s (ns : string) (ws : list WriteWaiter) (seq : Z) (entry : WalEntry) : Prop :=
  mkCommit ns seq entry ∈ commits s /\
  exists ups pats dels, from_write ups pats dels = Ok entry /\ waiters_covered s ns ups pats dels ws.

Definition phase_ok (owner : positive -> string) s (tid : positive) (ns : string) (bypass : bool)
    (p : Phase) : Prop :=
  match p with
  | PLookup => True
  | PLock a => owner a = ns /\ is_Some (heap s !! a)
  | PCool a => owner a = ns /\ holds_lock s tid a false
  | PDrain a | PEmpty a => owner a = ns /\ holds_lock s tid a (negb bypass)
  | PAppend a d =>
      owner a = ns /\ holds_lock s tid a (negb bypass) /\
      waiters_covered s ns (d_upserts d) (d_patches d) (d_deletes d) (d_waiters d) /\
      rows_faithful (d_upserts d) (d_patches d) /\ schema_exact (d_schema_patch d)
  | PDone a ws r =>
      owner a = ns /\ holds_lock s tid a (negb bypass) /\
      match r with Ok (seq, entry) => committed s ns ws seq entry | Err _ => True end
  end.

Definition kont_ok s (k : Kont) : Prop :=
  match k with
  | KAfter a => is_Some (heap s !! a)
  | KAll rest => Forall (fun ns => validate_namespace_name ns = Ok tt) rest
  end.

Definition task_ok (owner : positive -> string) s (tid : positive) (k : Task) : Prop :=
  match k with
  | TEnqueue a args =>
      is_Some (heap s !! a) /\ owner a = wa_namespace args /\ requests s !! tid = Some args /\ args_ok args
  | TKick ns a | TRequest ns a | TTimer _ ns a | TAfter ns a | TAfterCheck ns a =>
      validate_namespace_name ns = Ok tt /\ is_Some (heap s !! a)
  | TFlush ns bypass k p =>
      validate_namespace_name ns = Ok tt /\ kont_ok s k /\ phase_ok owner s tid ns bypass p
  | TAll names => Forall (fun ns => validate_namespace_name ns = Ok tt) names
  | TAllCheck ns rest => Forall (fun ns => validate_namespace_name ns = Ok tt) (ns :: rest)
  end.

(** An acknowledgement: the write had no rows, or its rows are in a batch that
    was committed to its namespace. *)
Definition answer_ok s (tx : positive) (r : result BufError CommittedBatch) : Prop :=
  match r with
  | Err _ => True
  | Ok batch => exists a, requests s !! tx = Some a /\ cb_stats batch = wa_stats a /\
      (no_rows a \/
       (mkCommit (wa_namespace a) (cb_seq batch) (cb_entry batch) ∈ commits s /\
        exists ups pats dels, from_write ups pats dels = Ok (cb_entry batch) /\ covers ups pats dels a))
  end.

(** The invariant, with the task [x] that is running a step left out. *)
Record inv (owner : positive -> string) (x : option positive) s : Prop := {
  inv_heap : forall a b, heap s !! a = Some b -> buffer_ok owner s a b;
  inv_heap_id : forall a, is_Some (heap s !! a) -> (a < next_id s)%positive;
  inv_buffers : forall ns a, buffers s !! ns = Some a ->
    owner a = ns /\ is_Some (heap s !! a) /\ validate_namespace_name ns = Ok tt;
  inv_tasks : forall tid k, tasks s !! tid = Some k -> Some tid <> x -> task_ok owner s tid k;
  inv_task_id : forall tid, is_Some (tasks s !! tid) -> (tid < next_id s)%positive;
  inv_requests : forall tx, is_Some (requests s !! tx) -> (tx < next_id s)%positive;
  inv_answers : forall tx r, (tx, r) ∈ answers s -> answer_ok s tx r
}.

(** ** Preservation *)

(** [s'] knows at least what [s] does, and has the locks and commit times of
    [s] on every buffer that a task other than [x] may have locked. *)
Record grows (x : option positive) s s' : Prop := {
  grow_requests : requests s ⊆ requests s';
  grow_commits : commits s ⊆ commits s';
  grow_now : now s <= now s';
  grow_heap : forall a b, heap s !! a = Some b -> exists b', heap s' !! a = Some b' /\
    ((nb_flush_lock b' = nb_flush_lock b /\ nb_last_committed_at b' = nb_last_committed_at b) \/
     nb_flush_lock b = None \/ nb_flush_lock b = x)
}.

Lemma grows_refl x s : grows x s s.
Proof. split; [done|done|lia|]. intros a b Hb. exists b. auto. Qed.

Lemma grow_some x s s' a : grows x s s' -> is_Some (heap s !! a) -> is_Some (heap s' !! a).
Proof. intros Hg [b Hb]. apply (grow_heap _ _ _ Hg) in Hb as (b' & Hb & _). by eexists. Qed.

Lemma cooldown_mono last interval t t' :
  t <= t' -> remaining_commit_cooldown last interval t = 0 -> remaining_commit_cooldown last interval t' = 0.
Proof. unfold remaining_commit_cooldown, sat_sub. destruct last; lia. Qed.

Lemma covered_mono x s s' ns ups pats dels ws :
  grows x s s' -> waiters_covered s ns ups pats dels ws -> waiters_covered s' ns ups pats dels ws.
Proof.
  intros Hg Hw. eapply Forall_impl; [exact Hw|]. intros w (a & Ha & Hr). exists a. split; [|done].
  eapply lookup_weaken; [done|]. apply (grow_requests _ _ _ Hg).
Qed.

Lemma holds_lock_mono x s s' tid a cool :
  grows x s s' -> Some tid <> x -> holds_lock s tid a cool -> holds_lock s' tid a cool.
Proof.
  intros Hg Hx (b & Hb & Hl & Hc). destruct (grow_heap _ _ _ Hg _ _ Hb) as (b' & Hb' & Hs).
  exists b'. split; [done|]. destruct Hs as [[El Et]|[E|E]]; [|congruence..].
  split; [congruence|]. intros Hcool. rewrite Et. eapply cooldown_mono; [|by apply Hc].
  apply (grow_now _ _ _ Hg).
Qed.

Lemma phase_mono owner x s s' tid ns bypass p :
  grows x s s' -> Some tid <> x ->
  phase_ok owner s tid ns bypass p -> phase_ok owner s' tid ns bypass p.
Proof.
  intros Hg Hx. destruct p as [|a|a|a|a|a d|a ws r]; cbn; [done|..].
  - intros [Ho Ha]. split; [done|]. by eapply grow_some.
  - intros [Ho Ha]. split; [done|]. by eapply holds_lock_mono.
  - intros [Ho Ha]. split; [done|]. by eapply holds_lock_mono.
  - intros [Ho Ha]. split; [done|]. by eapply holds_lock_mono.
  - intros (Ho & Ha & Hw & Hr). split; [done|]. split; [by eapply holds_lock_mono|].
    split; [by eapply covered_mono|done].
  - intros (Ho & Ha & Hr). split; [done|]. split; [by eapply holds_lock_mono|].
    destruct r as [[seq e]|]; [|done]. destruct Hr as [Hc (u & pa & de & Hf & Hw)].
    split; [by apply (grow_commits _ _ _ Hg)|]. exists u, pa, de. split; [done|by eapply covered_mono].
Qed.

Lemma task_mono owner x s s' tid k :
  grows x s s' -> Some tid <> x -> task_ok owner s tid k -> task_ok owner s' tid k.
Proof.
  intros Hg Hx. destruct k as [a args|ns a|ns a|due ns a|ns by_ k p|ns a|ns a|names|ns rest]; cbn;
    try (intros [Hv Ha]; split; [done|by eapply grow_some]); try done.
  - intros (Ha & Ho & Hr & Hk). split; [by eapply grow_some|]. split; [done|]. split; [|done].
    eapply lookup_weaken; [done|]. apply (grow_requests _ _ _ Hg).
  - intros (Hv & Hk & Hp). split; [done|]. split; [|by eapply phase_mono].
    destruct k as [a|rest]; [by eapply grow_some|done].
Qed.

Lemma answer_mono x s s' tx r : grows x s s' -> answer_ok s tx r -> answer_ok s' tx r.
Proof.
  intros Hg. destruct r as [batch|]; [|done]. intros (a & Ha & Hs & Hr). exists a.
  split; [eapply lookup_weaken; [done|]; apply (grow_requests _ _ _ Hg)|]. split; [done|].
  destruct Hr as [Hn|[Hc Hr]]; [by left|]. right. split; [by apply (grow_commits _ _ _ Hg)|done].
Qed.

Lemma buffer_mono owner x s s' a b : grows x s s' -> buffer_ok owner s a b -> buffer_ok owner s' a b.
Proof. intros Hg [Hw Hr]. split; [by eapply covered_mono|done]. Qed.

(** A step that changes buffers, tasks and answers, not the ids in use. *)
Lemma inv_update owner x x' s s' :
  inv owner x s -> grows x s s' -> (next_id s <= next_id s')%positive ->
  (forall a b, heap s' !! a = Some b ->
     heap s !! a = Some b \/ (buffer_ok owner s' a b /\ (a < next_id s')%positive)) ->
  (forall ns a, buffers s' !! ns = Some a -> buffers s !! ns = Some a \/
     (owner a = ns /\ is_Some (heap s' !! a) /\ validate_namespace_name ns = Ok tt)) ->
  (forall tid k, tasks s' !! tid = Some k ->
     (tasks s !! tid = Some k /\ (Some tid <> x' -> Some tid <> x)) \/
     ((Some tid <> x' -> task_ok owner s' tid k) /\ (tid < next_id s')%positive)) ->
  (forall tx, is_Some (requests s' !! tx) -> is_Some (requests s !! tx) \/ (tx < next_id s')%positive) ->
  (forall tx r, (tx, r) ∈ answers s' -> (tx, r) ∈ answers s \/ answer_ok s' tx r) ->
  inv owner x' s'.
Proof.
  intros [H1 H2 H3 H4 H5 H6 H7] Hg Hn Hh Hb Ht Hr Ha. split.
  - intros a b Hab. destruct (Hh a b Hab) as [Hold|[Hok _]]; [|done].
    eapply buffer_mono; [done|]. by apply H1.
  - intros a [b Hab]. destruct (Hh a b Hab) as [Hold|[_ Hlt]]; [|done].
    eapply Pos.lt_le_trans; [|done]. apply H2. by eexists.
  - intros ns a Hns. destruct (Hb ns a Hns) as [Hold|Hok]; [|done].
    apply H3 in Hold as (? & ? & ?). split; [done|]. split; [by eapply grow_some|done].
  - intros tid k Htk Hx. destruct (Ht tid k Htk) as [[Hold Hxx]|[Hok _]]; [|by apply Hok].
    eapply task_mono; [done|by apply Hxx|]. apply H4; [done|by apply Hxx].
  - intros tid [k Htk]. destruct (Ht tid k Htk) as [[Hold _]|[_ Hlt]]; [|done].
    eapply Pos.lt_le_trans; [|done]. apply H5. by eexists.
  - intros tx Htx. destruct (Hr tx Htx) as [Hold|Hlt]; [|done]. eapply Pos.lt_le_trans; [|done]. by apply H6.
  - intros tx r Hin. destruct (Ha tx r Hin) as [Hold|Hok]; [|done]. eapply answer_mono; [done|]. by apply H7.
Qed.

Lemma inv_skip owner x s : inv owner None s -> inv owner (Some x) s.
Proof. intros [H1 H2 H3 H4 H5 H6 H7]. split; try done. intros tid k Hk _. by apply H4. Qed.

Lemma inv_set_task owner tid s k :
  inv owner (Some tid) s -> (tid < next_id s)%positive -> task_ok owner s tid k ->
  inv owner None (set_task tid k s).
Proof.
  intros Hi Hlt Hk. eapply inv_update; [exact Hi|..]; cbn; auto; [..|lia|].
  - split; [done|done|cbn; lia|]. intros a b Hb. exists b. auto.
  - intros tid' k'. destruct (decide (tid' = tid)) as [->|Hne].
    + rewrite lookup_insert_eq. intros [=<-]. right. by split.
    + rewrite lookup_insert_ne by done. intros Hk'. left. split; [done|]. intros _ [=]. done.
Qed.

Lemma inv_end_task owner tid s : inv owner (Some tid) s -> inv owner None (end_task tid s).
Proof.
  intros Hi. eapply inv_update; [exact Hi|..]; cbn; auto; [..|lia|].
  - split; [done|done|cbn; lia|]. intros a b Hb. exists b. auto.
  - intros tid' k' Hk'. apply lookup_delete_Some in Hk' as [Hne Hk']. left. split; [done|].
    intros _ [=]. done.
Qed.

Lemma inv_drop_task owner x t s : inv owner x s -> inv owner x (end_task t s).
Proof.
  intros Hi. eapply inv_update; [exact Hi|..]; cbn; auto; [..|lia|].
  - split; [done|done|cbn; lia|]. intros a b Hb. exists b. auto.
  - intros tid' k' Hk'. apply lookup_delete_Some in Hk' as [Hne Hk']. left. by split.
Qed.

Lemma inv_spawn owner x s k :
  inv owner x s -> task_ok owner (spawn k s) (next_id s) k -> inv owner x (spawn k s).
Proof.
  intros Hi Hk. eapply inv_update; [exact Hi|..]; cbn; auto; [..|lia|].
  - split; [done|done|cbn; lia|]. intros a b Hb. exists b. auto.
  - intros tid' k'. destruct (decide (tid' = next_id s)) as [->|Hne].
    + rewrite lookup_insert_eq. intros [=<-]. right. split; [done|lia].
    + rewrite lookup_insert_ne by done. auto.
Qed.

Lemma inv_set_buffer owner x s a b b' :
  inv owner x s -> heap s !! a = Some b -> buffer_ok owner s a b' ->
  (nb_flush_lock b' = nb_flush_lock b /\ nb_last_committed_at b' = nb_last_committed_at b) \/
    nb_flush_lock b = None \/ nb_flush_lock b = x ->
  inv owner x (set_buffer a b' s).
Proof.
  intros Hi Hb Hok Hl. eapply inv_update; [exact Hi|..]; cbn; auto; [..|lia|].
  - split; [done|done|cbn; lia|]. intros a' c Hc. cbn. destruct (decide (a' = a)) as [->|Hne].
    + exists b'. rewrite lookup_insert_eq. split; [done|]. congruence.
    + exists c. rewrite lookup_insert_ne by done. auto.
  - intros a' c. destruct (decide (a' = a)) as [->|Hne].
    + rewrite lookup_insert_eq. intros [=<-]. right. split; [done|].
      apply (inv_heap_id _ _ _ Hi). by eexists.
    + rewrite lookup_insert_ne by done. auto.
Qed.

Lemma inv_answer owner x s l :
  inv owner x s -> (forall tx r, (tx, r) ∈ l -> answer_ok s tx r) -> inv owner x (answer l s).
Proof.
  intros Hi Hl. eapply inv_update; [exact Hi|..]; cbn; auto; [..|lia|].
  - split; [done|done|cbn; lia|]. intros a b Hb. exists b. auto.
  - intros tx r [Hin|Hin]%elem_of_app; [by left|]. right. by apply Hl.
Qed.

(** ** The operations keep the invariant *)

Lemma inv_request_flush owner x s ns a :
  inv owner x s -> validate_namespace_name ns = Ok tt -> is_Some (heap s !! a) ->
  inv owner x (request_flush ns a s).
Proof.
  intros Hi Hv [b Hb]. unfold request_flush. rewrite Hb. destruct (nb_flush_running b); [done|].
  apply inv_spawn.
  - eapply inv_set_buffer; [exact Hi|exact Hb| |by left]. apply (inv_heap _ _ _ Hi a b Hb).
  - cbn. split; [done|]. split; [|done]. rewrite lookup_insert_eq. by eexists.
Qed.

Lemma inv_arm_timer owner x s ns a b delay :
  inv owner x s -> validate_namespace_name ns = Ok tt -> heap s !! a = Some b ->
  inv owner x (arm_timer delay ns a b s).
Proof.
  intros Hi Hv Hb. unfold arm_timer. apply inv_spawn.
  - eapply inv_set_buffer; [exact Hi|exact Hb| |by left]. apply (inv_heap _ _ _ Hi a b Hb).
  - cbn. split; [done|]. rewrite lookup_insert_eq. by eexists.
Qed.

Lemma inv_arm_cooldown owner x s c ns a :
  inv owner x s -> validate_namespace_name ns = Ok tt -> is_Some (heap s !! a) ->
  inv owner x (arm_cooldown_flush_timer config c ns a s).
Proof.
  intros Hi Hv [b Hb]. unfold arm_cooldown_flush_timer. rewrite Hb. destruct c; [done|].
  destruct (pending (nb_state b) && _); [|done]. by apply inv_arm_timer.
Qed.

Lemma enqueue_ok owner s a b args tx st r :
  buffer_ok owner s a b -> owner a = wa_namespace args -> requests s !! tx = Some args ->
  args_ok args -> enqueue (nb_state b) args tx = (st, r) -> buffer_ok owner s a (with_state st b).
Proof.
  intros (Hw & [Hf1 Hf2] & Hs) Ho Hr (_ & [Ha1 Ha2] & Has). unfold enqueue.
  assert (forall st', b_upserts st' = b_upserts (nb_state b) ++ wa_upserts args ->
    b_patches st' = b_patches (nb_state b) ++ wa_patches args ->
    b_deletes st' = b_deletes (nb_state b) ++ wa_deletes args ->
    (b_waiters st' = b_waiters (nb_state b) \/
     b_waiters st' = b_waiters (nb_state b) ++ [mkWaiter (wa_stats args) tx]) ->
    schema_exact (b_schema_patch st') -> buffer_ok owner s a (with_state st' b)) as Hgen.
  { intros st' E1 E2 E3 E4 E5. assert (waiters_covered s (owner a) (b_upserts st') (b_patches st')
      (b_deletes st') (b_waiters (nb_state b))) as Hold.
    { eapply Forall_impl; [exact Hw|]. intros w (c & Hc & Hn & Hst & (C1 & C2 & C3)). exists c.
      rewrite E1, E2, E3. split_and!; try done. split_and!; by apply infix_app_r. }
    split; [|split; [|done]]; cbn.
    - destruct E4 as [-> | ->]; [done|]. apply Forall_app. split; [done|]. constructor; [|done].
      exists args. rewrite E1, E2, E3. split_and!; try done. split_and!; apply infix_end.
    - rewrite E1, E2. split; by apply Forall_app. }
  destruct (wa_schema_patch args) as [patch|] eqn:Ep; [|by intros [=<- _]; apply Hgen; auto].
  destruct (b_schema_patch (nb_state b)) as [existing|] eqn:Ee.
  - destruct (merge_schema existing patch) as [m|e] eqn:Em; intros [=<- _]; apply Hgen; cbn; auto; try done.
    intros v [=<-]. eapply merge_schema_no_float; [by apply Hs|by apply Has|exact Em].
  - intros [=<- _]; apply Hgen; cbn; auto.
Qed.

Lemma inv_run_enqueue owner tx a args s s' :
  inv owner None s -> tasks s !! tx = Some (TEnqueue a args) ->
  run_enqueue config tx a args s = Some s' -> inv owner None s'.
Proof.
  intros Hi Ht. pose proof (inv_tasks _ _ _ Hi _ _ Ht ltac:(done)) as (Ha & Ho & Hr & Hargs).
  assert (tx < next_id s)%positive as Hlt by (apply (inv_task_id _ _ _ Hi); by eexists).
  unfold run_enqueue. destruct (heap s !! a) as [b|] eqn:Hb; cbn; [|done].
  destruct (enqueue (nb_state b) args tx) as [st r] eqn:He.
  assert (buffer_ok owner s a (with_state st b)) as Hbok.
  { eapply enqueue_ok; try done. by apply (inv_heap _ _ _ Hi). }
  assert (inv owner (Some tx) (set_buffer a (with_state st b) s)) as Hi1.
  { eapply inv_set_buffer; [by apply inv_skip|exact Hb|done|by left]. }
  destruct Hargs as [Hv _]. destruct r as [[]|e].
  - destruct ((_ <=? _) || _).
    + intros [=<-]. apply inv_set_task; [by apply inv_drop_task|done|]. cbn. split; [done|].
      rewrite lookup_insert_eq. by eexists.
    + destruct (b_timer st); intros [=<-]; [by apply inv_end_task|].
      apply inv_arm_timer; [by apply inv_end_task|done|]. cbn. by rewrite lookup_insert_eq.
  - intros [=<-]. apply inv_answer; [by apply inv_end_task|]. by intros tx' r' [=-> ->]%list_elem_of_singleton.
Qed.

Lemma inv_run_kick owner tid ns a s s' :
  inv owner None s -> tasks s !! tid = Some (TKick ns a) ->
  run_kick tid ns a s = Some s' -> inv owner None s'.
Proof.
  intros Hi Ht. pose proof (inv_tasks _ _ _ Hi _ _ Ht ltac:(done)) as [Hv _].
  assert (tid < next_id s)%positive as Hlt by (apply (inv_task_id _ _ _ Hi); by eexists).
  unfold run_kick. destruct (heap s !! a) as [b|] eqn:Hb; cbn [mbind option_bind]; [|done]. intros [=<-].
  set (s1 := set_buffer a _ s).
  assert (inv owner (Some tid) s1) as Hi1.
  { eapply inv_set_buffer; [by apply inv_skip|exact Hb| |by left]. apply (inv_heap _ _ _ Hi a b Hb). }
  assert (is_Some (heap s1 !! a)) as Ha by (cbn; rewrite lookup_insert_eq; by eexists).
  match goal with |- inv _ _ (set_task _ _ ?s2) => assert (inv owner (Some tid) s2 /\
    next_id s2 = next_id s /\ heap s2 = heap s1) as (Hi2 & Hn2 & Hh2) end.
  { destruct (b_timer (nb_state b)) as [t|]; [|done]. destruct (_ !! t) as [[]|]; try done.
    split; [by apply inv_drop_task|done]. }
  apply inv_set_task; [done|by rewrite Hn2|]. cbn. split; [done|]. by rewrite Hh2.
Qed.

Lemma inv_flush_end owner tid s ns k ok :
  inv owner (Some tid) s -> (tid < next_id s)%positive -> validate_namespace_name ns = Ok tt ->
  kont_ok s k -> inv owner None (flush_end tid ns k ok s).
Proof.
  intros Hi Hlt Hv Hk. destruct k as [a|rest]; cbn in *.
  - by apply inv_set_task.
  - destruct ok; [|by apply inv_end_task]. apply inv_set_task; [done..|]. by constructor.
Qed.

Lemma kont_set_buffer s a b k : kont_ok s k -> kont_ok (set_buffer a b s) k.
Proof.
  destruct k as [a'|rest]; cbn; [|done]. intros Ha. destruct (decide (a' = a)) as [->|Hne].
  - rewrite lookup_insert_eq. by eexists.
  - by rewrite lookup_insert_ne.
Qed.

(** The holder of a lock may replace the buffer's state and release it. *)
Lemma inv_holder_set owner tid s a b b' cool :
  inv owner None s -> heap s !! a = Some b -> holds_lock s tid a cool -> buffer_ok owner s a b' ->
  inv owner (Some tid) (set_buffer a b' s).
Proof.
  intros Hi Hb (c & Hc & Hl & _) Hok. eapply inv_set_buffer; [by apply inv_skip|exact Hb|done|].
  right; right. congruence.
Qed.

Lemma drained_empty_rows st : drained_empty st = true ->
  b_upserts st = [] /\ b_patches st = [] /\ b_deletes st = [].
Proof.
  unfold drained_empty. by destruct (b_upserts st), (b_patches st), (b_deletes st), (b_schema_patch st),
    (b_distance_metric st).
Qed.

Section Flush.
Context (owner : positive -> string) (tid : positive) (ns : string) (bypass : bool) (k : Kont).
Context (s s' : @Manager S).
Hypothesis Hi : inv owner None s.
Hypothesis Hlt : (tid < next_id s)%positive.
Hypothesis Hv : validate_namespace_name ns = Ok tt.
Hypothesis Hk : kont_ok s k.

Lemma inv_flush_lookup : flush_lookup tid ns bypass k s = Some s' -> inv owner None s'.
Proof.
  unfold flush_lookup. destruct (buffers s !! ns) as [a|] eqn:Ha; intros [=<-].
  - apply (inv_buffers _ _ _ Hi) in Ha as (Ho & Hh & _).
    apply inv_set_task; [by apply inv_skip|done|]. by split_and!.
  - apply inv_flush_end; [by apply inv_skip|done..].
Qed.

Lemma inv_flush_acquire a :
  phase_ok owner s tid ns bypass (PLock a) -> flush_acquire tid ns bypass k a s = Some s' ->
  inv owner None s'.
Proof.
  intros [Ho _]. unfold flush_acquire. destruct (heap s !! a) as [b|] eqn:Hb; cbn; [|done].
  destruct (nb_flush_lock b) eqn:Hl; [done|]. intros [=<-]. apply inv_set_task; [|done|].
  - eapply inv_set_buffer; [by apply inv_skip|exact Hb| |auto]. apply (inv_heap _ _ _ Hi a b Hb).
  - split; [done|]. split; [by apply kont_set_buffer|].
    assert (forall cool, (cool = true -> remaining_commit_cooldown (nb_last_committed_at b)
      (min_commit_interval config) (now s) = 0) ->
      holds_lock (set_buffer a (with_lock (Some tid) b) s) tid a cool) as Hh.
    { intros cool Hc. exists (with_lock (Some tid) b). cbn. rewrite lookup_insert_eq. by split_and!. }
    destruct bypass; cbn; (split; [done|by apply Hh]).
Qed.

Lemma inv_flush_cool a :
  phase_ok owner s tid ns bypass (PCool a) -> flush_cool config tid ns bypass k a s = Some s' ->
  inv owner None s'.
Proof.
  intros [Ho (b & Hb & Hl & _)]. unfold flush_cool. rewrite Hb. cbn.
  destruct (_ =? 0) eqn:Hc; case_bool; intros [=<-].
  apply inv_set_task; [by apply inv_skip|done|]. cbn. split_and!; try done. by exists b.
Qed.

Lemma inv_flush_drain a :
  phase_ok owner s tid ns bypass (PDrain a) -> flush_drain tid ns bypass k a s = Some s' ->
  inv owner None s'.
Proof.
  intros [Ho Hh]. unfold flush_drain. destruct (heap s !! a) as [b|] eqn:Hb; cbn; [|done].
  destruct (drained_empty (nb_state b)); intros [=<-].
  - apply inv_set_task; [by apply inv_skip|done|]. by cbn.
  - pose proof (inv_heap _ _ _ Hi a b Hb) as (Hw & Hf & Hs). rewrite Ho in Hw.
    apply inv_set_task; [|done|].
    + eapply inv_holder_set; [done..|]. split; [constructor|]. by repeat split.
    + split; [done|]. split; [by apply kont_set_buffer|]. cbn. split; [done|]. split; [|by split_and!].
      destruct Hh as (c & Hc & Hl & Hcool). replace c with b in * by congruence.
      exists (with_state empty_buffer b). cbn. rewrite lookup_insert_eq. by split_and!.
Qed.

Lemma inv_flush_empty a :
  phase_ok owner s tid ns bypass (PEmpty a) -> flush_empty tid ns k a s = Some s' ->
  inv owner None s'.
Proof.
  intros [Ho Hh]. unfold flush_empty. destruct (heap s !! a) as [b|] eqn:Hb; cbn [mbind option_bind]; [|done].
  pose proof (inv_heap _ _ _ Hi a b Hb) as (Hw & Hf & Hs).
  destruct (drained_empty (set_timer None (nb_state b))) eqn:He; intros [=<-];
    (apply inv_flush_end; [apply inv_answer|done|done|by apply kont_set_buffer]).
  - eapply inv_holder_set; [done..|]. split; [constructor|by split].
  - apply drained_empty_rows in He as (E1 & E2 & E3). cbn in E1, E2, E3.
    intros tx r Hin. apply list_elem_of_fmap in Hin as (w & [=-> ->] & Hin). cbn in Hin.
    rewrite E1, E2, E3 in Hw. unfold waiters_covered in Hw; rewrite Forall_forall in Hw.
    destruct (Hw w Hin) as (c & Hc & _ & Hst & Hcov). exists c. split; [done|]. split; [done|].
    left. by apply covers_nil.
  - eapply inv_holder_set; [done..|]. by split_and!.
  - by intros tx r ?%not_elem_of_nil.
Qed.

Lemma inv_flush_append a d :
  phase_ok owner s tid ns bypass (PAppend a d) -> flush_append tid ns bypass k a d s = Some s' ->
  inv owner None s'.
Proof.
  intros (Ho & Hh & Hw & Hf & Hs). unfold flush_append.
  destruct (from_write _ _ _) as [entry|e] eqn:Hfw.
  - destruct (append_wal ns entry _ _ (world s)) as [w r]. intros [=<-].
    apply inv_set_task; [|done|].
    + eapply inv_update; [by apply (inv_skip _ tid)|..]; cbn; auto; [|lia].
      split; cbn; [done|set_solver|lia|]. intros a' b' Hb'. exists b'. auto.
    + split; [done|]. split; [done|]. cbn. split; [done|]. split; [done|].
      destruct r as [seq|]; [|done]. split; [set_solver|].
      exists (d_upserts d), (d_patches d), (d_deletes d). by split.
  - intros [=<-]. apply inv_set_task; [by apply inv_skip|done|]. by cbn.
Qed.

Lemma inv_flush_done a ws r :
  phase_ok owner s tid ns bypass (PDone a ws r) -> flush_done tid ns k a ws r s = Some s' ->
  inv owner None s'.
Proof.
  intros (Ho & Hh & Hr). unfold flush_done. destruct (heap s !! a) as [b|] eqn:Hb; cbn [mbind option_bind]; [|done].
  pose proof (inv_heap _ _ _ Hi a b Hb) as Hbok.
  destruct r as [[seq entry]|e]; intros [=<-];
    (apply inv_flush_end; [apply inv_answer|done|done|by apply kont_set_buffer]);
    try (by eapply inv_holder_set); intros tx r Hin;
    apply list_elem_of_fmap in Hin as (w & [=-> ->] & Hin); [|done].
  destruct Hr as [Hc (ups & pats & dels & Hfw & Hw)]. unfold waiters_covered in Hw; rewrite Forall_forall in Hw.
  destruct (Hw w Hin) as (c & Hreq & <- & Hst & Hcov). exists c. split; [done|]. split; [done|].
  right. split; [done|]. by exists ups, pats, dels.
Qed.

Lemma inv_run_flush p :
  phase_ok owner s tid ns bypass p -> run_flush config tid ns bypass k p s = Some s' -> inv owner None s'.
Proof.
  destruct p; intros Hp; cbn; eauto using inv_flush_lookup, inv_flush_acquire, inv_flush_cool,
    inv_flush_drain, inv_flush_empty, inv_flush_append, inv_flush_done.
Qed.
End Flush.

Lemma inv_run_task owner c tid s s' :
  inv owner None s -> run_task config c tid s = Some s' -> inv owner None s'.
Proof.
  intros Hi. unfold run_task. destruct (tasks s !! tid) as [k|] eqn:Ht; cbn [mbind option_bind]; [|done].
  pose proof (inv_tasks _ _ _ Hi _ _ Ht ltac:(done)) as Hk.
  assert (tid < next_id s)%positive as Hlt by (apply (inv_task_id _ _ _ Hi); by eexists).
  pose proof (inv_end_task owner tid s (inv_skip _ tid _ Hi)) as Hend.
  destruct k as [a args|ns a|ns a|due ns a|ns by_ k p|ns a|ns a|names|ns rest].
  - by apply inv_run_enqueue.
  - by apply inv_run_kick.
  - destruct Hk as [Hv Ha]. intros [=<-]. by apply inv_request_flush.
  - destruct Hk as [Hv Ha]. destruct (due <=? now s); intros [=<-]. by apply inv_request_flush.
  - destruct Hk as (Hv & Hk & Hp). by eapply inv_run_flush.
  - destruct Hk as [Hv _]. destruct (heap s !! a) as [b|] eqn:Hb; intros [=<-]. apply inv_set_task; [|done|].
    + eapply inv_set_buffer; [by apply inv_skip|exact Hb| |by left]. apply (inv_heap _ _ _ Hi a b Hb).
    + cbn. split; [done|]. rewrite lookup_insert_eq. by eexists.
  - destruct Hk as [Hv Ha]. unfold run_after_check.
    destruct (heap s !! a) as [b|] eqn:Hb; cbn [mbind option_bind]; [|done].
    destruct (negb _); [by intros [=<-]|]. destruct (_ =? 0); intros [=<-].
    + apply inv_request_flush; [done|done|]. cbn. by rewrite Hb.
    + apply inv_arm_cooldown; [done|done|]. cbn. by rewrite Hb.
  - destruct names as [|ns rest]; intros [=<-]; [done|]. cbn in Hk. apply Forall_cons in Hk as [Hv Hr].
    apply inv_set_task; [by apply inv_skip|done|]. by cbn.
  - cbn in Hk. pose proof Hk as [Hv Hr]%Forall_cons. unfold run_all_check.
    destruct (buffers s !! ns) as [a|].
    + destruct (heap s !! a) as [b|]; intros [=<-]. apply inv_set_task; [by apply inv_skip|done|].
      cbn. by destruct (_ || _).
    + intros [=<-]. apply inv_set_task; [by apply inv_skip|done|done].
Qed.

Lemma inv_owner_ext owner owner' x s :
  (forall a, is_Some (heap s !! a) -> owner' a = owner a) -> inv owner x s -> inv owner' x s.
Proof.
  intros He [H1 H2 H3 H4 H5 H6 H7].
  assert (forall tid a cool, holds_lock s tid a cool -> owner' a = owner a) as Hl.
  { intros tid a cool (b & Hb & _). apply He. by eexists. }
  split; try done.
  - intros a b Hb. destruct (H1 a b Hb) as [Hw Hr]. split; [|done]. by rewrite He by (by eexists).
  - intros ns a Ha. destruct (H3 ns a Ha) as (Ho & Hh & Hv). by rewrite He.
  - intros tid k Hk Hx. specialize (H4 tid k Hk Hx).
    destruct k as [a args|ns a|ns a|due ns a|ns by_ k p|ns a|ns a|names|ns rest]; try done.
    + destruct H4 as (Ha & Ho & Hr). cbn. by rewrite He.
    + destruct H4 as (Hv & Hko & Hp). split_and!; try done.
      destruct p as [|a|a|a|a|a d|a ws r]; cbn in *; try done.
      * destruct Hp as [Ho Ha]. by rewrite He.
      * destruct Hp as [Ho Ha]. by rewrite (Hl _ _ _ Ha).
      * destruct Hp as [Ho Ha]. by rewrite (Hl _ _ _ Ha).
      * destruct Hp as [Ho Ha]. by rewrite (Hl _ _ _ Ha).
      * destruct Hp as (Ho & Ha & Hr). by rewrite (Hl _ _ _ Ha).
      * destruct Hp as (Ho & Ha & Hr). by rewrite (Hl _ _ _ Ha).
Qed.

Lemma requests_grow s args : (forall tx, is_Some (requests s !! tx) -> (tx < next_id s)%positive) ->
  requests s ⊆ <[next_id s := args]> (requests s).
Proof.
  intros Hr. apply insert_subseteq. destruct (requests s !! next_id s) eqn:E; [|done].
  assert (next_id s < next_id s)%positive by (apply Hr; by eexists). lia.
Qed.

Lemma inv_write_start owner args s :
  inv owner None s -> args_ok args -> exists owner', inv owner' None (write_start args s).
Proof.
  intros Hi Hargs. pose proof Hargs as [Hv _]. pose proof (requests_grow s args (inv_requests _ _ _ Hi)) as Hrg.
  unfold write_start. destruct (buffers s !! wa_namespace args) as [a|] eqn:Hb.
  - apply (inv_buffers _ _ _ Hi) in Hb as (Ho & Ha & _).
    exists owner. eapply inv_update; [exact Hi|..]; cbn; auto; [|lia|..].
    + split; cbn; [done|done|lia|]. intros a' b' Hb'. exists b'. auto.
    + intros tid k. destruct (decide (tid = next_id s)) as [->|Hne].
      * rewrite lookup_insert_eq. intros [=<-]. right. split; [|lia]. intros _.
        cbn. rewrite lookup_insert_eq. by split_and!.
      * rewrite lookup_insert_ne by done. auto.
    + intros tx. destruct (decide (tx = next_id s)) as [->|Hne]; [right; lia|].
      rewrite lookup_insert_ne by done. auto.
  - set (a := Pos.succ (next_id s)). assert (heap s !! a = None) as Hfresh.
    { destruct (heap s !! a) eqn:E; [|done].
      assert (a < next_id s)%positive by (apply (inv_heap_id _ _ _ Hi); by eexists). lia. }
    exists (fun x => if decide (x = a) then wa_namespace args else owner x).
    assert (inv (fun x => if decide (x = a) then wa_namespace args else owner x) None s) as Hi'.
    { eapply inv_owner_ext; [|exact Hi]. intros a' [b' Hb']. destruct (decide (a' = a)); congruence. }
    eapply inv_update; [exact Hi'|..]; cbn; auto; [|lia|..].
    + split; cbn; [done|done|lia|]. intros a' b' Hb'. exists b'.
      rewrite lookup_insert_ne by congruence. auto.
    + intros a' b'. destruct (decide (a' = a)) as [->|Hne].
      * rewrite lookup_insert_eq. intros [=<-]. right. split; [|lia]. split_and!; [constructor|split; constructor|done].
      * rewrite lookup_insert_ne by done. auto.
    + intros ns a'. destruct (decide (ns = wa_namespace args)) as [->|Hne].
      * rewrite lookup_insert_eq. intros [=<-]. right. rewrite decide_True, lookup_insert_eq by done.
        split_and!; [done|by eexists|done].
      * rewrite lookup_insert_ne by done. auto.
    + intros tid k. destruct (decide (tid = next_id s)) as [->|Hne].
      * rewrite lookup_insert_eq. intros [=<-]. right. split; [|lia]. intros _.
        cbn. rewrite !lookup_insert_eq, decide_True by done. by split_and!.
      * rewrite lookup_insert_ne by done. auto.
    + intros tx. destruct (decide (tx = next_id s)) as [->|Hne]; [right; lia|].
      rewrite lookup_insert_ne by done. auto.
Qed.

Definition action_ok (a : Action) : Prop :=
  match a with AWrite args => args_ok args | _ => True end.

Lemma step_inv owner a s s' :
  inv owner None s -> action_ok a -> step config a s = Some s' -> exists owner', inv owner' None s'.
Proof.
  intros Hi Ha. destruct a as [args|c tid|d| |ns]; cbn.
  - intros [=<-]. by eapply inv_write_start.
  - intros Hs. exists owner. by eapply inv_run_task.
  - intros [=<-]. exists owner. eapply inv_update; [exact Hi|..]; cbn; auto; [|lia].
    split; cbn; [done|done|lia|]. intros a' b' Hb'. exists b'. auto.
  - intros [=<-]. exists owner. apply inv_spawn; [done|]. cbn. apply Forall_forall. intros ns Hns.
    apply elem_of_iter_keys in Hns as [a' Ha']. by apply (inv_buffers _ _ _ Hi) in Ha' as (_ & _ & ?).
  - intros [=<-]. exists owner. eapply inv_update; [exact Hi|..]; cbn; auto; [|lia|..].
    + split; cbn; [done|done|lia|]. intros a' b' Hb'. exists b'. auto.
    + intros ns' a' Ha'. apply lookup_delete_Some in Ha' as [_ ?]. by left.
Qed.

Lemma inv_new t w : inv (fun _ => ""%string) None (manager_new t w).
Proof.
  split; cbn; try (intros ? [? E]; by rewrite lookup_empty in E);
    try (intros ? ? E; by rewrite lookup_empty in E).
  by intros tx r ?%not_elem_of_nil.
Qed.
End Invariant.

(** ** The committed log *)

Lemma keys_disjoint ns ns' o o' :
  validate_namespace_name ns = Ok tt -> validate_namespace_name ns' = Ok tt -> ns <> ns' ->
  object_key ns o <> object_key ns' o'.
Proof.
  intros Hv Hv' Hne E. rewrite !object_key_path in E. by apply namespace_prefix_inj in E as [? _].
Qed.

Section Log.
Context {IO : IterOrder} {WC : WalCodec} {WL : WalCodecLaws} {MC : MetaCodec} {ML : MetaCodecLaws}.
Context {S : ObjectStore} {SL : StoreLaws}.
Context (config : WriteBufferConfig).
Context (w0 : World) (meta0 : string -> NamespaceMeta) (log0 : string -> list WalEntry).
Implicit Types s : @Manager S.

(** What the other components of the server may do to the store meanwhile: the
    indexer and the compaction change objects, never the committed log. *)
Definition log_preserved (objs objs' : Objects) : Prop :=
  forall ns m log, ns_state objs ns m log -> exists m', ns_state objs' ns m' log.

Definition set_world (w : World) s : Manager :=
  mkManager (heap s) (buffers s) (tasks s) (next_id s) (now s) w (answers s) (requests s) (commits s).

(** The states reached in [n] steps, whatever the schedule. *)
Inductive reachable (t0 : Z) : nat -> Manager -> Prop :=
| reach_new : reachable t0 0 (manager_new t0 w0)
| reach_step n s a s' : reachable t0 n s -> action_ok a -> step config a s = Some s' ->
    reachable t0 (Datatypes.S n) s'
| reach_env n s w : reachable t0 n s -> log_preserved (objects (world s)) (objects w) ->
    reachable t0 (Datatypes.S n) (set_world w s).

(** The same, as long as no read of an existing [meta.json] was misread. *)
Inductive clean_run {MO : Monitor} (t0 : Z) : nat -> Manager -> Prop :=
| clean_new : clean_run t0 0 (manager_new t0 w0)
| clean_step n s a s' : clean_run t0 n s -> action_ok a -> step config a s = Some s' ->
    misled (world s') = false -> clean_run t0 (Datatypes.S n) s'
| clean_env n s w : clean_run t0 n s -> log_preserved (objects (world s)) (objects w) ->
    misled w = false -> clean_run t0 (Datatypes.S n) (set_world w s).

Lemma clean_reachable {MO : Monitor} t0 n s : clean_run t0 n s -> reachable t0 n s.
Proof. induction 1; [constructor|by eapply reach_step|by apply reach_env]. Qed.

Lemma reachable_inv t0 n s : reachable t0 n s -> exists owner, inv config owner None s.
Proof.
  induction 1 as [|n s a s' _ [owner Hi] Ha Hs|n s w _ [owner Hi] _].
  - eexists. apply inv_new.
  - by eapply step_inv.
  - exists owner. eapply inv_update; [exact Hi|..]; cbn; auto; [|lia].
    split; cbn; [done|done|lia|]. intros a b Hb. exists b. auto.
Qed.

(** Only the append of a flush touches the store or the record of commits. *)
Definition quiet s s' : Prop := world s' = world s /\ commits s' = commits s.

Lemma quiet_request ns a s : quiet s (request_flush ns a s).
Proof. unfold request_flush. destruct (heap s !! a) as [b|]; [|done]. by destruct (nb_flush_running b). Qed.

Lemma quiet_end tid ns k ok s s1 : quiet s s1 -> quiet s (flush_end tid ns k ok s1).
Proof. intros Hq. destruct k; [done|]. by destruct ok. Qed.

Lemma quiet_arm c ns a s : quiet s (arm_cooldown_flush_timer config c ns a s).
Proof.
  unfold arm_cooldown_flush_timer. destruct (heap s !! a) as [b|]; [|done]. destruct c; [done|].
  by destruct (pending _ && _).
Qed.

Lemma run_flush_quiet tid ns by_ k p s s' :
  run_flush config tid ns by_ k p s = Some s' ->
  quiet s s' \/ exists a d, p = PAppend a d /\ flush_append tid ns by_ k a d s = Some s'.
Proof.
  destruct p as [|a|a|a|a|a d|a ws r]; cbn.
  - unfold flush_lookup. destruct (buffers s !! ns); intros [=<-]; left; [done|by apply quiet_end].
  - unfold flush_acquire. destruct (heap s !! a) as [b|]; cbn; [|done].
    destruct (nb_flush_lock b); intros [=<-]. by left.
  - unfold flush_cool. destruct (heap s !! a) as [b|]; cbn; [|done].
    destruct (_ =? 0); intros [=<-]. by left.
  - unfold flush_drain. destruct (heap s !! a) as [b|]; cbn; [|done].
    destruct (drained_empty _); intros [=<-]; by left.
  - unfold flush_empty. destruct (heap s !! a) as [b|]; cbn; [|done].
    destruct (if drained_empty _ then _ else _) as [st ws]. intros [=<-]. left. by apply quiet_end.
  - intros Hs. right. by exists a, d.
  - unfold flush_done. destruct (heap s !! a) as [b|]; cbn; [|done].
    destruct r as [[seq e]|e]; intros [=<-]; left; by apply quiet_end.
Qed.

Lemma step_quiet a s s' :
  step config a s = Some s' ->
  quiet s s' \/ exists tid ns by_ k buf d,
    tasks s !! tid = Some (TFlush ns by_ k (PAppend buf d)) /\
    flush_append tid ns by_ k buf d s = Some s'.
Proof.
  destruct a as [args|c tid|d| |ns]; cbn; try (intros [=<-]; by left).
  - intros [=<-]. left. unfold write_start. by destruct (buffers s !! _).
  - unfold run_task. destruct (tasks s !! tid) as [k|] eqn:Ht; cbn [mbind option_bind]; [|done].
    destruct k as [a args|ns a|ns a|due ns a|ns by_ k p|ns a|ns a|names|ns rest].
    + unfold run_enqueue. destruct (heap s !! a) as [b|]; cbn; [|done].
      destruct (enqueue _ _ _) as [st [[]|e]]; [|intros [=<-]; by left].
      destruct (_ || _); [intros [=<-]; by left|]. destruct (b_timer st); intros [=<-]; by left.
    + unfold run_kick. destruct (heap s !! a) as [b|]; cbn; [|done]. intros [=<-]. left.
      destruct (b_timer (nb_state b)) as [t|]; [|done]. by destruct (tasks s !! t) as [[]|].
    + intros [=<-]. left. apply (quiet_request ns a (end_task tid s)).
    + destruct (due <=? now s); intros [=<-]. left. apply (quiet_request ns a (end_task tid s)).
    + intros [Hq|(a & d & -> & Hs)]%run_flush_quiet; [by left|]. right. by eauto 10.
    + destruct (heap s !! a) as [b|]; intros [=<-]. by left.
    + unfold run_after_check. destruct (heap s !! a) as [b|]; cbn; [|done].
      destruct (negb _); [intros [=<-]; by left|]. destruct (_ =? 0); intros [=<-]; left.
      * apply (quiet_request ns a (end_task tid s)).
      * apply (quiet_arm c ns a (end_task tid s)).
    + destruct names; intros [=<-]; by left.
    + unfold run_all_check. destruct (buffers s !! ns) as [a|]; [|intros [=<-]; by left].
      destruct (heap s !! a) as [b|]; intros [=<-]. by left.
Qed.

(** Every valid namespace has a log that extends the initial one and holds each
    recorded commit at its sequence number. *)
Definition log_inv (n : nat) s : Prop :=
  forall ns, validate_namespace_name ns = Ok tt ->
  exists m log, ns_state (objects (world s)) ns m log /\ log0 ns `prefix_of` log /\
    lenZ log <= lenZ (log0 ns) + Z.of_nat n /\
    Forall (fun c => c_namespace c = ns -> lenZ (log0 ns) < c_seq c /\
              log !! Z.to_nat (c_seq c - 1) = Some (c_entry c)) (commits s).

Lemma ns_state_other ns ns' objs objs' m log seq :
  validate_namespace_name ns = Ok tt -> validate_namespace_name ns' = Ok tt -> ns <> ns' ->
  (forall k, k <> wal_key ns' seq -> k <> meta_key ns' -> objs' !! k = objs !! k) ->
  ns_state objs ns m log -> ns_state objs' ns m log.
Proof.
  intros Hv Hv' Hne Hf. apply ns_state_frame. intros k Hk.
  assert (exists o, k = object_key ns o) as [o ->].
  { destruct Hk as [->|[->|(q & -> & _)]]; [by exists OMeta|by exists OSnapshot|by exists (OWal q)]. }
  apply Hf; [apply (keys_disjoint _ _ _ (OWal seq))|apply (keys_disjoint _ _ _ OMeta)]; done.
Qed.

Context {MO : Monitor}.

(** What an append does to the log of its namespace. *)
Lemma append_log ns m log entry patch metric w w' r :
  lenZ log < u64_max -> ns_state (objects w) ns m log -> entry_ok entry = true -> schema_exact patch ->
  append_wal ns entry patch metric w = (w', r) -> misled w' = false ->
  (exists m' l', ns_state (objects w') ns m' (log ++ l') /\ lenZ l' <= 1 /\
     forall seq, r = Ok seq -> seq = lenZ log + 1 /\ l' = [entry]) /\
  forall k, k <> wal_key ns (lenZ log + 1) -> k <> meta_key ns -> objects w' !! k = objects w !! k.
Proof.
  intros Hl Hst He Hp Ha Hclean. assert (before_commit ns m log (objects w) (objects w)) as Hb by done.
  pose proof (append_loop_post (S := recognised S) ns m log entry patch metric Hl He Hp META_RETRIES _ _ Hb) as Hpost.
  destruct (agree_append_loop META_RETRIES ns entry patch metric w) as [_ E]. unfold append_wal in Ha. rewrite Ha in E.
  unfold st_post in Hpost. rewrite <- (E Hclean) in Hpost.
  destruct r as [seq|e]; cbn in Hpost.
  - destruct Hpost as [-> [(m' & _ & Hst') Hf]]. split; [|done]. exists m', [entry].
    split; [done|]. split; [unfold lenZ; cbn; lia|]. by intros seq [=->].
  - destruct Hpost as [[Hst' Hf]|[(m' & _ & Hst') Hf]]; (split; [|by auto]).
    + exists m, []. rewrite app_nil_r. split; [done|]. split; [unfold lenZ; cbn; lia|done].
    + exists m', [entry]. split; [done|]. split; [unfold lenZ; cbn; lia|done].
Qed.

Lemma log_inv_append n owner s s' tid ns by_ k buf d :
  (forall ns, lenZ (log0 ns) + Z.of_nat n < u64_max) ->
  inv config owner None s -> log_inv n s ->
  tasks s !! tid = Some (TFlush ns by_ k (PAppend buf d)) ->
  flush_append tid ns by_ k buf d s = Some s' -> misled (world s') = false -> log_inv (Datatypes.S n) s'.
Proof.
  intros Hn Hi Hlog Ht. pose proof (inv_tasks _ _ _ _ Hi _ _ Ht ltac:(done)) as (Hv & _ & Hp).
  destruct Hp as (_ & _ & _ & [Hf1 Hf2] & Hs). unfold flush_append.
  destruct (from_write _ _ _) as [entry|e] eqn:Hfw; [|intros [=<-] _ ns' Hv'].
  2: { destruct (Hlog ns' Hv') as (m & log & H1 & H2 & H3 & H4). exists m, log. split_and!; try done. lia. }
  destruct (append_wal ns entry _ _ (world s)) as [w r] eqn:Ha. intros [=<-] Hclean ns' Hv'.
  assert (entry_ok entry = true) as He.
  { destruct (from_write_documents _ _ _ _ Hf1 Hf2 Hfw) as (E1 & E2 & _).
    unfold entry_ok. by rewrite E1, E2. }
  destruct (Hlog ns Hv) as (m & log & Hst & Hpre & Hlen & Hc).
  assert (lenZ log < u64_max) as Hmax by (specialize (Hn ns); lia).
  destruct (append_log _ _ _ _ _ _ _ _ _ Hmax Hst He Hs Ha Hclean)
    as [(m' & l' & Hst' & Hl' & Hok) Hframe].
  cbn [world commits goto set_task set_tasks]. destruct (decide (ns' = ns)) as [->|Hne].
  - exists m', (log ++ l'). split; [done|]. split; [by apply prefix_app_r|].
    split; [unfold lenZ in *; rewrite length_app; lia|]. apply Forall_app. split.
    + eapply Forall_impl; [exact Hc|]. intros c Hc' Hns. destruct (Hc' Hns) as [? ?].
      split; [done|]. by apply lookup_app_l_Some.
    + destruct r as [seq|]; [|constructor]. destruct (Hok seq eq_refl) as [-> ->].
      constructor; [|constructor]. intros _. cbn. apply prefix_length in Hpre. unfold lenZ in *.
      split; [lia|]. rewrite lookup_app_r by lia.
      by replace (Z.to_nat _ - _)%nat with 0%nat by lia.
  - destruct (Hlog ns' Hv') as (m1 & log1 & Hst1 & Hpre1 & Hlen1 & Hc1). exists m1, log1.
    split; [by apply (ns_state_other ns' ns (objects (world s)) _ _ _ (lenZ log + 1))|]. split; [done|]. split; [lia|]. apply Forall_app. split; [done|].
    destruct r; [|constructor]. constructor; [|constructor]. cbn. congruence.
Qed.

Hypothesis initial_state : forall ns, validate_namespace_name ns = Ok tt ->
  ns_state (objects w0) ns (meta0 ns) (log0 ns).

Lemma log_inv_mono n n' s s' :
  (n <= n')%nat -> quiet s s' -> log_inv n s -> log_inv n' s'.
Proof.
  intros Hn [Hw Hc] Hlog ns Hv. destruct (Hlog ns Hv) as (m & log & H1 & H2 & H3 & H4).
  exists m, log. rewrite Hw, Hc. split_and!; try done. lia.
Qed.

Lemma clean_log t0 n s :
  clean_run t0 n s -> (forall ns, lenZ (log0 ns) + Z.of_nat n < u64_max) -> log_inv n s.
Proof.
  induction 1 as [|n s a s' Hr IH Ha Hs Hc|n s w Hr IH Hp Hc]; intros Hn.
  - intros ns Hv. exists (meta0 ns), (log0 ns). split_and!; [by apply initial_state|done|lia|constructor].
  - assert (forall ns, lenZ (log0 ns) + Z.of_nat n < u64_max) as Hn' by (intros ns; specialize (Hn ns); lia).
    specialize (IH Hn'). apply step_quiet in Hs as [Hq|(tid & ns & by_ & k & buf & d & Ht & Hs)].
    + apply (log_inv_mono n _ s); [lia|done..].
    + destruct (reachable_inv _ _ _ (clean_reachable _ _ _ Hr)) as [owner Hi]. by eapply log_inv_append.
  - assert (forall ns, lenZ (log0 ns) + Z.of_nat n < u64_max) as Hn' by (intros ns; specialize (Hn ns); lia).
    intros ns Hv. destruct (IH Hn' ns Hv) as (m & log & H1 & H2 & H3 & H4).
    destruct (Hp _ _ _ H1) as [m' H1']. exists m', log. split_and!; try done. lia.
Qed.
End Log.

(** ** Theorems *)

(** C2: an acknowledged write of rows is durable.  Whatever the schedule of
    writers, timers, flushes, shutdown flushes, dropped buffers and store
    failures, and whatever the other components do to the store without changing
    the log, in a run in which no read of an existing [meta.json] was misread
    ([clean_run]), of writes whose rows the JSON codec reads back as they are and
    whose schema patches have no floats ([action_ok]): if a writer with rows (a write of a schema alone can be
    lost, see [schema_error_loses_queued_schema]) was answered [Ok], the log of its namespace in the store
    holds the acknowledged entry at the acknowledged sequence number, after the
    log the server started with, and that entry is the encoding of a batch that
    contains the writer's rows. *)
Theorem ack_durable {IO : IterOrder} {WC : WalCodec} {WL : WalCodecLaws} {MC : MetaCodec}
    {ML : MetaCodecLaws} {S : ObjectStore} {SL : StoreLaws} {MO : Monitor}
    config w0 meta0 log0 t0 n s tx batch args :
  (forall ns, validate_namespace_name ns = Ok tt -> ns_state (objects w0) ns (meta0 ns) (log0 ns)) ->
  (forall ns, lenZ (log0 ns) + Z.of_nat n < u64_max) ->
  clean_run config w0 t0 n s ->
  (tx, Ok batch) ∈ answers s -> requests s !! tx = Some args ->
  validate_namespace_name (wa_namespace args) = Ok tt -> ~ no_rows args ->
  exists m log ups pats dels,
    ns_state (objects (world s)) (wa_namespace args) m log /\
    log0 (wa_namespace args) `prefix_of` log /\
    lenZ (log0 (wa_namespace args)) < cb_seq batch /\
    log !! Z.to_nat (cb_seq batch - 1) = Some (cb_entry batch) /\
    from_write ups pats dels = Ok (cb_entry batch) /\ covers ups pats dels args.
Proof.
  intros H0 Hn Hr Hin Hreq Hv Hrows.
  destruct (reachable_inv _ _ _ _ _ (clean_reachable _ _ _ _ _ Hr)) as [owner Hi].
  destruct (inv_answers _ _ _ _ Hi _ _ Hin) as (a & Ha & _ & Hok).
  rewrite Hreq in Ha. injection Ha as <-. destruct Hok as [?|[Hc (ups & pats & dels & Hf & Hcov)]]; [done|].
  destruct (clean_log config w0 meta0 log0 H0 _ _ _ Hr Hn _ Hv) as (m & log & Hst & Hpre & _ & Hall).
  rewrite Forall_forall in Hall. destruct (Hall _ Hc eq_refl) as [Hlt Hlog].
  by exists m, log, ups, pats, dels.
Qed.

(** C26: the commit rate limit: a flush that did not bypass the limit and is
    appending, or about to record its commit, runs at least
    [min_commit_interval] after the previous recorded commit of its buffer; and
    it is the only flush in that part of the code on that buffer. *)
Theorem commit_rate_limited {IO : IterOrder} {WC : WalCodec} {MC : MetaCodec} {S : ObjectStore}
    config w0 t0 n s tid ns k p a b :
  0 < min_commit_interval config ->
  reachable config w0 t0 n s ->
  tasks s !! tid = Some (TFlush ns false k p) ->
  (exists d, p = PAppend a d) \/ (exists ws r, p = PDone a ws r) -> heap s !! a = Some b ->
  (forall t, nb_last_committed_at b = Some t -> t + min_commit_interval config <= now s) /\
  (forall tid' ns' by_ k' p', tasks s !! tid' = Some (TFlush ns' by_ k' p') ->
     (exists d, p' = PAppend a d) \/ (exists ws r, p' = PDone a ws r) -> tid' = tid).
Proof.
  intros Hpos Hr Ht Hp Hb. destruct (reachable_inv _ _ _ _ _ Hr) as [owner Hi].
  assert (forall tid' ns' by_ k' p', tasks s !! tid' = Some (TFlush ns' by_ k' p') ->
    (exists d, p' = PAppend a d) \/ (exists ws r, p' = PDone a ws r) ->
    holds_lock config s tid' a (negb by_)) as Hlock.
  { intros tid' ns' by_ k' p' Ht' Hp'. apply (inv_tasks _ _ _ _ Hi) in Ht' as (_ & _ & Hph); [|done].
    destruct Hp' as [(d & ->)|(ws & r & ->)]; by destruct Hph as (_ & ? & _). }
  destruct (Hlock _ _ _ _ _ Ht Hp) as (b1 & Hb1 & Hl & Hc). replace b1 with b in * by congruence. split.
  - intros t Et. specialize (Hc eq_refl). rewrite Et in Hc. cbn in Hc. unfold sat_sub in Hc. lia.
  - intros tid' ns' by_ k' p' Ht' Hp'. destruct (Hlock _ _ _ _ _ Ht' Hp') as (b2 & Hb2 & Hl2 & _). congruence.
Qed.

(** ** Witnesses *)

Section Runs.
Context {IO : IterOrder} {WC : WalCodec} {MC : MetaCodec} {S : ObjectStore}.

Lemma run_reachable config w0 t0 l n s s' :
  reachable config w0 t0 n s -> Forall action_ok l -> run config l s = Some s' ->
  reachable config w0 t0 (n + length l) s'.
Proof.
  revert n s. induction l as [|a l IH]; intros n s Hr Hall; cbn [run length].
  - intros [=<-]. by rewrite Nat.add_0_r.
  - apply Forall_cons in Hall as [Ha Hall].
    destruct (step config a s) as [s1|] eqn:Hs; cbn; [|done]. intros Hrun.
    rewrite Nat.add_succ_r, <- Nat.add_succ_l. eapply IH; [|done|done]. by eapply reach_step.
Qed.

(** On a store that never misreads every run is clean. *)
Lemma calm_clean {HM : NoMisreads} config w0 t0 n s :
  reachable config w0 t0 n s -> clean_run (MO := calm_monitor) config w0 t0 n s.
Proof. induction 1; [constructor|by eapply clean_step|by apply clean_env]. Qed.
End Runs.

Definition one_row (id : string) : WriteArgs :=
  mkArgs "ns" [tier_doc id "free"] [] [] None None (mkWriteStats 1 0 0 None None None).

Definition demo_manager : @Manager calm_store := @manager_new calm_store 0 (mkMem ∅ 0 []).

Definition demo_run (l : list Action) : option (@Manager calm_store) :=
  @run canonical_order demo_codec demo_metas calm_store default_config l demo_manager.

Definition demo_reachable (n : nat) (s : @Manager calm_store) : Prop :=
  @reachable canonical_order demo_codec demo_metas calm_store default_config (mkMem ∅ 0 []) 0 n s.

Lemma one_row_ok id : @action_ok canonical_order demo_codec (AWrite (one_row id)).
Proof.
  split; [reflexivity|]. split; [|done]. split; [|constructor]. constructor; [|constructor].
  intros b. vm_compute. by intros [=<-].
Qed.

Lemma demo_run_reachable l :
  Forall (@action_ok canonical_order demo_codec) l -> bool_decide (is_Some (demo_run l)) = true ->
  demo_reachable (length l) (default demo_manager (demo_run l)).
Proof.
  intros Hall Hs%bool_decide_eq_true. destruct (demo_run l) as [s|] eqn:Hr; [|by destruct Hs].
  apply (run_reachable default_config _ 0 l 0 demo_manager); [constructor|done|done].
Qed.

(** One write, flushed by its timer: the schedule up to the append and to the
    end of the flush. *)
Definition append_schedule : list Action :=
  let flush := ARun false 4 in
  [AWrite (one_row "a"); ARun false 1; ASleep 1000; ARun false 3; flush; flush; flush; flush].
Definition ack_schedule : list Action := append_schedule ++ [ARun false 4; ARun false 4].

Definition append_state : @Manager calm_store := default demo_manager (demo_run append_schedule).
Definition ack_state : @Manager calm_store := default demo_manager (demo_run ack_schedule).

Lemma append_schedule_ok : Forall (@action_ok canonical_order demo_codec) append_schedule.
Proof. constructor; [apply one_row_ok|]. by repeat constructor. Qed.

Definition acked_batch : CommittedBatch :=
  mkCommitted 1 (put_entry "a") (mkWriteStats 1 0 0 None None None).

Lemma ack_durable_witness :
  exists m log ups pats dels,
    @ns_state canonical_order demo_codec demo_metas (@objects calm_store (world ack_state)) "ns" m log /\
    [] `prefix_of` log /\ lenZ (@nil WalEntry) < 1 /\
    log !! Z.to_nat (1 - 1) = Some (put_entry "a") /\
    @from_write canonical_order demo_codec ups pats dels = Ok (put_entry "a") /\
    covers ups pats dels (one_row "a").
Proof.
  apply (@ack_durable canonical_order demo_codec (table_codec_laws _ _ _) demo_metas (meta_table_laws _)
    calm_store calm_store_laws calm_monitor default_config (mkMem ∅ 0 []) (fun _ => default_meta)
    (fun _ => []) 0 (length ack_schedule) ack_state 1 acked_batch (one_row "a")).
  - intros ns _. by apply ns_state_empty.
  - intros ns. vm_compute. reflexivity.
  - apply calm_clean. refine (demo_run_reachable ack_schedule _ _); [|vm_compute; reflexivity].
    apply Forall_app. split; [apply append_schedule_ok|by repeat constructor].
  - vm_compute. left.
  - vm_compute. reflexivity.
  - reflexivity.
  - intros (E & _). discriminate.
Defined.

Lemma commit_rate_limited_witness :
  exists b, heap append_state !! 2%positive = Some b /\
  (forall t, nb_last_committed_at b = Some t -> t + 1000 <= now append_state) /\
  (forall tid' ns' by_ k' p', tasks append_state !! tid' = Some (TFlush ns' by_ k' p') ->
     (exists d, p' = PAppend 2 d) \/ (exists ws r, p' = PDone 2 ws r) -> tid' = 4%positive).
Proof.
  destruct (heap append_state !! 2%positive) as [b|] eqn:Hb; [|exfalso; revert Hb; vm_compute; discriminate].
  exists b. split; [reflexivity|].
  apply (@commit_rate_limited canonical_order demo_codec demo_metas calm_store default_config
    (mkMem ∅ 0 []) 0 (length append_schedule) append_state 4 "ns" (KAfter 2)
    (PAppend 2 (mkDrained [tier_doc "a" "free"] [] [] None None [mkWaiter (mkWriteStats 1 0 0 None None None) 1])) 2 b).
  - reflexivity.
  - refine (demo_run_reachable append_schedule _ _); [apply append_schedule_ok|vm_compute; reflexivity].
  - vm_compute. reflexivity.
  - left. by eexists.
  - exact Hb.
Defined.

(** ** Findings *)

(** A second write arrives while the first is being committed, and the commit
    takes longer than the timer of the second write. *)
Definition slow_commit_schedule : list Action :=
  let flush := ARun false 4 in
  append_schedule ++
  [AWrite (one_row "b"); ARun false 5; ASleep 1500; ARun false 6; flush; flush; flush; flush].

(** a write can be left waiting for ever.  A timer that fires while a flush
    runs does nothing, yet its handle stays in the buffer; when the slow flush
    ends, [arm_cooldown_flush_timer] sees the handle and arms no new timer, and
    so does every later [write].  In the schedule, after an hour and a third
    write no task is left to run while two acknowledged-to-nobody writes sit in
    the buffer. *)
Theorem stale_timer_strands_writes :
  match demo_run (slow_commit_schedule ++ [ASleep 3600000; AWrite (one_row "c"); ARun false 7]) with
  | Some s =>
      tasks s = ∅ /\ (answers s).*1 = [1%positive] /\
      match heap s !! 2%positive with
      | Some b => ww_tx <$> b_waiters (nb_state b) = [5%positive; 7%positive] /\
                  doc_id <$> b_upserts (nb_state b) = ["b"; "c"]
      | None => False
      end
  | None => False
  end.
Proof. vm_compute. done. Qed.

Definition schema_write (fields : list string) : WriteArgs :=
  mkArgs "ns" [] [] [] (Some (VObject ((fun f => (f, VString "[2]f32")) <$> fields))) None
    (mkWriteStats 0 0 0 None None None).

(** a schema change can be acknowledged and lost.  [write] takes the queued
    schema patch out of the buffer before it merges the new one; when the merge
    fails the taken patch is gone, and the flush of the first writer finds an
    empty buffer and answers it with sequence number 0 although nothing was
    committed. *)
Theorem schema_error_loses_queued_schema :
  match demo_run [AWrite (schema_write ["v"]); ARun false 1;
                  AWrite (schema_write ["x"; "y"; "z"]); ARun false 3;
                  ARun false 1; ARun false 1;
                  ARun false 4; ARun false 4; ARun false 4; ARun false 4; ARun false 4] with
  | Some s => answers s = [(3%positive, Err (BufSchema (TooManyVectorFields 4)));
                           (1%positive, Ok (mkCommitted 0 empty_entry (mkWriteStats 0 0 0 None None None)))] /\
              commits s = [] /\ mem_objects (world s) = ∅
  | None => False
  end.
Proof. vm_compute. done. Qed.

(** a batch that is being committed is invisible to conditional writes: the
    rows of a drained batch are neither in the committed documents nor in the
    overlay of queued operations, so a condition such as "no document with this
    id" holds for a second write of the same id. *)
Theorem inflight_batch_invisible :
  tasks append_state !! 4%positive =
    Some (TFlush "ns" false (KAfter 2)
      (PAppend 2 (mkDrained [tier_doc "a" "free"] [] [] None None
                    [mkWaiter (mkWriteStats 1 0 0 None None None) 1]))) /\
  mem_objects (world append_state) = ∅ /\
  @overlay_pending_writes canonical_order demo_codec calm_store "ns" ∅ append_state = (∅, Ok tt).
Proof. vm_compute. done. Qed.
