(* ===== verification/VectorEncoding.v ===== *)
(** * Vector wire format ([vector_encoding.rs])

    Vector attributes arrive as JSON arrays of numbers or as base64 strings of
    little-endian [f32] or [f16] values, are stored as arrays, and are projected
    into query rows in the requested encoding. *)

From Stdlib Require Import ZArith Lia Bool SpecFloat.
From stdpp Require Import base gmap strings list.
From S2P Require Import Prelude F64 Json Models Schema Meta Wal.

(** ** [f32]

    A single is a [spec_float] at precision 24; [as f32] rounds to it, the cast
    back is exact. *)

Definition f32_prec : Z := 24.
Definition f32_emax : Z := 128.

(** [x as f32]. *)
Definition f32_of_f64 (x : f64) : spec_float :=
  match x with
  | S754_finite s m e => binary_normalize f32_prec f32_emax (cond_Zopp s (Z.pos m)) e s
  | _ => x
  end.

(** [x as f64] of a single: exact, in the normal form of a double. *)
Definition f64_of_f32 (x : spec_float) : f64 :=
  match x with
  | S754_finite s m e => binary_normalize f64_prec f64_emax (cond_Zopp s (Z.pos m)) e s
  | _ => x
  end.

(** [f32::to_bits] and [f32::from_bits]; a NaN has the quiet pattern. *)
Definition f32_to_bits (x : spec_float) : Z :=
  let sign (s : bool) := if s then 2 ^ 31 else 0 in
  match x with
  | S754_zero s => sign s
  | S754_infinity s => sign s + 255 * 2 ^ 23
  | S754_nan => 255 * 2 ^ 23 + 2 ^ 22
  | S754_finite s m e =>
      if Z.pos m <? 2 ^ 23 then sign s + Z.pos m
      else sign s + (e + 150) * 2 ^ 23 + (Z.pos m - 2 ^ 23)
  end.

Definition f32_finite (s : bool) (m e : Z) : spec_float :=
  match m with Zpos p => S754_finite s p e | _ => S754_zero s end.

Definition f32_from_bits (b : Z) : spec_float :=
  let s := 2 ^ 31 <=? b in
  let r := b mod 2 ^ 31 in
  let ex := r / 2 ^ 23 in
  let frac := r mod 2 ^ 23 in
  if ex =? 255 then if frac =? 0 then S754_infinity s else S754_nan
  else if ex =? 0 then f32_finite s frac (-149)
  else f32_finite s (frac + 2 ^ 23) (ex - 150).

(** ** Parameters *)

(** The crates the code calls: [base64] with the standard alphabet, and the
    conversions of [half::f16], whose values are their 16 bits. *)
Class VectorLib : Type := {
  b64_decode : string -> option bytes;
  b64_encode : bytes -> string;
  f16_to_f64 : Z -> f64;
  f16_from_f32 : spec_float -> Z
}.

Inductive VectorEncoding : Type := EncFloat | EncBase64.

Inductive IncludeVectors : Type :=
| IVUnspecified
| IVExclude
| IVAll
| IVFields (fields : list string).

Inductive VecError : Type :=
| UnknownEncoding (s : string)
| IncludeVectorsShape
| IncludeVectorsNames
| IncludeVectorsEmpty
| InvalidBase64
| BadByteLength (unit_len : Z)
| ExpectedVector
| ElementNotNumber.

Definition parse_vector_encoding (s : option string) : result VecError VectorEncoding :=
  match to_ascii_lowercase <$> s with
  | None => Ok EncFloat
  | Some e =>
      if String.eqb e "float" then Ok EncFloat
      else if String.eqb e "base64" then Ok EncBase64
      else Err (UnknownEncoding e)
  end.

Definition parse_include_vectors (v : option Value) : result VecError IncludeVectors :=
  match v with
  | None | Some VNull => Ok IVUnspecified
  | Some (VBool b) => Ok (if b then IVAll else IVExclude)
  | Some (VArray arr) =>
      let? fields := collect_result (fun x => ok_or (as_str x) IncludeVectorsNames) arr in
      match fields with
      | [] => Err IncludeVectorsEmpty
      | _ => Ok (IVFields fields)
      end
  | Some _ => Err IncludeVectorsShape
  end.

(** Little-endian [u32] and [u16] of a chunk. *)
Definition le32 (c : list Z) : Z :=
  match c with [a; b; c; d] => a + 256 * b + 65536 * c + 16777216 * d | _ => 0 end.
Definition le16 (c : list Z) : Z := match c with [a; b] => a + 256 * b | _ => 0 end.

(** [chunks_exact(4)] and [chunks_exact(2)]. *)
Fixpoint chunks4 (b : bytes) : list (list Z) :=
  match b with
  | w :: x :: y :: z :: rest => [w; x; y; z] :: chunks4 rest
  | _ => []
  end.
Fixpoint chunks2 (b : bytes) : list (list Z) :=
  match b with
  | w :: x :: rest => [w; x] :: chunks2 rest
  | _ => []
  end.

(** [u32::to_le_bytes]. *)
Definition le32_bytes (w : Z) : bytes :=
  [w mod 256; (w / 256) mod 256; (w / 65536) mod 256; (w / 16777216) mod 256].
Definition le16_bytes (w : Z) : bytes := [w mod 256; (w / 256) mod 256].

(** [json!(x)] of an [f64]: not a number is [null]. *)
Definition json_f64 (x : f64) : Value :=
  if f64_is_finite x then VNumber (Float x) else VNull.

Section Encoding.
Context {VL : VectorLib}.

Definition decode_base64_f32_le (s : string) : result VecError (list f64) :=
  let? b := ok_or (b64_decode (str_trim s)) InvalidBase64 in
  if negb (lenZ b mod 4 =? 0) then Err (BadByteLength 4)
  else Ok ((fun c => f64_of_f32 (f32_from_bits (le32 c))) <$> chunks4 b).

Definition decode_base64_f16_le (s : string) : result VecError (list f64) :=
  let? b := ok_or (b64_decode (str_trim s)) InvalidBase64 in
  if negb (lenZ b mod 2 =? 0) then Err (BadByteLength 2)
  else Ok ((fun c => f16_to_f64 (le16 c)) <$> chunks2 b).

(** Every number of the model has an [as_f64], so the [as_i64] fallback is
    never reached. *)
Definition decode_vector_value_with_element (v : Value) (element : option VectorElement)
  : result VecError (list f64) :=
  match as_str v with
  | Some s =>
      match element with
      | Some F16 => decode_base64_f16_le s
      | Some F32 | None => decode_base64_f32_le s
      end
  | None =>
      let? arr := ok_or (as_array v) ExpectedVector in
      collect_result (fun x => ok_or (as_f64 x) ElementNotNumber) arr
  end.

Definition decode_vector_value (v : Value) : result VecError (list f64) :=
  decode_vector_value_with_element v None.

Definition value_to_f64_vec (v : Value) : result VecError (list f64) := decode_vector_value v.

Definition f64_slice_to_f16_le (values : list f64) : bytes :=
  concat ((fun v => le16_bytes (f16_from_f32 (f32_of_f64 v))) <$> values).

Definition f64_slice_to_f32_le (values : list f64) : bytes :=
  concat ((fun v => le32_bytes (f32_to_bits (f32_of_f64 v))) <$> values).

Definition encode_vector (values : list f64) (encoding : VectorEncoding) (element : VectorElement) : Value :=
  match encoding with
  | EncFloat => VArray (json_f64 <$> values)
  | EncBase64 =>
      match element with
      | F32 => VString (b64_encode (f64_slice_to_f32_le values))
      | F16 => VString (b64_encode (f64_slice_to_f16_le values))
      end
  end.

Definition is_vector_value (v : Value) : bool := is_ok (decode_vector_value v).

Definition field_is_vector_in_schema (meta : NamespaceMeta) (name : string) : bool :=
  match as_object (schema meta) ≫= (fun o => obj_get o name) with
  | Some spec => field_is_vector_spec spec
  | None => false
  end.
End Encoding.

Section Projection.
Context {IO : IterOrder} {VL : VectorLib}.

Definition vector_field_names (meta : NamespaceMeta) (doc : option Document) : list string :=
  match vector_fields_from_schema (schema meta) with
  | [] =>
      match doc with
      | Some doc => (filter (fun kv => is_vector_value kv.2 = true) (iter_map (doc_attributes doc))).*1
      | None => []
      end
  | from_schema => from_schema
  end.

(** One key of [normalize_document_vectors]; an error leaves the key removed. *)
Definition normalize_key (meta : NamespaceMeta) (attrs : gmap string Value) (key : string)
  : gmap string Value * result VecError unit :=
  match attrs !! key with
  | None => (attrs, Ok tt)
  | Some raw =>
      if field_is_vector_in_schema meta key || is_vector_value raw then
        let element := vector_element_for_field (schema meta) key in
        match decode_vector_value_with_element raw (Some element) with
        | Ok decoded => (<[key := VArray (json_f64 <$> decoded)]> (delete key attrs), Ok tt)
        | Err e => (delete key attrs, Err e)
        end
      else (attrs, Ok tt)
  end.

Fixpoint normalize_keys (meta : NamespaceMeta) (keys : list string) (attrs : gmap string Value)
  : gmap string Value * result VecError unit :=
  match keys with
  | [] => (attrs, Ok tt)
  | key :: rest =>
      match normalize_key meta attrs key with
      | (attrs', Ok _) => normalize_keys meta rest attrs'
      | (attrs', Err e) => (attrs', Err e)
      end
  end.

Definition normalize_document_vectors (attrs : gmap string Value) (meta : NamespaceMeta)
  : gmap string Value * result VecError unit := normalize_keys meta (iter_keys attrs) attrs.

Definition is_exclude (iv : IncludeVectors) : bool := match iv with IVExclude => true | _ => false end.
Definition is_unspecified (iv : IncludeVectors) : bool := match iv with IVUnspecified => true | _ => false end.
Definition adds_vectors (iv : IncludeVectors) : bool :=
  match iv with IVAll | IVFields _ => true | _ => false end.

(** The attributes selected by [include_attributes]. *)
Definition project_plain (doc : Document) (meta : NamespaceMeta) (names : option (gset string))
    (iv : IncludeVectors) : gmap string Value :=
  let is_vec k v := field_is_vector_in_schema meta k || is_vector_value v in
  match names with
  | None => filter (fun kv => ((is_exclude iv || is_unspecified iv) && is_vec kv.1 kv.2) = false)
              (doc_attributes doc)
  | Some names => filter (fun kv => kv.1 ∈ names /\ (is_exclude iv && is_vec kv.1 kv.2) = false)
              (doc_attributes doc)
  end.

Definition add_vector (doc : Document) (meta : NamespaceMeta) (encoding : VectorEncoding)
    (out : gmap string Value) (field : string) : gmap string Value :=
  match doc_attributes doc !! field with
  | None => out
  | Some raw =>
      match decode_vector_value raw with
      | Ok vec =>
          <[field := encode_vector vec encoding (vector_element_for_field (schema meta) field)]> out
      | Err _ => out
      end
  end.

Definition project_row_attributes (doc : Document) (meta : NamespaceMeta) (include_attrs : bool)
    (include_attr_names : option (gset string)) (iv : IncludeVectors) (encoding : VectorEncoding)
  : option (gmap string Value) :=
  if negb include_attrs && negb (adds_vectors iv) then None
  else
    let vector_names :=
      match iv with
      | IVUnspecified | IVExclude => []
      | IVAll => vector_field_names meta (Some doc)
      | IVFields fields => fields
      end in
    let out := if include_attrs then project_plain doc meta include_attr_names iv else ∅ in
    let out := fold_left (add_vector doc meta encoding) vector_names out in
    if decide (out = ∅) then None else Some out.
End Projection.

(** ** Single-precision bits *)

(** The singles: a subnormal or a normal 24-bit significand. *)
Definition f32_valid (x : spec_float) : bool :=
  match x with
  | S754_finite _ m e =>
      ((Z.pos m <? 2 ^ 23) && (e =? -149)) ||
      ((2 ^ 23 <=? Z.pos m) && (Z.pos m <? 2 ^ 24) && (-149 <=? e) && (e <=? 104))
  | _ => true
  end.

Lemma f32_from_bits_split (s : bool) ex frac :
  0 <= ex <= 255 -> 0 <= frac < 2 ^ 23 ->
  f32_from_bits ((if s then 2 ^ 31 else 0) + ex * 2 ^ 23 + frac) =
  if ex =? 255 then if frac =? 0 then S754_infinity s else S754_nan
  else if ex =? 0 then f32_finite s frac (-149)
  else f32_finite s (frac + 2 ^ 23) (ex - 150).
Proof.
  intros He Hf. unfold f32_from_bits.
  assert (0 <= ex * 2 ^ 23 + frac < 2 ^ 31) as Hr by lia.
  assert ((2 ^ 31 <=? (if s then 2 ^ 31 else 0) + ex * 2 ^ 23 + frac) = s) as ->.
  { destruct s; [apply Z.leb_le; lia|apply Z.leb_gt; lia]. }
  assert (((if s then 2 ^ 31 else 0) + ex * 2 ^ 23 + frac) mod 2 ^ 31 = ex * 2 ^ 23 + frac) as ->.
  { destruct s.
    - replace (2 ^ 31 + ex * 2 ^ 23 + frac) with (ex * 2 ^ 23 + frac + 1 * 2 ^ 31) by lia.
      rewrite Z.mod_add by lia. by apply Z.mod_small.
    - rewrite Z.add_0_l. by apply Z.mod_small. }
  rewrite (Z.add_comm (ex * 2 ^ 23)), Z.div_add, Z.mod_add by lia.
  rewrite (Z.div_small frac), (Z.mod_small frac), Z.add_0_l by lia. done.
Qed.

Lemma f32_bits_roundtrip x :
  f32_valid x = true -> f32_from_bits (f32_to_bits x) = x /\ 0 <= f32_to_bits x < 2 ^ 32.
Proof.
  destruct x as [s|s| |s m e]; intros Hv.
  1, 2: by destruct s; vm_compute.
  1: by vm_compute.
  unfold f32_valid in Hv. unfold f32_to_bits. destruct (Z.pos m <? 2 ^ 23) eqn:Hm; case_bool.
  - assert (e = -149) as -> by lia. split; [|destruct s; lia].
    pose proof (f32_from_bits_split s 0 (Z.pos m)) as Hs. rewrite Z.mul_0_l, Z.add_0_r in Hs.
    rewrite Hs by lia. done.
  - assert (Z.pos m < 2 ^ 24 /\ -149 <= e <= 104) as [Hm' He] by lia.
    split; [|destruct s; lia].
    rewrite f32_from_bits_split by lia.
    destruct (_ =? 255) eqn:E1; case_bool; [lia|]. destruct (_ =? 0) eqn:E2; case_bool; [lia|].
    replace (Z.pos m - 2 ^ 23 + 2 ^ 23) with (Z.pos m) by lia. cbn [f32_finite]. f_equal. lia.
Qed.

Lemma le32_roundtrip w : 0 <= w < 2 ^ 32 -> le32 (le32_bytes w) = w.
Proof.
  intros Hw. unfold le32, le32_bytes.
  rewrite (Z.div_mod w 256) at 5 by lia.
  pose proof (Z.div_mod (w / 256) 256 ltac:(lia)) as H1.
  pose proof (Z.div_mod (w / 65536) 256 ltac:(lia)) as H2.
  assert (w / 256 / 256 = w / 65536) as E1 by (by rewrite Z.div_div by lia).
  assert (w / 65536 / 256 = w / 16777216) as E2 by (by rewrite Z.div_div by lia).
  assert (0 <= w / 16777216 < 256) as H3 by (split; [apply Z.div_pos; lia|apply Z.div_lt_upper_bound; lia]).
  rewrite (Z.mod_small (w / 16777216)) by lia. lia.
Qed.

Lemma chunks4_concat (f : f64 -> bytes) (values : list f64) :
  (forall v, length (f v) = 4%nat) -> chunks4 (concat (f <$> values)) = f <$> values /\
  lenZ (concat (f <$> values)) = 4 * lenZ values.
Proof.
  intros Hf. induction values as [|v values [IH1 IH2]]; [done|]. rewrite fmap_cons.
  specialize (Hf v). destruct (f v) as [|a [|b [|c [|d [|]]]]]; try done.
  change (concat ([a; b; c; d] :: (f <$> values))) with (a :: b :: c :: d :: concat (f <$> values)).
  cbn [chunks4]. rewrite IH1. split; [done|]. unfold lenZ in *. cbn [length]. lia.
Qed.

(** ** A concrete base64 and half-precision *)

Definition b64_alphabet : string := "ABCDEFGHIJKLMNOPQRSTUVWXYZabcdefghijklmnopqrstuvwxyz0123456789+/".

Definition b64_char (n : Z) : Ascii.ascii := default Ascii.zero (String.get (Z.to_nat n) b64_alphabet).
Definition b64_value (c : Ascii.ascii) : option Z :=
  Z.of_nat <$> String.index 0 (String c EmptyString) b64_alphabet.

Fixpoint b64_enc (b : bytes) : string :=
  match b with
  | x :: y :: z :: rest =>
      String (b64_char (x / 4)) (String (b64_char (x mod 4 * 16 + y / 16))
        (String (b64_char (y mod 16 * 4 + z / 64)) (String (b64_char (z mod 64)) (b64_enc rest))))
  | [x; y] =>
      String (b64_char (x / 4)) (String (b64_char (x mod 4 * 16 + y / 16))
        (String (b64_char (y mod 16 * 4)) "="))
  | [x] => String (b64_char (x / 4)) (String (b64_char (x mod 4 * 16)) "==")
  | [] => EmptyString
  end.

Fixpoint b64_dec (s : string) : option bytes :=
  match s with
  | EmptyString => Some []
  | String a (String b (String c (String d rest))) =>
      va ← b64_value a; vb ← b64_value b;
      if String.eqb (String c (String d rest)) "==" then
        if vb mod 16 =? 0 then Some [va * 4 + vb / 16] else None
      else
        vc ← b64_value c;
        if String.eqb (String d rest) "=" then
          if vc mod 4 =? 0 then Some [va * 4 + vb / 16; vb mod 16 * 16 + vc / 4] else None
        else
          vd ← b64_value d; r ← b64_dec rest;
          Some (va * 4 + vb / 16 :: vb mod 16 * 16 + vc / 4 :: vc mod 4 * 64 + vd :: r)
  | _ => None
  end.

(** Half precision is not exercised by the witnesses. *)
Definition rfc4648 : VectorLib := {|
  b64_decode := b64_dec;
  b64_encode := b64_enc;
  f16_to_f64 := fun _ => f64_zero;
  f16_from_f32 := fun _ => 0
|}.

(** ** Theorems *)

(** a vector returned in base64 decodes to the single-precision values of
    the stored one, component by component, whatever the base64 library, as
    long as that library reads back the string it wrote. *)
Theorem base64_f32_roundtrip {VL : VectorLib} values :
  forallb (fun v => f32_valid (f32_of_f64 v)) values = true ->
  b64_decode (str_trim (b64_encode (f64_slice_to_f32_le values))) = Some (f64_slice_to_f32_le values) ->
  decode_vector_value (encode_vector values EncBase64 F32) =
    Ok ((fun v => f64_of_f32 (f32_of_f64 v)) <$> values).
Proof.
  intros Hv Hb. unfold decode_vector_value, decode_vector_value_with_element. cbn [encode_vector as_str].
  unfold decode_base64_f32_le. rewrite Hb. cbn [ok_or result_bind].
  destruct (chunks4_concat (fun v => le32_bytes (f32_to_bits (f32_of_f64 v))) values) as [H4 Hl]; [done|].
  unfold f64_slice_to_f32_le. rewrite Hl, H4.
  rewrite (Z.mul_comm 4), Z.mod_mul by lia. cbn [Z.eqb negb]. f_equal. rewrite <- list_fmap_compose.
  apply list_fmap_ext. intros i v Hi. unfold compose. f_equal.
  rewrite forallb_forall in Hv. apply list_elem_of_lookup_2, list_elem_of_In, Hv, f32_bits_roundtrip in Hi
    as [Hr Hrange]. by rewrite le32_roundtrip.
Qed.

Lemma base64_f32_roundtrip_witness :
  @decode_vector_value rfc4648 (@encode_vector rfc4648 [f64_of_Z 3; f64_of_Z (-7); f64_div f64_one (f64_of_Z 10)] EncBase64 F32)
  = Ok ((fun v => f64_of_f32 (f32_of_f64 v)) <$> [f64_of_Z 3; f64_of_Z (-7); f64_div f64_one (f64_of_Z 10)]).
Proof. apply (@base64_f32_roundtrip rfc4648); vm_compute; reflexivity. Defined.

(** a row never leaks a vector the request excluded: with
    [include_vectors: false], or without it and without an attribute list, every
    projected attribute is an attribute of the document as stored that is
    neither declared nor shaped as a vector. *)
Theorem projection_excludes_vectors {IO : IterOrder} {VL : VectorLib} doc meta attrs names iv enc out k v :
  iv = IVExclude \/ (iv = IVUnspecified /\ names = None) ->
  project_row_attributes doc meta attrs names iv enc = Some out -> out !! k = Some v ->
  doc_attributes doc !! k = Some v /\ field_is_vector_in_schema meta k = false /\ is_vector_value v = false.
Proof.
  intros Hiv. unfold project_row_attributes. destruct (negb attrs && _); [done|].
  assert (match iv with IVUnspecified | IVExclude => [] | IVAll => vector_field_names meta (Some doc)
          | IVFields fields => fields end = []) as -> by (by destruct Hiv as [->|[-> _]]).
  cbn [fold_left]. destruct (decide _); [done|]. intros [=<-]. destruct attrs; [|by rewrite lookup_empty].
  unfold project_plain. destruct names as [names|]; rewrite map_lookup_filter_Some; cbn.
  - destruct Hiv as [->|[_ ?]]; [|done]. cbn. intros (Hk & _ & Hf). apply orb_false_iff in Hf. by split.
  - assert (is_exclude iv || is_unspecified iv = true) as -> by (by destruct Hiv as [->|[-> _]]).
    cbn. intros (Hk & Hf). apply orb_false_iff in Hf. by split.
Qed.

Definition mixed_doc : Document :=
  mkDocument "a" {[ "emb" := VArray [VNumber (PosInt 1); VNumber (PosInt 2)]; "tier" := VString "free" ]}.

Lemma projection_excludes_vectors_witness :
  doc_attributes mixed_doc !! "tier"%string = Some (VString "free") /\
  field_is_vector_in_schema default_meta "tier" = false /\
  @is_vector_value rfc4648 (VString "free") = false.
Proof.
  apply (@projection_excludes_vectors canonical_order rfc4648 mixed_doc default_meta true None IVUnspecified
    EncFloat {[ "tier"%string := VString "free" ]}).
  - by right.
  - vm_compute. reflexivity.
  - reflexivity.
Defined.

(** text is stored as numbers: every string attribute of an upsert that
    happens to be base64 of a multiple of four bytes is replaced by an array,
    whatever the schema says of it: the empty string becomes the empty array,
    and a 32-character hexadecimal digest becomes six numbers. *)
Theorem text_attribute_destroyed :
  let attrs : gmap string Value :=
    {[ "note"%string := VString ""; "md5"%string := VString "d41d8cd98f00b204e9800998ecf8427e" ]} in
  let '(out, r) := @normalize_document_vectors canonical_order rfc4648 attrs default_meta in
  r = Ok tt /\ out !! "note"%string = Some (VArray []) /\
  match out !! "md5"%string with
  | Some (VArray l) => lenZ l = 6
  | _ => False
  end.
Proof. vm_compute. done. Qed.
