(* ===== verification/Fts.v ===== *)
(** * Full-text index ([index/fts.rs], [index/fts_tokenizer.rs])

    Tokenisation, the inverted index of a segment with its collection
    statistics, its maintenance under a delta, and BM25 queries.  The reference
    is the map from document ids to their tokens: a segment [represents] such a
    map, and every operation is the corresponding operation on the map. *)

From Stdlib Require Import ZArith Lia Bool SpecFloat Ascii String.
From stdpp Require Import base gmap strings list.
From S2P Require Import Prelude F64 Json Models Keys Schema Wal.

(** What the tokeniser takes from Unicode and from libraries: NFKC
    normalisation ([unicode_normalization]) as a sequence of code points, the
    character classes and lower-casing of the Unicode tables, the Porter
    stemmer ([rust_stemmers]), the text of a JSON value ([serde_json]), and
    the natural logarithm, whose precision [f64::ln] leaves unspecified. *)
Class TextLib : Type := {
  nfkc : string -> list Z;
  is_alphabetic : Z -> bool;
  is_numeric : Z -> bool;
  to_lowercase : string -> string;
  stemmer_stem : string -> string;
  json_to_string : Value -> string;
  f64_ln : f64 -> f64
}.

(** ** Tokenizer *)

(** [FtsTokenizeOptions]: the process-wide setting. *)
Record FtsTokenizeOptions : Type := mkOpts { opt_stem : bool }.

Definition fts_opts_from_env (v : option string) : FtsTokenizeOptions :=
  mkOpts match v with
         | Some v =>
             let v := to_ascii_lowercase (str_trim v) in
             String.eqb v "1" || String.eqb v "true" || String.eqb v "yes" || String.eqb v "on"
         | None => false
         end.

Definition STOPWORD_LIST : list string :=
  ["a"; "an"; "and"; "are"; "as"; "at"; "be"; "been"; "being"; "but"; "by"; "can"; "did"; "do";
   "does"; "for"; "from"; "had"; "has"; "have"; "he"; "her"; "him"; "his"; "if"; "in"; "into";
   "is"; "it"; "its"; "may"; "might"; "must"; "no"; "nor"; "not"; "of"; "on"; "or"; "our";
   "shall"; "she"; "should"; "so"; "such"; "than"; "that"; "the"; "their"; "them"; "then";
   "there"; "these"; "they"; "this"; "those"; "to"; "too"; "was"; "we"; "were"; "what"; "when";
   "where"; "which"; "while"; "who"; "whom"; "why"; "will"; "with"; "would"; "you"; "your"].

Definition is_stopword (s : string) : bool := bool_decide (s ∈ STOPWORD_LIST).

(** [String::push] of a code point: its UTF-8 bytes. *)
Definition byte_char (z : Z) : Ascii.ascii := Ascii.ascii_of_N (Z.to_N z).
Definition utf8_char (c : Z) : string :=
  if c <? 128 then String (byte_char c) ""
  else if c <? 2048 then
    String (byte_char (192 + Z.shiftr c 6)) (String (byte_char (128 + Z.land c 63)) "")
  else if c <? 65536 then
    String (byte_char (224 + Z.shiftr c 12))
      (String (byte_char (128 + Z.land (Z.shiftr c 6) 63)) (String (byte_char (128 + Z.land c 63)) ""))
  else
    String (byte_char (240 + Z.shiftr c 18))
      (String (byte_char (128 + Z.land (Z.shiftr c 12) 63))
        (String (byte_char (128 + Z.land (Z.shiftr c 6) 63)) (String (byte_char (128 + Z.land c 63)) ""))).

Section Tokenizer.
Context {TL : TextLib} (opts : FtsTokenizeOptions).

Definition is_token_char (ch : Z) : bool := is_alphabetic ch || is_numeric ch.

Definition stem_english (token : string) : string := stemmer_stem token.

Definition push_token (out : list string) (raw : string) : list string :=
  let term := to_lowercase raw in
  if String.eqb term "" || is_stopword term then out
  else if opt_stem opts then
    let term := stem_english term in
    if String.eqb term "" || is_stopword term then out else out ++ [term]
  else out ++ [term].

(** The loop over the characters, with the token under construction. *)
Fixpoint token_loop (chars : list Z) (tokens : list string) (cur : string) : list string :=
  match chars with
  | [] => if String.eqb cur "" then tokens else push_token tokens cur
  | ch :: rest =>
      if is_token_char ch then token_loop rest tokens (cur +:+ utf8_char ch)
      else if String.eqb cur "" then token_loop rest tokens cur
      else token_loop rest (push_token tokens cur) ""
  end.

Definition tokenize (text : string) : list string := token_loop (nfkc text) [] "".
End Tokenizer.

(** ** Segments *)

Record Posting : Type := mkPosting { p_doc_id : string; p_term_freq : Z }.

Record FtsSegment : Type := mkFts {
  fts_segment_id : Z;
  fts_field : string;
  num_docs : Z;
  total_doc_len : Z;
  doc_lengths : gmap string Z;
  postings : gmap string (list Posting)
}.

(** [parts.join(" ")]. *)
Fixpoint join_space (parts : list string) : string :=
  match parts with
  | [] => ""
  | [p] => p
  | p :: rest => p +:+ " " +:+ join_space rest
  end.

Section Segment.
Context {IO : IterOrder} {TL : TextLib} (opts : FtsTokenizeOptions).

Definition value_to_text (v : Value) : string :=
  match v with VString s => s | _ => json_to_string v end.

Definition extract_index_text (doc : Document) (field : string) : string :=
  if negb (String.eqb field "") then
    default "" (value_to_text <$> doc_attributes doc !! field)
  else join_space (omap as_str (iter_values (doc_attributes doc))).

Definition avg_doc_len (seg : FtsSegment) : f64 :=
  if num_docs seg =? 0 then f64_one
  else f64_div (f64_of_Z (total_doc_len seg)) (f64_of_Z (num_docs seg)).

(** [*term_freq.entry(t).or_default() += 1] for each token. *)
Definition count_tokens (tokens : list string) : gmap string Z :=
  fold_left (fun m t => <[t := wrap32 (default 0 (m !! t) + 1)]> m) tokens ∅.

(** [postings.entry(term).or_default().push(..)]. *)
Definition push_posting (doc_id : string) (m : gmap string (list Posting)) (e : string * Z)
  : gmap string (list Posting) :=
  <[e.1 := default [] (m !! e.1) ++ [mkPosting doc_id e.2]]> m.

Definition fts_add_document (seg : FtsSegment) (doc_id : string) (doc : Document) : FtsSegment :=
  let tokens := tokenize opts (extract_index_text doc (fts_field seg)) in
  match tokens with
  | [] => seg
  | _ =>
      let len := wrap32 (lenZ tokens) in
      mkFts (fts_segment_id seg) (fts_field seg) (wrap32 (num_docs seg + 1))
        (wrap64 (total_doc_len seg + len)) (<[doc_id := len]> (doc_lengths seg))
        (fold_left (push_posting doc_id) (iter_map (count_tokens tokens)) (postings seg))
  end.

Definition fts_remove_document (seg : FtsSegment) (doc_id : string) : FtsSegment :=
  match doc_lengths seg !! doc_id with
  | None => seg
  | Some len =>
      mkFts (fts_segment_id seg) (fts_field seg) (sat_sub (num_docs seg) 1)
        (sat_sub (total_doc_len seg) len) (delete doc_id (doc_lengths seg))
        (filter (fun e => e.2 <> [])
           ((fun l => filter (fun p => p_doc_id p <> doc_id) l) <$> postings seg))
  end.

Definition fts_build (segment_id : Z) (field : string) (docs : list (string * Document)) : FtsSegment :=
  fold_left (fun seg e => fts_add_document seg e.1 e.2) docs (mkFts segment_id field 0 0 ∅ ∅).

Definition fts_apply_delta (seg : FtsSegment) (ups : list (string * Document)) (dels : list string)
  : FtsSegment :=
  let seg := fold_left fts_remove_document dels seg in
  fold_left (fun seg e => fts_add_document (fts_remove_document seg e.1) e.1 e.2) ups seg.

Definition postings_of (seg : FtsSegment) (term : string) : list Posting :=
  default [] (postings seg !! term).

Definition candidate_doc_ids (seg : FtsSegment) (query : string) : gset string :=
  fold_left (fun ids term => fold_left (fun ids p => ids ∪ {[ p_doc_id p ]}) (postings_of seg term) ids)
    (tokenize opts query) ∅.

(** ** BM25 *)

Definition f64_lit (num den : Z) : f64 := f64_div (f64_of_Z num) (f64_of_Z den).
Definition K1 : f64 := f64_lit 12 10.
Definition bm25_B : f64 := f64_lit 3 4.
Definition f64_half : f64 := f64_lit 1 2.

Definition bm25_idf (n df : f64) : f64 :=
  f64_ln (f64_add (f64_div (f64_add (f64_sub n df) f64_half) (f64_add df f64_half)) f64_one).

Definition bm25_term (idf tf dl avgdl : f64) : f64 :=
  let num := f64_mul tf (f64_add K1 f64_one) in
  let den := f64_add tf (f64_mul K1 (f64_add (f64_sub f64_one bm25_B) (f64_div (f64_mul bm25_B dl) avgdl))) in
  f64_div (f64_mul idf num) den.

Definition score_posting (seg : FtsSegment) (idf avgdl : f64) (scores : gmap string f64) (p : Posting)
  : gmap string f64 :=
  let dl := f64_of_Z (default 1 (doc_lengths seg !! p_doc_id p)) in
  let score := bm25_term idf (f64_of_Z (p_term_freq p)) dl avgdl in
  <[p_doc_id p := f64_add (default f64_zero (scores !! p_doc_id p)) score]> scores.

Definition score_term (seg : FtsSegment) (n avgdl : f64) (scores : gmap string f64) (term : string)
  : gmap string f64 :=
  match postings seg !! term with
  | None => scores
  | Some l => fold_left (score_posting seg (bm25_idf n (f64_of_Z (lenZ l))) avgdl) l scores
  end.

(** Descending score, then ascending id. *)
Definition rank_cmp (a b : string * f64) : comparison :=
  cmp_then (f64_cmp_or_eq b.2 a.2) (str_cmp a.1 b.1).

Definition query_bm25 (seg : FtsSegment) (query : string) (top_k : Z) : list (string * f64) :=
  let terms := tokenize opts query in
  if match terms with [] => true | _ => false end || (num_docs seg =? 0) then []
  else
    let scores := fold_left (score_term seg (f64_of_Z (num_docs seg)) (avg_doc_len seg)) terms ∅ in
    take (Z.to_nat top_k) (sort_by rank_cmp (iter_map scores)).

(** The score of a document of the unindexed tail. *)
Definition bm25_doc_score (document query : string) (avgdl : f64) (ndocs : Z) : f64 :=
  let terms := tokenize opts query in
  let doc_tokens := tokenize opts document in
  match terms, doc_tokens with
  | [], _ | _, [] => f64_zero
  | _, _ =>
      let dl := f64_of_Z (lenZ doc_tokens) in
      let avgdl := f64_max avgdl f64_one in
      let n := f64_of_Z (Z.max ndocs 1) in
      fold_left (fun score term =>
        let tf := f64_of_Z (lenZ (filter (fun t => t = term) doc_tokens)) in
        if f64_eqb tf f64_zero then score
        else f64_add score (bm25_term (bm25_idf n f64_one) tf dl avgdl)) terms f64_zero
  end.
End Segment.

(** ** Schema *)

Definition index_fields_from_schema (schema : Value) : list string :=
  match as_object schema with
  | None => []
  | Some obj =>
      let explicit :=
        (filter (fun kv => (as_object kv.2 ≫= fun m => obj_get m "full_text_search") ≫= as_bool = Some true)
           obj).*1 in
      match explicit with
      | [] => (filter (fun kv => field_full_text_search kv.2 = true) obj).*1
      | _ => explicit
      end
  end.

Definition build_segments_for_docs {IO : IterOrder} {TL : TextLib} (opts : FtsTokenizeOptions)
    (segment_id : Z) (schema : Value) (docs : list (string * Document)) : list FtsSegment :=
  match index_fields_from_schema schema with
  | [] => [fts_build opts segment_id "" docs]
  | fields => (fun f => fts_build opts segment_id f docs) <$> fields
  end.

(** ** The unindexed tail *)

Definition touched_by (entry : WalEntry) : list string :=
  deletes entry ++ (wu_id <$> upserts entry) ++ (wp_id <$> patches entry).

Definition wal_touched_doc_ids (entries : list WalEntry) : gset string :=
  fold_left (fun ids e => fold_left (fun ids id => ids ∪ {[ id ]}) (touched_by e) ids) entries ∅.

(** ** The reference: a map from ids to tokens *)

Abbreviation TokenMap := (gmap string (list string)).

Definition sum_len (T : TokenMap) : Z := map_fold (fun _ ts acc => lenZ ts + acc) 0 T.

(** Occurrences of a term in a token list. *)
Definition occ (term : string) (ts : list string) : Z := lenZ (filter (fun t => t = term) ts).

Record represents (seg : FtsSegment) (T : TokenMap) : Prop := {
  rep_lengths : doc_lengths seg = lenZ <$> T;
  rep_num : num_docs seg = Z.of_nat (size T);
  rep_total : total_doc_len seg = sum_len T;
  rep_postings : forall term id tf, mkPosting id tf ∈ postings_of seg term <->
    exists ts, T !! id = Some ts /\ tf = occ term ts /\ 0 < tf;
  rep_nodup : forall term, NoDup (p_doc_id <$> postings_of seg term);
  rep_nonempty : forall term l, postings seg !! term = Some l -> l <> [];
  rep_tokens : forall id ts, T !! id = Some ts -> ts <> []
}.

(** A document without tokens is not in the segment. *)
Definition set_tokens (id : string) (ts : list string) (T : TokenMap) : TokenMap :=
  match ts with [] => delete id T | _ => <[id := ts]> T end.

Lemma sum_len_insert T id ts : T !! id = None -> sum_len (<[id := ts]> T) = lenZ ts + sum_len T.
Proof.
  intros Hn. unfold sum_len. rewrite map_fold_insert_L; [done| |done]. intros; lia.
Qed.

Lemma sum_len_delete T id ts : T !! id = Some ts -> sum_len T = lenZ ts + sum_len (delete id T).
Proof.
  intros Hs. rewrite <- (insert_delete_id T id ts) at 1 by done.
  apply sum_len_insert, lookup_delete_eq.
Qed.

Lemma sum_len_nonneg T : 0 <= sum_len T.
Proof.
  unfold sum_len. apply (map_fold_weak_ind (fun acc _ => 0 <= acc)); [lia|]. unfold lenZ. intros; lia.
Qed.

Lemma sum_len_delete_le T id : sum_len (delete id T) <= sum_len T.
Proof.
  destruct (T !! id) as [ts|] eqn:Ht; [|by rewrite delete_id].
  rewrite (sum_len_delete T id ts Ht). unfold lenZ. lia.
Qed.

(** Every represented document has a token. *)
Lemma size_le_sum T : (forall id ts, T !! id = Some ts -> ts <> []) -> Z.of_nat (size T) <= sum_len T.
Proof.
  induction T as [|id ts T Hn IH] using map_ind; intros Hne.
  - by rewrite map_size_empty.
  - rewrite map_size_insert_None, sum_len_insert by done.
    assert (ts <> []) as Hts by (apply (Hne id); apply lookup_insert_eq).
    assert (Z.of_nat (size T) <= sum_len T).
    { apply IH. intros id' ts' H'. apply (Hne id'). rewrite lookup_insert_ne; [done|]. congruence. }
    destruct ts; [done|]. unfold lenZ. cbn [length]. lia.
Qed.

Lemma occ_cons term t ts : occ term (t :: ts) = (if decide (t = term) then 1 else 0) + occ term ts.
Proof. unfold occ, lenZ. rewrite filter_cons. destruct (decide (t = term)); cbn [length]; lia. Qed.

Lemma occ_bounds term ts : 0 <= occ term ts <= lenZ ts.
Proof. unfold occ, lenZ. pose proof (length_filter (fun t => t = term) ts). lia. Qed.

Lemma occ_pos term ts : 0 < occ term ts <-> term ∈ ts.
Proof.
  induction ts as [|t ts IH].
  - split; [by unfold occ, lenZ|by intros ?%not_elem_of_nil].
  - rewrite occ_cons, elem_of_cons, <- IH. pose proof (occ_bounds term ts).
    destruct (decide (t = term)) as [->|Hne]; split.
    + intros _. by left.
    + lia.
    + intros Hp. right. lia.
    + intros [->|Hp]; [done|lia].
Qed.

(** ** Counting and posting *)

Lemma wrap32_small n : 0 <= n < 2 ^ 32 -> wrap32 n = n.
Proof. apply Z.mod_small. Qed.
Lemma wrap64_small n : 0 <= n < 2 ^ 64 -> wrap64 n = n.
Proof. apply Z.mod_small. Qed.

Lemma count_fold tokens (m : gmap string Z) term :
  0 <= default 0 (m !! term) -> default 0 (m !! term) + lenZ tokens < 2 ^ 32 ->
  fold_left (fun m t => <[t := wrap32 (default 0 (m !! t) + 1)]> m) tokens m !! term =
  if decide (term ∈ tokens) then Some (default 0 (m !! term) + occ term tokens) else m !! term.
Proof.
  revert m. induction tokens as [|t ts IH]; intros m H0 Hlt; cbn [fold_left].
  - destruct (decide (term ∈ [])) as [Hin|_]; [by apply not_elem_of_nil in Hin|done].
  - assert (lenZ (t :: ts) = 1 + lenZ ts) as Hl by (unfold lenZ; cbn [length]; lia).
    assert (0 <= lenZ ts) by (unfold lenZ; lia). rewrite occ_cons.
    destruct (decide (t = term)) as [->|Hne].
    + rewrite decide_True by (by left).
      rewrite IH; rewrite lookup_insert_eq; cbn [default]; rewrite wrap32_small by lia; [|cbn; lia..].
      cbn [default from_option]. destruct (decide (term ∈ ts)) as [Hin|Hni]; f_equal; [cbn; lia|].
      assert (~ 0 < occ term ts) by by rewrite occ_pos. pose proof (occ_bounds term ts). cbn. lia.
    + rewrite IH; rewrite lookup_insert_ne by done; [|lia..].
      assert (term ∈ t :: ts <-> term ∈ ts) as Hiff by (rewrite elem_of_cons; naive_solver).
      destruct (decide (term ∈ ts)) as [Hin|Hni]; [rewrite decide_True by tauto; f_equal; lia|].
      by rewrite decide_False by tauto.
Qed.

Lemma count_tokens_lookup tokens term :
  lenZ tokens < 2 ^ 32 ->
  count_tokens tokens !! term = if decide (term ∈ tokens) then Some (occ term tokens) else None.
Proof.
  intros Hl. unfold count_tokens. rewrite count_fold; rewrite lookup_empty; cbn; [done|lia|lia].
Qed.

Lemma push_fold doc_id l (m : gmap string (list Posting)) term :
  NoDup l.*1 ->
  default [] (fold_left (push_posting doc_id) l m !! term) =
  default [] (m !! term) ++
    match (list_to_map l : gmap string Z) !! term with Some tf => [mkPosting doc_id tf] | None => [] end.
Proof.
  revert m. induction l as [|[t c] l IH]; intros m Hnd; cbn [fold_left].
  - cbn [list_to_map foldr]. by rewrite lookup_empty, app_nil_r.
  - cbn in Hnd. apply NoDup_cons in Hnd as [Hni Hnd]. rewrite IH by done. unfold push_posting. cbn [fst snd].
    cbn [list_to_map foldr uncurry]. destruct (decide (t = term)) as [->|Hne].
    + rewrite !lookup_insert_eq. cbn. apply not_elem_of_list_to_map in Hni. rewrite Hni.
      by rewrite app_nil_r.
    + by rewrite !lookup_insert_ne by done.
Qed.

Lemma push_fold_nonempty doc_id l (m : gmap string (list Posting)) :
  map_Forall (fun _ ps => ps <> []) m ->
  map_Forall (fun _ ps => ps <> []) (fold_left (push_posting doc_id) l m).
Proof.
  revert m. induction l as [|e l IH]; intros m Hm; cbn [fold_left]; [done|]. apply IH.
  apply map_Forall_insert_2; [|done]. intros E. by apply app_nil in E as [_ ?].
Qed.

Lemma postings_after_push {IO : IterOrder} doc_id tokens (m : gmap string (list Posting)) term :
  lenZ tokens < 2 ^ 32 ->
  default [] (fold_left (push_posting doc_id) (iter_map (count_tokens tokens)) m !! term) =
  default [] (m !! term) ++ (if decide (term ∈ tokens) then [mkPosting doc_id (occ term tokens)] else []).
Proof.
  intros Hl. rewrite push_fold by apply iter_map_NoDup_keys.
  rewrite (list_to_map_proper _ (map_to_list (count_tokens tokens)));
    [|apply iter_map_NoDup_keys|apply iter_map_perm].
  rewrite list_to_map_to_list, count_tokens_lookup by done. by destruct (decide (term ∈ tokens)).
Qed.

(** ** Maintenance *)

Section Maintenance.
Context {IO : IterOrder} {TL : TextLib} (opts : FtsTokenizeOptions).

Definition doc_tokens (seg : FtsSegment) (doc : Document) : list string :=
  tokenize opts (extract_index_text doc (fts_field seg)).

Lemma fts_remove_represents seg T id :
  represents seg T -> represents (fts_remove_document seg id) (delete id T).
Proof.
  intros [H1 H2 H3 H4 H5 H6 H7]. unfold fts_remove_document.
  destruct (doc_lengths seg !! id) as [len|] eqn:Hl; rewrite H1, lookup_fmap in Hl.
  2: { destruct (T !! id) eqn:Ht; [done|]. by rewrite delete_id. }
  destruct (T !! id) as [ts|] eqn:Ht; [|done]. injection Hl as <-.
  assert (forall term, default [] (filter (fun e => e.2 <> [])
    ((fun l => filter (fun p => p_doc_id p <> id) l) <$> postings seg) !! term) =
    filter (fun p => p_doc_id p <> id) (postings_of seg term)) as Hp.
  { intros term. unfold postings_of. rewrite map_lookup_filter, lookup_fmap.
    destruct (postings seg !! term) as [l|]; cbn; [|done]. case_guard as Hg; cbn; [done|].
    by destruct (filter _ l); [|destruct Hg]. }
  split; cbn.
  - by rewrite H1, fmap_delete.
  - rewrite H2, map_size_delete_Some by (by eexists). unfold sat_sub.
    assert (size T <> 0%nat) by (apply map_size_non_empty_iff; intros He; by rewrite He in Ht). lia.
  - rewrite H3, (sum_len_delete T id ts Ht). pose proof (sum_len_nonneg (delete id T)).
    unfold sat_sub, lenZ. lia.
  - intros term id' tf. unfold postings_of at 1. cbn. rewrite Hp, list_elem_of_filter, H4. cbn.
    destruct (decide (id' = id)) as [->|Hne].
    + rewrite lookup_delete_eq. naive_solver.
    + rewrite lookup_delete_ne by done. naive_solver.
  - intros term. unfold postings_of at 1. cbn. rewrite Hp.
    apply (sublist_NoDup _ (p_doc_id <$> postings_of seg term)); [apply H5|].
    apply fmap_sublist, sublist_filter.
  - intros term l. rewrite map_lookup_filter_Some. by intros [_ ?].
  - intros id' ts' Hts'. apply lookup_delete_Some in Hts' as [_ ?]. by eapply H7.
Qed.

Lemma fts_remove_field seg id : fts_field (fts_remove_document seg id) = fts_field seg.
Proof. unfold fts_remove_document. by destruct (doc_lengths seg !! id). Qed.

Lemma fts_add_field seg id doc : fts_field (fts_add_document opts seg id doc) = fts_field seg.
Proof. unfold fts_add_document. by destruct (tokenize _ _). Qed.

Lemma fts_add_represents seg T id doc :
  represents seg T -> T !! id = None -> sum_len T + lenZ (doc_tokens seg doc) < 2 ^ 32 ->
  represents (fts_add_document opts seg id doc) (set_tokens id (doc_tokens seg doc) T).
Proof.
  intros [H1 H2 H3 H4 H5 H6 H7] Hid Hb. unfold fts_add_document. fold (doc_tokens seg doc).
  pose proof (sum_len_nonneg T) as Hs0. pose proof (size_le_sum T H7) as Hsz.
  destruct (doc_tokens seg doc) as [|t0 tl] eqn:Htk; cbn [set_tokens]; [by rewrite delete_id|].
  set (ts := t0 :: tl) in *. assert (1 <= lenZ ts) as Hlen by (unfold ts, lenZ; cbn [length]; lia).
  assert (lenZ ts < 2 ^ 32) as Hl32 by lia.
  assert (ts <> []) as Hts by done. clearbody ts. clear Htk.
  assert (forall term, id ∉ (p_doc_id <$> postings_of seg term)) as Hfresh.
  { intros term Hin. apply list_elem_of_fmap in Hin as ([id' tf] & -> & Hin). apply H4 in Hin as (? & ? & _).
    cbn in *. congruence. }
  split; cbn.
  - rewrite H1, fmap_insert. by rewrite wrap32_small by lia.
  - rewrite H2, map_size_insert_None by done. rewrite wrap32_small by lia. lia.
  - rewrite H3, sum_len_insert by done. rewrite (wrap32_small (lenZ ts)) by lia. rewrite wrap64_small by lia. lia.
  - intros term id' tf. unfold postings_of at 1. cbn. rewrite postings_after_push by done.
    rewrite elem_of_app. fold (postings_of seg term). rewrite H4. destruct (decide (id' = id)) as [->|Hne].
    + rewrite lookup_insert_eq, Hid. destruct (decide (term ∈ ts)) as [Hin|Hni].
      * rewrite list_elem_of_singleton. apply occ_pos in Hin. split.
        -- intros [(? & ? & _)|[=->]]; [done|]. by exists ts.
        -- intros (ts' & [=<-] & -> & _). by right.
      * split; [intros [(? & ? & _)|?%not_elem_of_nil]; done|].
        intros (ts' & [=<-] & -> & Hpos%occ_pos). done.
    + rewrite lookup_insert_ne by done. split; [|by left].
      intros [?|Hin]; [done|]. destruct (decide (term ∈ ts)); [|by apply not_elem_of_nil in Hin].
      apply list_elem_of_singleton in Hin. congruence.
  - intros term. unfold postings_of at 1. cbn. rewrite postings_after_push by done.
    fold (postings_of seg term). rewrite fmap_app. apply NoDup_app. split; [apply H5|].
    destruct (decide (term ∈ ts)); cbn; (split; [|repeat constructor; by intros ?%not_elem_of_nil]).
    + intros x Hx ->%list_elem_of_singleton. by apply (Hfresh term).
    + intros x _ ?%not_elem_of_nil. done.
  - intros term l Hl. eapply (push_fold_nonempty id _ (postings seg)); [|exact Hl]. done.
  - intros id' ts'. destruct (decide (id' = id)) as [->|Hne].
    + rewrite lookup_insert_eq. by intros [=<-].
    + rewrite lookup_insert_ne by done. apply H7.
Qed.

Lemma set_tokens_delete id ts T : set_tokens id ts (delete id T) = set_tokens id ts T.
Proof. unfold set_tokens. destruct ts; [by rewrite delete_delete_eq|by rewrite insert_delete_eq]. Qed.

Lemma sum_len_set id ts T : sum_len (set_tokens id ts T) <= sum_len T + lenZ ts.
Proof.
  rewrite <- set_tokens_delete. pose proof (sum_len_delete_le T id).
  destruct ts; cbn [set_tokens]; [rewrite delete_delete_eq; unfold lenZ; cbn [length]; lia|].
  rewrite sum_len_insert by apply lookup_delete_eq. lia.
Qed.

(** The token map after a delta: deletes, then upserts. *)
Definition delta_tokens (seg : FtsSegment) (ups : list (string * Document)) (dels : list string)
    (T : TokenMap) : TokenMap :=
  fold_left (fun T e => set_tokens e.1 (doc_tokens seg e.2) T) ups
    (fold_left (fun T id => delete id T) dels T).

Definition added_len (seg : FtsSegment) (ups : list (string * Document)) : Z :=
  fold_right (fun e acc => lenZ (doc_tokens seg e.2) + acc) 0 ups.

Lemma added_len_nonneg seg ups : 0 <= added_len seg ups.
Proof.
  unfold added_len. induction ups as [|e ups IH]; cbn [fold_right]; [lia|].
  assert (0 <= lenZ (doc_tokens seg e.2)) by (unfold lenZ; lia). lia.
Qed.

Lemma fts_upserts_represents seg ups seg' T :
  represents seg' T -> fts_field seg' = fts_field seg -> sum_len T + added_len seg ups < 2 ^ 32 ->
  represents (fold_left (fun seg e => fts_add_document opts (fts_remove_document seg e.1) e.1 e.2) ups seg')
    (fold_left (fun T e => set_tokens e.1 (doc_tokens seg e.2) T) ups T).
Proof.
  revert seg' T. induction ups as [|[id doc] ups IH]; intros seg' T Hr Hf Hb; cbn [fold_left]; [done|].
  change (added_len seg ((id, doc) :: ups)) with (lenZ (doc_tokens seg doc) + added_len seg ups) in Hb.
  cbn [fst snd].
  pose proof (added_len_nonneg seg ups) as Ha.
  assert (fts_field (fts_remove_document seg' id) = fts_field seg) as Hf' by (by rewrite fts_remove_field).
  assert (doc_tokens (fts_remove_document seg' id) doc = doc_tokens seg doc) as Hd
    by (unfold doc_tokens; by rewrite Hf').
  apply IH.
  - rewrite <- set_tokens_delete, <- Hd.
    apply fts_add_represents; [by apply fts_remove_represents|apply lookup_delete_eq|].
    rewrite Hd. pose proof (sum_len_delete_le T id). lia.
  - by rewrite fts_add_field.
  - pose proof (sum_len_set id (doc_tokens seg doc) T). lia.
Qed.

Lemma fts_adds_represents seg docs seg' T :
  represents seg' T -> fts_field seg' = fts_field seg ->
  (forall id, id ∈ docs.*1 -> T !! id = None) -> NoDup docs.*1 ->
  sum_len T + added_len seg docs < 2 ^ 32 ->
  represents (fold_left (fun seg e => fts_add_document opts seg e.1 e.2) docs seg')
    (fold_left (fun T e => set_tokens e.1 (doc_tokens seg e.2) T) docs T).
Proof.
  revert seg' T. induction docs as [|[id doc] docs IH]; intros seg' T Hr Hf Hdis Hnd Hb; cbn [fold_left]; [done|].
  change (added_len seg ((id, doc) :: docs)) with (lenZ (doc_tokens seg doc) + added_len seg docs) in Hb.
  cbn in Hnd, Hdis. apply NoDup_cons in Hnd as [Hni Hnd]. pose proof (added_len_nonneg seg docs).
  assert (doc_tokens seg' doc = doc_tokens seg doc) as Hd by (unfold doc_tokens; by rewrite Hf).
  apply IH; cbn [fst snd]; [..|done|].
  - rewrite <- Hd. apply fts_add_represents; [done|apply Hdis; by left|]. rewrite Hd. lia.
  - by rewrite fts_add_field.
  - intros id' Hid'. assert (id' <> id) by congruence. unfold set_tokens.
    assert (T !! id' = None) by (apply Hdis; by right).
    destruct (doc_tokens seg doc); [by rewrite lookup_delete_ne|by rewrite lookup_insert_ne].
  - pose proof (sum_len_set id (doc_tokens seg doc) T). lia.
Qed.

Lemma fts_deletes_represents dels seg T :
  represents seg T ->
  represents (fold_left fts_remove_document dels seg) (fold_left (fun T id => delete id T) dels T) /\
  fts_field (fold_left fts_remove_document dels seg) = fts_field seg /\
  sum_len (fold_left (fun T id => delete id T) dels T) <= sum_len T.
Proof.
  revert seg T. induction dels as [|id dels IH]; intros seg T Hr; cbn [fold_left]; [by split_and!; try lia|].
  destruct (IH _ _ (fts_remove_represents seg T id Hr)) as (H1 & H2 & H3).
  split; [done|]. split; [by rewrite H2, fts_remove_field|]. pose proof (sum_len_delete_le T id). lia.
Qed.

(** ** Queries *)

Lemma fold_union_elem {A} (f : A -> string) (l : list A) (X : gset string) id :
  id ∈ fold_left (fun ids p => ids ∪ {[ f p ]}) l X <-> id ∈ X \/ exists p, p ∈ l /\ f p = id.
Proof.
  revert X. induction l as [|p l IH]; intros X; cbn [fold_left]; [set_solver|].
  rewrite IH, elem_of_union, elem_of_singleton. setoid_rewrite elem_of_cons. naive_solver.
Qed.

Lemma candidate_elem seg q id :
  id ∈ candidate_doc_ids opts seg q <->
  exists term tf, term ∈ tokenize opts q /\ mkPosting id tf ∈ postings_of seg term.
Proof.
  unfold candidate_doc_ids. generalize (tokenize opts q) as terms.
  assert (forall terms (X : gset string), id ∈ fold_left (fun ids term =>
    fold_left (fun ids p => ids ∪ {[ p_doc_id p ]}) (postings_of seg term) ids) terms X <->
    id ∈ X \/ exists term tf, term ∈ terms /\ mkPosting id tf ∈ postings_of seg term) as Hg.
  { induction terms as [|t terms IH]; intros X; cbn [fold_left]; [set_solver|].
    rewrite IH, fold_union_elem. setoid_rewrite elem_of_cons. split.
    - intros [[?|([id' tf] & Hp & <-)]|(term & tf & ? & ?)]; [by left|right; by eauto..].
    - intros [?|(term & tf & [->|?] & ?)]; [by left; left| |right; by eauto].
      left; right. by exists (mkPosting id tf). }
  intros terms. rewrite Hg. set_solver.
Qed.

Lemma score_posting_dom seg idf avgdl l scores id :
  is_Some (fold_left (score_posting seg idf avgdl) l scores !! id) <->
  is_Some (scores !! id) \/ exists p, p ∈ l /\ p_doc_id p = id.
Proof.
  revert scores. induction l as [|p l IH]; intros scores; cbn [fold_left]; [set_solver|].
  rewrite IH. unfold score_posting at 1. setoid_rewrite elem_of_cons.
  destruct (decide (p_doc_id p = id)) as [<-|Hne].
  - rewrite lookup_insert_eq. split; [intros _; right; by eauto|intros _; left; by eexists].
  - rewrite lookup_insert_ne by done. naive_solver.
Qed.

Lemma score_terms_dom seg n avgdl terms scores id :
  is_Some (fold_left (score_term seg n avgdl) terms scores !! id) <->
  is_Some (scores !! id) \/ exists term tf, term ∈ terms /\ mkPosting id tf ∈ postings_of seg term.
Proof.
  revert scores. induction terms as [|t terms IH]; intros scores; cbn [fold_left]; [set_solver|].
  rewrite IH. setoid_rewrite elem_of_cons.
  assert (is_Some (score_term seg n avgdl scores t !! id) <->
    is_Some (scores !! id) \/ exists tf, mkPosting id tf ∈ postings_of seg t) as ->.
  { unfold score_term, postings_of. destruct (postings seg !! t) as [l|]; cbn; [|set_solver].
    rewrite score_posting_dom. split; (intros [?|Hp]; [by left|right]).
    - destruct Hp as ([id' tf] & ? & <-). by exists tf.
    - destruct Hp as [tf ?]. by exists (mkPosting id tf). }
  naive_solver.
Qed.
End Maintenance.

Lemma represents_empty segment_id field : represents (mkFts segment_id field 0 0 ∅ ∅) ∅.
Proof.
  split; cbn; try done.
  - intros term id tf. unfold postings_of. cbn. rewrite lookup_empty. cbn. split; [by intros ?%not_elem_of_nil|].
    intros (? & E & _). by rewrite lookup_empty in E.
  - intros term. unfold postings_of. cbn. rewrite lookup_empty. constructor.
Qed.

(** ASCII text, for the witnesses. *)
Definition ascii_text : TextLib := {|
  nfkc := fun s => (fun c => Z.of_N (Ascii.N_of_ascii c)) <$> String.list_ascii_of_string s;
  is_alphabetic := fun c => ((65 <=? c) && (c <=? 90)) || ((97 <=? c) && (c <=? 122));
  is_numeric := fun c => (48 <=? c) && (c <=? 57);
  to_lowercase := to_ascii_lowercase;
  stemmer_stem := fun s => s;
  json_to_string := fun _ => "null";
  f64_ln := fun x => x
|}.

Definition text_doc (id text : string) : string * Document :=
  (id, mkDocument id {[ "text" := VString text ]}).
Definition fts_docs : list (string * Document) :=
  [text_doc "a" "Rust, fast systems"; text_doc "b" "Python and the GIL"].
Definition plain_opts : FtsTokenizeOptions := mkOpts false.
Definition empty_fts : FtsSegment := mkFts 1 "text" 0 0 ∅ ∅.
Definition demo_fts : FtsSegment := @fts_build canonical_order ascii_text plain_opts 1 "text" fts_docs.
Definition demo_tokens : TokenMap :=
  fold_left (fun T e => set_tokens e.1 (@doc_tokens canonical_order ascii_text plain_opts empty_fts e.2) T) fts_docs ∅.

Lemma demo_fts_represents : represents demo_fts demo_tokens.
Proof.
  apply (@fts_adds_represents canonical_order ascii_text plain_opts empty_fts).
  - apply represents_empty.
  - done.
  - intros. apply lookup_empty.
  - repeat constructor; set_solver.
  - vm_compute. reflexivity.
Qed.

(** ** Theorems *)

(** a full-text segment is maintained exactly: if it represents a token map,
    then after a delta (deletes, then upserts) it represents the map with those
    ids deleted and those documents' tokens in place; its postings, document
    lengths, document count and total length are those a rebuild of the
    resulting documents has.  The statistics do not wrap while the segment holds
    fewer than [2^32] tokens. *)
Theorem fts_delta_exact {IO : IterOrder} {TL : TextLib} opts seg T ups dels :
  represents seg T -> sum_len T + added_len opts seg ups < 2 ^ 32 ->
  represents (fts_apply_delta opts seg ups dels) (delta_tokens opts seg ups dels T).
Proof.
  intros Hr Hb. unfold fts_apply_delta, delta_tokens.
  destruct (fts_deletes_represents dels seg T Hr) as (H1 & H2 & H3).
  apply fts_upserts_represents; [done|done|]. lia.
Qed.

(** a segment built from documents with distinct ids represents their
    tokens; a document without tokens leaves no trace. *)
Theorem fts_build_exact {IO : IterOrder} {TL : TextLib} opts segment_id field docs :
  NoDup docs.*1 ->
  added_len opts (mkFts segment_id field 0 0 ∅ ∅) docs < 2 ^ 32 ->
  represents (fts_build opts segment_id field docs)
    (fold_left (fun T e => set_tokens e.1 (doc_tokens opts (mkFts segment_id field 0 0 ∅ ∅) e.2) T) docs ∅).
Proof.
  intros Hnd Hb. unfold fts_build. set (seg0 := mkFts segment_id field 0 0 ∅ ∅) in *.
  apply (fts_adds_represents opts seg0); [apply represents_empty|done| |done|done]. intros; apply lookup_empty.
Qed.

(** C36: full-text retrieval is exact: the candidates of a query are the
    represented documents that share a token with it; BM25 ranks candidates
    only, each at most once, and returns [min top_k] of them. *)
Theorem fts_query_exact {IO : IterOrder} {TL : TextLib} opts seg T query top_k :
  represents seg T -> 0 <= top_k ->
  (forall id, id ∈ candidate_doc_ids opts seg query <->
     exists term ts, term ∈ tokenize opts query /\ T !! id = Some ts /\ term ∈ ts) /\
  NoDup (query_bm25 opts seg query top_k).*1 /\
  (forall id, id ∈ (query_bm25 opts seg query top_k).*1 -> id ∈ candidate_doc_ids opts seg query) /\
  lenZ (query_bm25 opts seg query top_k) =
    Z.min top_k (Z.of_nat (size (candidate_doc_ids opts seg query))).
Proof.
  intros Hr Hk. split.
  { intros id. rewrite candidate_elem. setoid_rewrite (rep_postings _ _ Hr). split.
    - intros (term & tf & Ht & ts & Hts & -> & Hpos). exists term, ts. apply occ_pos in Hpos. by split_and!.
    - intros (term & ts & Ht & Hts & Hin%occ_pos). exists term, (occ term ts). eauto 10. }
  unfold query_bm25. destruct (_ || _) eqn:Hc.
  - assert (candidate_doc_ids opts seg query = ∅) as ->.
    { apply set_eq. intros id. rewrite candidate_elem. split; [|set_solver].
      intros (term & tf & Ht & (ts & Hts & _)%(rep_postings _ _ Hr)).
      apply orb_true_iff in Hc as [Hc|Hc].
      - destruct (tokenize opts query); [by apply not_elem_of_nil in Ht|done].
      - apply Z.eqb_eq in Hc. rewrite (rep_num _ _ Hr) in Hc.
        assert (T = ∅) as -> by (apply map_size_empty_inv; lia). done. }
    rewrite size_empty. split; [constructor|]. split; [by intros ? ?%not_elem_of_nil|].
    unfold lenZ. cbn. lia.
  - set (scores := fold_left _ (tokenize opts query) ∅).
    assert (forall id, is_Some (scores !! id) <-> id ∈ candidate_doc_ids opts seg query) as Hdom.
    { intros id. unfold scores. rewrite score_terms_dom, candidate_elem, lookup_empty.
      split; [by intros [[? ?]|?]|by right]. }
    set (ranked := sort_by rank_cmp (iter_map scores)).
    assert (ranked ≡ₚ map_to_list scores) as Hperm
      by (unfold ranked; by rewrite sort_by_perm, iter_map_perm).
    assert (NoDup ranked.*1) as Hnd by (rewrite Hperm; apply NoDup_fst_map_to_list).
    split; [|split].
    + rewrite fmap_take. by apply (sublist_NoDup _ _ Hnd), sublist_take.
    + intros id Hin. apply Hdom. apply list_elem_of_fmap in Hin as ([id' sc] & -> & Hin).
      apply elem_of_take in Hin as (i & Hi & _). apply list_elem_of_lookup_2 in Hi.
      rewrite Hperm in Hi. apply elem_of_map_to_list in Hi. by eexists.
    + unfold lenZ. rewrite length_take, Hperm, length_map_to_list.
      assert (candidate_doc_ids opts seg query = dom scores) as ->
        by (apply set_eq; intros id; by rewrite elem_of_dom, Hdom).
      rewrite size_dom. lia.
Qed.

Lemma fts_delta_exact_witness :
  represents
    (@fts_apply_delta canonical_order ascii_text plain_opts demo_fts [text_doc "b" "zig"] ["a"])
    (@delta_tokens canonical_order ascii_text plain_opts demo_fts [text_doc "b" "zig"] ["a"] demo_tokens).
Proof. apply fts_delta_exact; [apply demo_fts_represents|vm_compute; reflexivity]. Defined.

Lemma fts_build_exact_witness :
  represents (@fts_build canonical_order ascii_text plain_opts 1 "text" fts_docs) demo_tokens.
Proof. apply fts_build_exact; [repeat constructor; set_solver|vm_compute; reflexivity]. Defined.

Definition demo_query : string := "RUST gil".

Lemma fts_query_exact_witness :
  (forall id, id ∈ @candidate_doc_ids ascii_text plain_opts demo_fts demo_query <->
     exists term ts, term ∈ @tokenize ascii_text plain_opts demo_query /\ demo_tokens !! id = Some ts /\ term ∈ ts) /\
  NoDup (@query_bm25 canonical_order ascii_text plain_opts demo_fts demo_query 1).*1 /\
  (forall id, id ∈ (@query_bm25 canonical_order ascii_text plain_opts demo_fts demo_query 1).*1 ->
     id ∈ @candidate_doc_ids ascii_text plain_opts demo_fts demo_query) /\
  lenZ (@query_bm25 canonical_order ascii_text plain_opts demo_fts demo_query 1) =
    Z.min 1 (Z.of_nat (size (@candidate_doc_ids ascii_text plain_opts demo_fts demo_query))).
Proof. apply fts_query_exact; [apply demo_fts_represents|lia]. Defined.
