(* ===== verification/Vector.v ===== *)
(** * The vector index, query side ([index/vector.rs])

    Distances, the centroid hierarchy (coarse L0, fine L1, optional L2 routing),
    the probe plan and its clamp, candidate generation and scoring, assignment
    and removal of documents, and the arithmetic of the layout.  Building
    (k-means) and incremental maintenance are not modelled. *)

From Stdlib Require Import ZArith Lia Bool SpecFloat.
From stdpp Require Import base gmap strings list.
From S2P Require Import Prelude F64 Json Models Schema Meta Wal VectorEncoding.

Definition DEFAULT_PROBE_COARSE : Z := 4.
Definition DEFAULT_PROBE_FINE : Z := 2.
Definition ANN_VERSION_V2 : Z := 2.
Definition ANN_VERSION_V3 : Z := 3.
Definition MAX_COARSE_CENTROIDS : Z := 16.
Definition MAX_COARSE_CENTROIDS_V3 : Z := 256.
Definition MAX_FINE_PER_COARSE : Z := 256.
Definition MAX_FINE_PER_COARSE_V3 : Z := 8.
Definition V3_TARGET_DOCS_PER_COARSE : Z := 500.
Definition V3_INDEX_OBJECT_CAP : Z := 500.
Definition REBUILD_DOC_MULTIPLIER : Z := 4.
Definition REBUILD_SCHEDULED_MAINTENANCE_PASSES : Z := 256.
Definition DEFAULT_ANN_MAX_PROBE_CLUSTERS : Z := 64.

(** ** Distances

    [impl_distance_fns!] instantiates the same text at [f64] and [f32]: the
    operations are a parameter. *)

Record FloatOps : Type := mkOps {
  fo_add : spec_float -> spec_float -> spec_float;
  fo_sub : spec_float -> spec_float -> spec_float;
  fo_mul : spec_float -> spec_float -> spec_float;
  fo_div : spec_float -> spec_float -> spec_float;
  fo_sqrt : spec_float -> spec_float
}.

Definition ops64 : FloatOps := mkOps f64_add f64_sub f64_mul f64_div f64_sqrt.
Definition ops32 : FloatOps :=
  mkOps (SFadd f32_prec f32_emax) (SFsub f32_prec f32_emax) (SFmul f32_prec f32_emax)
    (SFdiv f32_prec f32_emax) (SFsqrt f32_prec f32_emax).

Section Distance.
Context (o : FloatOps).

Definition cosine_gen (a b : list spec_float) : spec_float :=
  if negb (lenZ a =? lenZ b) || match a with [] => true | _ => false end then f64_zero
  else
    let '(dot, na, nb) :=
      fold_left (fun acc p =>
        let '(dot, na, nb) := acc in
        (fo_add o dot (fo_mul o p.1 p.2), fo_add o na (fo_mul o p.1 p.1), fo_add o nb (fo_mul o p.2 p.2)))
        (zip a b) (f64_zero, f64_zero, f64_zero) in
    if f64_eqb na f64_zero || f64_eqb nb f64_zero then f64_zero
    else fo_div o dot (fo_mul o (fo_sqrt o na) (fo_sqrt o nb)).

(** [Iterator::sum] of floats starts from [-0.0] ([0.0] before Rust 1.83; the
    two differ on empty vectors only). *)
Definition euclid_gen (a b : list spec_float) : spec_float :=
  if negb (lenZ a =? lenZ b) then f64_infinity
  else fold_left (fun acc p => let d := fo_sub o p.1 p.2 in fo_add o acc (fo_mul o d d)) (zip a b)
         (S754_zero true).

Definition score_gen (query candidate : list spec_float) (metric : DistanceMetric) : spec_float :=
  match metric with
  | CosineDistance => cosine_gen query candidate
  | EuclideanSquared =>
      let d2 := euclid_gen query candidate in
      if f64_is_finite d2 then f64_neg d2 else f64_neg_infinity
  end.
End Distance.

Definition cosine_similarity : list f64 -> list f64 -> f64 := cosine_gen ops64.
Definition euclidean_squared : list f64 -> list f64 -> f64 := euclid_gen ops64.
Definition score_vector : list f64 -> list f64 -> DistanceMetric -> f64 := score_gen ops64.
Definition score_vector_f32 : list spec_float -> list spec_float -> DistanceMetric -> spec_float :=
  score_gen ops32.

(** ** Index data *)

Record ClusterMember : Type := mkMember {
  cm_doc_id : string;
  cm_vector : list f64;
  cm_vector_f16 : option bytes
}.

Record CentroidIndexL0 : Type := mkL0 {
  l0_segment_id : Z;
  l0_vector_field : string;
  l0_dimensions : Z;
  l0_num_coarse : Z;
  l0_num_fine_total : Z;
  l0_probe_coarse : Z;
  l0_probe_fine : Z;
  l0_distance_metric : DistanceMetric;
  l0_vector_element : VectorElement;
  l0_fine_counts : list Z;
  l0_centroids : list (list f64);
  l0_ann_version : Z;
  l0_has_routing : bool;
  l0_maintenance_passes : Z
}.

Record CentroidRouting : Type := mkRouting {
  rt_ann_version : Z;
  rt_segment_id : Z;
  rt_vector_field : string;
  rt_dimensions : Z;
  rt_l2_counts : list Z
}.

Record CentroidIndexL2 : Type := mkL2 {
  l2_segment_id : Z;
  l2_coarse_id : Z;
  l2_l2_id : Z;
  l2_global_fine_start : Z;
  l2_num_fine : Z;
  l2_centroids : list (list f64)
}.

Record CentroidIndexL1 : Type := mkL1 {
  l1_segment_id : Z;
  l1_coarse_id : Z;
  l1_global_id_start : Z;
  l1_num_fine : Z;
  l1_centroids : list (list f64)
}.

Record ClusterSegment : Type := mkCluster {
  cs_segment_id : Z;
  cs_centroid_id : Z;
  cs_members : list ClusterMember
}.

Record VectorIndex : Type := mkVectorIndex {
  vi_l0 : CentroidIndexL0;
  vi_l1 : gmap Z CentroidIndexL1;
  vi_clusters : gmap Z ClusterSegment;
  vi_routing : option CentroidRouting;
  vi_l2 : gmap (Z * Z) CentroidIndexL2
}.

(** ** The probe plan *)

Definition cluster_get_upper_bound_for_probes (coarse fine : Z) : Z :=
  let c := Z.max coarse 1 in
  let f := Z.max fine 1 in
  c + sat_mul64 c f + 4.

Definition cluster_get_upper_bound (l0 : CentroidIndexL0) : Z :=
  cluster_get_upper_bound_for_probes (l0_probe_coarse l0) (l0_probe_fine l0).

(** The fine width that fits beside [c] coarse probes. *)
Definition fine_room (c max_clusters : Z) : Z :=
  let room := sat_sub (sat_sub max_clusters 4) c in
  if 0 <? c then wrap32 (Z.max (room / c) 1) else 1.

(** The final [while] loop, at most [c - 1] turns. *)
Fixpoint clamp_loop (fuel : nat) (c f max_clusters : Z) : Z * Z :=
  match fuel with
  | O => (c, f)
  | S fuel' =>
      if (1 <? c) && (max_clusters <? cluster_get_upper_bound_for_probes c f)
      then clamp_loop fuel' (c - 1) (fine_room (c - 1) max_clusters) max_clusters
      else (c, f)
  end.

Definition clamp_probe_widths_to_cluster_cap (coarse fine max_clusters : Z) : Z * Z :=
  let c := Z.max coarse 1 in
  let f_orig := Z.max fine 1 in
  if cluster_get_upper_bound_for_probes c f_orig <=? max_clusters then (c, f_orig)
  else
    let c_cap := wrap32 (Z.max (sat_sub max_clusters 4 / 2) 1) in
    let c := Z.min c c_cap in
    let f := Z.max (Z.min f_orig (fine_room c max_clusters)) 1 in
    if cluster_get_upper_bound_for_probes c f <=? max_clusters then (c, f)
    else
      let '(c, f) := clamp_loop (Z.to_nat c) c 1 max_clusters in
      (Z.max c 1, Z.max f 1).

(** [ann_max_probe_clusters_from_env]: the parsed variable, if it is at least 8. *)
Definition ann_max_probe_clusters (parsed : option Z) : Z :=
  match parsed with
  | Some n => if 8 <=? n then n else DEFAULT_ANN_MAX_PROBE_CLUSTERS
  | None => DEFAULT_ANN_MAX_PROBE_CLUSTERS
  end.

Definition set_probes (c f : Z) (l0 : CentroidIndexL0) : CentroidIndexL0 :=
  mkL0 (l0_segment_id l0) (l0_vector_field l0) (l0_dimensions l0) (l0_num_coarse l0)
    (l0_num_fine_total l0) c f (l0_distance_metric l0) (l0_vector_element l0) (l0_fine_counts l0)
    (l0_centroids l0) (l0_ann_version l0) (l0_has_routing l0) (l0_maintenance_passes l0).

Definition set_ann_version (v : Z) (l0 : CentroidIndexL0) : CentroidIndexL0 :=
  mkL0 (l0_segment_id l0) (l0_vector_field l0) (l0_dimensions l0) (l0_num_coarse l0)
    (l0_num_fine_total l0) (l0_probe_coarse l0) (l0_probe_fine l0) (l0_distance_metric l0)
    (l0_vector_element l0) (l0_fine_counts l0) (l0_centroids l0) v (l0_has_routing l0)
    (l0_maintenance_passes l0).

Definition clamp_probe_plan_for_query (max_clusters : Z) (l0 : CentroidIndexL0) : CentroidIndexL0 :=
  if l0_num_fine_total l0 <=? 32 then l0
  else
    let orig_coarse := Z.max (l0_probe_coarse l0) 1 in
    let orig_fine := Z.max (l0_probe_fine l0) 1 in
    let '(c, f) := clamp_probe_widths_to_cluster_cap orig_coarse orig_fine max_clusters in
    if negb (c =? orig_coarse) || negb (f =? orig_fine) then set_probes c f l0 else l0.

(** [probes] of an [AnnBuildConfig]: coarse and fine width. *)
Definition align_with_namespace_meta (meta : NamespaceMeta) (build : option (Z * Z)) (l0 : CentroidIndexL0)
  : CentroidIndexL0 :=
  if preferred_ann_version meta <? ANN_VERSION_V3 then l0
  else
    let l0 := set_ann_version (Z.max (l0_ann_version l0) ANN_VERSION_V3) l0 in
    let '(coarse, fine) := default (DEFAULT_PROBE_COARSE, DEFAULT_PROBE_FINE) build in
    let given := match build with Some _ => true | None => false end in
    set_probes (if given || (l0_probe_coarse l0 =? 0) then coarse else l0_probe_coarse l0)
      (if given || (l0_probe_fine l0 =? 0) then fine else l0_probe_fine l0) l0.

Definition is_v3 (l0 : CentroidIndexL0) : bool := ANN_VERSION_V3 <=? l0_ann_version l0.

Definition sum_u32 (l : list Z) : Z := wrap32 (fold_left Z.add l 0).

Definition global_id_start (l0 : CentroidIndexL0) (coarse_id : Z) : Z :=
  sum_u32 (take (Z.to_nat coarse_id) (l0_fine_counts l0)).

Definition global_fine_id (l0 : CentroidIndexL0) (coarse_id local_fine : Z) : Z :=
  wrap32 (global_id_start l0 coarse_id + local_fine).

Fixpoint coarse_local_loop (fine_id offset coarse_id : Z) (counts : list Z) : option (Z * Z) :=
  match counts with
  | [] => None
  | count :: rest =>
      if fine_id <? sat_add32 offset count then Some (coarse_id, fine_id - offset)
      else coarse_local_loop fine_id (sat_add32 offset count) (coarse_id + 1) rest
  end.

Definition coarse_local_from_global (l0 : CentroidIndexL0) (fine_id : Z) : option (Z * Z) :=
  coarse_local_loop fine_id 0 0 (l0_fine_counts l0).

(** Higher score first, ties by ascending key. *)
Definition ranked_cmp {K} (cmp : K -> K -> comparison) (a b : K * f64) : comparison :=
  cmp_then (f64_cmp_or_eq b.2 a.2) (cmp a.1 b.1).

Definition top_m_centroids (centroids : list (list f64)) (query : list f64) (metric : DistanceMetric)
    (m : Z) : list Z :=
  match centroids with
  | [] => []
  | _ =>
      let m := Z.min m (lenZ centroids) in
      let ranked := imap (fun i c => (Z.of_nat i, score_vector query c metric)) centroids in
      (take (Z.to_nat m) (sort_by (ranked_cmp Z.compare) ranked)).*1
  end.

Definition nearest_coarse (l0 : CentroidIndexL0) (query : list f64) (m : Z) : list Z :=
  top_m_centroids (l0_centroids l0) query (l0_distance_metric l0) m.

Definition probe_coarse_count (l0 : CentroidIndexL0) : Z :=
  if l0_num_fine_total l0 <=? 32 then l0_num_coarse l0
  else Z.max (Z.min (l0_probe_coarse l0) (l0_num_coarse l0)) 1.

Definition probe_fine_count_for_num_fine (l0 : CentroidIndexL0) (num_fine : Z) : Z :=
  if l0_num_fine_total l0 <=? 32 then num_fine else Z.max (Z.min (l0_probe_fine l0) num_fine) 1.

Definition probe_fine_count (l0 : CentroidIndexL0) (l1 : CentroidIndexL1) : Z :=
  probe_fine_count_for_num_fine l0 (l1_num_fine l1).

Definition probe_l2_count (l0 : CentroidIndexL0) (l2_parts : Z) : Z :=
  if l2_parts <=? 1 then 0
  else if l0_num_fine_total l0 <=? 32 then l2_parts
  else Z.max (Z.min (l0_probe_fine l0) l2_parts) 1.

Definition l2_count_for_coarse (r : CentroidRouting) (coarse_id : Z) : Z :=
  default 0 (rt_l2_counts r !! Z.to_nat coarse_id).

(** ** Probing *)

Section Probe.
Context (l0 : CentroidIndexL0) (l1 : gmap Z CentroidIndexL1) (routing : option CentroidRouting)
  (l2 : gmap (Z * Z) CentroidIndexL2) (query : list f64).

(** The best score of an L2 partition's centroids. *)
Definition l2_score (seg : CentroidIndexL2) : f64 :=
  fold_left f64_max ((fun c => score_vector query c (l0_distance_metric l0)) <$> l2_centroids seg)
    f64_neg_infinity.

Definition l2_rank (coarse_id l2_parts : Z) : list (Z * f64) :=
  omap (fun l2_id =>
    seg ← l2 !! (coarse_id, l2_id);
    match l2_centroids seg with [] => None | _ => Some (l2_id, l2_score seg) end) (range0 l2_parts).

Definition probe_l2_fines (coarse_id : Z) (l2_id : Z) : list Z :=
  match l2 !! (coarse_id, l2_id) with
  | None => []
  | Some seg =>
      (fun local => sat_add32 (l2_global_fine_start seg) local) <$>
        top_m_centroids (l2_centroids seg) query (l0_distance_metric l0)
          (probe_fine_count_for_num_fine l0 (l2_num_fine seg))
  end.

Definition probe_l1_fines (coarse_id : Z) : list Z :=
  match l1 !! coarse_id with
  | None => []
  | Some seg =>
      (fun local => global_fine_id l0 coarse_id local) <$>
        top_m_centroids (l1_centroids seg) query (l0_distance_metric l0) (probe_fine_count l0 seg)
  end.

(** The fine ids probed inside one coarse cell. *)
Definition probe_coarse_cell (coarse_id : Z) : list Z :=
  let l2_parts := match routing with Some r => l2_count_for_coarse r coarse_id | None => 0 end in
  if (1 <? l2_parts) && negb (bool_decide (l2 = ∅)) then
    match l2_rank coarse_id l2_parts with
    | [] => probe_l1_fines coarse_id
    | l2_ranked =>
        concat (probe_l2_fines coarse_id <$>
          (take (Z.to_nat (probe_l2_count l0 l2_parts)) (sort_by (ranked_cmp Z.compare) l2_ranked)).*1)
    end
  else probe_l1_fines coarse_id.

Definition probe_fine_centroids_parts : list Z :=
  if negb (lenZ query =? l0_dimensions l0) then []
  else
    let coarse_ids := nearest_coarse l0 query (probe_coarse_count l0) in
    dedup (sort_by Z.compare (concat (probe_coarse_cell <$> coarse_ids))).
End Probe.

Section Query.
Context {IO : IterOrder} {VL : VectorLib}.

Definition f16_to_f32 (bits : Z) : spec_float := f32_of_f64 (f16_to_f64 bits).

Definition f16_le_bytes_to_f32_vec (b : bytes) (dim : Z) : list spec_float :=
  (fun c => f16_to_f32 (le16 c)) <$> take (Z.to_nat dim) (chunks2 b).

Definition from_values (doc_id : string) (values : list f64) (element : VectorElement) : ClusterMember :=
  match element with
  | F32 => mkMember doc_id values None
  | F16 => mkMember doc_id [] (Some (f64_slice_to_f16_le values))
  end.

Definition as_f32_slice (m : ClusterMember) (dim : Z) : list spec_float :=
  match cm_vector_f16 m with
  | Some b => f16_le_bytes_to_f32_vec b dim
  | None => f32_of_f64 <$> take (Z.to_nat dim) (cm_vector m)
  end.

Definition extract_vector (attrs : gmap string Value) (field : string) : option (list f64) :=
  attrs !! field ≫= fun v => result_ok (value_to_f64_vec v).

Definition probe_fine_centroids (vi : VectorIndex) (query : list f64) : list Z :=
  probe_fine_centroids_parts (vi_l0 vi) (vi_l1 vi) (vi_routing vi) (vi_l2 vi) query.

(** The score of one stored member at the index's element type. *)
Definition member_score (query : list f64) (metric : DistanceMetric) (dim : Z) (element : VectorElement)
    (m : ClusterMember) : f64 :=
  match element with
  | F32 => score_vector query (cm_vector m) metric
  | F16 =>
      let query_f32 := f32_of_f64 <$> take (Z.to_nat dim) query in
      f64_of_f32 (score_vector_f32 query_f32 (as_f32_slice m dim) metric)
  end.

Definition score_members (c : ClusterSegment) (query : list f64) (metric : DistanceMetric) (top_k dim : Z)
    (element : VectorElement) : list (string * f64) :=
  let scored := (fun m => (cm_doc_id m, member_score query metric dim element m)) <$> cs_members c in
  take (Z.to_nat top_k) (sort_by (ranked_cmp str_cmp) scored).

Definition ann_candidate_doc_ids (vi : VectorIndex) (query : list f64) : gset string :=
  fold_left (fun ids fine_id =>
    match vi_clusters vi !! fine_id with
    | Some c => fold_left (fun ids m => ids ∪ {[ cm_doc_id m ]}) (cs_members c) ids
    | None => ids
    end) (probe_fine_centroids vi query) ∅.

Definition ann_pool_doc_ids (vi : VectorIndex) (query : list f64) : gset string :=
  ann_candidate_doc_ids vi query.

Definition rerank_top_k (vi : VectorIndex) (query : list f64) (top_k : Z)
    (view_vector : string -> option (list f64)) : list (string * f64) :=
  if negb (lenZ query =? l0_dimensions (vi_l0 vi)) then []
  else
    let scored := omap (fun id =>
      v ← view_vector id;
      if negb (lenZ v =? lenZ query) then None
      else Some (id, score_vector query v (l0_distance_metric (vi_l0 vi))))
      (iter_set (ann_pool_doc_ids vi query)) in
    take (Z.to_nat top_k) (sort_by (ranked_cmp str_cmp) scored).

Definition score_doc_id (vi : VectorIndex) (doc_id : string) (query : list f64) : option f64 :=
  if negb (lenZ query =? l0_dimensions (vi_l0 vi)) then None
  else
    let l0 := vi_l0 vi in
    let members := concat (cs_members <$> iter_values (vi_clusters vi)) in
    (fun p => member_score query (l0_distance_metric l0) (l0_dimensions l0) (l0_vector_element l0) p.2) <$>
      list_find (fun m => cm_doc_id m = doc_id) members.

(** [entry(id).and_modify(keep the larger).or_insert(score)]. *)
Definition keep_best (scores : gmap string f64) (e : string * f64) : gmap string f64 :=
  match scores !! e.1 with
  | Some s => if f64_gtb e.2 s then <[e.1 := e.2]> scores else scores
  | None => <[e.1 := e.2]> scores
  end.

Definition query_ann (vi : VectorIndex) (query : list f64) (top_k : Z) : list (string * f64) :=
  let l0 := vi_l0 vi in
  if negb (lenZ query =? l0_dimensions l0) then []
  else
    let scores := fold_left (fun scores fine_id =>
      match vi_clusters vi !! fine_id with
      | None => scores
      | Some c => fold_left keep_best
          (score_members c query (l0_distance_metric l0) (sat_mul64 top_k 4) (l0_dimensions l0)
             (l0_vector_element l0)) scores
      end) (probe_fine_centroids vi query) ∅ in
    take (Z.to_nat top_k) (sort_by (ranked_cmp str_cmp) (iter_map scores)).

(** ** Assignment and removal *)

Definition set_clusters (m : gmap Z ClusterSegment) (vi : VectorIndex) : VectorIndex :=
  mkVectorIndex (vi_l0 vi) (vi_l1 vi) m (vi_routing vi) (vi_l2 vi).

Definition remove_doc (vi : VectorIndex) (doc_id : string) : VectorIndex :=
  set_clusters ((fun c => mkCluster (cs_segment_id c) (cs_centroid_id c)
                   (filter (fun m => cm_doc_id m <> doc_id) (cs_members c))) <$> vi_clusters vi) vi.

Definition assign_doc_to_nearest (vi : VectorIndex) (doc_id : string) (vec : list f64)
  : result Z VectorIndex :=
  let l0 := vi_l0 vi in
  let coarse := default 0 (head (nearest_coarse l0 vec 1)) in
  let? l1 := ok_or (vi_l1 vi !! coarse) coarse in
  let local_fine := default 0 (head (top_m_centroids (l1_centroids l1) vec (l0_distance_metric l0) 1)) in
  let fine_id := global_fine_id l0 coarse local_fine in
  let c := default (mkCluster (l0_segment_id l0) fine_id []) (vi_clusters vi !! fine_id) in
  Ok (set_clusters (<[fine_id := mkCluster (cs_segment_id c) (cs_centroid_id c)
        (cs_members c ++ [from_values doc_id vec (l0_vector_element l0)])]> (vi_clusters vi)) vi).

Definition prune_empty_clusters (vi : VectorIndex) : VectorIndex :=
  set_clusters (filter (fun e => cs_members e.2 <> []) (vi_clusters vi)) vi.

Definition doc_count (vi : VectorIndex) : Z :=
  fold_left (fun n c => n + lenZ (cs_members c)) (iter_values (vi_clusters vi)) 0.

Definition max_fine_per_coarse (vi : VectorIndex) : Z :=
  if is_v3 (vi_l0 vi) then MAX_FINE_PER_COARSE_V3 else MAX_FINE_PER_COARSE.

Definition needs_full_rebuild (vi : VectorIndex) : bool :=
  let n := doc_count vi in
  let k := l0_num_fine_total (vi_l0 vi) in
  if (k =? 0) || (n =? 0) then true
  else if REBUILD_SCHEDULED_MAINTENANCE_PASSES <=? l0_maintenance_passes (vi_l0 vi) then true
  else
    forallb (fun c => max_fine_per_coarse vi <=? c) (l0_fine_counts (vi_l0 vi)) &&
    (sat_mul64 k REBUILD_DOC_MULTIPLIER <? n).
End Query.

(** ** Layout sizes *)

(** [(n as f64).sqrt().ceil() as usize], the ceiling of the rounded root. *)
Definition f64_ceil_Z (x : f64) : Z :=
  match x with
  | S754_finite false m e => if 0 <=? e then Z.pos m * 2 ^ e else div_ceil (Z.pos m) (2 ^ (- e))
  | _ => 0
  end.
Definition sqrt_ceil (n : Z) : Z := f64_ceil_Z (f64_sqrt (f64_of_Z n)).

Definition num_coarse_v2 (n : Z) : Z :=
  if n <=? 32 then 1
  else Z.min (clampZ (Z.max (sqrt_ceil n / 4) 4) 1 n) MAX_COARSE_CENTROIDS.

Definition num_fine_v2 (n : Z) : Z :=
  if n =? 0 then 0 else Z.min (clampZ (sqrt_ceil n) 1 n) MAX_FINE_PER_COARSE.

Definition num_fine_v3 (n : Z) : Z :=
  if n =? 0 then 0 else Z.min (clampZ (sqrt_ceil n) 1 n) MAX_FINE_PER_COARSE_V3.

Definition v3_l1_cluster_object_count_estimate (n k_coarse : Z) : Z :=
  if k_coarse =? 0 then 0
  else
    let cell := div_ceil n k_coarse in
    k_coarse + sat_mul64 k_coarse (num_fine_v3 cell).

Fixpoint shrink_coarse (fuel : nat) (n k : Z) : Z :=
  match fuel with
  | O => k
  | S f =>
      if (8 <? k) && (V3_INDEX_OBJECT_CAP <=? v3_l1_cluster_object_count_estimate n k)
      then shrink_coarse f n (k - 1) else k
  end.

Definition num_coarse_v3 (n : Z) : Z :=
  if n <=? 32 then 1
  else
    let k := Z.min (clampZ (Z.max (n / V3_TARGET_DOCS_PER_COARSE) 8) 8 n) MAX_COARSE_CENTROIDS_V3 in
    shrink_coarse (Z.to_nat k) n k.

Definition num_coarse_for_version (n ann_version : Z) : Z :=
  if n =? 0 then 0 else if ANN_VERSION_V3 <=? ann_version then num_coarse_v3 n else num_coarse_v2 n.

Definition num_fine_for_version (n ann_version : Z) : Z :=
  if n =? 0 then 0 else if ANN_VERSION_V3 <=? ann_version then num_fine_v3 n else num_fine_v2 n.

(** ** Lemmas *)

Lemma sat_mul64_le a b : sat_mul64 a b <= a * b.
Proof. unfold sat_mul64. lia. Qed.

Lemma wrap32_id n : 0 <= n < 2 ^ 32 -> wrap32 n = n.
Proof. apply Z.mod_small. Qed.

Lemma clamp_spec coarse fine max c f :
  8 <= max < 2 ^ 32 -> clamp_probe_widths_to_cluster_cap coarse fine max = (c, f) ->
  1 <= c <= Z.max coarse 1 /\ 1 <= f <= Z.max fine 1 /\ cluster_get_upper_bound_for_probes c f <= max.
Proof.
  intros Hm. unfold clamp_probe_widths_to_cluster_cap.
  destruct (cluster_get_upper_bound_for_probes (Z.max coarse 1) (Z.max fine 1) <=? max) eqn:E1; case_bool.
  { intros [=<- <-]. lia. }
  set (cap := wrap32 _). assert (cap = (max - 4) / 2) as ->.
  { subst cap. unfold sat_sub. assert (2 <= (max - 4) / 2 < 2 ^ 32).
    { split; [apply Z.div_le_lower_bound; lia|apply Z.div_lt_upper_bound; lia]. }
    rewrite (Z.max_l (max - 4) 0), (Z.max_l _ 1) by lia. apply wrap32_id. lia. }
  set (c' := Z.min (Z.max coarse 1) ((max - 4) / 2)).
  assert (1 <= c' /\ 2 * c' <= max - 4) as [Hc1 Hc2].
  { pose proof (Z.mul_div_le (max - 4) 2). assert (2 <= (max - 4) / 2) by (apply Z.div_le_lower_bound; lia). lia. }
  assert (fine_room c' max = (max - 4 - c') / c' /\ 1 <= (max - 4 - c') / c') as [Hroom Hr1].
  { assert (1 <= (max - 4 - c') / c') by (apply Z.div_le_lower_bound; lia).
    assert ((max - 4 - c') / c' < 2 ^ 32) by (apply Z.div_lt_upper_bound; nia).
    split; [|done]. unfold fine_room, sat_sub.
    destruct (0 <? c') eqn:E; case_bool; [|lia].
    rewrite (Z.max_l (max - 4) 0), (Z.max_l (max - 4 - c') 0), (Z.max_l _ 1) by lia. apply wrap32_id. lia. }
  rewrite Hroom. set (f' := Z.max _ 1). assert (1 <= f' <= Z.max fine 1 /\ f' <= (max - 4 - c') / c') as [Hf1 Hf2] by lia.
  assert (cluster_get_upper_bound_for_probes c' f' <= max) as Hb.
  { unfold cluster_get_upper_bound_for_probes. rewrite (Z.max_l c' 1), (Z.max_l f' 1) by lia.
    pose proof (sat_mul64_le c' f'). pose proof (Z.mul_div_le (max - 4 - c') c' ltac:(lia)). nia. }
  destruct (_ <=? max) eqn:E2; case_bool; [|lia]. intros [=<- <-]. lia.
Qed.

Lemma top_m_length cs q metric m : 0 <= m -> lenZ (top_m_centroids cs q metric m) <= m.
Proof.
  intros Hm. unfold top_m_centroids. destruct cs as [|c cs]; [unfold lenZ; cbn; lia|].
  unfold lenZ. rewrite length_fmap, length_take. lia.
Qed.

Lemma dedup_length {A} `{EqDecision A} (l : list A) : lenZ (dedup l) <= lenZ l.
Proof.
  unfold lenZ. induction l as [|x l IH]; [done|]. cbn [dedup]. destruct l as [|y l]; [done|].
  destruct (decide (x = y)); cbn [length] in *; lia.
Qed.

Lemma concat_length_le {A B} (f : A -> list B) (l : list A) n :
  0 <= n -> (forall x, x ∈ l -> lenZ (f x) <= n) -> lenZ (concat (f <$> l)) <= n * lenZ l.
Proof.
  intros Hn. unfold lenZ. induction l as [|x l IH]; intros Hl; [cbn; lia|].
  rewrite fmap_cons. cbn [concat length]. rewrite length_app.
  specialize (IH ltac:(intros y Hy; apply Hl; by right)).
  assert (Z.of_nat (length (f x)) <= n) by (apply (Hl x); by left). lia.
Qed.

Lemma fold_add_acc l a : fold_left Z.add l a = a + fold_left Z.add l 0.
Proof.
  revert a. induction l as [|x l IH]; intros a; cbn [fold_left]; [lia|].
  rewrite IH, (IH (0 + x)). lia.
Qed.

(** The sum of the fine counts. *)
Definition total (counts : list Z) : Z := fold_left Z.add counts 0.

Lemma total_cons c counts : total (c :: counts) = c + total counts.
Proof. unfold total. cbn [fold_left]. rewrite fold_add_acc. lia. Qed.

Lemma total_nonneg counts : Forall (fun c => 0 <= c) counts -> 0 <= total counts.
Proof. induction 1 as [|c counts Hc _ IH]; [done|]. rewrite total_cons. lia. Qed.

Lemma total_take_le counts n : Forall (fun c => 0 <= c) counts -> 0 <= total (take n counts) <= total counts.
Proof.
  intros Hall. revert n. induction Hall as [|c counts Hc Hall IH]; intros [|n]; cbn [take]; try done.
  - rewrite total_cons. pose proof (total_nonneg _ Hall). change (total []) with 0. lia.
  - rewrite !total_cons. specialize (IH n). lia.
Qed.

(** The loop finds the cell a fine id falls into. *)
Lemma coarse_local_loop_hit counts n count local offset base :
  Forall (fun c => 0 <= c) counts -> 0 <= offset -> offset + total counts <= u32_max ->
  counts !! n = Some count -> 0 <= local < count ->
  coarse_local_loop (offset + total (take n counts) + local) offset base counts =
    Some (base + Z.of_nat n, local).
Proof.
  intros Hall. revert n offset base. induction Hall as [|c counts Hc Hall IH]; intros n offset base Ho Hb Hn Hl; [done|].
  rewrite total_cons in Hb. pose proof (total_nonneg _ Hall). cbn [coarse_local_loop].
  assert (sat_add32 offset c = offset + c) as Hs by (unfold sat_add32; lia). rewrite Hs.
  destruct n as [|n]; cbn in Hn.
  - injection Hn as ->. cbn [take]. change (total []) with 0.
    destruct (_ <? _) eqn:E; case_bool; [|lia]. f_equal. f_equal; lia.
  - cbn [take]. rewrite total_cons. pose proof (total_take_le counts n Hall).
    destruct (_ <? _) eqn:E; case_bool; [lia|].
    replace (offset + (c + total (take n counts)) + local) with (offset + c + total (take n counts) + local) by lia.
    rewrite IH by (done || lia). f_equal. f_equal. lia.
Qed.

Lemma coarse_local_loop_inv counts fine_id offset base c l :
  Forall (fun c => 0 <= c) counts -> 0 <= offset <= fine_id -> offset + total counts <= u32_max ->
  coarse_local_loop fine_id offset base counts = Some (c, l) ->
  exists n count, c = base + Z.of_nat n /\ counts !! n = Some count /\ 0 <= l < count /\
    fine_id = offset + total (take n counts) + l.
Proof.
  intros Hall. revert offset base. induction Hall as [|k counts Hk Hall IH]; intros offset base Ho Hb; [done|].
  rewrite total_cons in Hb. pose proof (total_nonneg _ Hall). cbn [coarse_local_loop].
  assert (sat_add32 offset k = offset + k) as -> by (unfold sat_add32; lia).
  destruct (_ <? _) eqn:E; case_bool.
  - intros [=<- <-]. exists 0%nat, k. cbn [take]. change (total []) with 0. split_and!; try done; lia.
  - intros Hr. apply IH in Hr as (n & count & -> & Hn & Hl & ->); [|lia..].
    exists (S n), count. cbn [take]. rewrite total_cons. split_and!; try done; lia.
Qed.

Definition l0_wf (l0 : CentroidIndexL0) : Prop :=
  Forall (fun c => 0 <= c) (l0_fine_counts l0) /\ total (l0_fine_counts l0) <= u32_max.

Lemma global_fine_id_wf l0 n local count :
  l0_wf l0 -> l0_fine_counts l0 !! n = Some count -> 0 <= local < count ->
  global_fine_id l0 (Z.of_nat n) local = total (take n (l0_fine_counts l0)) + local.
Proof.
  intros [Hall Hmax] Hn Hl. unfold global_fine_id, global_id_start, sum_u32. rewrite Nat2Z.id.
  fold (total (take n (l0_fine_counts l0))). pose proof (total_take_le (l0_fine_counts l0) n Hall).
  pose proof (total_take_le (l0_fine_counts l0) (S n) Hall) as Hsn.
  rewrite (take_S_r _ _ _ Hn) in Hsn.
  assert (total (take n (l0_fine_counts l0) ++ [count]) = total (take n (l0_fine_counts l0)) + count) as E.
  { unfold total. rewrite fold_left_app. cbn. lia. }
  unfold u32_max in *. rewrite (wrap32_id (total _)) by lia. apply wrap32_id. lia.
Qed.

Lemma fold_members_elem {A} (f : A -> gset string -> gset string) (P : A -> string -> Prop) l X id :
  (forall a Y, id ∈ f a Y <-> id ∈ Y \/ P a id) ->
  id ∈ fold_left (fun Y a => f a Y) l X <-> id ∈ X \/ exists a, a ∈ l /\ P a id.
Proof.
  intros Hf. revert X. induction l as [|a l IH]; intros X; cbn [fold_left].
  - split; [by left|]. intros [?|(a & ?%not_elem_of_nil & _)]; done.
  - rewrite IH, Hf. setoid_rewrite elem_of_cons. naive_solver.
Qed.

Section QueryFacts.
Context {IO : IterOrder} {VL : VectorLib}.

(** A document is stored in a cluster. *)
Definition member_of (vi : VectorIndex) (fine_id : Z) (id : string) : Prop :=
  exists c m, vi_clusters vi !! fine_id = Some c /\ m ∈ cs_members c /\ cm_doc_id m = id.

Lemma ann_candidate_elem vi q id :
  id ∈ ann_candidate_doc_ids vi q <-> exists fine_id, fine_id ∈ probe_fine_centroids vi q /\ member_of vi fine_id id.
Proof.
  unfold ann_candidate_doc_ids.
  rewrite (fold_members_elem (fun fine_id ids => match vi_clusters vi !! fine_id with
    | Some c => fold_left (fun ids m => ids ∪ {[ cm_doc_id m ]}) (cs_members c) ids | None => ids end)
    (fun fine_id id => member_of vi fine_id id)).
  - set_solver.
  - intros fine_id Y. unfold member_of. destruct (vi_clusters vi !! fine_id) as [c|].
    + rewrite (fold_members_elem (fun m ids => ids ∪ {[ cm_doc_id m ]}) (fun m id => cm_doc_id m = id))
        by set_solver. naive_solver.
    + naive_solver.
Qed.

Lemma keep_best_dom l scores id :
  is_Some (fold_left keep_best l scores !! id) <-> is_Some (scores !! id) \/ id ∈ l.*1.
Proof.
  revert scores. induction l as [|[i s] l IH]; intros scores; cbn [fold_left]; [set_solver|].
  rewrite IH. cbn. rewrite elem_of_cons.
  assert (is_Some (keep_best scores (i, s) !! id) <-> is_Some (scores !! id) \/ id = i) as ->; [|tauto].
  unfold keep_best. cbn. destruct (decide (id = i)) as [->|Hne].
  - destruct (scores !! i) eqn:E; [destruct (f64_gtb s _)|]; rewrite ?lookup_insert_eq, ?E; naive_solver.
  - destruct (scores !! i); [destruct (f64_gtb s _)|]; rewrite ?lookup_insert_ne by done; naive_solver.
Qed.

(** A cluster contributes at most its members, in order of score. *)
Lemma score_members_elem c q metric k dim el id :
  id ∈ (score_members c q metric k dim el).*1 -> exists m, m ∈ cs_members c /\ cm_doc_id m = id.
Proof.
  unfold score_members. intros Hin. apply list_elem_of_fmap in Hin as ([i s] & -> & Hin).
  apply elem_of_take in Hin as (n & Hn & _). apply list_elem_of_lookup_2 in Hn.
  rewrite elem_of_sort_by in Hn. apply list_elem_of_fmap in Hn as (m & [=-> ->] & Hm). by exists m.
Qed.
End QueryFacts.

(** ** Theorems *)

(** C39: the probe clamp keeps its promise: for a cap of at least 8 and an index
    of more than 32 fine centroids (the plan of a smaller one is left as it is),
    the clamped widths never exceed the requested ones, and the widths a query
    uses are at least 1; an index without L2 routing probes at most so many cells
    that the L1 segments and clusters to fetch, with the slack of 4, stay within
    the cap. *)
Theorem probe_plan_within_cap max l0 l1 l2 query :
  8 <= max < 2 ^ 32 -> 32 < l0_num_fine_total l0 ->
  let l0' := clamp_probe_plan_for_query max l0 in
  1 <= probe_coarse_count l0' /\ (forall n, 1 <= probe_fine_count_for_num_fine l0' n) /\
  Z.max (l0_probe_coarse l0') 1 <= Z.max (l0_probe_coarse l0) 1 /\
  Z.max (l0_probe_fine l0') 1 <= Z.max (l0_probe_fine l0) 1 /\
  cluster_get_upper_bound l0' <= max /\
  lenZ (nearest_coarse l0' query (probe_coarse_count l0')) +
    lenZ (probe_fine_centroids_parts l0' l1 None l2 query) + 4 <= max.
Proof.
  intros Hm Hn. cbn zeta. set (l0' := clamp_probe_plan_for_query max l0).
  assert (l0_num_fine_total l0' = l0_num_fine_total l0 /\
    Z.max (l0_probe_coarse l0') 1 <= Z.max (l0_probe_coarse l0) 1 /\
    Z.max (l0_probe_fine l0') 1 <= Z.max (l0_probe_fine l0) 1 /\
    cluster_get_upper_bound l0' <= max) as (Hnf & Hc & Hf & Hb).
  { subst l0'. unfold clamp_probe_plan_for_query, cluster_get_upper_bound.
    destruct (l0_num_fine_total l0 <=? 32) eqn:E; case_bool; [lia|].
    destruct (clamp_probe_widths_to_cluster_cap _ _ max) as [c f] eqn:Hcl.
    apply clamp_spec in Hcl as (H1 & H2 & H3); [|done].
    destruct (negb _ || negb _) eqn:E2; cbn [set_probes l0_probe_coarse l0_probe_fine l0_num_fine_total].
    - split_and!; [done|lia|lia|done].
    - apply orb_false_iff in E2 as [Ec Ef]. apply negb_false_iff, Z.eqb_eq in Ec, Ef. subst c f.
      split_and!; [done|lia|lia|]. unfold cluster_get_upper_bound_for_probes in *.
      by rewrite <- !Z.max_assoc, !Z.max_id in H3. }
  assert (1 <= probe_coarse_count l0' <= Z.max (l0_probe_coarse l0') 1) as Hpc.
  { unfold probe_coarse_count. rewrite Hnf. destruct (_ <=? 32) eqn:E; case_bool; lia. }
  split; [lia|]. split.
  { intros n. unfold probe_fine_count_for_num_fine. rewrite Hnf. destruct (_ <=? 32) eqn:E; case_bool; lia. }
  split; [done|]. split; [done|]. split; [done|].
  pose proof (top_m_length (l0_centroids l0') query (l0_distance_metric l0') (probe_coarse_count l0') ltac:(lia)) as Ht.
  fold (nearest_coarse l0' query (probe_coarse_count l0')) in Ht.
  assert (lenZ (probe_fine_centroids_parts l0' l1 None l2 query) <=
    Z.max (l0_probe_fine l0') 1 * lenZ (nearest_coarse l0' query (probe_coarse_count l0'))) as Hp.
  { unfold probe_fine_centroids_parts. destruct (negb _); [unfold lenZ; cbn; lia|].
    etrans; [apply dedup_length|]. unfold lenZ at 1. rewrite sort_by_length. fold (lenZ (A := Z)).
    apply concat_length_le; [lia|]. intros x _. unfold probe_coarse_cell. change (1 <? 0) with false. cbn [andb].
    unfold probe_l1_fines. destruct (l1 !! x) as [seg|]; [|unfold lenZ; cbn; lia].
    unfold lenZ. rewrite length_fmap. fold (lenZ (top_m_centroids (l1_centroids seg) query (l0_distance_metric l0') (probe_fine_count l0' seg))).
    assert (0 <= probe_fine_count l0' seg <= Z.max (l0_probe_fine l0') 1) as Hpf.
    { unfold probe_fine_count, probe_fine_count_for_num_fine. rewrite Hnf.
      destruct (_ <=? 32) eqn:E; case_bool; lia. }
    etrans; [apply top_m_length; lia|lia]. }
  unfold cluster_get_upper_bound, cluster_get_upper_bound_for_probes, sat_mul64, u64_max in Hb. nia.
Qed.

Definition wide_l0 : CentroidIndexL0 :=
  mkL0 1 "emb" 1 3 40 200 300 EuclideanSquared F32 [10; 20; 10]
    [[f64_of_Z 0]; [f64_of_Z 5]; [f64_of_Z 9]] ANN_VERSION_V2 false 0.

Lemma probe_plan_within_cap_witness :
  let l0' := clamp_probe_plan_for_query 64 wide_l0 in
  1 <= probe_coarse_count l0' /\ (forall n, 1 <= probe_fine_count_for_num_fine l0' n) /\
  Z.max (l0_probe_coarse l0') 1 <= Z.max (l0_probe_coarse wide_l0) 1 /\
  Z.max (l0_probe_fine l0') 1 <= Z.max (l0_probe_fine wide_l0) 1 /\
  cluster_get_upper_bound l0' <= 64 /\
  lenZ (nearest_coarse l0' [f64_of_Z 4] (probe_coarse_count l0')) +
    lenZ (probe_fine_centroids_parts l0' ∅ None ∅ [f64_of_Z 4]) + 4 <= 64.
Proof. apply probe_plan_within_cap; [lia|reflexivity]. Defined.

(** fine ids and cells are in bijection: the global id of the [local]-th fine
    centroid of a coarse cell is mapped back to that cell and position, and an
    id that is mapped to a cell is the global id of that position; this holds
    for every layout whose fine centroids can be counted in a [u32]. *)
Theorem fine_id_bijection l0 :
  l0_wf l0 ->
  (forall n count local, l0_fine_counts l0 !! n = Some count -> 0 <= local < count ->
     coarse_local_from_global l0 (global_fine_id l0 (Z.of_nat n) local) = Some (Z.of_nat n, local)) /\
  (forall fine_id c local, 0 <= fine_id -> coarse_local_from_global l0 fine_id = Some (c, local) ->
     exists n count, c = Z.of_nat n /\ l0_fine_counts l0 !! n = Some count /\ 0 <= local < count /\
       global_fine_id l0 c local = fine_id).
Proof.
  intros Hwf. pose proof Hwf as [Hall Hmax]. unfold coarse_local_from_global. split.
  - intros n count local Hn Hl. rewrite (global_fine_id_wf _ _ _ _ Hwf Hn Hl).
    pose proof (coarse_local_loop_hit _ n count local 0 0 Hall ltac:(lia) ltac:(lia) Hn Hl) as Hh.
    by rewrite Z.add_0_l in Hh.
  - intros fine_id c local Hf Hr.
    apply coarse_local_loop_inv in Hr as (n & count & -> & Hn & Hl & ->); [|done|lia|lia].
    exists n, count. split_and!; try done; try lia. rewrite Z.add_0_l.
    rewrite (global_fine_id_wf _ _ _ _ Hwf Hn Hl). lia.
Qed.

Lemma fine_id_bijection_witness :
  (forall n count local, l0_fine_counts wide_l0 !! n = Some count -> 0 <= local < count ->
     coarse_local_from_global wide_l0 (global_fine_id wide_l0 (Z.of_nat n) local) = Some (Z.of_nat n, local)) /\
  (forall fine_id c local, 0 <= fine_id -> coarse_local_from_global wide_l0 fine_id = Some (c, local) ->
     exists n count, c = Z.of_nat n /\ l0_fine_counts wide_l0 !! n = Some count /\ 0 <= local < count /\
       global_fine_id wide_l0 c local = fine_id).
Proof. apply fine_id_bijection. split; [by repeat constructor|by vm_compute]. Defined.

(** an approximate query returns documents of the probed clusters only, each
    once and at most [top_k] of them; a query of the wrong dimension returns
    none. *)
Theorem query_ann_sound {IO : IterOrder} {VL : VectorLib} vi query top_k :
  NoDup (query_ann vi query top_k).*1 /\
  lenZ (query_ann vi query top_k) <= Z.max top_k 0 /\
  (forall id, id ∈ (query_ann vi query top_k).*1 -> id ∈ ann_candidate_doc_ids vi query) /\
  (lenZ query <> l0_dimensions (vi_l0 vi) ->
     query_ann vi query top_k = [] /\ ann_candidate_doc_ids vi query = ∅).
Proof.
  unfold query_ann. destruct (lenZ query =? l0_dimensions (vi_l0 vi)) eqn:Hd; case_bool; cbn [negb].
  - set (scores := fold_left _ (probe_fine_centroids vi query) ∅).
    set (ranked := sort_by (ranked_cmp str_cmp) (iter_map scores)).
    assert (ranked ≡ₚ map_to_list scores) as Hperm
      by (unfold ranked; by rewrite sort_by_perm, iter_map_perm).
    assert (NoDup ranked.*1) as Hnd by (rewrite Hperm; apply NoDup_fst_map_to_list).
    split; [rewrite fmap_take; by apply (sublist_NoDup _ _ Hnd), sublist_take|].
    split; [unfold lenZ; rewrite length_take; lia|]. split; [|done].
    intros id Hin. apply list_elem_of_fmap in Hin as ([i s] & -> & Hin).
    apply elem_of_take in Hin as (n & Hn & _). apply list_elem_of_lookup_2 in Hn.
    rewrite Hperm in Hn. apply elem_of_map_to_list in Hn. rewrite ann_candidate_elem.
    assert (is_Some (scores !! i)) as Hs by (by eexists). clear Hn Hnd Hperm ranked. revert Hs. unfold scores.
    assert (forall l (m : gmap string f64), is_Some (fold_left (fun scores fine_id =>
      match vi_clusters vi !! fine_id with | None => scores | Some c => fold_left keep_best
        (score_members c query (l0_distance_metric (vi_l0 vi)) (sat_mul64 top_k 4)
          (l0_dimensions (vi_l0 vi)) (l0_vector_element (vi_l0 vi))) scores end) l m !! i) ->
      is_Some (m !! i) \/ exists fine_id, fine_id ∈ l /\ member_of vi fine_id i) as Hg.
    { induction l as [|f l IH]; intros m; cbn [fold_left]; [by left|]. intros Hi.
      apply IH in Hi as [Hi|(g & Hg & Hm)]; [|right; exists g; split; [by right|done]].
      destruct (vi_clusters vi !! f) as [c|] eqn:Hc; [|by left].
      apply keep_best_dom in Hi as [?|(mm & Hmm & Hid)%score_members_elem]; [by left|right].
      exists f. split; [by left|]. by exists c, mm. }
    intros [[? E]|Hm]%Hg; [by rewrite lookup_empty in E|done].
  - split; [constructor|]. split; [unfold lenZ; cbn; lia|]. split; [by intros ? ?%not_elem_of_nil|].
    intros _. split; [done|]. apply set_eq. intros id. rewrite ann_candidate_elem.
    unfold probe_fine_centroids, probe_fine_centroids_parts.
    destruct (lenZ query =? _) eqn:E; case_bool; [done|]. cbn. set_solver.
Qed.

(** a v3 layout stays under its object cap: whatever the number of
    documents, the coarse count chosen makes the estimated number of L1 and
    cluster objects less than 500. *)
Theorem v3_layout_under_cap n :
  0 < n -> v3_l1_cluster_object_count_estimate n (num_coarse_v3 n) < V3_INDEX_OBJECT_CAP /\
  1 <= num_coarse_v3 n <= MAX_COARSE_CENTROIDS_V3.
Proof.
  intros Hn.
  assert (forall m, 0 <= num_fine_v3 m <= 8 \/ m < 0) as Hfine.
  { intros m. destruct (decide (m < 0)); [by right|left]. unfold num_fine_v3, MAX_FINE_PER_COARSE_V3, clampZ.
    destruct (m =? 0) eqn:E; case_bool; [lia|]. destruct (_ <? 1) eqn:E1; case_bool; [lia|].
    destruct (m <? _) eqn:E2; case_bool; lia. }
  assert (forall k, 1 <= k <= 8 -> v3_l1_cluster_object_count_estimate n k < V3_INDEX_OBJECT_CAP) as Hsmall.
  { intros k Hk. unfold v3_l1_cluster_object_count_estimate, V3_INDEX_OBJECT_CAP.
    destruct (k =? 0) eqn:E; case_bool; [lia|].
    assert (0 <= div_ceil n k) by (unfold div_ceil; apply Z.div_pos; lia).
    destruct (Hfine (div_ceil n k)) as [?|?]; [|lia].
    pose proof (sat_mul64_le k (num_fine_v3 (div_ceil n k))). nia. }
  unfold num_coarse_v3, MAX_COARSE_CENTROIDS_V3. destruct (n <=? 32) eqn:E; case_bool; [split; [by apply Hsmall|lia]|].
  set (k0 := Z.min _ 256).
  assert (8 <= k0 <= 256) as Hk0.
  { subst k0. unfold clampZ. destruct (_ <? 8) eqn:E1; case_bool; [lia|]. destruct (n <? _) eqn:E2; case_bool; lia. }
  assert (forall fuel k, 8 <= k <= 256 -> k - 8 <= Z.of_nat fuel ->
    v3_l1_cluster_object_count_estimate n (shrink_coarse fuel n k) < V3_INDEX_OBJECT_CAP /\
    1 <= shrink_coarse fuel n k <= 256) as Hloop.
  { induction fuel as [|fuel IH]; intros k Hk Hf; cbn [shrink_coarse].
    - split; [apply Hsmall; lia|lia].
    - destruct ((8 <? k) && (V3_INDEX_OBJECT_CAP <=? _)) eqn:Ec; [apply IH; apply andb_true_iff in Ec; lia|].
      split; [|lia]. apply andb_false_iff in Ec as [Ec|Ec]; [apply Hsmall; lia|lia]. }
  apply Hloop; lia.
Qed.

Lemma v3_layout_under_cap_witness :
  v3_l1_cluster_object_count_estimate 100000 (num_coarse_v3 100000) < V3_INDEX_OBJECT_CAP /\
  1 <= num_coarse_v3 100000 <= MAX_COARSE_CENTROIDS_V3.
Proof. apply v3_layout_under_cap. lia. Defined.
