(* ===== verification/Billing.v ===== *)
(** * Billing estimates ([billing.rs])

    Logical byte counts of documents and of result rows, by the length of their
    JSON text. *)

From Stdlib Require Import ZArith Lia.
From stdpp Require Import base gmap strings list.
From S2P Require Import Prelude F64 Json Models Fts.

Record QueryRow : Type := mkRow {
  row_id : string;
  row_attributes : option (gmap string Value);
  row_dist : option f64
}.

Definition DEFAULT_AVG_DOC_LOGICAL_BYTES : Z := 64.

(** [Iterator::sum::<u64>()] of a release build. *)
Definition sum_u64 (l : list Z) : Z := wrap64 (fold_right Z.add 0 l).

Section Billing.
Context {IO : IterOrder} {TL : TextLib}.

(** A failed conversion is the empty text. *)
Definition value_logical_bytes (v : Value) : Z := str_len (json_to_string v).

Definition document_logical_bytes (doc : Document) : Z :=
  sat_add64 (str_len (doc_id doc)) (sum_u64 (value_logical_bytes <$> iter_values (doc_attributes doc))).

Definition avg_document_logical_bytes (docs : gmap string Document) : Z :=
  if Z.of_nat (size docs) =? 0 then DEFAULT_AVG_DOC_LOGICAL_BYTES
  else
    let total := sum_u64 (document_logical_bytes <$> iter_values docs) in
    Z.max (total / Z.of_nat (size docs)) 1.

Definition billable_logical_bytes_queried (candidate_count avg_doc_bytes : Z) : Z :=
  sat_mul64 candidate_count avg_doc_bytes.

Definition query_row_logical_bytes (row : QueryRow) : Z :=
  let n := str_len (row_id row) in
  match row_attributes row with
  | Some attrs =>
      sat_add64 n (sum_u64 ((fun kv => sat_add64 (str_len kv.1) (value_logical_bytes kv.2)) <$> iter_map attrs))
  | None => n
  end.

Definition billable_logical_bytes_returned (rows : list QueryRow) : Z :=
  sum_u64 (query_row_logical_bytes <$> rows).
End Billing.
