(* ===== verification/Search.v ===== *)
(** * The query planner ([search.rs])

    Parsing of a query request, candidate generation from the full-text,
    vector and filter indexes and from the unindexed tail of the log, scoring,
    ranking and projection. *)

From Stdlib Require Import ZArith Lia Bool.
From stdpp Require Import base gmap strings list sets sorting.
From S2P Require Import Prelude F64 Json Models Schema Meta Filter Wal WalReplay FilterIndex VectorEncoding Fts Vector Billing.

Definition DEFAULT_TOP_K : Z := 10.
Definition MAX_TOP_K : Z := 1200.

Inductive QueryConsistency : Type := Strong | Eventual.

Record QueryContext : Type := mkContext {
  qc_docs : gmap string Document;
  qc_meta : NamespaceMeta;
  qc_fts : option FtsSegment;
  qc_vectors : gmap string VectorIndex;
  qc_filter_index : option FilterSegment;
  qc_tail_doc_ids : gset string;
  qc_consistency : QueryConsistency;
  qc_storage_roundtrips : option Z;
  qc_cold_s3_keys_fetched : option Z;
  qc_ann_probed_clusters : option Z;
  qc_ann_rerank : option bool
}.

Inductive Ranker : Type :=
| RVector (field : string) (query : list f64)
| RBm25 (field query : string)
| RSum (subs : list Ranker)
| RProduct (subs : list Ranker).

Inductive CandidateMerge : Type := MergeUnion | MergeIntersection.

Record QueryStats : Type := mkStats {
  full_scan_docs : Z;
  tail_docs_examined : Z
}.

Record OrderBy : Type := mkOrderBy { ob_field : string; ob_descending : bool }.

Inductive AttrSortKey : Type :=
| KNull
| KNumber (x : f64)
| KString (s : string).

Record QueryRequest : Type := mkRequest {
  rq_rank_by : Value;
  rq_top_k : option Z;
  rq_filters : option Value;
  rq_include_attributes : option Value;
  rq_consistency : option string;
  rq_order_by : option Value;
  rq_include_vectors : option Value;
  rq_vector_encoding : option string
}.

Record QueryBilling : Type := mkBilling {
  bytes_queried : Z;
  bytes_returned : Z
}.

Record QueryPerformance : Type := mkPerformance {
  approx_namespace_size : Z;
  perf_candidates : Z;
  candidates_ratio : f64;
  perf_scored : Z;
  exhaustive_search_count : Z;
  query_execution_us : Z;
  perf_storage_roundtrips : option Z;
  perf_cold_s3_keys_fetched : option Z;
  perf_ann_probed_clusters : option Z;
  perf_billing : QueryBilling
}.

Record QueryResponse : Type := mkResponse {
  resp_rows : list QueryRow;
  resp_performance : option QueryPerformance
}.

(** One constructor per rejection; [QPanic] is the index's panic on [$ref_new]. *)
Inductive QueryError : Type :=
| QFilter (e : FilterError)
| QTopKZero
| QTopKMax (n : Z)
| QConsistency (s : string)
| QRankNotArray
| QRankEmpty
| QRankHead
| QRankVectorArity
| QRankFieldString
| QRankQueryVector (e : VecError)
| QRankBm25Arity
| QRankQueryString
| QRankOperator (s : string)
| QOrderNotArray
| QOrderArity
| QOrderField
| QOrderDirString
| QOrderDirection (s : string)
| QDimensions (len dim : Z)
| QIncludeNames
| QIncludeShape
| QVectors (e : VecError)
| QPanic.

(** ** Parsing *)

Definition parse_consistency (s : option string) : result QueryError QueryConsistency :=
  match to_ascii_lowercase <$> s with
  | None => Ok Strong
  | Some x =>
      if String.eqb x "strong" then Ok Strong
      else if String.eqb x "eventual" then Ok Eventual
      else Err (QConsistency x)
  end.

Definition parse_top_k (v : option Z) : result QueryError Z :=
  match v with
  | None => Ok DEFAULT_TOP_K
  | Some n =>
      if n =? 0 then Err QTopKZero
      else if MAX_TOP_K <? n then Err (QTopKMax n)
      else Ok n
  end.

Definition parse_include_attributes (v : option Value) : result QueryError (bool * option (gset string)) :=
  match v with
  | None => Ok (true, None)
  | Some (VBool b) => Ok (b, None)
  | Some (VArray arr) =>
      let? names := collect_result (fun x => ok_or (as_str x) QIncludeNames) arr in
      Ok (true, Some (list_to_set names))
  | Some _ => Err QIncludeShape
  end.

Definition parse_order_by (v : Value) : result QueryError OrderBy :=
  let? arr := ok_or (as_array v) QOrderNotArray in
  match arr with
  | f :: d :: _ =>
      let? field := ok_or (as_str f) QOrderField in
      let? dir := ok_or (as_str d) QOrderDirString in
      let dir := to_ascii_lowercase dir in
      if String.eqb dir "asc" || String.eqb dir "ascending" then Ok (mkOrderBy field false)
      else if String.eqb dir "desc" || String.eqb dir "descending" then Ok (mkOrderBy field true)
      else Err (QOrderDirection dir)
  | _ => Err QOrderArity
  end.

(** [matches!(.., Some("1") | Some("true") | ...)] of the trimmed variable. *)
Definition ann_rerank_from_env (v : option string) : bool :=
  match str_trim <$> v with
  | Some s => String.eqb s "1" || String.eqb s "true" || String.eqb s "yes" || String.eqb s "on"
  | None => false
  end.

(** [str::split_whitespace().count()]. *)
Fixpoint count_words (in_word : bool) (chars : list string) : Z :=
  match chars with
  | [] => 0
  | c :: rest =>
      if char_is_whitespace c then count_words false rest
      else (if in_word then 0 else 1) + count_words true rest
  end.

Definition split_whitespace_count (s : string) : Z := count_words false (utf8_chars s).

Section ParseRank.
Context {VL : VectorLib}.

Fixpoint parse_rank_by (v : Value) : result QueryError Ranker :=
  match v with
  | VArray arr =>
      match arr with
      | [] => Err QRankEmpty
      | head_v :: rest =>
          match as_str head_v with
          | None => Err QRankHead
          | Some head =>
              if String.eqb head "vector" || String.eqb head "Vector" then
                match rest with
                | _ :: field_v :: query_v :: _ =>
                    let? field := ok_or (as_str field_v) QRankFieldString in
                    match value_to_f64_vec query_v with
                    | Ok query => Ok (RVector field query)
                    | Err e => Err (QRankQueryVector e)
                    end
                | _ => Err QRankVectorArity
                end
              else if String.eqb head "BM25" || String.eqb head "bm25" then
                match rest with
                | field_v :: query_v :: _ =>
                    let? field := ok_or (as_str field_v) QRankFieldString in
                    let? query := ok_or (as_str query_v) QRankQueryString in
                    Ok (RBm25 field query)
                | _ => Err QRankBm25Arity
                end
              else if String.eqb head "Sum" || String.eqb head "sum" then
                result_map RSum (collect_result parse_rank_by rest)
              else if String.eqb head "Product" || String.eqb head "product" then
                result_map RProduct (collect_result parse_rank_by rest)
              else Err (QRankOperator head)
          end
      end
  | _ => Err QRankNotArray
  end.
End ParseRank.

Fixpoint collect_vector_probe_specs (r : Ranker) (out : list (string * list f64)) : list (string * list f64) :=
  match r with
  | RVector field query => out ++ [(field, query)]
  | RSum subs | RProduct subs => fold_left (fun out sub => collect_vector_probe_specs sub out) subs out
  | RBm25 _ _ => out
  end.

Definition vector_probe_specs {VL : VectorLib} (rank_by : Value) : result QueryError (list (string * list f64)) :=
  let? ranker := parse_rank_by rank_by in Ok (collect_vector_probe_specs ranker []).

(** ** Dimension checks *)

Definition check_dims (len dim : Z) : result QueryError unit :=
  if (0 <? dim) && negb (len =? dim) then Err (QDimensions len dim) else Ok tt.

Definition validate_query_vector_dims (ctx : QueryContext) (field : string) (query : list f64)
  : result QueryError unit :=
  match query with
  | [] => Ok tt
  | _ =>
      match qc_vectors ctx !! field with
      | Some vindex => check_dims (lenZ query) (l0_dimensions (vi_l0 vindex))
      | None =>
          match list_find (fun f => vf_name f = field) (vector_fields (qc_meta ctx)) with
          | Some (_, cfg) => check_dims (wrap32 (lenZ query)) (vf_dimensions cfg)
          | None =>
              if String.eqb (vector_field (qc_meta ctx)) field then check_dims (lenZ query) (dimensions (qc_meta ctx))
              else Ok tt
          end
      end
  end.

Fixpoint validate_ranker_vector_dims (ctx : QueryContext) (r : Ranker) : result QueryError unit :=
  match r with
  | RVector field query => validate_query_vector_dims ctx field query
  | RSum subs | RProduct subs =>
      let? _ := collect_result (validate_ranker_vector_dims ctx) subs in Ok tt
  | RBm25 _ _ => Ok tt
  end.

(** ** The planner *)

Section Planner.
Context {IO : IterOrder} {TL : TextLib} {VL : VectorLib} {FT : F64Text}.
Context (opts : FtsTokenizeOptions) (rerank_env : bool).

Definition ann_rerank_enabled (ctx : QueryContext) : bool := default rerank_env (qc_ann_rerank ctx).

Definition is_strong (c : QueryConsistency) : bool := match c with Strong => true | Eventual => false end.

(** The scan of every document, used when there is no index. *)
Definition scan_docs (docs : gmap string Document) (f : Document -> bool) : gset string :=
  fold_left (fun ids kv => if f kv.2 then {[ kv.1 ]} ∪ ids else ids) (iter_map docs) ∅.

(** One tail id of [matching_doc_ids_for_filter]. *)
Definition correct_tail_id (docs : gmap string Document) (expr : FilterExpr) (ids : gset string) (id : string)
  : gset string :=
  match docs !! id with
  | None => ids ∖ {[ id ]}
  | Some doc => if eval_filter expr doc then {[ id ]} ∪ ids else ids ∖ {[ id ]}
  end.

Definition existing (docs : gmap string Document) (ids : gset string) : gset string :=
  filter (fun id => is_Some (docs !! id)) ids.

Definition matching_doc_ids_for_filter (ctx : QueryContext) (expr : FilterExpr)
  : result QueryError (gset string) :=
  match qc_filter_index ctx with
  | None => Ok (scan_docs (qc_docs ctx) (eval_filter expr))
  | Some seg =>
      let? ids := ok_or (matching_doc_ids seg expr) QPanic in
      match qc_consistency ctx with
      | Strong =>
          Ok (existing (qc_docs ctx)
                (fold_left (correct_tail_id (qc_docs ctx) expr) (iter_set (qc_tail_doc_ids ctx)) ids))
      | Eventual => Ok ids
      end
  end.

Definition use_tail (ctx : QueryContext) : bool := is_strong (qc_consistency ctx).

(** [for_each_tail] with a closure that may insert the id it is given. *)
Definition for_each_tail (ctx : QueryContext) (f : string -> bool) (st : QueryStats) (ids : gset string)
  : QueryStats * gset string :=
  if negb (use_tail ctx) then (st, ids)
  else
    fold_left (fun acc id =>
      (mkStats (full_scan_docs acc.1) (wrap64 (tail_docs_examined acc.1 + 1)),
       if f id then {[ id ]} ∪ acc.2 else acc.2))
      (iter_set (qc_tail_doc_ids ctx)) (st, ids).

Definition add_scan (ctx : QueryContext) (st : QueryStats) : QueryStats :=
  mkStats (wrap64 (full_scan_docs st + Z.of_nat (size (qc_docs ctx)))) (tail_docs_examined st).

(** Index hits, except the ids the tail decides. *)
Definition insert_indexed (ctx : QueryContext) (ids : gset string) (id : string) : gset string :=
  if use_tail ctx && bool_decide (id ∈ qc_tail_doc_ids ctx) then ids else {[ id ]} ∪ ids.

Definition filter_existing_docs (ctx : QueryContext) (ids : gset string) : gset string :=
  match qc_consistency ctx with
  | Eventual => ids
  | Strong => existing (qc_docs ctx) ids
  end.

Definition is_none {A} (o : option A) : bool := match o with None => true | Some _ => false end.

Definition collect_bm25_candidates (ctx : QueryContext) (pool : Z) (field query : string) (st : QueryStats)
  : QueryStats * gset string :=
  let ids :=
    match qc_fts ctx with
    | Some fts =>
        let ids := fold_left (insert_indexed ctx) (iter_set (candidate_doc_ids opts fts query)) ∅ in
        fold_left (insert_indexed ctx) (query_bm25 opts fts query pool).*1 ids
    | None => ∅
    end in
  let avgdl := default f64_one (avg_doc_len <$> qc_fts ctx) in
  let ndocs := Z.max (default 1 (num_docs <$> qc_fts ctx)) 1 in
  let '(st, ids) :=
    for_each_tail ctx (fun id =>
      match qc_docs ctx !! id with
      | Some doc => f64_gtb (bm25_doc_score opts (extract_index_text doc field) query avgdl ndocs) f64_zero
      | None => false
      end) st ids in
  if is_none (qc_fts ctx) && bool_decide (ids = ∅) then
    (add_scan ctx st,
     ids ∪ scan_docs (qc_docs ctx) (fun doc =>
       f64_gtb (bm25_doc_score opts (extract_index_text doc field) query f64_one 1) f64_zero))
  else (st, ids).

(** [extract_vector(..).map(|v| v.len() == query.len()).unwrap_or(false)]. *)
Definition has_vector (field : string) (query : list f64) (doc : Document) : bool :=
  match extract_vector (doc_attributes doc) field with
  | Some v => lenZ v =? lenZ query
  | None => false
  end.

Definition collect_vector_candidates (ctx : QueryContext) (pool : Z) (field : string) (query : list f64)
    (st : QueryStats) : QueryStats * gset string :=
  let ids :=
    match qc_vectors ctx !! field with
    | Some vindex =>
        if lenZ query =? l0_dimensions (vi_l0 vindex) then
          if ann_rerank_enabled ctx
          then fold_left (insert_indexed ctx) (iter_set (ann_pool_doc_ids vindex query)) ∅
          else fold_left (insert_indexed ctx) (query_ann vindex query pool).*1 ∅
        else ∅
    | None => ∅
    end in
  let '(st, ids) :=
    for_each_tail ctx (fun id =>
      match qc_docs ctx !! id with Some doc => has_vector field query doc | None => false end) st ids in
  if is_none (qc_vectors ctx !! field) && bool_decide (ids = ∅) then
    (add_scan ctx st, ids ∪ scan_docs (qc_docs ctx) (has_vector field query))
  else (st, ids).

Section Merge.
Context (collect : Ranker -> QueryStats -> QueryStats * gset string) (merge : CandidateMerge).

Fixpoint merge_child_candidates (acc : option (gset string)) (subs : list Ranker) (st : QueryStats)
  : QueryStats * gset string :=
  match subs with
  | [] => (st, default ∅ acc)
  | sub :: rest =>
      let '(st, child) := collect sub st in
      let acc :=
        match acc with
        | None => child
        | Some prev => match merge with MergeUnion => prev ∪ child | MergeIntersection => prev ∩ child end
        end in
      merge_child_candidates (Some acc) rest st
  end.
End Merge.

Fixpoint collect_candidates (ctx : QueryContext) (pool : Z) (r : Ranker) (st : QueryStats)
  : QueryStats * gset string :=
  let '(st, ids) :=
    match r with
    | RBm25 field query => collect_bm25_candidates ctx pool field query st
    | RVector field query => collect_vector_candidates ctx pool field query st
    | RSum subs => merge_child_candidates (collect_candidates ctx pool) MergeUnion None subs st
    | RProduct subs => merge_child_candidates (collect_candidates ctx pool) MergeIntersection None subs st
    end in
  (st, filter_existing_docs ctx ids).

(** ** Scoring *)

Definition f64_tiny : f64 := f64_lit 1 (10 ^ 12).

(** [f64::clamp(0.0, 1.0)]. *)
Definition clamp01 (x : f64) : f64 :=
  let x := if f64_ltb x f64_zero then f64_zero else x in
  if f64_gtb x f64_one then f64_one else x.

Definition score_range (scored : list (string * f64)) : f64 * f64 :=
  fold_left (fun acc e => if f64_is_finite e.2 then (f64_min acc.1 e.2, f64_max acc.2 e.2) else acc)
    scored (f64_infinity, f64_neg_infinity).

Definition normalize_score (lo hi s : f64) : f64 :=
  let span := f64_max (f64_sub hi lo) f64_tiny in
  if negb (f64_is_finite s) then f64_zero
  else if f64_ltb (f64_abs (f64_sub hi lo)) f64_tiny then
    if f64_gtb s f64_zero then f64_one else f64_zero
  else clamp01 (f64_div (f64_sub s lo) span).

Definition min_max_normalize (scored : list (string * f64)) : gmap string f64 :=
  let '(lo, hi) := score_range scored in
  fold_left (fun m e => <[ e.1 := normalize_score lo hi e.2 ]> m) scored ∅.

Definition bm25_score_legacy (document query : string) : f64 :=
  bm25_doc_score opts document query (f64_of_Z (Z.max (split_whitespace_count document) 1)) 1.

Definition bm25_raw_score (ctx : QueryContext) (doc : Document) (field query : string) : f64 :=
  let text := extract_index_text doc field in
  match qc_fts ctx with
  | Some fts => bm25_doc_score opts text query (avg_doc_len fts) (Z.max (num_docs fts) 1)
  | None => bm25_score_legacy text query
  end.

Definition vector_raw_score (ctx : QueryContext) (doc : Document) (field : string) (query : list f64) : f64 :=
  match extract_vector (doc_attributes doc) field with
  | Some v => if lenZ v =? lenZ query then score_vector query v (distance_metric (qc_meta ctx)) else f64_neg_infinity
  | None => f64_neg_infinity
  end.

Definition positive_raw (s : f64) : bool := f64_is_finite s && f64_gtb s f64_zero.

(** The score of one id from its normalised signals. *)
Definition combine_signals (is_sum : bool) (per_signal : list (gmap string f64)) (id : string) : f64 :=
  let parts := (fun norm : gmap string f64 => default f64_zero (norm !! id)) <$> per_signal in
  if is_sum then fold_left f64_add parts (f64_neg f64_zero) else fold_left f64_mul parts f64_one.

Definition keep_composite (is_sum : bool) (any_positive : gset string) (id : string) (score : f64) : bool :=
  f64_is_finite score &&
  (f64_gtb score f64_zero || (is_sum && bool_decide (id ∈ any_positive))).

(** [score_composite], given the raw scores of the signals. *)
Definition score_composite (is_sum : bool) (raws : list (list (string * f64))) (candidates : gset string)
  : list (string * f64) :=
  let any_positive : gset string :=
    list_to_set (filter (fun e => positive_raw e.2 = true) (concat raws)).*1 in
  let per_signal := min_max_normalize <$> raws in
  omap (fun id =>
    let score := combine_signals is_sum per_signal id in
    if keep_composite is_sum any_positive id score then Some (id, f64_max score f64_zero) else None)
    (iter_set candidates).

Fixpoint score_candidates (ctx : QueryContext) (r : Ranker) (candidates : gset string)
  : list (string * f64) :=
  match r with
  | RBm25 field query =>
      omap (fun id => (fun doc => (id, bm25_raw_score ctx doc field query)) <$> qc_docs ctx !! id)
        (iter_set candidates)
  | RVector field query =>
      omap (fun id =>
        match qc_docs ctx !! id with
        | Some doc => Some (id, vector_raw_score ctx doc field query)
        | None =>
            vindex ← qc_vectors ctx !! field;
            score ← score_doc_id vindex id query;
            Some (id, score)
        end) (iter_set candidates)
  | RSum subs => score_composite true ((fun sub => score_candidates ctx sub candidates) <$> subs) candidates
  | RProduct subs => score_composite false ((fun sub => score_candidates ctx sub candidates) <$> subs) candidates
  end.

(** ** Ranking *)

Definition attr_sort_key (doc : option Document) (field : string) : AttrSortKey :=
  match doc with
  | None => KNull
  | Some doc =>
      match doc_attributes doc !! field with
      | None => KNull
      | Some v =>
          match v with
          | VNull => KNull
          | VString s => KString s
          | VNumber n => match number_as_f64 n with Some x => KNumber x | None => KNull end
          | VBool b => KNumber (bool_f64 b)
          | _ => KNull
          end
      end
  end.

Definition attr_cmp (a b : AttrSortKey) : comparison :=
  match a, b with
  | KNull, KNull => Eq
  | KNull, _ => Lt
  | _, KNull => Gt
  | KNumber x, KNumber y => f64_cmp_or_eq x y
  | KString x, KString y => str_cmp x y
  | KNumber _, KString _ => Lt
  | KString _, KNumber _ => Gt
  end.

Definition compare_attr_keys (a b : AttrSortKey) (descending : bool) : comparison :=
  if descending then CompOpp (attr_cmp a b) else attr_cmp a b.

Definition compare_docs_by_attribute (ctx : QueryContext) (id_a id_b : string) (ob : OrderBy) : comparison :=
  compare_attr_keys (attr_sort_key (qc_docs ctx !! id_a) (ob_field ob))
    (attr_sort_key (qc_docs ctx !! id_b) (ob_field ob)) (ob_descending ob).

(** The closure of [ranked.sort_by]. *)
Definition compare_rows (ctx : QueryContext) (order_by : option OrderBy) (a b : string * f64) : comparison :=
  let by_score := f64_cmp_or_eq b.2 a.2 in
  match order_by with
  | Some ob =>
      cmp_then (cmp_then by_score (compare_docs_by_attribute ctx a.1 b.1 ob)) (str_cmp a.1 b.1)
  | None => cmp_then by_score (str_cmp a.1 b.1)
  end.

(** ** Execution *)

Definition set_consistency (c : QueryConsistency) (ctx : QueryContext) : QueryContext :=
  mkContext (qc_docs ctx) (qc_meta ctx) (qc_fts ctx) (qc_vectors ctx) (qc_filter_index ctx)
    (qc_tail_doc_ids ctx) c (qc_storage_roundtrips ctx) (qc_cold_s3_keys_fetched ctx)
    (qc_ann_probed_clusters ctx) (qc_ann_rerank ctx).

(** An absent or null part of the request is skipped. *)
Definition parse_optional {E A} (f : Value -> result E A) (v : option Value) : result E (option A) :=
  match v with
  | None | Some VNull => Ok None
  | Some v => result_map Some (f v)
  end.

Definition project_row (ctx : QueryContext) (include_attrs : bool) (names : option (gset string))
    (iv : IncludeVectors) (encoding : VectorEncoding) (e : string * f64) : QueryRow :=
  mkRow e.1 (qc_docs ctx !! e.1 ≫= fun doc =>
    project_row_attributes doc (qc_meta ctx) include_attrs names iv encoding) (Some e.2).

Definition map_err {E F A} (f : E -> F) (m : result E A) : result F A :=
  match m with Ok a => Ok a | Err e => Err (f e) end.

Definition query_performance (ctx : QueryContext) (st : QueryStats) (candidates : gset string)
    (scored_count elapsed_us : Z) (rows : list QueryRow) : QueryPerformance :=
  let namespace_size := Z.of_nat (size (qc_docs ctx)) in
  let candidate_count := Z.of_nat (size candidates) in
  mkPerformance namespace_size candidate_count
    (if namespace_size =? 0 then f64_zero else f64_div (f64_of_Z candidate_count) (f64_of_Z namespace_size))
    scored_count
    (sat_add64 (full_scan_docs st) (tail_docs_examined st))
    elapsed_us (qc_storage_roundtrips ctx) (qc_cold_s3_keys_fetched ctx)
    (match qc_ann_probed_clusters ctx with Some n => if 0 <? n then Some n else None | None => None end)
    (mkBilling
      (billable_logical_bytes_queried candidate_count (avg_document_logical_bytes (qc_docs ctx)))
      (billable_logical_bytes_returned rows)).

(** The candidates that pass the filter. *)
Definition filtered_candidates (ctx : QueryContext) (filter_expr : option FilterExpr) (candidates : gset string)
  : result QueryError (gset string) :=
  match filter_expr with
  | None => Ok candidates
  | Some expr =>
      let? allowed := matching_doc_ids_for_filter ctx expr in
      Ok (filter (fun id => id ∈ allowed) candidates)
  end.

Definition execute_query (elapsed_us : Z) (ctx : QueryContext) (req : QueryRequest)
  : result QueryError QueryResponse :=
  let? filter_expr := parse_optional (fun v => map_err QFilter (parse_filter v)) (rq_filters req) in
  let? top_k := parse_top_k (rq_top_k req) in
  let? consistency := parse_consistency (rq_consistency req) in
  let ctx := set_consistency consistency ctx in
  let? ranker := parse_rank_by (rq_rank_by req) in
  let? order_by := parse_optional parse_order_by (rq_order_by req) in
  let? _ := validate_ranker_vector_dims ctx ranker in
  let '(st, candidates) :=
    collect_candidates ctx (Z.max (sat_mul64 top_k 8) 64) ranker (mkStats 0 0) in
  let? candidates := filtered_candidates ctx filter_expr candidates in
  let scored := if bool_decide (candidates = ∅) then [] else score_candidates ctx ranker candidates in
  let ranked := sort_by (compare_rows ctx order_by) scored in
  let scored_count := lenZ ranked in
  let ranked := take (Z.to_nat top_k) ranked in
  let? include := parse_include_attributes (rq_include_attributes req) in
  let? include_vectors := map_err QVectors (parse_include_vectors (rq_include_vectors req)) in
  let? vector_encoding := map_err QVectors (parse_vector_encoding (rq_vector_encoding req)) in
  let rows := project_row ctx include.1 include.2 include_vectors vector_encoding <$> ranked in
  Ok (mkResponse rows (Some (query_performance ctx st candidates scored_count elapsed_us rows))).
End Planner.
