(* ===== verification/SearchSpec.v ===== *)
(** * What a query returns

    Lemmas and theorems on the query planner of [Search]: the filter is exact
    under strong consistency, the ranking is a total order independent of hash
    iteration, the rows are the best candidates, and vector candidates of the
    unindexed tail are scored on their current version. *)

From Stdlib Require Import ZArith Lia Bool.
From stdpp Require Import base gmap strings list sets sorting.
From S2P Require Import Prelude F64 Json Models Schema Meta Filter Wal WalReplay FilterIndex VectorEncoding Fts Vector Billing Search.

(** ** The unindexed tail *)

Section Tail.
Context {IO : IterOrder} {WC : WalCodec}.

Lemma fold_add_elem (l : list string) (X : gset string) id :
  id ∈ fold_left (fun ids i => ids ∪ {[ i ]}) l X <-> id ∈ X \/ id ∈ l.
Proof. revert X. induction l as [|i l IH]; intros X; cbn; [|rewrite IH]; set_solver. Qed.

Lemma wal_touched_elem es id :
  id ∈ wal_touched_doc_ids es <-> exists e, e ∈ es /\ id ∈ touched_by e.
Proof.
  unfold wal_touched_doc_ids.
  enough (forall X : gset string,
    id ∈ fold_left (fun ids e => fold_left (fun ids i => ids ∪ {[ i ]}) (touched_by e) ids) es X <->
    id ∈ X \/ exists e, e ∈ es /\ id ∈ touched_by e) as H by (rewrite H; set_solver).
  induction es as [|e es IH]; intros X; cbn; [set_solver|]. rewrite IH, fold_add_elem. set_solver.
Qed.

(** An entry leaves the ids it does not touch alone. *)
Lemma apply_entry_untouched docs e docs' id :
  apply_entry docs e = (docs', Ok tt) -> id ∉ touched_by e -> docs' !! id = docs !! id.
Proof.
  intros (us & ps & Hus & Hps & ->)%apply_entry_ok Hid. unfold touched_by in Hid.
  rewrite apply_batch_lookup. rewrite !not_elem_of_app in Hid. destruct Hid as (Hd & Hu & Hp).
  rewrite batch_op_untouched.
  - rewrite decide_False by done. cbn. destruct (docs !! id) as [d|]; cbn; [|done].
    unfold merged. rewrite (left_id_L ∅ (∪)). by destruct d.
  - by rewrite (into_documents_ids _ _ Hus).
  - by rewrite (patch_documents_ids _ _ Hps).
Qed.

Lemma replay_untouched docs es docs' id :
  replay docs es = Ok docs' -> id ∉ wal_touched_doc_ids es -> docs' !! id = docs !! id.
Proof.
  rewrite wal_touched_elem. revert docs. induction es as [|e es IH]; intros docs; cbn.
  - by intros [=<-].
  - destruct (apply_entry docs e) as [d [[]|]] eqn:He; [|done]. intros Hr Hn.
    rewrite (IH d Hr) by set_solver. eapply apply_entry_untouched; [done|]. set_solver.
Qed.
End Tail.

(** ** Membership *)

Section Membership.
Context {IO : IterOrder}.

Lemma scan_docs_elem docs f id :
  id ∈ scan_docs docs f <-> exists doc, docs !! id = Some doc /\ f doc = true.
Proof.
  unfold scan_docs.
  enough (forall l (X : gset string),
    id ∈ fold_left (fun ids (kv : string * Document) => if f kv.2 then {[ kv.1 ]} ∪ ids else ids) l X <->
    id ∈ X \/ exists doc, (id, doc) ∈ l /\ f doc = true) as ->.
  { setoid_rewrite iter_map_elem. set_solver. }
  induction l as [|[k d] l IH]; intros X; cbn.
  - split; [by left|]. by intros [?|(? & ?%not_elem_of_nil & _)].
  - rewrite IH. setoid_rewrite elem_of_cons. destruct (f d) eqn:Hf; [rewrite elem_of_union, elem_of_singleton|];
      naive_solver congruence.
Qed.

Lemma correct_tail_fold docs e l ids id :
  id ∈ fold_left (correct_tail_id docs e) l ids <->
  if decide (id ∈ l) then selects docs e id = true else id ∈ ids.
Proof.
  assert (forall X i, id ∈ correct_tail_id docs e X i <-> if decide (id = i) then selects docs e id = true else id ∈ X)
    as Hstep.
  { intros X i. unfold correct_tail_id, selects. destruct (decide (id = i)) as [->|Hne].
    - destruct (docs !! i) as [doc|]; [destruct (eval_filter e doc)|]; set_solver.
    - destruct (docs !! i) as [doc|]; [destruct (eval_filter e doc)|]; set_solver. }
  revert ids. induction l as [|i l IH]; intros ids; cbn [fold_left]; [by rewrite decide_False by apply not_elem_of_nil|].
  rewrite IH. pose proof (Hstep ids i) as Hs.
  destruct (decide (id ∈ l)), (decide (id ∈ i :: l)), (decide (id = i)); set_solver.
Qed.

Lemma existing_elem docs ids id : id ∈ existing docs ids <-> id ∈ ids /\ is_Some (docs !! id).
Proof. unfold existing. rewrite elem_of_filter. tauto. Qed.

Lemma insert_indexed_fold ctx l ids id :
  id ∈ fold_left (insert_indexed ctx) l ids <->
  id ∈ ids \/ (id ∈ l /\ (use_tail ctx = true -> id ∉ qc_tail_doc_ids ctx)).
Proof.
  revert ids. induction l as [|i l IH]; intros ids; cbn [fold_left]; [set_solver|].
  rewrite IH. unfold insert_indexed. destruct (use_tail ctx) eqn:Hu; cbn [andb].
  - case_bool_decide; rewrite ?elem_of_union, ?elem_of_singleton, elem_of_cons; naive_solver.
  - rewrite elem_of_union, elem_of_singleton, elem_of_cons. naive_solver.
Qed.

Lemma for_each_tail_elem ctx f st ids id :
  id ∈ (for_each_tail ctx f st ids).2 <->
  id ∈ ids \/ (use_tail ctx = true /\ id ∈ qc_tail_doc_ids ctx /\ f id = true).
Proof.
  unfold for_each_tail. destruct (use_tail ctx); cbn [negb]; [|naive_solver].
  rewrite <- (elem_of_iter_set (qc_tail_doc_ids ctx)).
  generalize (iter_set (qc_tail_doc_ids ctx)) as l. intros l. revert st ids.
  induction l as [|i l IH]; intros st ids; cbn [fold_left]; [cbn; set_solver|].
  rewrite IH. cbn [fst snd]. rewrite elem_of_cons. destruct (f i) eqn:Hf; [rewrite elem_of_union, elem_of_singleton|];
    naive_solver congruence.
Qed.
End Membership.

(** ** The ranking order *)

Definition key_ok (k : AttrSortKey) : Prop :=
  match k with KNumber x => f64_is_nan x = false | _ => True end.

Lemma attr_cmp_order : cmp_order key_ok attr_cmp.
Proof.
  split.
  - intros [|x|x] [|y|y] Hx Hy; cbn; try done; [apply f64_cmp_or_eq_flip|apply str_cmp_flip].
  - intros [|x|x] [|y|y] [|z|z] Hx Hy Hz; cbn; try done.
    + by apply f64_cmp_or_eq_trans.
    + apply str_cmp_le_trans.
Qed.

(** A scored id that can be ranked: neither its score nor its sort attribute is
    NaN (JSON numbers never are). *)
Definition rankable (ctx : QueryContext) (ob : option OrderBy) (e : string * f64) : Prop :=
  f64_is_nan e.2 = false /\
  match ob with
  | Some ob => key_ok (attr_sort_key (qc_docs ctx !! e.1) (ob_field ob))
  | None => True
  end.

Lemma compare_rows_order ctx ob : cmp_order (rankable ctx ob) (compare_rows ctx ob).
Proof.
  assert (cmp_order (rankable ctx ob) (fun a b => f64_cmp_or_eq b.2 a.2)) as Hscore.
  { pose proof (cmp_order_on _ (fun e : string * f64 => e.2) _ (cmp_order_opp _ _ f64_cmp_order)) as H.
    apply (cmp_order_weaken _ (rankable ctx ob)) in H; [|by intros e [He _]]. destruct H as [Hf Ht]. split.
    - intros x y _ _. apply f64_cmp_or_eq_flip.
    - intros x y z Px Py Pz. rewrite (f64_cmp_or_eq_flip x.2 y.2), (f64_cmp_or_eq_flip y.2 z.2),
        (f64_cmp_or_eq_flip x.2 z.2). by apply Ht. }
  assert (cmp_order (rankable ctx ob) (fun a b => str_cmp a.1 b.1)) as Hid.
  { eapply cmp_order_weaken; [|apply (cmp_order_on _ (fun e : string * f64 => e.1) _ str_cmp_order)]. done. }
  unfold compare_rows. destruct ob as [ob|]; [|by apply cmp_order_then].
  apply cmp_order_then; [apply cmp_order_then|done]; [done|].
  unfold compare_docs_by_attribute, compare_attr_keys.
  pose proof (cmp_order_on _ (fun e : string * f64 => attr_sort_key (qc_docs ctx !! e.1) (ob_field ob))
    _ attr_cmp_order) as Ha.
  apply (cmp_order_weaken _ (rankable ctx (Some ob))) in Ha; [|by intros e [_ He]].
  destruct (ob_descending ob); [by apply cmp_order_opp|done].
Qed.

Lemma compare_rows_Eq ctx ob a b : compare_rows ctx ob a b = Eq -> a.1 = b.1.
Proof.
  unfold compare_rows, cmp_then. destruct ob; repeat case_goal; try done; apply str_cmp_eq.
Qed.

Lemma ranking_unique ctx ob l1 l2 :
  l1 ≡ₚ l2 -> NoDup l1.*1 -> Forall (rankable ctx ob) l1 ->
  sort_by (compare_rows ctx ob) l1 = sort_by (compare_rows ctx ob) l2.
Proof.
  intros Hp Hnd Hr. pose proof (compare_rows_order ctx ob) as Ho.
  apply (sorted_by_unique (compare_rows ctx ob)).
  - by eapply sort_by_order.
  - eapply sort_by_order; [done|]. by rewrite <- Hp.
  - by rewrite !sort_by_perm.
  - intros x y Hx Hy Hxy Hyx. rewrite elem_of_sort_by in Hx, Hy. rewrite Forall_forall in Hr.
    rewrite (co_flip _ _ Ho x y) in Hyx by auto.
    assert (x.1 = y.1) as He.
    { apply (compare_rows_Eq ctx ob). by destruct (compare_rows ctx ob x y). }
    apply list_elem_of_lookup in Hx as [i Hi], Hy as [j Hj].
    assert (i = j) as ->; [|congruence].
    eapply (NoDup_lookup _ i j x.1 Hnd); rewrite list_lookup_fmap; [by rewrite Hi|by rewrite Hj, He].
Qed.

(** ** Candidates and scores *)

Section Candidates.
Context {IO : IterOrder} {TL : TextLib} {VL : VectorLib} {FT : F64Text}.
Context (opts : FtsTokenizeOptions) (rerank_env : bool).

Lemma omap_ids (f : string -> option (string * f64)) l :
  (forall id e, f id = Some e -> e.1 = id) -> NoDup l ->
  NoDup (omap f l).*1 /\ forall id, id ∈ (omap f l).*1 -> id ∈ l.
Proof.
  intros Hf Hnd. assert (forall l id, id ∈ (omap f l).*1 -> id ∈ l) as Hsub.
  { intros k id. rewrite list_elem_of_fmap. intros (e & -> & (x & Hx & He)%list_elem_of_omap).
    by rewrite (Hf _ _ He). }
  split; [|apply Hsub]. induction Hnd as [|x l Hni Hnd IH]; cbn; [constructor|].
  destruct (f x) as [e|] eqn:He; cbn; [|done]. constructor; [|done].
  rewrite (Hf _ _ He). by intros ?%Hsub.
Qed.

Lemma score_candidates_ids ctx r cands :
  NoDup (score_candidates opts ctx r cands).*1 /\
  forall id, id ∈ (score_candidates opts ctx r cands).*1 -> id ∈ cands.
Proof.
  assert (forall f : string -> option (string * f64), (forall id e, f id = Some e -> e.1 = id) ->
    NoDup (omap f (iter_set cands)).*1 /\ forall id, id ∈ (omap f (iter_set cands)).*1 -> id ∈ cands) as H.
  { intros f Hf. destruct (omap_ids f (iter_set cands) Hf (iter_set_NoDup _)) as [? Hs].
    split; [done|]. intros id ?%Hs. by apply elem_of_iter_set. }
  destruct r; cbn; apply H; intros id e.
  - destruct (qc_docs ctx !! id); [by intros [=<-]|]. destruct (qc_vectors ctx !! field); cbn; [|done].
    destruct (score_doc_id _ _ _); cbn; [by intros [=<-]|done].
  - destruct (qc_docs ctx !! id); cbn; [by intros [=<-]|done].
  - cbn. destruct (keep_composite _ _ _ _); [by intros [=<-]|done].
  - cbn. destruct (keep_composite _ _ _ _); [by intros [=<-]|done].
Qed.

Lemma collect_existing ctx pool r st id :
  qc_consistency ctx = Strong -> id ∈ (collect_candidates opts rerank_env ctx pool r st).2 ->
  is_Some (qc_docs ctx !! id).
Proof.
  intros Hc. assert (forall p : QueryStats * gset string,
    id ∈ (let '(st', ids) := p in (st', filter_existing_docs ctx ids)).2 -> is_Some (qc_docs ctx !! id)) as H.
  { intros [st' ids]. cbn. unfold filter_existing_docs. rewrite Hc. by intros [_ ?]%existing_elem. }
  destruct r; apply H.
Qed.

(** ** Filters *)

(** The filter index is behind the documents by the entries whose ids form the
    tail, and the filter is one the index answers exactly. *)
Definition filter_current {WC : WalCodec} (ctx : QueryContext) (expr : FilterExpr) : Prop :=
  match qc_filter_index ctx with
  | None => True
  | Some seg => exists fields indexed es,
      FilterIndex.represents seg fields indexed /\ docs_plain indexed /\ indexable fields indexed expr /\
      replay indexed es = Ok (qc_docs ctx) /\ qc_tail_doc_ids ctx = wal_touched_doc_ids es
  end.

Lemma strong_filter {WC : WalCodec} {FL : F64TextLaws} ctx expr :
  qc_consistency ctx = Strong -> filter_current ctx expr ->
  exists ids, matching_doc_ids_for_filter ctx expr = Ok ids /\ matches (qc_docs ctx) expr ids.
Proof.
  intros Hc Hcur. unfold matching_doc_ids_for_filter. unfold filter_current in Hcur.
  destruct (qc_filter_index ctx) as [seg|].
  - destruct Hcur as (fields & indexed & es & Hrep & Hpl & Hix & Hes & Htail).
    destruct (matching_represents seg fields indexed expr Hrep Hpl Hix) as (ids & Hids & Hm).
    rewrite Hids, Hc. cbn [ok_or result_bind]. eexists. split; [done|]. rewrite matches_selects in Hm |- *.
    intros id. rewrite existing_elem, correct_tail_fold.
    destruct (decide (id ∈ iter_set (qc_tail_doc_ids ctx))) as [Hin|Hni].
    + split; [by intros [? _]|]. intros Hs. split; [done|]. unfold selects in Hs.
      destruct (qc_docs ctx !! id); [by eexists|done].
    + rewrite elem_of_iter_set, Htail in Hni. rewrite Hm. unfold selects. rewrite (replay_untouched _ _ _ _ Hes Hni).
      split; [by intros [? _]|]. intros Hs. split; [done|]. destruct (indexed !! id); [by eexists|done].
  - eexists. split; [done|]. intros id. apply scan_docs_elem.
Qed.

(** ** Execution *)

Lemma score_candidates_empty ctx r : score_candidates opts ctx r ∅ = [].
Proof.
  destruct (score_candidates opts ctx r ∅) as [|e l] eqn:He; [done|].
  destruct (score_candidates_ids ctx r ∅) as [_ Hs]. rewrite He in Hs.
  specialize (Hs e.1 ltac:(by left)). set_solver.
Qed.

(** The ranked scores a request asks for. *)
Definition ranked_scores (ctx : QueryContext) (ob : option OrderBy) (r : Ranker) (cands : gset string)
  : list (string * f64) := sort_by (compare_rows ctx ob) (score_candidates opts ctx r cands).

(** What the parts of a request mean. *)
Record request_means (req : QueryRequest) (fe : option FilterExpr) (top_k : Z) (c : QueryConsistency)
    (r : Ranker) (ob : option OrderBy) : Prop := {
  rm_filter : parse_optional (fun v => map_err QFilter (parse_filter v)) (rq_filters req) = Ok fe;
  rm_top_k : parse_top_k (rq_top_k req) = Ok top_k;
  rm_consistency : parse_consistency (rq_consistency req) = Ok c;
  rm_rank : parse_rank_by (rq_rank_by req) = Ok r;
  rm_order : parse_optional parse_order_by (rq_order_by req) = Ok ob
}.

Record request_projects (req : QueryRequest) (inc : bool * option (gset string)) (iv : IncludeVectors)
    (enc : VectorEncoding) : Prop := {
  rp_attributes : parse_include_attributes (rq_include_attributes req) = Ok inc;
  rp_vectors : map_err QVectors (parse_include_vectors (rq_include_vectors req)) = Ok iv;
  rp_encoding : map_err QVectors (parse_vector_encoding (rq_vector_encoding req)) = Ok enc
}.

Lemma request_means_unique req fe k c r ob fe' k' c' r' ob' :
  request_means req fe k c r ob -> request_means req fe' k' c' r' ob' ->
  fe' = fe /\ k' = k /\ c' = c /\ r' = r /\ ob' = ob.
Proof. intros [] []. split_and!; congruence. Qed.

(** The candidates of a request, before its filter. *)
Definition request_candidates (ctx : QueryContext) (top_k : Z) (r : Ranker) : gset string :=
  (collect_candidates opts rerank_env ctx (Z.max (sat_mul64 top_k 8) 64) r (mkStats 0 0)).2.

Lemma result_bind_Ok {E A B} (m : result E A) (k : A -> result E B) b :
  result_bind m k = Ok b -> exists a, m = Ok a /\ k a = Ok b.
Proof. destruct m as [a|]; [|done]. intros H. by exists a. Qed.

Lemma execute_query_inv us ctx req resp :
  execute_query opts rerank_env us ctx req = Ok resp ->
  exists fe top_k c r ob cands inc iv enc,
    request_means req fe top_k c r ob /\ request_projects req inc iv enc /\
    validate_ranker_vector_dims (set_consistency c ctx) r = Ok tt /\
    filtered_candidates (set_consistency c ctx) fe (request_candidates (set_consistency c ctx) top_k r) = Ok cands /\
    resp_rows resp = project_row (set_consistency c ctx) inc.1 inc.2 iv enc <$>
      take (Z.to_nat top_k) (ranked_scores (set_consistency c ctx) ob r cands).
Proof.
  unfold execute_query.
  intros (fe & Hfe & H)%result_bind_Ok. apply result_bind_Ok in H as (top_k & Hk & H).
  apply result_bind_Ok in H as (c & Hc & H). apply result_bind_Ok in H as (r & Hr & H).
  apply result_bind_Ok in H as (ob & Hob & H). apply result_bind_Ok in H as ([] & Hdim & H).
  destruct (collect_candidates _ _ _ _ _ _) as [st cands0] eqn:Hcol.
  apply result_bind_Ok in H as (cands & Hcand & H). apply result_bind_Ok in H as (inc & Hinc & H).
  apply result_bind_Ok in H as (iv & Hiv & H). apply result_bind_Ok in H as (enc & Henc & H).
  injection H as <-. exists fe, top_k, c, r, ob, cands, inc, iv, enc. split_and!; [by split|by split|done| |].
  - unfold request_candidates. by rewrite Hcol.
  - cbn. unfold ranked_scores. case_bool_decide as He; [|done].
    by rewrite He, score_candidates_empty.
Qed.

Lemma parse_top_k_bounds v k : (forall n, v = Some n -> 0 <= n) -> parse_top_k v = Ok k ->
  k = default DEFAULT_TOP_K v /\ 1 <= k <= MAX_TOP_K.
Proof.
  unfold parse_top_k, DEFAULT_TOP_K, MAX_TOP_K. intros Hn. destruct v as [n|]; [|intros [=<-]; cbn; lia].
  specialize (Hn n eq_refl). destruct (n =? 0) eqn:E1, (1200 <? n) eqn:E2; case_bool; try done.
  intros [=<-]. cbn. lia.
Qed.

Lemma ranked_scores_ids ctx ob r cands :
  NoDup (ranked_scores ctx ob r cands).*1 /\
  forall id, id ∈ (ranked_scores ctx ob r cands).*1 -> id ∈ cands.
Proof.
  unfold ranked_scores. destruct (score_candidates_ids ctx r cands) as [Hnd Hs].
  split; [by rewrite sort_by_perm|]. intros id. rewrite sort_by_perm. apply Hs.
Qed.

Lemma project_rows_ids ctx ia names iv enc l :
  row_id <$> (project_row ctx ia names iv enc <$> l) = l.*1.
Proof. rewrite <- list_fmap_compose. done. Qed.

Lemma filtered_candidates_sub ctx fe cands0 cands id :
  filtered_candidates ctx fe cands0 = Ok cands -> id ∈ cands ->
  id ∈ cands0 /\ forall expr ids, fe = Some expr -> matching_doc_ids_for_filter ctx expr = Ok ids -> id ∈ ids.
Proof.
  unfold filtered_candidates. destruct fe as [expr|]; [|intros [=<-]; by split].
  intros (allowed & Ha & [=<-])%result_bind_Ok [Hin Hc]%elem_of_filter. split; [done|].
  intros expr' ids [=<-] Hm. congruence.
Qed.

Lemma take_drop_sorted {A} (cmp : A -> A -> comparison) (l : list A) n x y :
  sorted_by cmp l -> x ∈ take n l -> y ∈ drop n l -> cmp x y <> Gt.
Proof.
  intros Hs. revert n. induction Hs as [|z l Hs IH Hz]; intros [|n]; cbn; try by intros ?%not_elem_of_nil.
  intros [->|Hx]%elem_of_cons Hy; [|by eapply IH].
  rewrite Forall_forall in Hz. apply Hz. rewrite <- (take_drop n l). apply elem_of_app. by right.
Qed.
End Candidates.

(** ** Theorems *)

(** C9: filters are exact under strong consistency ([filter_current]): when the
    filter index represents an earlier state and the tail ids are those the log
    entries since then touch, the ids selected are exactly those of the current
    documents the filter accepts, although the index is behind.  With an index
    the filter must be one the index answers exactly ([indexable]: comparisons of
    indexed attributes by operators and values it represents) over documents
    whose attributes it stores without loss ([docs_plain]); for the others see
    [filter_index_divergence] and [undeclared_attribute_filter_lost].  Without an
    index any filter is exact. *)
Theorem strong_filter_exact {IO : IterOrder} {WC : WalCodec} {FT : F64Text} {FL : F64TextLaws} ctx expr :
  qc_consistency ctx = Strong -> filter_current ctx expr ->
  exists ids, matching_doc_ids_for_filter ctx expr = Ok ids /\
    forall id, id ∈ ids <-> exists doc, qc_docs ctx !! id = Some doc /\ eval_filter expr doc = true.
Proof. apply strong_filter. Qed.

(** C17: a query returns the best of its candidates: distinct ids, exactly
    [min top_k] of the scored candidates, each with its score; and when no scored
    candidate has a NaN score ([rankable]; a NaN is equal to everything for the
    comparison, which then is not an order), no scored candidate that was left
    out ranks before a returned one. *)
Theorem query_topk_exact {IO : IterOrder} {TL : TextLib} {VL : VectorLib} {FT : F64Text}
    opts rerank us ctx0 req resp fe top_k c r ob cands :
  execute_query opts rerank us ctx0 req = Ok resp -> request_means req fe top_k c r ob ->
  let ctx := set_consistency c ctx0 in
  filtered_candidates ctx fe (request_candidates opts rerank ctx top_k r) = Ok cands ->
  let scored := score_candidates opts ctx r cands in
  let rows := resp_rows resp in
  NoDup (row_id <$> rows) /\
  length rows = Nat.min (Z.to_nat top_k) (length scored) /\
  (forall row, row ∈ rows -> row_id row ∈ cands /\ exists s, row_dist row = Some s /\ (row_id row, s) ∈ scored) /\
  (Forall (rankable ctx ob) scored -> forall row s e, row ∈ rows -> row_dist row = Some s ->
     e ∈ scored -> e.1 ∉ row_id <$> rows -> compare_rows ctx ob (row_id row, s) e <> Gt).
Proof.
  intros Hx Hm ctx Hcand scored rows. apply execute_query_inv in Hx
    as (fe' & k' & c' & r' & ob' & cands' & inc & iv & enc & Hm' & _ & _ & Hcand' & Hrows).
  destruct (request_means_unique _ _ _ _ _ _ _ _ _ _ _ Hm Hm') as (-> & -> & -> & -> & ->).
  fold ctx in Hcand', Hrows. rewrite Hcand in Hcand'. injection Hcand' as <-. subst rows. rewrite Hrows, project_rows_ids.
  destruct (ranked_scores_ids opts ctx ob r cands) as [Hnd Hsub].
  set (ranked := ranked_scores opts ctx ob r cands) in *.
  assert (ranked ≡ₚ scored) as Hperm by apply sort_by_perm.
  assert (NoDup (take (Z.to_nat top_k) ranked).*1) as Hnd'
    by (rewrite fmap_take; by apply (sublist_NoDup _ _ Hnd), sublist_take).
  split_and!; [done| | |].
  - by rewrite length_fmap, length_take, Hperm.
  - intros row Hrow. apply list_elem_of_fmap in Hrow as ([id s] & -> & Hin). cbn.
    assert ((id, s) ∈ ranked) as Hin' by (rewrite <- (take_drop (Z.to_nat top_k) ranked); apply elem_of_app; by left).
    split; [apply Hsub; apply list_elem_of_fmap; by exists (id, s)|]. exists s. by rewrite <- Hperm.
  - intros Hok row s e Hrow Hs He Hni. apply list_elem_of_fmap in Hrow as ([id s'] & -> & Hin).
    injection Hs as ->. cbn. apply (take_drop_sorted _ ranked (Z.to_nat top_k)); [|done|].
    + eapply sort_by_order; [apply compare_rows_order|done].
    + rewrite <- Hperm, <- (take_drop (Z.to_nat top_k) ranked) in He. apply elem_of_app in He as [He|He]; [|done].
      exfalso. apply Hni. apply list_elem_of_fmap. by exists e.
Qed.

(** The rows of a strongly consistent query. *)
Lemma strong_rows {IO : IterOrder} {WC : WalCodec} {TL : TextLib} {VL : VectorLib} {FT : F64Text}
    {FL : F64TextLaws} opts rerank us ctx req resp expr row :
  execute_query opts rerank us ctx req = Ok resp ->
  parse_consistency (rq_consistency req) = Ok Strong ->
  parse_optional (fun v => map_err QFilter (parse_filter v)) (rq_filters req) = Ok expr ->
  match expr with Some e => filter_current ctx e | None => True end ->
  row ∈ resp_rows resp ->
  exists doc, qc_docs ctx !! row_id row = Some doc /\
    match expr with Some e => eval_filter e doc = true | None => True end.
Proof.
  intros Hx Hc Hfe Hcur Hrow. apply execute_query_inv in Hx
    as (fe & k & c & r & ob & cands & inc & iv & enc & [Hfe' Hk' Hc' Hr' Hob'] & _ & _ & Hcand & Hrows).
  rewrite Hc in Hc'. rewrite Hfe in Hfe'. injection Hc' as <-. injection Hfe' as <-. rewrite Hrows in Hrow. apply list_elem_of_fmap in Hrow as ([id s] & -> & Hin). cbn.
  set (ctx' := set_consistency Strong ctx) in *.
  assert (id ∈ cands) as Hid.
  { apply (ranked_scores_ids opts ctx' ob r cands), list_elem_of_fmap. exists (id, s). split; [done|].
    rewrite <- (take_drop (Z.to_nat k)). apply elem_of_app. by left. }
  destruct (filtered_candidates_sub _ _ _ _ _ Hcand Hid) as [H0 Hf].
  destruct (collect_existing opts rerank ctx' _ r _ id eq_refl H0) as [doc Hdoc].
  exists doc. split; [done|]. destruct expr as [e|]; [|done].
  destruct (strong_filter ctx' e eq_refl Hcur) as (ids & Hids & Hm).
  specialize (Hf e ids eq_refl Hids). apply Hm in Hf as (doc' & Hdoc' & He). congruence.
Qed.

(** the rows of a strongly consistent query are current: each is a document
    of the namespace as committed, and satisfies the filter of the request. *)
Theorem query_rows_current {IO : IterOrder} {WC : WalCodec} {TL : TextLib} {VL : VectorLib} {FT : F64Text}
    {FL : F64TextLaws} opts rerank us ctx req resp expr row :
  execute_query opts rerank us ctx req = Ok resp ->
  parse_consistency (rq_consistency req) = Ok Strong ->
  parse_optional (fun v => map_err QFilter (parse_filter v)) (rq_filters req) = Ok expr ->
  match expr with Some e => filter_current ctx e | None => True end ->
  row ∈ resp_rows resp ->
  exists doc, qc_docs ctx !! row_id row = Some doc /\
    match expr with Some e => eval_filter e doc = true | None => True end.
Proof. apply strong_rows. Qed.

(** ** Independence of hash iteration order *)

Section OrderFree.
Context {TL : TextLib} {VL : VectorLib} {FT : F64Text} (IO1 IO2 : IterOrder).
Context (opts : FtsTokenizeOptions) (rerank_env : bool).

Lemma scan_docs_order docs f : @scan_docs IO1 docs f = @scan_docs IO2 docs f.
Proof. apply set_eq. intros id. by rewrite !scan_docs_elem. Qed.

Lemma for_each_tail_order ctx f st ids :
  (@for_each_tail IO1 ctx f st ids).2 = (@for_each_tail IO2 ctx f st ids).2.
Proof. apply set_eq. intros id. by rewrite !for_each_tail_elem. Qed.

Lemma match_cmp_order seg field op value :
  @match_cmp IO1 FT seg field op value = @match_cmp IO2 FT seg field op value.
Proof.
  unfold match_cmp. destruct op; try done; (destruct (FilterIndex.postings seg !! field) as [m|]; [|done]);
    f_equal; apply set_eq; intros id; rewrite !range_fold_elem; by setoid_rewrite iter_map_elem.
Qed.

Lemma matching_doc_ids_order seg e : @matching_doc_ids IO1 FT seg e = @matching_doc_ids IO2 FT seg e.
Proof.
  induction e as [subs IH|subs IH|field op value] using FilterExpr_nested_ind; cbn.
  - destruct IH as [|s subs Hs IH]; [done|]. rewrite Hs. clear Hs. destruct (@matching_doc_ids IO2 FT seg s) as [first|]; [|done]. cbn.
    revert first. induction IH as [|s' subs Hs _ IHl]; intros first; cbn; [done|].
    rewrite Hs. destruct (@matching_doc_ids IO2 FT seg s'); [apply IHl|done].
  - generalize (∅ : gset string) as acc. induction IH as [|s' subs Hs _ IHl]; intros acc; cbn; [done|].
    rewrite Hs. destruct (@matching_doc_ids IO2 FT seg s'); [apply IHl|done].
  - apply match_cmp_order.
Qed.

Lemma filtered_candidates_order ctx fe cands :
  @filtered_candidates IO1 FT ctx fe cands = @filtered_candidates IO2 FT ctx fe cands.
Proof.
  unfold filtered_candidates, matching_doc_ids_for_filter. destruct fe as [e|]; [|done].
  destruct (qc_filter_index ctx) as [seg|]; [|by rewrite scan_docs_order].
  rewrite matching_doc_ids_order. destruct (@matching_doc_ids IO2 FT seg e) as [ids|]; [|done]. cbn.
  destruct (qc_consistency ctx); [|done]. do 2 f_equal. apply set_eq. intros id.
  rewrite !existing_elem, !correct_tail_fold. assert (id ∈ @iter_set IO1 _ _ _ (qc_tail_doc_ids ctx) <->
    id ∈ @iter_set IO2 _ _ _ (qc_tail_doc_ids ctx)) by (by rewrite !elem_of_iter_set).
  do 2 destruct (decide _); tauto.
Qed.

(** The vector a projection adds under a name. *)
Definition added_vector (doc : Document) (meta : NamespaceMeta) (enc : VectorEncoding) (k : string) : option Value :=
  add_vector doc meta enc ∅ k !! k.

Lemma add_vector_lookup doc meta enc out n k :
  add_vector doc meta enc out n !! k =
  if decide (k = n) then match added_vector doc meta enc k with Some v => Some v | None => out !! k end
  else out !! k.
Proof.
  unfold added_vector, add_vector. destruct (decide (k = n)) as [->|Hne].
  - destruct (doc_attributes doc !! n) as [raw|]; [destruct (decode_vector_value raw)|];
      by rewrite ?lookup_insert_eq, ?lookup_empty.
  - destruct (doc_attributes doc !! n) as [raw|]; [destruct (decode_vector_value raw)|];
      by rewrite ?lookup_insert_ne by done.
Qed.

Lemma add_vector_fold doc meta enc names out k :
  fold_left (add_vector doc meta enc) names out !! k =
  if decide (k ∈ names) then
    match added_vector doc meta enc k with Some v => Some v | None => out !! k end
  else out !! k.
Proof.
  revert out. induction names as [|n names IH]; intros out; [by rewrite decide_False by apply not_elem_of_nil|].
  cbn [fold_left]. rewrite IH, add_vector_lookup.
  destruct (decide (k ∈ names)), (decide (k = n)), (decide (k ∈ n :: names)) as [|Hn]; try done;
    try (by destruct (added_vector doc meta enc k)); rewrite elem_of_cons in *; tauto.
Qed.

Lemma add_vector_fold_ext doc meta enc names1 names2 out :
  (forall k, k ∈ names1 <-> k ∈ names2) ->
  fold_left (add_vector doc meta enc) names1 out = fold_left (add_vector doc meta enc) names2 out.
Proof.
  intros Hn. apply map_eq. intros k. rewrite !add_vector_fold. specialize (Hn k).
  do 2 destruct (decide _); tauto.
Qed.

Lemma project_row_order ctx ia names iv enc e :
  @project_row IO1 VL ctx ia names iv enc e = @project_row IO2 VL ctx ia names iv enc e.
Proof.
  unfold project_row. f_equal. destruct (qc_docs ctx !! e.1) as [doc|]; [|done]. cbn.
  unfold project_row_attributes. destruct (negb ia && _); [done|].
  erewrite (add_vector_fold_ext doc _ enc); [done|]. intros k. destruct iv; try done.
  unfold vector_field_names. destruct (vector_fields_from_schema _); [|done].
  rewrite !list_elem_of_fmap. by setoid_rewrite list_elem_of_filter; setoid_rewrite (iter_map_perm (doc_attributes doc)).
Qed.

(** A ranker whose candidates and scores read no hash container in order: BM25
    on a named field, or a vector field that is re-ranked or not indexed. *)
Definition order_free (ctx : QueryContext) (r : Ranker) : Prop :=
  match r with
  | RBm25 field _ => field <> ""
  | RVector field _ => ann_rerank_enabled rerank_env ctx = true \/ qc_vectors ctx !! field = None
  | RSum _ | RProduct _ => False
  end.

Lemma text_order doc field :
  field <> "" -> @extract_index_text IO1 TL doc field = @extract_index_text IO2 TL doc field.
Proof. intros Hf%String.eqb_neq. unfold extract_index_text. by rewrite Hf. Qed.

Lemma bm25_ids_candidates IO seg q pool id :
  id ∈ (@query_bm25 IO TL opts seg q pool).*1 -> id ∈ candidate_doc_ids opts seg q.
Proof.
  unfold query_bm25. destruct (_ || _); [by intros ?%not_elem_of_nil|].
  intros ([i s] & -> & Hin)%list_elem_of_fmap. apply elem_of_take in Hin as (n & Hn & _).
  apply list_elem_of_lookup_2 in Hn. rewrite elem_of_sort_by, iter_map_elem in Hn.
  destruct (score_terms_dom seg (f64_of_Z (num_docs seg)) (avg_doc_len seg) (tokenize opts q) ∅ i) as [Hd _].
  apply candidate_elem. destruct Hd as [Hd|Hd]; [by eexists| |done]. destruct Hd as [? Hd].
  by rewrite lookup_empty in Hd.
Qed.

Lemma indexed_bm25_order ctx seg q pool :
  fold_left (insert_indexed ctx) (@query_bm25 IO1 TL opts seg q pool).*1
    (fold_left (insert_indexed ctx) (@iter_set IO1 _ _ _ (candidate_doc_ids opts seg q)) ∅) =
  fold_left (insert_indexed ctx) (@query_bm25 IO2 TL opts seg q pool).*1
    (fold_left (insert_indexed ctx) (@iter_set IO2 _ _ _ (candidate_doc_ids opts seg q)) ∅).
Proof.
  apply set_eq. intros id. rewrite !insert_indexed_fold, !elem_of_iter_set.
  pose proof (bm25_ids_candidates IO1 seg q pool id). pose proof (bm25_ids_candidates IO2 seg q pool id). tauto.
Qed.

Lemma for_each_tail_ext ctx f g st st' ids :
  (forall id, f id = g id) -> (@for_each_tail IO1 ctx f st ids).2 = (@for_each_tail IO2 ctx g st' ids).2.
Proof. intros Hfg. apply set_eq. intros id. by rewrite !for_each_tail_elem, Hfg. Qed.

Lemma scan_docs_ext docs f g :
  (forall doc, f doc = g doc) -> @scan_docs IO1 docs f = @scan_docs IO2 docs g.
Proof. intros Hfg. apply set_eq. intros id. rewrite !scan_docs_elem. by setoid_rewrite Hfg. Qed.

Lemma candidates_order ctx pool r st st' :
  order_free ctx r ->
  (@collect_candidates IO1 TL VL opts rerank_env ctx pool r st).2 =
  (@collect_candidates IO2 TL VL opts rerank_env ctx pool r st').2.
Proof.
  assert (forall b (s1 s2 t1 t2 : QueryStats) (i1 i2 x1 x2 : gset string), i1 = i2 -> x1 = x2 ->
    (if b && bool_decide (i1 = ∅) then (s1, i1 ∪ x1) else (t1, i1)).2 =
    (if b && bool_decide (i2 = ∅) then (s2, i2 ∪ x2) else (t2, i2)).2) as Hif.
  { intros b s1 s2 t1 t2 i1 i2 x1 x2 -> ->. by destruct (b && _). }
  assert (forall p q : QueryStats * gset string, p.2 = q.2 ->
    (let '(s, ids) := p in (s, filter_existing_docs ctx ids)).2 =
    (let '(s, ids) := q in (s, filter_existing_docs ctx ids)).2) as Hex.
  { intros [? ?] [? ?]. cbn. by intros ->. }
  destruct r as [field query|field query|subs|subs]; intros Ho; [| |done|done]; apply Hex.
  - unfold collect_vector_candidates. cbn in Ho.
    match goal with |- (let '(_, _) := @for_each_tail IO1 _ ?f ?s ?i1 in _).2 =
      (let '(_, _) := @for_each_tail IO2 _ ?g ?s' ?i2 in _).2 =>
      assert (i1 = i2) as -> end.
    { destruct (qc_vectors ctx !! field) as [vi|]; [|done]. destruct (_ =? _); [|done].
      destruct Ho as [->|?]; [|done]. apply set_eq. intros id. by rewrite !insert_indexed_fold, !elem_of_iter_set. }
    match goal with |- (let '(_, _) := ?a in _).2 = (let '(_, _) := ?b in _).2 =>
      assert (a.2 = b.2) as Ht by (by apply for_each_tail_ext); destruct a, b; cbn in Ht end.
    apply Hif; [done|by apply scan_docs_ext].
  - unfold collect_bm25_candidates.
    match goal with |- (let '(_, _) := @for_each_tail IO1 _ ?f ?s ?i1 in _).2 =
      (let '(_, _) := @for_each_tail IO2 _ ?g ?s' ?i2 in _).2 =>
      assert (i1 = i2) as -> end.
    { destruct (qc_fts ctx) as [fts|]; [|done]. apply indexed_bm25_order. }
    match goal with |- (let '(_, _) := ?a in _).2 = (let '(_, _) := ?b in _).2 =>
      assert (a.2 = b.2) as Ht end.
    { apply for_each_tail_ext. intros id. destruct (qc_docs ctx !! id); [|done]. by rewrite text_order. }
    match goal with |- (let '(_, _) := ?a in _).2 = (let '(_, _) := ?b in _).2 => destruct a, b; cbn in Ht end.
    apply Hif; [done|]. apply scan_docs_ext. intros doc. by rewrite text_order.
Qed.

Lemma scores_order ctx r cands :
  order_free ctx r -> (forall id, id ∈ cands -> is_Some (qc_docs ctx !! id)) ->
  @score_candidates IO1 TL VL opts ctx r cands ≡ₚ @score_candidates IO2 TL VL opts ctx r cands.
Proof.
  intros Ho Hd. assert (forall f g : string -> option (string * f64), (forall id, id ∈ cands -> f id = g id) ->
    omap f (@iter_set IO1 _ _ _ cands) ≡ₚ omap g (@iter_set IO2 _ _ _ cands)) as Hg.
  { intros f g Hfg. rewrite (iter_set_perm (IterOrder := IO1)), (iter_set_perm (IterOrder := IO2)).
    rewrite (list_omap_ext f g (elements cands) (elements cands)); [done|].
    apply Forall2_same_length_lookup_2; [done|]. intros i x y Hx Hy. rewrite Hx in Hy. injection Hy as <-.
    apply Hfg. apply elem_of_elements. by eapply list_elem_of_lookup_2. }
  destruct r as [field query|field query|subs|subs]; [| |done|done]; cbn; apply Hg; intros id Hid.
  - by destruct (Hd id Hid) as [doc ->].
  - destruct (qc_docs ctx !! id) as [doc|]; cbn; [|done]. unfold bm25_raw_score. by rewrite text_order.
Qed.
End OrderFree.

(** the rows of a query do not depend on the iteration order of hash
    containers: two executions of a strongly consistent request that differ
    only in that order return the same rows in the same order, because every
    comparison of the ranking ends with the id. *)
Theorem query_order_independent {TL : TextLib} {VL : VectorLib} {FT : F64Text} (IO1 IO2 : IterOrder)
    opts rerank us1 us2 ctx0 req resp1 resp2 fe top_k r ob cands :
  @execute_query IO1 TL VL FT opts rerank us1 ctx0 req = Ok resp1 ->
  @execute_query IO2 TL VL FT opts rerank us2 ctx0 req = Ok resp2 ->
  request_means req fe top_k Strong r ob ->
  let ctx := set_consistency Strong ctx0 in
  order_free rerank ctx r ->
  @filtered_candidates IO1 FT ctx fe (@request_candidates IO1 TL VL opts rerank ctx top_k r) = Ok cands ->
  Forall (rankable ctx ob) (@score_candidates IO1 TL VL opts ctx r cands) ->
  resp_rows resp1 = resp_rows resp2.
Proof.
  intros H1 H2 Hm ctx Ho Hcand Hok.
  apply execute_query_inv in H1 as (? & ? & ? & ? & ? & c1 & inc & iv & enc & Hm1 & Hp1 & _ & Hc1 & ->).
  apply execute_query_inv in H2 as (? & ? & ? & ? & ? & c2 & inc2 & iv2 & enc2 & Hm2 & Hp2 & _ & Hc2 & ->).
  destruct (request_means_unique _ _ _ _ _ _ _ _ _ _ _ Hm Hm1) as (-> & -> & -> & -> & ->).
  destruct (request_means_unique _ _ _ _ _ _ _ _ _ _ _ Hm Hm2) as (-> & -> & -> & -> & ->).
  fold ctx in Hc1, Hc2 |- *. rewrite Hcand in Hc1. injection Hc1 as <-.
  assert (@request_candidates IO2 TL VL opts rerank ctx top_k r =
    @request_candidates IO1 TL VL opts rerank ctx top_k r) as Hreq
    by (symmetry; by apply candidates_order).
  rewrite Hreq, <- (filtered_candidates_order IO1 IO2), Hcand in Hc2. injection Hc2 as <-.
  destruct Hp1 as [Ha1 Hv1 He1], Hp2 as [Ha2 Hv2 He2].
  assert (inc2 = inc) as -> by congruence. assert (iv2 = iv) as -> by congruence.
  assert (enc2 = enc) as -> by congruence.
  assert (@ranked_scores IO1 TL VL opts ctx ob r cands = @ranked_scores IO2 TL VL opts ctx ob r cands) as ->.
  { apply ranking_unique; [|apply score_candidates_ids|done]. apply (scores_order IO1 IO2 opts rerank); [done|].
    intros id Hid. destruct (filtered_candidates_sub _ _ _ _ _ Hcand Hid) as [H0 _].
    by apply (collect_existing opts rerank ctx _ r _ id eq_refl H0). }
  apply list_fmap_ext. intros i e _. apply project_row_order.
Qed.

(** A document of the tail with a vector of the query's length is a candidate. *)
Lemma fresh_candidate {IO : IterOrder} {TL : TextLib} {VL : VectorLib} opts rerank ctx0 top_k field query id doc v :
  id ∈ qc_tail_doc_ids ctx0 -> qc_docs ctx0 !! id = Some doc ->
  extract_vector (doc_attributes doc) field = Some v -> lenZ v = lenZ query ->
  id ∈ request_candidates opts rerank (set_consistency Strong ctx0) top_k (RVector field query).
Proof.
  intros Htail Hdoc Hv Hlen. unfold request_candidates. cbn.
  match goal with |- _ ∈ (let '(_, _) := ?p in _).2 => assert (id ∈ p.2) as Hp; [|destruct p as [st ids]] end.
  { unfold collect_vector_candidates.
    match goal with |- _ ∈ (let '(_, _) := ?q in _).2 => assert (id ∈ q.2) as Hq; [|destruct q as [st ids]] end.
    - apply for_each_tail_elem. right. cbn. rewrite Hdoc. unfold has_vector. rewrite Hv.
      split_and!; [done|done|]. by apply Z.eqb_eq.
    - cbn in Hq. destruct (is_none _ && _); cbn; set_solver. }
  cbn in Hp. cbn. apply existing_elem. cbn. by rewrite Hdoc.
Qed.

(** It passes the filter that accepts it. *)
Lemma fresh_filtered {IO : IterOrder} {WC : WalCodec} {TL : TextLib} {VL : VectorLib} {FT : F64Text} {FL : F64TextLaws}
    opts rerank ctx0 top_k field query id doc v fe cands :
  id ∈ qc_tail_doc_ids ctx0 -> qc_docs ctx0 !! id = Some doc ->
  extract_vector (doc_attributes doc) field = Some v -> lenZ v = lenZ query ->
  match fe with Some e => filter_current ctx0 e /\ eval_filter e doc = true | None => True end ->
  filtered_candidates (set_consistency Strong ctx0) fe
    (request_candidates opts rerank (set_consistency Strong ctx0) top_k (RVector field query)) = Ok cands ->
  id ∈ cands.
Proof.
  intros Htail Hdoc Hv Hlen Hfe. pose proof (fresh_candidate opts rerank ctx0 top_k field query id doc v Htail Hdoc Hv Hlen) as Hc.
  unfold filtered_candidates. destruct fe as [e|]; [|by intros [= <-]]. destruct Hfe as [Hcur He].
  destruct (strong_filter (set_consistency Strong ctx0) e eq_refl Hcur) as (ids & -> & Hm). cbn [result_bind]. intros [= <-].
  apply elem_of_filter. split; [|done]. apply Hm. by exists doc.
Qed.

(** What passes a filter is scored as before. *)
Lemma scored_filtered {IO : IterOrder} {TL : TextLib} {VL : VectorLib} {FT : F64Text} opts ctx fe field query cands cands' (P : string * f64 -> Prop) :
  filtered_candidates ctx fe cands = Ok cands' ->
  Forall P (score_candidates opts ctx (RVector field query) cands) -> Forall P (score_candidates opts ctx (RVector field query) cands').
Proof.
  intros Hf. rewrite !Forall_forall. intros HP e He. apply HP. cbn in *. apply list_elem_of_omap in He as (id & Hid & He).
  apply list_elem_of_omap. exists id. split; [|done]. rewrite elem_of_iter_set in *.
  by destruct (filtered_candidates_sub _ _ _ _ _ Hf Hid).
Qed.

(** C18: a strongly consistent vector query sees every write: a document of the
    unindexed tail that the filter of the request accepts (if there is one; it is
    one the index answers exactly) and whose current vector has the query's
    length is returned with the score of that vector, unless [top_k] rows fill
    the answer, which then rank no later when no score is NaN ([rankable]).  A
    stale indexed version of it is never used. *)
Theorem vector_query_fresh {IO : IterOrder} {WC : WalCodec} {TL : TextLib} {VL : VectorLib} {FT : F64Text} {FL : F64TextLaws}
    opts rerank us ctx0 req resp fe top_k field query ob id doc v :
  execute_query opts rerank us ctx0 req = Ok resp ->
  request_means req fe top_k Strong (RVector field query) ob ->
  match fe with Some e => filter_current ctx0 e /\ eval_filter e doc = true | None => True end ->
  id ∈ qc_tail_doc_ids ctx0 -> qc_docs ctx0 !! id = Some doc ->
  extract_vector (doc_attributes doc) field = Some v -> lenZ v = lenZ query ->
  let ctx := set_consistency Strong ctx0 in
  let score := score_vector query v (distance_metric (qc_meta ctx0)) in
  (exists row, row ∈ resp_rows resp /\ row_id row = id /\ row_dist row = Some score) \/
  (length (resp_rows resp) = Z.to_nat top_k /\
   (Forall (rankable ctx ob) (score_candidates opts ctx (RVector field query)
      (request_candidates opts rerank ctx top_k (RVector field query))) ->
    forall row s, row ∈ resp_rows resp -> row_dist row = Some s ->
      compare_rows ctx ob (row_id row, s) (id, score) <> Gt)).
Proof.
  intros Hx Hm Hfilter Htail Hdoc Hv Hlen ctx score.
  apply execute_query_inv in Hx as (? & ? & ? & ? & ? & cands & inc & iv & enc & Hm' & _ & _ & Hc & ->).
  destruct (request_means_unique _ _ _ _ _ _ _ _ _ _ _ Hm Hm') as (-> & -> & -> & -> & ->).
  fold ctx in Hc |- *.
  assert (id ∈ cands) as Hid by (by eapply (fresh_filtered opts rerank ctx0 top_k field query id doc v)).
  assert ((id, score) ∈ score_candidates opts ctx (RVector field query) cands) as Hs.
  { cbn. apply list_elem_of_omap. exists id. rewrite elem_of_iter_set. split; [done|]. rewrite Hdoc.
    unfold vector_raw_score. rewrite Hv, Hlen, Z.eqb_refl. done. }
  set (ranked := ranked_scores opts ctx ob (RVector field query) cands).
  assert ((id, score) ∈ take (Z.to_nat top_k) ranked ++ drop (Z.to_nat top_k) ranked) as Hr
    by (rewrite take_drop; unfold ranked, ranked_scores; by rewrite elem_of_sort_by).
  apply elem_of_app in Hr as [Hin|Hout].
  - left. eexists. split; [apply list_elem_of_fmap; by exists (id, score)|]. done.
  - right. split.
    + rewrite length_fmap, length_take. apply Nat.min_l. destruct (decide (length ranked <= Z.to_nat top_k)%nat) as [Hl|];
        [|lia]. by rewrite drop_ge in Hout; [apply not_elem_of_nil in Hout|].
    + intros Hok row s Hrow Hds. apply list_elem_of_fmap in Hrow as ([id' s'] & -> & Hin). injection Hds as ->.
      apply (take_drop_sorted _ ranked (Z.to_nat top_k)); [|done|done].
      eapply sort_by_order; [apply compare_rows_order|]. by eapply scored_filtered.
Qed.

(** ** A concrete namespace for the witnesses

    The index covers document "a"; the log has since upserted "b" and "c". *)

Definition late_attrs (tier : string) (n x y : Z) : gmap string Value :=
  {[ "tier" := VString tier; "n" := VNumber (PosInt n); "v" := VArray [VNumber (PosInt x); VNumber (PosInt y)] ]}.
Definition search_codec : WalCodec := table_codec [] [late_attrs "pro" 5 3 4; late_attrs "free" 7 0 2] [].
Definition search_entries : list WalEntry :=
  [mkWalEntry [mkWalUpsert "b" [65]; mkWalUpsert "c" [66]] [] []].
Definition search_docs : gmap string Document :=
  {[ "a" := sample_doc; "b" := mkDocument "b" (late_attrs "pro" 5 3 4);
     "c" := mkDocument "c" (late_attrs "free" 7 0 2) ]}.
Definition search_ctx : QueryContext :=
  mkContext search_docs default_meta None ∅ (Some sample_segment) (wal_touched_doc_ids search_entries)
    Eventual None None None None.
Definition search_req : QueryRequest :=
  mkRequest (VArray [VString "vector"; VString "ANN"; VString "v"; VArray [VNumber (PosInt 1); VNumber (PosInt 0)]])
    (Some 1) (Some (unparse sample_filter)) None None None None None.
Definition plain_req : QueryRequest :=
  mkRequest (rq_rank_by search_req) (Some 1) None None None None None None.

Definition run_search (IO : IterOrder) (req : QueryRequest) : result QueryError QueryResponse :=
  @execute_query IO ascii_text rfc4648 sample_text plain_opts false 0 search_ctx req.
Definition response_of (m : result QueryError QueryResponse) : QueryResponse :=
  match m with Ok resp => resp | Err _ => mkResponse [] None end.

(** The opposite of the canonical order. *)
Definition reverse_order : IterOrder.
Proof.
  refine {| iter_map := fun K V EqK CK m => reverse (map_to_list m); iter_set := fun K EqK CK s => reverse (elements s) |}.
  - intros. apply reverse_Permutation.
  - intros. apply reverse_Permutation.
Defined.

Definition search_query : list f64 := [f64_of_Z 1; f64_of_Z 0].
Definition search_ranker : Ranker := RVector "v" search_query.

Lemma search_filter_current : @filter_current canonical_order sample_text search_codec search_ctx sample_filter.
Proof.
  exists ["n"; "tier"], {[ "a" := sample_doc ]}, search_entries. split_and!.
  - apply add_document_represents; [reflexivity|apply empty_represents].
  - exact sample_docs_plain.
  - split; [|split; [|exact I]].
    + split; [discriminate|]. split; [right; set_solver|reflexivity].
    + split; [discriminate|]. split; [right; set_solver|].
      intros id doc l Hd Hl. apply lookup_singleton_Some in Hd as [<- <-].
      vm_compute in Hl. injection Hl as <-. reflexivity.
  - vm_compute. reflexivity.
  - reflexivity.
Qed.

Lemma plain_req_means : @request_means rfc4648 plain_req None 1 Strong search_ranker None.
Proof. split; vm_compute; reflexivity. Qed.

Lemma strong_filter_exact_witness :
  exists ids, @matching_doc_ids_for_filter canonical_order sample_text (set_consistency Strong search_ctx) sample_filter = Ok ids /\
    forall id, id ∈ ids <-> exists doc, search_docs !! id = Some doc /\ eval_filter sample_filter doc = true.
Proof.
  apply (@strong_filter_exact canonical_order search_codec sample_text sample_text_laws).
  - reflexivity.
  - exact search_filter_current.
Defined.

Lemma query_topk_exact_witness :
  let rows := resp_rows (response_of (run_search canonical_order plain_req)) in
  NoDup (row_id <$> rows) /\ length rows = 1%nat.
Proof.
  destruct (@query_topk_exact canonical_order ascii_text rfc4648 sample_text plain_opts false 0 search_ctx plain_req
    (response_of (run_search canonical_order plain_req)) None 1 Strong search_ranker None {[ "b"; "c" ]})
    as (Hnd & Hlen & _).
  - vm_compute. reflexivity.
  - exact plain_req_means.
  - vm_compute. reflexivity.
  - split; [exact Hnd|]. rewrite Hlen. vm_compute. reflexivity.
Defined.

Lemma query_rows_current_witness :
  exists row, row ∈ resp_rows (response_of (run_search canonical_order search_req)) /\
  exists doc, search_docs !! row_id row = Some doc /\ eval_filter sample_filter doc = true.
Proof.
  destruct (resp_rows (response_of (run_search canonical_order search_req))) as [|row rows] eqn:E;
    [vm_compute in E; discriminate E|].
  exists row. split; [left|].
  apply (@query_rows_current canonical_order search_codec ascii_text rfc4648 sample_text sample_text_laws plain_opts false 0
    search_ctx search_req (response_of (run_search canonical_order search_req)) (Some sample_filter)).
  - vm_compute. reflexivity.
  - reflexivity.
  - vm_compute. reflexivity.
  - exact search_filter_current.
  - rewrite E. left.
Defined.

Lemma query_order_independent_witness :
  resp_rows (response_of (run_search canonical_order plain_req)) =
  resp_rows (response_of (run_search reverse_order plain_req)).
Proof.
  apply (@query_order_independent ascii_text rfc4648 sample_text canonical_order reverse_order plain_opts false 0 0
    search_ctx plain_req _ _ None 1 search_ranker None {[ "b"; "c" ]}).
  - vm_compute. reflexivity.
  - vm_compute. reflexivity.
  - exact plain_req_means.
  - right. reflexivity.
  - vm_compute. reflexivity.
  - vm_compute. repeat constructor.
Defined.

(** The filter accepts "b" of the tail. *)
Lemma search_req_means : @request_means rfc4648 search_req (Some sample_filter) 1 Strong search_ranker None.
Proof. split; vm_compute; reflexivity. Qed.

Lemma vector_query_fresh_witness :
  let resp := response_of (run_search canonical_order search_req) in
  let score := score_vector search_query [f64_of_Z 3; f64_of_Z 4] CosineDistance in
  exists row, row ∈ resp_rows resp /\ row_id row = "b" /\ row_dist row = Some score.
Proof.
  destruct (@vector_query_fresh canonical_order search_codec ascii_text rfc4648 sample_text sample_text_laws plain_opts false 0 search_ctx search_req
    (response_of (run_search canonical_order search_req)) (Some sample_filter) 1 "v" search_query None "b"
    (mkDocument "b" (late_attrs "pro" 5 3 4)) [f64_of_Z 3; f64_of_Z 4]) as [H|[_ H]].
  - vm_compute. reflexivity.
  - exact search_req_means.
  - split; [exact search_filter_current|vm_compute; reflexivity].
  - vm_compute. reflexivity.
  - vm_compute. reflexivity.
  - vm_compute. reflexivity.
  - reflexivity.
  - exact H.
  - eexists. split; [vm_compute; left|]. split; vm_compute; reflexivity.
Defined.
