(* ===== verification/VectorBuild.v ===== *)
(** * Construction and maintenance of the vector index ([index/vector.rs])

    K-means (seeded by k-means++ with a deterministic generator), construction
    of the centroid hierarchy, application of a delta, and the incremental
    maintenance passes: split, merge, reassignment, centroid refresh. *)

From Stdlib Require Import ZArith Lia Bool SpecFloat.
From stdpp Require Import base gmap strings list fin_maps.
From S2P Require Import Prelude F64 Json Models Schema Meta Wal VectorEncoding Vector.

Definition KMEANS_ITERS : nat := 10.
Definition MAX_CLUSTER_MEMBERS : Z := 512.
Definition MERGE_CLUSTER_MAX_MEMBERS : Z := 2.
Definition L2_SPLIT_FINE_THRESHOLD : Z := 32.

(** [AnnBuildConfig], with the probe widths of [AnnProbeConfig]. *)
Record AnnBuildConfig : Type := mkBuild {
  ab_probe_coarse : Z;
  ab_probe_fine : Z;
  ab_ann_version : Z
}.

Abbreviation Pair := (string * list f64)%type.

(** ** K-means *)

Definition f64_leb (a b : f64) : bool :=
  match f64_partial_cmp a b with Some Lt | Some Eq => true | _ => false end.

Definition f64_epsilon : f64 := S754_finite false 4503599627370496 (-104).

(** [f64::to_bits]; a NaN has the quiet pattern. *)
Definition f64_to_bits (x : f64) : Z :=
  let sign (s : bool) := if s then 2 ^ 63 else 0 in
  match x with
  | S754_zero s => sign s
  | S754_infinity s => sign s + 2047 * 2 ^ 52
  | S754_nan => 2047 * 2 ^ 52 + 2 ^ 51
  | S754_finite s m e =>
      if Z.pos m <? 2 ^ 52 then sign s + Z.pos m
      else sign s + (e + 1075) * 2 ^ 52 + (Z.pos m - 2 ^ 52)
  end.

Definition point_dist_sq (vec center : list f64) (metric : DistanceMetric) : f64 :=
  match metric with
  | CosineDistance =>
      let d := f64_max (f64_sub f64_one (cosine_similarity vec center)) f64_zero in
      f64_mul d d
  | EuclideanSquared => euclidean_squared vec center
  end.

(** The generator [XorShift64] is its 64-bit state. *)
Definition xs_seed (n k : Z) (pairs : list Pair) : Z :=
  let s := wrap64 (wrap64 (n * 11400714819323198485) + k) in
  let s :=
    match pairs with
    | (_, v) :: _ =>
        fold_left (fun s ix => wrap64 (s + wrap64 (f64_to_bits ix.2 * (Z.of_nat ix.1 + 1))))
          (imap pair (take 8 v)) s
    | [] => s
    end in
  if s =? 0 then 11562461410679940143 else s.

Definition xs_next (s : Z) : Z :=
  let x := Z.lxor s (wrap64 (Z.shiftl s 13)) in
  let x := Z.lxor x (Z.shiftr x 7) in
  Z.lxor x (wrap64 (Z.shiftl x 17)).

Definition xs_unit_interval (s : Z) : Z * f64 :=
  let s := xs_next s in
  (s, f64_mul (f64_of_Z s) (f64_div f64_one (f64_of_Z u64_max))).

Definition xs_index (s upper : Z) : Z * Z :=
  if upper <=? 1 then (s, 0) else let s := xs_next s in (s, s mod upper).

(** The first index at which the running sum reaches [r]. *)
Fixpoint pick_weighted (dist_sq : list f64) (r acc : f64) (i last : Z) : Z :=
  match dist_sq with
  | [] => last
  | d :: rest =>
      let acc := f64_add acc d in
      if f64_geb acc r then i else pick_weighted rest r acc (i + 1) last
  end.

(** [pairs[i].1.clone()]; the index is in range. *)
Definition vec_at (pairs : list Pair) (i : Z) : list f64 := default [] (snd <$> pairs !! Z.to_nat i).

(** One more centre of k-means++. *)
Definition add_center (pairs : list Pair) (metric : DistanceMetric) (st : Z * list (list f64))
  : Z * list (list f64) :=
  let '(rng, centroids) := st in
  let n := lenZ pairs in
  let dist_sq := (fun p : Pair =>
    fold_left (fun d c => f64_min d (point_dist_sq p.2 c metric)) centroids f64_infinity) <$> pairs in
  let total := fold_left f64_add dist_sq f64_zero in
  let '(rng, pick) :=
    if f64_leb total f64_epsilon then (rng, lenZ centroids mod n)
    else
      let '(rng, u) := xs_unit_interval rng in
      (rng, pick_weighted dist_sq (f64_mul u total) f64_zero 0 (sat_sub n 1)) in
  (rng, centroids ++ [vec_at pairs pick]).

Definition kmeans_plus_plus_init (pairs : list Pair) (k : Z) (metric : DistanceMetric) : list (list f64) :=
  let n := lenZ pairs in
  let '(rng, first) := xs_index (xs_seed n k pairs) n in
  (Nat.iter (Z.to_nat (k - 1)) (add_center pairs metric) (rng, [vec_at pairs first])).2.

Definition nearest_centroid_id (vec : list f64) (centroids : list (list f64)) (metric : DistanceMetric) : Z :=
  (fold_left (fun best ic =>
     let s := score_vector vec ic.2 metric in
     if f64_gtb s best.2 then (Z.of_nat ic.1, s) else best)
     (imap pair centroids) (0, f64_neg_infinity)).1.

(** One pass of Lloyd's algorithm; every vector has [dim] components. *)
Definition lloyd_step (pairs : list Pair) (k dim : Z) (metric : DistanceMetric) (centroids : list (list f64))
  : list (list f64) :=
  let sums := fold_left (fun sums (p : Pair) =>
      let best := nearest_centroid_id p.2 centroids metric in
      alter (fun sc : list f64 * Z => (zip_with f64_add sc.1 p.2, sc.2 + 1)) (Z.to_nat best) sums)
    pairs (replicate (Z.to_nat k) (replicate (Z.to_nat dim) f64_zero, 0)) in
  zip_with (fun c (sc : list f64 * Z) =>
    if 0 <? sc.2 then
      let inv := f64_div f64_one (f64_of_Z sc.2) in
      (fun x => f64_mul x inv) <$> sc.1
    else c) centroids sums.

Definition kmeans_centroids (pairs : list Pair) (k dim : Z) (metric : DistanceMetric) : list (list f64) :=
  let n := lenZ pairs in
  if n =? 0 then []
  else if n <=? k then pairs.*2
  else Nat.iter KMEANS_ITERS (lloyd_step pairs k dim metric) (kmeans_plus_plus_init pairs k metric).

Definition assign_to_centroids (pairs : list Pair) (centroids : list (list f64)) (metric : DistanceMetric)
  : gmap string Z :=
  fold_left (fun out (p : Pair) => <[p.1 := nearest_centroid_id p.2 centroids metric]> out) pairs ∅.

(** ** Members *)

Section Members.
Context {VL : VectorLib}.

Definition member_as_f64 (m : ClusterMember) (dim : Z) : list f64 :=
  match cm_vector_f16 m with
  | Some b => f64_of_f32 <$> f16_le_bytes_to_f32_vec b dim
  | None => cm_vector m
  end.

Definition members_as_pairs (members : list ClusterMember) (dim : Z) : list Pair :=
  (fun m => (cm_doc_id m, member_as_f64 m dim)) <$> members.
End Members.

(** [clusters.entry(id).or_insert_with(..).members.extend(ms)]. *)
Definition extend_cluster (segment_id fine_id : Z) (ms : list ClusterMember) (clusters : gmap Z ClusterSegment)
  : gmap Z ClusterSegment :=
  let c := default (mkCluster segment_id fine_id []) (clusters !! fine_id) in
  <[fine_id := mkCluster (cs_segment_id c) (cs_centroid_id c) (cs_members c ++ ms)]> clusters.

(** ** Construction *)

Record BuildState : Type := mkBuildState {
  bs_by_coarse : gmap Z (list Pair);
  bs_l1 : gmap Z CentroidIndexL1;
  bs_clusters : gmap Z ClusterSegment;
  bs_l2 : gmap (Z * Z) CentroidIndexL2;
  bs_l2_counts : list Z;
  bs_fine_counts : list Z;
  bs_global_start : Z
}.

Section Build.
Context {VL : VectorLib}.
Context (segment_id : Z) (field : string) (metric : DistanceMetric) (build : AnnBuildConfig).

(** The documents with a vector of the first vector's length. *)
Definition build_pairs (docs : list (string * Document)) : Z * list Pair :=
  fold_left (fun acc (d : string * Document) =>
    let '(dims, pairs) := acc in
    match extract_vector (doc_attributes d.2) field with
    | None | Some [] => acc
    | Some vec =>
        if dims =? 0 then (wrap32 (lenZ vec), pairs ++ [(d.1, vec)])
        else if wrap32 (lenZ vec) =? dims then (dims, pairs ++ [(d.1, vec)])
        else acc
    end) docs (0, []).

Definition group_by_coarse (assign : gmap string Z) (pairs : list Pair) : gmap Z (list Pair) :=
  fold_left (fun m (p : Pair) =>
    let coarse := default 0 (assign !! p.1) in
    <[coarse := default [] (m !! coarse) ++ [p]]> m) pairs ∅.

(** The L2 parts of a coarse cell with many fine centroids (v3). *)
Definition l2_parts_of (coarse_id k_fine global_start : Z) (fine_vecs : list (list f64))
    (l2 : gmap (Z * Z) CentroidIndexL2) : Z * gmap (Z * Z) CentroidIndexL2 :=
  let l2_parts := div_ceil k_fine L2_SPLIT_FINE_THRESHOLD in
  let chunk := Z.max (div_ceil k_fine l2_parts) 1 in
  (l2_parts, fold_left (fun l2 l2_id =>
     let start := sat_mul64 l2_id chunk in
     let stop := Z.min (sat_mul64 (l2_id + 1) chunk) k_fine in
     let slice := take (Z.to_nat (stop - start)) (drop (Z.to_nat start) fine_vecs) in
     match slice with
     | [] => l2
     | _ => <[(coarse_id, l2_id) := mkL2 segment_id coarse_id l2_id (wrap32 (global_start + start))
                (lenZ slice) slice]> l2
     end) (range0 l2_parts) l2).

(** One turn of the loop over coarse cells. *)
Definition build_cell (dims : Z) (element : VectorElement) (st : BuildState) (coarse_id : Z) : BuildState :=
  let cell_docs := default [] (bs_by_coarse st !! coarse_id) in
  let k_fine := num_fine_for_version (lenZ cell_docs) (ab_ann_version build) in
  let fine_counts := <[Z.to_nat coarse_id := k_fine]> (bs_fine_counts st) in
  let fine_vecs :=
    match cell_docs with [] => [] | _ => kmeans_centroids cell_docs k_fine dims metric end in
  let fine_assign := assign_to_centroids cell_docs fine_vecs metric in
  let l1 := <[coarse_id := mkL1 segment_id coarse_id (bs_global_start st) (lenZ fine_vecs) fine_vecs]> (bs_l1 st) in
  let '(l2_counts, l2) :=
    if (ANN_VERSION_V3 <=? ab_ann_version build) && (L2_SPLIT_FINE_THRESHOLD <? k_fine) then
      let '(parts, l2) := l2_parts_of coarse_id k_fine (bs_global_start st) fine_vecs (bs_l2 st) in
      (<[Z.to_nat coarse_id := parts]> (bs_l2_counts st), l2)
    else (bs_l2_counts st, bs_l2 st) in
  let clusters := fold_left (fun cs (p : Pair) =>
      let fine_id := wrap32 (bs_global_start st + default 0 (fine_assign !! p.1)) in
      extend_cluster segment_id fine_id [from_values p.1 p.2 element] cs) cell_docs (bs_clusters st) in
  mkBuildState (delete coarse_id (bs_by_coarse st)) l1 clusters l2 l2_counts fine_counts
    (wrap32 (bs_global_start st + k_fine)).

Definition vector_build (docs : list (string * Document)) (schema : Value) : option VectorIndex :=
  let element := vector_element_for_field schema field in
  let '(dims, pairs) := build_pairs docs in
  match pairs with
  | [] => None
  | _ =>
      let k_coarse := num_coarse_for_version (lenZ pairs) (ab_ann_version build) in
      let coarse_vecs := kmeans_centroids pairs k_coarse dims metric in
      let by_coarse := group_by_coarse (assign_to_centroids pairs coarse_vecs metric) pairs in
      let zeros := replicate (Z.to_nat k_coarse) 0 in
      let st := fold_left (build_cell dims element) (range0 k_coarse)
                  (mkBuildState by_coarse ∅ ∅ ∅ zeros zeros 0) in
      let use_v3 := ANN_VERSION_V3 <=? ab_ann_version build in
      let has_routing := use_v3 && existsb (fun c => 1 <? c) (bs_l2_counts st) in
      Some (mkVectorIndex
        (mkL0 segment_id field dims k_coarse (bs_global_start st)
           (Z.max (Z.min (ab_probe_coarse build) k_coarse) 1) (Z.max (ab_probe_fine build) 1)
           metric element (bs_fine_counts st) coarse_vecs
           (if use_v3 then ANN_VERSION_V3 else ANN_VERSION_V2) has_routing 0)
        (bs_l1 st) (bs_clusters st)
        (if has_routing then Some (mkRouting ANN_VERSION_V3 segment_id field dims (bs_l2_counts st)) else None)
        (bs_l2 st))
  end.
End Build.

(** ** Maintenance *)

Definition set_l0 (l0 : CentroidIndexL0) (vi : VectorIndex) : VectorIndex :=
  mkVectorIndex l0 (vi_l1 vi) (vi_clusters vi) (vi_routing vi) (vi_l2 vi).
Definition set_l1 (l1 : gmap Z CentroidIndexL1) (vi : VectorIndex) : VectorIndex :=
  mkVectorIndex (vi_l0 vi) l1 (vi_clusters vi) (vi_routing vi) (vi_l2 vi).
Definition set_fine (counts : list Z) (total : Z) (l0 : CentroidIndexL0) : CentroidIndexL0 :=
  mkL0 (l0_segment_id l0) (l0_vector_field l0) (l0_dimensions l0) (l0_num_coarse l0) total
    (l0_probe_coarse l0) (l0_probe_fine l0) (l0_distance_metric l0) (l0_vector_element l0) counts
    (l0_centroids l0) (l0_ann_version l0) (l0_has_routing l0) (l0_maintenance_passes l0).
Definition set_passes (n : Z) (l0 : CentroidIndexL0) : CentroidIndexL0 :=
  mkL0 (l0_segment_id l0) (l0_vector_field l0) (l0_dimensions l0) (l0_num_coarse l0) (l0_num_fine_total l0)
    (l0_probe_coarse l0) (l0_probe_fine l0) (l0_distance_metric l0) (l0_vector_element l0) (l0_fine_counts l0)
    (l0_centroids l0) (l0_ann_version l0) (l0_has_routing l0) n.

(** [self.clusters.get(&id).map(|c| c.members...).unwrap_or_default()]. *)
Definition members_at (vi : VectorIndex) (fine_id : Z) : list ClusterMember :=
  default [] (cs_members <$> vi_clusters vi !! fine_id).

Definition put_cluster (vi : VectorIndex) (fine_id : Z) (ms : list ClusterMember) : VectorIndex :=
  set_clusters (<[fine_id := mkCluster (l0_segment_id (vi_l0 vi)) fine_id ms]> (vi_clusters vi)) vi.

(** [if let Some(c) = self.clusters.get_mut(&id) { c.members = ms }]. *)
Definition set_members (vi : VectorIndex) (fine_id : Z) (ms : list ClusterMember) : VectorIndex :=
  set_clusters (alter (fun c => mkCluster (cs_segment_id c) (cs_centroid_id c) ms) fine_id (vi_clusters vi)) vi.

Definition extend_members (vi : VectorIndex) (fine_id : Z) (ms : list ClusterMember) : VectorIndex :=
  set_clusters (extend_cluster (l0_segment_id (vi_l0 vi)) fine_id ms (vi_clusters vi)) vi.

(** [slice[i] = c] when in range. *)
Definition set_centroid (local_fine : Z) (c : list f64) (l1 : CentroidIndexL1) : CentroidIndexL1 :=
  mkL1 (l1_segment_id l1) (l1_coarse_id l1) (l1_global_id_start l1) (l1_num_fine l1)
    (<[Z.to_nat local_fine := c]> (l1_centroids l1)).

Definition fine_count_of (vi : VectorIndex) (coarse_id : Z) : Z :=
  default 0 (l0_fine_counts (vi_l0 vi) !! Z.to_nat coarse_id).

Definition can_add_fine_centroid (vi : VectorIndex) (coarse_id : Z) : bool :=
  fine_count_of vi coarse_id <? max_fine_per_coarse vi.

Section Maintain.
Context {IO : IterOrder} {VL : VectorLib}.

Definition max_cluster_members_in_coarse (vi : VectorIndex) (coarse_id : Z) : Z :=
  let start := global_id_start (vi_l0 vi) coarse_id in
  let stop := sat_add32 start (fine_count_of vi coarse_id) in
  fold_left (fun best (e : Z * ClusterSegment) =>
    if (start <=? e.1) && (e.1 <? stop) then Z.max best (lenZ (cs_members e.2)) else best)
    (iter_map (vi_clusters vi)) 0.

Definition can_add_fine_centroid_for_split (vi : VectorIndex) (coarse_id : Z) : bool :=
  if max_cluster_members_in_coarse vi coarse_id <=? MAX_CLUSTER_MEMBERS
  then can_add_fine_centroid vi coarse_id
  else fine_count_of vi coarse_id <? MAX_FINE_PER_COARSE.

(** Clusters at or after the pivot move up by one id. *)
Definition shift_clusters (pivot : Z) (clusters : gmap Z ClusterSegment) : gmap Z ClusterSegment :=
  let old_ids := sort_by (fun a b => Z.compare b a) (filter (fun id => pivot <= id) (iter_keys clusters)) in
  let '(clusters, moved) := fold_left (fun acc old_id =>
      match acc.1 !! old_id with
      | Some seg =>
          let new_id := wrap32 (old_id + 1) in
          (delete old_id acc.1, acc.2 ++ [(new_id, mkCluster (cs_segment_id seg) new_id (cs_members seg))])
      | None => acc
      end) old_ids (clusters, []) in
  fold_left (fun cs (e : Z * ClusterSegment) => <[e.1 := e.2]> cs) moved clusters.

Definition append_fine_centroid (vi : VectorIndex) (coarse_id : Z) (centroid : list f64)
  : result Z (VectorIndex * Z) :=
  let? l1 := ok_or (vi_l1 vi !! coarse_id) coarse_id in
  let new_local := l1_num_fine l1 in
  let centroids := l1_centroids l1 ++ [centroid] in
  let l1s := <[coarse_id := mkL1 (l1_segment_id l1) (l1_coarse_id l1) (l1_global_id_start l1)
                (wrap32 (lenZ centroids)) centroids]> (vi_l1 vi) in
  let pivot := wrap32 (global_id_start (vi_l0 vi) coarse_id + new_local) in
  let clusters := shift_clusters pivot (vi_clusters vi) in
  let l0 := set_fine (alter (fun c => wrap32 (c + 1)) (Z.to_nat coarse_id) (l0_fine_counts (vi_l0 vi)))
              (wrap32 (l0_num_fine_total (vi_l0 vi) + 1)) (vi_l0 vi) in
  let l1s := fold_left (fun m c =>
      alter (fun l => mkL1 (l1_segment_id l) (l1_coarse_id l) (wrap32 (l1_global_id_start l + 1))
               (l1_num_fine l) (l1_centroids l)) c m)
    (seqZ (coarse_id + 1) (l0_num_coarse (vi_l0 vi) - (coarse_id + 1))) l1s in
  Ok (mkVectorIndex l0 l1s clusters (vi_routing vi) (vi_l2 vi), new_local).

(** The members of sub-cluster [i] under an assignment, [unwrap_or(0).min(cap)]. *)
Definition bucket (assign : gmap string Z) (cap i : Z) (members : list ClusterMember) : list ClusterMember :=
  filter (fun m => Z.min (default 0 (assign !! cm_doc_id m)) cap = i) members.

(** The loop of [try_binary_split_oversized_cluster]. *)
Fixpoint binary_split_loop (fuel : nat) (vi : VectorIndex) (coarse_id fine_id local_fine : Z) (progress : bool)
  : result Z (VectorIndex * bool) :=
  match fuel with
  | O => Ok (vi, progress)
  | S fuel =>
      let dim := l0_dimensions (vi_l0 vi) in
      let metric := l0_distance_metric (vi_l0 vi) in
      if negb (can_add_fine_centroid_for_split vi coarse_id) then Ok (vi, progress)
      else
        let members := members_at vi fine_id in
        if lenZ members <=? MAX_CLUSTER_MEMBERS then Ok (vi, progress)
        else
          let pairs := members_as_pairs members dim in
          match kmeans_centroids pairs 2 dim metric with
          | c0 :: c1 :: _ as sub_centroids =>
              let assign := assign_to_centroids pairs sub_centroids metric in
              let b0 := bucket assign 1 0 members in
              let b1 := bucket assign 1 1 members in
              match b0, b1 with
              | [], _ | _, [] => Ok (vi, progress)
              | _, _ =>
                  let? out := append_fine_centroid vi coarse_id c1 in
                  let '(vi, new_local) := out in
                  let new_global := global_fine_id (vi_l0 vi) coarse_id new_local in
                  let vi := set_l1 (alter (set_centroid local_fine c0) coarse_id (vi_l1 vi)) vi in
                  let vi := set_clusters (alter (fun c => mkCluster (cs_segment_id c) fine_id b0) fine_id
                                            (vi_clusters vi)) vi in
                  let vi := put_cluster vi new_global b1 in
                  if lenZ (members_at vi new_global) <=? lenZ (members_at vi fine_id) then
                    let local_fine := default local_fine
                      (snd <$> coarse_local_from_global (vi_l0 vi) fine_id) in
                    binary_split_loop fuel vi coarse_id fine_id local_fine true
                  else binary_split_loop fuel vi coarse_id new_global new_local true
              end
          | _ => Ok (vi, progress)
          end
  end.

Definition MAX_SPLITS_PER_CLUSTER : nat := 64.

Definition try_binary_split_oversized_cluster (vi : VectorIndex) (fine_id : Z) : result Z (VectorIndex * bool) :=
  match coarse_local_from_global (vi_l0 vi) fine_id with
  | None => Ok (vi, false)
  | Some (coarse_id, local_fine) =>
      binary_split_loop MAX_SPLITS_PER_CLUSTER vi coarse_id fine_id local_fine false
  end.

Definition drop_cluster (vi : VectorIndex) (fine_id : Z) : VectorIndex :=
  set_clusters (delete fine_id (vi_clusters vi)) vi.

Definition try_multishard_oversized_cluster (vi0 : VectorIndex) (fine_id : Z) : result Z (VectorIndex * bool) :=
  let l0 := vi_l0 vi0 in
  let dim := l0_dimensions l0 in
  let metric := l0_distance_metric l0 in
  match coarse_local_from_global l0 fine_id with
  | None => Ok (vi0, false)
  | Some (coarse_id, _) =>
      let members := members_at vi0 fine_id in
      let vi := drop_cluster vi0 fine_id in
      if lenZ members <=? MAX_CLUSTER_MEMBERS then
        Ok (match members with [] => vi | _ => put_cluster vi fine_id members end, false)
      else
        match vi_l1 vi !! coarse_id with
        | None => Ok (put_cluster vi fine_id members, false)
        | Some l1 =>
            let num_fine := Z.max (l1_num_fine l1) 1 in
            let k := Z.min (Z.min (Z.max (Z.min num_fine (div_ceil (lenZ members) MAX_CLUSTER_MEMBERS)) 2) num_fine)
                       (lenZ members) in
            let pairs := members_as_pairs members dim in
            match kmeans_centroids pairs k dim metric with
            | [] => Ok (put_cluster vi fine_id members, false)
            | sub_centroids =>
                let assign := assign_to_centroids pairs sub_centroids metric in
                Ok (fold_left (fun acc sub_idx =>
                      match bucket assign (k - 1) sub_idx members with
                      | [] => acc
                      | b => (extend_members acc.1 (global_fine_id l0 coarse_id (sub_idx mod num_fine)) b, true)
                      end) (range0 k) (vi, false))
            end
        end
  end.

(** The least-loaded other fine centroid of the cell. *)
Definition least_loaded (vi : VectorIndex) (coarse_id source_fine num_fine : Z) : option Z :=
  (fold_left (fun (best : option Z * Z) local =>
     let global := global_fine_id (vi_l0 vi) coarse_id local in
     if global =? source_fine then best
     else
       let load := lenZ (members_at vi global) in
       if load <? best.2 then (Some local, load) else best) (range0 num_fine) (None, u64_max)).1.

Definition relocate_excess_within_coarse (vi : VectorIndex) (source_fine : Z) : result Z (VectorIndex * bool) :=
  let l0 := vi_l0 vi in
  match coarse_local_from_global l0 source_fine with
  | None => Ok (vi, false)
  | Some (coarse_id, _) =>
      let excess := sat_sub (lenZ (members_at vi source_fine)) MAX_CLUSTER_MEMBERS in
      if excess =? 0 then Ok (vi, false)
      else
        match vi_l1 vi !! coarse_id with
        | None => Ok (vi, false)
        | Some l1 =>
            match least_loaded vi coarse_id source_fine (l1_num_fine l1) with
            | None => Ok (vi, false)
            | Some target_local =>
                let target_global := global_fine_id l0 coarse_id target_local in
                let target_centroid := default [] (l1_centroids l1 !! Z.to_nat target_local) in
                let scored := (fun m =>
                  (score_vector (member_as_f64 m (l0_dimensions l0)) target_centroid (l0_distance_metric l0), m))
                  <$> members_at vi source_fine in
                (** the members are drained; at least [MAX_CLUSTER_MEMBERS + 1] of them *)
                let scored := sort_by (fun a b : f64 * ClusterMember => f64_cmp_or_eq b.1 a.1) scored in
                let split_at := Z.to_nat (Z.min excess (sat_sub (lenZ scored) 1)) in
                let moved := (take split_at scored).*2 in
                let keep := (drop split_at scored).*2 in
                Ok (extend_members (set_members vi source_fine keep) target_global moved, true)
            end
        end
  end.

(** [for id in ids { if f(id)? { progress = true } }]. *)
Fixpoint split_each (f : VectorIndex -> Z -> result Z (VectorIndex * bool)) (ids : list Z) (vi : VectorIndex)
    (progress : bool) : result Z (VectorIndex * bool) :=
  match ids with
  | [] => Ok (vi, progress)
  | id :: rest => let? out := f vi id in split_each f rest out.1 (out.2 || progress)
  end.

Definition oversized_ids (vi : VectorIndex) : list Z :=
  (filter (fun e : Z * ClusterSegment => MAX_CLUSTER_MEMBERS < lenZ (cs_members e.2)) (iter_map (vi_clusters vi))).*1.

Fixpoint split_rounds (rounds : nat) (vi : VectorIndex) : result Z VectorIndex :=
  match rounds with
  | O => Ok vi
  | S rounds =>
      match oversized_ids vi with
      | [] => Ok vi
      | oversized =>
          let? out := split_each try_binary_split_oversized_cluster oversized vi false in
          if out.2 then split_rounds rounds out.1
          else
            let? out := split_each try_multishard_oversized_cluster oversized out.1 false in
            if out.2 then split_rounds rounds out.1
            else
              let? out := split_each relocate_excess_within_coarse oversized out.1 false in
              if out.2 then split_rounds rounds out.1 else Ok out.1
      end
  end.

Definition MAX_ROUNDS : nat := 128.

Definition split_oversized_clusters (vi : VectorIndex) : result Z VectorIndex := split_rounds MAX_ROUNDS vi.

(** One cluster of [merge_tiny_clusters]. *)
Definition merge_tiny (vi0 : VectorIndex) (fine_id : Z) : VectorIndex :=
  let l0 := vi_l0 vi0 in
  match coarse_local_from_global l0 fine_id with
  | None => vi0
  | Some (coarse_id, _) =>
      let members := members_at vi0 fine_id in
      let vi := drop_cluster vi0 fine_id in
      match members with
      | [] => vi
      | m :: _ =>
          match vi_l1 vi !! coarse_id with
          | None => vi
          | Some l1 =>
              let sample := member_as_f64 m (l0_dimensions l0) in
              let target_local := default 0
                (head (top_m_centroids (l1_centroids l1) sample (l0_distance_metric l0) 1)) in
              let target_global := global_fine_id l0 coarse_id target_local in
              if target_global =? fine_id then put_cluster vi fine_id members
              else if MAX_CLUSTER_MEMBERS <? lenZ (members_at vi target_global) + lenZ members
              then put_cluster vi fine_id members
              else extend_members vi target_global members
          end
      end
  end.

Definition tiny_ids (vi : VectorIndex) : list Z :=
  (filter (fun e : Z * ClusterSegment =>
     0 < lenZ (cs_members e.2) <= MERGE_CLUSTER_MAX_MEMBERS) (iter_map (vi_clusters vi))).*1.

Definition merge_tiny_clusters (vi : VectorIndex) : VectorIndex := fold_left merge_tiny (tiny_ids vi) vi.

(** The moves [reassign_drifted_members] decides on, cluster by cluster. *)
Definition drift_moves (vi : VectorIndex) (e : Z * ClusterSegment) : list (string * Z) :=
  let l0 := vi_l0 vi in
  match coarse_local_from_global l0 e.1 with
  | None => []
  | Some (coarse_id, current_local) =>
      match vi_l1 vi !! coarse_id with
      | None => []
      | Some l1 =>
          omap (fun m =>
            let v := member_as_f64 m (l0_dimensions l0) in
            let best_local := default current_local
              (head (top_m_centroids (l1_centroids l1) v (l0_distance_metric l0) 1)) in
            if best_local =? current_local then None
            else
              let dest := global_fine_id l0 coarse_id best_local in
              if lenZ (members_at vi dest) <? MAX_CLUSTER_MEMBERS then Some (cm_doc_id m, dest) else None)
            (cs_members e.2)
      end
  end.

(** The first cluster, in iteration order, that holds the document. *)
Fixpoint find_member (doc_id : string) (es : list (Z * ClusterSegment)) : option (Z * nat * ClusterMember) :=
  match es with
  | [] => None
  | (fid, c) :: rest =>
      match list_find (fun m => cm_doc_id m = doc_id) (cs_members c) with
      | Some (pos, m) => Some (fid, pos, m)
      | None => find_member doc_id rest
      end
  end.

Definition move_member (vi : VectorIndex) (mv : string * Z) : VectorIndex :=
  match find_member mv.1 (iter_map (vi_clusters vi)) with
  | None => vi
  | Some (fid, pos, m) =>
      let vi := set_members vi fid (delete pos (members_at vi fid)) in
      extend_members vi mv.2 [m]
  end.

Definition reassign_drifted_members (vi : VectorIndex) : VectorIndex :=
  fold_left move_member (concat (drift_moves vi <$> iter_map (vi_clusters vi))) vi.

Definition refresh_l1 (vi : VectorIndex) (coarse_id : Z) (l1 : CentroidIndexL1) : CentroidIndexL1 :=
  let l0 := vi_l0 vi in
  fold_left (fun l1 local =>
    match members_at vi (global_fine_id l0 coarse_id local) with
    | [] => l1
    | members =>
        match kmeans_centroids (members_as_pairs members (l0_dimensions l0)) 1 (l0_dimensions l0)
                (l0_distance_metric l0) with
        | c :: _ => set_centroid local c l1
        | [] => l1
        end
    end) (range0 (l1_num_fine l1)) l1.

Definition refresh_fine_centroids (vi : VectorIndex) : VectorIndex :=
  set_l1 (map_imap (fun coarse_id l1 => Some (refresh_l1 vi coarse_id l1)) (vi_l1 vi)) vi.

Definition run_incremental_maintenance (vi : VectorIndex) : result Z VectorIndex :=
  if (l0_num_fine_total (vi_l0 vi) =? 0) || match l0_centroids (vi_l0 vi) with [] => true | _ => false end
  then Ok vi
  else
    let vi := set_l0 (set_passes (sat_add32 (l0_maintenance_passes (vi_l0 vi)) 1) (vi_l0 vi)) vi in
    let vi := prune_empty_clusters vi in
    let? vi := split_oversized_clusters vi in
    let vi := merge_tiny_clusters vi in
    let vi := reassign_drifted_members vi in
    let vi := refresh_fine_centroids vi in
    let vi := prune_empty_clusters vi in
    split_oversized_clusters vi.

(** One upsert of [apply_delta]. *)
Definition upsert_vector (vi : VectorIndex) (d : string * Document) : result Z VectorIndex :=
  let vi := remove_doc vi d.1 in
  match extract_vector (doc_attributes d.2) (l0_vector_field (vi_l0 vi)) with
  | None => Ok vi
  | Some vec => if lenZ vec =? l0_dimensions (vi_l0 vi) then assign_doc_to_nearest vi d.1 vec else Ok vi
  end.

Fixpoint upsert_vectors (ups : list (string * Document)) (vi : VectorIndex) : result Z VectorIndex :=
  match ups with
  | [] => Ok vi
  | d :: rest => let? vi := upsert_vector vi d in upsert_vectors rest vi
  end.

Definition vector_apply_delta (vi : VectorIndex) (ups : list (string * Document)) (dels : list string)
  : result Z VectorIndex :=
  if (l0_dimensions (vi_l0 vi) =? 0) || match l0_centroids (vi_l0 vi) with [] => true | _ => false end
  then Ok vi
  else
    let vi := fold_left remove_doc dels vi in
    let? vi := upsert_vectors ups vi in
    run_incremental_maintenance vi.
End Maintain.
