(* ===== verification/VectorSpec.v ===== *)
(** * The vector index loses no document

    The layout invariant of the centroid hierarchy, and the theorems that
    construction and maintenance keep it and keep every member. *)

From Stdlib Require Import ZArith Lia Bool.
From stdpp Require Import base gmap strings list fin_maps.
From S2P Require Import Prelude F64 Json Models Schema Meta Wal VectorEncoding Vector VectorBuild.

(** ** Members *)

Definition members_of (m : gmap Z ClusterSegment) : list ClusterMember :=
  concat ((fun e : Z * ClusterSegment => cs_members e.2) <$> map_to_list m).

Definition all_members (vi : VectorIndex) : list ClusterMember := members_of (vi_clusters vi).

#[export] Instance concat_Permutation {A} : Proper ((≡ₚ) ==> (≡ₚ)) (@concat A).
Proof.
  intros l k H. induction H as [|x l k _ IH|x y l|l k j _ IH1 _ IH2]; cbn; [done|by rewrite IH| |by rewrite IH1].
  by rewrite !app_assoc, (Permutation_app_comm y x).
Qed.

Lemma members_insert (m : gmap Z ClusterSegment) id c :
  m !! id = None -> members_of (<[id := c]> m) ≡ₚ cs_members c ++ members_of m.
Proof. intros Hn. unfold members_of. rewrite map_to_list_insert by done. done. Qed.

Lemma members_split (m : gmap Z ClusterSegment) id :
  members_of m ≡ₚ default [] (cs_members <$> m !! id) ++ members_of (delete id m).
Proof.
  destruct (m !! id) as [c|] eqn:Hc; cbn.
  - rewrite <- (insert_delete_id m id c Hc) at 1. apply members_insert, lookup_delete_eq.
  - by rewrite delete_id.
Qed.

Lemma members_replace (m : gmap Z ClusterSegment) id c :
  members_of (<[id := c]> m) ≡ₚ cs_members c ++ members_of (delete id m).
Proof. rewrite <- insert_delete_eq. apply members_insert, lookup_delete_eq. Qed.

Lemma members_extend seg id ms (m : gmap Z ClusterSegment) :
  members_of (extend_cluster seg id ms m) ≡ₚ ms ++ members_of m.
Proof.
  unfold extend_cluster. rewrite members_replace, (members_split m id). cbn [cs_members].
  destruct (m !! id) as [c|]; cbn; [|done]. rewrite (Permutation_app_comm (cs_members c) ms). by rewrite app_assoc.
Qed.

Lemma members_alter (m : gmap Z ClusterSegment) id ms f :
  is_Some (m !! id) -> (forall c, cs_members (f c) = ms) ->
  members_of (alter f id m) ≡ₚ ms ++ members_of (delete id m).
Proof.
  intros [c Hc] Hf. rewrite (members_split _ id), lookup_alter_eq, Hc. cbn. rewrite Hf.
  assert (delete id (alter f id m) = delete id m) as ->; [|done].
  apply map_eq. intros k. destruct (decide (k = id)) as [->|Hne]; [by rewrite !lookup_delete_eq|].
  by rewrite !lookup_delete_ne, lookup_alter_ne by done.
Qed.

Lemma members_filter_nonempty (m : gmap Z ClusterSegment) :
  members_of (filter (fun e => cs_members e.2 <> []) m) ≡ₚ members_of m.
Proof.
  induction m as [|id c m Hn IH] using map_ind; [done|].
  destruct (decide (cs_members c <> [])) as [Hc|Hc].
  - rewrite map_filter_insert_True by done. rewrite !members_insert; [by rewrite IH|done|].
    apply map_lookup_filter_None. by left.
  - rewrite map_filter_insert_False by done. rewrite (delete_id m id) by done.
    rewrite members_insert by done. apply dec_stable in Hc. by rewrite Hc, IH.
Qed.

(** ** Shifting cluster ids *)

Definition relabel (id : Z) (c : ClusterSegment) : Z * ClusterSegment :=
  (wrap32 (id + 1), mkCluster (cs_segment_id c) (wrap32 (id + 1)) (cs_members c)).

Lemma shift_collect ids (m : gmap Z ClusterSegment) mv :
  NoDup ids ->
  let out := fold_left (fun acc old_id =>
      match acc.1 !! old_id with
      | Some seg =>
          let new_id := wrap32 (old_id + 1) in
          (delete old_id acc.1, acc.2 ++ [(new_id, mkCluster (cs_segment_id seg) new_id (cs_members seg))])
      | None => acc
      end) ids (m, mv) in
  (forall k, out.1 !! k = if decide (k ∈ ids) then None else m !! k) /\
  out.2 = mv ++ omap (fun id => relabel id <$> m !! id) ids /\
  members_of m ≡ₚ concat ((fun e : Z * ClusterSegment => cs_members e.2) <$> omap (fun id => relabel id <$> m !! id) ids)
    ++ members_of out.1.
Proof.
  revert m mv. induction ids as [|id ids IH]; intros m mv Hnd; cbn zeta.
  - cbn. rewrite app_nil_r. split_and!; [|done|done]. intros k. by rewrite decide_False by apply not_elem_of_nil.
  - apply NoDup_cons in Hnd as [Hni Hnd]. cbn [fold_left]. change (fst (m, mv)) with m.
    change (omap (fun i => relabel i <$> m !! i) (id :: ids)) with
      (match relabel id <$> m !! id with
       | Some y => y :: omap (fun i => relabel i <$> m !! i) ids
       | None => omap (fun i => relabel i <$> m !! i) ids
       end).
    destruct (m !! id) as [c|] eqn:Hc; cbn [fst snd].
    + specialize (IH (delete id m) (mv ++ [relabel id c]) Hnd). cbn zeta in IH.
      change (wrap32 (id + 1), mkCluster (cs_segment_id c) (wrap32 (id + 1)) (cs_members c)) with (relabel id c).
      destruct IH as (H1 & H2 & H3).
      assert (omap (fun i => relabel i <$> delete id m !! i) ids = omap (fun i => relabel i <$> m !! i) ids) as He.
      { apply list_omap_ext, Forall2_same_length_lookup_2; [done|]. intros i x y Hx Hy. rewrite Hx in Hy.
        injection Hy as <-. rewrite lookup_delete_ne; [done|]. intros <-. apply Hni. by eapply list_elem_of_lookup_2. }
      rewrite He in H2, H3. split_and!.
      * intros k. rewrite H1. destruct (decide (k ∈ ids)), (decide (k ∈ id :: ids)); try done; try set_solver.
        -- assert (k = id) as -> by set_solver. by rewrite lookup_delete_eq.
        -- rewrite lookup_delete_ne; [done|]. set_solver.
      * rewrite H2. cbn [fmap option_fmap option_map]. by rewrite <- app_assoc.
      * rewrite (members_split m id), Hc. cbn. rewrite <- app_assoc. by rewrite <- H3.
    + specialize (IH m mv Hnd). cbn zeta in IH. destruct IH as (H1 & H2 & H3). split_and!; [|done|done].
      intros k. rewrite H1. destruct (decide (k ∈ ids)), (decide (k ∈ id :: ids)); try done; set_solver.
Qed.

Lemma fold_insert_clusters (l : list (Z * ClusterSegment)) (m : gmap Z ClusterSegment) :
  NoDup l.*1 -> (forall k, k ∈ l.*1 -> m !! k = None) ->
  let out := fold_left (fun cs (e : Z * ClusterSegment) => <[e.1 := e.2]> cs) l m in
  (forall k, k ∉ l.*1 -> out !! k = m !! k) /\
  members_of out ≡ₚ concat ((fun e : Z * ClusterSegment => cs_members e.2) <$> l) ++ members_of m.
Proof.
  revert m. induction l as [|[id c] l IH]; intros m Hnd Hf; [done|]. cbn zeta.
  cbn in Hnd. apply NoDup_cons in Hnd as [Hni Hnd]. cbn [fold_left fst snd].
  destruct (IH (<[id := c]> m) Hnd) as [H1 H2].
  { intros k Hk. rewrite lookup_insert_ne by set_solver. apply Hf. set_solver. }
  split.
  - intros k Hk. rewrite H1 by set_solver. apply lookup_insert_ne. set_solver.
  - cbn zeta in H2. rewrite H2, members_insert by (apply Hf; set_solver). cbn.
    rewrite !app_assoc. by rewrite (Permutation_app_comm (cs_members c)).
Qed.

Lemma shift_spec {IO : IterOrder} pivot (m : gmap Z ClusterSegment) :
  0 <= pivot -> (forall id c, m !! id = Some c -> 0 <= id < 2 ^ 32 - 1) ->
  (forall id, id < pivot -> shift_clusters pivot m !! id = m !! id) /\
  shift_clusters pivot m !! pivot = None /\
  (forall id c, shift_clusters pivot m !! id = Some c ->
     (id < pivot /\ m !! id = Some c) \/ (pivot < id /\ is_Some (m !! (id - 1)))) /\
  members_of (shift_clusters pivot m) ≡ₚ members_of m.
Proof.
  intros Hp Hids. unfold shift_clusters. set (ids := sort_by _ _).
  assert (forall id, id ∈ ids <-> pivot <= id /\ is_Some (m !! id)) as Hin.
  { intros id. unfold ids. rewrite elem_of_sort_by, list_elem_of_filter, elem_of_iter_keys. done. }
  assert (NoDup ids) as Hnd.
  { unfold ids. rewrite sort_by_perm. apply NoDup_filter, iter_map_NoDup_keys. }
  destruct (shift_collect ids m [] Hnd) as (H1 & H2 & H3).
  destruct (fold_left _ ids (m, [])) as [m1 mv]. cbn [fst snd] in *. cbn [app] in H2. rewrite <- H2 in H3.
  assert (forall k, k ∈ mv.*1 -> exists id, k = id + 1 /\ pivot <= id /\ is_Some (m !! id)) as Hmv.
  { intros k. rewrite H2, list_elem_of_fmap. intros (e & -> & (id & Hid & He)%list_elem_of_omap).
    destruct (m !! id) as [c|] eqn:Hc; [|done]. injection He as <-. cbn. apply Hin in Hid as [Hid _].
    exists id. pose proof (Hids id c Hc). rewrite wrap32_id by lia. by rewrite Hc. }
  assert (NoDup mv.*1) as Hndmv.
  { rewrite H2. clear -Hnd Hids. induction Hnd as [|id ids Hni Hnd IH]; cbn; [constructor|].
    destruct (m !! id) as [c|] eqn:Hc; cbn; [|done]. constructor; [|done].
    rewrite list_elem_of_fmap. intros (e & He & (i & Hi & Hie)%list_elem_of_omap).
    destruct (m !! i) as [d|] eqn:Hd; [|done]. injection Hie as <-. cbn in He.
    pose proof (Hids _ _ Hc). pose proof (Hids _ _ Hd). rewrite !wrap32_id in He by lia.
    assert (i = id) as -> by lia. done. }
  destruct (fold_insert_clusters mv m1 Hndmv) as [F1 F2].
  { intros k (id & -> & Hid & Hs)%Hmv. rewrite H1. destruct (decide (id + 1 ∈ ids)) as [|Hni]; [done|].
    destruct (m !! (id + 1)) eqn:E; [|done]. exfalso. apply Hni, Hin. rewrite E. split; [lia|by eexists]. }
  cbn zeta in F1, F2. split_and!.
  - intros id Hlt. rewrite F1.
    + rewrite H1, decide_False; [done|]. rewrite Hin. lia.
    + intros (i & -> & Hi & _)%Hmv. lia.
  - rewrite F1.
    + rewrite H1. destruct (decide (pivot ∈ ids)) as [|Hni]; [done|].
      destruct (m !! pivot) eqn:E; [|done]. exfalso. apply Hni, Hin. rewrite E. split; [lia|by eexists].
    + intros (i & E & Hi & _)%Hmv. lia.
  - intros id c Hc. destruct (decide (id ∈ mv.*1)) as [(i & -> & Hi & Hs)%Hmv|Hni].
    + right. replace (i + 1 - 1) with i by lia. split; [lia|done].
    + rewrite F1, H1 in Hc by done. destruct (decide (id ∈ ids)) as [|Hni']; [done|]. left.
      split; [|done]. destruct (decide (id < pivot)); [done|]. exfalso. apply Hni', Hin. rewrite Hc. split; [lia|by eexists].
  - by rewrite F2, H3.
Qed.

(** ** The layout invariant *)

Record vi_wf (vi : VectorIndex) : Prop := {
  vw_counts : Forall (fun c => 0 <= c <= MAX_FINE_PER_COARSE) (l0_fine_counts (vi_l0 vi));
  vw_coarse : lenZ (l0_fine_counts (vi_l0 vi)) = l0_num_coarse (vi_l0 vi);
  vw_coarse_max : l0_num_coarse (vi_l0 vi) <= MAX_COARSE_CENTROIDS_V3;
  vw_total : l0_num_fine_total (vi_l0 vi) = total (l0_fine_counts (vi_l0 vi));
  vw_l1 : forall n count, l0_fine_counts (vi_l0 vi) !! n = Some count ->
    exists l1, vi_l1 vi !! Z.of_nat n = Some l1 /\ l1_num_fine l1 = count /\ lenZ (l1_centroids l1) = count /\
      l1_global_id_start l1 = total (take n (l0_fine_counts (vi_l0 vi)));
  vw_clusters : forall id c, vi_clusters vi !! id = Some c -> 0 <= id < l0_num_fine_total (vi_l0 vi)
}.

Lemma total_app l k : total (l ++ k) = total l + total k.
Proof. unfold total. rewrite fold_left_app. apply fold_add_acc. Qed.

Lemma total_le counts b : Forall (fun c => 0 <= c <= b) counts -> total counts <= b * lenZ counts.
Proof.
  unfold lenZ. induction 1 as [|c counts Hc _ IH]; [unfold total; cbn; lia|].
  rewrite total_cons. cbn [length]. lia.
Qed.

Lemma total_alter counts n count f :
  counts !! n = Some count -> total (alter f n counts) = total counts + (f count - count).
Proof.
  intros Hn. rewrite <- (take_drop_middle counts n count Hn) at 2.
  pose proof (lookup_lt_Some _ _ _ Hn) as Hl.
  assert (alter f n counts = take n counts ++ f count :: drop (S n) counts) as ->.
  { rewrite <- (take_drop_middle counts n count Hn) at 1.
    rewrite alter_app_r_alt by (rewrite length_take; lia). rewrite length_take, Nat.min_l by lia.
    by rewrite Nat.sub_diag. }
  rewrite !total_app, !total_cons. lia.
Qed.

Section Layout.
Context (vi : VectorIndex) (Hwf : vi_wf vi).

Lemma wf_total_bound : 0 <= l0_num_fine_total (vi_l0 vi) <= 65536.
Proof.
  destruct Hwf as [Hc Hl Hm Ht _ _]. pose proof (total_le _ _ Hc) as Hb. rewrite Ht.
  pose proof (total_nonneg (l0_fine_counts (vi_l0 vi)) ltac:(eapply Forall_impl; [exact Hc|cbn; lia])).
  unfold MAX_FINE_PER_COARSE, MAX_COARSE_CENTROIDS_V3 in *. lia.
Qed.

Lemma wf_counts_nonneg : Forall (fun c => 0 <= c) (l0_fine_counts (vi_l0 vi)).
Proof. eapply Forall_impl; [exact (vw_counts _ Hwf)|]. cbn. lia. Qed.

Lemma wf_l0 : l0_wf (vi_l0 vi).
Proof.
  split; [apply wf_counts_nonneg|]. rewrite <- (vw_total _ Hwf). pose proof wf_total_bound. unfold u32_max. lia.
Qed.

Lemma wf_prefix n count :
  l0_fine_counts (vi_l0 vi) !! n = Some count ->
  0 <= count /\ 0 <= total (take n (l0_fine_counts (vi_l0 vi))) /\
  total (take n (l0_fine_counts (vi_l0 vi))) + count <= l0_num_fine_total (vi_l0 vi).
Proof.
  intros Hn. pose proof (total_take_le _ (S n) wf_counts_nonneg) as Hs.
  rewrite (take_S_r _ _ _ Hn), total_app, total_cons in Hs. change (total []) with 0 in Hs.
  pose proof (total_take_le _ n wf_counts_nonneg). rewrite (vw_total _ Hwf).
  pose proof (vw_counts _ Hwf) as Hc. rewrite Forall_forall in Hc.
  specialize (Hc count ltac:(by eapply list_elem_of_lookup_2)). lia.
Qed.

Lemma wf_global n count local :
  l0_fine_counts (vi_l0 vi) !! n = Some count -> 0 <= local <= count ->
  global_fine_id (vi_l0 vi) (Z.of_nat n) local = total (take n (l0_fine_counts (vi_l0 vi))) + local.
Proof.
  intros Hn Hl. destruct (wf_prefix n count Hn) as (H1 & H2 & H3). pose proof wf_total_bound.
  unfold global_fine_id, global_id_start, sum_u32. rewrite Nat2Z.id.
  fold (total (take n (l0_fine_counts (vi_l0 vi)))).
  rewrite (wrap32_id (total _)) by lia. apply wrap32_id. lia.
Qed.

(** The cell of a fine id. *)
Lemma wf_cell fine_id c l :
  0 <= fine_id -> coarse_local_from_global (vi_l0 vi) fine_id = Some (c, l) ->
  exists n count l1, c = Z.of_nat n /\ l0_fine_counts (vi_l0 vi) !! n = Some count /\ 0 <= l < count /\
    fine_id = total (take n (l0_fine_counts (vi_l0 vi))) + l /\ vi_l1 vi !! c = Some l1 /\
    l1_num_fine l1 = count /\ lenZ (l1_centroids l1) = count.
Proof.
  intros Hf Hc. unfold coarse_local_from_global in Hc. destruct wf_l0 as [Hall Hmax].
  apply coarse_local_loop_inv in Hc as (n & count & -> & Hn & Hl & ->); [|done|lia|lia].
  destruct (vw_l1 _ Hwf n count Hn) as (l1 & H1 & H2 & H3 & _). exists n, count, l1.
  rewrite !Z.add_0_l. split_and!; try done; lia.
Qed.
End Layout.

Lemma top_1_bound cs q metric d :
  0 <= d < lenZ cs -> 0 <= default d (head (top_m_centroids cs q metric 1)) < lenZ cs.
Proof.
  intros Hd. unfold top_m_centroids. destruct cs as [|c cs]; [by unfold lenZ in *; cbn in *|].
  set (ranked := imap _ _). set (s := sort_by _ ranked).
  destruct (take _ s) as [|[i sc] rest] eqn:E; cbn; [lia|].
  assert ((i, sc) ∈ ranked) as Hin.
  { apply (elem_of_sort_by (ranked_cmp Z.compare)). fold s. rewrite <- (take_drop (Z.to_nat (Z.min 1 (lenZ (c :: cs)))) s).
    apply elem_of_app. left. rewrite E. left. }
  apply elem_of_lookup_imap in Hin as (k & x & [= -> ->] & Hk). apply lookup_lt_Some in Hk. unfold lenZ. lia.
Qed.

(** Changing the clusters only, within the range of ids. *)
Lemma wf_set_clusters vi m :
  vi_wf vi -> (forall id c, m !! id = Some c -> 0 <= id < l0_num_fine_total (vi_l0 vi)) ->
  vi_wf (set_clusters m vi).
Proof. intros [H1 H2 H3 H4 H5 H6] Hm. by split. Qed.

Lemma extend_cluster_range seg id ms (m : gmap Z ClusterSegment) b :
  (forall i c, m !! i = Some c -> 0 <= i < b) -> 0 <= id < b ->
  forall i c, extend_cluster seg id ms m !! i = Some c -> 0 <= i < b.
Proof.
  intros Hm Hid i c. unfold extend_cluster. rewrite lookup_insert_Some. intros [[<- _]|[_ Hc]]; [done|eauto].
Qed.

(** ** Adding a fine centroid *)

Lemma fold_alter_lookup {A} (f : A -> A) (l : list Z) (m : gmap Z A) k :
  NoDup l -> fold_left (fun m c => alter f c m) l m !! k = if decide (k ∈ l) then f <$> m !! k else m !! k.
Proof.
  intros Hnd. revert m. induction Hnd as [|c l Hni Hnd IH]; intros m; cbn [fold_left].
  - by rewrite decide_False by apply not_elem_of_nil.
  - rewrite IH. destruct (decide (k ∈ l)) as [Hin|Hn], (decide (k ∈ c :: l)) as [Hin'|Hn']; try set_solver.
    + rewrite lookup_alter_ne; [done|]. set_solver.
    + assert (k = c) as -> by set_solver. by rewrite lookup_alter_eq.
    + rewrite lookup_alter_ne; [done|]. set_solver.
Qed.

Lemma take_alter_le {A} (f : A -> A) (l : list A) n k : (k <= n)%nat -> take k (alter f n l) = take k l.
Proof.
  intros Hk. apply list_eq. intros i. destruct (decide (i < k)%nat) as [Hi|Hi].
  - rewrite !lookup_take_lt by lia. apply list_lookup_alter_ne. lia.
  - by rewrite !lookup_take_ge by lia.
Qed.

Lemma take_alter_gt (f : Z -> Z) (l : list Z) n k x :
  (n < k)%nat -> l !! n = Some x -> total (take k (alter f n l)) = total (take k l) + (f x - x).
Proof.
  intros Hk Hx. assert (take k (alter f n l) = alter f n (take k l)) as ->.
  { apply list_eq. intros i. destruct (decide (i < k)%nat) as [Hi|Hi].
    - rewrite lookup_take_lt by lia. destruct (decide (i = n)) as [->|Hne].
      + rewrite !list_lookup_alter_eq, lookup_take_lt by lia. done.
      + rewrite !list_lookup_alter_ne by lia. by rewrite lookup_take_lt by lia.
    - rewrite lookup_take_ge by lia. symmetry. rewrite list_lookup_alter_ne by lia. by rewrite lookup_take_ge by lia. }
  apply total_alter. by rewrite lookup_take_lt by lia.
Qed.

Section Append.
Context {IO : IterOrder}.

Lemma append_fine_spec vi n count centroid :
  vi_wf vi -> l0_fine_counts (vi_l0 vi) !! n = Some count -> count < MAX_FINE_PER_COARSE ->
  exists vi', append_fine_centroid vi (Z.of_nat n) centroid = Ok (vi', count) /\ vi_wf vi' /\
    l0_fine_counts (vi_l0 vi') !! n = Some (count + 1) /\
    total (take n (l0_fine_counts (vi_l0 vi'))) = total (take n (l0_fine_counts (vi_l0 vi))) /\
    (forall id, id < total (take n (l0_fine_counts (vi_l0 vi))) + count -> vi_clusters vi' !! id = vi_clusters vi !! id) /\
    vi_clusters vi' !! (total (take n (l0_fine_counts (vi_l0 vi))) + count) = None /\
    all_members vi' ≡ₚ all_members vi.
Proof.
  intros Hwf Hn Hc. pose proof (wf_prefix vi Hwf n count Hn) as (P1 & P2 & P3). pose proof (wf_total_bound vi Hwf) as Htb.
  destruct (vw_l1 _ Hwf n count Hn) as (l1 & Hl1 & Hnf & Hlc & Hgs). unfold append_fine_centroid.
  rewrite Hl1. cbn [ok_or result_bind]. rewrite Hnf.
  set (counts := l0_fine_counts (vi_l0 vi)) in *. set (pivot := total (take n counts) + count) in *.
  assert (wrap32 (global_id_start (vi_l0 vi) (Z.of_nat n) + count) = pivot) as ->
    by exact (wf_global vi Hwf n count count Hn ltac:(lia)).
  unfold MAX_FINE_PER_COARSE in Hc. rewrite Nat2Z.id.
  destruct (shift_spec pivot (vi_clusters vi)) as (S1 & S2 & S3 & S4); [lia| |].
  { intros id c Hid. pose proof (vw_clusters _ Hwf id c Hid). lia. }
  assert (alter (fun c => wrap32 (c + 1)) n counts !! n = Some (count + 1)) as Hn'.
  { rewrite list_lookup_alter_eq, Hn. cbn. f_equal. apply wrap32_id. lia. }
  eexists. split; [done|]. split; [|cbn; split_and!; try done; by rewrite take_alter_le].
  assert (total (alter (fun c => wrap32 (c + 1)) n counts) = total counts + 1) as Htot.
  { rewrite (total_alter counts n count _ Hn), wrap32_id by lia. lia. }
  assert (wrap32 (l0_num_fine_total (vi_l0 vi) + 1) = l0_num_fine_total (vi_l0 vi) + 1) as Hw by (apply wrap32_id; lia).
  pose proof (vw_total _ Hwf) as Ht. fold counts in Ht.
  split; cbn [vi_l0 vi_l1 vi_clusters set_fine l0_fine_counts l0_num_coarse l0_num_fine_total].
  - apply Forall_alter; [exact (vw_counts _ Hwf)|]. intros x Hx. rewrite Hn in Hx. injection Hx as <-. intros _.
    unfold MAX_FINE_PER_COARSE. rewrite wrap32_id; lia.
  - unfold lenZ. rewrite length_alter. exact (vw_coarse _ Hwf).
  - exact (vw_coarse_max _ Hwf).
  - rewrite Hw, Htot, Ht. done.
  - intros n' count' Hc'. rewrite fold_alter_lookup by apply NoDup_seqZ.
    pose proof (vw_coarse _ Hwf) as Hlen. fold counts in Hlen. unfold lenZ in Hlen.
    assert (n' < length counts)%nat as Hlt.
    { apply lookup_lt_Some in Hc'. by rewrite length_alter in Hc'. }
    destruct (decide (n' = n)) as [->|Hne].
    + rewrite Hn' in Hc'. injection Hc' as <-. rewrite decide_False by (rewrite elem_of_seqZ; lia).
      rewrite lookup_insert_eq. eexists. split; [done|]. cbn [l1_num_fine l1_centroids l1_global_id_start].
      rewrite take_alter_le by lia. unfold lenZ in *. rewrite length_app. cbn [length].
      rewrite wrap32_id by lia. split_and!; [lia|lia|done].
    + rewrite list_lookup_alter_ne in Hc' by done.
      destruct (vw_l1 _ Hwf n' count' Hc') as (l1' & H1' & H2' & H3' & H4'). fold counts in H4'.
      rewrite lookup_insert_ne by lia. rewrite H1'. destruct (decide (Z.of_nat n' ∈ _)) as [Hin|Hni].
      * apply elem_of_seqZ in Hin. eexists. split; [done|]. cbn. split_and!; [done|done|].
        rewrite (take_alter_gt _ _ _ _ count) by (done || lia). rewrite H4'.
        pose proof (wf_prefix vi Hwf n' count' Hc'). fold counts in H. rewrite !wrap32_id; lia.
      * rewrite elem_of_seqZ in Hni. exists l1'. split_and!; try done. rewrite take_alter_le by lia. done.
  - rewrite Hw. intros id c Hid. destruct (S3 id c Hid) as [[_ Hid']|[Hlt [c' Hc']]].
    + pose proof (vw_clusters _ Hwf id c Hid'). lia.
    + pose proof (vw_clusters _ Hwf _ c' Hc'). lia.
Qed.
End Append.

(** ** Buckets *)

Lemma nearest_centroid_nonneg v cs metric : 0 <= nearest_centroid_id v cs metric.
Proof.
  unfold nearest_centroid_id. generalize (imap pair cs) as l. intros l.
  enough (forall b : Z * f64, 0 <= b.1 -> 0 <= (fold_left (fun best (ic : nat * list f64) =>
    let s := score_vector v ic.2 metric in if f64_gtb s best.2 then (Z.of_nat ic.1, s) else best) l b).1) as H
    by (apply H; done).
  induction l as [|ic l IH]; intros b Hb; cbn [fold_left]; [done|]. apply IH. cbn zeta.
  destruct (f64_gtb _ _); cbn; lia.
Qed.

Lemma assign_nonneg pairs cs metric id x : assign_to_centroids pairs cs metric !! id = Some x -> 0 <= x.
Proof.
  unfold assign_to_centroids.
  enough (forall m : gmap string Z, (forall y, m !! id = Some y -> 0 <= y) ->
    fold_left (fun out (p : Pair) => <[p.1 := nearest_centroid_id p.2 cs metric]> out) pairs m !! id = Some x ->
    0 <= x) as H by (apply H; by intros y ?%lookup_empty_Some).
  induction pairs as [|p pairs IH]; intros m Hm; cbn [fold_left]; [apply Hm|]. apply IH.
  intros y. rewrite lookup_insert_Some. intros [[_ <-]|[_ Hy]]; [apply nearest_centroid_nonneg|eauto].
Qed.

(** Splitting a list by a key with values in a range loses nothing. *)
Lemma partition_range {A} (key : A -> Z) (l : list A) k :
  0 <= k -> (forall x, x ∈ l -> 0 <= key x < k) ->
  concat ((fun i => filter (fun x => key x = i) l) <$> range0 k) ≡ₚ l.
Proof.
  intros Hk. unfold range0. induction l as [|x l IH]; intros Hl.
  { clear Hl. induction (seqZ 0 k); [done|by cbn]. }
  specialize (IH ltac:(intros y Hy; apply Hl; by right)). pose proof (Hl x ltac:(by left)) as Hx.
  assert (seqZ 0 k = seqZ 0 (key x) ++ key x :: seqZ (key x + 1) (k - key x - 1)) as Hsplit.
  { replace k with (key x + (k - key x)) at 1 by lia. rewrite seqZ_app by lia. f_equal.
    rewrite Z.add_0_l. rewrite seqZ_cons by lia. f_equal; f_equal; lia. }
  rewrite Hsplit in IH |- *. rewrite fmap_app, fmap_cons, concat_app in IH |- *. cbn [concat] in IH |- *.
  assert (forall js : list Z, key x ∉ js -> (fun i => filter (fun y => key y = i) (x :: l)) <$> js =
    (fun i => filter (fun y => key y = i) l) <$> js) as Hskip.
  { intros js Hni. apply list_fmap_ext. intros j i Hi. rewrite filter_cons_False; [done|].
    intros <-. apply Hni. by eapply list_elem_of_lookup_2. }
  rewrite !Hskip by (rewrite elem_of_seqZ; lia). rewrite filter_cons_True by lia.
  cbn [app]. rewrite <- Permutation_middle. by rewrite IH.
Qed.

Lemma buckets_perm assign k members :
  1 <= k -> (forall id x, assign !! id = Some x -> 0 <= x) ->
  concat ((fun i => bucket assign (k - 1) i members) <$> range0 k) ≡ₚ members.
Proof.
  intros Hk Ha. unfold bucket.
  apply (partition_range (fun m => Z.min (default 0 (assign !! cm_doc_id m)) (k - 1))); [lia|].
  intros m _. destruct (assign !! cm_doc_id m) as [x|] eqn:E; cbn; [|lia]. pose proof (Ha _ _ E). lia.
Qed.

Lemma buckets2_perm assign members :
  (forall id x, assign !! id = Some x -> 0 <= x) ->
  bucket assign 1 0 members ++ bucket assign 1 1 members ≡ₚ members.
Proof.
  intros Ha. pose proof (buckets_perm assign 2 members ltac:(lia) Ha) as H.
  change (range0 2) with [0; 1] in H. rewrite fmap_cons, fmap_cons, fmap_nil in H. cbn [concat] in H.
  by rewrite app_nil_r in H.
Qed.

(** ** The passes *)

(** An operation keeps the layout and every member. *)
Definition keeps (vi vi' : VectorIndex) : Prop := vi_wf vi' /\ all_members vi' ≡ₚ all_members vi.

Lemma keeps_trans vi vi' vi'' : keeps vi vi' -> keeps vi' vi'' -> keeps vi vi''.
Proof. intros [_ H1] [H2 H3]. split; [done|]. by rewrite H3. Qed.

Lemma keeps_refl vi : vi_wf vi -> keeps vi vi.
Proof. by split. Qed.

Lemma prune_keeps vi : vi_wf vi -> keeps vi (prune_empty_clusters vi).
Proof.
  intros Hwf. split; [|apply members_filter_nonempty]. apply wf_set_clusters; [done|].
  intros id c [Hc _]%map_lookup_filter_Some. by eapply vw_clusters.
Qed.

Lemma extend_members_wf vi fine_id ms :
  vi_wf vi -> 0 <= fine_id < l0_num_fine_total (vi_l0 vi) ->
  vi_wf (extend_members vi fine_id ms) /\ all_members (extend_members vi fine_id ms) ≡ₚ ms ++ all_members vi.
Proof.
  intros Hwf Hid. split; [|apply members_extend]. apply wf_set_clusters; [done|].
  apply extend_cluster_range; [|done]. apply (vw_clusters _ Hwf).
Qed.

Lemma drop_cluster_wf vi fine_id :
  vi_wf vi -> vi_wf (drop_cluster vi fine_id) /\
  all_members vi ≡ₚ members_at vi fine_id ++ all_members (drop_cluster vi fine_id).
Proof.
  intros Hwf. split; [|apply members_split]. apply wf_set_clusters; [done|].
  intros id c [_ Hc]%lookup_delete_Some. by eapply vw_clusters.
Qed.

(** Putting back what was dropped. *)
Lemma put_back_keeps vi fine_id :
  vi_wf vi -> 0 <= fine_id < l0_num_fine_total (vi_l0 vi) ->
  keeps vi (put_cluster (drop_cluster vi fine_id) fine_id (members_at vi fine_id)).
Proof.
  intros Hwf Hid. split.
  - apply (wf_set_clusters (drop_cluster vi fine_id)); [by apply drop_cluster_wf|]. cbn. intros id c.
    rewrite lookup_insert_Some, lookup_delete_Some. intros [[<- _]|[_ [_ Hc]]]; [done|by eapply vw_clusters].
  - unfold all_members, put_cluster. cbn. rewrite members_replace. cbn. rewrite delete_delete_eq.
    symmetry. apply members_split.
Qed.

Lemma set_members_wf vi fine_id ms :
  vi_wf vi -> is_Some (vi_clusters vi !! fine_id) ->
  vi_wf (set_members vi fine_id ms) /\
  all_members (set_members vi fine_id ms) ≡ₚ ms ++ all_members (drop_cluster vi fine_id).
Proof.
  intros Hwf Hs. split; [|by apply members_alter]. apply wf_set_clusters; [done|]. intros id c.
  destruct (decide (id = fine_id)) as [->|Hne].
  - intros _. destruct Hs as [c' Hc']. by eapply vw_clusters.
  - rewrite lookup_alter_ne by done. apply (vw_clusters _ Hwf).
Qed.

Lemma members_at_some vi fine_id : members_at vi fine_id <> [] -> is_Some (vi_clusters vi !! fine_id).
Proof. unfold members_at. destruct (vi_clusters vi !! fine_id); [by eexists|done]. Qed.

Section Passes.
Context {IO : IterOrder} {VL : VectorLib}.

Lemma can_add_bound vi coarse_id :
  can_add_fine_centroid_for_split vi coarse_id = true -> fine_count_of vi coarse_id < MAX_FINE_PER_COARSE.
Proof.
  unfold can_add_fine_centroid_for_split, can_add_fine_centroid, max_fine_per_coarse, MAX_FINE_PER_COARSE_V3,
    MAX_FINE_PER_COARSE. destruct (_ <=? _); [destruct (is_v3 _)|]; intros H; case_bool; lia.
Qed.

Lemma binary_split_keeps fuel vi n count fine_id l local progress :
  vi_wf vi -> l0_fine_counts (vi_l0 vi) !! n = Some count -> 0 <= l < count ->
  fine_id = total (take n (l0_fine_counts (vi_l0 vi))) + l ->
  exists vi' p, binary_split_loop fuel vi (Z.of_nat n) fine_id local progress = Ok (vi', p) /\ keeps vi vi'.
Proof.
  revert vi count fine_id l local progress.
  induction fuel as [|fuel IH]; intros vi count fine_id l local progress Hwf Hn Hl ->; cbn [binary_split_loop];
    [do 2 eexists; split; [done|by apply keeps_refl]|].
  destruct (can_add_fine_centroid_for_split vi (Z.of_nat n)) eqn:Hcan; cbn [negb];
    [|do 2 eexists; split; [done|by apply keeps_refl]].
  apply can_add_bound in Hcan. unfold fine_count_of in Hcan. rewrite Nat2Z.id, Hn in Hcan. cbn in Hcan.
  set (fid := total (take n (l0_fine_counts (vi_l0 vi))) + l). set (members := members_at vi fid).
  destruct (lenZ members <=? MAX_CLUSTER_MEMBERS) eqn:Hsize; case_bool;
    [do 2 eexists; split; [done|by apply keeps_refl]|].
  destruct (kmeans_centroids _ 2 _ _) as [|c0 [|c1 rest]] eqn:Hkm;
    [do 2 eexists; split; [done|by apply keeps_refl]..|].
  set (assign := assign_to_centroids _ _ _).
  pose proof (buckets2_perm assign members (fun id x => assign_nonneg _ _ _ id x)) as Hb.
  set (b0 := bucket assign 1 0 members) in *. set (b1 := bucket assign 1 1 members) in *.
  destruct b0 as [|m0 b0'] eqn:Hb0; [do 2 eexists; split; [done|by apply keeps_refl]|].
  destruct b1 as [|m1 b1'] eqn:Hb1; [do 2 eexists; split; [done|by apply keeps_refl]|].
  rewrite <- Hb0, <- Hb1 in *. clearbody b0 b1. clear Hb0 Hb1.
  destruct (append_fine_spec vi n count c1 Hwf Hn Hcan) as (vi1 & -> & Hwf1 & Hn1 & Ht1 & Hlow & Hfree & Hmem).
  cbn [result_bind].
  pose proof (wf_global vi1 Hwf1 n (count + 1) count Hn1 ltac:(lia)) as Hg. rewrite Ht1 in Hg. rewrite Hg.
  set (pivot := total (take n (l0_fine_counts (vi_l0 vi))) + count) in *.
  set (vi2 := set_l1 _ vi1). set (vi3 := set_clusters _ vi2). set (vi4 := put_cluster vi3 pivot b1).
  assert (keeps vi vi4 /\ vi_l0 vi4 = vi_l0 vi1) as [Hk4 Hl4].
  { split; [|done]. assert (vi_wf vi2) as Hwf2.
    { destruct Hwf1 as [W1 W2 W3 W4 W5 W6]. split; try done. cbn. intros n' count' Hc'.
      destruct (W5 n' count' Hc') as (l1 & L1 & L2 & L3 & L4). destruct (decide (n' = n)) as [->|Hne].
      - rewrite lookup_alter_eq, L1. eexists. split; [done|]. cbn. unfold lenZ. by rewrite length_insert.
      - rewrite lookup_alter_ne by lia. by exists l1. }
    pose proof (wf_prefix vi1 Hwf1 n (count + 1) Hn1) as (_ & P2 & P3). rewrite Ht1 in P2, P3.
    assert (is_Some (vi_clusters vi1 !! fid)) as Hfid.
    { rewrite Hlow by (unfold fid; lia). apply members_at_some. unfold members, MAX_CLUSTER_MEMBERS in Hsize.
      intros E. fold members in E. unfold members in *. rewrite E in Hsize. by cbn in Hsize. }
    split.
    - apply (wf_set_clusters vi3); cbn.
      + apply (wf_set_clusters vi2); [done|]. cbn. intros id c. destruct (decide (id = fid)) as [->|Hne].
        * intros _. unfold fid. lia.
        * rewrite lookup_alter_ne by done. apply (vw_clusters _ Hwf1).
      + intros id c. rewrite lookup_insert_Some. intros [[<- _]|[_ Hc]]; [unfold pivot; lia|].
        destruct (decide (id = fid)) as [->|Hne]; [unfold fid; lia|].
        rewrite lookup_alter_ne in Hc by done. by eapply (vw_clusters _ Hwf1).
    - unfold all_members. cbn. rewrite members_insert.
      + cbn. rewrite (members_alter _ fid b0) by done. rewrite <- Hmem. unfold all_members.
        rewrite (members_split (vi_clusters vi1) fid), Hlow by (unfold fid; lia).
        change (default [] (cs_members <$> vi_clusters vi !! fid)) with members. rewrite <- Hb.
        by rewrite app_assoc, (Permutation_app_comm b1 b0).
      + rewrite lookup_alter_ne; [done|]. unfold pivot, fid. lia. }
  destruct (_ <=? _).
  - destruct (IH vi4 (count + 1) fid l
      (default local (snd <$> coarse_local_from_global (vi_l0 vi4) fid)) true) as (vi' & p & He & Hk).
    + apply Hk4.
    + by rewrite Hl4.
    + lia.
    + rewrite Hl4, Ht1. done.
    + exists vi', p. split; [done|]. by eapply keeps_trans.
  - destruct (IH vi4 (count + 1) pivot count count true) as (vi' & p & He & Hk).
    + apply Hk4.
    + by rewrite Hl4.
    + lia.
    + rewrite Hl4, Ht1. done.
    + exists vi', p. split; [done|]. by eapply keeps_trans.
Qed.

(** What one step of a pass does. *)
Definition step_keeps (f : VectorIndex -> Z -> result Z (VectorIndex * bool)) : Prop :=
  forall vi fine_id, vi_wf vi -> 0 <= fine_id -> exists vi' p, f vi fine_id = Ok (vi', p) /\ keeps vi vi'.

Lemma binary_step : step_keeps try_binary_split_oversized_cluster.
Proof.
  intros vi fine_id Hwf Hf. unfold try_binary_split_oversized_cluster.
  destruct (coarse_local_from_global (vi_l0 vi) fine_id) as [[c l]|] eqn:Hc;
    [|do 2 eexists; split; [done|by apply keeps_refl]].
  destruct (wf_cell vi Hwf fine_id c l Hf Hc) as (n & count & l1 & -> & Hn & Hl & -> & _).
  by eapply binary_split_keeps.
Qed.

(** A fold that adds parts of a list to clusters of the range. *)
Lemma extend_fold (target : Z -> Z) (part : Z -> list ClusterMember) js acc :
  vi_wf acc.1 -> (forall j, 0 <= target j < l0_num_fine_total (vi_l0 acc.1)) ->
  let out := fold_left (fun (acc : VectorIndex * bool) j =>
    match part j with [] => acc | b => (extend_members acc.1 (target j) b, true) end) js acc in
  vi_wf out.1 /\ all_members out.1 ≡ₚ concat (part <$> js) ++ all_members acc.1.
Proof.
  revert acc. induction js as [|j js IH]; intros acc Hwf Ht; [done|]. cbn zeta. cbn [fold_left].
  rewrite fmap_cons. cbn [concat]. destruct (part j) as [|m b] eqn:Hp; [by apply IH|].
  destruct (extend_members_wf acc.1 (target j) (m :: b) Hwf (Ht j)) as [Hwf' Hm].
  destruct (IH (extend_members acc.1 (target j) (m :: b), true)) as [H1 H2]; [done|done|]. split; [done|].
  cbn zeta in H2. rewrite H2. cbn [fst]. rewrite Hm. rewrite !app_assoc.
  by rewrite (Permutation_app_comm (concat _) (m :: b)).
Qed.

Lemma wf_id_bound vi n count l :
  vi_wf vi -> l0_fine_counts (vi_l0 vi) !! n = Some count -> 0 <= l < count ->
  0 <= total (take n (l0_fine_counts (vi_l0 vi))) + l < l0_num_fine_total (vi_l0 vi).
Proof. intros Hwf Hn Hl. pose proof (wf_prefix vi Hwf n count Hn). lia. Qed.

Lemma multishard_step : step_keeps try_multishard_oversized_cluster.
Proof.
  intros vi fine_id Hwf Hf. unfold try_multishard_oversized_cluster.
  destruct (coarse_local_from_global (vi_l0 vi) fine_id) as [[c l]|] eqn:Hc;
    [|do 2 eexists; split; [done|by apply keeps_refl]].
  destruct (wf_cell vi Hwf fine_id c l Hf Hc) as (n & count & l1 & -> & Hn & Hl & -> & Hl1 & Hnf & Hlc).
  pose proof (wf_id_bound vi n count l Hwf Hn Hl) as Hid. set (fid := _ + l) in *.
  destruct (drop_cluster_wf vi fid Hwf) as [Hwfd Hmd].
  destruct (lenZ (members_at vi fid) <=? MAX_CLUSTER_MEMBERS) eqn:Hs; case_bool.
  { do 2 eexists. split; [done|]. pose proof (put_back_keeps vi fid Hwf Hid) as Hp.
    destruct (members_at vi fid) eqn:E; [|done]. split; [done|]. by rewrite Hmd. }
  change (vi_l1 (drop_cluster vi fid)) with (vi_l1 vi). rewrite Hl1, Hnf. rewrite (Z.max_l count 1) by lia.
  set (members := members_at vi fid) in *. set (k := Z.min _ (lenZ members)).
  assert (1 <= k <= count) as Hk by (unfold k, MAX_CLUSTER_MEMBERS in *; lia).
  destruct (kmeans_centroids _ k _ _) as [|c0 cs] eqn:Hkm.
  { do 2 eexists. split; [done|]. by apply put_back_keeps. }
  set (assign := assign_to_centroids _ _ _).
  destruct (extend_fold (fun j => global_fine_id (vi_l0 vi) (Z.of_nat n) (j mod count))
    (fun j => bucket assign (k - 1) j members) (range0 k) (drop_cluster vi fid, false)) as [H1 H2]; [done| |].
  { intros j. cbn. pose proof (Z.mod_pos_bound j count ltac:(lia)).
    rewrite (wf_global vi Hwf n count _ Hn) by lia. by apply (wf_id_bound vi n count). }
  cbn zeta in H1, H2. destruct (fold_left _ (range0 k) _) as [vi' p]. cbn [fst] in *.
  do 2 eexists. split; [done|]. split; [done|]. rewrite H2, Hmd.
  by rewrite (buckets_perm assign k members ltac:(lia) (fun id x => assign_nonneg _ _ _ id x)).
Qed.

Lemma least_loaded_bound vi c src nf local :
  least_loaded vi c src nf = Some local -> 0 <= local < nf /\ global_fine_id (vi_l0 vi) c local <> src.
Proof.
  unfold least_loaded.
  enough (forall js (b : option Z * Z), (forall j, j ∈ js -> 0 <= j < nf) ->
    (forall x, b.1 = Some x -> 0 <= x < nf /\ global_fine_id (vi_l0 vi) c x <> src) ->
    forall x, (fold_left (fun (best : option Z * Z) local =>
     let global := global_fine_id (vi_l0 vi) c local in
     if global =? src then best
     else
       let load := lenZ (members_at vi global) in
       if load <? best.2 then (Some local, load) else best) js b).1 = Some x ->
     0 <= x < nf /\ global_fine_id (vi_l0 vi) c x <> src) as H.
  { apply H; [|done]. intros j. unfold range0. rewrite elem_of_seqZ. lia. }
  induction js as [|j js IH]; intros b Hj Hb; cbn [fold_left]; [done|]. apply IH; [intros; apply Hj; by right|].
  cbn zeta. destruct (_ =? src) eqn:E; case_bool; [done|]. destruct (_ <? _); [|done].
  intros x [=<-]. split; [apply Hj; by left|done].
Qed.

Lemma relocate_step : step_keeps relocate_excess_within_coarse.
Proof.
  intros vi fine_id Hwf Hf. unfold relocate_excess_within_coarse.
  destruct (coarse_local_from_global (vi_l0 vi) fine_id) as [[c l]|] eqn:Hc;
    [|do 2 eexists; split; [done|by apply keeps_refl]].
  destruct (wf_cell vi Hwf fine_id c l Hf Hc) as (n & count & l1 & -> & Hn & Hl & -> & Hl1 & Hnf & Hlc).
  set (fid := _ + l) in *.
  destruct (_ =? 0) eqn:He; case_bool; [do 2 eexists; split; [done|by apply keeps_refl]|].
  rewrite Hl1. destruct (least_loaded _ _ _ _) as [t|] eqn:Ht; [|do 2 eexists; split; [done|by apply keeps_refl]].
  apply least_loaded_bound in Ht as [Ht _]. rewrite Hnf in Ht.
  set (scored := sort_by _ _). set (i := Z.to_nat _). do 2 eexists. split; [done|].
  assert (is_Some (vi_clusters vi !! fid)) as Hsome.
  { apply members_at_some. intros E. rewrite E in He. by cbn in He. }
  destruct (set_members_wf vi fid (drop i scored).*2 Hwf Hsome) as [W1 M1].
  destruct (extend_members_wf (set_members vi fid (drop i scored).*2)
    (global_fine_id (vi_l0 vi) (Z.of_nat n) t) (take i scored).*2 W1) as [W2 M2].
  { rewrite (wf_global vi Hwf n count t Hn) by lia. by apply (wf_id_bound vi n count). }
  split; [done|]. rewrite M2, M1, app_assoc, <- fmap_app, take_drop.
  assert (scored.*2 ≡ₚ members_at vi fid) as ->.
  { unfold scored. rewrite sort_by_perm, <- list_fmap_compose. unfold compose. cbn. by rewrite list_fmap_id. }
  symmetry. by apply drop_cluster_wf.
Qed.

Lemma split_each_keeps f ids vi p :
  step_keeps f -> vi_wf vi -> Forall (fun id => 0 <= id) ids ->
  exists vi' p', split_each f ids vi p = Ok (vi', p') /\ keeps vi vi'.
Proof.
  intros Hf Hwf Hids. revert vi p Hwf. induction Hids as [|id ids Hid _ IH]; intros vi p Hwf; cbn.
  { do 2 eexists. split; [done|by apply keeps_refl]. }
  destruct (Hf vi id Hwf Hid) as (vi1 & p1 & -> & Hk1). cbn.
  destruct (IH vi1 (p1 || p) (proj1 Hk1)) as (vi2 & p2 & -> & Hk2).
  do 2 eexists. split; [done|by eapply keeps_trans].
Qed.

Lemma ids_nonneg vi P `{forall e, Decision (P e)} :
  vi_wf vi -> Forall (fun id => 0 <= id) (filter P (iter_map (vi_clusters vi))).*1.
Proof.
  intros Hwf. apply Forall_forall. intros id ([i c] & -> & [_ Hin]%list_elem_of_filter)%list_elem_of_fmap.
  apply iter_map_elem in Hin. cbn. apply (vw_clusters _ Hwf) in Hin. lia.
Qed.

Lemma split_rounds_keeps rounds vi :
  vi_wf vi -> exists vi', split_rounds rounds vi = Ok vi' /\ keeps vi vi'.
Proof.
  revert vi. induction rounds as [|rounds IH]; intros vi Hwf; cbn [split_rounds].
  { eexists. split; [done|by apply keeps_refl]. }
  pose proof (ids_nonneg vi (fun e => MAX_CLUSTER_MEMBERS < lenZ (cs_members e.2)) Hwf) as Hids.
  fold (oversized_ids vi) in Hids. destruct (oversized_ids vi) as [|i ids]; [eexists; split; [done|by apply keeps_refl]|].
  destruct (split_each_keeps _ (i :: ids) vi false binary_step Hwf Hids) as (vi1 & p1 & -> & K1). cbn [result_bind fst snd].
  assert (forall w, keeps vi w -> exists vi', split_rounds rounds w = Ok vi' /\ keeps vi vi') as Hgo.
  { intros w Hw. destruct (IH w (proj1 Hw)) as (vi' & H1 & H2). exists vi'. split; [done|by eapply keeps_trans]. }
  destruct p1; [by apply Hgo|].
  destruct (split_each_keeps _ (i :: ids) vi1 false multishard_step (proj1 K1) Hids) as (vi2 & p2 & -> & K2).
  cbn [result_bind fst snd]. assert (keeps vi vi2) by (by eapply keeps_trans). destruct p2; [by apply Hgo|].
  destruct (split_each_keeps _ (i :: ids) vi2 false relocate_step (proj1 K2) Hids) as (vi3 & p3 & -> & K3).
  cbn [result_bind fst snd]. assert (keeps vi vi3) by (by eapply keeps_trans).
  destruct p3; [by apply Hgo|]. by exists vi3.
Qed.

Lemma merge_tiny_keeps vi fine_id : vi_wf vi -> 0 <= fine_id -> keeps vi (merge_tiny vi fine_id).
Proof.
  intros Hwf Hf. unfold merge_tiny.
  destruct (coarse_local_from_global (vi_l0 vi) fine_id) as [[c l]|] eqn:Hc; [|by apply keeps_refl].
  destruct (wf_cell vi Hwf fine_id c l Hf Hc) as (n & count & l1 & -> & Hn & Hl & -> & Hl1 & Hnf & Hlc).
  pose proof (wf_id_bound vi n count l Hwf Hn Hl) as Hid. set (fid := _ + l) in *.
  destruct (drop_cluster_wf vi fid Hwf) as [Hwfd Hmd].
  pose proof (put_back_keeps vi fid Hwf Hid) as Hput.
  destruct (members_at vi fid) as [|m ms] eqn:Hm; [split; [done|by rewrite Hmd]|].
  change (vi_l1 (drop_cluster vi fid)) with (vi_l1 vi). rewrite Hl1.
  destruct (_ =? _); [done|]. destruct (_ <? _); [done|].
  set (t := default 0 _). assert (0 <= t < count) as Ht by (rewrite <- Hlc; apply top_1_bound; lia).
  destruct (extend_members_wf (drop_cluster vi fid) (global_fine_id (vi_l0 vi) (Z.of_nat n) t) (m :: ms) Hwfd)
    as [W M].
  { cbn. rewrite (wf_global vi Hwf n count t Hn) by lia. by apply (wf_id_bound vi n count). }
  split; [done|]. by rewrite M, Hmd.
Qed.

Lemma find_member_some doc_id es fid pos m :
  find_member doc_id es = Some (fid, pos, m) ->
  exists c, (fid, c) ∈ es /\ cs_members c !! pos = Some m /\ cm_doc_id m = doc_id.
Proof.
  induction es as [|[i c] es IH]; cbn; [done|].
  destruct (list_find _ (cs_members c)) as [[p x]|] eqn:Hl.
  - intros [=<- <- <-]. apply list_find_Some in Hl as (H1 & H2 & _). exists c. split; [by left|done].
  - intros H. destruct (IH H) as (d & Hin & Hrest). exists d. split; [by right|done].
Qed.

Lemma move_member_keeps vi mv :
  vi_wf vi -> 0 <= mv.2 < l0_num_fine_total (vi_l0 vi) ->
  keeps vi (move_member vi mv) /\ vi_l0 (move_member vi mv) = vi_l0 vi.
Proof.
  intros Hwf Hd. unfold move_member. destruct (find_member mv.1 _) as [[[fid pos] m]|] eqn:Hf;
    [|by split; [apply keeps_refl|]].
  apply find_member_some in Hf as (c & Hc%iter_map_elem & Hpos & _).
  assert (members_at vi fid = cs_members c) as Hat by (unfold members_at; by rewrite Hc).
  destruct (set_members_wf vi fid (delete pos (members_at vi fid)) Hwf ltac:(by rewrite Hc)) as [W1 M1].
  destruct (extend_members_wf _ mv.2 [m] W1 Hd) as [W2 M2]. split; [|done]. split; [done|].
  rewrite M2, M1. destruct (drop_cluster_wf vi fid Hwf) as [_ Hsplit]. rewrite Hsplit, Hat.
  cbn [app]. rewrite app_comm_cons. by rewrite <- (delete_Permutation (cs_members c) pos m Hpos).
Qed.

Lemma drift_moves_range vi e mv :
  vi_wf vi -> vi_clusters vi !! e.1 = Some e.2 -> mv ∈ drift_moves vi e -> 0 <= mv.2 < l0_num_fine_total (vi_l0 vi).
Proof.
  intros Hwf He. unfold drift_moves. pose proof (vw_clusters _ Hwf _ _ He) as Hid.
  destruct (coarse_local_from_global (vi_l0 vi) e.1) as [[c l]|] eqn:Hc; [|by intros ?%not_elem_of_nil].
  destruct (wf_cell vi Hwf e.1 c l ltac:(lia) Hc) as (n & count & l1 & -> & Hn & Hl & _ & Hl1 & Hnf & Hlc).
  rewrite Hl1. intros (m & _ & Hm)%list_elem_of_omap. destruct (_ =? l); [done|].
  destruct (_ <? _); [|done]. injection Hm as <-. cbn.
  set (t := default l _). assert (0 <= t < count) as Ht by (rewrite <- Hlc; apply top_1_bound; lia).
  rewrite (wf_global vi Hwf n count t Hn) by lia. by apply (wf_id_bound vi n count).
Qed.

Lemma reassign_keeps vi : vi_wf vi -> keeps vi (reassign_drifted_members vi).
Proof.
  intros Hwf. unfold reassign_drifted_members.
  assert (Forall (fun mv : string * Z => 0 <= mv.2 < l0_num_fine_total (vi_l0 vi))
    (concat (drift_moves vi <$> iter_map (vi_clusters vi)))) as Hall.
  { apply Forall_concat, Forall_fmap, Forall_forall. intros [i c] He%iter_map_elem.
    apply Forall_forall. intros mv Hmv. by eapply (drift_moves_range vi (i, c)). }
  revert Hall. generalize (concat (drift_moves vi <$> iter_map (vi_clusters vi))) as mvs. intros mvs Hall.
  enough (forall w, keeps vi w -> vi_l0 w = vi_l0 vi -> keeps vi (fold_left move_member mvs w)) as H
    by (by apply H; [apply keeps_refl|]).
  induction Hall as [|mv mvs Hmv _ IH]; intros w Hw Hl; cbn [fold_left]; [done|].
  destruct (move_member_keeps w mv (proj1 Hw) ltac:(by rewrite Hl)) as [K L].
  apply IH; [by eapply keeps_trans|by rewrite L].
Qed.

Lemma refresh_l1_shape vi coarse_id l1 :
  let l1' := refresh_l1 vi coarse_id l1 in
  l1_num_fine l1' = l1_num_fine l1 /\ lenZ (l1_centroids l1') = lenZ (l1_centroids l1) /\
  l1_global_id_start l1' = l1_global_id_start l1.
Proof.
  unfold refresh_l1. generalize (range0 (l1_num_fine l1)) as js. intros js. revert l1.
  induction js as [|j js IH]; intros l1; [done|]. cbn zeta. cbn [fold_left].
  destruct (IH (match members_at vi (global_fine_id (vi_l0 vi) coarse_id j) with
    | [] => l1
    | members =>
        match kmeans_centroids (members_as_pairs members (l0_dimensions (vi_l0 vi))) 1 (l0_dimensions (vi_l0 vi))
                (l0_distance_metric (vi_l0 vi)) with
        | c :: _ => set_centroid j c l1
        | [] => l1
        end
    end)) as (H1 & H2 & H3). cbn zeta in *. rewrite H1, H2, H3.
  destruct (members_at _ _); [done|]. destruct (kmeans_centroids _ _ _ _); [done|]. cbn.
  unfold lenZ. by rewrite length_insert.
Qed.

Lemma refresh_keeps vi : vi_wf vi -> keeps vi (refresh_fine_centroids vi).
Proof.
  intros [W1 W2 W3 W4 W5 W6]. split; [|done]. split; try done. cbn. intros n count Hn.
  destruct (W5 n count Hn) as (l1 & L1 & L2 & L3 & L4). rewrite map_lookup_imap, L1. cbn.
  eexists. split; [done|]. destruct (refresh_l1_shape vi (Z.of_nat n) l1) as (-> & -> & ->). done.
Qed.

Lemma merge_keeps vi : vi_wf vi -> keeps vi (merge_tiny_clusters vi).
Proof.
  intros Hwf. unfold merge_tiny_clusters.
  pose proof (ids_nonneg vi (fun e => 0 < lenZ (cs_members e.2) <= MERGE_CLUSTER_MAX_MEMBERS) Hwf) as Hids.
  fold (tiny_ids vi) in Hids. revert Hids. generalize (tiny_ids vi) as ids. intros ids Hids.
  enough (forall w, keeps vi w -> keeps vi (fold_left merge_tiny ids w)) as H by (by apply H, keeps_refl).
  induction Hids as [|id ids Hid _ IH]; intros w Hw; cbn [fold_left]; [done|].
  apply IH. eapply keeps_trans; [exact Hw|]. apply merge_tiny_keeps; [apply Hw|done].
Qed.

Lemma maintenance_ok vi :
  vi_wf vi -> exists vi', run_incremental_maintenance vi = Ok vi' /\ keeps vi vi'.
Proof.
  intros Hwf. unfold run_incremental_maintenance. destruct (_ || _); [eexists; split; [done|by apply keeps_refl]|].
  set (v1 := set_l0 _ vi). assert (keeps vi v1) as K1 by (split; [|done]; by destruct Hwf; split).
  pose proof (prune_keeps v1 (proj1 K1)) as K2.
  destruct (split_rounds_keeps MAX_ROUNDS _ (proj1 K2)) as (v3 & E3 & K3). unfold split_oversized_clusters.
  rewrite E3. cbn [result_bind].
  pose proof (merge_keeps v3 (proj1 K3)) as K4. pose proof (reassign_keeps _ (proj1 K4)) as K5.
  pose proof (refresh_keeps _ (proj1 K5)) as K6. pose proof (prune_keeps _ (proj1 K6)) as K7.
  destruct (split_rounds_keeps MAX_ROUNDS _ (proj1 K7)) as (v8 & E8 & K8).
  exists v8. split; [done|].
  exact (keeps_trans _ _ _ K1 (keeps_trans _ _ _ K2 (keeps_trans _ _ _ K3 (keeps_trans _ _ _ K4 (keeps_trans _ _ _ K5 (keeps_trans _ _ _ K6 (keeps_trans _ _ _ K7 K8))))))).
Qed.

(** ** Deltas *)

(** Every coarse cell has a fine centroid to assign to. *)
Definition populated (vi : VectorIndex) : Prop :=
  Forall (fun c => 1 <= c) (l0_fine_counts (vi_l0 vi)) /\ 1 <= lenZ (l0_centroids (vi_l0 vi)) <= l0_num_coarse (vi_l0 vi).

(** The member an upserted document becomes. *)
Definition new_member (l0 : CentroidIndexL0) (d : string * Document) : list ClusterMember :=
  match extract_vector (doc_attributes d.2) (l0_vector_field l0) with
  | Some vec => if lenZ vec =? l0_dimensions l0 then [from_values d.1 vec (l0_vector_element l0)] else []
  | None => []
  end.

Definition without (id : string) (ms : list ClusterMember) : list ClusterMember :=
  filter (fun m => cm_doc_id m <> id) ms.

(** The reference: deletes, then each upsert replaces the document's member. *)
Definition delta_members (l0 : CentroidIndexL0) (ups : list (string * Document)) (dels : list string)
    (ms : list ClusterMember) : list ClusterMember :=
  fold_left (fun ms d => new_member l0 d ++ without d.1 ms) ups (fold_left (fun ms id => without id ms) dels ms).

#[export] Instance without_Permutation id : Proper ((≡ₚ) ==> (≡ₚ)) (without id).
Proof. intros l k H. unfold without. by rewrite H. Qed.

Lemma remove_doc_spec vi id :
  vi_wf vi -> vi_wf (remove_doc vi id) /\ all_members (remove_doc vi id) ≡ₚ without id (all_members vi) /\
  vi_l0 (remove_doc vi id) = vi_l0 vi.
Proof.
  intros Hwf. split_and!; [| |done].
  - apply wf_set_clusters; [done|]. intros i c. rewrite lookup_fmap_Some. intros (c' & _ & Hc).
    by eapply vw_clusters.
  - unfold all_members, remove_doc. cbn. generalize (vi_clusters vi) as m. intros m.
    unfold members_of. rewrite map_to_list_fmap, <- list_fmap_compose. unfold without.
    generalize (map_to_list m) as l. intros l. induction l as [|e l IH]; [done|]. cbn.
    rewrite filter_app. unfold prod_map. cbn. by rewrite IH.
Qed.

Lemma upsert_vector_spec vi d :
  vi_wf vi -> populated vi ->
  exists vi', upsert_vector vi d = Ok vi' /\ vi_wf vi' /\ vi_l0 vi' = vi_l0 vi /\
    all_members vi' ≡ₚ new_member (vi_l0 vi) d ++ without d.1 (all_members vi).
Proof.
  intros Hwf [Hpop Hcent]. unfold upsert_vector, new_member.
  destruct (remove_doc_spec vi d.1 Hwf) as (W1 & M1 & L1). rewrite L1.
  destruct (extract_vector _ _) as [vec|]; [|eexists; by split_and!].
  destruct (lenZ vec =? _); [|eexists; by split_and!].
  unfold assign_doc_to_nearest. rewrite L1. set (c := default 0 (head (nearest_coarse (vi_l0 vi) vec 1))).
  assert (0 <= c < lenZ (l0_centroids (vi_l0 vi))) as Hc by (apply top_1_bound; lia).
  pose proof (vw_coarse _ Hwf) as Hlen.
  destruct (lookup_lt_is_Some_2 (l0_fine_counts (vi_l0 vi)) (Z.to_nat c)) as [count Hn]; [unfold lenZ in *; lia|].
  destruct (vw_l1 _ Hwf _ _ Hn) as (l1 & Hl1 & Hnf & Hlc & _). rewrite Z2Nat.id in Hl1 by lia.
  change (vi_l1 (remove_doc vi d.1)) with (vi_l1 vi). rewrite Hl1. cbn [ok_or result_bind].
  assert (1 <= count) as H1 by (rewrite Forall_forall in Hpop; apply Hpop; by eapply list_elem_of_lookup_2).
  set (t := default 0 _). assert (0 <= t < count) as Ht by (rewrite <- Hlc; apply top_1_bound; lia).
  eexists. split; [done|]. rewrite <- L1 in *.
  destruct (extend_members_wf (remove_doc vi d.1) (global_fine_id (vi_l0 vi) c t)
    [from_values d.1 vec (l0_vector_element (vi_l0 vi))] W1) as [W2 M2].
  { rewrite L1. rewrite <- (Z2Nat.id c) by lia. rewrite (wf_global vi Hwf _ count t Hn) by lia.
    by apply (wf_id_bound vi _ count). }
  split_and!; [exact W2|done|]. etransitivity; [exact M2|]. by rewrite M1.
Qed.

Lemma upsert_vectors_spec ups vi :
  vi_wf vi -> populated vi ->
  exists vi', upsert_vectors ups vi = Ok vi' /\ vi_wf vi' /\ vi_l0 vi' = vi_l0 vi /\
    all_members vi' ≡ₚ fold_left (fun ms d => new_member (vi_l0 vi) d ++ without d.1 ms) ups (all_members vi).
Proof.
  intros Hwf Hpop. assert (forall vi0 ms, vi_l0 vi0 = vi_l0 vi -> vi_wf vi0 -> all_members vi0 ≡ₚ ms ->
    exists vi', upsert_vectors ups vi0 = Ok vi' /\ vi_wf vi' /\ vi_l0 vi' = vi_l0 vi /\
    all_members vi' ≡ₚ fold_left (fun ms d => new_member (vi_l0 vi) d ++ without d.1 ms) ups ms) as H; [|by apply H].
  induction ups as [|d ups IH]; intros vi0 ms L W M; cbn; [by eexists|].
  assert (populated vi0) as P by (unfold populated; by rewrite L).
  destruct (upsert_vector_spec vi0 d W P) as (vi1 & -> & W1 & L1 & M1). cbn.
  apply IH; [by rewrite L1|done|]. rewrite M1, L. by rewrite M.
Qed.

Lemma deletes_spec dels vi :
  vi_wf vi -> vi_wf (fold_left remove_doc dels vi) /\ vi_l0 (fold_left remove_doc dels vi) = vi_l0 vi /\
  all_members (fold_left remove_doc dels vi) ≡ₚ fold_left (fun ms id => without id ms) dels (all_members vi).
Proof.
  assert (forall vi0 ms, vi_wf vi0 -> all_members vi0 ≡ₚ ms ->
    vi_wf (fold_left remove_doc dels vi0) /\ vi_l0 (fold_left remove_doc dels vi0) = vi_l0 vi0 /\
    all_members (fold_left remove_doc dels vi0) ≡ₚ fold_left (fun ms id => without id ms) dels ms) as H;
    [|intros W; by apply H].
  induction dels as [|id dels IH]; intros vi0 ms W M; cbn [fold_left]; [done|].
  destruct (remove_doc_spec vi0 id W) as (W1 & M1 & L1).
  destruct (IH (remove_doc vi0 id) (without id ms) W1) as (H1 & H2 & H3); [by rewrite M1, M|]. by rewrite H2.
Qed.
End Passes.

(** ** Construction *)

Lemma clampZ_bounds x lo hi : lo <= hi -> lo <= clampZ x lo hi <= hi.
Proof. intros H. unfold clampZ. destruct (x <? lo) eqn:E, (hi <? x) eqn:E'; case_bool; lia. Qed.

Lemma num_fine_bounds n v : 0 <= n ->
  0 <= num_fine_for_version n v <= n /\ num_fine_for_version n v <= MAX_FINE_PER_COARSE /\
  (1 <= n -> 1 <= num_fine_for_version n v) /\
  (ANN_VERSION_V3 <= v -> num_fine_for_version n v <= MAX_FINE_PER_COARSE_V3).
Proof.
  intros Hn. unfold num_fine_for_version, num_fine_v3, num_fine_v2, MAX_FINE_PER_COARSE, MAX_FINE_PER_COARSE_V3.
  destruct (n =? 0) eqn:E; case_bool; [lia|]. pose proof (clampZ_bounds (sqrt_ceil n) 1 n ltac:(lia)).
  destruct (ANN_VERSION_V3 <=? v) eqn:Ev; case_bool; lia.
Qed.

Lemma shrink_coarse_bounds fuel n k : 8 <= k -> 8 <= shrink_coarse fuel n k <= k.
Proof.
  revert k. induction fuel as [|fuel IH]; intros k Hk; cbn [shrink_coarse]; [lia|].
  destruct ((8 <? k) && _) eqn:E; [|lia]. apply andb_true_iff in E as [E _]. case_bool.
  specialize (IH (k - 1)). lia.
Qed.

Lemma num_coarse_bounds n v : 1 <= n -> 1 <= num_coarse_for_version n v <= MAX_COARSE_CENTROIDS_V3.
Proof.
  intros Hn. unfold num_coarse_for_version, num_coarse_v3, num_coarse_v2, MAX_COARSE_CENTROIDS, MAX_COARSE_CENTROIDS_V3.
  destruct (n =? 0) eqn:E; case_bool; [lia|].
  destruct (ANN_VERSION_V3 <=? v), (n <=? 32) eqn:E2; case_bool; try lia.
  - pose proof (clampZ_bounds (Z.max (n / V3_TARGET_DOCS_PER_COARSE) 8) 8 n ltac:(lia)).
    match goal with |- context [shrink_coarse ?f n ?k] => pose proof (shrink_coarse_bounds f n k ltac:(lia)) end. lia.
  - pose proof (clampZ_bounds (Z.max (sqrt_ceil n / 4) 4) 1 n ltac:(lia)). lia.
Qed.

Lemma add_center_length pairs metric st : length (add_center pairs metric st).2 = S (length st.2).
Proof.
  destruct st as [rng cs]. unfold add_center. destruct (f64_leb _ _).
  - cbn. rewrite length_app. cbn. lia.
  - destruct (xs_unit_interval rng). cbn. rewrite length_app. cbn. lia.
Qed.

Lemma kmeans_length pairs k dim metric :
  1 <= k -> lenZ (kmeans_centroids pairs k dim metric) = Z.min k (lenZ pairs).
Proof.
  intros Hk. unfold kmeans_centroids. destruct (lenZ pairs =? 0) eqn:E; case_bool; [unfold lenZ in *; cbn; lia|].
  destruct (lenZ pairs <=? k) eqn:E2; case_bool; [unfold lenZ in *; rewrite length_fmap; lia|].
  assert (length (kmeans_plus_plus_init pairs k metric) = Z.to_nat k) as Hinit.
  { unfold kmeans_plus_plus_init. destruct (xs_index _ _) as [rng first].
    assert (forall j, length (Nat.iter j (add_center pairs metric) (rng, [vec_at pairs first])).2 = S j) as H.
    { induction j as [|j IH]; [done|].
      rewrite Nat.iter_succ. by rewrite add_center_length, IH. }
    rewrite H. lia. }
  assert (forall j cs, length cs = Z.to_nat k -> length (Nat.iter j (lloyd_step pairs k dim metric) cs) = Z.to_nat k) as H.
  { induction j as [|j IH]; intros cs Hcs; [done|]. rewrite Nat.iter_succ.
    specialize (IH cs Hcs). revert IH. generalize (Nat.iter j (lloyd_step pairs k dim metric) cs). intros cs' IH.
    unfold lloyd_step. rewrite length_zip_with, IH.
    match goal with |- context [length (fold_left ?f pairs ?s0)] =>
      assert (forall l s, length (fold_left f l s) = length s) as ->; [|rewrite length_replicate; lia] end.
    induction l as [|p l IHl]; intros s; [done|]. cbn [fold_left]. by rewrite IHl, length_alter. }
  unfold lenZ. rewrite H by done. unfold lenZ in *. lia.
Qed.

Lemma nearest_centroid_bound v cs metric : nearest_centroid_id v cs metric < Z.max (lenZ cs) 1.
Proof.
  unfold nearest_centroid_id.
  enough (forall l (b : Z * f64), (forall ic, ic ∈ l -> Z.of_nat ic.1 < lenZ cs) -> b.1 < Z.max (lenZ cs) 1 ->
    (fold_left (fun best (ic : nat * list f64) =>
      let s := score_vector v ic.2 metric in if f64_gtb s best.2 then (Z.of_nat ic.1, s) else best) l b).1
      < Z.max (lenZ cs) 1) as H.
  { apply H; [|cbn; lia]. intros [i c] (k & x & [= -> ->] & Hk)%elem_of_lookup_imap. apply lookup_lt_Some in Hk.
    unfold lenZ. cbn. lia. }
  induction l as [|ic l IH]; intros b Hl Hb; cbn [fold_left]; [done|].
  apply IH; [intros x Hx; apply Hl; by right|]. cbn zeta.
  specialize (Hl ic ltac:(by left)). destruct (f64_gtb _ _); cbn; lia.
Qed.

Lemma assign_bound pairs cs metric id :
  0 <= default 0 (assign_to_centroids pairs cs metric !! id) < Z.max (lenZ cs) 1.
Proof.
  destruct (assign_to_centroids pairs cs metric !! id) as [x|] eqn:E; cbn; [|lia].
  split; [by eapply assign_nonneg|]. revert E. unfold assign_to_centroids.
  enough (forall m : gmap string Z, (forall y, m !! id = Some y -> y < Z.max (lenZ cs) 1) ->
    fold_left (fun out (p : Pair) => <[p.1 := nearest_centroid_id p.2 cs metric]> out) pairs m !! id = Some x ->
    x < Z.max (lenZ cs) 1) as H by (apply H; by intros y ?%lookup_empty_Some).
  induction pairs as [|p pairs IH]; intros m Hm; cbn [fold_left]; [apply Hm|]. apply IH.
  intros y. rewrite lookup_insert_Some. intros [[_ <-]|[_ Hy]]; [apply nearest_centroid_bound|eauto].
Qed.

Lemma group_by_coarse_lookup assign pairs c :
  default [] (group_by_coarse assign pairs !! c) = filter (fun p : Pair => default 0 (assign !! p.1) = c) pairs.
Proof.
  unfold group_by_coarse. induction pairs as [|p pairs IH] using rev_ind; [done|].
  rewrite fold_left_app, filter_app. cbn [fold_left].
  destruct (decide (default 0 (assign !! p.1) = c)) as [He|Hne].
  - rewrite (filter_cons_True _ p []) by done. rewrite He, lookup_insert_eq. cbn [default]. by rewrite IH.
  - rewrite (filter_cons_False _ p []) by done. rewrite lookup_insert_ne by done. by rewrite IH, app_nil_r.
Qed.

Section BuildSpec.
Context {VL : VectorLib} (segment_id : Z) (field : string) (metric : DistanceMetric) (build : AnnBuildConfig).
Context (dims : Z) (element : VectorElement) (groups : gmap Z (list Pair)) (k : Z).
Hypothesis k_bound : 1 <= k <= MAX_COARSE_CENTROIDS_V3.

Definition cell (c : Z) : list Pair := default [] (groups !! c).
Definition cell_fines (c : Z) : Z := num_fine_for_version (lenZ (cell c)) (ab_ann_version build).

(** The state after the first [j] cells. *)
Record build_inv (j : Z) (st : BuildState) : Prop := {
  bi_groups : forall c, j <= c -> bs_by_coarse st !! c = groups !! c;
  bi_counts : bs_fine_counts st = (cell_fines <$> range0 j) ++ replicate (Z.to_nat (k - j)) 0;
  bi_start : bs_global_start st = total (cell_fines <$> range0 j);
  bi_l1 : forall c, 0 <= c < j -> exists l1, bs_l1 st !! c = Some l1 /\ l1_num_fine l1 = cell_fines c /\
    lenZ (l1_centroids l1) = cell_fines c /\ l1_global_id_start l1 = total (cell_fines <$> range0 c);
  bi_l1_ids : forall c l1, bs_l1 st !! c = Some l1 -> l1_coarse_id l1 = c /\ 0 <= c < j;
  bi_clusters : forall id c, bs_clusters st !! id = Some c -> 0 <= id < bs_global_start st;
  bi_members : members_of (bs_clusters st) ≡ₚ
    concat ((fun c => (fun p : Pair => from_values p.1 p.2 element) <$> cell c) <$> range0 j);
  bi_l2 : bs_l2_counts st = replicate (Z.to_nat k) 0 /\ bs_l2 st = ∅
}.

Lemma range0_snoc j : 0 <= j -> range0 (j + 1) = range0 j ++ [j].
Proof. intros Hj. unfold range0. rewrite seqZ_app by lia. done. Qed.

Lemma cell_fines_bounds c :
  0 <= cell_fines c <= MAX_FINE_PER_COARSE /\ cell_fines c <= lenZ (cell c) /\
  (cell c <> [] -> 1 <= cell_fines c) /\ (ANN_VERSION_V3 <= ab_ann_version build -> cell_fines c <= MAX_FINE_PER_COARSE_V3).
Proof.
  unfold cell_fines. assert (0 <= lenZ (cell c)) as Hn by (unfold lenZ; lia).
  destruct (num_fine_bounds _ (ab_ann_version build) Hn) as (H1 & H2 & H3 & H4).
  split_and!; try lia; try done. intros He. apply H3. destruct (cell c); [done|]. unfold lenZ. cbn [length]. lia.
Qed.

Lemma start_bounds j : 0 <= j <= MAX_COARSE_CENTROIDS_V3 -> 0 <= total (cell_fines <$> range0 j) <= 256 * j.
Proof.
  intros Hj. assert (Forall (fun c => 0 <= c <= 256) (cell_fines <$> range0 j)) as Hall.
  { apply Forall_fmap, Forall_forall. intros c _. cbn. pose proof (cell_fines_bounds c).
    unfold MAX_FINE_PER_COARSE in *. lia. }
  split; [apply total_nonneg; eapply Forall_impl; [exact Hall|cbn; lia]|].
  pose proof (total_le _ _ Hall) as Hb. unfold lenZ, range0 in Hb. rewrite length_fmap, length_seqZ in Hb. unfold range0. lia.
Qed.

(** Adding the documents of a cell to their clusters. *)
Lemma place_docs start cnt (assign : gmap string Z) docs (m : gmap Z ClusterSegment) :
  0 <= start -> start + cnt < 2 ^ 32 -> (forall id, 0 <= default 0 (assign !! id) < cnt) ->
  (forall id c, m !! id = Some c -> 0 <= id < start + cnt) ->
  let out := fold_left (fun cs (p : Pair) =>
      let fine_id := wrap32 (start + default 0 (assign !! p.1)) in
      extend_cluster segment_id fine_id [from_values p.1 p.2 element] cs) docs m in
  (forall id c, out !! id = Some c -> 0 <= id < start + cnt) /\
  members_of out ≡ₚ ((fun p : Pair => from_values p.1 p.2 element) <$> docs) ++ members_of m.
Proof.
  intros Hs Hb Ha. revert m. induction docs as [|p docs IH]; intros m Hm; [done|]. cbn zeta. cbn [fold_left].
  pose proof (Ha p.1) as Hp. rewrite wrap32_id by lia.
  destruct (IH (extend_cluster segment_id (start + default 0 (assign !! p.1)) [from_values p.1 p.2 element] m))
    as [H1 H2]; [by apply extend_cluster_range; [|lia]|]. split; [done|].
  cbn zeta in H2. rewrite H2, members_extend. cbn. by rewrite <- Permutation_middle.
Qed.

Lemma build_cell_inv j st :
  0 <= j < k -> build_inv j st -> build_inv (j + 1) (build_cell segment_id metric build dims element st j).
Proof.
  intros Hj [G C S L1 L1I CL M [L2a L2b]]. unfold build_cell. rewrite (G j) by lia. fold (cell j). fold (cell_fines j).
  pose proof (cell_fines_bounds j) as (Hc1 & Hc2 & Hc3 & Hc4).
  pose proof (start_bounds j ltac:(unfold MAX_COARSE_CENTROIDS_V3 in *; lia)) as Hsb. rewrite <- S in Hsb.
  set (fine_vecs := match cell j with [] => [] | _ => _ end).
  assert (lenZ fine_vecs = cell_fines j) as Hfv.
  { unfold fine_vecs. destruct (cell j) as [|d ds] eqn:E; [unfold lenZ in *; cbn in *; lia|]. rewrite <- E in *.
    rewrite kmeans_length by (apply Hc3; by rewrite E). lia. }
  assert ((ANN_VERSION_V3 <=? ab_ann_version build) && (L2_SPLIT_FINE_THRESHOLD <? cell_fines j) = false) as ->.
  { destruct (ANN_VERSION_V3 <=? ab_ann_version build) eqn:E; [|done]. case_bool. specialize (Hc4 E).
    unfold L2_SPLIT_FINE_THRESHOLD, MAX_FINE_PER_COARSE_V3 in *. apply Z.ltb_ge. lia. }
  set (assign := assign_to_centroids _ _ _).
  unfold MAX_COARSE_CENTROIDS_V3, MAX_FINE_PER_COARSE in *.
  assert (wrap32 (bs_global_start st + cell_fines j) = bs_global_start st + cell_fines j) as Hw by (apply wrap32_id; lia).
  assert (forall m0 : gmap Z ClusterSegment, (forall id c, m0 !! id = Some c -> 0 <= id < bs_global_start st) ->
    let out := fold_left (fun cs (p : Pair) =>
      let fine_id := wrap32 (bs_global_start st + default 0 (assign !! p.1)) in
      extend_cluster segment_id fine_id [from_values p.1 p.2 element] cs) (cell j) m0 in
    (forall id c, out !! id = Some c -> 0 <= id < bs_global_start st + cell_fines j) /\
    members_of out ≡ₚ ((fun p : Pair => from_values p.1 p.2 element) <$> cell j) ++ members_of m0) as Hplace.
  { intros m0 Hm0. destruct (cell j) as [|d ds] eqn:E.
    - cbn. split; [|done]. intros id c Hc. specialize (Hm0 id c Hc). lia.
    - rewrite <- E in *. apply place_docs; [lia|lia| |intros id c Hc; specialize (Hm0 id c Hc); lia].
      intros id. pose proof (assign_bound (d :: ds) fine_vecs metric id) as Hb. rewrite Hfv in Hb.
      specialize (Hc3 ltac:(by rewrite E)). unfold assign. lia. }
  destruct (Hplace (bs_clusters st) CL) as [P1 P2]. cbn zeta in P1, P2.
  split; cbn [bs_by_coarse bs_l1 bs_clusters bs_l2 bs_l2_counts bs_fine_counts bs_global_start].
  - intros c Hc. rewrite lookup_delete_ne by lia. apply G. lia.
  - rewrite C, range0_snoc, fmap_app by lia. rewrite insert_app_r_alt by (rewrite length_fmap; unfold range0;
      rewrite length_seqZ; lia). rewrite <- app_assoc. f_equal. rewrite length_fmap. unfold range0. rewrite length_seqZ.
    replace (Z.to_nat j - Z.to_nat j)%nat with 0%nat by lia.
    replace (Z.to_nat (k - j)) with (Datatypes.S (Z.to_nat (k - (j + 1)))) by lia. done.
  - rewrite Hw, S, range0_snoc, fmap_app, total_app by lia. cbn [fmap list_fmap]. rewrite total_cons.
    change (total []) with 0. lia.
  - intros c Hc. destruct (decide (c = j)) as [->|Hne].
    + rewrite lookup_insert_eq. eexists. split; [done|]. cbn. by rewrite <- S.
    + rewrite lookup_insert_ne by done. apply L1. lia.
  - intros c l1. rewrite lookup_insert_Some. intros [[<- <-]|[_ Hc]]; [cbn; lia|]. apply L1I in Hc. lia.
  - rewrite Hw. exact P1.
  - rewrite P2, M, range0_snoc, fmap_app, concat_app by lia. cbn [fmap list_fmap concat]. rewrite app_nil_r.
    apply Permutation_app_comm.
  - done.
Qed.

Lemma build_loop st :
  build_inv 0 st -> build_inv k (fold_left (build_cell segment_id metric build dims element) (range0 k) st).
Proof.
  intros H0. assert (forall j, (Z.of_nat j <= k) ->
    build_inv (Z.of_nat j) (fold_left (build_cell segment_id metric build dims element) (range0 (Z.of_nat j)) st)) as H.
  { induction j as [|j IH]; intros Hj; [done|]. rewrite Nat2Z.inj_succ, <- Z.add_1_r in *.
    rewrite range0_snoc, fold_left_app by lia. cbn [fold_left]. apply build_cell_inv; [lia|]. apply IH. lia. }
  specialize (H (Z.to_nat k) ltac:(lia)). by rewrite Z2Nat.id in H by lia.
Qed.
End BuildSpec.

(** ** The documents a build indexes *)

Definition doc_vector {VL : VectorLib} (field : string) (d : string * Document) : option Pair :=
  match extract_vector (doc_attributes d.2) field with
  | None | Some [] => None
  | Some v => Some (d.1, v)
  end.

(** The documents whose vector has the length of the first one. *)
Definition indexable {VL : VectorLib} (field : string) (docs : list (string * Document)) : list Pair :=
  match omap (doc_vector field) docs with
  | [] => []
  | p :: _ => filter (fun q => lenZ q.2 = lenZ p.2) (omap (doc_vector field) docs)
  end.

Section Build.
Context {VL : VectorLib} (field : string).

Let step (acc : Z * list Pair) (d : string * Document) : Z * list Pair :=
  let '(dims, pairs) := acc in
  match extract_vector (doc_attributes d.2) field with
  | None | Some [] => acc
  | Some vec =>
      if dims =? 0 then (wrap32 (lenZ vec), pairs ++ [(d.1, vec)])
      else if wrap32 (lenZ vec) =? dims then (dims, pairs ++ [(d.1, vec)])
      else acc
  end.

Let small (p : Pair) : Prop := lenZ p.2 < 2 ^ 32.

Lemma doc_vector_nonempty d p : doc_vector field d = Some p -> 0 < lenZ p.2.
Proof.
  unfold doc_vector. destruct (extract_vector _ _) as [[|x v]|]; [done| |done]. intros [= <-].
  unfold lenZ. cbn [snd length]. lia.
Qed.

Lemma step_eq dims ps d :
  step (dims, ps) d = match doc_vector field d with
    | None => (dims, ps)
    | Some p => if dims =? 0 then (wrap32 (lenZ p.2), ps ++ [p])
                else if wrap32 (lenZ p.2) =? dims then (dims, ps ++ [p]) else (dims, ps)
    end.
Proof. unfold step, doc_vector. by destruct (extract_vector _ _) as [[|x v]|]. Qed.

Lemma steps_dims dims docs ps :
  0 < dims -> Forall small (omap (doc_vector field) docs) ->
  fold_left step docs (dims, ps) = (dims, ps ++ filter (fun q => lenZ q.2 = dims) (omap (doc_vector field) docs)).
Proof.
  intros Hd. revert ps. induction docs as [|d docs IH]; intros ps; [by rewrite app_nil_r|].
  cbn [fold_left]. rewrite step_eq. cbn [omap list_omap].
  destruct (doc_vector field d) as [p|] eqn:E; [|apply IH]. intros [Hp Hrest]%Forall_cons.
  pose proof (doc_vector_nonempty _ _ E). unfold small in Hp. rewrite wrap32_id by lia.
  replace (dims =? 0) with false by (symmetry; apply Z.eqb_neq; lia).
  destruct (lenZ p.2 =? dims) eqn:E2; case_bool.
  - rewrite IH by done. rewrite filter_cons_True by done. by rewrite <- app_assoc.
  - rewrite IH by done. by rewrite filter_cons_False by done.
Qed.

Lemma build_pairs_indexable docs :
  Forall small (omap (doc_vector field) docs) -> (build_pairs field docs).2 = indexable field docs.
Proof.
  unfold build_pairs. change (Forall small (omap (doc_vector field) docs) ->
    (fold_left step docs (0, [])).2 = indexable field docs). unfold indexable.
  induction docs as [|d docs IH]; [done|]. cbn [fold_left]. rewrite step_eq. cbn [omap list_omap].
  destruct (doc_vector field d) as [p|] eqn:E; [|done]. intros [Hp Hrest]%Forall_cons. cbn [Z.eqb].
  pose proof (doc_vector_nonempty _ _ E). unfold small in Hp. rewrite wrap32_id by lia.
  rewrite steps_dims by (done || lia). by rewrite filter_cons_True by done.
Qed.
End Build.

Lemma concat_fmap_fmap {A B C} (f : B -> C) (g : A -> list B) (l : list A) :
  concat ((fun x => f <$> g x) <$> l) = f <$> concat (g <$> l).
Proof. induction l as [|x l IH]; [done|]. cbn. by rewrite IH, fmap_app. Qed.

Lemma build_inv_wf {VL : VectorLib} build element groups k st l0 routing l2 :
  1 <= k <= MAX_COARSE_CENTROIDS_V3 -> build_inv build element groups k k st ->
  l0_fine_counts l0 = bs_fine_counts st -> l0_num_coarse l0 = k -> l0_num_fine_total l0 = bs_global_start st ->
  vi_wf (mkVectorIndex l0 (bs_l1 st) (bs_clusters st) routing l2).
Proof.
  intros Hk [G C S L1 _ CL M _] E1 E2 E3. rewrite Z.sub_diag in C. cbn [Z.to_nat replicate] in C. rewrite app_nil_r in C.
  split; cbn [vi_l0 vi_l1 vi_clusters]; rewrite ?E1, ?E2, ?E3.
  - rewrite C. apply Forall_fmap, Forall_forall. intros c _. apply cell_fines_bounds.
  - rewrite C. unfold lenZ, range0. rewrite length_fmap, length_seqZ. lia.
  - lia.
  - by rewrite C.
  - intros n count Hn. rewrite C in *. apply list_lookup_fmap_Some in Hn as (c & -> & Hc). unfold range0 in Hc.
    apply lookup_seqZ in Hc as [-> Hlt]. destruct (L1 (Z.of_nat n) ltac:(lia)) as (l1 & H1 & H2 & H3 & H4).
    exists l1. rewrite Z.add_0_l. split_and!; try done. rewrite H4. f_equal. rewrite <- fmap_take. f_equal.
    unfold range0. apply list_eq. intros i. destruct (decide (i < n)%nat).
    + rewrite lookup_take_lt by lia. by rewrite !lookup_seqZ_lt by lia.
    + rewrite lookup_take_ge by lia. by rewrite lookup_seqZ_ge by lia.
  - exact CL.
Qed.

(** The index a build returns: its layout and its members. *)
Record built {VL : VectorLib} (field : string) (build : AnnBuildConfig) (element : VectorElement) (pairs : list Pair)
    (vi : VectorIndex) : Prop := {
  bt_field : l0_vector_field (vi_l0 vi) = field;
  bt_coarse : l0_num_coarse (vi_l0 vi) = num_coarse_for_version (lenZ pairs) (ab_ann_version build);
  bt_fine : ANN_VERSION_V3 <= ab_ann_version build ->
    Forall (fun c => c <= MAX_FINE_PER_COARSE_V3) (l0_fine_counts (vi_l0 vi));
  bt_wf : vi_wf vi;
  bt_members : all_members vi ≡ₚ (fun p : Pair => from_values p.1 p.2 element) <$> pairs;
  bt_routing : vi_routing vi = None /\ l0_has_routing (vi_l0 vi) = false;
  bt_l2 : vi_l2 vi = ∅;
  bt_cells : 1 <= l0_num_coarse (vi_l0 vi) /\ lenZ (l0_centroids (vi_l0 vi)) <= l0_num_coarse (vi_l0 vi);
  bt_l1_ids : forall c l1, vi_l1 vi !! c = Some l1 -> l1_coarse_id l1 = c /\ 0 <= c < l0_num_coarse (vi_l0 vi)
}.

Lemma vector_build_built {VL : VectorLib} segment_id field metric build docs schema :
  match (build_pairs field docs).2 with
  | [] => vector_build segment_id field metric build docs schema = None
  | pairs => exists vi, vector_build segment_id field metric build docs schema = Some vi /\
      built field build (vector_element_for_field schema field) pairs vi
  end.
Proof.
  unfold vector_build. destruct (build_pairs field docs) as [dims pairs]. cbn [snd].
  destruct pairs as [|p ps] eqn:E; [done|]. rewrite <- E. assert (1 <= lenZ pairs) as Hn by
    (rewrite E; unfold lenZ; cbn [length]; lia). clear E.
  set (element := vector_element_for_field schema field). set (k := num_coarse_for_version _ _).
  pose proof (num_coarse_bounds (lenZ pairs) (ab_ann_version build) Hn) as Hk. fold k in Hk.
  set (assign := assign_to_centroids _ _ _).
  set (st0 := mkBuildState _ _ _ _ _ _ _).
  pose proof (build_loop segment_id metric build dims element (group_by_coarse assign pairs) k Hk st0) as Hloop.
  set (st := fold_left _ (range0 k) st0) in Hloop |- *.
  assert (build_inv build element (group_by_coarse assign pairs) k k st) as HI.
  { apply Hloop. split; try done.
    - cbn. by rewrite Z.sub_0_r.
    - intros c Hc. lia. }
  clear Hloop. pose proof HI as [_ C _ _ L1I _ M [L2a L2b]].
  assert (existsb (fun c => 1 <? c) (bs_l2_counts st) = false) as Hno.
  { rewrite L2a. clear. induction (Z.to_nat k) as [|n IH]; [done|exact IH]. }
  rewrite Hno, andb_false_r. cbn [negb].
  eexists. split; [done|]. split; cbn [vi_l0 vi_l1 vi_l2 vi_routing l0_num_coarse l0_centroids l0_has_routing l0_fine_counts]; try done.
  - intros Hv. rewrite C, Z.sub_diag, app_nil_r. apply Forall_fmap, Forall_forall. intros c _. by apply cell_fines_bounds.
  - eapply build_inv_wf; [exact Hk|exact HI|done..].
  - unfold all_members. cbn [vi_clusters]. rewrite M. unfold cell.
    transitivity (concat ((fun c => (fun p : Pair => from_values p.1 p.2 element) <$>
      filter (fun p : Pair => default 0 (assign !! p.1) = c) pairs) <$> range0 k)).
    { erewrite list_fmap_ext; [done|]. intros i c _. cbn. by rewrite group_by_coarse_lookup. }
    rewrite concat_fmap_fmap. apply fmap_Permutation.
    apply (partition_range (fun p : Pair => default 0 (assign !! p.1))); [lia|]. intros q _.
    pose proof (assign_bound pairs (kmeans_centroids pairs k dims metric) metric q.1) as Hb.
    rewrite kmeans_length in Hb by lia. fold assign in Hb. lia.
  - rewrite kmeans_length by lia. lia.
Qed.

(** ** Theorems *)

(** building the index loses no vector: for documents whose vectors are
    shorter than [2^32], the build returns an index exactly when some document
    has a vector to index; that index has a consistent layout (counts,
    centroids, start offsets and cluster ids agree and are in range) and its
    clusters hold exactly the vectors of the dimension of the first one, each
    in one cluster; no routing table is written. *)
Theorem vector_build_complete {VL : VectorLib} segment_id field metric build docs schema :
  Forall (fun p : Pair => lenZ p.2 < 2 ^ 32) (omap (doc_vector field) docs) ->
  match indexable field docs with
  | [] => vector_build segment_id field metric build docs schema = None
  | pairs => exists vi, vector_build segment_id field metric build docs schema = Some vi /\ vi_wf vi /\
      all_members vi ≡ₚ (fun p => from_values p.1 p.2 (vector_element_for_field schema field)) <$> pairs /\
      vi_routing vi = None /\ vi_l2 vi = ∅
  end.
Proof.
  intros Hsmall. rewrite <- (build_pairs_indexable field docs Hsmall).
  pose proof (vector_build_built segment_id field metric build docs schema) as H.
  destruct (build_pairs field docs).2 as [|p ps]; [done|].
  destruct H as (vi & Hb & [_ _ _ W M [R _] L2 _ _]). by exists vi.
Qed.

(** a maintenance run (prune, split, merge, reassign, refresh, prune, split)
    succeeds on every index with a consistent layout, leaves it consistent and
    neither loses nor duplicates a member, whatever the order in which the hash
    maps are visited. *)
Theorem maintenance_keeps_members {IO : IterOrder} {VL : VectorLib} vi :
  vi_wf vi -> exists vi', run_incremental_maintenance vi = Ok vi' /\ vi_wf vi' /\ all_members vi' ≡ₚ all_members vi.
Proof. apply maintenance_ok. Qed.

(** C37: a delta is applied exactly: on a consistent index of non-zero dimension
    whose coarse cells all have a fine centroid ([populated]; [assign_to_empty_cell] is what happens
    otherwise), the deleted ids lose their members, each upsert replaces the
    members of its document by its vector when that has the index's dimension
    and only removes them when it has no vector or one of another length, and
    every other member is kept, through the maintenance run that ends the
    delta. *)
Theorem vector_delta_exact {IO : IterOrder} {VL : VectorLib} vi ups dels :
  vi_wf vi -> populated vi -> l0_dimensions (vi_l0 vi) <> 0 ->
  exists vi', vector_apply_delta vi ups dels = Ok vi' /\ vi_wf vi' /\
    all_members vi' ≡ₚ delta_members (vi_l0 vi) ups dels (all_members vi).
Proof.
  intros W [P1 P2] D. unfold vector_apply_delta.
  replace (l0_dimensions (vi_l0 vi) =? 0) with false by (symmetry; by apply Z.eqb_neq). cbn [orb].
  destruct (l0_centroids (vi_l0 vi)) as [|c cs] eqn:Hc; [unfold lenZ in P2; cbn in P2; lia|]. rewrite <- Hc in P2.
  destruct (deletes_spec dels vi W) as (W1 & L1 & M1).
  destruct (upsert_vectors_spec ups (fold_left remove_doc dels vi) W1) as (vi2 & E2 & W2 & _ & M2);
    [by unfold populated; rewrite L1|]. rewrite E2. cbn [result_bind].
  destruct (maintenance_ok vi2 W2) as (vi3 & E3 & W3 & M3). exists vi3. split_and!; [done|done|].
  rewrite M3, M2, L1. unfold delta_members. clear -M1. revert M1.
  generalize (fold_left (fun ms id => without id ms) dels (all_members vi)).
  generalize (all_members (fold_left remove_doc dels vi)). induction ups as [|d ups IH]; intros l k H; [done|].
  cbn [fold_left]. apply IH. by rewrite H.
Qed.

(** ** Concrete indexes *)

Definition vec_doc (id : string) (x : Z) : string * Document :=
  (id, mkDocument id {["emb" := VArray [VNumber (PosInt x)]]}).
Definition members_ids (vi : VectorIndex) : list (Z * list string) :=
  (fun e : Z * ClusterSegment => (e.1, cm_doc_id <$> cs_members e.2)) <$> map_to_list (vi_clusters vi).

(** Two coarse cells with one fine centroid each. *)
Definition two_cells (counts : list Z) : VectorIndex :=
  mkVectorIndex
    (mkL0 7 "emb" 1 2 (total counts) 4 2 EuclideanSquared F32 counts [[f64_of_Z 0]; [f64_of_Z 100]] ANN_VERSION_V2 false 0)
    {[0 := mkL1 7 0 0 1 [[f64_of_Z 0]]; 1 := mkL1 7 1 1 (total counts - 1) (replicate (Z.to_nat (total counts - 1)) [f64_of_Z 100])]}
    {[0 := mkCluster 7 0 [from_values (VL := rfc4648) "a" [f64_of_Z 1] F32; from_values (VL := rfc4648) "b" [f64_of_Z 2] F32]]}
    None ∅.

Lemma two_cells_wf n : 0 <= n <= 1 -> vi_wf (two_cells [1; n]).
Proof.
  intros Hn. assert (total [1; n] = 1 + n) as Ht by (unfold total; cbn; lia).
  split; cbn [two_cells vi_l0 vi_l1 vi_clusters l0_fine_counts l0_num_coarse l0_num_fine_total].
  - repeat constructor; unfold MAX_FINE_PER_COARSE; lia.
  - done.
  - unfold MAX_COARSE_CENTROIDS_V3. lia.
  - done.
  - rewrite Ht. replace (1 + n - 1) with n by lia.
    intros [|[|k]] count; cbn [lookup list_lookup]; [intros [= <-]|intros [= <-]|done].
    + by eexists.
    + eexists. split; [done|]. cbn. unfold lenZ. rewrite length_replicate. split_and!; [done|lia|done].
  - intros id c. rewrite lookup_singleton_Some. intros [<- _]. lia.
Qed.

Lemma vector_build_complete_witness :
  exists vi, vector_build (VL := rfc4648) 7 "emb" EuclideanSquared (mkBuild 4 2 ANN_VERSION_V3)
      [vec_doc "a" 1; ("b", mkDocument "b" ∅); vec_doc "c" 9] (VObject []) = Some vi /\
    vi_wf vi /\ all_members vi ≡ₚ [from_values (VL := rfc4648) "a" [f64_of_Z 1] F32; from_values (VL := rfc4648) "c" [f64_of_Z 9] F32] /\
    vi_routing vi = None /\ vi_l2 vi = ∅.
Proof.
  assert (indexable (VL := rfc4648) "emb" [vec_doc "a" 1; ("b", mkDocument "b" ∅); vec_doc "c" 9] =
    [("a", [f64_of_Z 1]); ("c", [f64_of_Z 9])]) as E by (vm_compute; reflexivity).
  pose proof (vector_build_complete (VL := rfc4648) 7 "emb" EuclideanSquared (mkBuild 4 2 ANN_VERSION_V3)
    [vec_doc "a" 1; ("b", mkDocument "b" ∅); vec_doc "c" 9] (VObject [])) as H.
  rewrite E in H. apply H.
  assert (omap (doc_vector (VL := rfc4648) "emb") [vec_doc "a" 1; ("b", mkDocument "b" ∅); vec_doc "c" 9] =
    [("a", [f64_of_Z 1]); ("c", [f64_of_Z 9])]) as -> by (vm_compute; reflexivity).
  repeat constructor.
Defined.

Lemma maintenance_keeps_members_witness :
  exists vi', run_incremental_maintenance (IO := canonical_order) (VL := rfc4648) (two_cells [1; 1]) = Ok vi' /\
    vi_wf vi' /\ all_members vi' ≡ₚ all_members (two_cells [1; 1]).
Proof. apply (maintenance_keeps_members (IO := canonical_order) (VL := rfc4648)), two_cells_wf. lia. Defined.

Lemma vector_delta_exact_witness :
  exists vi', vector_apply_delta (IO := canonical_order) (VL := rfc4648) (two_cells [1; 1])
      [vec_doc "c" 99] ["a"] = Ok vi' /\ vi_wf vi' /\
    all_members vi' ≡ₚ [from_values (VL := rfc4648) "c" [f64_of_Z 99] F32; from_values (VL := rfc4648) "b" [f64_of_Z 2] F32].
Proof.
  apply (vector_delta_exact (IO := canonical_order) (VL := rfc4648) (two_cells [1; 1]) [vec_doc "c" 99] ["a"]).
  - apply two_cells_wf. lia.
  - split; [repeat constructor; lia|by vm_compute].
  - done.
Defined.

(** a document assigned to a coarse cell that has no fine centroid is put in
    a cluster outside that cell: here the id is not below the number of fine
    centroids, so no query probes it; the layout is not kept. *)
Theorem assign_to_empty_cell :
  vi_wf (two_cells [1; 0]) /\
  exists vi', assign_doc_to_nearest (VL := rfc4648) (two_cells [1; 0]) "c" [f64_of_Z 99] = Ok vi' /\
    l0_num_fine_total (vi_l0 vi') = 1 /\ is_Some (vi_clusters vi' !! 1) /\
    query_ann (IO := canonical_order) (VL := rfc4648) vi' [f64_of_Z 99] 10 =
      query_ann (IO := canonical_order) (VL := rfc4648) (two_cells [1; 0]) [f64_of_Z 99] 10.
Proof.
  split; [apply two_cells_wf; lia|]. eexists. split; [vm_compute; reflexivity|].
  split; [by vm_compute|]. split; [by vm_compute; eexists|]. by vm_compute.
Qed.
