(* ===== verification/Cache.v ===== *)
(** * The local segment cache ([cache.rs])

    Index objects are mirrored on the local disk as a file and a sidecar with
    the entity tag; a read asks the store for the current tag and uses the file
    when the tags agree.  The file system is a parameter: a write can fail.
    [CachedReads] is what the cache promises to the indexer and the queries. *)

From Stdlib Require Import ZArith Lia Bool Ascii String.
From stdpp Require Import base gmap strings list.
From S2P Require Import Prelude Models Keys Wal ObjectStore Namespace Compaction.

(** ** The interface *)

Class CachedReads {S : ObjectStore} {LC : LocalCache} : Type := {
  cache_get : string -> St NsError (option bytes);
  cache_inv : World -> Prop
}.

(** A cached read returns the current object, and the invariant survives every
    request to the store and every mirrored write. *)
Class CachedReadsLaws {S : ObjectStore} {LC : LocalCache} {CR : CachedReads} : Prop := {
  cache_get_spec : forall k w, cache_inv w ->
    st_post (cache_get k) w (fun w' r => cache_inv w' /\ objects w' = objects w /\
      match r with
      | Ok (Some b) => exists t, objects w !! k = Some (b, t)
      | Ok None => objects w !! k = None
      | Err _ => True
      end);
  cache_inv_get : forall w k, cache_inv w -> cache_inv (s3_get w k).1;
  cache_inv_put : forall w k b c, cache_inv w -> cache_inv (s3_put w k b c).1;
  cache_inv_delete : forall w k, cache_inv w -> cache_inv (s3_delete w k).1;
  cache_inv_populate : forall w k b c et, (s3_put w k b c).2 = Ok et -> cache_inv w ->
    cache_inv (cache_populate k b et (s3_put w k b c).1);
  cache_inv_invalidate : forall w k, cache_inv w -> cache_inv (cache_invalidate k w)
}.

(** ** The implementation *)

(** [str::trim_matches]. *)
Definition trim_matches (c : ascii) (s : string) : string :=
  let drop := drop_while (Ascii.eqb c) in
  string_of_list_ascii (reverse (drop (reverse (drop (list_ascii_of_string s))))).

Definition normalize_etag (etag : string) : string := trim_matches (ascii_of_nat 34) etag.

Definition local_matches_etag (local : option (bytes * string)) (remote_etag : option string) : option bytes :=
  match local, remote_etag with
  | Some (b, local_etag), Some r => if String.eqb local_etag (normalize_etag r) then Some b else None
  | _, _ => None
  end.

(** The files of the cache directory: for each object key the file
    [{root}/{bucket}/{key}] and its sidecar [.etag]; and the HEAD request. *)
Class CacheFs {S : ObjectStore} : Type := {
  cache_enabled : bool;
  fs_body : World -> string -> option bytes;
  fs_etag : World -> string -> option string;
  fs_mkdir : string -> World -> World * bool;
  fs_write_body : string -> bytes -> World -> World * bool;
  fs_write_etag : string -> string -> World -> World * bool;
  fs_remove_body : string -> World -> World;
  fs_remove_dir : string -> World -> World;
  s3_head : World -> string -> World * result S3Error (option string)
}.

Section SegmentCache.
Context {S : ObjectStore} {FS : CacheFs}.

Definition read_local (key : string) (w : World) : option (bytes * string) :=
  if cache_enabled then
    b ← fs_body w key;
    etag_raw ← fs_etag w key;
    let etag := normalize_etag (str_trim etag_raw) in
    if String.eqb etag "" then None else Some (b, etag)
  else None.

Definition write_local (key : string) (b : bytes) (etag : string) (w : World) : World :=
  if cache_enabled then
    let '(w, made) := fs_mkdir key w in
    if made then
      let '(w, written) := fs_write_body key b w in
      if written then (fs_write_etag key (normalize_etag etag) w).1 else w
    else w
  else w.

Definition head_etag (key : string) : St NsError (option string) :=
  do? out <- st_lift (fun w => s3_head w key);
  match out with
  | Ok etag => st_ret (normalize_etag <$> etag)
  | Err e => if has_code e "NotFound" then st_ret None else st_err (GetObject key e)
  end.

Definition cache_get_object_bytes (key : string) : St NsError (option (bytes * option string)) :=
  do? r <- get_object_bytes_optional key;
  st_ret ((fun p : bytes * option string => (p.1, normalize_etag <$> p.2)) <$> r).

Definition get_bytes (key : string) : St NsError (option bytes) := fun w0 =>
  (if negb cache_enabled then
    do? got <- cache_get_object_bytes key;
    st_ret (fst <$> got)
  else
    let local := read_local key w0 in
    do? remote <- head_etag key;
    match remote with
    | None => st_ret None
    | Some remote_etag =>
        match local_matches_etag local (Some remote_etag) with
        | Some b => st_ret (Some b)
        | None =>
            do? got <- cache_get_object_bytes key;
            match got with
            | Some (b, Some etag) =>
                do? _ <- st_do (write_local key b etag);
                st_ret (Some b)
            | _ => st_ret (fst <$> got)
            end
        end
    end) w0.

Definition populate_after_put (key : string) (b : bytes) (etag : option string) (w : World) : World :=
  match etag with Some t => write_local key b t w | None => w end.

Definition invalidate_key (key : string) (w : World) : World :=
  if cache_enabled then fs_remove_body key w else w.

Definition invalidate_namespace (namespace : string) (w : World) : World :=
  if cache_enabled then fs_remove_dir namespace w else w.

(** The keys a prefetch task reads, one after the other; errors are ignored. *)
Fixpoint prefetch (keys : list string) (w : World) : World :=
  match keys with
  | [] => w
  | key :: rest => prefetch rest (get_bytes key w).1
  end.

Definition prefetch_background (keys : list string) (w : World) : World :=
  if cache_enabled then prefetch keys w else w.
End SegmentCache.

#[export] Instance segment_cache {S : ObjectStore} {FS : CacheFs} : LocalCache := {
  cache_populate := populate_after_put;
  cache_invalidate := invalidate_key
}.

(** ** Coherence

    [content k e] is the object body that entity tag [e] of key [k] stands for:
    a tag identifies a body. *)

Definition same_fs {S : ObjectStore} {FS : CacheFs} (w w' : World) : Prop :=
  forall k, fs_body w' k = fs_body w k /\ fs_etag w' k = fs_etag w k.

Class CacheFsLaws {S : ObjectStore} {FS : CacheFs} : Prop := {
  mkdir_frame : forall k w, objects (fs_mkdir k w).1 = objects w /\ same_fs w (fs_mkdir k w).1;
  write_body_frame : forall k b w, objects (fs_write_body k b w).1 = objects w /\
    forall j, fs_etag (fs_write_body k b w).1 j = fs_etag w j /\
      (j <> k -> fs_body (fs_write_body k b w).1 j = fs_body w j);
  write_body_ok : forall k b w, (fs_write_body k b w).2 = true -> fs_body (fs_write_body k b w).1 k = Some b;
  write_etag_frame : forall k e w, objects (fs_write_etag k e w).1 = objects w /\
    forall j, fs_body (fs_write_etag k e w).1 j = fs_body w j /\
      (j <> k -> fs_etag (fs_write_etag k e w).1 j = fs_etag w j);
  write_etag_ok : forall k e w, (fs_write_etag k e w).2 = true -> fs_etag (fs_write_etag k e w).1 k = Some e;
  remove_body_frame : forall k w, objects (fs_remove_body k w) = objects w /\
    forall j, fs_etag (fs_remove_body k w) j = fs_etag w j /\
      (fs_body (fs_remove_body k w) j = fs_body w j \/ fs_body (fs_remove_body k w) j = None);
  head_frame : forall w k, objects (s3_head w k).1 = objects w /\ same_fs w (s3_head w k).1;
  head_ok : forall w k et, (s3_head w k).2 = Ok et -> exists b t, et = Some t /\ objects w !! k = Some (b, t);
  head_absent : forall w k e, (s3_head w k).2 = Err e -> has_code e "NotFound" = true -> objects w !! k = None;
  get_same_fs : forall w k, same_fs w (s3_get w k).1;
  put_same_fs : forall w k b c, same_fs w (s3_put w k b c).1;
  delete_same_fs : forall w k, same_fs w (s3_delete w k).1
}.

(** Writes to the cache directory can fail, and the code goes on.  A key is
    [torn] once a write of its file or its sidecar failed: a ghost mark that is
    never taken back. *)
Class FsMonitor {S : ObjectStore} {FS : CacheFs} : Type := {
  torn : World -> string -> bool;
  torn_body : forall k b w, (fs_write_body k b w).2 = false -> torn (fs_write_body k b w).1 k = true;
  torn_etag : forall k e w, (fs_write_etag k e w).2 = false -> torn (fs_write_etag k e w).1 k = true;
  torn_keep : forall w j, torn w j = true ->
    (forall k, torn (fs_mkdir k w).1 j = true) /\ (forall k b, torn (fs_write_body k b w).1 j = true) /\
    (forall k e, torn (fs_write_etag k e w).1 j = true) /\ (forall k, torn (fs_remove_body k w) j = true) /\
    (forall k, torn (s3_head w k).1 j = true) /\ (forall k, torn (s3_get w k).1 j = true) /\
    (forall k b c, torn (s3_put w k b c).1 j = true) /\ (forall k, torn (s3_delete w k).1 j = true)
}.

(** Any store and disk with the marks beside the world. *)
Definition tracked (S : ObjectStore) : ObjectStore := {|
  World := World * gset string;
  objects := fun w => objects w.1;
  s3_get := fun w k => let '(w', r) := s3_get w.1 k in ((w', w.2), r);
  s3_put := fun w k b c => let '(w', r) := s3_put w.1 k b c in ((w', w.2), r);
  s3_delete := fun w k => let '(w', r) := s3_delete w.1 k in ((w', w.2), r)
|}.

Definition mark_failed (k : string) (marks : gset string) (ok : bool) : gset string := if ok then marks else {[ k ]} ∪ marks.

Definition tracked_disk {S : ObjectStore} (FS : CacheFs) : @CacheFs (tracked S) :=
  @Build_CacheFs (tracked S) cache_enabled (fun w k => fs_body w.1 k) (fun w k => fs_etag w.1 k)
    (fun k w => let '(w', ok) := fs_mkdir k w.1 in ((w', w.2), ok))
    (fun k b w => let '(w', ok) := fs_write_body k b w.1 in ((w', mark_failed k w.2 ok), ok))
    (fun k e w => let '(w', ok) := fs_write_etag k e w.1 in ((w', mark_failed k w.2 ok), ok))
    (fun k w => (fs_remove_body k w.1, w.2)) (fun ns w => (fs_remove_dir ns w.1, w.2))
    (fun w k => let '(w', r) := s3_head w.1 k in ((w', w.2), r)).

Definition tracked_monitor {S : ObjectStore} (FS : CacheFs) : @FsMonitor (tracked S) (tracked_disk FS).
Proof.
  refine {| torn := fun (w : @World (tracked S)) k => bool_decide (k ∈ w.2) |}.
  - intros k b [w m]. cbn. destruct (fs_write_body k b w) as [w' ok]. cbn. intros ->. apply bool_decide_true. set_solver.
  - intros k e [w m]. cbn. destruct (fs_write_etag k e w) as [w' ok]. cbn. intros ->. apply bool_decide_true. set_solver.
  - intros [w m] j Hj%bool_decide_eq_true_1. cbn in *.
    assert (forall k ok, bool_decide (j ∈ mark_failed k m ok) = true) as Hm
      by (intros k [|]; apply bool_decide_true; set_solver).
    split_and!; intros.
    + destruct (fs_mkdir k w). by apply bool_decide_true.
    + destruct (fs_write_body k b w). apply Hm.
    + destruct (fs_write_etag k e w). apply Hm.
    + by apply bool_decide_true.
    + destruct (s3_head w k). by apply bool_decide_true.
    + destruct (s3_get w k). by apply bool_decide_true.
    + destruct (s3_put w k b c). by apply bool_decide_true.
    + destruct (s3_delete w k). by apply bool_decide_true.
Defined.

(** Writes to the cache directory succeed. *)
Class FsReliable {S : ObjectStore} {FS : CacheFs} : Prop := {
  reliable_write_body : forall k b w, (fs_write_body k b w).2 = true;
  reliable_write_etag : forall k e w, (fs_write_etag k e w).2 = true
}.

(** Then nothing is torn. *)
Definition reliable_monitor {S : ObjectStore} {FS : CacheFs} {FR : FsReliable} : FsMonitor.
Proof.
  refine {| torn := fun _ _ => false |}; [..|done].
  - intros k b w. by rewrite reliable_write_body.
  - intros k e w. by rewrite reliable_write_etag.
Defined.

Class EtagContent : Type := { content : string -> string -> option bytes }.

Definition etags_ok {EC : EtagContent} (objs : gmap string (bytes * string)) : Prop :=
  forall k b t, objs !! k = Some (b, t) ->
    content k (normalize_etag t) = Some b /\ normalize_etag (str_trim (normalize_etag t)) = normalize_etag t.

Class EtagLaws {EC : EtagContent} {S : ObjectStore} : Prop := {
  put_etags : forall w k b c, etags_ok (objects w) -> etags_ok (objects (s3_put w k b c).1)
}.

Lemma drop_while_id {A} (f : A -> bool) l : drop_while f (drop_while f l) = drop_while f l.
Proof. induction l as [|x l IH]; cbn; [done|]. destruct (f x) eqn:E; [done|]. cbn. by rewrite E. Qed.

Lemma drop_while_app {A} (f : A -> bool) l : exists p, l = p ++ drop_while f l.
Proof.
  induction l as [|x l [p IH]]; cbn; [by exists []|]. destruct (f x); [|by exists []].
  exists (x :: p). cbn. by f_equal.
Qed.

Lemma drop_while_fixed {A} (f : A -> bool) l : drop_while f l = l <-> forall x r, l = x :: r -> f x = false.
Proof.
  destruct l as [|x l]; cbn; [done|]. destruct (f x) eqn:E; split.
  - intros H. destruct (drop_while_app f l) as [p Hp]. rewrite H in Hp.
    apply (f_equal length) in Hp. rewrite length_app in Hp. cbn in Hp. lia.
  - intros H. specialize (H x l eq_refl). congruence.
  - intros _ y r [= <- <-]. done.
  - done.
Qed.

Lemma normalize_etag_id e : normalize_etag (normalize_etag e) = normalize_etag e.
Proof.
  unfold normalize_etag, trim_matches. rewrite list_ascii_of_string_of_list_ascii. f_equal.
  set (f := Ascii.eqb _). set (l := drop_while f (list_ascii_of_string e)). set (r := drop_while f (reverse l)).
  assert (drop_while f (reverse r) = reverse r) as ->.
  { apply drop_while_fixed. intros x t Hx.
    assert (exists q, l = x :: q) as [q Hq].
    { destruct (drop_while_app f (reverse l)) as [p Hp]. fold r in Hp. apply (f_equal reverse) in Hp.
      rewrite reverse_involutive, reverse_app, Hx in Hp. cbn in Hp. by eexists. }
    apply (proj1 (drop_while_fixed f l)) with q; [|done]. apply drop_while_id. }
  rewrite reverse_involutive. f_equal. apply drop_while_id.
Qed.

Section Coherence.
Context {S : ObjectStore} {SL : StoreLaws} {FS : CacheFs} {FL : CacheFsLaws} {FM : FsMonitor}.
Context {EC : EtagContent} {EL : EtagLaws}.

(** Every local copy that is not torn is the body its tag stands for. *)
Definition coherent (w : World) : Prop :=
  etags_ok (objects w) /\ forall k b e, torn w k = false -> read_local k w = Some (b, e) -> content k e = Some b.

Definition torn_kept (w w' : World) : Prop := forall k, torn w k = true -> torn w' k = true.

Lemma not_torn w w' k : torn_kept w w' -> torn w' k = false -> torn w k = false.
Proof. intros H Hk. destruct (torn w k) eqn:E; [|done]. by rewrite (H k E) in Hk. Qed.

Ltac solve_torn := let j := fresh in let H := fresh in intros j H; apply torn_keep in H; destruct_and! H; auto.

Lemma read_local_same w w' k : same_fs w w' -> read_local k w' = read_local k w.
Proof. intros H. unfold read_local. destruct (H k) as [-> ->]. done. Qed.

Lemma coherent_frame w w' : objects w' = objects w -> same_fs w w' -> torn_kept w w' -> coherent w -> coherent w'.
Proof.
  intros Ho Hf Ht [He Hc]. split; [by rewrite Ho|]. intros k b e Hk. rewrite (read_local_same w) by done.
  apply Hc. by apply (not_torn w w').
Qed.

Lemma write_local_objects k b t w : objects (write_local k b t w) = objects w.
Proof.
  unfold write_local. destruct cache_enabled; [|done].
  destruct (mkdir_frame k w) as [Ho _]. destruct (fs_mkdir k w) as [w1 [|]]; [|done].
  destruct (write_body_frame k b w1) as [Ho1 _]. destruct (fs_write_body k b w1) as [w2 [|]]; cbn in *; [|congruence].
  destruct (write_etag_frame k (normalize_etag t) w2) as [Ho2 _]. congruence.
Qed.

(** Nothing but the key's own copy changes, and that copy is good or torn. *)
Lemma write_local_cases k b t w :
  cache_enabled = true ->
  let w' := write_local k b t w in
  torn_kept w w' /\ (forall j, j <> k -> read_local j w' = read_local j w) /\
  (torn w' k = true \/ read_local k w' = read_local k w \/
   fs_body w' k = Some b /\ fs_etag w' k = Some (normalize_etag t)).
Proof.
  intros Hen. unfold write_local. rewrite Hen. destruct (mkdir_frame k w) as [_ Hf0].
  assert (torn_kept w (fs_mkdir k w).1) as T0 by solve_torn.
  destruct (fs_mkdir k w) as [w1 [|]]; cbn in Hf0, T0 |- *.
  2: { split_and!; [done|intros j _; by apply read_local_same|]. right. left. by apply read_local_same. }
  destruct (write_body_frame k b w1) as [_ Hf1]. pose proof (write_body_ok k b w1) as Hok1. pose proof (torn_body k b w1) as B1.
  assert (torn_kept w1 (fs_write_body k b w1).1) as T1 by solve_torn.
  assert (forall j, j <> k -> read_local j (fs_write_body k b w1).1 = read_local j w) as R1.
  { intros j Hj. unfold read_local. rewrite Hen. destruct (Hf1 j) as [-> ->]; [|done]. by destruct (Hf0 j) as [-> ->]. }
  destruct (fs_write_body k b w1) as [w2 [|]]; cbn in *.
  2: { split_and!; [by intros j Hj; auto|done|]. left. by apply B1. }
  destruct (write_etag_frame k (normalize_etag t) w2) as [_ Hf2]. pose proof (write_etag_ok k (normalize_etag t) w2) as Hok2.
  pose proof (torn_etag k (normalize_etag t) w2) as B2.
  assert (torn_kept w2 (fs_write_etag k (normalize_etag t) w2).1) as T2 by solve_torn.
  destruct (fs_write_etag k (normalize_etag t) w2) as [w3 ok]; cbn in *. split_and!.
  - intros j Hj. auto.
  - intros j Hj. rewrite <- (R1 j Hj). unfold read_local. rewrite Hen. by destruct (Hf2 j) as [-> ->].
  - destruct ok; [|left; by apply B2]. right. right. destruct (Hf2 k) as [-> _]. split; [by apply Hok1|by apply Hok2].
Qed.

Lemma write_local_torn k b t w : torn_kept w (write_local k b t w).
Proof.
  destruct cache_enabled eqn:Hen; [by apply (write_local_cases k b t w Hen)|]. unfold write_local. rewrite Hen. by intros j.
Qed.

Lemma write_local_coherent k b t w :
  content k (normalize_etag t) = Some b -> normalize_etag (str_trim (normalize_etag t)) = normalize_etag t ->
  coherent w -> coherent (write_local k b t w).
Proof.
  intros Hct Hpl [He Hc]. split; [by rewrite write_local_objects|]. intros j b' e' Hj.
  destruct cache_enabled eqn:Hen; [|revert Hj; unfold write_local; rewrite Hen; apply Hc].
  destruct (write_local_cases k b t w Hen) as (Ht & Hother & Hown).
  destruct (decide (j = k)) as [->|Hne]; [|rewrite Hother by done; apply Hc; by apply (not_torn _ _ _ Ht)].
  destruct Hown as [Hk|[->|[Hb Hetag]]]; [congruence|apply Hc; by apply (not_torn _ _ _ Ht)|].
  unfold read_local. rewrite Hen, Hb, Hetag. cbn. rewrite Hpl. destruct (String.eqb _ ""); [done|]. by intros [= <- <-].
Qed.

Lemma coherent_get w k : coherent w -> coherent (s3_get w k).1.
Proof. apply coherent_frame; [apply get_objects|apply get_same_fs|solve_torn]. Qed.

Lemma coherent_put w k b c : coherent w -> coherent (s3_put w k b c).1.
Proof.
  intros [He Hc]. split; [by apply put_etags|]. intros j b' e' Hj.
  rewrite (read_local_same w) by apply put_same_fs. apply Hc. revert Hj. apply not_torn. solve_torn.
Qed.

Lemma coherent_delete w k : coherent w -> coherent (s3_delete w k).1.
Proof.
  intros [He Hc]. split.
  - assert (objects (s3_delete w k).1 = objects w \/ objects (s3_delete w k).1 = delete k (objects w)) as [->| ->];
      [|done|].
    { destruct ((s3_delete w k).2) as [[]|e] eqn:E; [right; by apply delete_ok|by eapply delete_err]. }
    intros j b t Hj. apply He. destruct (decide (j = k)) as [->|Hne].
    + by rewrite lookup_delete_eq in Hj.
    + by rewrite lookup_delete_ne in Hj.
  - intros j b' e' Hj. rewrite (read_local_same w) by apply delete_same_fs. apply Hc. revert Hj. apply not_torn. solve_torn.
Qed.

Lemma coherent_populate w k b c et :
  (s3_put w k b c).2 = Ok et -> coherent w -> coherent (populate_after_put k b et (s3_put w k b c).1).
Proof.
  intros Hput Hw. pose proof (coherent_put w k b c Hw) as Hw'. unfold populate_after_put. destruct et as [t|]; [|done].
  apply put_ok in Hput as [_ (t' & [= <-] & Ho)].
  destruct (proj1 Hw' k b t) as [H1 H2]; [rewrite Ho; apply lookup_insert_eq|].
  by apply write_local_coherent.
Qed.

Lemma coherent_invalidate w k : coherent w -> coherent (invalidate_key k w).
Proof.
  intros [He Hc]. unfold invalidate_key. destruct cache_enabled eqn:Hen; [|done].
  destruct (remove_body_frame k w) as [Ho Hf]. split; [by rewrite Ho|]. intros j b e Hk Hj. apply (Hc j b e).
  { revert Hk. apply not_torn. solve_torn. }
  revert Hj. unfold read_local. rewrite Hen. destruct (Hf j) as [-> [->| ->]]; done.
Qed.

Lemma head_etag_post w k :
  coherent w -> st_post (head_etag k) w (fun w' r => coherent w' /\ objects w' = objects w /\ torn_kept w w' /\
    match r with
    | Ok (Some e) => exists b t, objects w !! k = Some (b, t) /\ e = normalize_etag t
    | Ok None => objects w !! k = None
    | Err _ => True
    end).
Proof.
  intros Hw. destruct (head_frame w k) as [Ho Hf]. assert (torn_kept w (s3_head w k).1) as Ht by solve_torn.
  pose proof (coherent_frame _ _ Ho Hf Ht Hw) as Hw'.
  apply st_post_bind, st_post_lift. destruct ((s3_head w k).2) as [et|e] eqn:Hh.
  - apply head_ok in Hh as (b & t & -> & Hb). cbn. split_and!; [done..|]. by exists b, t.
  - destruct (has_code e "NotFound") eqn:He; cbn; split_and!; try done. by eapply head_absent.
Qed.

Lemma cache_object_post w k :
  coherent w -> st_post (cache_get_object_bytes k) w (fun w' r => coherent w' /\ objects w' = objects w /\ torn_kept w w' /\
    match r with
    | Ok (Some (b, et)) => exists t, objects w !! k = Some (b, t) /\ et = Some (normalize_etag t)
    | Ok None => objects w !! k = None
    | Err _ => True
    end).
Proof.
  intros Hw. pose proof (get_object_bytes_optional_reads k w) as Hr.
  assert (coherent (get_object_bytes_optional k w).1) as Hw'.
  { unfold get_object_bytes_optional, st_bind, st_lift. pose proof (coherent_get w k Hw) as Hg.
    destruct (s3_get w k) as [w' [et [b|]|e]]; cbn in *; try done. by destruct (se_no_such_key e). }
  assert (torn_kept w (get_object_bytes_optional k w).1) as Ht.
  { unfold get_object_bytes_optional, st_bind, st_lift. assert (torn_kept w (s3_get w k).1) as Hg by solve_torn.
    destruct (s3_get w k) as [w' [et [b|]|e]]; cbn in *; try done. by destruct (se_no_such_key e). }
  unfold st_post in *. unfold cache_get_object_bytes, st_bind.
  destruct (get_object_bytes_optional k w) as [w' [[[b et]|]|e]]; cbn in *; destruct Hr as [Ho Hr]; [|done|done].
  destruct Hr as (t & -> & Hb). split_and!; [done..|]. by exists t.
Qed.

(** What a cached read leaves and returns. *)
Definition read_post (w : World) (k : string) (w' : World) (r : result NsError (option bytes)) : Prop :=
  coherent w' /\ objects w' = objects w /\ torn_kept w w' /\
  match r with
  | Ok (Some b) => torn w' k = false -> exists t, objects w !! k = Some (b, t)
  | Ok None => objects w !! k = None
  | Err _ => True
  end.

Lemma get_bytes_post w k : coherent w -> st_post (get_bytes k) w (read_post w k).
Proof.
  intros Hw. change (get_bytes k) with (fun w0 => get_bytes k w0). unfold st_post, get_bytes. cbn beta.
  destruct cache_enabled eqn:Hen; cbn [negb].
  2: { change (st_post (do? got <- cache_get_object_bytes k; st_ret (fst <$> got)) w (read_post w k)).
       apply st_post_bind. eapply st_post_mono; [by apply cache_object_post|].
       intros w' [[[b et]|]|e] (Hw' & Ho & Ht & Hr); try done. split_and!; [done..|].
       intros _. destruct Hr as (t & Hb & _). by exists t. }
  match goal with |- context [st_bind (head_etag k) ?f] => set (kont := f) end.
  change (st_post (st_bind (head_etag k) kont) w (read_post w k)).
  apply st_post_bind. eapply st_post_mono; [by apply head_etag_post|].
  intros w1 [[e|]|err] (Hw1 & Ho1 & Ht1 & Hr); subst kont; cbn beta iota; [|done|done].
  destruct Hr as (b & t & Hb & ->). destruct (local_matches_etag (read_local k w) _) as [lb|] eqn:Hm.
  - split_and!; [done..|]. cbn. intros Hk. exists t. unfold local_matches_etag in Hm.
    destruct (read_local k w) as [[lb' le]|] eqn:Hl; [|done]. rewrite normalize_etag_id in Hm.
    destruct (String.eqb_spec le (normalize_etag t)) as [->|]; [|done]. injection Hm as ->.
    destruct Hw as [He Hc]. apply Hc in Hl; [|by apply (not_torn _ _ _ Ht1)]. destruct (He k b t Hb) as [Hb' _]. congruence.
  - apply st_post_bind. eapply st_post_mono; [by apply cache_object_post|].
    intros w2 [[[b2 et]|]|err] (Hw2 & Ho2 & Ht2 & Hr); cbn beta iota.
    + destruct Hr as (t2 & Hb2 & ->). apply st_post_bind. unfold st_post, st_do, st_ret, read_post. cbn.
      rewrite write_local_objects. split_and!; [|congruence| |exists t2; congruence].
      * destruct (proj1 Hw k b2 t2) as [H1 H2]; [congruence|].
        apply write_local_coherent; rewrite ?normalize_etag_id; done.
      * intros j Hj. by apply write_local_torn, Ht2, Ht1.
    + split_and!; cbn; [done|congruence|by intros j Hj; apply Ht2, Ht1|congruence].
    + split_and!; [done|congruence|by intros j Hj; apply Ht2, Ht1|done].
Qed.

Definition disk_reads : CachedReads := {| cache_get := get_bytes; cache_inv := coherent |}.
End Coherence.

(** On a disk whose writes succeed the cache keeps what it promises. *)
Lemma disk_reads_laws {S : ObjectStore} {SL : StoreLaws} {FS : CacheFs} {FL : CacheFsLaws} {FR : FsReliable}
    {EC : EtagContent} {EL : EtagLaws} :
  @CachedReadsLaws S segment_cache (disk_reads (FM := reliable_monitor)).
Proof.
  split.
  - intros k w Hw. eapply st_post_mono; [exact (get_bytes_post (FM := reliable_monitor) w k Hw)|].
    intros w' [[b|]|e] (H1 & H2 & _ & H3); split_and!; try done. by apply H3.
  - intros w k. apply coherent_get.
  - intros w k b c. apply coherent_put.
  - intros w k. apply coherent_delete.
  - intros w k b c et. apply coherent_populate.
  - intros w k. apply coherent_invalidate.
Qed.

Lemma segment_cache_local_laws {S : ObjectStore} {FS : CacheFs} {FL : CacheFsLaws} : @LocalCacheLaws S segment_cache.
Proof.
  split; cbn.
  - intros k b [t|] w; [apply write_local_objects|done].
  - intros k w. unfold invalidate_key. destruct cache_enabled; [apply remove_body_frame|done].
Qed.

(** ** A concrete store and disk

    Entity tags are computed from the body, as S3 does for plain objects; here
    they are an injective encoding of it. *)

Fixpoint tag_of_pos (p : positive) : string :=
  match p with
  | xH => "1"
  | xO p => String "0" (tag_of_pos p)
  | xI p => String "2" (tag_of_pos p)
  end.

Fixpoint pos_of_tag (s : string) : option positive :=
  match s with
  | String "1" EmptyString => Some xH
  | String "0" s => xO <$> pos_of_tag s
  | String "2" s => xI <$> pos_of_tag s
  | _ => None
  end.

Definition etag_of (b : bytes) : string := tag_of_pos (countable.encode b).
#[export] Instance tag_content : EtagContent := {| content := fun _ e => p ← pos_of_tag e; countable.decode p |}.

Lemma pos_of_tag_of p : pos_of_tag (tag_of_pos p) = Some p.
Proof. induction p as [p IH|p IH|]; cbn; [by rewrite IH..|done]. Qed.

Definition tag_char (c : ascii) : bool := in_range c 48 50.

Lemma tag_chars p : str_forallb tag_char (tag_of_pos p) = true.
Proof. by induction p. Qed.

Lemma tag_nonempty p : tag_of_pos p <> "".
Proof. by destruct p. Qed.

Lemma utf8_tag s : str_forallb tag_char s = true -> utf8_chars s = map (fun c => String c "") (list_ascii_of_string s).
Proof.
  induction s as [|c s IH]; [done|]. cbn [str_forallb]. intros [Hc Hs]%andb_true_iff. cbn [utf8_chars list_ascii_of_string map].
  rewrite IH by done. destruct s as [|d s]; [done|]. cbn [list_ascii_of_string map].
  cbn [str_forallb] in Hs. apply andb_true_iff in Hs as [Hd _].
  assert (in_range d 128 191 = false) as ->; [|done]. revert Hd. unfold tag_char, in_range.
  destruct (_ && _) eqn:E, ((128 <=? _) && _) eqn:E'; try done. case_bool. lia.
Qed.

Lemma drop_while_none {A} (f : A -> bool) l : (forall x, x ∈ l -> f x = false) -> drop_while f l = l.
Proof. intros H. apply drop_while_fixed. intros x r ->. apply H. by left. Qed.

Lemma tag_ascii_elem s c : str_forallb tag_char s = true -> c ∈ list_ascii_of_string s -> tag_char c = true.
Proof.
  induction s as [|d s IH]; cbn; [by intros _ ?%elem_of_nil|]. intros [Hd Hs]%andb_true_iff [->|?]%elem_of_cons; auto.
Qed.

Lemma trim_tag s : str_forallb tag_char s = true -> str_trim s = s /\ normalize_etag s = s.
Proof.
  intros Hs. split.
  - unfold str_trim. rewrite utf8_tag by done.
    assert (forall x, x ∈ map (fun c => String c "") (list_ascii_of_string s) -> char_is_whitespace x = false) as Hw.
    { intros x (c & <- & Hc%list_elem_of_In)%list_elem_of_In%in_map_iff. apply tag_ascii_elem in Hc; [|done].
      unfold char_is_whitespace, str_codes. cbn. unfold tag_char, in_range in Hc. case_bool.
      destruct (_ =? 32) eqn:E1, (9 <=? _) eqn:E2, (_ <=? 13) eqn:E3; try done; case_bool; lia. }
    rewrite (drop_while_none _ (map _ _)) by done. rewrite drop_while_none; [rewrite reverse_involutive|intros x; rewrite elem_of_reverse; apply Hw].
    clear. induction s as [|c [|d s] IH]; [done..|]. cbn [list_ascii_of_string map String.concat] in IH |- *.
    rewrite IH. done.
  - unfold normalize_etag, trim_matches.
    assert (forall c, c ∈ list_ascii_of_string s -> Ascii.eqb (ascii_of_nat 34) c = false) as Hq.
    { intros c Hc%tag_ascii_elem; [|done]. destruct (Ascii.eqb_spec (ascii_of_nat 34) c) as [<-|]; done. }
    rewrite (drop_while_none _ (list_ascii_of_string s)) by done. rewrite drop_while_none by (intros c; rewrite elem_of_reverse; apply Hq).
    rewrite reverse_involutive. apply string_of_list_ascii_of_string.
Qed.

Record CacheWorld : Type := mkCacheWorld {
  cw_objects : gmap string (bytes * string);
  cw_body : gmap string bytes;
  cw_etag : gmap string string
}.

Definition cache_store : ObjectStore := {|
  World := CacheWorld;
  objects := cw_objects;
  s3_get := fun w k => (w, match cw_objects w !! k with
    | Some (b, t) => GetOk (Some t) (Some b)
    | None => GetErr no_such_key
    end);
  s3_put := fun w k b c =>
    if mem_cond (cw_objects w !! k) c
    then (mkCacheWorld (<[k := (b, etag_of b)]> (cw_objects w)) (cw_body w) (cw_etag w), Ok (Some (etag_of b)))
    else (w, Err precondition_failed);
  s3_delete := fun w k => (mkCacheWorld (delete k (cw_objects w)) (cw_body w) (cw_etag w), Ok tt)
|}.

#[export] Instance cache_disk : @CacheFs cache_store := {|
  cache_enabled := true;
  fs_body := fun (w : @World cache_store) k => cw_body w !! k;
  fs_etag := fun (w : @World cache_store) k => cw_etag w !! k;
  fs_mkdir := fun _ w => (w, true);
  fs_write_body := fun k b w => (mkCacheWorld (cw_objects w) (<[k := b]> (cw_body w)) (cw_etag w), true);
  fs_write_etag := fun k e w => (mkCacheWorld (cw_objects w) (cw_body w) (<[k := e]> (cw_etag w)), true);
  fs_remove_body := fun k w => mkCacheWorld (cw_objects w) (delete k (cw_body w)) (cw_etag w);
  fs_remove_dir := fun ns w =>
    mkCacheWorld (cw_objects w) (filter (fun e => String.prefix (namespace_prefix ns) e.1 = false) (cw_body w))
      (filter (fun e => String.prefix (namespace_prefix ns) e.1 = false) (cw_etag w));
  s3_head := fun (w : @World cache_store) k => (w, match cw_objects w !! k with
    | Some (_, t) => Ok (Some t)
    | None => Err (mkS3Error false (Some "NotFound") "NotFound")
    end)
|}.

#[export] Instance cache_store_laws : @StoreLaws cache_store.
Proof.
  split; cbn.
  - done.
  - intros w k et b. destruct (cw_objects w !! k) as [[b' t]|]; [|done]. intros [= <- <-]. by exists t.
  - intros w k e. by destruct (cw_objects w !! k) as [[b' t]|].
  - intros w k b c et. destruct (mem_cond _ c) eqn:Hc; [|done]. intros [= <-]. cbn.
    split; [by apply mem_cond_holds|by eexists].
  - intros w k b c e. by destruct (mem_cond _ c); [|left].
  - intros w k b c e. by destruct (mem_cond _ c).
  - done.
  - done.
Qed.

#[export] Instance cache_disk_laws : @CacheFsLaws cache_store cache_disk.
Proof.
  split; try done; cbn.
  - intros k b w. split; [done|]. intros j. split; [done|]. intros Hj. by rewrite lookup_insert_ne.
  - intros k b w _. apply lookup_insert_eq.
  - intros k e w. split; [done|]. intros j. split; [done|]. intros Hj. by rewrite lookup_insert_ne.
  - intros k e w _. apply lookup_insert_eq.
  - intros k w. split; [done|]. intros j. split; [done|]. destruct (decide (j = k)) as [->|Hne].
    + right. apply lookup_delete_eq.
    + left. by rewrite lookup_delete_ne.
  - intros w k et. destruct (cw_objects w !! k) as [[b t]|]; [|done]. intros [= <-]. by exists b, t.
  - intros w k e. by destruct (cw_objects w !! k) as [[b t]|].
  - intros w k b c. unfold same_fs. cbn. by destruct (mem_cond _ c).
Qed.

#[export] Instance cache_disk_reliable : @FsReliable cache_store cache_disk.
Proof. done. Qed.

#[export] Instance cache_store_etags : @EtagLaws tag_content cache_store.
Proof.
  split. intros w k b c He. cbn. destruct (mem_cond _ c); [|done]. cbn. intros j b' t Hj.
  destruct (decide (j = k)) as [->|Hne]; [|rewrite lookup_insert_ne in Hj by done; by apply He].
  rewrite lookup_insert_eq in Hj. injection Hj as <- <-.
  destruct (trim_tag (etag_of b) (tag_chars _)) as [Ht Hn]. rewrite !Hn, Ht. split; [|done].
  cbn. unfold etag_of. rewrite pos_of_tag_of. cbn. apply decode_encode.
Qed.

(** ** Theorems *)

(** What the process does with cached objects: read one, write one and mirror
    it, delete one and drop its copy. *)
Inductive CacheOp : Type :=
| OpRead (k : string)
| OpPut (k : string) (b : bytes)
| OpDelete (k : string).

Definition cache_step {S : ObjectStore} {FS : CacheFs} (w : World) (op : CacheOp) : World :=
  match op with
  | OpRead k => (get_bytes k w).1
  | OpPut k b =>
      let '(w', r) := s3_put w k b PutAlways in
      match r with Ok et => populate_after_put k b et w' | Err _ => w' end
  | OpDelete k =>
      let '(w', r) := s3_delete w k in
      match r with Ok _ => invalidate_key k w' | Err _ => w' end
  end.

(** C28: the cache is never stale: after any sequence of reads, mirrored writes
    and deletes, each of which may fail at the store, a cached read returns the
    object the store holds now (or an error), although most reads do not fetch
    the object.  Writes to the cache directory may fail too; only for a key for
    which one did fail ([torn]) a read may be wrong, see
    [failed_sidecar_serves_stale].  It is assumed that an entity tag identifies a
    body. *)
Theorem cached_read_current {S : ObjectStore} {SL : StoreLaws} {FS : CacheFs} {FL : CacheFsLaws} {FM : FsMonitor}
    {EC : EtagContent} {EL : EtagLaws} ops w k :
  coherent w ->
  let w1 := fold_left cache_step ops w in
  let '(w2, r) := get_bytes k w1 in
  coherent w2 /\ objects w2 = objects w1 /\
  match r with
  | Ok (Some b) => torn w2 k = false -> exists t, objects w1 !! k = Some (b, t)
  | Ok None => objects w1 !! k = None
  | Err _ => True
  end.
Proof.
  intros Hw. assert (coherent (fold_left cache_step ops w)) as H1.
  { revert w Hw. induction ops as [|op ops IH]; intros w Hw; [done|]. cbn [fold_left]. apply IH.
    destruct op as [j|j b|j]; cbn.
    - apply (get_bytes_post w j Hw).
    - pose proof (coherent_populate w j b PutAlways) as Hp. pose proof (coherent_put w j b PutAlways Hw) as Hq.
      destruct (s3_put w j b PutAlways) as [w' [et|e]]; cbn in *; [by apply Hp|done].
    - pose proof (coherent_delete w j Hw) as Hq. destruct (s3_delete w j) as [w' [[]|e]]; cbn in *; [|done].
      by apply coherent_invalidate. }
  pose proof (get_bytes_post _ k H1) as Hg. unfold st_post in Hg. cbn zeta.
  destruct (get_bytes k (fold_left cache_step ops w)) as [w2 r]. destruct Hg as (K1 & K2 & _ & K3). by split_and!.
Qed.

Definition empty_cache : @World cache_store := mkCacheWorld ∅ ∅ ∅.

Definition cache_disk_monitor : @FsMonitor cache_store cache_disk := reliable_monitor.

Lemma cached_read_current_witness :
  let w1 := fold_left (cache_step (S := cache_store)) [OpPut "a" [1]; OpRead "a"; OpPut "a" [2]] empty_cache in
  let '(w2, r) := get_bytes (S := cache_store) "a" w1 in
  @objects cache_store w2 = @objects cache_store w1 /\
  match r with
  | Ok (Some b) => exists t, @objects cache_store w1 !! "a" = Some (b, t)
  | Ok None => @objects cache_store w1 !! "a" = None
  | Err _ => False
  end.
Proof.
  pose proof (cached_read_current (S := cache_store) (FM := cache_disk_monitor) [OpPut "a" [1]; OpRead "a"; OpPut "a" [2]] empty_cache "a"
    ltac:(split; [done|]; intros k b e; done)) as H.
  cbv zeta in *. destruct (get_bytes (S := cache_store) "a" _) as [w2 r] eqn:E. destruct H as (_ & H1 & H2). split; [exact H1|].
  destruct r as [[b|]|e]; [by apply H2|exact H2|]. apply (f_equal snd) in E. revert E. vm_compute. discriminate.
Defined.

(** A disk on which the sidecar of the body [2] cannot be written. *)
Definition flaky_disk : @CacheFs cache_store :=
  @Build_CacheFs cache_store true (@fs_body _ cache_disk) (@fs_etag _ cache_disk) (@fs_mkdir _ cache_disk)
    (@fs_write_body _ cache_disk)
    (fun k e w => if String.eqb e (etag_of [2]) then (w, false) else @fs_write_etag _ cache_disk k e w)
    (@fs_remove_body _ cache_disk) (@fs_remove_dir _ cache_disk) (@s3_head _ cache_disk).

(** a failed write to the cache directory can make a copy stale.  The file is
    replaced before its sidecar, and an error of the sidecar is ignored, so the
    old tag is left beside the new body; when the object gets its old content
    back, the old tag is current again and reads are answered with the other
    body. *)
Theorem failed_sidecar_serves_stale :
  let step := @cache_step cache_store flaky_disk in
  let w := fold_left step [OpPut "k" [1]; OpPut "k" [2]] empty_cache in
  let w1 := (@s3_put cache_store w "k" [1] PutAlways).1 in
  @objects cache_store w1 !! "k" = Some ([1], etag_of [1]) /\
  (@get_bytes cache_store flaky_disk "k" w1).2 = Ok (Some [2]).
Proof. vm_compute. done. Qed.

(** the body and the sidecar of a local copy are two separate writes, so two
    tasks that refresh the same object can interleave them: here the writer
    that stored the new object and a reader that had fetched the old one leave
    the old body under the new tag, and every later read is answered with the
    old body although the store holds the new one. *)
Theorem torn_copy_served :
  let w0 : @World cache_store := (@s3_put cache_store empty_cache "k" [1] PutAlways).1 in
  let w1 := (@s3_put cache_store w0 "k" [2] PutAlways).1 in
  let w2 := (fs_write_body "k" [2] w1).1 in
  let w3 := (fs_write_body "k" [1] w2).1 in
  let w4 := (fs_write_etag "k" (etag_of [1]) w3).1 in
  let w5 := (fs_write_etag "k" (etag_of [2]) w4).1 in
  @objects cache_store w5 !! "k" = Some ([2], etag_of [2]) /\
  (get_bytes (S := cache_store) "k" w5).2 = Ok (Some [1]).
Proof. vm_compute. done. Qed.
