(* ===== verification/Indexer.v ===== *)
(** * The background indexer ([indexer.rs])

    One run merges a range of committed segments into the filter, full-text and
    vector indexes, writes the new index objects, and advances the index cursor
    by a conditional write of the metadata.  A queue decides which namespace is
    indexed next. *)

From Stdlib Require Import ZArith Lia Bool Ascii.
From stdpp Require Import base gmap strings list.
From S2P Require Import Prelude F64 Json Models Filter Keys Schema Meta Wal WalReplay ObjectStore Namespace Durability Compaction VectorEncoding FilterIndex Fts Vector VectorBuild Cache.

(** ** Index objects

    [bincode] of every kind of index object. *)
Class SegmentCodec : Type := {
  fts_serialize : FtsSegment -> option bytes;
  fts_deserialize : bytes -> option FtsSegment;
  filter_serialize : FilterSegment -> option bytes;
  filter_deserialize : bytes -> option FilterSegment;
  l0_serialize : CentroidIndexL0 -> option bytes;
  l0_deserialize : bytes -> option CentroidIndexL0;
  l0_legacy_deserialize : bytes -> option CentroidIndexL0;
  l1_serialize : CentroidIndexL1 -> option bytes;
  l1_deserialize : bytes -> option CentroidIndexL1;
  l2_serialize : CentroidIndexL2 -> option bytes;
  l2_deserialize : bytes -> option CentroidIndexL2;
  routing_serialize : CentroidRouting -> option bytes;
  routing_deserialize : bytes -> option CentroidRouting;
  cluster_serialize : ClusterSegment -> option bytes;
  cluster_deserialize : bytes -> option ClusterSegment
}.

Inductive IxError : Type :=
| IxNs (e : NsError)
| IxWal (e : WalError)
| IxPut (key : string) (e : S3Error)
| IxPutMeta (e : S3Error)
| IxEncode (key : string)
| IxDecode (key : string)
| IxMissingL1 (coarse : Z)
| IxPastCommit (cursor commit : Z)
| IxNoAdvance (cursor current : Z)
| IxList (e : S3Error)
| IxCasExhausted.

(** [From<CentroidIndexL0Legacy>]: the record before [ann_version],
    [has_routing] and [maintenance_passes] were added. *)
Definition from_legacy (legacy : CentroidIndexL0) : CentroidIndexL0 :=
  mkL0 (l0_segment_id legacy) (l0_vector_field legacy) (l0_dimensions legacy) (l0_num_coarse legacy)
    (l0_num_fine_total legacy) (l0_probe_coarse legacy) (l0_probe_fine legacy) (l0_distance_metric legacy)
    (l0_vector_element legacy) (l0_fine_counts legacy) (l0_centroids legacy) ANN_VERSION_V2 false 0.

Definition l0_decode {SC : SegmentCodec} (b : bytes) : option CentroidIndexL0 :=
  match l0_deserialize b with
  | Some l0 => Some l0
  | None => from_legacy <$> l0_legacy_deserialize b
  end.

Definition default_l0 : CentroidIndexL0 :=
  mkL0 0 "" 0 0 0 DEFAULT_PROBE_COARSE DEFAULT_PROBE_FINE CosineDistance F32 [] [] ANN_VERSION_V2 false 0.
Definition default_vector_index : VectorIndex := mkVectorIndex default_l0 ∅ ∅ None ∅.

Definition primary_vector_field {IO : IterOrder} {VL : VectorLib} (schema : Value) (sample : option Document)
  : option string :=
  match vector_fields_from_schema schema with
  | f :: _ => Some f
  | [] => doc ← sample; fst <$> find (fun kv => is_ok (value_to_f64_vec kv.2)) (iter_map (doc_attributes doc))
  end.

Definition vector_fields_to_index {IO : IterOrder} {VL : VectorLib} (schema : Value) (meta : NamespaceMeta)
    (sample : option Document) : list string :=
  let fields := vf_name <$> vector_fields meta in
  let fields := match fields with [] => vector_fields_from_schema schema | _ => fields end in
  let fields := take (Z.to_nat MAX_VECTOR_FIELDS) fields in
  match fields with
  | [] =>
      if negb (String.eqb (vector_field meta) "") then [vector_field meta]
      else match primary_vector_field schema sample with Some name => [name] | None => [] end
  | _ => fields
  end.

(** ** Scheduling *)

Definition HIGH_INDEX_LAG_SEGMENTS : Z := 4.
Definition BURST_INDEX_LAG_SEGMENTS : Z := 8.
Definition MAX_SEGMENTS_BURST_PER_TICK : Z := 8.
Definition MAX_INDEX_TIME_PER_NS_PER_TICK : Z := 2000.

Definition unindexed_wal_segments (meta : NamespaceMeta) : Z :=
  if wal_commit_seq meta <=? index_cursor meta then 0 else wal_commit_seq meta - index_cursor meta.

Definition index_scheduling_lag (meta : NamespaceMeta) : Z := unindexed_wal_segments meta.

Definition segments_per_background_tick (lag competing_namespaces : Z) : Z :=
  if lag =? 0 then 1
  else if (competing_namespaces <=? 1) || (BURST_INDEX_LAG_SEGMENTS <=? lag)
  then clampZ lag 1 MAX_SEGMENTS_BURST_PER_TICK
  else if HIGH_INDEX_LAG_SEGMENTS <=? lag then 2
  else 1.

(** Milliseconds. *)
Definition background_tick_time_limit (lag competing_namespaces : Z) : option Z :=
  if (competing_namespaces <=? 1) || (BURST_INDEX_LAG_SEGMENTS <=? lag) then None
  else Some MAX_INDEX_TIME_PER_NS_PER_TICK.

Definition sort_namespaces_by_index_lag (names : list string) (lag : gmap string Z) : list string :=
  sort_by (fun a b => Z.compare (default 0 (lag !! b)) (default 0 (lag !! a))) names.

Definition needs_indexing (meta : NamespaceMeta) : bool := index_cursor meta <? wal_commit_seq meta.

(** ** The record an index commit writes *)

Definition set_index (cursor fts filter : Z) (meta : NamespaceMeta) : NamespaceMeta :=
  mkMeta cursor fts (push_segment_id (fts_segment_ids meta) fts)
    (vector_segment_id meta) (vector_segment_ids meta)
    filter (push_segment_id (filter_segment_ids meta) filter) (vector_fields meta)
    (vector_field meta) (dimensions meta) (wal_commit_seq meta) (wal_snapshot_seq meta) (schema meta)
    (distance_metric meta) (preferred_ann_version meta).

Definition set_preferred_ann_version (v : Z) (meta : NamespaceMeta) : NamespaceMeta :=
  mkMeta (index_cursor meta) (Meta.fts_segment_id meta) (fts_segment_ids meta)
    (vector_segment_id meta) (vector_segment_ids meta)
    (filter_segment_id meta) (filter_segment_ids meta) (vector_fields meta)
    (vector_field meta) (dimensions meta) (wal_commit_seq meta) (wal_snapshot_seq meta) (schema meta)
    (distance_metric meta) v.

Definition meta_after_index_commit (meta : NamespaceMeta) (cursor fts filter : Z)
    (vector_fields : list VectorFieldConfig) (indexer_ann_version : Z) : result IxError NamespaceMeta :=
  if wal_commit_seq meta <? cursor then Err (IxPastCommit cursor (wal_commit_seq meta))
  else if cursor <=? index_cursor meta then Err (IxNoAdvance cursor (index_cursor meta))
  else
    let next := set_index cursor fts filter meta in
    let next := sync_legacy_vector_fields (set_vector_fields vector_fields next) in
    Ok (if ANN_VERSION_V3 <=? indexer_ann_version then set_preferred_ann_version ANN_VERSION_V3 next else next).

Definition primary_fts_field (meta : NamespaceMeta) : string :=
  default "" (head (index_fields_from_schema (schema meta))).

Section Indexer.
Context {IO : IterOrder} {WC : WalCodec} {MC : MetaCodec} {S : ObjectStore} {LC : LocalCache} {CR : CachedReads}.
Context {SC : SegmentCodec} {TL : TextLib} {FT : F64Text} {VL : VectorLib}.

(** Process configuration: the corrupt-segment policy, the tokenizer options,
    the cap on probed clusters and the layout of new vector indexes. *)
Context (policy : WalCorruptPolicy) (opts : FtsTokenizeOptions) (max_probe_clusters : Z) (ann_build : AnnBuildConfig).

Definition st_ns {A} (m : St NsError A) : St IxError A := fun w =>
  let '(w', r) := m w in (w', match r with Ok a => Ok a | Err e => Err (IxNs e) end).

Definition put_and_cache (key : string) (body : bytes) : St IxError unit :=
  do? r <- st_lift (fun w => s3_put w key body PutAlways);
  match r with
  | Ok etag => st_do (cache_populate key body etag)
  | Err e => st_err (IxPut key e)
  end.

(** [x.encode()?] followed by the write. *)
Definition put_encoded (key : string) (body : option bytes) : St IxError unit :=
  do? b <- st_result (ok_or body (IxEncode key));
  put_and_cache key b.

(** ** Loading *)

Definition load_fts_segment (namespace : string) (segment_id : Z) : St IxError (option FtsSegment) :=
  if segment_id =? 0 then st_ret None
  else
    let key := fts_segment_key namespace segment_id in
    do? b <- st_ns (cache_get key);
    match b with
    | None => st_ret None
    | Some b => do? seg <- st_result (ok_or (fts_deserialize b) (IxDecode key)); st_ret (Some seg)
    end.

Definition load_filter_segment (namespace : string) (segment_id : Z) : St IxError (option FilterSegment) :=
  if segment_id =? 0 then st_ret None
  else
    let key := filter_segment_key namespace segment_id in
    do? b <- st_ns (cache_get key);
    match b with
    | None => st_ret None
    | Some b => do? seg <- st_result (ok_or (filter_deserialize b) (IxDecode key)); st_ret (Some seg)
    end.

Definition load_filter_segment_for_query (namespace : string) (meta : NamespaceMeta)
  : St IxError (option FilterSegment) :=
  if (filter_segment_id meta =? 0) || (index_cursor meta =? 0) then st_ret None
  else load_filter_segment namespace (filter_segment_id meta).

Definition load_fts_segment_for_query (namespace : string) (meta : NamespaceMeta)
  : St IxError (option FtsSegment) :=
  if (Meta.fts_segment_id meta =? 0) || (index_cursor meta =? 0) then st_ret None
  else load_fts_segment namespace (Meta.fts_segment_id meta).

Definition cache_get_with_legacy_fallback (key : string) (legacy_key : option string)
  : St IxError (option bytes) :=
  do? b <- st_ns (cache_get key);
  match b, legacy_key with
  | Some b, _ => st_ret (Some b)
  | None, Some lk => st_ns (cache_get lk)
  | None, None => st_ret None
  end.

Definition load_vector_l0_for_field (namespace : string) (meta : NamespaceMeta) (field : string)
  : St IxError (option CentroidIndexL0) :=
  match find (fun f => String.eqb (vf_name f) field) (effective_vector_fields meta) with
  | None => st_ret None
  | Some cfg =>
      if (vf_segment_id cfg =? 0) || (index_cursor meta =? 0) || (vf_dimensions cfg =? 0) then st_ret None
      else
        let use_legacy := vector_index_uses_legacy_paths meta field in
        do? b <- cache_get_with_legacy_fallback (l0_key namespace field)
                   (then_some use_legacy (l0_key namespace ""));
        match b with
        | None => st_ret None
        | Some b =>
            do? l0 <- st_result (ok_or (l0_decode b) (IxDecode (l0_key namespace field)));
            st_ret (Some (clamp_probe_plan_for_query max_probe_clusters
              (align_with_namespace_meta meta (Some (ab_probe_coarse ann_build, ab_probe_fine ann_build)) l0)))
        end
  end.

(** The objects [0..n] of one kind that exist. *)
Fixpoint load_each {A} (key legacy : Z -> string) (use_legacy : bool) (decode : bytes -> option A)
    (ids : list Z) (acc : gmap Z A) : St IxError (gmap Z A) :=
  match ids with
  | [] => st_ret acc
  | id :: rest =>
      do? b <- cache_get_with_legacy_fallback (key id) (then_some use_legacy (legacy id));
      match b with
      | None => load_each key legacy use_legacy decode rest acc
      | Some b =>
          do? a <- st_result (ok_or (decode b) (IxDecode (key id)));
          load_each key legacy use_legacy decode rest (<[id := a]> acc)
      end
  end.

Definition load_vector_index_full_for_field (namespace : string) (meta : NamespaceMeta) (field : string)
  : St IxError (option VectorIndex) :=
  do? l0 <- load_vector_l0_for_field namespace meta field;
  match l0 with
  | None => st_ret None
  | Some l0 =>
      if l0_num_fine_total l0 =? 0 then st_ret None
      else
        let use_legacy := vector_index_uses_legacy_paths meta field in
        do? l1 <- load_each (l1_key namespace field) (l1_key namespace "") use_legacy l1_deserialize
                    (range0 (l0_num_coarse l0)) ∅;
        do? clusters <- load_each (cluster_key namespace field) (cluster_key namespace "") use_legacy
                    cluster_deserialize (range0 (l0_num_fine_total l0)) ∅;
        st_ret (Some (mkVectorIndex l0 l1 clusters None ∅))
  end.

Fixpoint load_l0s (namespace : string) (meta : NamespaceMeta) (cfgs : list VectorFieldConfig)
    (out : gmap string CentroidIndexL0) : St IxError (gmap string CentroidIndexL0) :=
  match cfgs with
  | [] => st_ret out
  | cfg :: rest =>
      if (vf_segment_id cfg =? 0) || (index_cursor meta =? 0) || (vf_dimensions cfg =? 0)
      then load_l0s namespace meta rest out
      else
        do? l0 <- load_vector_l0_for_field namespace meta (vf_name cfg);
        load_l0s namespace meta rest
          (match l0 with
           | Some l0 => if 0 <? l0_num_fine_total l0 then <[vf_name cfg := l0]> out else out
           | None => out
           end)
  end.

Definition load_vector_l0_for_query (namespace : string) (meta : NamespaceMeta)
  : St IxError (gmap string CentroidIndexL0) :=
  load_l0s namespace meta (effective_vector_fields meta) ∅.

Fixpoint load_full (namespace : string) (meta : NamespaceMeta) (cfgs : list VectorFieldConfig)
    (out : gmap string VectorIndex) : St IxError (gmap string VectorIndex) :=
  match cfgs with
  | [] => st_ret out
  | cfg :: rest =>
      do? idx <- load_vector_index_full_for_field namespace meta (vf_name cfg);
      load_full namespace meta rest
        (match idx with Some idx => <[vf_name cfg := idx]> out | None => out end)
  end.

Definition load_vector_indexes_full_for_eval (namespace : string) (meta : NamespaceMeta)
  : St IxError (gmap string VectorIndex) :=
  load_full namespace meta (effective_vector_fields meta) ∅.

(** ** The delta of a range of segments *)

(** [doc.id.clone(), doc]. *)
Definition keyed (docs : list Document) : list (string * Document) := (fun d => (doc_id d, d)) <$> docs.

Fixpoint entries_delta (entries : list WalEntry) : result WalError (list (string * Document) * list string) :=
  match entries with
  | [] => Ok ([], [])
  | entry :: rest =>
      let? docs := into_documents entry in
      let? (ups, dels) := entries_delta rest in
      Ok (keyed docs ++ ups, deletes entry ++ dels)
  end.

Definition wal_ix {A} (r : result WalError A) : result IxError A :=
  match r with Ok a => Ok a | Err e => Err (IxWal e) end.

Definition has_patches (entry : WalEntry) : bool := match patches entry with [] => false | _ => true end.

Definition index_delta_from_wal_entries (namespace : string) (cursor : Z) (entries : list WalEntry)
  : St IxError (list (string * Document) * list string) :=
  if negb (existsb has_patches entries) then st_result (wal_ix (entries_delta entries))
  else
    do? baseline <- st_ns (docs_at_index_cursor policy namespace cursor);
    do? out <- st_result (wal_ix (collect_index_delta baseline entries));
    st_ret out.2.

(** The segments being updated and the delta collected so far. *)
Record DeltaState : Type := mkDelta {
  ds_fts : FtsSegment;
  ds_filter : FilterSegment;
  ds_upserts : list (string * Document);
  ds_deletes : list string
}.

Definition apply_batch (schema : Value) (ups : list (string * Document)) (dels : list string) (st : DeltaState)
  : DeltaState :=
  mkDelta (fts_apply_delta opts (ds_fts st) ups dels) (filter_apply_delta (ds_filter st) schema ups dels)
    (ds_upserts st ++ ups) (ds_deletes st ++ dels).

(** The loop of [stream_index_delta_from_wal]; [st0] is its initial state. *)
Fixpoint stream_loop (namespace : string) (cursor from to : Z) (schema : Value) (st0 : DeltaState)
    (seqs : list Z) (st : DeltaState) : St IxError DeltaState :=
  match seqs with
  | [] => st_ret st
  | seq :: rest =>
      do? entry <- st_ns (read_wal_entry namespace seq);
      if has_patches entry then
        do? entries <- st_ns (replay_wal_entries namespace from to);
        do? (ups, dels) <- index_delta_from_wal_entries namespace cursor entries;
        st_ret (mkDelta (fts_apply_delta opts (ds_fts st0) ups dels)
                  (filter_apply_delta (ds_filter st0) schema ups dels) ups dels)
      else
        do? docs <- st_result (wal_ix (into_documents entry));
        stream_loop namespace cursor from to schema st0 rest (apply_batch schema (keyed docs) (deletes entry) st)
  end.

Definition stream_index_delta_from_wal (namespace : string) (cursor from to : Z) (fts : FtsSegment)
    (filter : FilterSegment) (schema : Value) : St IxError DeltaState :=
  let st0 := mkDelta fts filter [] [] in
  stream_loop namespace cursor from to schema st0 (range_incl from to) st0.

(** ** Writing a vector index *)

Fixpoint put_each {A} (key : A -> string) (body : A -> option bytes) (items : list A) : St IxError unit :=
  match items with
  | [] => st_ret tt
  | x :: rest => do? _ <- put_encoded (key x) (body x); put_each key body rest
  end.

(** L0 is encoded first and written last. *)
Definition write_vector_index (namespace field : string) (vi : VectorIndex) : St IxError unit :=
  do? l0_body <- st_result (ok_or (l0_serialize (vi_l0 vi)) (IxEncode (l0_key namespace field)));
  do? _ <- put_each (fun l1 => l1_key namespace field (l1_coarse_id l1)) l1_serialize (iter_values (vi_l1 vi));
  do? _ <- put_each (fun e : Z * ClusterSegment => cluster_key namespace field e.1)
             (fun e => cluster_serialize e.2) (iter_map (vi_clusters vi));
  do? _ <- match vi_routing vi with
           | Some r => put_encoded (routing_key namespace field) (routing_serialize r)
           | None => st_ret tt
           end;
  do? _ <- put_each (fun e : (Z * Z) * CentroidIndexL2 => l2_key namespace field e.1.1 e.1.2)
             (fun e => l2_serialize e.2) (iter_map (vi_l2 vi));
  put_and_cache (l0_key namespace field) l0_body.

(** [segment_id = to] in L0, every L1 and every cluster. *)
Definition stamp_segment (to : Z) (vi : VectorIndex) : VectorIndex :=
  let l0 := vi_l0 vi in
  mkVectorIndex
    (mkL0 to (l0_vector_field l0) (l0_dimensions l0) (l0_num_coarse l0) (l0_num_fine_total l0)
       (l0_probe_coarse l0) (l0_probe_fine l0) (l0_distance_metric l0) (l0_vector_element l0)
       (l0_fine_counts l0) (l0_centroids l0) (l0_ann_version l0) (l0_has_routing l0) (l0_maintenance_passes l0))
    ((fun l1 => mkL1 to (l1_coarse_id l1) (l1_global_id_start l1) (l1_num_fine l1) (l1_centroids l1)) <$> vi_l1 vi)
    ((fun c => mkCluster to (cs_centroid_id c) (cs_members c)) <$> vi_clusters vi)
    (vi_routing vi) (vi_l2 vi).

Definition st_vec {A} (r : result Z A) : St IxError A :=
  st_result (match r with Ok a => Ok a | Err c => Err (IxMissingL1 c) end).

(** The vector index of one field after the delta. *)
Definition update_vector_index (namespace : string) (meta : NamespaceMeta) (to : Z)
    (ups : list (string * Document)) (dels : list string) (name : string) (vindex : VectorIndex)
  : St IxError VectorIndex :=
  let build docs := vector_build to name (distance_metric meta) ann_build docs (schema meta) in
  if l0_num_fine_total (vi_l0 vindex) =? 0 then st_ret (default vindex (build ups))
  else
    do? vindex <- st_vec (vector_apply_delta vindex ups dels);
    if needs_full_rebuild vindex then
      do? all_docs <- st_ns (docs_at_index_cursor policy namespace to);
      st_ret (default vindex (build (iter_map all_docs)))
    else st_ret vindex.

(** The column entry of an index just written. *)
Definition record_vector_field (schema : Value) (to : Z) (name : string) (dims : Z) (vfs : list VectorFieldConfig)
  : list VectorFieldConfig :=
  let element := vector_element_for_field schema name in
  match update_slot name (fun f => mkVectorField (vf_name f) dims element to (push_segment_id (vf_segment_ids f) to)) vfs with
  | Some vfs => vfs
  | None =>
      if lenZ vfs <? MAX_VECTOR_FIELDS
      then vfs ++ [mkVectorField name dims element to (push_segment_id [] to)]
      else vfs
  end.

Definition index_vector_field (namespace : string) (meta : NamespaceMeta) (to : Z)
    (ups : list (string * Document)) (dels : list string) (vfs : list VectorFieldConfig) (name : string)
  : St IxError (list VectorFieldConfig) :=
  do? loaded <- load_vector_index_full_for_field namespace meta name;
  do? vindex <- update_vector_index namespace meta to ups dels name (default default_vector_index loaded);
  if 0 <? l0_num_fine_total (vi_l0 vindex) then
    let vindex := stamp_segment to vindex in
    do? _ <- write_vector_index namespace name vindex;
    st_ret (record_vector_field (schema meta) to name (l0_dimensions (vi_l0 vindex)) vfs)
  else st_ret vfs.

Fixpoint index_vector_fields (namespace : string) (meta : NamespaceMeta) (to : Z)
    (ups : list (string * Document)) (dels : list string) (names : list string) (vfs : list VectorFieldConfig)
  : St IxError (list VectorFieldConfig) :=
  match names with
  | [] => st_ret vfs
  | name :: rest =>
      do? vfs <- index_vector_field namespace meta to ups dels vfs name;
      index_vector_fields namespace meta to ups dels rest vfs
  end.

(** ** One run *)

(** The last segment a run merges. *)
Definition index_target (meta : NamespaceMeta) (max_segments : option Z) : Z :=
  let from := sat_add64 (index_cursor meta) 1 in
  match max_segments with
  | Some max => Z.min (wal_commit_seq meta) (sat_add64 from (sat_sub max 1))
  | None => wal_commit_seq meta
  end.

(** Everything before the metadata is read again: the index objects of [to] are
    written; the vector columns are returned. *)
Definition index_build (namespace : string) (meta : NamespaceMeta) (to : Z) : St IxError (list VectorFieldConfig) :=
  let from := sat_add64 (index_cursor meta) 1 in
  let field := primary_fts_field meta in
  do? fts <- load_fts_segment namespace (Meta.fts_segment_id meta);
  do? filt <- load_filter_segment namespace (filter_segment_id meta);
  do? ds <- stream_index_delta_from_wal namespace (index_cursor meta) from to
              (default (mkFts to field 0 0 ∅ ∅) fts) (default (mkFilterSegment to ∅ ∅) filt) (schema meta);
  let segment := ds_fts ds in
  let segment := mkFts to (fts_field segment) (num_docs segment) (total_doc_len segment) (doc_lengths segment)
                   (Fts.postings segment) in
  let filter_segment := mkFilterSegment to (all_doc_ids (ds_filter ds)) (FilterIndex.postings (ds_filter ds)) in
  do? _ <- put_encoded (filter_segment_key namespace to) (filter_serialize filter_segment);
  do? _ <- put_encoded (fts_segment_key namespace to) (fts_serialize segment);
  let vfs := vector_fields meta in
  let vfs :=
    match vfs with
    | [] =>
        if negb (String.eqb (vector_field meta) "") && (0 <? dimensions meta)
        then [mkVectorField (vector_field meta) (dimensions meta)
                (vector_element_for_field (schema meta) (vector_field meta))
                (vector_segment_id meta) (vector_segment_ids meta)]
        else []
    | _ => vfs
    end in
  index_vector_fields namespace meta to (ds_upserts ds) (ds_deletes ds)
    (vector_fields_to_index (schema meta) meta (snd <$> head (ds_upserts ds))) vfs.

(** The conditional write, under the commit lock of the namespace: [Some tt]
    when the run is over, [None] to retry. *)
Definition index_commit (namespace : string) (to : Z) (vfs : list VectorFieldConfig) (last_attempt : bool)
  : St IxError (option unit) :=
  do? cur <- st_ns (fetch_meta namespace);
  match cur with
  | None => st_ret (Some tt)
  | Some (fresh_meta, fresh_etag) =>
      if to <=? index_cursor fresh_meta then st_ret (Some tt)
      else if wal_commit_seq fresh_meta <? to then st_ret None
      else
        do? next_meta <- st_result (meta_after_index_commit fresh_meta to to to vfs (ab_ann_version ann_build));
        do? body <- st_result (ok_or (meta_to_vec next_meta) (IxEncode (meta_key namespace)));
        do? r <- st_lift (fun w => s3_put w (meta_key namespace) body (cas_cond fresh_etag));
        match r with
        | Ok _ =>
            do? _ <- st_try (st_ns (maybe_compact_wal policy namespace));
            st_ret (Some tt)
        | Err e =>
            if has_code e "PreconditionFailed" && negb last_attempt then st_ret None
            else st_err (IxPutMeta e)
        end
  end.

(** What follows the index writes: the metadata is read again before the lock
    is taken. *)
Definition index_publish (namespace : string) (to : Z) (vfs : list VectorFieldConfig) (last_attempt : bool)
  : St IxError (option unit) :=
  do? cur <- st_ns (fetch_meta namespace);
  match cur with
  | None => st_ret (Some tt)
  | Some (fresh_meta, _) =>
      if wal_commit_seq fresh_meta <=? index_cursor fresh_meta then st_ret (Some tt)
      else if to <=? index_cursor fresh_meta then st_ret (Some tt)
      else if wal_commit_seq fresh_meta <? to then st_ret None
      else index_commit namespace to vfs last_attempt
  end.

Definition index_attempt (namespace : string) (max_segments : option Z) (last_attempt : bool)
  : St IxError (option unit) :=
  do? cur <- st_ns (fetch_meta namespace);
  match cur with
  | None => st_ret (Some tt)
  | Some (meta, _) =>
      if wal_commit_seq meta <=? index_cursor meta then st_ret (Some tt)
      else
        let to := index_target meta max_segments in
        do? vfs <- index_build namespace meta to;
        index_publish namespace to vfs last_attempt
  end.

Fixpoint index_loop (attempts : nat) (namespace : string) (max_segments : option Z) : St IxError unit :=
  match attempts with
  | O => st_err IxCasExhausted
  | Datatypes.S n =>
      do? r <- index_attempt namespace max_segments (Nat.eqb n 0);
      match r with
      | Some _ => st_ret tt
      | None => index_loop n namespace max_segments
      end
  end.

Definition index_wal_range (namespace : string) (max_segments : option Z) : St IxError unit :=
  index_loop META_RETRIES namespace max_segments.
End Indexer.

(** ** The work queue *)

(** One page of the common prefixes under a prefix, and the continuation
    token ([ListObjectsV2]). *)
Class ListStore {S : ObjectStore} : Type := {
  s3_list_prefixes : World -> string -> option string -> World * result S3Error (list (option string) * option string)
}.

Record BackgroundIndexer : Type := mkIndexer {
  queue : list string;
  queued : gset string
}.

Definition wake (namespace : string) (bi : BackgroundIndexer) : BackgroundIndexer :=
  if decide (namespace ∈ queued bi) then bi
  else mkIndexer (queue bi ++ [namespace]) ({[namespace]} ∪ queued bi).

(** [p.strip_prefix(ROOT_PREFIX).and_then(|s| s.strip_suffix('/')).unwrap_or(p)]. *)
Definition strip_suffix_slash (s : string) : option string :=
  match reverse (String.list_ascii_of_string s) with
  | c :: r => if Ascii.eqb c "/"%char then Some (String.string_of_list_ascii (reverse r)) else None
  | [] => None
  end.

Definition prefix_name (p : string) : string :=
  default p (s ← strip_prefix ROOT_PREFIX p; strip_suffix_slash s).

Section Queue.
Context {IO : IterOrder} {WC : WalCodec} {MC : MetaCodec} {S : ObjectStore} {LS : ListStore}.
Context {LC : LocalCache} {CR : CachedReads} {SC : SegmentCodec} {TL : TextLib} {FT : F64Text} {VL : VectorLib}.
Context (policy : WalCorruptPolicy) (opts : FtsTokenizeOptions) (max_probe_clusters : Z) (ann_build : AnnBuildConfig).

(** The pages of a listing; [fuel] bounds their number. *)
Fixpoint list_pages (fuel : nat) (token : option string) (names : list string) : St IxError (list string) :=
  match fuel with
  | O => st_ret names
  | Datatypes.S fuel =>
      do? out <- st_lift (fun w => s3_list_prefixes w ROOT_PREFIX token);
      match out with
      | Err e => st_err (IxList e)
      | Ok (prefixes, next) =>
          let names := names ++ filter (fun n => n <> "") (prefix_name <$> omap id prefixes) in
          match next with
          | None => st_ret names
          | Some _ => list_pages fuel next names
          end
      end
  end.

Definition list_namespace_names (fuel : nat) : St IxError (list string) :=
  do? names <- list_pages fuel None [];
  st_ret (dedup (sort_by str_cmp names)).

(** The namespaces with work, with their lag. *)
Fixpoint active_namespaces (names : list string) (lag : gmap string Z) (active : list string)
  : St IxError (gmap string Z * list string) :=
  match names with
  | [] => st_ret (lag, active)
  | name :: rest =>
      do? cur <- st_ns (fetch_meta name);
      match cur with
      | None => active_namespaces rest lag active
      | Some (meta, _) =>
          let l := index_scheduling_lag meta in
          if (0 <? l) || needs_wal_compaction meta
          then active_namespaces rest (<[name := l]> lag) (active ++ [name])
          else active_namespaces rest lag active
      end
  end.

Definition refresh_work_queue (fuel : nat) (bi : BackgroundIndexer) : St IxError BackgroundIndexer :=
  do? listed <- list_namespace_names fuel;
  do? (lag, active) <- active_namespaces (iter_set (queued bi ∪ list_to_set listed)) ∅ [];
  let active := sort_namespaces_by_index_lag active lag in
  st_ret (mkIndexer active (list_to_set active)).

(** The store after a run that exceeded its time slice and was dropped at one of
    its await points; [None] when the run ends in time. *)
Context (dropped : string -> World -> option World).

Definition index_namespace_timeboxed (namespace : string) (max_segments : Z) (time_limit : option Z)
  : St IxError bool :=
  let work := index_wal_range policy opts max_probe_clusters ann_build namespace (Some (Z.max max_segments 1)) in
  do? _ <- (fun w =>
    match time_limit, dropped namespace w with
    | Some _, Some w' => (w', Ok tt)
    | _, _ => work w
    end);
  do? cur <- st_ns (fetch_meta namespace);
  match cur with
  | None => st_ret false
  | Some (meta, _) =>
      let still_indexing := needs_indexing meta in
      do? _ <- (if still_indexing then st_ret (Ok 0) else st_try (st_ns (maybe_compact_wal policy namespace)));
      st_ret (still_indexing || needs_wal_compaction meta)
  end.

(** The lag of every queued namespace. *)
Fixpoint queue_lags (names : list string) (lag : gmap string Z) : St IxError (gmap string Z) :=
  match names with
  | [] => st_ret lag
  | name :: rest =>
      do? cur <- st_ns (fetch_meta name);
      queue_lags rest (match cur with Some (meta, _) => <[name := index_scheduling_lag meta]> lag | None => lag end)
  end.

(** One turn of the round; an error counts as work left. *)
Definition tick_turn (round_len : Z) (lag_by_ns : gmap string Z) (st : World * BackgroundIndexer)
  : World * BackgroundIndexer :=
  let '(w, bi) := st in
  match queue bi with
  | [] => st
  | namespace :: rest =>
      let lag := default 0 (lag_by_ns !! namespace) in
      let '(w, r) := index_namespace_timeboxed namespace (segments_per_background_tick lag round_len)
                       (background_tick_time_limit lag round_len) w in
      let still_work := match r with Ok b => b | Err _ => true end in
      (w, if still_work then mkIndexer (rest ++ [namespace]) (queued bi)
          else mkIndexer rest (queued bi ∖ {[namespace]}))
  end.

Fixpoint compaction_pass (names : list string) : St IxError unit :=
  match names with
  | [] => st_ret tt
  | name :: rest =>
      do? cur <- st_ns (fetch_meta name);
      match cur with
      | None => compaction_pass rest
      | Some (meta, _) =>
          do? _ <- (if needs_wal_compaction meta then st_try (st_ns (maybe_compact_wal policy name))
                    else st_ret (Ok 0));
          compaction_pass rest
      end
  end.

(** The queue changes even when the tick returns an error. *)
Definition tick (fuel : nat) (bi : BackgroundIndexer) (w : World) : World * BackgroundIndexer * result IxError unit :=
  match refresh_work_queue fuel bi w with
  | (w, Err e) => (w, bi, Err e)
  | (w, Ok bi) =>
      let round_len := lenZ (queue bi) in
      match queue_lags (queue bi) ∅ w with
      | (w, Err e) => (w, bi, Err e)
      | (w, Ok lag_by_ns) =>
          let '(w, bi) := Nat.iter (length (queue bi)) (tick_turn round_len lag_by_ns) (w, bi) in
          let '(w, r) := (do? names <- list_namespace_names fuel; compaction_pass names) w in
          (w, bi, r)
      end
  end.
End Queue.
