(* ===== verification/IndexerMonitor.v ===== *)
(** * Index runs in which the metadata was not misread

    [agree] (see [Monitor]) for the programs of [Indexer]: an index run that ends
    with the flag not set is the run on the recognised store. *)

From Stdlib Require Import ZArith Lia Bool.
From stdpp Require Import base gmap strings list.
From S2P Require Import Prelude F64 Json Models Keys Schema Meta Wal WalReplay ObjectStore Namespace Monitor Durability Compaction VectorEncoding FilterIndex Fts Vector VectorBuild Cache Indexer.

Definition recognised_reads {S : ObjectStore} {LC : LocalCache} (CR : CachedReads) : @CachedReads _ (recognised_cache LC) :=
  @Build_CachedReads (recognised S) (recognised_cache LC) (@cache_get S LC CR) (@cache_inv S LC CR).

Lemma recognised_reads_laws {S : ObjectStore} {LC : LocalCache} {CR : CachedReads} :
  CachedReadsLaws -> @CachedReadsLaws _ _ (recognised_reads CR).
Proof. intros [H1 H2 H3 H4 H5 H6]. by split. Qed.

(** A cached read does not clear the flag. *)
Class ReadsMonitor {S : ObjectStore} {MO : Monitor} {LC : LocalCache} {CR : CachedReads} : Prop := {
  misled_cache_get : forall k w, misled w = true -> misled (cache_get k w).1 = true
}.

Section IndexerAgree.
Context {IO : IterOrder} {WC : WalCodec} {MC : MetaCodec} {S : ObjectStore} {MO : Monitor} {LC : LocalCache} {CM : CacheMonitor}.
Context {CR : CachedReads} {RM : ReadsMonitor} {SC : SegmentCodec} {TL : TextLib} {FT : F64Text} {VL : VectorLib}.
Context (policy : WalCorruptPolicy) (opts : FtsTokenizeOptions) (max_probe_clusters : Z) (ann_build : AnnBuildConfig).
Local Notation RS := (recognised S).
Local Notation RR := (recognised_reads CR).
Local Notation RC := (recognised_cache LC).

Lemma agree_st_ns {A} (m : St NsError A) m' : agree m m' -> agree (st_ns m) (st_ns (S := RS) m').
Proof.
  intros Hm w. destruct (Hm w) as [M1 M2]. unfold st_ns. destruct (m w) as [w1 r]; cbn in M1, M2 |- *.
  split; [done|]. intros H. by rewrite <- (M2 H).
Qed.

Lemma agree_cache_get k : agree (cache_get k) (@cache_get RS RC RR k).
Proof. exact (agree_keep (cache_get k) (misled_cache_get k)). Qed.
#[local] Hint Resolve agree_st_ns agree_cache_get : agree.

Lemma agree_put_and_cache k b : agree (put_and_cache k b) (put_and_cache (LC := RC) k b).
Proof. unfold put_and_cache. solve_agree. Qed.
#[local] Hint Resolve agree_put_and_cache : agree.

Lemma agree_put_encoded k b : agree (put_encoded k b) (put_encoded (LC := RC) k b).
Proof. unfold put_encoded. solve_agree. Qed.
#[local] Hint Resolve agree_put_encoded : agree.

Lemma agree_load_fts ns id : agree (load_fts_segment ns id) (load_fts_segment (CR := RR) ns id).
Proof. unfold load_fts_segment. solve_agree. Qed.

Lemma agree_load_filter ns id : agree (load_filter_segment ns id) (load_filter_segment (CR := RR) ns id).
Proof. unfold load_filter_segment. solve_agree. Qed.
#[local] Hint Resolve agree_load_fts agree_load_filter : agree.

Lemma agree_load_filter_query ns m : agree (load_filter_segment_for_query ns m) (load_filter_segment_for_query (CR := RR) ns m).
Proof. unfold load_filter_segment_for_query. solve_agree. Qed.

Lemma agree_load_fts_query ns m : agree (load_fts_segment_for_query ns m) (load_fts_segment_for_query (CR := RR) ns m).
Proof. unfold load_fts_segment_for_query. solve_agree. Qed.

Lemma agree_fallback k lk : agree (cache_get_with_legacy_fallback k lk) (cache_get_with_legacy_fallback (CR := RR) k lk).
Proof. unfold cache_get_with_legacy_fallback. solve_agree. Qed.
#[local] Hint Resolve agree_fallback : agree.

Lemma agree_load_l0 ns m f :
  agree (load_vector_l0_for_field max_probe_clusters ann_build ns m f)
    (load_vector_l0_for_field (CR := RR) max_probe_clusters ann_build ns m f).
Proof. unfold load_vector_l0_for_field. solve_agree. Qed.
#[local] Hint Resolve agree_load_l0 : agree.

Lemma agree_load_each {A} key legacy ul (decode : bytes -> option A) ids acc :
  agree (load_each key legacy ul decode ids acc) (load_each (CR := RR) key legacy ul decode ids acc).
Proof. revert acc. induction ids as [|id ids IH]; intros acc; cbn [load_each]; solve_agree. Qed.
#[local] Hint Resolve agree_load_each : agree.

Lemma agree_load_full_field ns m f :
  agree (load_vector_index_full_for_field max_probe_clusters ann_build ns m f)
    (load_vector_index_full_for_field (CR := RR) max_probe_clusters ann_build ns m f).
Proof. unfold load_vector_index_full_for_field. solve_agree. Qed.
#[local] Hint Resolve agree_load_full_field : agree.

Lemma agree_load_l0s ns m cfgs out :
  agree (load_l0s max_probe_clusters ann_build ns m cfgs out) (load_l0s (CR := RR) max_probe_clusters ann_build ns m cfgs out).
Proof. revert out. induction cfgs as [|c cfgs IH]; intros out; cbn [load_l0s]; solve_agree. Qed.

Lemma agree_load_l0_query ns m :
  agree (load_vector_l0_for_query max_probe_clusters ann_build ns m) (load_vector_l0_for_query (CR := RR) max_probe_clusters ann_build ns m).
Proof. apply agree_load_l0s. Qed.

Lemma agree_delta_entries ns cursor es :
  agree (index_delta_from_wal_entries policy ns cursor es) (index_delta_from_wal_entries (S := RS) policy ns cursor es).
Proof. unfold index_delta_from_wal_entries. solve_agree. Qed.
#[local] Hint Resolve agree_delta_entries : agree.

Lemma agree_stream_loop ns cursor from to schema st0 seqs st :
  agree (stream_loop policy opts ns cursor from to schema st0 seqs st)
    (stream_loop (S := RS) policy opts ns cursor from to schema st0 seqs st).
Proof. revert st. induction seqs as [|q seqs IH]; intros st; cbn [stream_loop]; solve_agree. Qed.
#[local] Hint Resolve agree_stream_loop : agree.

Lemma agree_stream ns cursor from to fts filt schema :
  agree (stream_index_delta_from_wal policy opts ns cursor from to fts filt schema)
    (stream_index_delta_from_wal (S := RS) policy opts ns cursor from to fts filt schema).
Proof. unfold stream_index_delta_from_wal. solve_agree. Qed.
#[local] Hint Resolve agree_stream : agree.

Lemma agree_put_each {A} key enc (items : list A) : agree (put_each key enc items) (put_each (LC := RC) key enc items).
Proof. induction items as [|x items IH]; cbn [put_each]; solve_agree. Qed.
#[local] Hint Resolve agree_put_each : agree.

Lemma agree_write_index ns f vi : agree (write_vector_index ns f vi) (write_vector_index (LC := RC) ns f vi).
Proof. unfold write_vector_index. solve_agree. Qed.
#[local] Hint Resolve agree_write_index : agree.

Lemma agree_update_index ns m to ups dels name vi :
  agree (update_vector_index policy ann_build ns m to ups dels name vi)
    (update_vector_index (S := RS) policy ann_build ns m to ups dels name vi).
Proof. unfold update_vector_index, st_vec. solve_agree. Qed.
#[local] Hint Resolve agree_update_index : agree.

Lemma agree_index_field ns m to ups dels vfs name :
  agree (index_vector_field policy max_probe_clusters ann_build ns m to ups dels vfs name)
    (index_vector_field (CR := RR) policy max_probe_clusters ann_build ns m to ups dels vfs name).
Proof. unfold index_vector_field. solve_agree. Qed.
#[local] Hint Resolve agree_index_field : agree.

Lemma agree_index_fields ns m to ups dels names vfs :
  agree (index_vector_fields policy max_probe_clusters ann_build ns m to ups dels names vfs)
    (index_vector_fields (CR := RR) policy max_probe_clusters ann_build ns m to ups dels names vfs).
Proof. revert vfs. induction names as [|n names IH]; intros vfs; cbn [index_vector_fields]; solve_agree. Qed.
#[local] Hint Resolve agree_index_fields : agree.

Lemma agree_index_build ns m to :
  agree (index_build policy opts max_probe_clusters ann_build ns m to)
    (index_build (CR := RR) policy opts max_probe_clusters ann_build ns m to).
Proof. unfold index_build. solve_agree. Qed.
#[local] Hint Resolve agree_index_build : agree.

Lemma agree_index_commit ns to vfs last :
  agree (index_commit policy ann_build ns to vfs last) (index_commit (LC := RC) policy ann_build ns to vfs last).
Proof. unfold index_commit. solve_agree. Qed.
#[local] Hint Resolve agree_index_commit : agree.

Lemma agree_index_attempt ns max last :
  agree (index_attempt policy opts max_probe_clusters ann_build ns max last)
    (index_attempt (CR := RR) policy opts max_probe_clusters ann_build ns max last).
Proof. unfold index_attempt, index_publish. solve_agree. Qed.
#[local] Hint Resolve agree_index_attempt : agree.

Lemma agree_index_loop n ns max :
  agree (index_loop policy opts max_probe_clusters ann_build n ns max)
    (index_loop (CR := RR) policy opts max_probe_clusters ann_build n ns max).
Proof. induction n as [|n IH]; cbn [index_loop]; solve_agree. Qed.
End IndexerAgree.

#[export] Hint Resolve agree_st_ns agree_cache_get agree_load_filter_query agree_load_fts_query agree_load_l0_query agree_index_loop : agree.
