(* ===== verification/IndexerSpec.v ===== *)
(** * An index run is safe and exact

    Whatever requests fail, a run of the indexer keeps the committed log and
    leaves the filter index exact for the index cursor; a successful run
    advances the cursor to its target. *)

From Stdlib Require Import ZArith Lia Bool Ascii SpecFloat.
From stdpp Require Import base gmap strings list.
From S2P Require Import Prelude F64 Json Models Filter Keys Schema Meta Wal WalReplay ObjectStore Namespace Monitor Durability Compaction VectorEncoding FilterIndex Fts Vector VectorBuild Search SearchSpec Cache Indexer IndexerMonitor.

(** ** Where an operation writes

    [confined K m]: [m] keeps the cache invariant and changes no object whose key
    is outside [K]. *)

Create HintDb confined discriminated.

Section Confined.
Context {S : ObjectStore} {SL : StoreLaws} {LC : LocalCache} {LL : LocalCacheLaws}.
Context {CR : CachedReads} {CL : CachedReadsLaws}.

Definition confined {E A} (K : string -> Prop) (m : St E A) : Prop := forall w, cache_inv w ->
  st_post m w (fun w' _ => cache_inv w' /\ forall k, ~ K k -> objects w' !! k = objects w !! k).

Context {E : Type} (K : string -> Prop).

Lemma confined_ret {A} (a : A) : confined (E := E) K (st_ret a).
Proof. intros w Hw. by split. Qed.

Lemma confined_err {A} (e : E) : confined K (st_err (A := A) e).
Proof. intros w Hw. by split. Qed.

Lemma confined_result {A} (r : result E A) : confined K (st_result r).
Proof. intros w Hw. by split. Qed.

Lemma confined_bind {A B} (m : St E A) (f : A -> St E B) :
  confined K m -> (forall a, confined K (f a)) -> confined K (st_bind m f).
Proof.
  intros Hm Hf w Hw. apply st_post_bind. eapply st_post_mono; [by apply Hm|].
  intros w' [a|e] [Hw' Ho]; [|done]. eapply st_post_mono; [by apply Hf|].
  intros w'' r [Hw'' Ho']. split; [done|]. intros k Hk. rewrite Ho' by done. by apply Ho.
Qed.

Lemma confined_try {A} (m : St E A) : confined K m -> confined K (st_try m).
Proof. intros Hm w Hw. specialize (Hm w Hw). unfold st_post, st_try in *. by destruct (m w). Qed.

Lemma confined_st_ns {A} (m : St NsError A) : confined K m -> confined K (st_ns m).
Proof. intros Hm w Hw. specialize (Hm w Hw). unfold st_post, st_ns in *. by destruct (m w). Qed.

Lemma confined_get k : confined (E := E) K (st_lift (fun w => s3_get w k)).
Proof.
  intros w Hw. apply st_post_lift. split; [by apply cache_inv_get|]. by rewrite get_objects.
Qed.

Lemma confined_put k b c : K k -> confined (E := E) K (st_lift (fun w => s3_put w k b c)).
Proof.
  intros Hk w Hw. apply st_post_lift. split; [by apply cache_inv_put|]. intros j Hj.
  assert (j <> k) by (by intros ->).
  destruct ((s3_put w k b c).2) as [et|e] eqn:Hp.
  - apply put_ok in Hp as [_ (t & _ & ->)]. by rewrite lookup_insert_ne.
  - apply put_err in Hp as [->|[_ [t ->]]]; [done|]. by rewrite lookup_insert_ne.
Qed.

Lemma confined_delete k : K k -> confined (E := E) K (st_lift (fun w => s3_delete w k)).
Proof.
  intros Hk w Hw. apply st_post_lift. split; [by apply cache_inv_delete|]. intros j Hj.
  assert (j <> k) by (by intros ->).
  destruct ((s3_delete w k).2) as [[]|e] eqn:Hp.
  - apply delete_ok in Hp as ->. by rewrite lookup_delete_ne.
  - apply delete_err in Hp as [->| ->]; [done|]. by rewrite lookup_delete_ne.
Qed.

Lemma confined_cache_get k : confined K (cache_get k).
Proof.
  intros w Hw. eapply st_post_mono; [by apply cache_get_spec|]. intros w' r (Hw' & Ho & _).
  split; [done|]. by rewrite Ho.
Qed.
End Confined.

#[export] Hint Resolve confined_ret confined_err confined_result confined_try confined_st_ns confined_get
  confined_cache_get : confined.
#[export] Hint Extern 0 (confined _ (st_bind _ _)) => apply confined_bind; [|intros ?] : confined.
#[export] Hint Extern 1 (confined _ (match ?x with _ => _ end)) => destruct x : confined.

(** Follows the structure of an operation. *)
Ltac confine := repeat (apply confined_bind; [|intros ?]); auto 30 with confined.

Section ConfinedReads.
Context {IO : IterOrder} {WC : WalCodec} {MC : MetaCodec} {S : ObjectStore} {SL : StoreLaws}.
Context {LC : LocalCache} {LL : LocalCacheLaws} {CR : CachedReads} {CL : CachedReadsLaws}.
Context (policy : WalCorruptPolicy) (K : string -> Prop).

Lemma confined_get_bytes_optional k : confined K (get_object_bytes_optional k).
Proof. unfold get_object_bytes_optional. confine. Qed.
Hint Resolve confined_get_bytes_optional : confined.

Lemma confined_get_meta k : confined K (get_meta_json k).
Proof. unfold get_meta_json. confine. Qed.

Lemma confined_retry {A} n (m : St NsError A) e : confined K m -> confined K (retry n m e).
Proof.
  intros Hm. revert e. induction n as [|n IH]; intros e; cbn [retry]; [apply confined_err|].
  apply confined_bind; [by apply confined_try|]. intros [a|e']; [apply confined_ret|apply IH].
Qed.

Lemma confined_fetch_meta ns : confined K (fetch_meta ns).
Proof. apply confined_retry, confined_get_meta. Qed.
Hint Resolve confined_fetch_meta : confined.

Lemma confined_segment ns seq : confined K (read_wal_segment ns seq).
Proof. unfold read_wal_segment, get_object_bytes. confine. Qed.
Hint Resolve confined_segment : confined.

Lemma confined_entry ns seq : confined K (read_wal_entry ns seq).
Proof. unfold read_wal_entry. confine. Qed.
Hint Resolve confined_entry : confined.

Lemma confined_replay_entries ns from to : confined K (replay_wal_entries ns from to).
Proof.
  unfold replay_wal_entries. destruct (_ || _); [apply confined_ret|].
  induction (range_incl from to) as [|seq seqs IH]; cbn [read_entries]; [apply confined_ret|].
  apply confined_bind; [apply confined_entry|]. intros e. apply confined_bind; [apply IH|]. intros es. apply confined_ret.
Qed.

Lemma confined_replay_range ns docs from to : confined K (replay_wal_range policy ns docs from to).
Proof.
  unfold replay_wal_range. destruct (_ || _); [apply confined_ret|]. revert docs.
  induction (range_incl from to) as [|seq seqs IH]; intros docs; cbn [replay_seqs]; [apply confined_ret|].
  apply confined_bind; [apply confined_segment|]. intros b. apply confined_bind; [apply confined_result|].
  intros [e|]; [|apply IH]. destruct (apply_entry docs e) as [docs' r].
  apply confined_bind; [apply confined_result|]. intros _. apply IH.
Qed.
Hint Resolve confined_replay_range confined_replay_entries : confined.

Lemma confined_docs_at ns cursor : confined K (docs_at_index_cursor policy ns cursor).
Proof.
  unfold docs_at_index_cursor, read_wal_snapshot. destruct (cursor =? 0); [apply confined_ret|].
  apply confined_bind; [confine|]. intros o. destruct (match o with Some _ => _ | None => _ end) as [docs from].
  destruct (from <=? cursor); auto with confined.
Qed.
End ConfinedReads.

#[export] Hint Resolve confined_fetch_meta confined_entry confined_replay_entries confined_docs_at : confined.

(** ** The keys of index objects *)

(** A file of the vector index of [field]. *)
Definition vec_key (ns field k : string) : Prop :=
  exists c, k = vector_index_prefix ns field +:+ String "c" c /\ no_char "/" (String "c" c) = true.

Lemma vec_key_plain ns field o : object_ok o -> vec_parts o = None -> ~ vec_key ns field (object_key ns o).
Proof.
  intros Ho Hv (c & Hk & Hc). apply (vec_path_not_file field c o Ho Hv Hc).
  rewrite object_key_path in Hk. apply (str_app_inv_l (namespace_prefix ns)). rewrite Hk.
  unfold vector_index_prefix, namespace_prefix, vec_dir. destruct (String.eqb field ""); by rewrite ?str_app_assoc.
Qed.

Lemma l0_vec_key ns f : vec_key ns f (l0_key ns f).
Proof. by eexists. Qed.
Lemma routing_vec_key ns f : vec_key ns f (routing_key ns f).
Proof. by eexists. Qed.
Lemma l1_vec_key ns f c : vec_key ns f (l1_key ns f c).
Proof.
  exists ("entroids-l1-" +:+ pad08 c +:+ ".bin"). split; [done|].
  change (no_char "/" ("centroids-l1-" +:+ pad08 c +:+ ".bin") = true). by rewrite !no_char_app, pad08_no_char.
Qed.
Lemma l2_vec_key ns f c l : vec_key ns f (l2_key ns f c l).
Proof.
  exists ("entroids-l2-" +:+ pad08 c +:+ "-" +:+ pad08 l +:+ ".bin"). split; [done|].
  change (no_char "/" ("centroids-l2-" +:+ pad08 c +:+ "-" +:+ pad08 l +:+ ".bin") = true).
  by rewrite !no_char_app, !pad08_no_char.
Qed.
Lemma cluster_vec_key ns f i : vec_key ns f (cluster_key ns f i).
Proof.
  exists ("lusters-" +:+ pad08 i +:+ ".bin"). split; [done|].
  change (no_char "/" ("clusters-" +:+ pad08 i +:+ ".bin") = true). by rewrite !no_char_app, pad08_no_char.
Qed.

(** What a run for target [to] may write before it commits. *)
Definition index_keys (ns : string) (to : Z) (k : string) : Prop :=
  k = filter_segment_key ns to \/ k = fts_segment_key ns to \/ exists f, vec_key ns f k.

Lemma index_keys_plain ns to o :
  is_u64 to -> object_ok o -> vec_parts o = None -> o <> OFilter to -> o <> OFts to ->
  ~ index_keys ns to (object_key ns o).
Proof.
  intros Hto Ho Hv H1 H2 [E|[E|[f E]]].
  - by apply (object_key_same_ns ns o (OFilter to)) in E.
  - by apply (object_key_same_ns ns o (OFts to)) in E.
  - by apply vec_key_plain in E.
Qed.

Section ConfinedIndexer.
Context {IO : IterOrder} {WC : WalCodec} {MC : MetaCodec} {S : ObjectStore} {SL : StoreLaws}.
Context {LC : LocalCache} {LL : LocalCacheLaws} {CR : CachedReads} {CL : CachedReadsLaws}.
Context {SC : SegmentCodec} {TL : TextLib} {FT : F64Text} {VL : VectorLib}.
Context (policy : WalCorruptPolicy) (opts : FtsTokenizeOptions) (max_probe : Z) (build : AnnBuildConfig).
Context (K : string -> Prop).

Lemma confined_put_and_cache k b : K k -> confined K (put_and_cache k b).
Proof.
  intros Hk w Hw. apply st_post_bind, st_post_lift.
  pose proof (confined_put (E := IxError) K k b PutAlways Hk w Hw) as Hp. unfold st_post, st_lift in Hp.
  pose proof (cache_inv_populate w k b PutAlways) as Hpop.
  destruct (s3_put w k b PutAlways) as [w' [et|e]]; cbn in *; [|done].
  destruct Hp as [_ Hp]. split; [by apply Hpop|]. intros j Hj. cbn. rewrite populate_objects. by apply Hp.
Qed.

Lemma confined_put_encoded k b : K k -> confined K (put_encoded k b).
Proof. intros Hk. apply confined_bind; [apply confined_result|]. intros x. by apply confined_put_and_cache. Qed.

Lemma confined_put_each {A} (key : A -> string) (body : A -> option bytes) items :
  (forall x, K (key x)) -> confined K (put_each key body items).
Proof.
  intros Hk. induction items as [|x items IH]; cbn [put_each]; [apply confined_ret|].
  apply confined_bind; [by apply confined_put_encoded|]. intros _. exact IH.
Qed.

Lemma confined_write_vector_index ns field vi :
  (forall k, vec_key ns field k -> K k) -> confined K (write_vector_index ns field vi).
Proof.
  intros Hk. unfold write_vector_index. apply confined_bind; [apply confined_result|]. intros b.
  apply confined_bind; [apply confined_put_each; intros; apply Hk, l1_vec_key|]. intros _.
  apply confined_bind; [apply confined_put_each; intros; apply Hk, cluster_vec_key|]. intros _.
  apply confined_bind.
  { destruct (vi_routing vi); [apply confined_put_encoded, Hk, routing_vec_key|apply confined_ret]. }
  intros _. apply confined_bind; [apply confined_put_each; intros; apply Hk, l2_vec_key|]. intros _.
  apply confined_put_and_cache, Hk, l0_vec_key.
Qed.

Lemma confined_load_filter ns id : confined K (load_filter_segment ns id).
Proof. unfold load_filter_segment. destruct (id =? 0); confine. Qed.
Lemma confined_load_fts ns id : confined K (load_fts_segment ns id).
Proof. unfold load_fts_segment. destruct (id =? 0); confine. Qed.

Lemma confined_fallback k lk : confined K (cache_get_with_legacy_fallback k lk).
Proof. unfold cache_get_with_legacy_fallback. apply confined_bind; [confine|]. intros [b|]; [confine|]. destruct lk; confine. Qed.
Hint Resolve confined_fallback : confined.

Lemma confined_load_l0 ns m field : confined K (load_vector_l0_for_field max_probe build ns m field).
Proof.
  unfold load_vector_l0_for_field. destruct (find _ _); [|confine]. destruct (_ || _); confine.
Qed.
Hint Resolve confined_load_l0 : confined.

Lemma confined_load_each {A} key legacy use (dec : bytes -> option A) ids acc :
  confined K (load_each key legacy use dec ids acc).
Proof.
  revert acc. induction ids as [|id ids IH]; intros acc; cbn [load_each]; [apply confined_ret|].
  apply confined_bind; [apply confined_fallback|]. intros [b|]; [|apply IH].
  apply confined_bind; [apply confined_result|]. intros a. apply IH.
Qed.
Hint Resolve confined_load_each : confined.

Lemma confined_load_full ns m field : confined K (load_vector_index_full_for_field max_probe build ns m field).
Proof.
  unfold load_vector_index_full_for_field. apply confined_bind; [apply confined_load_l0|]. intros [l0|]; [|confine].
  destruct (_ =? 0); confine.
Qed.

Lemma confined_stream ns cursor from to schema st0 seqs st :
  confined K (stream_loop policy opts ns cursor from to schema st0 seqs st).
Proof.
  revert st. induction seqs as [|seq seqs IH]; intros st; cbn [stream_loop]; [apply confined_ret|].
  apply confined_bind; [apply confined_st_ns, confined_entry|]. intros e. destruct (has_patches e).
  - apply confined_bind; [apply confined_st_ns, confined_replay_entries|]. intros es. apply confined_bind.
    + unfold index_delta_from_wal_entries. destruct (negb _); [apply confined_result|].
      apply confined_bind; [apply confined_st_ns, confined_docs_at|]. intros d.
      apply confined_bind; [apply confined_result|]. intros o. apply confined_ret.
    + intros [u d]. apply confined_ret.
  - apply confined_bind; [apply confined_result|]. intros docs. apply IH.
Qed.

Lemma confined_vector_field ns m to ups dels vfs name :
  (forall k, vec_key ns name k -> K k) ->
  confined K (index_vector_field policy max_probe build ns m to ups dels vfs name).
Proof.
  intros Hk. unfold index_vector_field. apply confined_bind; [apply confined_load_full|]. intros loaded.
  apply confined_bind.
  - unfold update_vector_index. destruct (_ =? 0); [apply confined_ret|].
    apply confined_bind; [apply confined_result|]. intros vi. destruct (needs_full_rebuild vi); [|apply confined_ret].
    apply confined_bind; [apply confined_st_ns, confined_docs_at|]. intros d. apply confined_ret.
  - intros vi. destruct (0 <? _); [|apply confined_ret].
    apply confined_bind; [by apply confined_write_vector_index|]. intros _. apply confined_ret.
Qed.

Lemma confined_vector_fields ns m to ups dels names vfs :
  (forall f k, vec_key ns f k -> K k) ->
  confined K (index_vector_fields policy max_probe build ns m to ups dels names vfs).
Proof.
  intros Hk. revert vfs. induction names as [|name names IH]; intros vfs; cbn [index_vector_fields]; [apply confined_ret|].
  apply confined_bind; [apply confined_vector_field; eauto|]. intros vfs'. apply IH.
Qed.
End ConfinedIndexer.

(** ** What a run reads *)

Section IndexReads.
Context {IO : IterOrder} {WC : WalCodec} {MC : MetaCodec} {S : ObjectStore} {SL : StoreLaws}.
Context {LC : LocalCache} {LL : LocalCacheLaws} {CR : CachedReads} {CL : CachedReadsLaws}.
Context {SC : SegmentCodec} {TL : TextLib} {FT : F64Text} {VL : VectorLib}.
Context (policy : WalCorruptPolicy) (opts : FtsTokenizeOptions).

(** Reads under the cache invariant. *)
Definition creads {E A} (m : St E A) (P : Objects -> A -> Prop) : Prop := forall w, cache_inv w ->
  st_post m w (fun w' r => cache_inv w' /\ objects w' = objects w /\
    match r with Ok a => P (objects w) a | Err _ => True end).

Lemma creads_bind {E A B} (m : St E A) (f : A -> St E B) P Q :
  creads m P -> (forall objs a, P objs a -> forall w, objects w = objs -> cache_inv w ->
    st_post (f a) w (fun w' r => cache_inv w' /\ objects w' = objects w /\
      match r with Ok b => Q objs b | Err _ => True end)) -> creads (st_bind m f) Q.
Proof.
  intros Hm Hf w Hw. apply st_post_bind. eapply st_post_mono; [by apply Hm|].
  intros w' [a|e] (Hw' & Ho & HP); [|done]. eapply st_post_mono; [by apply (Hf _ _ HP)|].
  intros w'' r (Hw'' & Ho' & HQ). rewrite Ho'. done.
Qed.

Lemma creads_then {E A B} (m : St E A) (f : A -> St E B) P (Q : Objects -> B -> Prop) :
  creads m P -> (forall a, creads (f a) (fun objs b => P objs a -> Q objs b)) -> creads (st_bind m f) Q.
Proof.
  intros Hm Hf. eapply creads_bind; [exact Hm|]. intros objs a HP w <- Hw.
  eapply st_post_mono; [by apply Hf|]. intros w' [b|e] (Hw' & Ho & HQ); eauto.
Qed.

Lemma creads_of_reads {E A} (m : St E A) P : reads m P -> confined (fun _ => False) m -> creads m P.
Proof.
  intros Hr Hc w Hw. pose proof (Hr w) as H1. pose proof (Hc w Hw) as H2. unfold st_post in *.
  destruct (m w) as [w' r]. cbn in *. tauto.
Qed.

Lemma creads_of_confined {E A} (m : St E A) : confined (fun _ => False) m -> creads m (fun _ _ => True).
Proof.
  intros Hc w Hw. eapply st_post_mono; [by apply Hc|]. intros w' r [Hw' Ho]. split_and!; [done| |by destruct r].
  apply map_eq. intros k. apply Ho. by intros [].
Qed.

Lemma creads_st_ns {A} (m : St NsError A) P : creads m P -> creads (st_ns m) P.
Proof. intros Hm w Hw. specialize (Hm w Hw). unfold st_post, st_ns in *. by destruct (m w) as [w' [a|e]]. Qed.

Lemma creads_result {E A} (r : result E A) (P : Objects -> A -> Prop) :
  (forall objs a, r = Ok a -> P objs a) -> creads (st_result r) P.
Proof. intros H w Hw. unfold st_post, st_result. cbn. split_and!; [done..|]. destruct r; eauto. Qed.

Lemma creads_ret {E A} (a : A) (P : Objects -> A -> Prop) : (forall objs, P objs a) -> creads (E := E) (st_ret a) P.
Proof. intros H w Hw. split_and!; [done..|]. apply H. Qed.

Lemma creads_weaken {E A} (m : St E A) (P Q : Objects -> A -> Prop) :
  creads m P -> (forall objs a, P objs a -> Q objs a) -> creads m Q.
Proof. intros Hm HPQ w Hw. eapply st_post_mono; [by apply Hm|]. intros w' [a|e] (H1 & H2 & H3); eauto. Qed.

Lemma entry_reads ns seq : reads (read_wal_entry ns seq) (fun objs e =>
  forall e', segment_at objs ns seq e' -> e = e').
Proof.
  eapply reads_bind; [apply read_wal_segment_reads|]. intros objs b [t Hb] w Hw. split; [done|].
  unfold st_result. cbn. destruct (decode_segment b (Some seq)) as [e|] eqn:Hd; cbn; [|done].
  intros e' (b' & t' & Hb' & Hd'). rewrite Hb in Hb'. injection Hb' as <- <-. rewrite Hd' in Hd. congruence.
Qed.

Lemma entries_reads ns seqs : reads (read_entries ns seqs) (fun objs es =>
  forall es', Forall2 (segment_at objs ns) seqs es' -> es = es').
Proof.
  induction seqs as [|seq seqs IH]; cbn [read_entries].
  - apply reads_ret. intros objs es' H. by inversion H.
  - eapply reads_bind; [apply entry_reads|]. intros objs e He w Hw. apply st_post_bind.
    eapply st_post_mono; [apply IH|]. intros w' [es|] [Ho Hes]; (split; [done|]); [|done]. cbn.
    intros es' H. inversion H as [|? e' ? es'' H1 H2]; subst. f_equal; [by apply He|by apply Hes].
Qed.

Lemma replay_entries_reads ns from to : 1 <= from -> reads (replay_wal_entries ns from to) (fun objs es =>
  forall es', Forall2 (segment_at objs ns) (range_incl from to) es' -> es = es').
Proof.
  intros Hf. unfold replay_wal_entries. destruct (_ || _) eqn:E; [|apply entries_reads].
  apply reads_ret. intros objs es' H. rewrite !orb_true_iff, !Z.eqb_eq, Z.ltb_lt in E.
  rewrite range_incl_empty in H by lia. by inversion H.
Qed.

(** ** The delta *)

Lemma keyed_keys docs : Forall (fun p : string * Document => doc_id p.2 = p.1) (keyed docs).
Proof. unfold keyed. apply Forall_fmap, Forall_forall. done. Qed.

Lemma keyed_docs docs : (keyed docs).*2 = docs.
Proof. unfold keyed. rewrite <- list_fmap_compose. apply list_fmap_id. Qed.

Lemma filter_delta_represents seg sch docs ups dels :
  FilterIndex.represents seg (filter_fields_from_schema sch) docs -> Forall (fun p => doc_id p.2 = p.1) ups ->
  FilterIndex.represents (filter_apply_delta seg sch ups dels) (filter_fields_from_schema sch)
    (apply_upserts ups.*2 (apply_deletes dels docs)).
Proof.
  intros Hr Hk. unfold filter_apply_delta, apply_upserts, apply_deletes.
  assert (forall m : Docs, fold_left (fun m d => <[doc_id d := d]> m) ups.*2 m =
    fold_left (fun m d => <[d.1 := d.2]> m) ups m) as ->.
  { induction Hk as [|[id d] ups Hd Hk IH]; intros m; [done|]. cbn in *. by rewrite Hd. }
  by apply fold_upsert_represents, fold_remove_represents.
Qed.

(** The documents after the entries [es], which the delta is meant to describe:
    either no entry patches, or no document the delta upserts is deleted later
    in the range. *)
Definition delta_safe (docs : Docs) (es : list WalEntry) : Prop :=
  Forall (fun e => has_patches e = false) es \/
  forall final ups dels, collect_index_delta docs es = Ok (final, (ups, dels)) ->
    forall id, id ∈ ups.*1 -> is_Some (final !! id).

Lemma no_patch_entry docs e us :
  has_patches e = false -> into_documents e = Ok us ->
  apply_entry docs e = (apply_upserts us (apply_deletes (deletes e) docs), Ok tt).
Proof.
  intros Hp Hu. apply apply_entry_ok. exists us, []. split; [done|]. unfold has_patches in Hp.
  destruct (patches e) as [|p ps] eqn:E; [|done]. unfold patch_documents. by rewrite E.
Qed.

Section Stream.
Context (ns : string) (m : NamespaceMeta) (log : list WalEntry) (to : Z).
Hypothesis log_bound : lenZ log < u64_max.
Hypothesis target : 0 <= index_cursor m < to /\ to <= lenZ log.

Let es : list WalEntry := drop (Z.to_nat (index_cursor m)) (take (Z.to_nat to) log).
Let fields : list string := filter_fields_from_schema (schema m).

Lemma range_segments objs :
  ns_state objs ns m log -> Forall2 (segment_at objs ns) (range_incl (index_cursor m + 1) to) es.
Proof.
  intros Hst. pose proof (wf_cursors _ (nss_wf _ _ _ _ Hst)).
  pose proof (segments_range_to objs ns m log (index_cursor m + 1) to Hst) as Hr.
  replace (index_cursor m + 1 - 1) with (index_cursor m) in Hr by lia. apply Hr; lia.
Qed.

Lemma index_delta_spec entries :
  creads (index_delta_from_wal_entries policy ns (index_cursor m) entries) (fun objs d =>
    forall docs0, ns_state objs ns m log -> docs_after log (index_cursor m) docs0 -> existsb has_patches entries = true ->
      exists final, collect_index_delta docs0 entries = Ok (final, d) /\ docs_keyed docs0).
Proof.
  unfold index_delta_from_wal_entries. destruct (existsb has_patches entries) eqn:E; cbn [negb].
  2: { apply creads_result. done. }
  eapply creads_then; [apply creads_st_ns, creads_of_reads; [apply docs_at_index_cursor_reads|apply confined_docs_at]|].
  intros base. eapply creads_then; [apply creads_result; intros objs o Ho; exact Ho|].
  intros [final d]. apply creads_ret. intros objs Hc Hb docs0 Hst Hd _. cbn [snd].
  specialize (Hb log log_bound Hst). unfold docs_after in *. rewrite Hb in Hd. injection Hd as ->.
  unfold wal_ix in Hc. destruct (collect_index_delta docs0 entries) as [o|]; [|done]. injection Hc as ->.
  exists final. split; [done|]. eapply replay_keyed; [|exact Hb]. apply map_Forall_empty.
Qed.

Lemma stream_loop_spec docs0 st0 seqs st :
  docs_after log (index_cursor m) docs0 -> delta_safe docs0 es -> FilterIndex.represents (ds_filter st0) fields docs0 ->
  creads (stream_loop policy opts ns (index_cursor m) (index_cursor m + 1) to (schema m) st0 seqs st)
    (fun objs ds => forall es1 es2 docs1, ns_state objs ns m log -> es = es1 ++ es2 ->
       Forall2 (segment_at objs ns) seqs es2 -> Forall (fun e => has_patches e = false) es1 ->
       replay docs0 es1 = Ok docs1 -> FilterIndex.represents (ds_filter st) fields docs1 ->
       exists docs2, replay docs0 es = Ok docs2 /\ FilterIndex.represents (ds_filter ds) fields docs2).
Proof.
  intros Hd0 Hsafe Hr0. revert st. induction seqs as [|seq seqs IH]; intros st; cbn [stream_loop].
  { apply creads_ret. intros objs es1 es2 docs1 Hst He H2 Hp Hrep Hr. inversion H2; subst es2.
    rewrite app_nil_r in He. rewrite He. eauto. }
  eapply creads_then; [apply creads_st_ns, creads_of_reads; [apply entry_reads|apply confined_entry]|].
  intros e. destruct (has_patches e) eqn:Hpe.
  - eapply creads_then.
    { apply creads_st_ns, creads_of_reads; [|apply confined_replay_entries]. apply replay_entries_reads. lia. }
    intros es'. eapply creads_then.
    { apply index_delta_spec. }
    intros [ups dels]. apply creads_ret. cbn [ds_filter].
    intros objs Hdelta Hes' He es1 es2 docs1 Hst Hsplit H2 Hp Hrep Hr.
    assert (es' = es) as -> by (apply Hes', range_segments; done).
    inversion H2 as [|? e2 ? es3 Hseg H3]; subst. apply He in Hseg as ->.
    destruct (Hdelta docs0 Hst Hd0) as (final & Hc & Hk).
    { rewrite Hsplit, existsb_app. cbn. by rewrite Hpe, orb_true_r. }
    destruct Hsafe as [Hno|Hsafe].
    { rewrite Hsplit, Forall_app, Forall_cons in Hno. destruct Hno as (_ & ? & _). congruence. }
    destruct (collect_delta_exact docs0 es final ups dels Hk Hc (Hsafe _ _ _ Hc)) as ((H4 & H5) & H6).
    exists final. split; [done|]. rewrite <- H5. by apply filter_delta_represents.
  - eapply creads_then; [apply creads_result; intros objs us Hus; exact Hus|].
    intros us. eapply creads_weaken; [apply IH|]. cbn [ds_filter apply_batch].
    intros objs ds Hds Hus He es1 es2 docs1 Hst Hsplit H2 Hp Hrep Hr.
    inversion H2 as [|? e2 ? es3 Hseg H3]; subst. apply He in Hseg as ->.
    unfold wal_ix in Hus. destruct (into_documents e2) as [us'|] eqn:Hu; [|done]. injection Hus as ->.
    apply (Hds (es1 ++ [e2]) es3 (apply_upserts us (apply_deletes (deletes e2) docs1))); try done.
    + by rewrite <- app_assoc.
    + apply Forall_app. split; [done|]. by repeat constructor.
    + rewrite replay_app, Hrep. cbn. by rewrite (no_patch_entry docs1 e2 us).
    + rewrite <- (keyed_docs us) at 2. apply filter_delta_represents; [done|apply keyed_keys].
Qed.

(** The segments of a range, from the metadata the run has read. *)
Lemma stream_spec docs0 fts filt :
  docs_after log (index_cursor m) docs0 -> delta_safe docs0 es -> FilterIndex.represents filt fields docs0 ->
  creads (stream_index_delta_from_wal policy opts ns (index_cursor m) (index_cursor m + 1) to fts filt (schema m))
    (fun objs ds => ns_state objs ns m log ->
       exists docs1, docs_after log to docs1 /\ FilterIndex.represents (ds_filter ds) fields docs1).
Proof.
  intros Hd0 Hsafe Hr. eapply creads_weaken; [by apply stream_loop_spec|].
  intros objs ds Hds Hst. destruct (Hds [] es docs0 Hst eq_refl (range_segments objs Hst)) as (docs1 & H1 & H2); [done..|].
  exists docs1. split; [|done]. unfold docs_after in *.
  rewrite <- (take_drop (Z.to_nat (index_cursor m)) (take (Z.to_nat to) log)), replay_app.
  rewrite take_take, Nat.min_l by lia. by rewrite Hd0.
Qed.
End Stream.
End IndexReads.

(** ** The invariant of the filter index *)

Class SegmentCodecLaws {SC : SegmentCodec} : Prop := {
  filter_roundtrip : forall s b, filter_serialize s = Some b -> filter_deserialize b = Some s
}.

(** Segment [id] is stored and represents [docs]. *)
Definition filter_at {SC : SegmentCodec} {FT : F64Text} (objs : Objects) (ns : string) (id : Z)
    (fields : list string) (docs : Docs) : Prop :=
  exists b t seg, objs !! filter_segment_key ns id = Some (b, t) /\ filter_deserialize b = Some seg /\
    FilterIndex.represents seg fields docs.

(** The filter segment the metadata names represents the documents at the index
    cursor. *)
Definition index_ok {IO : IterOrder} {WC : WalCodec} {SC : SegmentCodec} {FT : F64Text} (objs : Objects) (ns : string)
    (m : NamespaceMeta) (log : list WalEntry) : Prop :=
  filter_segment_id m = index_cursor m /\
  (0 < index_cursor m -> exists docs, docs_after log (index_cursor m) docs /\
     filter_at objs ns (index_cursor m) (filter_fields_from_schema (schema m)) docs).

Definition vfs_ok (vfs : list VectorFieldConfig) : Prop :=
  lenZ vfs <= MAX_VECTOR_FIELDS /\ NoDup (vf_name <$> vfs).

Lemma record_vector_field_ok sch to name dims vfs : vfs_ok vfs -> vfs_ok (record_vector_field sch to name dims vfs).
Proof.
  intros [Hl Hn]. unfold record_vector_field. destruct (update_slot _ _ _) as [vfs'|] eqn:E.
  - assert (vf_name <$> vfs' = vf_name <$> vfs) as Hnames by (by eapply update_slot_names in E).
    split; [|by rewrite Hnames]. apply (f_equal length) in Hnames. rewrite !length_fmap in Hnames. unfold lenZ in *. lia.
  - destruct (_ <? _) eqn:E2; case_bool; [|done]. apply update_slot_None in E. split.
    + unfold lenZ in *. rewrite length_app. cbn. lia.
    + rewrite fmap_app. apply NoDup_app. split_and!; [done| |apply NoDup_singleton].
      intros x Hx. intros Hin. apply list_elem_of_singleton in Hin as ->. done.
Qed.

Definition returns {S : ObjectStore} {E A} (m : St E A) (P : A -> Prop) : Prop :=
  forall w, match (m w).2 with Ok a => P a | Err _ => True end.

Lemma returns_bind {S : ObjectStore} {E A B} (m : St E A) (f : A -> St E B) Q P :
  returns m Q -> (forall a, Q a -> returns (f a) P) -> returns (st_bind m f) P.
Proof. intros Hm Hf w. unfold st_bind. specialize (Hm w). destruct (m w) as [w' [a|e]]; [by apply Hf|done]. Qed.

Lemma returns_any {S : ObjectStore} {E A} (m : St E A) : returns m (fun _ => True).
Proof. intros w. by destruct ((m w).2). Qed.

Section IndexRun.
Context {IO : IterOrder} {WC : WalCodec} {MC : MetaCodec} {ML : MetaCodecLaws}.
Context {S : ObjectStore} {SL : StoreLaws} {HM : NoMisreads}.
Context {LC : LocalCache} {LL : LocalCacheLaws} {CR : CachedReads} {CL : CachedReadsLaws}.
Context {SC : SegmentCodec} {SCL : SegmentCodecLaws} {TL : TextLib} {FT : F64Text} {VL : VectorLib}.
Context (policy : WalCorruptPolicy) (opts : FtsTokenizeOptions) (max_probe : Z) (build : AnnBuildConfig).

Lemma vector_fields_returns ns m to ups dels names vfs :
  vfs_ok vfs -> returns (index_vector_fields policy max_probe build ns m to ups dels names vfs) vfs_ok.
Proof.
  revert vfs. induction names as [|name names IH]; intros vfs Hv; cbn [index_vector_fields]; [by intros w|].
  eapply returns_bind; [|intros vfs' Hv'; by apply IH]. unfold index_vector_field.
  eapply returns_bind; [apply returns_any|]. intros loaded _. eapply returns_bind; [apply returns_any|]. intros vi _.
  destruct (0 <? _); [|by intros w]. eapply returns_bind; [apply returns_any|]. intros _ _ w. cbn.
  by apply record_vector_field_ok.
Qed.

Lemma cache_get_creads k : creads (cache_get k) (fun objs o =>
  match o with Some b => exists t, objs !! k = Some (b, t) | None => objs !! k = None end).
Proof.
  intros w Hw. eapply st_post_mono; [by apply cache_get_spec|]. by intros w' [[b|]|e] (H1 & H2 & H3).
Qed.

Lemma load_filter_reads ns id :
  creads (load_filter_segment ns id) (fun objs o => if id =? 0 then o = None else
    match o with
    | Some seg => exists b t, objs !! filter_segment_key ns id = Some (b, t) /\ filter_deserialize b = Some seg
    | None => objs !! filter_segment_key ns id = None
    end).
Proof.
  unfold load_filter_segment. destruct (id =? 0); [by apply creads_ret|].
  eapply creads_then; [apply creads_st_ns, cache_get_creads|].
  intros [b|]; cbn beta iota; [|by apply creads_ret].
  eapply creads_then; [apply creads_result; intros objs seg Hs; exact Hs|]. intros seg. apply creads_ret.
  intros objs Hs [t Hb]. exists b, t. split; [done|]. unfold ok_or in Hs. destruct (filter_deserialize b); congruence.
Qed.

Lemma put_encoded_post K k body w :
  K k -> cache_inv w -> st_post (put_encoded k body) w (fun w' r =>
    cache_inv w' /\ (forall j, ~ K j -> objects w' !! j = objects w !! j) /\
    (r = Ok tt -> exists b t, body = Some b /\ objects w' !! k = Some (b, t))).
Proof.
  intros Hk Hw. pose proof (confined_put_encoded K k body Hk w Hw) as [H1 H2]. split_and!; [done..|].
  unfold put_encoded, st_bind, st_result. destruct body as [b|]; cbn; [|done].
  unfold put_and_cache, st_bind, st_lift. pose proof (put_ok w k b PutAlways) as Hok.
  destruct (s3_put w k b PutAlways) as [w' [et|e]]; cbn in *; [|done]. intros _.
  destruct (Hok et eq_refl) as [_ (t & _ & Ho)]. exists b, t. split; [done|].
  rewrite populate_objects, Ho. apply lookup_insert_eq.
Qed.

Section Build.
Context (ns : string) (m : NamespaceMeta) (log : list WalEntry) (to : Z).
Hypothesis log_bound : lenZ log < u64_max.
Hypothesis target : index_cursor m < to /\ to <= lenZ log.
Hypothesis safe : forall docs, docs_after log (index_cursor m) docs ->
  delta_safe docs (drop (Z.to_nat (index_cursor m)) (take (Z.to_nat to) log)).

Let fields : list string := filter_fields_from_schema (schema m).

Lemma vec_keys_index f k : vec_key ns f k -> index_keys ns to k.
Proof. intros H. right; right. by exists f. Qed.

Lemma index_build_post w :
  cache_inv w -> ns_state (objects w) ns m log -> index_ok (objects w) ns m log ->
  st_post (index_build policy opts max_probe build ns m to) w (fun w' r => cache_inv w' /\
    (forall k, ~ index_keys ns to k -> objects w' !! k = objects w !! k) /\
    match r with
    | Ok vfs => vfs_ok vfs /\ exists docs, docs_after log to docs /\ filter_at (objects w') ns to fields docs
    | Err _ => True
    end).
Proof.
  intros Hw Hst [Hid Hix]. pose proof (wf_cursors _ (nss_wf _ _ _ _ Hst)) as Hcur.
  unfold index_build. assert (sat_add64 (index_cursor m) 1 = index_cursor m + 1) as -> by (unfold sat_add64; lia).
  apply st_post_bind. eapply st_post_mono; [exact (creads_of_confined _ (confined_load_fts _ ns _) w Hw)|].
  intros w1 [fts|e] (Hw1 & E1 & _); [|split_and!; [done|intros k _; congruence|done]].
  apply st_post_bind. eapply st_post_mono; [by apply load_filter_reads|].
  intros w2 [filt|e] (Hw2 & E2 & Hf); [|split_and!; [done|intros k _; congruence|done]].
  assert (exists docs0, docs_after log (index_cursor m) docs0 /\
    FilterIndex.represents (default (mkFilterSegment to ∅ ∅) filt) fields docs0) as (docs0 & Hd0 & Hr0).
  { rewrite Hid in Hf. destruct (Z.eqb_spec (index_cursor m) 0) as [Hz|Hz].
    - subst filt. exists ∅. rewrite Hz. split; [done|apply empty_represents].
    - destruct Hix as (docs & Hd & b & t & seg & Hb & Hs & Hr); [lia|]. exists docs. split; [done|].
      rewrite E1 in Hf. destruct filt as [seg'|]; [|congruence]. destruct Hf as (b' & t' & Hb' & Hs').
      assert (seg' = seg) as -> by congruence. done. }
  apply st_post_bind. eapply st_post_mono.
  { apply (stream_spec policy opts ns m log to log_bound) with (docs0 := docs0); try done; [lia|by apply safe]. }
  intros w3 [ds|e] (Hw3 & E3 & Hds); [|split_and!; [done|intros k _; congruence|done]].
  destruct Hds as (docs1 & Hd1 & Hr1); [by rewrite E2, E1|]. rewrite E2, E1 in E3.
  apply st_post_bind. eapply st_post_mono; [by apply (put_encoded_post (fun k => k = filter_segment_key ns to))|].
  intros w4 r4 (Hw4 & Ho4 & Hp4).
  assert (forall k, ~ index_keys ns to k -> objects w4 !! k = objects w !! k) as F4.
  { intros k Hk. rewrite Ho4, E3; [done|]. intros ->. apply Hk. by left. }
  destruct r4 as [[]|e]; [|done]. destruct (Hp4 eq_refl) as (b & t & Hb & Hobj).
  apply filter_roundtrip in Hb.
  apply st_post_bind. eapply st_post_mono; [by apply (put_encoded_post (fun k => k = fts_segment_key ns to))|].
  intros w5 r5 (Hw5 & Ho5 & _).
  assert (forall k, ~ index_keys ns to k -> objects w5 !! k = objects w !! k) as F5.
  { intros k Hk. rewrite Ho5, F4; [done..|]. intros ->. apply Hk. right. by left. }
  destruct r5 as [[]|e]; [|done].
  assert (is_u64 to) as Hu by (unfold is_u64; lia).
  set (vfs0 := match vector_fields m with [] => _ | _ => _ end).
  assert (vfs_ok vfs0) as Hv0.
  { unfold vfs0. pose proof (nss_wf _ _ _ _ Hst) as Hwf. split.
    - pose proof (wf_fields_bound _ Hwf). destruct (vector_fields m) as [|v vs]; [|done].
      destruct (_ && _); unfold lenZ, MAX_VECTOR_FIELDS; cbn; lia.
    - pose proof (wf_fields_unique _ Hwf). destruct (vector_fields m) as [|v vs]; [|done].
      destruct (_ && _); cbn; repeat constructor; set_solver. }
  match goal with |- st_post ?op _ _ => pose proof (vector_fields_returns ns m to (ds_upserts ds) (ds_deletes ds)
    (vector_fields_to_index (schema m) m (snd <$> head (ds_upserts ds))) vfs0 Hv0 w5) as Hret;
    pose proof (confined_vector_fields policy max_probe build (fun k => exists f, vec_key ns f k) ns m to (ds_upserts ds)
      (ds_deletes ds) (vector_fields_to_index (schema m) m (snd <$> head (ds_upserts ds))) vfs0
      (fun f k H => ex_intro _ f H) w5 Hw5) as [Hw6 Ho6] end.
  split_and!; [done| |].
  - intros k Hk. rewrite Ho6, F5; [done..|]. intros [f Hf']. apply Hk. by eapply vec_keys_index.
  - match type of Hret with match ?r with _ => _ end => destruct r as [vfs|e]; [|done] end.
    split; [done|]. exists docs1. split; [done|]. eexists b, t, _. split; [|split; [exact Hb|]].
    + rewrite Ho6, Ho5, Hobj; [done| |].
      * intros E. by apply (object_key_same_ns ns (OFilter to) (OFts to)) in E.
      * intros [f Hf']. by apply (vec_key_plain ns f (OFilter to)) in Hf'.
    + by destruct Hr1 as [R1 R2].
Qed.
End Build.

(** ** The commit *)

Lemma index_commit_facts m to vfs v m' :
  meta_wf m -> vfs_ok vfs -> meta_after_index_commit m to to to vfs v = Ok m' ->
  meta_wf m' /\ index_cursor m' = to /\ filter_segment_id m' = to /\ wal_commit_seq m' = wal_commit_seq m /\
  wal_snapshot_seq m' = wal_snapshot_seq m /\ schema m' = schema m /\ index_cursor m < to.
Proof.
  intros [W1 W2 W3 W4 W5 W6 W7] [V1 V2]. unfold meta_after_index_commit.
  destruct (wal_commit_seq m <? to) eqn:E1; [done|]. destruct (to <=? index_cursor m) eqn:E2; [done|]. case_bool.
  intros [= <-]. set (next := sync_legacy_vector_fields _).
  assert (index_cursor next = to /\ filter_segment_id next = to /\ wal_commit_seq next = wal_commit_seq m /\
    wal_snapshot_seq next = wal_snapshot_seq m /\ schema next = schema m /\ vector_fields next = vfs /\
    (forall first rest, vfs = first :: rest -> vector_field next = vf_name first /\ dimensions next = vf_dimensions first /\
       vector_segment_id next = vf_segment_id first /\ vector_segment_ids next = vf_segment_ids first))
    as (F1 & F2 & F3 & F4 & F5 & F6 & F7).
  { unfold next, sync_legacy_vector_fields. cbn [vector_fields set_vector_fields set_index].
    destruct vfs as [|f fs]; [|cbn; split_and!; try done; by intros ? ? [= <- <-]].
    destruct (_ && _); cbn; split_and!; done. }
  destruct (_ <=? v); (split; [split|split_and!]); cbn [index_cursor filter_segment_id wal_commit_seq wal_snapshot_seq schema
    vector_fields vector_field dimensions vector_segment_id vector_segment_ids set_preferred_ann_version];
    rewrite ?F1, ?F2, ?F3, ?F4, ?F5, ?F6; try done; lia.
Qed.

Lemma ns_state_index_commit objs ns m log m' mb t to vfs v :
  ns_state objs ns m log -> vfs_ok vfs -> meta_after_index_commit m to to to vfs v = Ok m' ->
  meta_to_vec m' = Some mb -> ns_state (<[meta_key ns := (mb, t)]> objs) ns m' log.
Proof.
  intros Hst Hv Hm' Hmb. pose proof Hst as [H1 H2 H3 H4 H5 H6 H7].
  destruct (index_commit_facts m to vfs v m' H2 Hv Hm') as (W & C1 & C2 & C3 & C4 & C5 & C6).
  split; rewrite ?C3, ?C4, ?C5; try done.
  - right. exists mb, t. rewrite lookup_insert_eq. split; [done|]. apply meta_roundtrip; [by rewrite C5|done].
  - unfold snapshot_sound in *. rewrite lookup_insert_ne by apply meta_key_not_snapshot.
    destruct (objs !! wal_snapshot_key ns) as [[sb st]|]; [|by rewrite C4].
    destruct H5 as (s & Hs & Hle & Hpos & Hds). exists s. rewrite C1, C4. split_and!; try done; lia.
  - intros seq e Hs He. destruct (H6 seq e Hs He) as (b & tb & Hb & Hd). exists b, tb. split; [|done].
    rewrite lookup_insert_ne; [done|]. apply meta_key_not_wal.
    apply lookup_lt_Some in He. pose proof (wf_cursors _ H2). pose proof (wf_commit_u64 _ H2).
    unfold is_u64. unfold lenZ in H4. lia.
Qed.

(** What compaction may write. *)
Definition wal_keys (ns k : string) : Prop :=
  k = meta_key ns \/ k = wal_snapshot_key ns \/ exists seq, k = wal_key ns seq.

Lemma wal_keys_filter ns id : ~ wal_keys ns (filter_segment_key ns id).
Proof.
  assert (forall o, object_key ns o = filter_segment_key ns id -> object_path o = object_path (OFilter id)) as Hp.
  { intros o E. apply (str_app_inv_l (namespace_prefix ns)). rewrite <- !object_key_path. exact E. }
  intros [E|[E|(seq & E)]]; symmetry in E.
  - by apply (Hp OMeta) in E.
  - by apply (Hp OSnapshot) in E.
  - by apply (Hp (OWal seq)) in E.
Qed.

Lemma confined_delete_segments ns seqs n : confined (wal_keys ns) (delete_segments ns seqs n).
Proof.
  revert n. induction seqs as [|seq seqs IH]; intros n; cbn [delete_segments]; [apply confined_ret|].
  apply confined_bind; [apply confined_delete; right; right; by exists seq|]. intros [[]|e]; [|apply IH].
  apply confined_bind; [|intros _; apply IH]. intros w Hw. unfold st_post, st_do. cbn.
  split; [by apply cache_inv_invalidate|]. by rewrite invalidate_objects.
Qed.

Lemma confined_put_populate {A} K k b (err : S3Error -> NsError) (f : St NsError A) :
  K k -> confined K f ->
  confined K (do? r <- st_lift (fun w => s3_put w k b PutAlways);
              do? t <- st_result (match r with Ok t => Ok t | Err e => Err (err e) end);
              do? _ <- st_do (cache_populate k b t); f).
Proof.
  intros Hk Hf w Hw. apply st_post_bind, st_post_lift.
  pose proof (confined_put (E := NsError) K k b PutAlways Hk w Hw) as Hp. unfold st_post, st_lift in Hp.
  pose proof (cache_inv_populate w k b PutAlways) as Hpop.
  destruct (s3_put w k b PutAlways) as [w' [et|e]]; cbn in *; [|done]. apply st_post_bind, st_post_result, st_post_bind.
  unfold st_post at 1, st_do. cbn. destruct Hp as [_ Hp]. eapply st_post_mono; [by apply Hf, Hpop|].
  intros w'' r [Hw'' Ho]. split; [done|]. intros j Hj. rewrite Ho by done. rewrite populate_objects. by apply Hp.
Qed.

Lemma confined_compact ns :
  confined (wal_keys ns) (maybe_compact_wal policy ns).
Proof.
  unfold maybe_compact_wal. apply confined_bind; [apply confined_fetch_meta|]. intros [[m et]|]; [|apply confined_ret].
  destruct (negb _); [apply confined_ret|]. induction META_RETRIES as [|n IH]; cbn [compact_loop]; [apply confined_err|].
  apply confined_bind; [apply confined_fetch_meta|]. intros [[m1 et1]|]; [|apply confined_ret].
  destruct (negb _) eqn:Hn; [apply confined_ret|]. apply confined_bind; [|intros [d|]; [apply confined_ret|exact IH]].
  unfold compact_attempt. apply confined_bind; [apply confined_docs_at|]. intros docs.
  apply confined_bind; [apply confined_result|]. intros body. apply confined_put_populate; [right; by left|].
  apply confined_bind; [apply confined_result|]. intros mb.
  apply confined_bind; [apply confined_put; by left|]. intros [t|e].
  - apply confined_bind; [apply confined_delete_segments|intros d; apply confined_ret].
  - destruct (_ && _); [apply confined_ret|apply confined_err].
Qed.

Section Run.
Context (ns : string) (m : NamespaceMeta) (log : list WalEntry).
Hypothesis log_bound : lenZ log < u64_max.
Hypothesis snapshot_exact : forall seq docs b, docs_after log seq docs ->
  snapshot_to_vec (from_docs seq docs) = Some b -> snapshot_from_slice b = Some (from_docs seq docs).

(** The log is [log] and the filter index is exact at [m]'s cursor. *)
Definition indexed (m : NamespaceMeta) (w : World) : Prop :=
  cache_inv w /\ ns_state (objects w) ns m log /\ index_ok (objects w) ns m log.

(** The cursor has been advanced to [to]. *)
Definition advanced (to : Z) (w : World) : Prop := exists m', indexed m' w /\ index_cursor m' = to.

Lemma indexed_frame K w w' m0 :
  cache_inv w' -> (forall k, ~ K k -> objects w' !! k = objects w !! k) ->
  (forall o, object_ok o -> o = OMeta \/ o = OSnapshot \/ (exists s, o = OWal s) \/ o = OFilter (index_cursor m0) ->
     ~ K (object_key ns o)) ->
  indexed m0 w -> indexed m0 w'.
Proof.
  intros Hw' Hf HK (Hw & Hst & Hid & Hix). pose proof (wf_cursors _ (nss_wf _ _ _ _ Hst)) as Hcur.
  pose proof (nss_commit _ _ _ _ Hst) as Hcom.
  split; [done|]. split; [|split; [done|]].
  - eapply ns_state_frame; [|exact Hst]. intros k [->|[->|(seq & -> & Hs)]]; apply Hf.
    + apply (HK OMeta); [done|by left].
    + apply (HK OSnapshot); [done|right; by left].
    + apply (HK (OWal seq)); [cbn; unfold is_u64; lia|]. right; right; left. by eexists.
  - intros Hpos. destruct (Hix Hpos) as (docs & Hd & b & t & seg & Hb & Hs & Hr). exists docs. split; [done|].
    exists b, t, seg. split; [|done]. rewrite Hf; [done|]. apply (HK (OFilter (index_cursor m0))).
    + cbn. unfold is_u64. lia.
    + by right; right; right.
Qed.

Lemma index_keys_frame to w w' m0 :
  is_u64 to -> index_cursor m0 <> to -> cache_inv w' ->
  (forall k, ~ index_keys ns to k -> objects w' !! k = objects w !! k) -> indexed m0 w -> indexed m0 w'.
Proof.
  intros Hu Hne Hw' Hf. eapply indexed_frame; [done|exact Hf|].
  intros o Ho Hcase. apply index_keys_plain; try done.
  - by destruct Hcase as [->|[->|[[s ->]| ->]]].
  - destruct Hcase as [->|[->|[[s ->]| ->]]]; congruence.
  - destruct Hcase as [->|[->|[[s ->]| ->]]]; congruence.
Qed.

Lemma compact_after_commit to m1 w :
  indexed m1 w -> index_cursor m1 = to ->
  st_post (st_try (st_ns (maybe_compact_wal policy ns))) w (fun w' _ => advanced to w').
Proof.
  intros (Hw & Hst & Hid & Hix) Hto.
  pose proof (maybe_compact_keeps policy ns m1 log w log_bound Hst snapshot_exact) as Hk.
  pose proof (confined_compact ns w Hw) as Hc. unfold st_post, st_try, st_ns in *.
  destruct (maybe_compact_wal policy ns w) as [w' r]. cbn in *. destruct Hc as [Hw' Ho].
  destruct Hk as (m2 & Hst2 & Hm2 & _). exists m2.
  assert (index_cursor m2 = index_cursor m1 /\ filter_segment_id m2 = filter_segment_id m1 /\ schema m2 = schema m1)
    as (E1 & E2 & E3) by (by destruct Hm2 as [->| ->]).
  split; [|congruence]. split; [done|]. split; [done|]. split; [congruence|]. rewrite E1, E3. intros Hpos.
  destruct (Hix Hpos) as (docs & Hd & b & t & seg & Hb & Hs & Hr). exists docs. split; [done|].
  exists b, t, seg. split; [|done]. rewrite Ho by apply wal_keys_filter. done.
Qed.

Lemma fetch_indexed w :
  indexed m w -> st_post (st_ns (fetch_meta ns)) w (fun w' r => objects w' = objects w /\ indexed m w' /\
    match r with
    | Ok (Some (m0, _)) => m0 = m
    | Ok None => m = default_meta
    | Err _ => True
    end).
Proof.
  intros (Hw & Hst & Hix). pose proof (fetch_meta_state ns m log w Hst) as Hf.
  pose proof (confined_fetch_meta (fun _ => False) ns w Hw) as Hc. unfold st_post, st_ns in *.
  destruct (fetch_meta ns w) as [w' r]. cbn in *. destruct Hf as [Ho Hr], Hc as [Hw' _].
  split; [done|]. split; [|by destruct r as [[[m0 et]|]|]]. unfold indexed. by rewrite Ho.
Qed.

Lemma index_publish_post to vfs last w :
  indexed m w -> index_cursor m < to /\ to <= lenZ log -> vfs_ok vfs ->
  (exists docs, docs_after log to docs /\ filter_at (objects w) ns to (filter_fields_from_schema (schema m)) docs) ->
  st_post (index_publish policy build ns to vfs last) w (fun w' r =>
    match r with
    | Ok (Some _) => advanced to w'
    | Ok None => indexed m w'
    | Err _ => indexed m w' \/ advanced to w'
    end).
Proof.
  intros Hin [Hto1 Hto2] Hv Hat. unfold index_publish.
  assert (forall w', indexed m w' -> wal_commit_seq m = lenZ log) as Hcom by (intros w' (_ & Hst & _); exact (nss_commit _ _ _ _ Hst)).
  assert (index_cursor m < wal_commit_seq m) as Hlag by (rewrite (Hcom w Hin); lia).
  apply st_post_bind. eapply st_post_mono; [by apply fetch_indexed|].
  intros w1 [[[m1 et1]|]|e] (E1 & Hin1 & Hm1); [|exfalso; rewrite Hm1 in Hlag; cbn in Hlag; lia|by left]. subst m1.
  replace (wal_commit_seq m <=? index_cursor m) with false by (symmetry; apply Z.leb_gt; lia).
  replace (to <=? index_cursor m) with false by (symmetry; apply Z.leb_gt; lia).
  replace (wal_commit_seq m <? to) with false by (symmetry; apply Z.ltb_ge; rewrite (Hcom w Hin); lia).
  unfold index_commit. apply st_post_bind. eapply st_post_mono; [by apply fetch_indexed|].
  intros w2 [[[m2 et2]|]|e] (E2 & Hin2 & Hm2); [|exfalso; rewrite Hm2 in Hlag; cbn in Hlag; lia|by left]. subst m2.
  replace (to <=? index_cursor m) with false by (symmetry; apply Z.leb_gt; lia).
  replace (wal_commit_seq m <? to) with false by (symmetry; apply Z.ltb_ge; rewrite (Hcom w Hin); lia).
  apply st_post_bind, st_post_result.
  destruct (meta_after_index_commit m to to to vfs (ab_ann_version build)) as [m'|] eqn:Hm'; [|by left].
  apply st_post_bind, st_post_result. destruct (meta_to_vec m') as [mb|] eqn:Hmb; cbn [ok_or]; [|by left].
  apply st_post_bind, st_post_lift. destruct Hin2 as (Hw2 & Hst2 & Hix2).
  pose proof (cache_inv_put w2 (meta_key ns) mb (cas_cond et2) Hw2) as Hw3.
  assert (forall t w3, cache_inv w3 -> objects w3 = <[meta_key ns := (mb, t)]> (objects w2) -> indexed m' w3) as Hcommit.
  { intros t w3 Hinv Ho3. unfold indexed. rewrite Ho3. destruct (index_commit_facts m to vfs _ m' (nss_wf _ _ _ _ Hst2) Hv Hm')
      as (_ & C1 & C2 & _ & _ & C5 & _).
    split; [done|]. split; [by eapply ns_state_index_commit|]. split; [congruence|]. rewrite C1, C5. intros _.
    destruct Hat as (docs & Hd & b & tb & seg & Hb & Hrest). exists docs. split; [done|]. exists b, tb, seg.
    split; [|done]. rewrite lookup_insert_ne, E2, E1; [done|]. intros E.
    apply (wal_keys_filter ns to). by left. }
  pose proof (put_ok w2 (meta_key ns) mb (cas_cond et2)) as Hok.
  pose proof (put_err w2 (meta_key ns) mb (cas_cond et2)) as Herr.
  pose proof (put_refused w2 (meta_key ns) mb (cas_cond et2)) as Href.
  destruct (s3_put w2 (meta_key ns) mb (cas_cond et2)) as [w3 [t|e]]; cbn [fst snd] in *.
  - destruct (Hok t eq_refl) as [_ (t' & _ & Ho)]. apply st_post_bind.
    eapply st_post_mono; [apply (compact_after_commit to m'); [by eapply Hcommit|]|].
    + by destruct (index_commit_facts m to vfs _ m' (nss_wf _ _ _ _ Hst2) Hv Hm') as (_ & C1 & _).
    + intros w4 [r|e] Hadv; [exact Hadv|by right].
  - assert (objects w3 = objects w2 -> indexed m w3) as Hsame by (intros Eo; unfold indexed; by rewrite Eo).
    destruct (has_code e "PreconditionFailed" && negb last) eqn:Hc.
    + apply andb_true_iff in Hc as [Hc _]. by apply Hsame, Href with e.
    + cbn. destruct (Herr e eq_refl) as [Ho|[_ [t Ho]]]; [left; auto|]. right. exists m'. split; [by eapply Hcommit|].
      by destruct (index_commit_facts m to vfs _ m' (nss_wf _ _ _ _ Hst2) Hv Hm') as (_ & C1 & _).
Qed.

(** The target of a run: at least one segment, at most all of them. *)
Lemma index_target_bounds max_segments :
  index_cursor m < wal_commit_seq m -> 0 <= index_cursor m -> wal_commit_seq m < u64_max ->
  index_cursor m < index_target m max_segments /\ index_target m max_segments <= wal_commit_seq m.
Proof.
  intros Hl Hc Hu. unfold index_target. destruct max_segments as [n|]; [|lia]. unfold sat_add64, sat_sub. lia.
Qed.

Lemma index_loop_post n max_segments w :
  (forall docs, docs_after log (index_cursor m) docs ->
     delta_safe docs (drop (Z.to_nat (index_cursor m)) (take (Z.to_nat (index_target m max_segments)) log))) ->
  indexed m w ->
  st_post (index_loop policy opts max_probe build n ns max_segments) w (fun w' r =>
    match r with
    | Ok _ => if index_cursor m <? lenZ log then advanced (index_target m max_segments) w' else indexed m w'
    | Err _ => indexed m w' \/ advanced (index_target m max_segments) w'
    end).
Proof.
  intros Hsafe. revert w. induction n as [|n IH]; intros w Hin; cbn [index_loop]; [by left|].
  apply st_post_bind. unfold index_attempt. apply st_post_bind. eapply st_post_mono; [by apply fetch_indexed|].
  assert (wal_commit_seq m = lenZ log) as Hcom by (destruct Hin as (_ & Hst & _); exact (nss_commit _ _ _ _ Hst)).
  assert (0 <= index_cursor m <= lenZ log) as Hcur.
  { destruct Hin as (_ & Hst & _). pose proof (wf_cursors _ (nss_wf _ _ _ _ Hst)). lia. }
  intros w1 [[[m1 et1]|]|e] (E1 & Hin1 & Hm1); [|cbn|by left].
  2: { assert (lenZ log = 0) as Hz by (rewrite <- Hcom, Hm1; done). replace (index_cursor m <? lenZ log) with false; [done|].
       symmetry. apply Z.ltb_ge. lia. }
  subst m1. rewrite Hcom. destruct (lenZ log <=? index_cursor m) eqn:El; case_bool.
  { cbn. replace (index_cursor m <? lenZ log) with false; [done|]. symmetry. apply Z.ltb_ge. lia. }
  assert ((index_cursor m <? lenZ log) = true) as Hlt by (apply Z.ltb_lt; lia). rewrite Hlt in IH |- *.
  pose proof (index_target_bounds max_segments ltac:(lia) ltac:(lia) ltac:(lia)) as Ht. rewrite Hcom in Ht.
  set (to := index_target m max_segments) in *.
  apply st_post_bind. destruct Hin1 as (Hw1 & Hst1 & Hix1).
  eapply st_post_mono; [by apply (index_build_post ns m log to)|].
  intros w2 r2 (Hw2 & Hf2 & Hr2).
  assert (indexed m w2) as Hin2.
  { eapply (index_keys_frame to w1); try done; [unfold is_u64; lia|lia]. }
  destruct r2 as [vfs|e]; [|by left]. destruct Hr2 as [Hv Hat].
  eapply st_post_mono; [by apply index_publish_post|].
  intros w3 [[u|]|e] Hr3; [exact Hr3|by apply IH|done].
Qed.
End Run.
End IndexRun.

(** ** Concrete instances for the witnesses *)

(** A disabled cache reads the store. *)
Definition direct_reads (S : ObjectStore) : @CachedReads S (no_cache S) := {|
  cache_get := fun k => do? o <- get_object_bytes_optional k; st_ret (fst <$> o);
  cache_inv := fun _ => True
|}.

#[export] Instance direct_reads_monitor {S : ObjectStore} {MO : Monitor} : @ReadsMonitor S MO (no_cache S) (direct_reads S).
Proof.
  split. intros k w H. cbn. destruct (agree_bytes_optional k w) as [M _]. specialize (M H). unfold st_bind.
  by destruct (get_object_bytes_optional k w) as [w1 [o|e]].
Qed.

Lemma direct_reads_laws (S : ObjectStore) (SL : @StoreLaws S) : @CachedReadsLaws S (no_cache S) (direct_reads S).
Proof.
  split; try done. intros k w _. apply st_post_bind. eapply st_post_mono; [apply get_object_bytes_optional_reads|].
  intros w' [[[b et]|]|e] [Ho Hr]; cbn; try done. destruct Hr as (t & _ & Hb). by split_and!; [..|exists t].
Qed.

#[export] Instance FilterSegment_eq_decision : EqDecision FilterSegment.
Proof. solve_decision. Defined.
#[export] Instance Posting_eq_decision : EqDecision Posting.
Proof. solve_decision. Defined.
#[export] Instance FtsSegment_eq_decision : EqDecision FtsSegment.
Proof. solve_decision. Defined.
#[export] Instance ClusterMember_eq_decision : EqDecision ClusterMember.
Proof. assert (EqDecision spec_float) by solve_decision. solve_decision. Defined.
#[export] Instance ClusterSegment_eq_decision : EqDecision ClusterSegment.
Proof. solve_decision. Defined.
#[export] Instance CentroidIndexL1_eq_decision : EqDecision CentroidIndexL1.
Proof. assert (EqDecision spec_float) by solve_decision. solve_decision. Defined.
#[export] Instance CentroidIndexL0_eq_decision : EqDecision CentroidIndexL0.
Proof. assert (EqDecision spec_float) by solve_decision. solve_decision. Defined.

Definition segment_table (fts : list FtsSegment) (fil : list FilterSegment) (l0s : list CentroidIndexL0)
    (l1s : list CentroidIndexL1) (cls : list ClusterSegment) : SegmentCodec := {|
  fts_serialize := table_write fts; fts_deserialize := table_read fts;
  filter_serialize := table_write fil; filter_deserialize := table_read fil;
  l0_serialize := table_write l0s; l0_deserialize := table_read l0s; l0_legacy_deserialize := fun _ => None;
  l1_serialize := table_write l1s; l1_deserialize := table_read l1s;
  l2_serialize := fun _ => None; l2_deserialize := fun _ => None;
  routing_serialize := fun _ => None; routing_deserialize := fun _ => None;
  cluster_serialize := table_write cls; cluster_deserialize := table_read cls
|}.

Lemma segment_table_laws fts fil l0s l1s cls : @SegmentCodecLaws (segment_table fts fil l0s l1s cls).
Proof. split. intros s b. apply table_roundtrip. Qed.

(** ** Theorems *)

(** On a store without misread answers. *)
Lemma index_run_post {IO : IterOrder} {WC : WalCodec} {MC : MetaCodec} {ML : MetaCodecLaws}
    {S : ObjectStore} {SL : StoreLaws} {HM : NoMisreads} {LC : LocalCache} {LL : LocalCacheLaws}
    {CR : CachedReads} {CL : CachedReadsLaws} {SC : SegmentCodec} {SCL : SegmentCodecLaws}
    {TL : TextLib} {FT : F64Text} {VL : VectorLib} policy opts max_probe build ns m log max_segments w :
  lenZ log < u64_max ->
  (forall seq docs b, docs_after log seq docs -> snapshot_to_vec (from_docs seq docs) = Some b ->
     snapshot_from_slice b = Some (from_docs seq docs)) ->
  (forall docs, docs_after log (index_cursor m) docs ->
     delta_safe docs (drop (Z.to_nat (index_cursor m)) (take (Z.to_nat (index_target m max_segments)) log))) ->
  cache_inv w -> ns_state (objects w) ns m log -> index_ok (objects w) ns m log ->
  let '(w', r) := index_wal_range policy opts max_probe build ns max_segments w in
  exists m', cache_inv w' /\ ns_state (objects w') ns m' log /\ index_ok (objects w') ns m' log /\
    (is_ok r = true -> index_cursor m' =
       if index_cursor m <? lenZ log then index_target m max_segments else index_cursor m) /\
    (index_cursor m' = index_cursor m \/ index_cursor m' = index_target m max_segments).
Proof.
  intros Hl Hex Hsafe Hw Hst Hix.
  pose proof (index_loop_post policy opts max_probe build ns m log Hl Hex META_RETRIES max_segments w Hsafe
    (conj Hw (conj Hst Hix))) as Hp.
  unfold st_post in Hp. unfold index_wal_range. destruct (index_loop _ _ _ _ META_RETRIES ns max_segments w) as [w' r].
  cbn in Hp.
  assert (indexed ns log m w' -> exists m', cache_inv w' /\ ns_state (objects w') ns m' log /\ index_ok (objects w') ns m' log /\
    index_cursor m' = index_cursor m) as H1 by (intros (H1 & H2 & H3); by exists m).
  assert (advanced ns log (index_target m max_segments) w' -> exists m', cache_inv w' /\ ns_state (objects w') ns m' log /\
    index_ok (objects w') ns m' log /\ index_cursor m' = index_target m max_segments) as H2
    by (intros (m' & (H2 & H3 & H4) & H5); by exists m').
  destruct r as [u|e]; cbn.
  - destruct (index_cursor m <? lenZ log).
    + destruct (H2 Hp) as (m' & ? & ? & ? & ?). exists m'. tauto.
    + destruct (H1 Hp) as (m' & ? & ? & ? & ?). exists m'. tauto.
  - destruct Hp as [Hp|Hp].
    + destruct (H1 Hp) as (m' & ? & ? & ? & ?). exists m'. split_and!; tauto || done.
    + destruct (H2 Hp) as (m' & ? & ? & ? & ?). exists m'. split_and!; tauto || done.
Qed.

(** C13: a run of the indexer is safe whatever requests fail, unless a read of
    the existing [meta.json] was answered by an error taken for its absence
    ([misled]), and exact: from a namespace whose filter index represents the
    documents at the index cursor and with a segment cache in step with the store
    ([cache_inv]), afterwards the committed log is unchanged and
    the filter index is exact at the cursor the metadata then names; success
    means that the cursor is the run's target (or that nothing was left to
    index), an error that it is the old cursor or the target.  Two conditions:
    the range has no patches, or deletes no document that it upserted or patched
    before ([delta_safe]; otherwise the index gets a deleted document, see
    [index_delta_resurrects]), and the JSON codec reads the snapshots of this
    log back exactly. *)
Theorem index_run_exact {IO : IterOrder} {WC : WalCodec} {MC : MetaCodec} {ML : MetaCodecLaws}
    {S : ObjectStore} {SL : StoreLaws} {MO : Monitor} {LC : LocalCache} {LL : LocalCacheLaws}
    {CM : CacheMonitor}
    {CR : CachedReads} {CL : CachedReadsLaws} {RM : ReadsMonitor} {SC : SegmentCodec} {SCL : SegmentCodecLaws}
    {TL : TextLib} {FT : F64Text} {VL : VectorLib} policy opts max_probe build ns m log max_segments w :
  lenZ log < u64_max ->
  (forall seq docs b, docs_after log seq docs -> snapshot_to_vec (from_docs seq docs) = Some b ->
     snapshot_from_slice b = Some (from_docs seq docs)) ->
  (forall docs, docs_after log (index_cursor m) docs ->
     delta_safe docs (drop (Z.to_nat (index_cursor m)) (take (Z.to_nat (index_target m max_segments)) log))) ->
  cache_inv w -> ns_state (objects w) ns m log -> index_ok (objects w) ns m log ->
  let '(w', r) := index_wal_range policy opts max_probe build ns max_segments w in
  misled w' = false ->
  exists m', cache_inv w' /\ ns_state (objects w') ns m' log /\ index_ok (objects w') ns m' log /\
    (is_ok r = true -> index_cursor m' =
       if index_cursor m <? lenZ log then index_target m max_segments else index_cursor m) /\
    (index_cursor m' = index_cursor m \/ index_cursor m' = index_target m max_segments).
Proof.
  intros Hl Hex Hsafe Hw Hst Hix. refine (agree_run _ _ w _ (agree_index_loop policy opts max_probe build META_RETRIES ns max_segments) _).
  exact (index_run_post (S := recognised S) (LL := recognised_cache_laws LL) (CL := recognised_reads_laws CL)
    policy opts max_probe build ns m log max_segments w Hl Hex Hsafe Hw Hst Hix).
Qed.


(** strong filters are exact over a lagging index: a query on a namespace
    whose index is at an earlier cursor, given the filter segment the query path
    loads, the documents of the whole log and the ids the unindexed segments
    touch, selects exactly the committed documents the filter accepts. *)
Theorem indexed_filter_exact {IO : IterOrder} {WC : WalCodec} {MC : MetaCodec}
    {S : ObjectStore} {LC : LocalCache} {CR : CachedReads} {CL : CachedReadsLaws}
    {SC : SegmentCodec} {FT : F64Text} {FL : F64TextLaws} ns m log w w' o docs ctx expr :
  cache_inv w -> ns_state (objects w) ns m log -> index_ok (objects w) ns m log -> replay ∅ log = Ok docs ->
  load_filter_segment_for_query ns m w = (w', Ok o) ->
  qc_consistency ctx = Strong -> qc_docs ctx = docs -> qc_filter_index ctx = o ->
  qc_tail_doc_ids ctx = wal_touched_doc_ids (drop (Z.to_nat (index_cursor m)) log) ->
  (forall indexed, docs_after log (index_cursor m) indexed ->
     docs_plain indexed /\ FilterIndex.indexable (filter_fields_from_schema (schema m)) indexed expr) ->
  exists ids, matching_doc_ids_for_filter ctx expr = Ok ids /\
    forall id, id ∈ ids <-> exists doc, docs !! id = Some doc /\ eval_filter expr doc = true.
Proof.
  intros Hw Hst [Hid Hix] Hdocs Hload Hc Hqd Hqf Hqt Hpl. rewrite <- Hqd. apply strong_filter; [done|].
  unfold filter_current. rewrite Hqf. unfold load_filter_segment_for_query in Hload.
  destruct (_ || _) eqn:E; [by injection Hload as <- <-|]. apply orb_false_iff in E as [_ E%Z.eqb_neq].
  pose proof (load_filter_reads ns (filter_segment_id m) w Hw) as Hr. unfold st_post in Hr. rewrite Hload in Hr. cbn in Hr.
  destruct Hr as (_ & _ & Hr). pose proof (wf_cursors _ (nss_wf _ _ _ _ Hst)).
  rewrite Hid in Hr. destruct (Z.eqb_spec (index_cursor m) 0); [done|].
  destruct Hix as (indexed & Hd & b & t & seg & Hb & Hs & Hrep); [lia|].
  destruct o as [seg'|]; [|done]. destruct Hr as (b' & t' & Hb' & Hs'). assert (seg' = seg) as -> by congruence.
  destruct (Hpl indexed Hd) as [Hp1 Hp2].
  exists (filter_fields_from_schema (schema m)), indexed, (drop (Z.to_nat (index_cursor m)) log).
  split_and!; try done. unfold docs_after in Hd. rewrite <- (take_drop (Z.to_nat (index_cursor m)) log), replay_app, Hd in Hdocs.
  rewrite Hqd. exact Hdocs.
Qed.

(** ** A concrete run: one committed document, not yet indexed *)

Definition run_doc : Document := mkDocument "a" {[ "tier" := VString "free" ]}.
Definition run_filter : FilterSegment := @filter_build canonical_order sample_text 1 (VObject []) [("a", run_doc)].
Definition run_fts : FtsSegment :=
  @fts_apply_delta canonical_order ascii_text plain_opts (mkFts 1 "" 0 0 ∅ ∅) [("a", run_doc)] [].
Definition run_segments : SegmentCodec := segment_table [run_fts] [run_filter] [] [] [].
Definition run_meta : NamespaceMeta := set_index 1 1 1 (meta_at 1).
Definition run_metas : MetaCodec := meta_table [meta_at 1; meta_at 2; meta_at 3; run_meta].

Definition run_indexer (w : MemWorld) : MemWorld * result IxError unit :=
  @index_wal_range canonical_order demo_codec run_metas calm_store (no_cache calm_store) (direct_reads calm_store)
    run_segments ascii_text sample_text rfc4648 PolicyFail plain_opts 64 (mkBuild 4 2 ANN_VERSION_V2) "ns" (Some 1) w.

Example run_indexer_commits : (run_indexer demo_world).2 = Ok tt.
Proof. vm_compute. reflexivity. Qed.

Lemma run_state0 : @ns_state canonical_order demo_codec run_metas (mem_objects demo_world) "ns" (meta_at 1) [put_entry "a"].
Proof.
  destruct demo_world_state as [_ H2 H3 H4 H5 H6 H7]. split; try done.
  right. exists [65], "2". split; vm_compute; reflexivity.
Qed.

Lemma demo_snapshot_exact seq docs b :
  @snapshot_to_vec demo_codec (@from_docs canonical_order seq docs) = Some b ->
  @snapshot_from_slice demo_codec b = Some (@from_docs canonical_order seq docs).
Proof. apply (table_roundtrip []). Qed.

Lemma index_run_exact_witness :
  let '(w', r) := run_indexer demo_world in
  exists m', True /\ @ns_state canonical_order demo_codec run_metas (mem_objects w') "ns" m' [put_entry "a"] /\
    @index_ok canonical_order demo_codec run_segments sample_text (mem_objects w') "ns" m' [put_entry "a"] /\
    (is_ok r = true -> index_cursor m' = 1) /\ (index_cursor m' = 0 \/ index_cursor m' = 1).
Proof.
  pose proof (@index_run_exact canonical_order demo_codec run_metas (meta_table_laws _) calm_store calm_store_laws
    calm_monitor (no_cache calm_store) (no_cache_laws _) no_cache_monitor (direct_reads calm_store) (direct_reads_laws _ _)
    direct_reads_monitor run_segments (segment_table_laws _ _ _ _ _) ascii_text sample_text rfc4648 PolicyFail plain_opts 64
    (mkBuild 4 2 ANN_VERSION_V2) "ns" (meta_at 1) [put_entry "a"] (Some 1) demo_world) as H.
  unfold run_indexer. destruct (index_wal_range _ _ _ _ _ _ _) as [w' r]. apply H; [..|reflexivity].
  - reflexivity.
  - intros seq docs b _. apply demo_snapshot_exact.
  - intros docs _. left. repeat constructor.
  - exact I.
  - exact run_state0.
  - split; [reflexivity|]. intros Hpos. exfalso. revert Hpos. vm_compute. discriminate.
Defined.

Definition indexed_world : MemWorld := (run_indexer demo_world).1.

Lemma indexed_world_state :
  @ns_state canonical_order demo_codec run_metas (mem_objects indexed_world) "ns" run_meta [put_entry "a"].
Proof.
  split.
  - right. eexists _, _. split; [vm_compute; reflexivity|]. vm_compute. reflexivity.
  - split; cbn; try done; try lia; try constructor.
  - done.
  - done.
  - unfold snapshot_sound. vm_compute. reflexivity.
  - intros seq e Hs He. assert (seq = 1) as ->.
    { apply lookup_lt_Some in He. cbn in He, Hs. lia. }
    injection He as <-. exists [1; 65; 72; 0; 0; 0], "1".
    split; [vm_compute; reflexivity|]. intros tag. vm_compute. reflexivity.
  - repeat constructor.
Qed.

Lemma run_docs indexed : @docs_after canonical_order demo_codec [put_entry "a"] 1 indexed -> indexed = {[ "a" := run_doc ]}.
Proof. unfold docs_after. vm_compute. congruence. Qed.

Lemma indexed_world_ok :
  @index_ok canonical_order demo_codec run_segments sample_text (mem_objects indexed_world) "ns" run_meta [put_entry "a"].
Proof.
  split; [reflexivity|]. intros _. exists {[ "a" := run_doc ]}. split; [vm_compute; reflexivity|].
  eexists _, _, run_filter. split; [vm_compute; reflexivity|]. split; [vm_compute; reflexivity|].
  apply add_document_represents; [reflexivity|apply empty_represents].
Qed.

Definition tier_filter : FilterExpr := FCmp "tier" CEq (FString "free").
Definition run_context (o : option FilterSegment) : QueryContext :=
  mkContext {[ "a" := run_doc ]} run_meta None ∅ o ∅ Strong None None None None.

Lemma indexed_filter_exact_witness :
  exists ids, @matching_doc_ids_for_filter canonical_order sample_text (run_context (Some run_filter)) tier_filter = Ok ids /\
    forall id, id ∈ ids <-> exists doc, ({[ "a" := run_doc ]} : gmap string Document) !! id = Some doc /\
      eval_filter tier_filter doc = true.
Proof.
  eapply (@indexed_filter_exact canonical_order demo_codec run_metas calm_store (no_cache calm_store)
    (direct_reads calm_store) (direct_reads_laws _ _) run_segments sample_text sample_text_laws "ns" run_meta
    [put_entry "a"] indexed_world _ (Some run_filter) _ (run_context (Some run_filter)) tier_filter);
    [exact I|exact indexed_world_state|exact indexed_world_ok|vm_compute; reflexivity|vm_compute; reflexivity|reflexivity..|].
  intros indexed ->%run_docs. split.
  - intros id doc field v fv Hd. apply lookup_singleton_Some in Hd as [<- <-].
    intros Hv. cbn in Hv. apply lookup_singleton_Some in Hv as [<- <-]. by intros [= <-].
  - split; [discriminate|]. split; [by left|]. reflexivity.
Defined.

(** ** Findings *)

(** a filter on an attribute the schema does not declare loses its answers
    when the indexer catches up: the committed document satisfies the filter
    and an unindexed query selects it, but once the document is indexed under a
    schema that declares other attributes the same strong query selects
    nothing. *)
Theorem undeclared_attribute_filter_lost :
  let schema := VObject [("n", VString "int")] in
  let segment := @filter_build canonical_order sample_text 1 schema [("a", sample_doc)] in
  let ctx o := mkContext {[ "a" := sample_doc ]} default_meta None ∅ o ∅ Strong None None None None in
  let expr := FCmp "tier" CEq (FString "pro") in
  eval_filter expr sample_doc = true /\
  @matching_doc_ids_for_filter canonical_order sample_text (ctx None) expr = Ok {["a"]} /\
  @matching_doc_ids_for_filter canonical_order sample_text (ctx (Some segment)) expr = Ok ∅.
Proof. split_and!; vm_compute; reflexivity. Qed.

(** the vector columns an index commit writes are the ones of the metadata
    read before the index was built: a column that a concurrent write has added
    in between is dropped from the metadata by the conditional write, which
    succeeds. *)
Theorem index_commit_drops_column :
  let column name := mkVectorField name 2 F32 0 [] in
  let fresh := set_vector_fields [column "emb"; column "late"] (meta_at 2) in
  exists m', meta_after_index_commit fresh 1 1 1 [column "emb"] ANN_VERSION_V2 = Ok m' /\
    vf_name <$> vector_fields fresh = ["emb"; "late"] /\ vf_name <$> vector_fields m' = ["emb"].
Proof. eexists. split; [vm_compute; reflexivity|]. by vm_compute. Qed.

(** Two cells, one member each, on their centroids. *)
Definition pair_member (id : string) (x : Z) : ClusterMember := mkMember id [f64_of_Z x] None.
Definition pair_l1 (c x : Z) : CentroidIndexL1 := mkL1 7 c c 1 [[f64_of_Z x]].
Definition pair_l0 : CentroidIndexL0 :=
  mkL0 7 "emb" 1 2 2 4 2 EuclideanSquared F32 [1; 1] [[f64_of_Z 0]; [f64_of_Z 100]] ANN_VERSION_V2 false 0.
Definition pair_index : VectorIndex :=
  mkVectorIndex pair_l0 {[0 := pair_l1 0 0; 1 := pair_l1 1 100]}
    {[0 := mkCluster 7 0 [pair_member "a" 0]; 1 := mkCluster 7 1 [pair_member "b" 100]]} None ∅.
Definition pair_codec : SegmentCodec :=
  segment_table [] [] [pair_l0; set_passes 1 pair_l0] [pair_l1 0 0; pair_l1 1 100]
    [mkCluster 7 0 [pair_member "a" 0]; mkCluster 7 1 [pair_member "b" 100]].
Definition pair_meta : NamespaceMeta :=
  set_vector_fields [mkVectorField "emb" 1 F32 1 [1]] (set_index 1 1 1 (meta_at 1)).

Definition pair_write (vi : VectorIndex) (w : MemWorld) : MemWorld :=
  (@write_vector_index canonical_order calm_store (no_cache calm_store) pair_codec "ns" "emb" vi w).1.
Definition pair_load (w : MemWorld) : result IxError (option VectorIndex) :=
  (@load_vector_index_full_for_field calm_store (no_cache calm_store) (direct_reads calm_store) pair_codec 64
     (mkBuild 4 2 ANN_VERSION_V2) "ns" pair_meta "emb" w).2.

(** a deleted document comes back.  Deleting the only member of a cluster
    removes the cluster from the index that is written, but the object of the
    cluster is neither overwritten nor deleted, and the next load reads every
    cluster id below the number of fine centroids: the deleted member is in the
    loaded index again. *)
Theorem emptied_cluster_reloaded :
  let w1 := pair_write pair_index (mkMem ∅ 0 []) in
  exists vi2 vi3, @vector_apply_delta canonical_order rfc4648 pair_index [] ["b"] = Ok vi2 /\
    vi_clusters vi2 !! 1 = None /\
    pair_load (pair_write vi2 w1) = Ok (Some vi3) /\
    vi_clusters vi3 !! 1 = Some (mkCluster 7 1 [pair_member "b" 100]).
Proof.
  eexists _, _. split; [vm_compute; reflexivity|]. split; [vm_compute; reflexivity|].
  split; [vm_compute; reflexivity|]. vm_compute. reflexivity.
Qed.

(** a document upserted and then deleted within one run is put in the vector
    index: the run hands all upserts and all deletes of its segments to the
    index, which applies the deletes first (and ignores them when it is built
    for the first time). *)
Theorem deleted_in_run_indexed :
  let codec := table_codec [] [ {[ "emb" := VArray [VNumber (PosInt 3)] ]} ] [] in
  let entries := [mkWalEntry [mkWalUpsert "x" [65]] [] []; mkWalEntry [] [] ["x"]] in
  let doc := mkDocument "x" {[ "emb" := VArray [VNumber (PosInt 3)] ]} in
  @replay canonical_order codec ∅ entries = Ok ∅ /\
  @entries_delta codec entries = Ok ([("x", doc)], ["x"]) /\
  match @vector_apply_delta canonical_order rfc4648 pair_index [("x", doc)] ["x"] with
  | Ok vi => (fun c => cm_doc_id <$> cs_members c) <$> vi_clusters vi !! 0 = Some ["a"; "x"]
  | Err _ => False
  end.
Proof. split_and!; vm_compute; reflexivity. Qed.
