(* ===== verification/IndexerQueue.v ===== *)
(** * The indexer's work queue

    The queue and the set of queued names agree, whatever requests fail. *)

From Stdlib Require Import ZArith Lia Bool.
From stdpp Require Import base gmap strings list sets.
From S2P Require Import Prelude F64 Json Models Schema Meta Keys Wal ObjectStore Namespace Durability Compaction VectorEncoding FilterIndex Fts Vector VectorBuild Cache Indexer IndexerSpec.

(** ** The queue between the await points

    [tick] awaits while it refreshes the queue and while it runs the indexer on
    a namespace it took from the queue; a writer can call [wake] in between.
    [qs_running] is the namespace taken from the queue, whose name is still in
    the set.  [wake] holds the lock of the set until its name is in the queue,
    and only takes from or appends to the queue can happen in between, so it
    counts as one step. *)
Record QueueState : Type := mkQueueState {
  qs_indexer : BackgroundIndexer;
  qs_running : option string
}.

Definition idle (bi : BackgroundIndexer) : QueueState := mkQueueState bi None.

Inductive queue_step : QueueState -> QueueState -> Prop :=
| step_wake s ns : queue_step s (mkQueueState (wake ns (qs_indexer s)) (qs_running s))
| step_refresh bi active :
    NoDup active -> queue_step (idle bi) (idle (mkIndexer active (list_to_set active)))
| step_take bi ns rest :
    queue bi = ns :: rest -> queue_step (idle bi) (mkQueueState (mkIndexer rest (queued bi)) (Some ns))
| step_requeue bi ns :
    queue_step (mkQueueState bi (Some ns)) (idle (mkIndexer (queue bi ++ [ns]) (queued bi)))
| step_finish bi ns :
    queue_step (mkQueueState bi (Some ns)) (idle (mkIndexer (queue bi) (queued bi ∖ {[ns]}))).

(** No namespace is queued twice or while it is running, and the set holds the
    queue and the running namespace. *)
Definition queue_ok (s : QueueState) : Prop :=
  NoDup (queue (qs_indexer s)) /\ (forall ns, qs_running s = Some ns -> ns ∉ queue (qs_indexer s)) /\
  forall n, n ∈ queued (qs_indexer s) <-> n ∈ queue (qs_indexer s) \/ qs_running s = Some n.

Lemma queue_step_ok s s' : queue_step s s' -> queue_ok s -> queue_ok s'.
Proof.
  intros Hs (Hn & Hr & Hq). destruct Hs as [s ns|bi active Ha|bi ns rest E|bi ns|bi ns]; cbn in *.
  - unfold wake. destruct (decide (ns ∈ queued (qs_indexer s))) as [|Hni]; [by split_and!|].
    assert (ns ∉ queue (qs_indexer s) /\ qs_running s <> Some ns) as [H1 H2] by (rewrite Hq in Hni; tauto).
    split_and!; cbn [qs_indexer qs_running queue queued].
    + apply NoDup_app. split_and!; [done| |apply NoDup_singleton]. intros x Hx Hin.
      by apply list_elem_of_singleton in Hin as ->.
    + intros ns' E. rewrite not_elem_of_app, list_elem_of_singleton. split; [by apply Hr|]. by intros ->.
    + intros n. rewrite elem_of_union, elem_of_app, list_elem_of_singleton, elem_of_singleton, Hq. tauto.
  - split_and!; [done..|]. intros n. cbn. rewrite elem_of_list_to_set. naive_solver.
  - rewrite E in *. apply NoDup_cons in Hn as [Hni Hn]. split_and!; cbn; [done|by intros ? [= <-]|].
    intros n. rewrite Hq, elem_of_cons. naive_solver.
  - split_and!; cbn; [|done|].
    + apply NoDup_app. split_and!; [done| |apply NoDup_singleton]. intros x Hx Hin.
      apply list_elem_of_singleton in Hin as ->. by eapply Hr.
    + intros n. rewrite Hq, elem_of_app, list_elem_of_singleton. naive_solver.
  - split_and!; cbn; [done..|]. intros n. rewrite elem_of_difference, elem_of_singleton, Hq.
    specialize (Hr ns eq_refl). naive_solver.
Qed.

Lemma queue_reach_ok s s' : rtc queue_step s s' -> queue_ok s -> queue_ok s'.
Proof. induction 1; [done|]. intros ?. by eauto using queue_step_ok. Qed.

(** The empty queue of [spawn]. *)
Definition spawned : QueueState := idle (mkIndexer [] ∅).

Lemma spawned_ok : queue_ok spawned.
Proof. split_and!; cbn; [constructor|done|]. intros n. set_solver. Qed.

Section Queue.
Context {IO : IterOrder} {WC : WalCodec} {MC : MetaCodec} {S : ObjectStore} {LS : ListStore}.
Context {LC : LocalCache} {CR : CachedReads} {SC : SegmentCodec} {TL : TextLib} {FT : F64Text} {VL : VectorLib}.

Lemma active_returns names lag active :
  returns (active_namespaces names lag active) (fun out => NoDup (active ++ names) -> NoDup out.2).
Proof.
  revert lag active. induction names as [|name names IH]; intros lag active; cbn [active_namespaces].
  { intros w. cbn. by rewrite app_nil_r. }
  eapply returns_bind; [apply returns_any|]. intros cur _ w.
  assert (NoDup (active ++ name :: names) -> NoDup (active ++ names)) as Hskip.
  { rewrite !NoDup_app, NoDup_cons. intros (H1 & H2 & H3 & H4). split_and!; [done| |done]. set_solver. }
  destruct cur as [[meta et]|].
  - destruct (_ || _).
    + specialize (IH (<[name := index_scheduling_lag meta]> lag) (active ++ [name]) w).
      destruct ((active_namespaces names _ _ w).2) as [out|]; [|done]. rewrite <- app_assoc in IH. exact IH.
    + specialize (IH lag active w). destruct ((active_namespaces names _ _ w).2) as [out|]; [|done]. auto.
  - specialize (IH lag active w). destruct ((active_namespaces names _ _ w).2) as [out|]; [|done]. auto.
Qed.

Lemma refresh_returns fuel bi : returns (refresh_work_queue fuel bi) (fun bi' => queue_step (idle bi) (idle bi')).
Proof.
  unfold refresh_work_queue. eapply returns_bind; [apply returns_any|]. intros listed _.
  eapply returns_bind; [apply active_returns|]. intros [lag active] Hnd w. cbn in *.
  assert (NoDup active) as Ha by (apply Hnd; rewrite iter_set_perm; apply NoDup_elements).
  constructor. unfold sort_namespaces_by_index_lag. by rewrite sort_by_perm.
Qed.

Context (policy : WalCorruptPolicy) (opts : FtsTokenizeOptions) (max_probe : Z) (build : AnnBuildConfig).
Context (dropped : string -> World -> option World).

(** A turn takes a namespace, runs the indexer and puts it back or drops it. *)
Lemma tick_turn_steps n lags st :
  rtc queue_step (idle st.2) (idle (tick_turn policy opts max_probe build dropped n lags st).2).
Proof.
  destruct st as [w bi]. unfold tick_turn. cbn [snd]. destruct (queue bi) as [|ns rest] eqn:E; [constructor|].
  destruct (index_namespace_timeboxed _ _ _ _ _ _ _ _ _) as [w' r]. cbn [snd].
  eapply rtc_l; [by apply (step_take bi ns rest)|]. apply rtc_once.
  destruct (match r with Ok b => b | Err _ => true end); 
    [exact (step_requeue (mkIndexer rest (queued bi)) ns)|exact (step_finish (mkIndexer rest (queued bi)) ns)].
Qed.

Lemma tick_steps fuel bi w : rtc queue_step (idle bi) (idle (tick policy opts max_probe build dropped fuel bi w).1.2).
Proof.
  unfold tick. pose proof (refresh_returns fuel bi w) as Hr.
  destruct (refresh_work_queue fuel bi w) as [w1 [bi1|e]]; cbn in Hr |- *; [|constructor].
  eapply rtc_l; [exact Hr|].
  destruct (queue_lags (queue bi1) ∅ w1) as [w2 [lags|e]]; [|constructor].
  assert (forall n, rtc queue_step (idle bi1)
    (idle (Nat.iter n (tick_turn policy opts max_probe build dropped (lenZ (queue bi1)) lags) (w2, bi1)).2)) as Hi.
  { induction n as [|n IH]; [constructor|]. rewrite Nat.iter_succ. etrans; [exact IH|]. apply tick_turn_steps. }
  specialize (Hi (length (queue bi1))). destruct (Nat.iter _ _ _) as [w3 bi3].
  by destruct ((do? names <- list_namespace_names fuel; compaction_pass policy names) w3) as [w4 r].
Qed.
End Queue.

(** ** Theorems *)

(** C29: the work queue is consistent.  The tick and the wake-ups of writers are
    interleaved at the await points, and requests may fail and runs be cut off by
    their time slice: at any time no namespace is queued twice or while it is
    being indexed, and the set of names is exactly the queue with the namespace
    being indexed; so after a wake-up the namespace is in the queue or being
    indexed (a wake-up during its run is not remembered, see
    [wake_during_run_lost]).  A tick that is not interrupted is a sequence of
    these steps, and it asks for one to eight segments per namespace. *)
Theorem work_queue_consistent {IO : IterOrder} {WC : WalCodec} {MC : MetaCodec} {S : ObjectStore} {LS : ListStore}
    {LC : LocalCache} {CR : CachedReads} {SC : SegmentCodec} {TL : TextLib} {FT : F64Text} {VL : VectorLib}
    policy opts max_probe build dropped fuel s w :
  rtc queue_step spawned s ->
  queue_ok s /\
  (forall ns, ns ∈ queue (wake ns (qs_indexer s)) \/ qs_running s = Some ns) /\
  (qs_running s = None ->
     rtc queue_step s (idle (tick policy opts max_probe build dropped fuel (qs_indexer s) w).1.2)) /\
  (forall lag competing, 0 <= lag -> 1 <= segments_per_background_tick lag competing <= MAX_SEGMENTS_BURST_PER_TICK).
Proof.
  intros Hs. pose proof (queue_reach_ok _ _ Hs spawned_ok) as Hok. split_and!.
  - done.
  - intros ns. destruct Hok as (_ & _ & Hq). unfold wake. destruct (decide (ns ∈ queued (qs_indexer s))) as [Hin|]; [by apply Hq|].
    left. cbn. set_solver.
  - destruct s as [bi run]. cbn. intros ->. apply tick_steps.
  - intros lag competing Hl. unfold segments_per_background_tick, MAX_SEGMENTS_BURST_PER_TICK. destruct (lag =? 0); [lia|].
    destruct (_ || _); [unfold clampZ; destruct (lag <? 1) eqn:E1, (8 <? lag) eqn:E2; case_bool; lia|].
    destruct (_ <=? lag); lia.
Qed.

(** A bucket whose listing is the one page the caller gives. *)
Definition page_list (prefixes : list (option string)) : @ListStore calm_store := {|
  s3_list_prefixes := fun w _ _ => (w, Ok (prefixes, None))
|}.

(** "a" is being indexed; "b" was queued and "a" woken meanwhile. *)
Definition running_state : QueueState := mkQueueState (mkIndexer ["b"] {[ "b"; "a" ]}) (Some "a").

Lemma running_reachable : rtc queue_step spawned running_state.
Proof.
  eapply rtc_l; [apply (step_wake spawned "a")|]. cbn.
  eapply rtc_l; [by eapply (step_take _ "a" [])|]. cbn.
  eapply rtc_l; [apply (step_wake _ "b")|]. cbn. apply rtc_once.
  pose proof (step_wake (mkQueueState (wake "b" (mkIndexer [] ({[ "a" ]} ∪ ∅))) (Some "a")) "a") as H.
  cbn in H. unfold wake at 2 in H. rewrite decide_True in H by (vm_compute; reflexivity).
  replace running_state with (mkQueueState (wake "b" (mkIndexer [] ({[ "a" ]} ∪ ∅))) (Some "a")); [exact H|].
  vm_compute. reflexivity.
Qed.

Lemma work_queue_consistent_witness :
  queue_ok running_state /\ (forall ns, ns ∈ queue (wake ns (qs_indexer running_state)) \/ Some "a" = Some ns).
Proof.
  destruct (@work_queue_consistent canonical_order demo_codec run_metas calm_store (page_list [Some "openpuffer/ns/"])
    (no_cache calm_store) (direct_reads calm_store) run_segments ascii_text sample_text rfc4648 PolicyFail plain_opts 64
    (mkBuild 4 2 ANN_VERSION_V2) (fun _ _ => None) 3 running_state demo_world running_reachable) as (H1 & H2 & _).
  split; [exact H1|exact H2].
Defined.

(** ** Findings *)

(** a wake-up during a run is lost.  The set is said to hold the names in the
    queue, but it also holds the namespace taken from it; a write that commits
    after the run has read the metadata for the last time wakes the indexer in
    vain, and the run then drops the namespace: it is not queued, and the loop
    is not notified, until the next poll finds it. *)
Theorem wake_during_run_lost ns :
  let running := mkQueueState (mkIndexer [] {[ ns ]}) (Some ns) in
  rtc queue_step spawned running /\
  queue_step running (mkQueueState (wake ns (qs_indexer running)) (Some ns)) /\
  exists s, queue_step (mkQueueState (wake ns (qs_indexer running)) (Some ns)) s /\
    qs_running s = None /\ ns ∉ queue (qs_indexer s) /\ ns ∉ queued (qs_indexer s).
Proof.
  assert (wake ns (mkIndexer [] {[ ns ]}) = mkIndexer [] {[ ns ]}) as Hw.
  { unfold wake. by rewrite decide_True by (cbn; set_solver). }
  cbn. split_and!.
  - eapply rtc_l; [apply (step_wake spawned ns)|]. cbn. unfold wake. cbn. rewrite decide_False by set_solver.
    rewrite (union_empty_r_L (C := gset string)). apply rtc_once. exact (step_take (mkIndexer [ns] {[ ns ]}) ns [] eq_refl).
  - apply (step_wake (mkQueueState (mkIndexer [] {[ ns ]}) (Some ns))).
  - rewrite Hw. eexists. split; [apply step_finish|]. cbn. split_and!; [done|set_solver..].
Qed.
