(* ===== verification/ColdFetch.v ===== *)
(** * Batched fetches for cold queries ([s3_batch.rs])

    When the segment cache is disabled a query reads its objects straight from
    the store, in rounds of parallel GET requests.  The planner lists the keys
    of each round; the fetchers read them and decode the part of the index the
    query probes.  [load_cold_batched] of [view.rs] opens a namespace the same
    way. *)

From Stdlib Require Import ZArith Lia Bool.
From stdpp Require Import base gmap strings list.
From S2P Require Import Prelude F64 Json Models Keys Schema Meta Wal WalReplay ObjectStore Namespace Durability Compaction VectorEncoding FilterIndex Fts Vector VectorBuild View Cache Indexer.

(** ** Parameters of a round *)

Definition DEFAULT_COLD_MAX_KEYS_PER_ROUND : Z := 128.

(** The argument is the parsed environment variable. *)
Definition cold_max_keys_per_round (parsed : option Z) : Z :=
  match parsed with
  | Some n => if 1 <=? n then n else DEFAULT_COLD_MAX_KEYS_PER_ROUND
  | None => DEFAULT_COLD_MAX_KEYS_PER_ROUND
  end.

Definition cold_fetch_sub_batch_count (key_count max_per_batch : Z) : Z :=
  if key_count =? 0 then 0
  else
    let m := Z.max max_per_batch 1 in
    (key_count + m - 1) / m.

Record ColdQueryPlan : Type := mkPlan {
  round1 : list string;
  round2 : list string;
  round3 : list string;
  round4 : list string
}.

Definition empty_plan : ColdQueryPlan := mkPlan [] [] [] [].

Record ColdPlanOpts : Type := mkPlanOpts {
  include_wal_round : bool;
  include_wal_tail : bool
}.

Inductive ColdError : Type :=
| ColdLimit (e : LimitError)
| ColdKey (key : string) (e : LimitError)
| ColdNs (e : NsError)
| ColdIx (e : IxError)
| ColdWal (e : WalError)
| ColdDecode (key : string)
| ColdNotFound (key : string)
| ColdMissingSegment (seq : Z).

Definition cold_limit {A} (r : result LimitError A) : result ColdError A :=
  match r with Ok a => Ok a | Err e => Err (ColdLimit e) end.

Definition validate_cold_namespace (namespace : string) : result ColdError unit :=
  cold_limit (validate_namespace_name namespace).

Definition validate_cold_vector_field (field : string) : result ColdError unit :=
  cold_limit (validate_s3_path_segment field).

Fixpoint validate_cold_s3_keys (keys : list string) : result ColdError unit :=
  match keys with
  | [] => Ok tt
  | key :: rest =>
      match validate_s3_object_key key with
      | Err e => Err (ColdKey key e)
      | Ok _ => validate_cold_s3_keys rest
      end
  end.

(** [keys.sort(); keys.dedup()]. *)
Definition sort_dedup (keys : list string) : list string := dedup (sort_by str_cmp keys).

(** ** Key lists *)

Definition l0_keys_for_meta (namespace : string) (meta : NamespaceMeta) : list string :=
  sort_dedup (omap (fun cfg =>
    if (0 <? vf_segment_id cfg) && (0 <? index_cursor meta) && (0 <? vf_dimensions cfg) then
      Some (if vector_index_uses_legacy_paths meta (vf_name cfg) then l0_key namespace ""
            else l0_key namespace (vf_name cfg))
    else None) (effective_vector_fields meta)).

Definition has_fts (meta : NamespaceMeta) : bool := (0 <? Meta.fts_segment_id meta) && (0 <? index_cursor meta).
Definition has_filter (meta : NamespaceMeta) : bool := (0 <? filter_segment_id meta) && (0 <? index_cursor meta).

Definition round2_bootstrap_keys (namespace : string) (meta : NamespaceMeta) : list string :=
  sort_dedup (
    (if has_fts meta then [fts_segment_key namespace (Meta.fts_segment_id meta)] else []) ++
    (if has_filter meta then [filter_segment_key namespace (filter_segment_id meta)] else [])).

Definition wal_commit_replay_from (meta : NamespaceMeta) : option Z :=
  if 0 <? wal_snapshot_seq meta then wal_replay_from (wal_snapshot_seq meta) (wal_commit_seq meta)
  else if 0 <? wal_commit_seq meta then Some 1
  else None.

Definition wal_keys_from (namespace : string) (from to : Z) : list string :=
  wal_key namespace <$> range_incl from to.

Definition wal_round_keys (namespace : string) (meta : NamespaceMeta) : list string :=
  (if 0 <? wal_snapshot_seq meta then [wal_snapshot_key namespace] else []) ++
  match wal_commit_replay_from meta with
  | Some from => wal_keys_from namespace from (wal_commit_seq meta)
  | None => []
  end.

Definition unindexed_wal_tail_range (meta : NamespaceMeta) : option (Z * Z) :=
  if wal_commit_seq meta <=? index_cursor meta then None
  else
    let to := wal_commit_seq meta in
    let after := sat_add64 (index_cursor meta) 1 in
    let from :=
      if 0 <? wal_snapshot_seq meta then default after (wal_replay_from (wal_snapshot_seq meta) to)
      else after in
    if to <? from then None else Some (from, to).

Definition unindexed_wal_tail_keys (namespace : string) (meta : NamespaceMeta) : list string :=
  match unindexed_wal_tail_range meta with
  | Some (from, to) => wal_keys_from namespace from to
  | None => []
  end.

Definition round1_index_keys (namespace : string) (meta : NamespaceMeta) : list string :=
  l0_keys_for_meta namespace meta ++
  (if has_fts meta then [fts_segment_key namespace (Meta.fts_segment_id meta)] else []).

Definition round1_keys (namespace : string) (meta : NamespaceMeta) : list string :=
  meta_key namespace :: round1_index_keys namespace meta.

(** The directory an index object is read from. *)
Definition index_dir (meta : NamespaceMeta) (field : string) : string :=
  if vector_index_uses_legacy_paths meta field then "" else field.

Definition round2_keys_for_field (namespace : string) (meta : NamespaceMeta) (field : string)
    (l0 : CentroidIndexL0) : result ColdError (list string) :=
  let? _ := validate_cold_namespace namespace in
  let? _ := validate_cold_vector_field field in
  let dir := index_dir meta field in
  let keys := (l1_key namespace dir <$> range0 (l0_num_coarse l0)) ++
              (cluster_key namespace dir <$> range0 (l0_num_fine_total l0)) in
  let? _ := validate_cold_s3_keys keys in
  Ok keys.

Definition round2_keys (namespace : string) (meta : NamespaceMeta)
    (l0_by_field : list (string * CentroidIndexL0)) : list string :=
  sort_dedup (
    (if has_filter meta then [filter_segment_key namespace (filter_segment_id meta)] else []) ++
    concat ((fun '(field, l0) =>
      match round2_keys_for_field namespace meta field l0 with Ok keys => keys | Err _ => [] end) <$> l0_by_field)).

Definition l1_keys_for_query_probe (namespace : string) (meta : NamespaceMeta) (field : string)
    (l0 : CentroidIndexL0) (query : list f64) : result ColdError (list string) :=
  let? _ := validate_cold_namespace namespace in
  let? _ := validate_cold_vector_field field in
  let keys := l1_key namespace (index_dir meta field) <$> nearest_coarse l0 query (probe_coarse_count l0) in
  let? _ := validate_cold_s3_keys keys in
  Ok keys.

Definition cluster_keys_for_query (namespace : string) (meta : NamespaceMeta) (field : string)
    (l0 : CentroidIndexL0) (l1_loaded : gmap Z CentroidIndexL1) (query : list f64)
    (routing : option CentroidRouting) (l2_loaded : gmap (Z * Z) CentroidIndexL2)
  : result ColdError (list string) :=
  let? _ := validate_cold_namespace namespace in
  let? _ := validate_cold_vector_field field in
  let keys := cluster_key namespace (index_dir meta field) <$>
    probe_fine_centroids_parts l0 l1_loaded routing l2_loaded query in
  let? _ := validate_cold_s3_keys keys in
  Ok keys.

Definition routing_key_for_field (namespace field : string) (l0 : CentroidIndexL0) : option string :=
  if l0_has_routing l0 then Some (routing_key namespace field) else None.

Definition l2_keys_for_query_probe (namespace field : string) (l0 : CentroidIndexL0)
    (routing : CentroidRouting) (query : list f64) : list string :=
  concat ((fun coarse_id =>
    let l2_count := l2_count_for_coarse routing coarse_id in
    if l2_count <=? 1 then [] else l2_key namespace field coarse_id <$> range0 l2_count)
    <$> nearest_coarse l0 query (probe_coarse_count l0)).

Definition round2_keys_for_query_probe (namespace : string) (meta : NamespaceMeta) (field : string)
    (l0 : CentroidIndexL0) (query : list f64) : result ColdError (list string) :=
  let? keys := l1_keys_for_query_probe namespace meta field l0 query in
  let keys := keys ++
    (if has_filter meta then [filter_segment_key namespace (filter_segment_id meta)] else []) in
  let? _ := validate_cold_s3_keys keys in
  Ok keys.

Definition round3_keys_for_query (namespace : string) (meta : NamespaceMeta) (field : string)
    (l0 : CentroidIndexL0) (l1_loaded : gmap Z CentroidIndexL1) (query : list f64)
    (routing : option CentroidRouting) (l2_loaded : gmap (Z * Z) CentroidIndexL2)
  : result ColdError (list string) :=
  let? _ := validate_cold_namespace namespace in
  let? _ := validate_cold_vector_field field in
  let? l1_keys := l1_keys_for_query_probe namespace meta field l0 query in
  let routing_keys :=
    if l0_has_routing l0 then
      routing_key namespace field ::
      match routing with Some r => l2_keys_for_query_probe namespace field l0 r query | None => [] end
    else [] in
  let? cluster_keys := cluster_keys_for_query namespace meta field l0 l1_loaded query routing l2_loaded in
  let keys := sort_dedup (l1_keys ++ routing_keys ++ cluster_keys) in
  let? _ := validate_cold_s3_keys keys in
  Ok keys.

(** ** The plan *)

Definition plan_cold_query (namespace : string) (meta : NamespaceMeta) (vector_probes : list (string * list f64))
    (l0_by_field : gmap string CentroidIndexL0)
    (l1_by_field : option (gmap string (gmap Z CentroidIndexL1))) (opts : ColdPlanOpts) : ColdQueryPlan :=
  match validate_cold_namespace namespace with
  | Err _ => empty_plan
  | Ok _ =>
      let probe_keys := fun '(field, query) =>
        match validate_cold_vector_field field, l0_by_field !! field with
        | Ok _, Some l0 =>
            let l1_loaded := default ∅ (l1_by_field ≫= fun m => m !! field) in
            match round3_keys_for_query namespace meta field l0 l1_loaded query None ∅ with
            | Ok keys => keys
            | Err _ => []
            end
        | _, _ => []
        end in
      mkPlan
        (if include_wal_round opts then wal_round_keys namespace meta else [])
        (round2_bootstrap_keys namespace meta)
        (sort_dedup (concat (probe_keys <$> vector_probes)))
        (if include_wal_tail opts then unindexed_wal_tail_keys namespace meta else [])
  end.

Definition nonempty {A} (l : list A) : Z := match l with [] => 0 | _ => 1 end.

Definition cold_plan_storage_roundtrips (plan : ColdQueryPlan) : Z :=
  nonempty (round1 plan) + nonempty (round2 plan) + nonempty (round3 plan) + nonempty (round4 plan).

Definition cold_plan_total_keys (plan : ColdQueryPlan) : Z :=
  wrap32 (lenZ (round1 plan) + lenZ (round2 plan) + lenZ (round3 plan) + lenZ (round4 plan)).

Record ColdPlanVectorProbe : Type := mkPlanProbe {
  pp_vector_field : string;
  pp_probe_coarse : Z;
  pp_probe_fine : Z;
  pp_cluster_get_upper_bound : Z;
  pp_round3_key_count : Z
}.

Record ColdPlanDebugResponse : Type := mkPlanDebug {
  pd_consistency : string;
  pd_plan_opts : ColdPlanOpts;
  pd_view_pinned : bool;
  pd_round_key_counts : Z * Z * Z * Z;
  pd_storage_roundtrips : Z;
  pd_total_keys : Z;
  pd_probe_plan : list ColdPlanVectorProbe
}.

Section Plan.
(** [OPENPUFFER_ANN_MAX_PROBE_CLUSTERS]. *)
Context (max_probe_clusters : Z).

Definition cold_plan_vector_probes (namespace : string) (meta : NamespaceMeta)
    (vector_probes : list (string * list f64)) (l0_by_field : gmap string CentroidIndexL0)
  : list ColdPlanVectorProbe :=
  omap (fun '(field, query) =>
    (fun l0 =>
      let l0 := clamp_probe_plan_for_query max_probe_clusters l0 in
      let count :=
        match round3_keys_for_query namespace meta field l0 ∅ query None ∅ with
        | Ok keys => lenZ keys
        | Err _ => 0
        end in
      mkPlanProbe field (l0_probe_coarse l0) (l0_probe_fine l0) (cluster_get_upper_bound l0) count)
    <$> l0_by_field !! field) vector_probes.

Definition build_cold_plan_debug (namespace : string) (meta : NamespaceMeta)
    (vector_probes : list (string * list f64)) (l0_by_field : gmap string CentroidIndexL0)
    (opts : ColdPlanOpts) (consistency : string) (view_pinned : bool) : ColdPlanDebugResponse :=
  let plan := plan_cold_query namespace meta vector_probes l0_by_field None opts in
  mkPlanDebug consistency opts view_pinned
    (lenZ (round1 plan), lenZ (round2 plan), lenZ (round3 plan), lenZ (round4 plan))
    (cold_plan_storage_roundtrips plan) (cold_plan_total_keys plan)
    (cold_plan_vector_probes namespace meta vector_probes l0_by_field).
End Plan.

(** ** Rounds *)

(** [slice::chunks]; [n] is at least 1. *)
Fixpoint chunks_loop {A} (fuel n : nat) (l : list A) : list (list A) :=
  match fuel, l with
  | O, _ | _, [] => []
  | Datatypes.S fuel, _ => take n l :: chunks_loop fuel n (drop n l)
  end.
Definition chunks {A} (n : Z) (l : list A) : list (list A) := chunks_loop (length l) (Z.to_nat n) l.

(** The order in which the parallel requests of a batch complete. *)
Class CompletionOrder : Type := {
  completion : list string -> list string;
  completion_perm : forall keys, completion keys ≡ₚ keys
}.

Definition in_order : CompletionOrder := {|
  completion := fun keys => keys;
  completion_perm := fun keys => Permutation_refl keys
|}.

Definition record_cold_s3_keys_fetched (keys : Z) : Z := Z.min keys u32_max.

Record ColdBootstrapArtifacts : Type := mkBootstrap {
  ba_fts : option FtsSegment;
  ba_filter : option FilterSegment;
  ba_l0_by_field : gmap string CentroidIndexL0;
  ba_storage_roundtrips : Z;
  ba_s3_keys_fetched : Z
}.

Record ColdIndexArtifacts : Type := mkArtifacts {
  ia_fts : option FtsSegment;
  ia_filter : option FilterSegment;
  ia_vectors : gmap string VectorIndex;
  ia_storage_roundtrips : Z
}.

Section Fetch.
Context {IO : IterOrder} {WC : WalCodec} {MC : MetaCodec} {S : ObjectStore} {CO : CompletionOrder}.

(** The keys of one sub-batch, from [cold_max_keys_per_round]. *)
Context (max_keys : Z).

Definition cold_ns {A} (m : St NsError A) : St ColdError A := fun w =>
  let '(w', r) := m w in (w', match r with Ok a => Ok a | Err e => Err (ColdNs e) end).

Fixpoint fetch_each (allow_missing : bool) (keys : list string) (out : gmap string bytes)
  : St ColdError (gmap string bytes) :=
  match keys with
  | [] => st_ret out
  | key :: rest =>
      do? o <- cold_ns (get_object_bytes_optional key);
      match o with
      | Some (b, _) => fetch_each allow_missing rest (<[key := b]> out)
      | None => if allow_missing then fetch_each allow_missing rest out else st_err (ColdNotFound key)
      end
  end.

Definition fetch_round_batch (keys : list string) (allow_missing : bool) : St ColdError (gmap string bytes) :=
  fetch_each allow_missing (completion keys) ∅.

Fixpoint fetch_chunks (allow_missing : bool) (batches : list (list string)) (out : gmap string bytes)
  : St ColdError (gmap string bytes) :=
  match batches with
  | [] => st_ret out
  | chunk :: rest =>
      do? batch <- fetch_round_batch chunk allow_missing;
      fetch_chunks allow_missing rest (batch ∪ out)
  end.

Definition fetch_round_inner (keys : list string) (allow_missing : bool) : St ColdError (gmap string bytes) :=
  match keys with
  | [] => st_ret ∅
  | _ =>
      do? _ <- st_result (validate_cold_s3_keys keys);
      fetch_chunks allow_missing (chunks max_keys keys) ∅
  end.

Definition fetch_round (keys : list string) : St ColdError (gmap string bytes) := fetch_round_inner keys false.
Definition fetch_round_optional (keys : list string) : St ColdError (gmap string bytes) :=
  fetch_round_inner keys true.

(** ** The log *)

Fixpoint decode_entries (policy : WalCorruptPolicy) (namespace : string) (raw : gmap string bytes) (seqs : list Z)
  : result ColdError (list WalEntry) :=
  match seqs with
  | [] => Ok []
  | seq :: rest =>
      let? b := ok_or (raw !! wal_key namespace seq) (ColdMissingSegment seq) in
      match decode_segment_with_policy b seq policy with
      | Err e => Err (ColdWal e)
      | Ok o =>
          let? entries := decode_entries policy namespace raw rest in
          Ok (match o with Some entry => entry :: entries | None => entries end)
      end
  end.

Definition replay_wal_entries_batched (policy : WalCorruptPolicy) (namespace : string) (from_seq to_seq : Z)
  : St ColdError (list WalEntry) :=
  if (from_seq =? 0) || (to_seq =? 0) || (to_seq <? from_seq) then st_ret []
  else
    do? raw <- fetch_round (wal_keys_from namespace from_seq to_seq);
    st_result (decode_entries policy namespace raw (range_incl from_seq to_seq)).

(** Entries, round trips, keys fetched. *)
Definition fetch_cold_unindexed_wal_tail (policy : WalCorruptPolicy) (namespace : string) (meta : NamespaceMeta)
  : St ColdError (list WalEntry * Z * Z) :=
  match unindexed_wal_tail_range meta with
  | None => st_ret ([], 0, 0)
  | Some (from, to) =>
      let keys_fetched := record_cold_s3_keys_fetched (lenZ (unindexed_wal_tail_keys namespace meta)) in
      do? entries <- replay_wal_entries_batched policy namespace from to;
      st_ret (entries, 1, keys_fetched)
  end.

Definition cold_load_meta_only (namespace : string) : St ColdError (NamespaceMeta * option string * Z * Z) :=
  do? cur <- cold_ns (fetch_meta namespace);
  match cur with
  | None => st_ret (default_meta, None, 0, 0)
  | Some (meta, etag) => st_ret (meta, etag, 1, 0)
  end.

(** The fetched bytes by sequence number; the snapshot is number 0. *)
Definition wal_by_seq (namespace : string) (meta : NamespaceMeta) (raw : gmap string bytes) : gmap Z bytes :=
  let add := fun (m : gmap Z bytes) seq key =>
    match raw !! key with Some b => <[seq := b]> m | None => m end in
  let m := add ∅ 0 (wal_snapshot_key namespace) in
  match wal_commit_replay_from meta with
  | Some from => fold_left (fun m seq => add m seq (wal_key namespace seq)) (range_incl from (wal_commit_seq meta)) m
  | None => m
  end.

Definition cold_load_meta_and_wal (namespace : string)
  : St ColdError (NamespaceMeta * option string * gmap Z bytes * Z * Z) :=
  do? cur <- cold_ns (fetch_meta namespace);
  match cur with
  | None => st_ret (default_meta, None, ∅, 0, 0)
  | Some (meta, etag) =>
      let fetch_keys := wal_round_keys namespace meta in
      match fetch_keys with
      | [] => st_ret (meta, etag, ∅, 1, 0)
      | _ =>
          let s3_keys_fetched := record_cold_s3_keys_fetched (lenZ fetch_keys) in
          do? raw <- fetch_round fetch_keys;
          st_ret (meta, etag, wal_by_seq namespace meta raw, 2, s3_keys_fetched)
      end
  end.

(** The loop of [load_cold_batched] over the fetched segments. *)
Fixpoint cold_replay (policy : WalCorruptPolicy) (threshold : Z) (wal_bytes : gmap Z bytes) (docs : Docs)
    (seqmap : gmap string Z) (seqs : list Z) : result ColdError (Docs * gmap string Z) :=
  match seqs with
  | [] => Ok (docs, seqmap)
  | seq :: rest =>
      match wal_bytes !! seq with
      | None => cold_replay policy threshold wal_bytes docs seqmap rest
      | Some b =>
          match decode_segment_with_policy b seq policy with
          | Err e => Err (ColdWal e)
          | Ok None => cold_replay policy threshold wal_bytes docs seqmap rest
          | Ok (Some entry) =>
              match apply_entry docs entry with
              | (_, Err e) => Err (ColdWal e)
              | (docs, Ok _) =>
                  cold_replay policy threshold wal_bytes docs
                    (if threshold <? seq then update_doc_wal_seq_map seqmap seq entry else seqmap) rest
              end
          end
      end
  end.

(** The view [load_cold_batched] builds from the fetched bytes. *)
Definition cold_view (policy : WalCorruptPolicy) (meta : NamespaceMeta) (etag : option string)
    (wal_bytes : gmap Z bytes) : result ColdError NamespaceView :=
  let? base :=
    match wal_bytes !! 0 with
    | Some b =>
        match decode_snapshot b with
        | Ok snap => Ok (into_docs snap, snap_seq snap)
        | Err e => Err (ColdWal e)
        end
    | None => Ok (∅, 0)
    end in
  let '(docs, last_applied) := base in
  let last := wal_commit_seq meta in
  let threshold := Z.max last_applied (wal_snapshot_seq meta) in
  let? replayed :=
    match wal_replay_from last_applied last with
    | Some from => cold_replay policy threshold wal_bytes docs ∅ (range_incl from last)
    | None => Ok (docs, ∅)
    end in
  let '(docs, seqmap) := replayed in
  let seqmap :=
    if 0 <? wal_snapshot_seq meta then seqmap ∪ ((fun _ => wal_snapshot_seq meta) <$> docs) else seqmap in
  Ok (mkView docs meta etag last seqmap).

(** The view, round trips, keys fetched. *)
Definition load_cold_batched (policy : WalCorruptPolicy) (namespace : string) (include_wal : bool)
  : St ColdError (NamespaceView * Z * Z) :=
  if negb include_wal then
    do? out <- cold_load_meta_only namespace;
    let '(meta, etag, wal_roundtrips, wal_s3_keys) := out in
    if (wal_roundtrips =? 0) && bool_decide (etag = None) then st_ret (view_empty, 0, 0)
    else st_ret (mkView ∅ meta etag 0 ∅, wal_roundtrips, wal_s3_keys)
  else
    do? out <- cold_load_meta_and_wal namespace;
    let '(meta, etag, wal_bytes, wal_roundtrips, wal_s3_keys) := out in
    if (wal_roundtrips =? 0) && bool_decide (etag = None) then st_ret (view_empty, 0, 0)
    else
      do? view <- st_result (cold_view policy meta etag wal_bytes);
      st_ret (view, wal_roundtrips, wal_s3_keys).
End Fetch.

(** ** Index objects *)

Section ColdIndex.
Context {SC : SegmentCodec}.

Definition fetched_segment (fetched : gmap string bytes) (key : string) (use_legacy : bool) (legacy_key : string)
  : option bytes :=
  match fetched !! key with
  | Some b => Some b
  | None => if use_legacy then fetched !! legacy_key else None
  end.

(** The fetched objects of one kind, by id; [skip] drops a body unread. *)
Fixpoint decode_each {A} (fetched : gmap string bytes) (key legacy : Z -> string) (use_legacy : bool)
    (skip : bytes -> bool) (decode : bytes -> option A) (ids : list Z) (acc : gmap Z A)
  : result ColdError (gmap Z A) :=
  match ids with
  | [] => Ok acc
  | id :: rest =>
      match fetched_segment fetched (key id) use_legacy (legacy id) with
      | None => decode_each fetched key legacy use_legacy skip decode rest acc
      | Some b =>
          if skip b then decode_each fetched key legacy use_legacy skip decode rest acc
          else
            let? a := ok_or (decode b) (ColdDecode (key id)) in
            decode_each fetched key legacy use_legacy skip decode rest (<[id := a]> acc)
      end
  end.

Definition decode_l1_probed (namespace : string) (meta : NamespaceMeta) (field : string) (l0 : CentroidIndexL0)
    (fetched : gmap string bytes) : result ColdError (gmap Z CentroidIndexL1) :=
  decode_each fetched (l1_key namespace field) (l1_key namespace "") (vector_index_uses_legacy_paths meta field)
    (fun _ => false) l1_deserialize (range0 (l0_num_coarse l0)) ∅.

Definition decode_clusters_probed (namespace : string) (meta : NamespaceMeta) (field : string)
    (fetched : gmap string bytes) (fine_ids : list Z) : result ColdError (gmap Z ClusterSegment) :=
  decode_each fetched (cluster_key namespace field) (cluster_key namespace "")
    (vector_index_uses_legacy_paths meta field)
    (fun b => match b with [] => true | _ => false end) cluster_deserialize fine_ids ∅.

Definition decode_routing_probed (namespace field : string) (l0 : CentroidIndexL0) (fetched : gmap string bytes)
  : result ColdError (option CentroidRouting) :=
  if negb (l0_has_routing l0) then Ok None
  else
    match fetched !! routing_key namespace field with
    | None => Ok None
    | Some b => let? r := ok_or (routing_deserialize b) (ColdDecode (routing_key namespace field)) in Ok (Some r)
    end.

Fixpoint decode_l2_probed (fetched : gmap string bytes) (keys : list string) (l2 : gmap (Z * Z) CentroidIndexL2)
  : result ColdError (gmap (Z * Z) CentroidIndexL2) :=
  match keys with
  | [] => Ok l2
  | key :: rest =>
      match fetched !! key with
      | None => decode_l2_probed fetched rest l2
      | Some b =>
          let? seg := ok_or (l2_deserialize b) (ColdDecode key) in
          decode_l2_probed fetched rest (<[(l2_coarse_id seg, l2_l2_id seg) := seg]> l2)
      end
  end.

(** [routing.as_ref().map(...).unwrap_or_default()]. *)
Definition l2_key_list (namespace field : string) (l0 : CentroidIndexL0) (routing : option CentroidRouting)
    (query : list f64) : list string :=
  match routing with Some r => l2_keys_for_query_probe namespace field l0 r query | None => [] end.

Definition cluster_keys_for_query_after_l1 (namespace : string) (meta : NamespaceMeta) (field : string)
    (l0 : CentroidIndexL0) (fetched : gmap string bytes) (query : list f64) : result ColdError (list string) :=
  let? l1 := decode_l1_probed namespace meta field l0 fetched in
  let? routing := decode_routing_probed namespace field l0 fetched in
  let? l2 := decode_l2_probed fetched (l2_key_list namespace field l0 routing query) ∅ in
  cluster_keys_for_query namespace meta field l0 l1 query routing l2.

(** The index and the number of clusters probed. *)
Definition assemble_vector_index_probed (namespace : string) (meta : NamespaceMeta) (field : string)
    (l0 : CentroidIndexL0) (fetched : gmap string bytes) (query : list f64) : result ColdError (VectorIndex * Z) :=
  let? l1 := decode_l1_probed namespace meta field l0 fetched in
  let? routing := decode_routing_probed namespace field l0 fetched in
  let? l2 := decode_l2_probed fetched (l2_key_list namespace field l0 routing query) ∅ in
  let fine_ids := probe_fine_centroids_parts l0 l1 routing l2 query in
  let probed_clusters := Z.min (lenZ fine_ids) u32_max in
  let? clusters := decode_clusters_probed namespace meta field fetched fine_ids in
  Ok (mkVectorIndex l0 l1 clusters routing l2, probed_clusters).

Section Decode.
Context (max_probe_clusters : Z).

Definition decode_l0_by_field_from_fetched (namespace : string) (meta : NamespaceMeta)
    (fetched : gmap string bytes) : gmap string CentroidIndexL0 :=
  fold_left (fun out cfg =>
    if (vf_segment_id cfg =? 0) || (index_cursor meta =? 0) || (vf_dimensions cfg =? 0) then out
    else
      match fetched_segment fetched (l0_key namespace (vf_name cfg))
              (vector_index_uses_legacy_paths meta (vf_name cfg)) (l0_key namespace "") ≫= l0_decode with
      | Some l0 =>
          if 0 <? l0_num_fine_total l0 then
            <[vf_name cfg := clamp_probe_plan_for_query max_probe_clusters
                (align_with_namespace_meta meta None l0)]> out
          else out
      | None => out
      end) (effective_vector_fields meta) ∅.

Definition decode_fts_from_round (namespace : string) (meta : NamespaceMeta) (r1 : gmap string bytes)
  : result ColdError (option FtsSegment) :=
  if (Meta.fts_segment_id meta =? 0) || (index_cursor meta =? 0) then Ok None
  else
    let key := fts_segment_key namespace (Meta.fts_segment_id meta) in
    match r1 !! key with
    | None => Ok None
    | Some b => let? seg := ok_or (fts_deserialize b) (ColdDecode key) in Ok (Some seg)
    end.

Definition decode_filter_from_round (namespace : string) (meta : NamespaceMeta) (r2 : gmap string bytes)
  : result ColdError (option FilterSegment) :=
  if (filter_segment_id meta =? 0) || (index_cursor meta =? 0) then Ok None
  else
    let key := filter_segment_key namespace (filter_segment_id meta) in
    match r2 !! key with
    | None => Ok None
    | Some b => let? seg := ok_or (filter_deserialize b) (ColdDecode key) in Ok (Some seg)
    end.

Definition decode_vector_from_rounds (namespace : string) (meta : NamespaceMeta) (field : string)
    (l0 : CentroidIndexL0) (r2 : gmap string bytes) : result ColdError (option VectorIndex) :=
  if l0_num_fine_total l0 =? 0 then Ok None
  else
    let? l1 := decode_l1_probed namespace meta field l0 r2 in
    let? clusters := decode_clusters_probed namespace meta field r2 (range0 (l0_num_fine_total l0)) in
    Ok (Some (mkVectorIndex l0 l1 clusters None ∅)).
End Decode.
End ColdIndex.

Section FetchIndex.
Context {IO : IterOrder} {WC : WalCodec} {MC : MetaCodec} {S : ObjectStore} {CO : CompletionOrder}.
Context {SC : SegmentCodec} {LC : LocalCache} {CR : CachedReads}.
Context (max_keys max_probe_clusters : Z).

Definition fetch_cold_index_bootstrap (namespace : string) (meta : NamespaceMeta)
  : St ColdError ColdBootstrapArtifacts :=
  let r2_keys := round2_bootstrap_keys namespace meta in
  let s3_keys_fetched := record_cold_s3_keys_fetched (lenZ r2_keys) in
  do? fetched <- fetch_round max_keys r2_keys;
  do? fts <- st_result (decode_fts_from_round namespace meta fetched);
  let fts_key := fts_segment_key namespace (Meta.fts_segment_id meta) in
  do? again <-
    (if bool_decide (fts = None) && has_fts meta && bool_decide (fetched !! fts_key = None) then
       do? extra <- fetch_round max_keys [fts_key];
       do? fts <- st_result (decode_fts_from_round namespace meta extra);
       st_ret (fts, sat_add32 s3_keys_fetched (record_cold_s3_keys_fetched 1))
     else st_ret (fts, s3_keys_fetched));
  let '(fts, s3_keys_fetched) := again in
  do? filter <- st_result (decode_filter_from_round namespace meta fetched);
  st_ret (mkBootstrap fts filter ∅ (nonempty r2_keys) s3_keys_fetched).

Definition fetch_cold_vector_l0 (namespace : string) (meta : NamespaceMeta)
  : St ColdError (gmap string CentroidIndexL0 * Z * Z) :=
  let keys := l0_keys_for_meta namespace meta in
  match keys with
  | [] => st_ret (∅, 0, 0)
  | _ =>
      do? fetched <- fetch_round max_keys keys;
      st_ret (decode_l0_by_field_from_fetched max_probe_clusters namespace meta fetched, 1,
              record_cold_s3_keys_fetched (lenZ keys))
  end.

(** The full-text segment, round trips and keys fetched, updated. *)
Definition ensure_cold_fts_for_hybrid (namespace : string) (meta : NamespaceMeta)
    (st : option FtsSegment * option Z * Z) : St ColdError (option FtsSegment * option Z * Z) :=
  let '(fts, storage_roundtrips, keys_fetched) := st in
  if bool_decide (fts <> None) || (Meta.fts_segment_id meta =? 0) || (index_cursor meta =? 0) then st_ret st
  else
    do? fetched <- fetch_round max_keys [fts_segment_key namespace (Meta.fts_segment_id meta)];
    do? fts <- st_result (decode_fts_from_round namespace meta fetched);
    st_ret (match fts with
            | Some _ => (fts, (fun rt => sat_add32 rt 1) <$> storage_roundtrips,
                         sat_add32 keys_fetched (record_cold_s3_keys_fetched 1))
            | None => (fts, storage_roundtrips, keys_fetched)
            end).

(** The index, round trips, keys fetched, clusters probed. *)
Definition fetch_cold_vector_probed (namespace : string) (meta : NamespaceMeta) (field : string)
    (l0 : CentroidIndexL0) (query : list f64) : St ColdError (VectorIndex * Z * Z * Z) :=
  do? _ <- st_result (validate_cold_namespace namespace);
  do? _ <- st_result (validate_cold_vector_field field);
  let l0 := clamp_probe_plan_for_query max_probe_clusters l0 in
  do? l1_keys <- st_result (l1_keys_for_query_probe namespace meta field l0 query);
  do? fetched <- fetch_round max_keys l1_keys;
  let n1 := record_cold_s3_keys_fetched (lenZ l1_keys) in
  let routing_keys := match routing_key_for_field namespace field l0 with Some k => [k] | None => [] end in
  do? routing_map <- fetch_round_optional max_keys routing_keys;
  let fetched := routing_map ∪ fetched in
  let n2 := sat_add32 n1 (record_cold_s3_keys_fetched (lenZ routing_keys)) in
  do? routing <- st_result (decode_routing_probed namespace field l0 fetched);
  let l2_keys := l2_key_list namespace field l0 routing query in
  do? l2_map <- fetch_round max_keys l2_keys;
  let fetched := l2_map ∪ fetched in
  let n3 := sat_add32 n2 (record_cold_s3_keys_fetched (lenZ l2_keys)) in
  do? cluster_keys <- st_result (cluster_keys_for_query_after_l1 namespace meta field l0 fetched query);
  do? cluster_map <- fetch_round_optional max_keys cluster_keys;
  let fetched := cluster_map ∪ fetched in
  let n4 := sat_add32 n3 (record_cold_s3_keys_fetched (lenZ cluster_keys)) in
  do? out <- st_result (assemble_vector_index_probed namespace meta field l0 fetched query);
  let '(vindex, probed_clusters) := out in
  st_ret (vindex, nonempty (l1_keys ++ routing_keys ++ l2_keys ++ cluster_keys), n4, probed_clusters).

(** *** The same through the segment cache ([indexer.rs]) *)

Fixpoint fetch_index_objects_from_cache (keys : list string) (out : gmap string bytes)
  : St ColdError (gmap string bytes) :=
  match keys with
  | [] => st_ret out
  | key :: rest =>
      do? b <- cold_ns (cache_get key);
      fetch_index_objects_from_cache rest (match b with Some b => <[key := b]> out | None => out end)
  end.

Definition load_vector_index_probed_for_query (namespace : string) (meta : NamespaceMeta) (field : string)
    (l0 : CentroidIndexL0) (query : list f64) : St ColdError (VectorIndex * Z) :=
  do? l1_keys <- st_result (l1_keys_for_query_probe namespace meta field l0 query);
  do? fetched <- fetch_index_objects_from_cache l1_keys ∅;
  do? routing_bytes <-
    (match routing_key_for_field namespace field l0 with
     | Some k => do? b <- cold_ns (cache_get k); st_ret ((fun b => (k, b)) <$> b)
     | None => st_ret None
     end);
  let fetched := match routing_bytes with Some (k, b) => <[k := b]> fetched | None => fetched end in
  do? routing <- st_result (decode_routing_probed namespace field l0 fetched);
  do? l2_bytes <- fetch_index_objects_from_cache (l2_key_list namespace field l0 routing query) ∅;
  let fetched := l2_bytes ∪ fetched in
  do? cluster_keys <- st_result (cluster_keys_for_query_after_l1 namespace meta field l0 fetched query);
  do? cluster_bytes <- fetch_index_objects_from_cache cluster_keys ∅;
  let fetched := cluster_bytes ∪ fetched in
  st_result (assemble_vector_index_probed namespace meta field l0 fetched query).

(** *** The full index *)

Fixpoint decode_vectors (namespace : string) (meta : NamespaceMeta) (l0_by_field : list (string * CentroidIndexL0))
    (r2 : gmap string bytes) (out : gmap string VectorIndex) : result ColdError (gmap string VectorIndex) :=
  match l0_by_field with
  | [] => Ok out
  | (field, l0) :: rest =>
      let? v := decode_vector_from_rounds namespace meta field l0 r2 in
      decode_vectors namespace meta rest r2 (match v with Some v => <[field := v]> out | None => out end)
  end.

Definition fetch_cold_index_artifacts (namespace : string) (meta : NamespaceMeta)
  : St ColdError ColdIndexArtifacts :=
  let r1_keys := round1_index_keys namespace meta in
  do? r1 <- fetch_round max_keys r1_keys;
  let l0_by_field := iter_map (decode_l0_by_field_from_fetched max_probe_clusters namespace meta r1) in
  let r2_keys := round2_keys namespace meta l0_by_field in
  let r2_keys :=
    match r2_keys with
    | [] => if has_filter meta then [filter_segment_key namespace (filter_segment_id meta)] else []
    | _ => r2_keys
    end in
  do? r2 <- fetch_round max_keys r2_keys;
  do? fts <- st_result (decode_fts_from_round namespace meta r1);
  do? filter <- st_result (decode_filter_from_round namespace meta r2);
  do? vectors <- st_result (decode_vectors namespace meta l0_by_field r2 ∅);
  st_ret (mkArtifacts fts filter vectors (nonempty r1_keys + nonempty r2_keys)).
End FetchIndex.
