(* ===== verification/ColdSpec.v ===== *)
(** * Cold fetches are exact

    A round returns the objects of its keys whatever its batches and their
    completion order; a namespace opened in one round holds the same documents
    as one replayed segment by segment; and an index of which only the probed
    objects were fetched answers a query as the whole index does. *)

From Stdlib Require Import ZArith Lia Bool.
From stdpp Require Import base gmap strings list.
From S2P Require Import Prelude F64 Json Models Keys Schema Meta Wal WalReplay ObjectStore Namespace Durability Compaction VectorEncoding FilterIndex Fts Vector VectorBuild View Cache Indexer ColdFetch.

(** ** Rounds *)

Lemma chunks_loop_concat {A} (fuel n : nat) (l : list A) :
  (0 < n)%nat -> (length l <= fuel)%nat -> concat (chunks_loop fuel n l) = l.
Proof.
  intros Hn. revert l. induction fuel as [|fuel IH]; intros l Hl; [by destruct l; [|cbn in Hl; lia]|].
  destruct l as [|x l]; [done|]. cbn [chunks_loop concat]. rewrite IH; [apply take_drop|].
  rewrite length_drop. cbn [length] in *. lia.
Qed.

Lemma chunks_concat {A} (n : Z) (l : list A) : 0 < n -> concat (chunks n l) = l.
Proof. intros Hn. apply chunks_loop_concat; lia. Qed.

(** The objects under [keys]. *)
Definition fetched_of (objs : Objects) (keys : list string) : gmap string bytes :=
  filter (fun kv => kv.1 ∈ keys) (fst <$> objs).

Lemma fetched_of_lookup objs keys k :
  fetched_of objs keys !! k = if decide (k ∈ keys) then fst <$> objs !! k else None.
Proof.
  unfold fetched_of. rewrite map_lookup_filter, lookup_fmap.
  destruct (objs !! k) as [[b t]|]; cbn; destruct (decide (k ∈ keys)) as [Hk|Hk]; cbn; try done.
  - rewrite option_guard_True by done. done.
  - rewrite option_guard_False by done. done.
Qed.

Lemma fetched_of_some objs keys k b :
  fetched_of objs keys !! k = Some b <-> k ∈ keys /\ fst <$> objs !! k = Some b.
Proof. rewrite fetched_of_lookup. case_decide; naive_solver. Qed.

Lemma fetched_of_nil objs : fetched_of objs [] = ∅.
Proof.
  apply map_eq. intros k. rewrite fetched_of_lookup, lookup_empty.
  case_decide as H; [by apply not_elem_of_nil in H|done].
Qed.

Lemma fetched_of_app objs l1 l2 : fetched_of objs l2 ∪ fetched_of objs l1 = fetched_of objs (l1 ++ l2).
Proof.
  apply map_eq. intros k. rewrite lookup_union, !fetched_of_lookup.
  destruct (decide (k ∈ l1 ++ l2)) as [H|H]; rewrite elem_of_app in H;
    destruct (decide (k ∈ l1)), (decide (k ∈ l2)); try naive_solver; by destruct (objs !! k).
Qed.

Lemma fetched_of_cons_present objs k keys b out :
  fst <$> objs !! k = Some b ->
  fetched_of objs keys ∪ <[k := b]> out = fetched_of objs (k :: keys) ∪ out.
Proof.
  intros Hb. apply map_eq. intros j. rewrite !lookup_union, !fetched_of_lookup.
  destruct (decide (j = k)) as [->|Hj].
  - rewrite lookup_insert_eq, Hb, (decide_True (P := k ∈ k :: keys)) by left.
    case_decide; by destruct (out !! k).
  - rewrite lookup_insert_ne by done.
    destruct (decide (j ∈ keys)), (decide (j ∈ k :: keys)) as [H|H]; rewrite elem_of_cons in H; naive_solver.
Qed.

Lemma fetched_of_cons_absent objs k keys :
  objs !! k = None -> fetched_of objs (k :: keys) = fetched_of objs keys.
Proof.
  intros Hn. apply map_eq. intros j. rewrite !fetched_of_lookup.
  destruct (decide (j ∈ keys)), (decide (j ∈ k :: keys)) as [H|H]; rewrite elem_of_cons in H; try naive_solver.
  destruct H as [->|]; [by rewrite Hn|done].
Qed.

#[export] Instance fetched_of_Permutation objs : Proper ((≡ₚ) ==> (=)) (fetched_of objs).
Proof. intros l1 l2 Hp. apply map_eq. intros k. rewrite !fetched_of_lookup.
  destruct (decide (k ∈ l1)) as [H|H], (decide (k ∈ l2)) as [H'|H']; rewrite Hp in H; done.
Qed.

Definition all_present (objs : Objects) (keys : list string) : Prop := Forall (fun k => is_Some (objs !! k)) keys.

(** What a round returns. *)
Definition round_of (allow_missing : bool) (objs : Objects) (keys : list string) (m : gmap string bytes) : Prop :=
  m = fetched_of objs keys /\ (allow_missing = false -> all_present objs keys).

Section Rounds.
Context {IO : IterOrder} {WC : WalCodec} {MC : MetaCodec} {S : ObjectStore} {SL : StoreLaws}.

Lemma cold_ns_reads {A} (m : St NsError A) P : reads m P -> reads (cold_ns m) P.
Proof.
  intros Hm w. unfold cold_ns, st_post. specialize (Hm w). unfold st_post in Hm.
  destruct (m w) as [w' [a|e]]; done.
Qed.

Lemma fetch_each_reads allow keys out :
  reads (fetch_each allow keys out) (fun objs m =>
    m = fetched_of objs keys ∪ out /\ (allow = false -> all_present objs keys)).
Proof.
  revert out. induction keys as [|k keys IH]; intros out.
  - apply reads_ret. intros objs. split; [|intros _; constructor].
    by rewrite fetched_of_nil, map_empty_union.
  - cbn [fetch_each]. eapply reads_bind; [apply cold_ns_reads, get_object_bytes_optional_reads|].
    intros objs [[b et]|] Ho w Hw.
    + destruct Ho as (t & -> & Ho). assert (fst <$> objs !! k = Some b) as Hb by by rewrite Ho.
      eapply st_post_mono; [apply IH|]. rewrite Hw. intros w' [m|e] [Hw' H]; [|done]. split; [done|].
      destruct H as [-> Ha]. split; [by apply fetched_of_cons_present|]. intros Hal. constructor; [by rewrite Ho|exact (Ha Hal)].
    + destruct allow; [|done]. eapply st_post_mono; [apply IH|]. rewrite Hw. intros w' [m|e] [Hw' H]; [|done].
      split; [done|]. destruct H as [-> _]. split; [|done]. by rewrite (fetched_of_cons_absent _ _ _ Ho).
Qed.

Context {CO : CompletionOrder}.

Lemma fetch_round_batch_reads keys allow :
  reads (fetch_round_batch keys allow) (fun objs m => round_of allow objs keys m).
Proof.
  eapply reads_weaken; [apply fetch_each_reads|]. intros objs m [-> Ha]. rewrite map_union_empty. split.
  - by rewrite completion_perm.
  - intros Hal. specialize (Ha Hal). unfold all_present in *. by rewrite completion_perm in Ha.
Qed.

Lemma fetch_chunks_reads allow batches out :
  reads (fetch_chunks allow batches out) (fun objs m =>
    m = fetched_of objs (concat batches) ∪ out /\ (allow = false -> all_present objs (concat batches))).
Proof.
  revert out. induction batches as [|c batches IH]; intros out.
  - apply (fetch_each_reads allow []).
  - cbn [fetch_chunks]. eapply reads_bind; [apply fetch_round_batch_reads|]. intros objs m [-> Hm] w Hw.
    eapply st_post_mono; [apply IH|]. rewrite Hw. intros w' [m'|e] [Hw' H]; [|done]. split; [done|].
    destruct H as [-> Ha]. cbn [concat]. split.
    + rewrite map_union_assoc. by rewrite fetched_of_app.
    + intros Hal. apply Forall_app. split; [exact (Hm Hal)|exact (Ha Hal)].
Qed.

Context (max_keys : Z) (Hmax : 0 < max_keys).

Lemma fetch_round_reads keys allow :
  reads (fetch_round_inner max_keys keys allow) (fun objs m => round_of allow objs keys m).
Proof.
  unfold fetch_round_inner. destruct keys as [|k keys].
  { apply reads_ret. intros objs. split; [by rewrite fetched_of_nil|]. intros _. constructor. }
  eapply reads_bind; [apply (reads_result _ (fun _ _ => True)); done|]. intros objs _ _ w Hw.
  eapply st_post_mono; [apply fetch_chunks_reads|]. rewrite chunks_concat, Hw by done.
  intros w' [m|e] [Hw' H]; [|done]. split; [done|]. by rewrite map_union_empty in H.
Qed.

Lemma validate_cold_keys_all keys :
  validate_cold_s3_keys keys = Ok tt <-> Forall (fun k => validate_s3_object_key k = Ok tt) keys.
Proof.
  induction keys as [|k keys IH]; cbn; [split; [constructor|done]|]. rewrite Forall_cons, <- IH.
  destruct (validate_s3_object_key k) as [[]|e]; naive_solver.
Qed.
End Rounds.

Section RoundsTotal.
Context {IO : IterOrder} {WC : WalCodec} {MC : MetaCodec} {S : ObjectStore} {SL : StoreLaws} {SR : StoreReliable}.

Lemma cold_ns_yields {A} (m : St NsError A) w a : yields m w a -> yields (cold_ns m) w a.
Proof. unfold yields, st_post, cold_ns. destruct (m w) as [w' r]. cbn. by intros [? ->]. Qed.

(** A read that cannot fail in any world with these objects. *)
Definition succeeds {E A} (m : St E A) (objs : Objects) : Prop :=
  forall w, objects w = objs -> exists a, yields m w a.

Lemma succeeds_bind {E A B} (m : St E A) (k : A -> St E B) P objs :
  reads m P -> succeeds m objs -> (forall a, P objs a -> succeeds (k a) objs) -> succeeds (st_bind m k) objs.
Proof.
  intros Hr Hm Hk w Hw. destruct (Hm w Hw) as [a Ha].
  assert (P objs a) as HP.
  { specialize (Hr w). unfold yields, st_post in *. destruct Ha as [_ Ha]. rewrite Ha, Hw in Hr. apply Hr. }
  assert (objects (m w).1 = objs) as Hw' by (rewrite (proj1 Ha); done).
  destruct (Hk a HP _ Hw') as [b Hb]. exists b. unfold yields, st_post, st_bind in *.
  destruct (m w) as [w' r]. cbn in *. destruct Ha as [Ho ->]. destruct Hb as [Hb1 Hb2]. by rewrite Hb1, Hb2.
Qed.

Lemma succeeds_ret {E A} (a : A) objs : @succeeds E A (st_ret a) objs.
Proof. intros w _. eexists. apply yields_ret. Qed.

Lemma succeeds_get k objs : succeeds (cold_ns (get_object_bytes_optional k)) objs.
Proof. intros w _. eexists. apply cold_ns_yields, yields_get. Qed.

Lemma fetch_each_succeeds allow keys out objs :
  (allow = false -> all_present objs keys) -> succeeds (fetch_each allow keys out) objs.
Proof.
  revert out. induction keys as [|k keys IH]; intros out Hp; [apply succeeds_ret|].
  eapply succeeds_bind; [apply cold_ns_reads, get_object_bytes_optional_reads|apply succeeds_get|].
  assert (allow = false -> all_present objs keys) as Hrest by (intros Hal; specialize (Hp Hal); by inversion Hp).
  intros [[b et]|] Ho; [by apply IH|]. destruct allow; [by apply IH|].
  specialize (Hp eq_refl). inversion Hp as [|? ? [x Hx]]; subst. by rewrite Hx in Ho.
Qed.

Context {CO : CompletionOrder}.

Lemma fetch_chunks_succeeds allow batches out objs :
  (allow = false -> all_present objs (concat batches)) -> succeeds (fetch_chunks allow batches out) objs.
Proof.
  revert out. induction batches as [|c batches IH]; intros out Hp; [apply succeeds_ret|].
  eapply succeeds_bind; [apply fetch_round_batch_reads| |].
  - apply fetch_each_succeeds. intros Hal. unfold all_present. rewrite completion_perm.
    apply (Forall_app _ c (concat batches)), (Hp Hal).
  - intros m _. apply IH. intros Hal. apply (Forall_app _ c (concat batches)), (Hp Hal).
Qed.

Lemma fetch_round_succeeds max_keys keys allow objs :
  0 < max_keys -> validate_cold_s3_keys keys = Ok tt -> (allow = false -> all_present objs keys) ->
  succeeds (fetch_round_inner max_keys keys allow) objs.
Proof.
  intros Hmax Hv Hp. unfold fetch_round_inner. destruct keys as [|k keys]; [apply succeeds_ret|].
  eapply succeeds_bind; [apply (reads_result _ (fun _ _ => True)); done| |].
  - rewrite Hv. apply succeeds_ret.
  - intros _ _. apply fetch_chunks_succeeds. by rewrite chunks_concat.
Qed.
End RoundsTotal.

(** ** Opening a namespace *)

Lemma wal_replay_from_cases a b :
  0 <= a < u64_max -> 0 <= b ->
  wal_replay_from a b = if b <=? a then None else Some (a + 1).
Proof.
  intros Ha Hb. unfold wal_replay_from, sat_add64. rewrite Z.min_l by lia.
  destruct (b =? 0) eqn:E0, (b <=? a) eqn:E1, (b <? a + 1) eqn:E2; case_bool; try lia; try done.
  f_equal. lia.
Qed.

Section WalBytes.
Context {IO : IterOrder} {WC : WalCodec} {MC : MetaCodec}.

Lemma add_fetched_lookup (raw : gmap string bytes) (key : Z -> string) seqs (m : gmap Z bytes) j :
  fold_left (fun m seq => match raw !! key seq with Some b => <[seq := b]> m | None => m end) seqs m !! j =
  match (if decide (j ∈ seqs) then raw !! key j else None) with Some b => Some b | None => m !! j end.
Proof.
  revert m. induction seqs as [|seq seqs IH]; intros m; cbn [fold_left].
  { by rewrite decide_False by apply not_elem_of_nil. }
  rewrite IH. destruct (decide (j = seq)) as [->|Hj].
  - rewrite (decide_True (P := seq ∈ seq :: seqs)) by left.
    destruct (raw !! key seq) as [b|] eqn:Hr; [rewrite lookup_insert_eq; by destruct (decide _)|].
    by destruct (decide _).
  - assert ((match raw !! key seq with Some b => <[seq := b]> m | None => m end) !! j = m !! j) as ->
      by (destruct (raw !! key seq); [by rewrite lookup_insert_ne by done|done]).
    destruct (decide (j ∈ seqs)), (decide (j ∈ seq :: seqs)) as [H|H]; rewrite elem_of_cons in H; naive_solver.
Qed.

Lemma wal_by_seq_segment ns m raw from seq :
  wal_commit_replay_from m = Some from -> 1 <= from -> from <= seq <= wal_commit_seq m ->
  wal_by_seq ns m raw !! seq = raw !! wal_key ns seq.
Proof.
  intros Hf H1 Hs. unfold wal_by_seq. rewrite Hf, add_fetched_lookup.
  rewrite decide_True by (apply elem_of_range_incl; lia).
  destruct (raw !! wal_key ns seq); [done|]. destruct (raw !! wal_snapshot_key ns); [|done].
  by rewrite lookup_insert_ne by lia.
Qed.

Lemma wal_by_seq_snapshot ns m raw :
  (forall from, wal_commit_replay_from m = Some from -> 1 <= from) ->
  wal_by_seq ns m raw !! 0 = raw !! wal_snapshot_key ns.
Proof.
  intros Hf. unfold wal_by_seq.
  assert ((match raw !! wal_snapshot_key ns with Some b => <[0 := b]> ∅ | None => ∅ end : gmap Z bytes) !! 0 =
    raw !! wal_snapshot_key ns) as H0.
  { destruct (raw !! wal_snapshot_key ns); [apply lookup_insert_eq|done]. }
  destruct (wal_commit_replay_from m) as [from|]; [|done].
  rewrite add_fetched_lookup, decide_False; [done|].
  rewrite elem_of_range_incl. specialize (Hf from eq_refl). lia.
Qed.

Lemma wal_by_seq_empty ns m : wal_by_seq ns m ∅ = ∅.
Proof.
  apply map_eq. intros j. unfold wal_by_seq. rewrite lookup_empty.
  destruct (wal_commit_replay_from m); [|done]. rewrite add_fetched_lookup, lookup_empty. by case_decide.
Qed.

Lemma cold_replay_exact policy threshold ns objs wal_bytes docs seqmap seqs es docs' :
  Forall2 (segment_at objs ns) seqs es ->
  (forall seq, seq ∈ seqs -> wal_bytes !! seq = fst <$> objs !! wal_key ns seq) ->
  replay docs es = Ok docs' ->
  exists seqmap', cold_replay policy threshold wal_bytes docs seqmap seqs = Ok (docs', seqmap').
Proof.
  intros Hes. revert docs seqmap. induction Hes as [|seq e seqs es He Hes IH]; intros docs seqmap Hb Hr.
  { injection Hr as <-. by eexists. }
  destruct He as (b & t & Hk & Hd). cbn [cold_replay replay] in *.
  rewrite Hb, Hk by left. cbn [fmap option_fmap option_map fst].
  unfold decode_segment_with_policy. rewrite Hd.
  destruct (apply_entry docs e) as [docs1 [[]|err]]; [|done].
  apply IH; [|done]. intros s Hs. apply Hb. by right.
Qed.

(** The documents a cold load starts from. *)
Lemma cold_base_exact objs ns m log raw :
  lenZ log < u64_max -> ns_state objs ns m log -> raw = fetched_of objs (wal_round_keys ns m) ->
  exists docs last,
    match wal_by_seq ns m raw !! 0 with
    | Some b =>
        match decode_snapshot b with
        | Ok snap => Ok (into_docs snap, snap_seq snap)
        | Err e => Err (ColdWal e)
        end
    | None => Ok (∅, 0)
    end = Ok (docs, last) /\
    wal_snapshot_seq m <= last <= lenZ log /\ 0 <= last /\ docs_after log last docs.
Proof.
  intros Hl Hst ->. pose proof (wf_cursors _ (nss_wf _ _ _ _ Hst)) as Hwf.
  pose proof (nss_commit _ _ _ _ Hst) as Hcom. pose proof (nss_snapshot _ _ _ _ Hst) as Hss.
  rewrite wal_by_seq_snapshot.
  2: { intros from. unfold wal_commit_replay_from. rewrite wal_replay_from_cases by lia.
       destruct (0 <? _) eqn:E1; case_bool; [destruct (_ <=? _); [done|]|]; intros Hf.
       - injection Hf as <-. lia.
       - destruct (0 <? wal_commit_seq m); [|done]. injection Hf as <-. lia. }
  rewrite fetched_of_lookup. unfold snapshot_sound in Hss. case_decide as Hin.
  - destruct (objs !! wal_snapshot_key ns) as [[b t]|] eqn:Hb; cbn.
    + destruct Hss as (s & -> & Hs & Hpos & Hd). exists (into_docs s), (snap_seq s). split_and!; try done; lia.
    + exists ∅, 0. rewrite Hss. unfold lenZ. split_and!; try done; lia.
  - assert (wal_snapshot_seq m = 0) as ->.
    { destruct (Z.lt_ge_cases 0 (wal_snapshot_seq m)); [|lia]. destruct Hin. unfold wal_round_keys.
      destruct (0 <? wal_snapshot_seq m) eqn:E; case_bool; [apply elem_of_app; left; by left|lia]. }
    exists ∅, 0. unfold lenZ. split_and!; try done; lia.
Qed.

Lemma cold_view_exact policy objs ns m log et :
  lenZ log < u64_max -> ns_state objs ns m log ->
  exists v, cold_view policy m et (wal_by_seq ns m (fetched_of objs (wal_round_keys ns m))) = Ok v /\
    v_meta v = m /\ v_meta_etag v = et /\ v_last_applied_wal_seq v = lenZ log /\
    replay ∅ log = Ok (v_docs v).
Proof.
  intros Hl Hst. pose proof (wf_cursors _ (nss_wf _ _ _ _ Hst)) as Hwf.
  pose proof (nss_commit _ _ _ _ Hst) as Hcom.
  destruct (replay_total ∅ log (nss_entries _ _ _ _ Hst)) as [full Hfull].
  destruct (cold_base_exact objs ns m log _ Hl Hst eq_refl) as (docs & last & Hbase & Hlast & Hpos & Hd).
  unfold cold_view. rewrite Hbase. cbn [result_bind]. rewrite wal_replay_from_cases, Hcom by lia.
  destruct (lenZ log <=? last) eqn:E; case_bool.
  - cbn. eexists. split; [reflexivity|]. cbn. split_and!; try done. by apply docs_after_full with (n := last).
  - assert (replay docs (drop (Z.to_nat (last + 1 - 1)) log) = Ok full) as Hrep.
    { replace (last + 1 - 1) with last by lia. unfold docs_after in Hd.
      rewrite <- (take_drop (Z.to_nat last) log), replay_app, Hd in Hfull. exact Hfull. }
    edestruct (cold_replay_exact policy (Z.max last (wal_snapshot_seq m)) ns objs) as [sm ->];
      [apply (segments_range _ _ m); [done|lia..]| |exact Hrep|].
    + intros seq Hseq. apply elem_of_range_incl in Hseq.
      assert (wal_commit_replay_from m = Some (wal_snapshot_seq m + 1)) as Hf.
      { unfold wal_commit_replay_from. rewrite wal_replay_from_cases by lia.
        destruct (0 <? wal_snapshot_seq m) eqn:E1, (wal_commit_seq m <=? wal_snapshot_seq m) eqn:E2, (0 <? wal_commit_seq m) eqn:E3;
          case_bool; try lia; try done. f_equal. lia. }
      rewrite (wal_by_seq_segment ns m _ _ seq Hf) by lia.
      rewrite fetched_of_lookup, decide_True; [done|]. unfold wal_round_keys. rewrite Hf.
      apply elem_of_app. right. apply list_elem_of_fmap. exists seq. split; [done|].
      apply elem_of_range_incl. lia.
    + cbn. eexists. split; [reflexivity|]. done.
Qed.
End WalBytes.

Section OpenReads.
Context {IO : IterOrder} {WC : WalCodec} {MC : MetaCodec} {S : ObjectStore} {SL : StoreLaws} {HM : NoMisreads}.
Context {CO : CompletionOrder} (max_keys : Z) (Hmax : 0 < max_keys).

(** A view that holds the whole log and the stored metadata. *)
Definition view_current (objs : Objects) (ns : string) (m : NamespaceMeta) (log : list WalEntry)
    (v : NamespaceView) : Prop :=
  v_meta v = m /\ v_meta_etag v = snd <$> objs !! meta_key ns /\
  v_last_applied_wal_seq v = lenZ log /\ replay ∅ log = Ok (v_docs v).

Lemma view_current_empty objs ns m log :
  ns_state objs ns m log -> objs !! meta_key ns = None -> view_current objs ns m log view_empty.
Proof.
  intros Hst Hn. pose proof (nss_commit _ _ _ _ Hst) as Hcom.
  destruct (nss_meta _ _ _ _ Hst) as [[_ ->]|(b & t & Hb & _)]; [|congruence].
  destruct log as [|e log]; [|unfold lenZ in Hcom; cbn in Hcom; lia]. unfold view_current. by rewrite Hn.
Qed.

Lemma fetched_meta_current objs ns m log m0 b t :
  ns_state objs ns m log -> objs !! meta_key ns = Some (b, t) -> meta_from_slice b = Some m0 ->
  m0 = m /\ Some t = snd <$> objs !! meta_key ns.
Proof.
  intros Hst Hb Hm. rewrite Hb. split; [|done].
  destruct (nss_meta _ _ _ _ Hst) as [[Hn _]|(b' & t' & Hb' & Hm')]; congruence.
Qed.

Lemma cold_load_meta_and_wal_reads ns :
  reads (cold_load_meta_and_wal max_keys ns) (fun objs out =>
    let '(m, et, wal_bytes, rt, _) := out in
    (rt = 0 /\ et = None /\ objs !! meta_key ns = None) \/
    (1 <= rt /\ (exists b t, et = Some t /\ objs !! meta_key ns = Some (b, t) /\ meta_from_slice b = Some m) /\
     wal_bytes = wal_by_seq ns m (fetched_of objs (wal_round_keys ns m)))).
Proof.
  unfold cold_load_meta_and_wal. eapply reads_bind; [apply cold_ns_reads, get_meta_reads|].
  intros objs [[m et]|] Hcur w Hw; [|split; [done|by left]].
  destruct (wal_round_keys ns m) as [|k keys] eqn:Hk.
  - split; [done|]. right. rewrite Hk, fetched_of_nil, wal_by_seq_empty. split_and!; [lia|done..].
  - apply st_post_bind. eapply st_post_mono; [by apply fetch_round_reads|].
    intros w' [raw|e] [Ho Hraw]; [|done]. split; [done|]. right. destruct Hraw as [-> _].
    rewrite Hk, Hw. split_and!; [lia|done..].
Qed.

Lemma cold_open_reads policy ns :
  reads (load_cold_batched max_keys policy ns true) (fun objs out =>
    forall m log, lenZ log < u64_max -> ns_state objs ns m log -> view_current objs ns m log out.1.1).
Proof.
  unfold load_cold_batched. cbn [negb]. eapply reads_bind; [apply cold_load_meta_and_wal_reads|].
  intros objs [[[[m0 et] wb] rt] nk] Hout w Hw.
  destruct Hout as [(-> & -> & Hn)|(Hrt & (b & t & -> & Hb & Hm0) & ->)].
  - split; [done|]. cbn. intros m log _ Hst. by apply view_current_empty.
  - rewrite bool_decide_eq_false_2, andb_false_r by done.
    apply st_post_bind, st_post_result. destruct (cold_view policy m0 (Some t) _) as [v|e] eqn:Hv; [|done].
    split; [done|]. cbn. intros m log Hl Hst.
    destruct (fetched_meta_current objs ns m log m0 b t Hst Hb Hm0) as [-> Het].
    destruct (cold_view_exact policy objs ns m log (Some t) Hl Hst) as (v' & Hv' & H1 & H2 & H3 & H4).
    rewrite Hv in Hv'. injection Hv' as <-. unfold view_current. by rewrite H1, H2, Het.
Qed.

Lemma view_load_reads policy ns :
  reads (view_load policy ns) (fun objs v =>
    forall m log, lenZ log < u64_max -> ns_state objs ns m log -> snapshot_current objs ns m ->
      view_current objs ns m log v).
Proof.
  unfold view_load. eapply reads_bind; [apply get_meta_reads|]. intros objs [[m0 et]|] Hcur w Hw.
  2: { split; [done|]. cbn. intros m log _ Hst _. by apply view_current_empty. }
  destruct Hcur as (b & t & -> & Hb & Hm0). apply st_post_bind. eapply st_post_mono; [apply load_reads|].
  intros w1 [[docs last]|e] [Ho1 Hload]; [|done]. rewrite Hw in *. cbn [fst snd] in Hload.
  apply st_post_bind. eapply st_post_mono; [apply build_doc_last_wal_seq_reads|].
  intros w2 [sm|e] [Ho2 _]; rewrite Ho1 in Ho2; [|done]. split; [done|]. cbn. intros m log Hl Hst Hcur.
  destruct (fetched_meta_current objs ns m log m0 b t Hst Hb Hm0) as [-> Het].
  destruct (Hload log Hl Hst Hcur) as [Hd Hlast]. unfold view_current. cbn. by rewrite Hlast, Het.
Qed.
End OpenReads.

Section OpenTotal.
Context {IO : IterOrder} {WC : WalCodec} {MC : MetaCodec} {S : ObjectStore} {SL : StoreLaws} {SR : StoreReliable}.
Context {CO : CompletionOrder} (max_keys : Z) (Hmax : 0 < max_keys) (policy : WalCorruptPolicy).
Context (ns : string) (Hns : validate_namespace_name ns = Ok tt) (Hdots : str_contains ".." ns = false).

Lemma succeeds_cold {A} (m : St NsError A) objs : succeeds m objs -> succeeds (cold_ns m) objs.
Proof. intros Hm w Hw. destruct (Hm w Hw) as [a Ha]. exists a. by apply cold_ns_yields. Qed.

Lemma fetch_meta_succeeds m log objs : ns_state objs ns m log -> succeeds (fetch_meta ns) objs.
Proof.
  intros Hst w Hw. pose proof (get_objects w (meta_key ns)) as Hgo.
  pose proof (reliable_get w (meta_key ns)) as Hg.
  unfold yields, st_post, fetch_meta, get_meta_with_retry, GET_RETRIES. cbn [retry].
  unfold st_bind, st_try, get_meta_json, st_bind, st_lift.
  destruct (s3_get w (meta_key ns)) as [w' out]. cbn in Hgo, Hg. rewrite Hg, Hw.
  destruct (nss_meta _ _ _ _ Hst) as [[Hn ->]|(b & t & Hb & Hm)].
  - rewrite Hn. cbn. rewrite <- Hw. eauto.
  - rewrite Hb, Hm. cbn. rewrite <- Hw. eauto.
Qed.

(** The keys of round 1 are well formed and name existing objects. *)
Lemma wal_round_keys_ok objs m log :
  lenZ log < u64_max -> ns_state objs ns m log ->
  validate_cold_s3_keys (wal_round_keys ns m) = Ok tt /\ all_present objs (wal_round_keys ns m).
Proof.
  intros Hl Hst. pose proof (wf_cursors _ (nss_wf _ _ _ _ Hst)) as Hwf.
  pose proof (nss_commit _ _ _ _ Hst) as Hcom. pose proof (nss_snapshot _ _ _ _ Hst) as Hss.
  rewrite validate_cold_keys_all. unfold all_present, wal_round_keys, wal_keys_from.
  assert (forall from, wal_commit_replay_from m = Some from -> from = wal_snapshot_seq m + 1) as Hf.
  { intros from. unfold wal_commit_replay_from. rewrite wal_replay_from_cases by lia.
    destruct (0 <? wal_snapshot_seq m) eqn:E; case_bool; [by destruct (_ <=? _); [|intros [=<-]]|].
    destruct (0 <? wal_commit_seq m); [|done]. intros [=<-]. lia. }
  rewrite <- Forall_and. apply Forall_app. split.
  - destruct (0 <? wal_snapshot_seq m) eqn:E; case_bool; constructor; [|constructor]. split.
    + by apply (object_key_valid ns OSnapshot).
    + unfold snapshot_sound in Hss. destruct (objs !! wal_snapshot_key ns); [done|lia].
  - destruct (wal_commit_replay_from m) as [from|]; [|constructor]. rewrite (Hf from eq_refl).
    apply Forall_fmap, Forall_forall. intros seq Hseq. apply elem_of_range_incl in Hseq. split; cbn.
    + apply (object_key_valid ns (OWal seq)); [done..|]. cbn. unfold is_u64. lia.
    + destruct (lookup_lt_is_Some_2 log (Z.to_nat (seq - 1))) as [e He]; [unfold lenZ in *; lia|].
      destruct (nss_segments _ _ _ _ Hst seq e) as (b & t & -> & _); [lia|done|done].
Qed.

Lemma cold_open_succeeds m log objs :
  lenZ log < u64_max -> ns_state objs ns m log -> succeeds (load_cold_batched max_keys policy ns true) objs.
Proof.
  intros Hl Hst. pose proof reliable_honest as HM. unfold load_cold_batched. cbn [negb].
  eapply succeeds_bind; [by apply cold_load_meta_and_wal_reads| |].
  - unfold cold_load_meta_and_wal.
    eapply succeeds_bind; [apply cold_ns_reads, get_meta_reads|by eapply succeeds_cold, fetch_meta_succeeds|].
    intros [[m0 et]|] Hcur; [|apply succeeds_ret]. destruct Hcur as (b & t & -> & Hb & Hm0).
    destruct (fetched_meta_current objs ns m log m0 b t Hst Hb Hm0) as [-> _].
    destruct (wal_round_keys_ok objs m log Hl Hst) as [Hv Hp].
    destruct (wal_round_keys ns m) as [|k keys] eqn:Hk; [apply succeeds_ret|].
    eapply succeeds_bind; [by apply fetch_round_reads|by apply fetch_round_succeeds|].
    intros raw _. apply succeeds_ret.
  - intros [[[[m0 et] wb] rt] nk] [(-> & -> & Hn)|(Hrt & (b & t & -> & Hb & Hm0) & ->)]; [apply succeeds_ret|].
    rewrite bool_decide_eq_false_2, andb_false_r by done.
    destruct (fetched_meta_current objs ns m log m0 b t Hst Hb Hm0) as [-> _].
    destruct (cold_view_exact policy objs ns m log (Some t) Hl Hst) as (v & -> & _).
    apply succeeds_ret.
Qed.

Lemma build_seq_map_succeeds objs seqs es mp :
  Forall2 (segment_at objs ns) seqs es -> succeeds (build_seq_map ns mp seqs) objs.
Proof.
  intros Hes. revert mp. induction Hes as [|seq e seqs es He Hes IH]; intros mp; [apply succeeds_ret|].
  cbn [build_seq_map]. eapply succeeds_bind; [apply read_wal_entry_reads| |intros e' _; apply IH].
  intros w Hw. rewrite <- Hw in He. destruct (yields_segment w ns seq e He) as (b & Hy & Hd).
  exists e. eapply yields_bind; [exact Hy|]. intros w' _. rewrite Hd. apply yields_result.
Qed.

Lemma view_load_succeeds m log objs :
  lenZ log < u64_max -> ns_state objs ns m log -> snapshot_current objs ns m ->
  succeeds (view_load policy ns) objs.
Proof.
  intros Hl Hst Hcur. pose proof reliable_honest as HM. unfold view_load.
  eapply succeeds_bind; [apply get_meta_reads|by eapply fetch_meta_succeeds|].
  intros [[m0 et]|] Hmeta; [|apply succeeds_ret]. destruct Hmeta as (b & t & -> & Hb & Hm0).
  destruct (fetched_meta_current objs ns m log m0 b t Hst Hb Hm0) as [-> _].
  eapply succeeds_bind; [apply load_reads| |].
  - intros w Hw. rewrite <- Hw in Hst, Hcur. destruct (load_total policy w ns m log Hl Hst Hcur) as (docs & Hy & _).
    by eexists.
  - intros [docs last] _. eapply succeeds_bind; [apply build_doc_last_wal_seq_reads| |intros; apply succeeds_ret].
    unfold build_doc_last_wal_seq. pose proof (wf_cursors _ (nss_wf _ _ _ _ Hst)) as Hwf.
    pose proof (nss_commit _ _ _ _ Hst) as Hcom. eapply build_seq_map_succeeds. rewrite Hcom.
    apply (segments_range _ _ m); [done| |]; destruct (0 <? wal_snapshot_seq m) eqn:E; case_bool;
      unfold sat_add64; lia.
Qed.
End OpenTotal.

(** ** Theorems on rounds and on opening a namespace *)

(** a round is exact.  Whatever the sub-batches and the order in which
    their requests complete, a fetch changes no object and returns exactly the
    objects under its keys (all of them, unless missing objects are allowed);
    and it does return when the keys are well formed, the objects it insists on
    exist and no request fails. *)
Theorem fetch_round_exact {S : ObjectStore} {SL : StoreLaws} {CO : CompletionOrder} max_keys keys allow :
  0 < max_keys ->
  (forall w, let '(w', r) := fetch_round_inner max_keys keys allow w in
     objects w' = objects w /\
     match r with
     | Ok m => (forall k, m !! k = if decide (k ∈ keys) then fst <$> objects w !! k else None) /\
               (allow = false -> forall k, k ∈ keys -> is_Some (objects w !! k))
     | Err _ => True
     end) /\
  (forall w, StoreReliable -> validate_cold_s3_keys keys = Ok tt ->
     (allow = false -> forall k, k ∈ keys -> is_Some (objects w !! k)) ->
     is_ok (fetch_round_inner max_keys keys allow w).2 = true).
Proof.
  intros Hmax. split; intros w.
  - pose proof (fetch_round_reads max_keys Hmax keys allow w) as H. unfold st_post in H.
    destruct (fetch_round_inner max_keys keys allow w) as [w' [m|e]]; [|done]. destruct H as [Ho [-> Hp]].
    split; [done|]. split; [apply fetched_of_lookup|]. intros Hal. by apply Forall_forall, Hp.
  - intros SR Hv Hp. destruct (fetch_round_succeeds max_keys keys allow (objects w) Hmax Hv) with (w := w) as [m Hm];
      [|done|].
    + intros Hal. apply Forall_forall. auto.
    + unfold yields, st_post in Hm. by destruct Hm as [_ ->].
Qed.

Lemma fetch_round_exact_witness :
  is_ok (@fetch_round_inner calm_store in_order 1 [wal_key "ns" 1; meta_key "ns"] false demo_world).2 = true.
Proof.
  apply (@fetch_round_exact calm_store calm_store_laws in_order 1 [wal_key "ns" 1; meta_key "ns"] false);
    [reflexivity|exact calm_store_reliable|reflexivity|].
  intros _ k Hk. repeat (apply elem_of_cons in Hk as [->|Hk]; [vm_compute; eexists; reflexivity|]).
  by apply not_elem_of_nil in Hk.
Defined.

(** Views that answer alike: all but the per-document sequence numbers. *)
Definition same_view (v1 v2 : NamespaceView) : Prop :=
  v_docs v1 = v_docs v2 /\ v_meta v1 = v_meta v2 /\ v_meta_etag v1 = v_meta_etag v2 /\
  v_last_applied_wal_seq v1 = v_last_applied_wal_seq v2.

(** C14: opening a namespace in one batched round is equivalent to replaying it
    segment by segment: on a reliable store both succeed, with the same
    documents, metadata, entity tag and applied sequence number.  The name of the
    namespace has no [..] (which a valid name may have, and the key check of the
    batched round refuses), and the snapshot object is the one the metadata
    names ([snapshot_current]; after a compaction that failed half-way only the
    batched open works). *)
Theorem cold_open_equiv {IO : IterOrder} {WC : WalCodec} {MC : MetaCodec} {S : ObjectStore} {SL : StoreLaws}
    {SR : StoreReliable} {CO : CompletionOrder} max_keys policy ns m log w :
  0 < max_keys -> validate_namespace_name ns = Ok tt -> str_contains ".." ns = false ->
  lenZ log < u64_max -> ns_state (objects w) ns m log -> snapshot_current (objects w) ns m ->
  exists v1 rt keys v2,
    (load_cold_batched max_keys policy ns true w).2 = Ok (v1, rt, keys) /\
    (view_load policy ns w).2 = Ok v2 /\
    same_view v1 v2.
Proof.
  intros Hmax Hns Hd Hl Hst Hcur. pose proof reliable_honest as HM.
  destruct (cold_open_succeeds max_keys Hmax policy ns Hns Hd m log _ Hl Hst w eq_refl) as [[[v1 rt] nk] [_ H1]].
  destruct (view_load_succeeds policy ns m log _ Hl Hst Hcur w eq_refl) as [v2 [_ H2]].
  exists v1, rt, nk, v2. pose proof (cold_open_reads max_keys Hmax policy ns w) as R1.
  pose proof (view_load_reads policy ns w) as R2. unfold st_post in R1, R2. rewrite H1 in R1. rewrite H2 in R2.
  destruct R1 as [_ R1], R2 as [_ R2]. destruct (R1 m log Hl Hst) as (A1 & A2 & A3 & A4).
  destruct (R2 m log Hl Hst Hcur) as (B1 & B2 & B3 & B4). cbn in A1, A2, A3, A4.
  unfold same_view. split_and!; try done; congruence.
Qed.

Lemma cold_open_equiv_witness :
  exists v1 rt keys v2,
    (@load_cold_batched canonical_order demo_codec demo_metas calm_store in_order 2 PolicyFail "ns" true demo_world).2
      = Ok (v1, rt, keys) /\
    (@view_load canonical_order demo_codec demo_metas calm_store PolicyFail "ns" demo_world).2 = Ok v2 /\
    v_docs v1 = v_docs v2 /\ v_meta v1 = v_meta v2 /\ v_meta_etag v1 = v_meta_etag v2 /\
    v_last_applied_wal_seq v1 = v_last_applied_wal_seq v2.
Proof.
  apply (@cold_open_equiv canonical_order demo_codec demo_metas calm_store calm_store_laws calm_store_reliable in_order
    2 PolicyFail "ns" (meta_at 1) [put_entry "a"] demo_world).
  1-4: reflexivity.
  - exact demo_world_state.
  - left. reflexivity.
Defined.

(** A document in the snapshot at 1 and a patch of it in segment 2, with the
    indexes at 1. *)
Definition patch_entry : WalEntry := mkWalEntry [] [mkWalPatch "a" [65]] [].
Definition patched_codec : WalCodec :=
  table_codec [patch_entry] [ {[ "tier" := VString "free" ]} ] [mkWalSnapshot 1 [mkDocument "a" ∅]].
Definition patched_meta : NamespaceMeta :=
  set_wal_snapshot_seq 1 (set_index 1 0 0 (set_wal_commit_seq 2 default_meta)).
Definition patched_metas : MetaCodec := meta_table [patched_meta].
Definition patched_world : MemWorld :=
  mkMem (<[meta_key "ns" := ([65], "m")]> (<[wal_snapshot_key "ns" := ([65], "s")]>
    {[ wal_key "ns" 2 := ([1; 65; 72; 0; 0; 0], "w") ]})) 0 [].

(** the batched open forgets that a document of the snapshot was patched
    after it.  The sequence numbers of the snapshot's documents are filled in
    after the replay, and a patch of an id with no number records none: an
    eventual query on the cold view returns the patched document although the
    patch is not indexed, while the segment-by-segment load hides it. *)
Theorem cold_open_forgets_patch :
  exists v1 rt keys v2,
    (@load_cold_batched canonical_order patched_codec patched_metas calm_store in_order 128 PolicyFail "ns" true
       patched_world).2 = Ok (v1, rt, keys) /\
    (@view_load canonical_order patched_codec patched_metas calm_store PolicyFail "ns" patched_world).2 = Ok v2 /\
    v_docs v1 = v_docs v2 /\ index_cursor (v_meta v1) = 1 /\
    v_doc_last_wal_seq v1 !! "a" = Some 1 /\ v_doc_last_wal_seq v2 !! "a" = Some 2 /\
    docs_for_query v1 true !! "a" = Some (mkDocument "a" {[ "tier" := VString "free" ]}) /\
    docs_for_query v2 true !! "a" = None.
Proof. do 4 eexists. split_and!; vm_compute; reflexivity. Qed.
