(* ===== verification/ProbeSpec.v ===== *)
(** * A probed index answers as the whole index

    A vector query fetches only the centroid and cluster objects its probe plan
    names, from the store or through the segment cache.  The index assembled
    from them has the same candidates and the same answers as the index the
    store holds. *)

From Stdlib Require Import ZArith Lia Bool.
From stdpp Require Import base gmap strings list.
From S2P Require Import Prelude F64 Json Models Keys Schema Meta Wal WalReplay ObjectStore Namespace Durability Compaction VectorEncoding FilterIndex Fts Vector VectorBuild View Cache Indexer IndexerSpec ColdFetch ColdSpec.

Lemma elem_of_concat {A} (x : A) ls : x ∈ concat ls <-> exists l, x ∈ l /\ l ∈ ls.
Proof.
  induction ls as [|l ls IH]; cbn; [rewrite elem_of_nil; split; [done|]; by intros (? & _ & ?%not_elem_of_nil)|].
  rewrite elem_of_app, IH. setoid_rewrite elem_of_cons. naive_solver.
Qed.

Lemma dedup_subset {A} `{EqDecision A} (l : list A) x : x ∈ dedup l -> x ∈ l.
Proof.
  induction l as [|y l IH]; [done|]. cbn [dedup]. destruct l as [|z l]; [done|].
  case_decide; [intros Hx; right; auto|]. rewrite !(elem_of_cons _ x y). naive_solver.
Qed.

(** ** What a probe depends on *)

Section ProbeExt.
Context (l0 : CentroidIndexL0) (routing : option CentroidRouting) (query : list f64).
Context (l1 l1' : gmap Z CentroidIndexL1) (l2 l2' : gmap (Z * Z) CentroidIndexL2).

Definition parts_of (c : Z) : Z := match routing with Some r => l2_count_for_coarse r c | None => 0 end.

(** The test for an empty L2 map changes nothing: it ranks no partition. *)
Lemma probe_coarse_cell_alt (la : gmap Z CentroidIndexL1) (lb : gmap (Z * Z) CentroidIndexL2) (c : Z) :
  probe_coarse_cell l0 la routing lb query c =
  if 1 <? parts_of c then
    match l2_rank l0 lb query c (parts_of c) with
    | [] => probe_l1_fines l0 la query c
    | ranked => concat (probe_l2_fines l0 lb query c <$>
        (take (Z.to_nat (probe_l2_count l0 (parts_of c))) (sort_by (ranked_cmp Z.compare) ranked)).*1)
    end
  else probe_l1_fines l0 la query c.
Proof.
  unfold probe_coarse_cell, parts_of. destruct (1 <? _); [|done]. cbn [andb].
  destruct (bool_decide (lb = ∅)) eqn:E; [|done]. apply bool_decide_eq_true in E as ->. cbn [negb].
  match goal with |- context [l2_rank _ ∅ _ _ ?n] => assert (l2_rank l0 ∅ query c n = []) as -> end; [|done].
  unfold l2_rank. generalize (range0 match routing with Some r => l2_count_for_coarse r c | None => 0 end).
  intros l. induction l as [|x l IH]; [done|]. cbn. by rewrite lookup_empty.
Qed.

Context (c : Z).
Hypothesis Hl1 : l1' !! c = l1 !! c.
Hypothesis Hl2 : forall l, 1 < parts_of c -> 0 <= l < parts_of c -> l2' !! (c, l) = l2 !! (c, l).

Lemma l2_rank_ext : 1 < parts_of c -> l2_rank l0 l2' query c (parts_of c) = l2_rank l0 l2 query c (parts_of c).
Proof.
  intros Hone. unfold l2_rank. assert (forall l, l ∈ range0 (parts_of c) -> l2' !! (c, l) = l2 !! (c, l)) as H.
  { intros l Hl. apply elem_of_seqZ in Hl. apply Hl2; lia. }
  induction (range0 (parts_of c)) as [|x l IH]; [done|]. cbn. rewrite (H x) by left.
  rewrite IH; [done|]. intros y Hy. apply H. by right.
Qed.

Lemma l2_rank_ids (lb : gmap (Z * Z) CentroidIndexL2) (p : Z * f64) : p ∈ l2_rank l0 lb query c (parts_of c) -> 0 <= p.1 < parts_of c.
Proof.
  unfold l2_rank. rewrite list_elem_of_omap. intros (l & Hl & Hp). apply elem_of_seqZ in Hl.
  destruct (lb !! (c, l)) as [seg|]; [|done]. cbn in Hp. destruct (l2_centroids seg); [done|].
  injection Hp as <-. cbn. lia.
Qed.

Lemma probe_coarse_cell_ext :
  probe_coarse_cell l0 l1' routing l2' query c = probe_coarse_cell l0 l1 routing l2 query c.
Proof.
  rewrite !probe_coarse_cell_alt. unfold probe_l1_fines. rewrite Hl1.
  destruct (1 <? parts_of c) eqn:Hone; case_bool; [|done].
  pose proof l2_rank_ids l2 as Hids. rewrite l2_rank_ext by done.
  destruct (l2_rank l0 l2 query c (parts_of c)) as [|p ranked]; [done|]. f_equal.
  apply list_fmap_ext. intros i l Hl. unfold probe_l2_fines. rewrite Hl2; [done|done|].
  apply list_elem_of_lookup_2 in Hl. apply list_elem_of_fmap in Hl as (q & -> & Hq).
  apply elem_of_take in Hq as (j & Hq & _). apply list_elem_of_lookup_2 in Hq.
  rewrite sort_by_perm in Hq. by apply Hids.
Qed.
End ProbeExt.

Lemma probe_parts_ext l0 routing query l1 l1' l2 l2' :
  (forall c, c ∈ nearest_coarse l0 query (probe_coarse_count l0) ->
     l1' !! c = l1 !! c /\ (forall l, 1 < parts_of routing c -> 0 <= l < parts_of routing c -> l2' !! (c, l) = l2 !! (c, l))) ->
  probe_fine_centroids_parts l0 l1' routing l2' query = probe_fine_centroids_parts l0 l1 routing l2 query.
Proof.
  intros H. unfold probe_fine_centroids_parts. destruct (negb _); [done|]. do 3 f_equal.
  apply list_fmap_ext. intros i c Hc. apply list_elem_of_lookup_2 in Hc. destruct (H c Hc).
  by apply probe_coarse_cell_ext.
Qed.

Lemma top_m_range cs query metric m x : x ∈ top_m_centroids cs query metric m -> 0 <= x < lenZ cs.
Proof.
  intros Hx. unfold top_m_centroids in Hx.
  assert (x ∈ (imap (fun i c => (Z.of_nat i, score_vector query c metric)) cs).*1) as Hin.
  { destruct cs; [by apply not_elem_of_nil in Hx|]. apply list_elem_of_fmap in Hx as (p & -> & Hp).
    apply elem_of_take in Hp as (j & Hp & _). apply list_elem_of_lookup_2 in Hp. rewrite sort_by_perm in Hp.
    by apply list_elem_of_fmap_2. }
  apply list_elem_of_fmap in Hin as (p & -> & Hp). apply list_elem_of_lookup_1 in Hp as [i Hi].
  rewrite list_lookup_imap in Hi. destruct (cs !! i) as [v|] eqn:Hv; [|done]. injection Hi as <-. cbn.
  apply lookup_lt_Some in Hv. unfold lenZ. lia.
Qed.

Lemma nearest_coarse_range l0 query m c : c ∈ nearest_coarse l0 query m -> 0 <= c < lenZ (l0_centroids l0).
Proof. apply top_m_range. Qed.

(** ** What the fetched objects decode to *)

Section Decoding.
Context {SC : SegmentCodec}.

(** What one key decodes to. *)
Definition decoded {A} (skip : bytes -> bool) (decode : bytes -> option A) (o : option bytes) : option A :=
  match o with Some b => if skip b then None else decode b | None => None end.

Lemma decode_each_lookup {A} fetched key legacy skip (decode : bytes -> option A) ids acc m :
  decode_each fetched key legacy false skip decode ids acc = Ok m ->
  forall j, m !! j =
    match (if decide (j ∈ ids) then decoded skip decode (fetched !! key j) else None) with
    | Some a => Some a
    | None => acc !! j
    end.
Proof.
  revert acc. induction ids as [|id ids IH]; intros acc Hd j; cbn [decode_each] in Hd.
  { injection Hd as <-. by rewrite decide_False by apply not_elem_of_nil. }
  assert (fetched_segment fetched (key id) false (legacy id) = fetched !! key id) as Hf
    by (unfold fetched_segment; by destruct (fetched !! key id)).
  rewrite Hf in Hd.
  assert (forall acc', decode_each fetched key legacy false skip decode ids acc' = Ok m ->
    (forall i, acc' !! i = if decide (i = id) then
       match decoded skip decode (fetched !! key id) with Some a => Some a | None => acc !! i end else acc !! i) ->
    m !! j = match (if decide (j ∈ id :: ids) then decoded skip decode (fetched !! key j) else None) with
      | Some a => Some a | None => acc !! j end) as Hgo.
  { intros acc' Hd' Hacc'. rewrite (IH acc' Hd' j), Hacc'.
    destruct (decide (j = id)) as [->|Hj].
    - rewrite (decide_True (P := id ∈ id :: ids)) by left.
      destruct (decoded skip decode (fetched !! key id)); by destruct (decide (id ∈ ids)).
    - destruct (decide (j ∈ ids)), (decide (j ∈ id :: ids)) as [H|H]; rewrite elem_of_cons in H; naive_solver. }
  clear Hf IH. destruct (fetched !! key id) as [b|] eqn:Hb in Hd; rewrite Hb in Hgo; cbn [decoded] in Hgo.
  2: { apply (Hgo acc Hd). intros i. by destruct (decide (i = id)). }
  destruct (skip b) eqn:Hs in Hd; rewrite Hs in Hgo.
  - apply (Hgo acc Hd). intros i. by destruct (decide (i = id)).
  - destruct (decode b) as [a|]; [|done]. apply (Hgo (<[id := a]> acc) Hd).
    intros i. destruct (decide (i = id)) as [Hi|]; [subst; apply lookup_insert_eq|by rewrite lookup_insert_ne by done].
Qed.

Lemma decode_l2_lookup ns field fetched pairs acc m :
  decode_l2_probed fetched ((fun p : Z * Z => l2_key ns field p.1 p.2) <$> pairs) acc = Ok m ->
  (forall p b seg, p ∈ pairs -> fetched !! l2_key ns field p.1 p.2 = Some b -> l2_deserialize b = Some seg ->
     (l2_coarse_id seg, l2_l2_id seg) = p) ->
  forall p, m !! p =
    match (if decide (p ∈ pairs) then fetched !! l2_key ns field p.1 p.2 ≫= l2_deserialize else None) with
    | Some a => Some a
    | None => acc !! p
    end.
Proof.
  revert acc. induction pairs as [|q pairs IH]; intros acc Hd Hids p; cbn [fmap list_fmap decode_l2_probed] in Hd.
  { injection Hd as <-. by rewrite decide_False by apply not_elem_of_nil. }
  assert (forall p' b seg, p' ∈ pairs -> fetched !! l2_key ns field p'.1 p'.2 = Some b ->
    l2_deserialize b = Some seg -> (l2_coarse_id seg, l2_l2_id seg) = p') as Hids'
    by (intros; eapply Hids; [by right|done..]).
  destruct (fetched !! l2_key ns field q.1 q.2) as [b|] eqn:Hb.
  - destruct (l2_deserialize b) as [seg|] eqn:Hs; [|done]. cbn [ok_or result_bind] in Hd.
    rewrite (Hids q b seg) in Hd by (by left || done). rewrite (IH _ Hd Hids' p).
    destruct (decide (p = q)) as [->|Hp].
    + rewrite (decide_True (P := q ∈ q :: pairs)), lookup_insert_eq, Hb by left. cbn. rewrite Hs.
      by destruct (decide (q ∈ pairs)).
    + rewrite lookup_insert_ne by done.
      destruct (decide (p ∈ pairs)), (decide (p ∈ q :: pairs)) as [H|H]; rewrite elem_of_cons in H; naive_solver.
  - rewrite (IH _ Hd Hids' p). destruct (decide (p = q)) as [->|Hp].
    + rewrite (decide_True (P := q ∈ q :: pairs)), Hb by left. by destruct (decide (q ∈ pairs)).
    + destruct (decide (p ∈ pairs)), (decide (p ∈ q :: pairs)) as [H|H]; rewrite elem_of_cons in H; naive_solver.
Qed.
End Decoding.

(** ** Assembling a probed index *)

Definition keep_all : bytes -> bool := fun _ => false.
Definition is_nil : bytes -> bool := fun b => match b with [] => true | _ => false end.

(** The vector index of [field] that the store holds: every part of [vi] is
    what the object of that part decodes to. *)
Record index_stored {SC : SegmentCodec} (objs : Objects) (ns field : string) (vi : VectorIndex) : Prop := {
  is_cells : lenZ (l0_centroids (vi_l0 vi)) <= l0_num_coarse (vi_l0 vi);
  is_l1 : forall c, 0 <= c < l0_num_coarse (vi_l0 vi) ->
    vi_l1 vi !! c = decoded keep_all l1_deserialize (fst <$> objs !! l1_key ns field c);
  is_routing : vi_routing vi = if l0_has_routing (vi_l0 vi) then
    decoded keep_all routing_deserialize (fst <$> objs !! routing_key ns field) else None;
  is_l2 : forall c l, 0 <= l < parts_of (vi_routing vi) c ->
    vi_l2 vi !! (c, l) = decoded keep_all l2_deserialize (fst <$> objs !! l2_key ns field c l);
  is_l2_ids : forall c l b seg, 0 <= l < parts_of (vi_routing vi) c -> fst <$> objs !! l2_key ns field c l = Some b -> l2_deserialize b = Some seg ->
    (l2_coarse_id seg, l2_l2_id seg) = (c, l);
  is_l2_start : forall p seg, vi_l2 vi !! p = Some seg -> 0 <= l2_global_fine_start seg;
  is_clusters : forall f, is_u32 f ->
    vi_clusters vi !! f = decoded is_nil cluster_deserialize (fst <$> objs !! cluster_key ns field f)
}.

(** Probed ids are machine words. *)
Lemma probe_ids_u32 (l0 : CentroidIndexL0) (l1 : gmap Z CentroidIndexL1) (routing : option CentroidRouting) (l2 : gmap (Z * Z) CentroidIndexL2)
    (query : list f64) (f : Z) :
  (forall p seg, l2 !! p = Some seg -> 0 <= l2_global_fine_start seg) ->
  f ∈ probe_fine_centroids_parts l0 l1 routing l2 query -> is_u32 f.
Proof.
  intros H2. unfold probe_fine_centroids_parts. destruct (negb _); [by intros ?%not_elem_of_nil|].
  intros Hf%dedup_subset. rewrite sort_by_perm in Hf. apply elem_of_concat in Hf as (fs & Hf & Hc).
  apply list_elem_of_fmap in Hc as (c & -> & _). rewrite probe_coarse_cell_alt in Hf.
  assert (f ∈ probe_l1_fines l0 l1 query c -> is_u32 f) as Hl1.
  { unfold probe_l1_fines. destruct (l1 !! c) as [seg|]; [|by intros ?%not_elem_of_nil].
    intros (x & -> & _)%list_elem_of_fmap. unfold global_fine_id, wrap32, is_u32, u32_max.
    pose proof (Z.mod_pos_bound (global_id_start l0 c + x) (2 ^ 32)). lia. }
  destruct (1 <? _); [|by apply Hl1]. destruct (l2_rank _ _ _ _ _) as [|p ranked]; [by apply Hl1|].
  apply elem_of_concat in Hf as (gs & Hf & Hg). apply list_elem_of_fmap in Hg as (l & -> & _).
  unfold probe_l2_fines in Hf. destruct (l2 !! (c, l)) as [seg|] eqn:Hs; [|by apply not_elem_of_nil in Hf].
  apply list_elem_of_fmap in Hf as (x & -> & Hx). apply H2 in Hs.
  apply top_m_range in Hx. unfold sat_add32, is_u32, u32_max. lia.
Qed.

(** Two indexes that give the same answers to [query]. *)
Definition same_answers {IO : IterOrder} {VL : VectorLib} (query : list f64) (vi vi' : VectorIndex) : Prop :=
  (forall top_k, query_ann vi' query top_k = query_ann vi query top_k) /\
  ann_candidate_doc_ids vi' query = ann_candidate_doc_ids vi query /\
  (forall top_k view_vector, rerank_top_k vi' query top_k view_vector = rerank_top_k vi query top_k view_vector).

Lemma fold_left_ext_in {A B} (f g : A -> B -> A) l a :
  (forall x b, b ∈ l -> f x b = g x b) -> fold_left f l a = fold_left g l a.
Proof.
  revert a. induction l as [|b l IH]; intros a H; [done|]. cbn. rewrite H by left. apply IH.
  intros x c Hc. apply H. by right.
Qed.

Lemma same_answers_intro {IO : IterOrder} {VL : VectorLib} query vi vi' :
  vi_l0 vi' = vi_l0 vi -> probe_fine_centroids vi' query = probe_fine_centroids vi query ->
  (forall f, f ∈ probe_fine_centroids vi query -> vi_clusters vi' !! f = vi_clusters vi !! f) ->
  same_answers query vi vi'.
Proof.
  intros Hl0 Hp Hc.
  assert (ann_candidate_doc_ids vi' query = ann_candidate_doc_ids vi query) as Hcand.
  { unfold ann_candidate_doc_ids. rewrite Hp. apply fold_left_ext_in. intros x f Hf. by rewrite Hc. }
  split_and!; [|done|].
  - intros top_k. unfold query_ann. rewrite Hl0, Hp. destruct (negb _); [done|]. do 3 f_equal.
    apply fold_left_ext_in. intros x f Hf. by rewrite Hc.
  - intros top_k view. unfold rerank_top_k, ann_pool_doc_ids. by rewrite Hl0, Hcand.
Qed.

Section Assembly.
Context {IO : IterOrder} {SC : SegmentCodec} {VL : VectorLib}.
Context (objs : Objects) (ns field : string) (meta : NamespaceMeta) (query : list f64) (vi : VectorIndex).
Hypothesis Hstored : index_stored objs ns field vi.
Hypothesis Hpaths : vector_index_uses_legacy_paths meta field = false.

Local Notation l0 := (vi_l0 vi).
Local Notation cells := (nearest_coarse l0 query (probe_coarse_count l0)).

(** The (cell, partition) pairs of the L2 objects a query reads. *)
Definition l2_pairs : list (Z * Z) :=
  match vi_routing vi with
  | Some r => concat ((fun c => if l2_count_for_coarse r c <=? 1 then [] else (fun l => (c, l)) <$> range0 (l2_count_for_coarse r c)) <$> cells)
  | None => []
  end.

Lemma l2_key_list_pairs :
  l2_key_list ns field l0 (vi_routing vi) query = (fun p : Z * Z => l2_key ns field p.1 p.2) <$> l2_pairs.
Proof.
  unfold l2_key_list, l2_keys_for_query_probe, l2_pairs. destruct (vi_routing vi) as [r|]; [|done].
  induction cells as [|c cs IH]; [done|]. cbn [fmap list_fmap concat]. rewrite fmap_app, <- IH. f_equal.
  destruct (_ <=? 1); [done|]. rewrite <- list_fmap_compose. done.
Qed.

Lemma l2_pairs_elem c l :
  (c, l) ∈ l2_pairs <-> c ∈ cells /\ 1 < parts_of (vi_routing vi) c /\ 0 <= l < parts_of (vi_routing vi) c.
Proof.
  unfold l2_pairs, parts_of. destruct (vi_routing vi) as [r|]; [|rewrite elem_of_nil; lia].
  rewrite elem_of_concat. setoid_rewrite list_elem_of_fmap. split.
  - intros (ps & Hp & c' & -> & Hc'). destruct (_ <=? 1) eqn:E; case_bool; [by apply not_elem_of_nil in Hp|].
    apply list_elem_of_fmap in Hp as (l' & [=-> ->] & Hl). apply elem_of_seqZ in Hl. split_and!; [done|lia..].
  - intros (Hc & H1 & Hl). eexists. split; [|exists c; split; [reflexivity|done]].
    destruct (_ <=? 1) eqn:E; case_bool; [lia|]. apply list_elem_of_fmap. exists l.
    split; [done|]. apply elem_of_seqZ. lia.
Qed.

Lemma decoded_routing keys routing' :
  decode_routing_probed ns field l0 (fetched_of objs keys) = Ok routing' ->
  (l0_has_routing l0 = true -> routing_key ns field ∈ keys) -> routing' = vi_routing vi.
Proof.
  unfold decode_routing_probed. intros Hr Hkr. rewrite (is_routing _ _ _ _ Hstored).
  destruct (l0_has_routing l0); [|by injection Hr as <-].
  cbn [negb] in Hr. rewrite fetched_of_lookup, decide_True in Hr by auto.
  destruct (fst <$> objs !! routing_key ns field) as [b|]; cbn in *; [|by injection Hr as <-].
  destruct (routing_deserialize b); [by injection Hr as <-|done].
Qed.

(** What is decoded from any set of fetched objects that covers the probe. *)
Lemma decoded_probe keys l1' routing' l2' :
  decode_l1_probed ns meta field l0 (fetched_of objs keys) = Ok l1' ->
  decode_routing_probed ns field l0 (fetched_of objs keys) = Ok routing' ->
  decode_l2_probed (fetched_of objs keys) (l2_key_list ns field l0 routing' query) ∅ = Ok l2' ->
  (forall c, c ∈ cells -> l1_key ns field c ∈ keys) ->
  (l0_has_routing l0 = true -> routing_key ns field ∈ keys) ->
  (forall k, k ∈ l2_key_list ns field l0 (vi_routing vi) query -> k ∈ keys) ->
  routing' = vi_routing vi /\
  probe_fine_centroids_parts l0 l1' routing' l2' query = probe_fine_centroids vi query.
Proof.
  intros Hl1 Hr Hl2 Hk1 Hkr Hk2. destruct Hstored as [Scells S1 Sr S2 S2i _ _].
  assert (routing' = vi_routing vi) as -> by by eapply decoded_routing.
  split; [done|]. apply probe_parts_ext. intros c Hc.
  pose proof (nearest_coarse_range _ _ _ _ Hc) as Hrange. split.
  - unfold decode_l1_probed in Hl1. rewrite Hpaths in Hl1. rewrite (decode_each_lookup _ _ _ _ _ _ _ _ Hl1).
    rewrite decide_True by (apply elem_of_seqZ; lia).
    rewrite fetched_of_lookup, decide_True, S1, lookup_empty by (auto || lia).
    fold keep_all. by destruct (decoded keep_all l1_deserialize _).
  - intros l Hone Hl. rewrite S2 by done. rewrite l2_key_list_pairs in Hl2, Hk2.
    rewrite (decode_l2_lookup ns field _ _ _ _ Hl2), lookup_empty.
    2: { intros p b seg Hp Hb Hs. destruct p as [c' l']. apply fetched_of_some in Hb as [_ Hb].
      apply l2_pairs_elem in Hp as (_ & _ & Hp). by eapply S2i. }
    destruct (decide ((c, l) ∈ l2_pairs)) as [Hin|Hin].
    + assert (l2_key ns field c l ∈ keys) as Hk
        by (apply Hk2, list_elem_of_fmap; exists (c, l); done).
      cbn [fst snd]. rewrite fetched_of_lookup, decide_True by done.
      destruct (fst <$> objs !! l2_key ns field c l) as [b|]; cbn; [|done]. by destruct (l2_deserialize b).
    + destruct Hin. by apply l2_pairs_elem.
Qed.

(** The keys of the four rounds of a probed query, and the index they give. *)
Lemma probed_assembly l1_keys routing_keys routing' cluster_keys vi' n :
  let l2_keys := l2_key_list ns field l0 routing' query in
  l1_keys_for_query_probe ns meta field l0 query = Ok l1_keys ->
  routing_keys = match routing_key_for_field ns field l0 with Some k => [k] | None => [] end ->
  decode_routing_probed ns field l0 (fetched_of objs (l1_keys ++ routing_keys)) = Ok routing' ->
  cluster_keys_for_query_after_l1 ns meta field l0 (fetched_of objs ((l1_keys ++ routing_keys) ++ l2_keys)) query
    = Ok cluster_keys ->
  assemble_vector_index_probed ns meta field l0
    (fetched_of objs (((l1_keys ++ routing_keys) ++ l2_keys) ++ cluster_keys)) query = Ok (vi', n) ->
  vi_l0 vi' = l0 /\ same_answers query vi vi' /\ n = Z.min (lenZ (probe_fine_centroids vi query)) u32_max.
Proof.
  intros l2_keys Hk1 Hkr Hr Hc Ha.
  unfold l1_keys_for_query_probe, index_dir in Hk1. rewrite Hpaths in Hk1.
  destruct (validate_cold_namespace ns) as [[]|] eqn:Hv1; [|done].
  destruct (validate_cold_vector_field field) as [[]|] eqn:Hv2; [|done].
  cbn [result_bind] in Hk1. destruct (validate_cold_s3_keys _) as [[]|] in Hk1; [|done]. injection Hk1 as Hk1.
  assert (l0_has_routing l0 = true -> routing_key ns field ∈ l1_keys ++ routing_keys) as Hkr'.
  { intros Hb. rewrite Hkr. unfold routing_key_for_field. rewrite Hb. apply elem_of_app. right. by left. }
  assert (routing' = vi_routing vi) as -> by by eapply decoded_routing.
  assert (forall keys : list string, (forall k, k ∈ (l1_keys ++ routing_keys) ++ l2_keys -> k ∈ keys) ->
    (forall c, c ∈ cells -> l1_key ns field c ∈ keys) /\ (l0_has_routing l0 = true -> routing_key ns field ∈ keys) /\
    (forall k, k ∈ l2_key_list ns field l0 (vi_routing vi) query -> k ∈ keys)) as Hcover.
  { intros keys Hk. split_and!.
    - intros c Hin. apply Hk. rewrite <- Hk1, !elem_of_app, list_elem_of_fmap. left. left. by exists c.
    - intros Hb. apply Hk, elem_of_app. left. auto.
    - intros k Hin. apply Hk, elem_of_app. by right. }
  unfold cluster_keys_for_query_after_l1 in Hc.
  destruct (decode_l1_probed ns meta field l0 _) as [l1a|] eqn:E1 in Hc; [|done]. cbn [result_bind] in Hc.
  destruct (decode_routing_probed ns field l0 _) as [ra|] eqn:Er in Hc; [|done]. cbn [result_bind] in Hc.
  destruct (decode_l2_probed _ _ ∅) as [l2a|] eqn:E2 in Hc; [|done]. cbn [result_bind] in Hc.
  destruct (Hcover _ (fun k H => H)) as (C1 & C2 & C3).
  destruct (decoded_probe _ _ _ _ E1 Er E2 C1 C2 C3) as [-> Hprobe].
  unfold cluster_keys_for_query, index_dir in Hc. rewrite Hv1, Hv2, Hpaths, Hprobe in Hc. cbn [result_bind] in Hc.
  destruct (validate_cold_s3_keys _) as [[]|] in Hc; [|done]. injection Hc as Hc.
  unfold assemble_vector_index_probed in Ha.
  destruct (decode_l1_probed ns meta field l0 _) as [l1b|] eqn:F1 in Ha; [|done]. cbn [result_bind] in Ha.
  destruct (decode_routing_probed ns field l0 _) as [rb|] eqn:Fr in Ha; [|done]. cbn [result_bind] in Ha.
  destruct (decode_l2_probed _ _ ∅) as [l2b|] eqn:F2 in Ha; [|done]. cbn [result_bind] in Ha.
  destruct (Hcover (((l1_keys ++ routing_keys) ++ l2_keys) ++ cluster_keys)) as (D1 & D2 & D3).
  { intros k Hk. apply elem_of_app. by left. }
  destruct (decoded_probe _ _ _ _ F1 Fr F2 D1 D2 D3) as [-> Hprobe']. rewrite Hprobe' in Ha.
  destruct (decode_clusters_probed _ _ _ _ _) as [cb|] eqn:Fc in Ha; [|done]. injection Ha as <- <-.
  split; [done|]. split; [|done]. apply same_answers_intro; [done|done|]. intros f Hf. cbn [vi_clusters].
  unfold decode_clusters_probed in Fc. rewrite Hpaths in Fc.
  rewrite (decode_each_lookup _ _ _ _ _ _ _ _ Fc), decide_True, (is_clusters _ _ _ _ Hstored), lookup_empty
    by (done || by eapply probe_ids_u32; [apply (is_l2_start _ _ _ _ Hstored)|exact Hf]).
  rewrite fetched_of_lookup, decide_True.
  - fold is_nil. by destruct (decoded is_nil cluster_deserialize _).
  - apply elem_of_app. right. rewrite <- Hc. apply list_elem_of_fmap. by exists f.
Qed.
End Assembly.

(** ** Both paths *)

Lemma fetched_of_insert objs k keys b :
  fst <$> objs !! k = Some b -> <[k := b]> (fetched_of objs keys) = fetched_of objs (keys ++ [k]).
Proof.
  intros Hb. apply map_eq. intros j. rewrite fetched_of_lookup. destruct (decide (j = k)) as [->|Hj].
  - by rewrite lookup_insert_eq, decide_True by (apply elem_of_app; right; by left).
  - rewrite lookup_insert_ne, fetched_of_lookup by done.
    destruct (decide (j ∈ keys)), (decide (j ∈ keys ++ [k])) as [H|H];
      rewrite elem_of_app, list_elem_of_singleton in H; naive_solver.
Qed.

Section ProbeReads.
Context {IO : IterOrder} {WC : WalCodec} {MC : MetaCodec} {S : ObjectStore} {SL : StoreLaws} {CO : CompletionOrder}.
Context {SC : SegmentCodec} {VL : VectorLib} {LC : LocalCache} {CR : CachedReads} {CL : CachedReadsLaws}.
Context (ns : string) (meta : NamespaceMeta) (field : string) (query : list f64).
Hypothesis Hpaths : vector_index_uses_legacy_paths meta field = false.

Lemma cold_probe_reads max_keys max_probe_clusters l0 :
  0 < max_keys ->
  reads (fetch_cold_vector_probed max_keys max_probe_clusters ns meta field l0 query) (fun objs out =>
    let '(vi', _, _, n) := out in
    forall vi, index_stored objs ns field vi -> vi_l0 vi = clamp_probe_plan_for_query max_probe_clusters l0 ->
      same_answers query vi vi' /\ n = Z.min (lenZ (probe_fine_centroids vi query)) u32_max).
Proof.
  intros Hmax w. unfold fetch_cold_vector_probed. set (l0' := clamp_probe_plan_for_query max_probe_clusters l0).
  apply st_post_bind, st_post_result. destruct (validate_cold_namespace ns) as [[]|]; [|done].
  apply st_post_bind, st_post_result. destruct (validate_cold_vector_field field) as [[]|]; [|done].
  apply st_post_bind, st_post_result.
  destruct (l1_keys_for_query_probe ns meta field l0' query) as [l1_keys|] eqn:Hk1; [|done].
  apply st_post_bind. eapply st_post_mono; [by apply fetch_round_reads|]. intros w1 [f1|] [Ho1 H1]; [|done].
  destruct H1 as [-> _]. set (rk := match routing_key_for_field ns field l0' with Some k => [k] | None => [] end).
  apply st_post_bind. eapply st_post_mono; [by apply fetch_round_reads|]. rewrite Ho1.
  intros w2 [f2|] [Ho2 H2]; [|done]. destruct H2 as [-> _]. rewrite fetched_of_app.
  apply st_post_bind, st_post_result. destruct (decode_routing_probed ns field l0' _) as [routing|] eqn:Hr; [|done].
  apply st_post_bind. eapply st_post_mono; [by apply fetch_round_reads|]. rewrite Ho2.
  intros w3 [f3|] [Ho3 H3]; [|done]. destruct H3 as [-> _]. rewrite fetched_of_app.
  apply st_post_bind, st_post_result.
  destruct (cluster_keys_for_query_after_l1 ns meta field l0' _ query) as [ck|] eqn:Hc; [|done].
  apply st_post_bind. eapply st_post_mono; [by apply fetch_round_reads|]. rewrite Ho3.
  intros w4 [f4|] [Ho4 H4]; [|done]. destruct H4 as [-> _]. rewrite fetched_of_app.
  apply st_post_bind, st_post_result.
  destruct (assemble_vector_index_probed ns meta field l0' _ query) as [[vi' n]|] eqn:Ha; [|done].
  split; [done|]. intros vi Hst Hl0. fold l0' in Hl0. clearbody l0'. subst l0'.
  pose proof (probed_assembly (objects w) ns field meta query vi Hst Hpaths l1_keys rk routing ck vi' n Hk1 eq_refl Hr Hc Ha). tauto.
Qed.

Lemma cache_lookup_creads k :
  creads (cold_ns (cache_get k)) (fun objs o => fst <$> objs !! k = o).
Proof.
  intros w Hw. pose proof (cache_get_spec k w Hw) as H. unfold st_post, cold_ns in *.
  destruct (cache_get k w) as [w' [[b|]|e]]; cbn in *; [| |done].
  - destruct H as (H1 & H2 & t & ->). done.
  - destruct H as (H1 & H2 & ->). done.
Qed.

Lemma cache_fetch_creads keys out :
  creads (fetch_index_objects_from_cache keys out) (fun objs m => m = fetched_of objs keys ∪ out).
Proof.
  revert out. induction keys as [|k keys IH]; intros out.
  { apply creads_ret. intros objs. by rewrite fetched_of_nil, map_empty_union. }
  cbn [fetch_index_objects_from_cache]. intros w Hw. apply st_post_bind.
  eapply st_post_mono; [by apply cache_lookup_creads|]. intros w1 [o|e] (Hw1 & Ho1 & Ho); [|done].
  eapply st_post_mono; [by apply IH|]. rewrite Ho1. intros w2 [m|e] (Hw2 & Ho2 & Hm); [|done].
  split_and!; [done..|]. rewrite Hm. destruct o as [b|].
  - by apply fetched_of_cons_present.
  - by rewrite fetched_of_cons_absent by (by destruct (objects w !! k)).
Qed.

Lemma warm_probe_creads l0 :
  creads (load_vector_index_probed_for_query ns meta field l0 query) (fun objs out =>
    forall vi, index_stored objs ns field vi -> vi_l0 vi = l0 ->
      same_answers query vi out.1 /\ out.2 = Z.min (lenZ (probe_fine_centroids vi query)) u32_max).
Proof.
  intros w Hw. unfold load_vector_index_probed_for_query. apply st_post_bind, st_post_result.
  destruct (l1_keys_for_query_probe ns meta field l0 query) as [l1_keys|] eqn:Hk1; [|done].
  apply st_post_bind. eapply st_post_mono; [by apply cache_fetch_creads|].
  intros w1 [f1|] (Hw1 & Ho1 & H1); [|done]. rewrite map_union_empty in H1. subst f1.
  set (rk := match routing_key_for_field ns field l0 with Some k => [k] | None => [] end).
  apply st_post_bind.
  eapply (st_post_mono _ _ (fun w' r => cache_inv w' /\ objects w' = objects w /\
    match r with
    | Ok o => match o with Some (k, b) => <[k := b]> (fetched_of (objects w) l1_keys) | None => fetched_of (objects w) l1_keys end
              = fetched_of (objects w) (l1_keys ++ rk)
    | Err _ => True
    end)).
  { subst rk. destruct (routing_key_for_field ns field l0) as [k|]; [|split_and!; [done..|by rewrite app_nil_r]].
    apply st_post_bind. eapply st_post_mono; [by apply cache_lookup_creads|].
    intros w2 [o|] (Hw2 & Ho2 & Ho); rewrite Ho1 in *; [|done]. split_and!; [done..|]. unfold st_ret. cbn [snd].
    destruct o as [b|]; cbn; [by apply fetched_of_insert|].
    rewrite (Permutation_app_comm l1_keys [k]). cbn [app].
    by rewrite fetched_of_cons_absent by (by destruct (objects w !! k)). }
  intros w2 [o|] (Hw2 & Ho2 & Hrt); [|done]. rewrite Hrt.
  apply st_post_bind, st_post_result. destruct (decode_routing_probed ns field l0 _) as [routing|] eqn:Hr; [|done].
  apply st_post_bind. eapply st_post_mono; [by apply cache_fetch_creads|].
  intros w3 [f3|] (Hw3 & Ho3 & H3); rewrite Ho2 in *; [|done]. rewrite map_union_empty in H3. subst f3.
  rewrite fetched_of_app. apply st_post_bind, st_post_result.
  destruct (cluster_keys_for_query_after_l1 ns meta field l0 _ query) as [ck|] eqn:Hc; [|done].
  apply st_post_bind. eapply st_post_mono; [by apply cache_fetch_creads|].
  intros w4 [f4|] (Hw4 & Ho4 & H4); rewrite Ho3 in *; [|done]. rewrite map_union_empty in H4. subst f4.
  rewrite fetched_of_app. apply st_post_result. split_and!; [done..|].
  destruct (assemble_vector_index_probed ns meta field l0 _ query) as [[vi' n]|] eqn:Ha; [|done].
  intros vi Hst Hl0. subst l0.
  pose proof (probed_assembly (objects w) ns field meta query vi Hst Hpaths l1_keys rk routing ck vi' n Hk1 eq_refl Hr Hc Ha). tauto.
Qed.
End ProbeReads.

(** ** A probed fetch succeeds *)

Section ProbeTotal.
Context {IO : IterOrder} {WC : WalCodec} {MC : MetaCodec} {S : ObjectStore} {SL : StoreLaws} {SR : StoreReliable}.
Context {CO : CompletionOrder} {SC : SegmentCodec} {VL : VectorLib}.

Lemma succeeds_ok {A B} (a : A) (k : A -> St ColdError B) objs :
  succeeds (k a) objs -> succeeds (st_bind (st_result (Ok a)) k) objs.
Proof. done. Qed.

Lemma decode_each_total {A} fetched key legacy skip (decode : bytes -> option A) ids acc :
  (forall j b, j ∈ ids -> fetched !! key j = Some b -> skip b = false -> is_Some (decode b)) ->
  exists m, decode_each fetched key legacy false skip decode ids acc = Ok m.
Proof.
  revert acc. induction ids as [|id ids IH]; intros acc H; cbn [decode_each]; [by eexists|].
  assert (forall j b, j ∈ ids -> fetched !! key j = Some b -> skip b = false -> is_Some (decode b)) as H'
    by (intros; eapply H; [by right|done..]).
  assert (fetched_segment fetched (key id) false (legacy id) = fetched !! key id) as ->
    by (unfold fetched_segment; by destruct (fetched !! key id)).
  destruct (fetched !! key id) as [b|] eqn:Hb; [|by apply IH]. destruct (skip b) eqn:Hs; [by apply IH|].
  destruct (H id b ltac:(by left) Hb Hs) as [a ->]. by apply IH.
Qed.

Lemma decode_l2_total fetched keys acc :
  (forall k b, k ∈ keys -> fetched !! k = Some b -> is_Some (l2_deserialize b)) ->
  exists m, decode_l2_probed fetched keys acc = Ok m.
Proof.
  revert acc. induction keys as [|k keys IH]; intros acc H; cbn [decode_l2_probed]; [by eexists|].
  assert (forall k' b, k' ∈ keys -> fetched !! k' = Some b -> is_Some (l2_deserialize b)) as H'
    by (intros; eapply H; [by right|done]).
  destruct (fetched !! k) as [b|] eqn:Hb; [|by apply IH]. destruct (H k b) as [a ->]; [by left|done|by apply IH].
Qed.

(** Every object of the index decodes, the centroids a probe needs are there,
    and the names pass the key checks. *)
Record probe_readable (objs : Objects) (ns field : string) (query : list f64) (vi : VectorIndex) : Prop := {
  pr_namespace : validate_cold_namespace ns = Ok tt;
  pr_field : validate_cold_vector_field field = Ok tt;
  pr_l1_keys : validate_cold_s3_keys
    (l1_key ns field <$> nearest_coarse (vi_l0 vi) query (probe_coarse_count (vi_l0 vi))) = Ok tt;
  pr_routing_key : validate_cold_s3_keys [routing_key ns field] = Ok tt;
  pr_l2_keys : validate_cold_s3_keys (l2_key_list ns field (vi_l0 vi) (vi_routing vi) query) = Ok tt;
  pr_cluster_keys : validate_cold_s3_keys (cluster_key ns field <$> probe_fine_centroids vi query) = Ok tt;
  pr_l1 : all_present objs
    (l1_key ns field <$> nearest_coarse (vi_l0 vi) query (probe_coarse_count (vi_l0 vi)));
  pr_l2 : all_present objs (l2_key_list ns field (vi_l0 vi) (vi_routing vi) query);
  pr_l1_decodes : forall c b, 0 <= c < l0_num_coarse (vi_l0 vi) -> fst <$> objs !! l1_key ns field c = Some b -> is_Some (l1_deserialize b);
  pr_routing_decodes : forall b, fst <$> objs !! routing_key ns field = Some b -> is_Some (routing_deserialize b);
  pr_l2_decodes : forall c l b, 0 <= l < parts_of (vi_routing vi) c -> fst <$> objs !! l2_key ns field c l = Some b -> is_Some (l2_deserialize b);
  pr_clusters_decode : forall f b, f ∈ probe_fine_centroids vi query -> fst <$> objs !! cluster_key ns field f = Some b -> is_nil b = false ->
    is_Some (cluster_deserialize b)
}.

Context (objs : Objects) (ns field : string) (meta : NamespaceMeta) (query : list f64) (vi : VectorIndex).
Hypothesis Hstored : index_stored objs ns field vi.
Hypothesis Hread : probe_readable objs ns field query vi.
Hypothesis Hpaths : vector_index_uses_legacy_paths meta field = false.

Local Notation l0 := (vi_l0 vi).
Local Notation l1_keys := (l1_key ns field <$> nearest_coarse l0 query (probe_coarse_count l0)).
Local Notation l2_keys := (l2_key_list ns field l0 (vi_routing vi) query).

Lemma decode_routing_total keys : exists r, decode_routing_probed ns field l0 (fetched_of objs keys) = Ok r.
Proof.
  unfold decode_routing_probed. destruct (l0_has_routing l0); [|by eexists]. cbn [negb].
  destruct (fetched_of objs keys !! routing_key ns field) as [b|] eqn:Hb; [|by eexists].
  apply fetched_of_some in Hb as [_ Hb]. destruct (pr_routing_decodes _ _ _ _ _ Hread b Hb) as [r ->]. by eexists.
Qed.

(** The three centroid levels decode from any fetched set that covers the probe. *)
Lemma decode_parts_total keys :
  (forall k, k ∈ (l1_keys ++ (match routing_key_for_field ns field l0 with Some k => [k] | None => [] end)) ++ l2_keys ->
     k ∈ keys) ->
  exists l1' l2', decode_l1_probed ns meta field l0 (fetched_of objs keys) = Ok l1' /\
    decode_routing_probed ns field l0 (fetched_of objs keys) = Ok (vi_routing vi) /\
    decode_l2_probed (fetched_of objs keys) l2_keys ∅ = Ok l2' /\
    probe_fine_centroids_parts l0 l1' (vi_routing vi) l2' query = probe_fine_centroids vi query.
Proof.
  intros Hk.
  assert (l0_has_routing l0 = true -> routing_key ns field ∈ keys) as Hkr.
  { intros Hb. apply Hk. unfold routing_key_for_field. rewrite Hb, !elem_of_app. left. right. by left. }
  assert (exists l1', decode_l1_probed ns meta field l0 (fetched_of objs keys) = Ok l1') as [l1' E1].
  { unfold decode_l1_probed. rewrite Hpaths. apply decode_each_total. intros c b Hc Hb _. apply elem_of_seqZ in Hc.
    apply fetched_of_some in Hb as [_ Hb]. eapply (pr_l1_decodes _ _ _ _ _ Hread); [|done]. lia. }
  destruct (decode_routing_total keys) as [r Er].
  pose proof (decoded_routing objs ns field vi Hstored keys r Er Hkr) as ->.
  assert (exists l2', decode_l2_probed (fetched_of objs keys) l2_keys ∅ = Ok l2') as [l2' E2].
  { apply decode_l2_total. rewrite l2_key_list_pairs. intros k b Hin Hb.
    apply list_elem_of_fmap in Hin as ([c l] & -> & (_ & _ & Hin)%l2_pairs_elem). apply fetched_of_some in Hb as [_ Hb].
    by eapply (pr_l2_decodes _ _ _ _ _ Hread). }
  exists l1', l2'. split_and!; [done..|].
  eapply (decoded_probe objs ns field meta query vi Hstored Hpaths keys l1' (vi_routing vi) l2' E1 Er E2);
    [|done|]; intros x Hx; apply Hk; rewrite !elem_of_app; [left; left; by apply list_elem_of_fmap_2|by right].
Qed.

Lemma cold_probe_succeeds max_keys max_probe_clusters lq :
  0 < max_keys -> l0 = clamp_probe_plan_for_query max_probe_clusters lq ->
  succeeds (fetch_cold_vector_probed max_keys max_probe_clusters ns meta field lq query) objs.
Proof.
  intros Hmax Hl0. destruct Hread as [Hn Hf V1 Vr V2 Vc P1 P2 _ _ _ Dc]. unfold fetch_cold_vector_probed.
  rewrite <- Hl0, Hn, Hf. do 2 apply succeeds_ok. unfold l1_keys_for_query_probe, index_dir.
  rewrite Hpaths, Hn, Hf. cbn [result_bind]. rewrite V1. cbn [result_bind]. apply succeeds_ok.
  eapply succeeds_bind; [by apply fetch_round_reads|by apply fetch_round_succeeds|]. intros f1 [-> _].
  set (rk := match routing_key_for_field ns field l0 with Some k => [k] | None => [] end).
  eapply succeeds_bind; [by apply fetch_round_reads|apply fetch_round_succeeds; [done| |done]|].
  { subst rk. unfold routing_key_for_field. by destruct (l0_has_routing l0). }
  intros f2 [-> _]. rewrite fetched_of_app.
  destruct (decode_routing_total (l1_keys ++ rk)) as [r Er].
  assert (r = vi_routing vi) as ->.
  { eapply decoded_routing; [done|exact Er|]. intros Hb. subst rk. unfold routing_key_for_field. rewrite Hb.
    apply elem_of_app. right. by left. }
  rewrite Er. apply succeeds_ok.
  eapply succeeds_bind; [by apply fetch_round_reads|by apply fetch_round_succeeds|]. intros f3 [-> _].
  rewrite fetched_of_app. destruct (decode_parts_total ((l1_keys ++ rk) ++ l2_keys)) as (l1a & l2a & E1 & E2 & E3 & E4);
    [done|].
  unfold cluster_keys_for_query_after_l1. rewrite E1. cbn [result_bind]. rewrite E2. cbn [result_bind]. rewrite E3.
  cbn [result_bind]. unfold cluster_keys_for_query, index_dir. rewrite Hn, Hf, Hpaths, E4. cbn [result_bind]. rewrite Vc.
  cbn [result_bind]. apply succeeds_ok.
  eapply succeeds_bind; [by apply fetch_round_reads|by apply fetch_round_succeeds|]. intros f4 [-> _].
  rewrite fetched_of_app.
  destruct (decode_parts_total (((l1_keys ++ rk) ++ l2_keys) ++ (cluster_key ns field <$> probe_fine_centroids vi query)))
    as (l1b & l2b & F1 & F2 & F3 & F4); [intros k Hk; apply elem_of_app; by left|].
  unfold assemble_vector_index_probed. rewrite F1. cbn [result_bind]. rewrite F2. cbn [result_bind]. rewrite F3.
  cbn [result_bind]. rewrite F4. unfold decode_clusters_probed. rewrite Hpaths.
  edestruct (decode_each_total (A := ClusterSegment)) as [cs ->]; [|apply succeeds_ok, succeeds_ret].
  intros j b Hj Hb Hs. apply fetched_of_some in Hb as [_ Hb]. by eapply Dc.
Qed.
End ProbeTotal.

(** ** Theorem *)

(** C40: a vector query may fetch only what its probe plan names.  The index
    assembled from the probed centroid and cluster objects has the same
    approximate answers, the same candidates and the same reranked answers as
    the index the store holds, whether the objects are read from the store in
    rounds or through the segment cache; and on a reliable store the rounds
    succeed when the objects of the index decode and the probed centroids
    exist. *)
Theorem probed_query_exact {IO : IterOrder} {WC : WalCodec} {MC : MetaCodec} {S : ObjectStore} {SL : StoreLaws}
    {CO : CompletionOrder} {SC : SegmentCodec} {VL : VectorLib} {LC : LocalCache} {CR : CachedReads}
    {CL : CachedReadsLaws} max_keys max_probe_clusters ns meta field l0 query vi w :
  0 < max_keys -> vector_index_uses_legacy_paths meta field = false -> index_stored (objects w) ns field vi ->
  (vi_l0 vi = clamp_probe_plan_for_query max_probe_clusters l0 ->
   match (fetch_cold_vector_probed max_keys max_probe_clusters ns meta field l0 query w).2 with
   | Ok (vi', _, _, probed) =>
       same_answers query vi vi' /\ probed = Z.min (lenZ (probe_fine_centroids vi query)) u32_max
   | Err _ => StoreReliable -> probe_readable (objects w) ns field query vi -> False
   end) /\
  (vi_l0 vi = l0 -> cache_inv w ->
   match (load_vector_index_probed_for_query ns meta field l0 query w).2 with
   | Ok (vi', probed) =>
       same_answers query vi vi' /\ probed = Z.min (lenZ (probe_fine_centroids vi query)) u32_max
   | Err _ => True
   end).
Proof.
  intros Hmax Hpaths Hst. split; intros Hl0.
  - pose proof (cold_probe_reads ns meta field query Hpaths max_keys max_probe_clusters l0 Hmax w) as Hr.
    unfold st_post in Hr.
    destruct (fetch_cold_vector_probed _ _ _ _ _ _ _ w) as [w' [[[[vi' rt] nk] n]|e]] eqn:E; cbn in Hr |- *.
    + destruct Hr as [_ Hr]. by apply Hr.
    + intros SR Hrd. destruct (cold_probe_succeeds (objects w) ns field meta query vi Hst Hrd Hpaths
        max_keys max_probe_clusters l0 Hmax Hl0 w eq_refl) as [a Ha].
      unfold yields, st_post in Ha. rewrite E in Ha. by destruct Ha.
  - intros Hw. pose proof (warm_probe_creads ns meta field query Hpaths l0 w Hw) as Hr. unfold st_post in Hr.
    destruct (load_vector_index_probed_for_query _ _ _ _ _ w) as [w' [[vi' n]|e]]; cbn in Hr |- *; [|done].
    destruct Hr as (_ & _ & Hr). by apply Hr.
Qed.

(** One document in one cluster. *)
Definition one_l0 : CentroidIndexL0 :=
  mkL0 1 "emb" 1 1 1 4 2 EuclideanSquared F32 [1] [[f64_of_Z 1]] ANN_VERSION_V2 false 0.
Definition one_l1 : CentroidIndexL1 := mkL1 1 0 0 1 [[f64_of_Z 1]].
Definition one_cluster : ClusterSegment := mkCluster 1 0 [mkMember "a" [f64_of_Z 1] None].
Definition one_index : VectorIndex := mkVectorIndex one_l0 {[ 0 := one_l1 ]} {[ 0 := one_cluster ]} None ∅.
Definition one_segments : SegmentCodec := segment_table [] [] [] [one_l1] [one_cluster].
Definition one_world : MemWorld :=
  mkMem (<[l1_key "ns" "emb" 0 := ([65], "t")]> {[ cluster_key "ns" "emb" 0 := ([65], "t") ]}) 0 [].

Lemma one_index_stored : @index_stored one_segments (mem_objects one_world) "ns" "emb" one_index.
Proof.
  split; try (cbn; done).
  - intros c Hc. assert (c = 0) as -> by (cbn in Hc; lia). vm_compute. reflexivity.
  - intros f Hf. destruct (decide (f = 0)) as [->|Hne]; [vm_compute; reflexivity|].
    assert (mem_objects one_world !! cluster_key "ns" "emb" f = None) as ->.
    { cbn [mem_objects one_world].
      assert (forall o, object_ok o -> o <> OCluster "emb" f -> object_key "ns" o <> object_key "ns" (OCluster "emb" f)) as Hk.
      { intros o Ho Hn E. rewrite !object_key_path in E.
        apply namespace_prefix_inj in E as [_ E]; [|reflexivity..]. by apply object_path_inj in E. }
      rewrite lookup_insert_ne, lookup_singleton_ne; [done| |].
      - apply (Hk (OCluster "emb" 0)); [done|congruence].
      - by apply (Hk (OL1 "emb" 0)). }
    cbn. by rewrite lookup_singleton_ne.
Qed.

Lemma probed_query_exact_witness :
  match (@fetch_cold_vector_probed calm_store in_order one_segments 128 64 "ns" default_meta "emb" one_l0
           [f64_of_Z 2] one_world).2 with
  | Ok (vi', _, _, probed) =>
      @same_answers canonical_order rfc4648 [f64_of_Z 2] one_index vi' /\ probed = 1
  | Err _ => False
  end.
Proof.
  pose proof (@probed_query_exact canonical_order demo_codec demo_metas calm_store calm_store_laws in_order
    one_segments rfc4648 (no_cache calm_store) (direct_reads calm_store) (direct_reads_laws _ _)
    128 64 "ns" default_meta "emb" one_l0 [f64_of_Z 2] one_index one_world eq_refl eq_refl one_index_stored) as [H _].
  exact (H eq_refl).
Defined.
