(* ===== verification/Storage.v ===== *)
(** * The storage facade ([storage.rs], [namespace_list_cache.rs])

    What the HTTP handlers call: existence, listing, copy and deletion of
    namespaces, loading a namespace for a query, the fetch of the probed part
    of a vector index, and the two halves of a write around the group-commit
    buffer.  The in-memory views and the listing cache are the state; they are
    passed and returned, also when an operation fails. *)

From Stdlib Require Import ZArith Lia Bool.
From stdpp Require Import base gmap strings list.
From S2P Require Import Prelude F64 Json Models Filter Keys Schema Meta Wal WalReplay ObjectStore Namespace Durability Compaction FilterIndex View ViewCache Export Buffer VectorEncoding Fts Vector Search VectorBuild Cache Indexer ColdFetch.

(** ** Requests on keys and prefixes *)

(** [HeadObject]: the length of an existing object. *)
Inductive HeadOutcome : Type :=
| HeadFound (content_length : option Z)
| HeadNotFound
| HeadErr (e : S3Error).

(** [HeadObject], one page of [ListObjectsV2] (keys and continuation token),
    [CopyObject] and [DeleteObjects], whose successful answer lists the keys it
    could not delete. *)
Class BucketOps {S : ObjectStore} : Type := {
  bucket_head : World -> string -> World * HeadOutcome;
  bucket_list : World -> string -> option string -> option Z -> World * result S3Error (list string * option string);
  bucket_copy : World -> string -> string -> World * result S3Error unit;
  bucket_delete : World -> list string -> World * result S3Error (list string)
}.

Inductive StorageError : Type :=
| SgNs (e : NsError)
| SgIx (e : IxError)
| SgCold (e : ColdError)
| SgWal (e : WalError)
| SgFilter (e : FilterError)
| SgLimit (e : LimitError)
| SgQuery (e : QueryError)
| SgS3 (e : S3Error)
| NamespaceNotFound
| SourceNotFound
| CopyToItself
| DestinationNotEmpty
| UnexpectedKeyPrefix (key : string).

Definition sg_map {S : ObjectStore} {E A} (f : E -> StorageError) (m : St E A) : St StorageError A := fun w =>
  let '(w', r) := m w in (w', match r with Ok a => Ok a | Err e => Err (f e) end).

Definition sg_result {S : ObjectStore} {E A} (f : E -> StorageError) (r : result E A) : St StorageError A :=
  st_result (match r with Ok a => Ok a | Err e => Err (f e) end).

(** ** The listing cache *)

Definition DEFAULT_NAMESPACE_LIST_TTL : Z := 30000.

Record NamespaceListCache : Type := mkListCache {
  lc_ttl : Z;
  lc_entry : option (list string * Z)
}.

Definition list_cache_new (ttl : Z) : NamespaceListCache := mkListCache ttl None.

(** [now] is the clock of [Instant::elapsed]. *)
Definition list_cache_get (now : Z) (c : NamespaceListCache) : option (list string) :=
  match lc_entry c with
  | None => None
  | Some (namespaces, cached_at) => if lc_ttl c <=? now - cached_at then None else Some namespaces
  end.

Definition list_cache_set (now : Z) (namespaces : list string) (c : NamespaceListCache) : NamespaceListCache :=
  mkListCache (lc_ttl c) (Some (namespaces, now)).

Definition list_cache_invalidate (c : NamespaceListCache) : NamespaceListCache := mkListCache (lc_ttl c) None.

(** ** Namespaces as sets of keys *)

Section Keyspace.
Context {S : ObjectStore} {BO : BucketOps}.

Definition object_exists (key : string) : St StorageError bool :=
  do? out <- st_lift (fun w => bucket_head w key);
  match out with
  | HeadFound _ => st_ret true
  | HeadNotFound => st_ret false
  | HeadErr e => st_err (SgS3 e)
  end.

Definition namespace_exists (name : string) : St StorageError bool :=
  do? found <- object_exists (meta_key name);
  if found then st_ret true
  else
    do? out <- st_lift (fun w => bucket_list w (namespace_prefix name) None (Some 1));
    match out with
    | Ok (keys, _) => st_ret (0 <? lenZ keys)
    | Err e => st_err (SgS3 e)
    end.

Definition require_namespace (name : string) : St StorageError unit :=
  do? found <- namespace_exists name;
  if found then st_ret tt else st_err NamespaceNotFound.

(** Each turn of the loop reads one page. *)
Fixpoint list_key_pages (fuel : nat) (prefix : string) (token : option string) (keys : list string)
  : St StorageError (list string) :=
  match fuel with
  | O => st_ret keys
  | Datatypes.S fuel =>
      do? out <- st_lift (fun w => bucket_list w prefix token None);
      match out with
      | Err e => st_err (SgS3 e)
      | Ok (page, next) =>
          match next with
          | None => st_ret (keys ++ page)
          | Some _ => list_key_pages fuel prefix next (keys ++ page)
          end
      end
  end.

Definition list_all_s3_keys (fuel : nat) (prefix : string) : St StorageError (list string) :=
  list_key_pages fuel prefix None [].

Fixpoint copy_keys (source_prefix dest_prefix : string) (keys : list string) : St StorageError unit :=
  match keys with
  | [] => st_ret tt
  | key :: rest =>
      do? suffix <- st_result (ok_or (strip_prefix source_prefix key) (UnexpectedKeyPrefix key));
      do? r <- st_lift (fun w => bucket_copy w key (dest_prefix +:+ suffix));
      match r with
      | Ok _ => copy_keys source_prefix dest_prefix rest
      | Err e => st_err (SgS3 e)
      end
  end.

(** The checks and the listing of [clone_namespace_s3], before the copies. *)
Definition clone_list (fuel : nat) (dest source : string) : St StorageError (list string) :=
  if String.eqb dest source then st_err CopyToItself
  else
    do? taken <- namespace_exists dest;
    if taken then st_err DestinationNotEmpty
    else
      do? found <- namespace_exists source;
      if negb found then st_err SourceNotFound
      else
        do? keys <- list_all_s3_keys fuel (namespace_prefix source);
        match keys with
        | [] => st_err SourceNotFound
        | _ => st_ret keys
        end.

Fixpoint delete_chunks (chunks : list (list string)) : St StorageError unit :=
  match chunks with
  | [] => st_ret tt
  | chunk :: rest =>
      do? r <- st_lift (fun w => bucket_delete w chunk);
      match r with
      | Ok _ => delete_chunks rest
      | Err e => st_err (SgS3 e)
      end
  end.

Definition delete_namespace_objects (fuel : nat) (name : string) : St StorageError unit :=
  do? had_namespace <- namespace_exists name;
  do? keys <- list_all_s3_keys fuel (namespace_prefix name);
  match keys with
  | [] => if had_namespace then st_ret tt else st_err NamespaceNotFound
  | _ => delete_chunks (chunks 1000 keys)
  end.
End Keyspace.

(** ** The process state *)

Record Storage {S : ObjectStore} : Type := mkStorage {
  sg_buffer : Manager;
  sg_views : ViewCache;
  sg_list_cache : NamespaceListCache
}.

#[global] Arguments mkStorage {S}.

Definition SgM {S : ObjectStore} (A : Type) : Type := Storage -> Storage * result StorageError A.

Section StorageMonad.
Context {S : ObjectStore}.

Definition sg_ret {A} (a : A) : SgM A := fun sg => (sg, Ok a).
Definition sg_err {A} (e : StorageError) : SgM A := fun sg => (sg, Err e).
Definition sg_bind {A B} (m : SgM A) (k : A -> SgM B) : SgM B := fun sg =>
  match m sg with
  | (sg', Ok a) => k a sg'
  | (sg', Err e) => (sg', Err e)
  end.

Definition put_world (w : World) (sg : Storage) : Storage :=
  mkStorage (set_world w (sg_buffer sg)) (sg_views sg) (sg_list_cache sg).

(** Requests to the store. *)
Definition sg_io {A} (m : St StorageError A) : SgM A := fun sg =>
  let '(w, r) := m (world (sg_buffer sg)) in (put_world w sg, r).

Definition modify_views (f : ViewCache -> ViewCache) : SgM unit := fun sg =>
  (mkStorage (sg_buffer sg) (f (sg_views sg)) (sg_list_cache sg), Ok tt).
Definition modify_list_cache (f : NamespaceListCache -> NamespaceListCache) : SgM unit := fun sg =>
  (mkStorage (sg_buffer sg) (sg_views sg) (f (sg_list_cache sg)), Ok tt).
Definition modify_buffer (f : Manager -> Manager) : SgM unit := fun sg =>
  (mkStorage (f (sg_buffer sg)) (sg_views sg) (sg_list_cache sg), Ok tt).
Definition sg_get {A} (f : Storage -> A) : SgM A := fun sg => (sg, Ok (f sg)).
End StorageMonad.

Notation "'do!' x <- m ; k" := (sg_bind m (fun x => k))
  (at level 20, x pattern, m at level 100, k at level 200) : puffer_scope.

Record LoadedNamespace : Type := mkLoaded {
  ln_docs : Docs;
  ln_meta : NamespaceMeta;
  ln_meta_etag : option string;
  ln_fts : option FtsSegment;
  ln_vectors : gmap string VectorIndex;
  ln_cold_vector_l0 : gmap string CentroidIndexL0;
  ln_filter_index : option FilterSegment;
  ln_tail_doc_ids : gset string;
  ln_storage_roundtrips : option Z;
  ln_cold_s3_keys_fetched : Z;
  ln_ann_probed_clusters : Z
}.

Record LimitsConfig : Type := mkLimits {
  max_upsert_rows : Z;
  max_filter_batch_rows : Z
}.

Section StorageOps.
Context {IO : IterOrder} {WC : WalCodec} {MC : MetaCodec} {S : ObjectStore} {BO : BucketOps} {LS : ListStore}.
Context {CO : CompletionOrder} {LC : LocalCache} {CR : CachedReads} {SC : SegmentCodec}.
Context {TL : TextLib} {FT : F64Text} {VL : VectorLib}.

(** Process configuration. *)
Context (policy : WalCorruptPolicy) (max_keys max_probe_clusters : Z) (ann_build : AnnBuildConfig).
Context (cache_enabled : bool) (limits : LimitsConfig).

Definition cold_batch : bool := negb cache_enabled.

(** ** Copy and deletion *)

Definition invalidate_namespace_list_cache : SgM unit := modify_list_cache list_cache_invalidate.

Definition remove_view (name : string) : SgM unit := modify_views (fun c => (vc_remove c name).1).

(** Only objects of the disk cache are touched by [invalidate_disk]. *)
Definition clone_namespace_s3 (fuel : nat) (invalidate_disk : string -> World -> World) (dest source : string) : SgM unit :=
  do! keys <- sg_io (clone_list fuel dest source);
  do! _ <- sg_io (copy_keys (namespace_prefix source) (namespace_prefix dest) keys);
  do! _ <- modify_buffer (drop_namespace dest);
  do! _ <- invalidate_namespace_list_cache;
  do! _ <- sg_io (fun w => (invalidate_disk dest w, Ok tt));
  remove_view dest.

(** The view is removed by a spawned task. *)
Definition invalidate_cache (invalidate_disk : string -> World -> World) (name : string) : SgM unit :=
  do! _ <- invalidate_namespace_list_cache;
  do! _ <- sg_io (fun w => (invalidate_disk name w, Ok tt));
  remove_view name.

Definition delete_namespace (fuel : nat) (name : string) : SgM unit :=
  do! _ <- sg_io (delete_namespace_objects fuel name);
  do! _ <- invalidate_namespace_list_cache;
  remove_view name.

(** ** Listing *)

Definition list_namespaces (fuel : nat) (clock : Z) : SgM (list string) :=
  do! cached <- sg_get (fun sg => list_cache_get clock (sg_list_cache sg));
  match cached with
  | Some names => sg_ret names
  | None =>
      do! names <- sg_io (sg_map SgIx (list_pages fuel None []));
      let names := sort_dedup names in
      do! _ <- modify_list_cache (list_cache_set clock names);
      sg_ret names
  end.

(** ** Loading *)

Definition loaded_from_view (name : string) (view : NamespaceView) (wal_roundtrips wal_s3_keys_fetched : Z)
    (skip_wal_tail : bool) : St StorageError LoadedNamespace :=
  let meta := v_meta view in
  do? art <-
    (if cold_batch then
       do? art <- sg_map SgCold (fetch_cold_index_bootstrap max_keys name meta);
       st_ret (ba_fts art, ba_l0_by_field art, ba_filter art, ba_storage_roundtrips art,
               sat_add32 wal_s3_keys_fetched (ba_s3_keys_fetched art))
     else
       do? fts <- sg_map SgIx (load_fts_segment_for_query name meta);
       do? l0 <- sg_map SgIx (load_vector_l0_for_query max_probe_clusters ann_build name meta);
       do? fil <- sg_map SgIx (load_filter_segment_for_query name meta);
       st_ret (fts, l0, fil, 0, 0));
  let '(fts, cold_vector_l0, filter_index, index_roundtrips, keys_fetched) := art in
  let storage_roundtrips := if cold_batch then sat_add32 wal_roundtrips index_roundtrips else 0 in
  do? tail <-
    (if skip_wal_tail then st_ret (∅, storage_roundtrips, keys_fetched)
     else if index_cursor meta <? wal_commit_seq meta then
       if cold_batch then
         do? out <- sg_map SgCold (fetch_cold_unindexed_wal_tail max_keys policy name meta);
         let '(entries, tail_roundtrips, tail_keys) := out in
         st_ret (wal_touched_doc_ids entries, sat_add32 storage_roundtrips tail_roundtrips,
                 sat_add32 keys_fetched tail_keys)
       else
         match unindexed_wal_tail_range meta with
         | Some (from, to) =>
             do? entries <- sg_map SgNs (replay_wal_entries name from to);
             st_ret (wal_touched_doc_ids entries, storage_roundtrips, keys_fetched)
         | None => st_ret (wal_touched_doc_ids [], storage_roundtrips, keys_fetched)
         end
     else st_ret (∅, storage_roundtrips, keys_fetched));
  let '(tail_doc_ids, storage_roundtrips, keys_fetched) := tail in
  st_ret (mkLoaded (docs_for_query view skip_wal_tail) meta (v_meta_etag view) fts ∅ cold_vector_l0 filter_index
    tail_doc_ids (if cold_batch then Some storage_roundtrips else None) (if cold_batch then keys_fetched else 0) 0).

(** [&mut view] of the cache: [m] may change it and fail; the changed view
    stays in the cache. *)
Definition with_view {A} (name : string) (v : NamespaceView)
    (m : NamespaceView -> World -> World * (NamespaceView * result NsError A)) : SgM NamespaceView := fun sg =>
  let '(w, (v', r)) := m v (world (sg_buffer sg)) in
  let sg' := mkStorage (set_world w (sg_buffer sg)) (vc_get_mut (sg_views sg) name (fun _ => v')).1 (sg_list_cache sg) in
  (sg', match r with Ok _ => Ok v' | Err e => Err (SgNs e) end).

(** The metadata of a cached view, replaced when it can be read. *)
Definition refresh_meta (name : string) (v : NamespaceView) (w : World)
  : World * (NamespaceView * result NsError unit) :=
  match fetch_meta name w with
  | (w, Ok (Some (meta, etag))) =>
      (w, (mkView (v_docs v) meta etag (v_last_applied_wal_seq v) (v_doc_last_wal_seq v), Ok tt))
  | (w, _) => (w, (v, Ok tt))
  end.

(** Catch-up of a view that is not in the cache yet. *)
Definition catch_up_fresh (name : string) (v : NamespaceView) : St StorageError NamespaceView := fun w =>
  let '(w, (v', r)) := catch_up policy name v w in
  (w, match r with Ok _ => Ok v' | Err e => Err (SgNs e) end).

(** A view loaded from the store: the view, round trips, keys fetched. *)
Definition open_view (name : string) (include_wal : bool) : St StorageError (NamespaceView * Z * Z) :=
  if cold_batch then sg_map SgCold (load_cold_batched max_keys policy name include_wal)
  else do? v <- sg_map SgNs (view_load policy name); st_ret (v, 0, 0).

Definition load_namespace_for_query (name : string) (consistency : QueryConsistency) : SgM LoadedNamespace :=
  let strong := is_strong consistency in
  let skip_wal_tail := negb strong in
  do! cached <- sg_get (fun sg => vc_views (sg_views sg) !! name);
  match cached with
  | Some v =>
      do! v <- (if strong then with_view name v (catch_up policy name) else with_view name v (refresh_meta name));
      sg_io (loaded_from_view name v 0 0 skip_wal_tail)
  | None =>
      do! out <- sg_io (open_view name strong);
      let '(v, wal_roundtrips, wal_s3_keys) := out in
      do! v <- (if strong then sg_io (catch_up_fresh name v) else sg_ret v);
      do! loaded <- sg_io (loaded_from_view name v wal_roundtrips wal_s3_keys skip_wal_tail);
      do! _ <- modify_views (fun c => vc_insert c name v);
      sg_ret loaded
  end.

Definition load_namespace (name : string) : SgM LoadedNamespace := load_namespace_for_query name Strong.

Definition load_view_snapshot (name : string) : SgM NamespaceView :=
  do! found <- sg_io (namespace_exists name);
  if negb found then sg_err NamespaceNotFound
  else
    do! cached <- sg_get (fun sg => vc_views (sg_views sg) !! name);
    match cached with
    | Some v => with_view name v (catch_up policy name)
    | None =>
        do! out <- sg_io (open_view name true);
        do! v <- sg_io (catch_up_fresh name out.1.1);
        do! _ <- modify_views (fun c => vc_insert c name v);
        sg_ret v
    end.

Definition export_namespace_page (name : string) (last_id : option string) (limit : option Z) : SgM ExportPage :=
  do! view <- load_view_snapshot name;
  sg_ret (export_page (v_docs view) (wal_commit_seq (v_meta view)) last_id (default DEFAULT_EXPORT_LIMIT limit)).

Definition approx_row_count (name : string) (meta : NamespaceMeta) : SgM Z :=
  do! cached <- sg_get (fun sg => vc_views (sg_views sg) !! name);
  do! _ <- modify_views (fun c => vc_touch c name);
  match cached with
  | Some v =>
      if wal_commit_seq meta <=? v_last_applied_wal_seq v then sg_ret (Z.of_nat (size (v_docs v)))
      else do! v <- sg_io (sg_map SgNs (view_load policy name)); sg_ret (Z.of_nat (size (v_docs v)))
  | None => do! v <- sg_io (sg_map SgNs (view_load policy name)); sg_ret (Z.of_nat (size (v_docs v)))
  end.

(** ** Probed and full vector indexes *)

Definition set_cold_l0 (l0 : gmap string CentroidIndexL0) (ln : LoadedNamespace) : LoadedNamespace :=
  mkLoaded (ln_docs ln) (ln_meta ln) (ln_meta_etag ln) (ln_fts ln) (ln_vectors ln) l0 (ln_filter_index ln)
    (ln_tail_doc_ids ln) (ln_storage_roundtrips ln) (ln_cold_s3_keys_fetched ln) (ln_ann_probed_clusters ln).
Definition set_vectors (v : gmap string VectorIndex) (ln : LoadedNamespace) : LoadedNamespace :=
  mkLoaded (ln_docs ln) (ln_meta ln) (ln_meta_etag ln) (ln_fts ln) v (ln_cold_vector_l0 ln) (ln_filter_index ln)
    (ln_tail_doc_ids ln) (ln_storage_roundtrips ln) (ln_cold_s3_keys_fetched ln) (ln_ann_probed_clusters ln).
Definition add_fetched (roundtrips keys : Z) (ln : LoadedNamespace) : LoadedNamespace :=
  mkLoaded (ln_docs ln) (ln_meta ln) (ln_meta_etag ln) (ln_fts ln) (ln_vectors ln) (ln_cold_vector_l0 ln)
    (ln_filter_index ln) (ln_tail_doc_ids ln) ((fun rt => sat_add32 rt roundtrips) <$> ln_storage_roundtrips ln)
    (sat_add32 (ln_cold_s3_keys_fetched ln) keys) (ln_ann_probed_clusters ln).
Definition add_probed (n : Z) (ln : LoadedNamespace) : LoadedNamespace :=
  mkLoaded (ln_docs ln) (ln_meta ln) (ln_meta_etag ln) (ln_fts ln) (ln_vectors ln) (ln_cold_vector_l0 ln)
    (ln_filter_index ln) (ln_tail_doc_ids ln) (ln_storage_roundtrips ln) (ln_cold_s3_keys_fetched ln)
    (sat_add32 (ln_ann_probed_clusters ln) n).
Definition set_fts (st : option FtsSegment * option Z * Z) (ln : LoadedNamespace) : LoadedNamespace :=
  let '(fts, roundtrips, keys) := st in
  mkLoaded (ln_docs ln) (ln_meta ln) (ln_meta_etag ln) fts (ln_vectors ln) (ln_cold_vector_l0 ln)
    (ln_filter_index ln) (ln_tail_doc_ids ln) roundtrips keys (ln_ann_probed_clusters ln).

Fixpoint probe_fields (name : string) (specs : list (string * list f64)) (ln : LoadedNamespace)
  : St StorageError LoadedNamespace :=
  match specs with
  | [] => st_ret ln
  | (field, query) :: rest =>
      match ln_vectors ln !! field, ln_cold_vector_l0 ln !! field with
      | Some _, _ | None, None => probe_fields name rest ln
      | None, Some l0 =>
          let ln := set_cold_l0 (delete field (ln_cold_vector_l0 ln)) ln in
          do? out <-
            (if cold_batch then
               do? out <- sg_map SgCold
                 (fetch_cold_vector_probed max_keys max_probe_clusters name (ln_meta ln) field l0 query);
               let '(vindex, probe_roundtrips, probe_keys, probed) := out in
               st_ret (vindex, probed, add_fetched probe_roundtrips probe_keys ln)
             else
               do? out <- sg_map SgCold (load_vector_index_probed_for_query name (ln_meta ln) field l0 query);
               st_ret (out.1, out.2, ln));
          let '(vindex, probed, ln) := out in
          probe_fields name rest (set_vectors (<[field := vindex]> (ln_vectors ln)) (add_probed probed ln))
      end
  end.

Definition finish_cold_vector_probes (name : string) (loaded : LoadedNamespace)
    (probes : list (string * list f64)) : St StorageError LoadedNamespace :=
  match probes with
  | [] => st_ret loaded
  | _ =>
      do? loaded <-
        (if cold_batch && bool_decide (ln_cold_vector_l0 loaded = ∅) then
           do? out <- sg_map SgCold (fetch_cold_vector_l0 max_keys max_probe_clusters name (ln_meta loaded));
           let '(l0_map, l0_roundtrips, l0_keys) := out in
           st_ret (add_fetched l0_roundtrips l0_keys (set_cold_l0 l0_map loaded))
         else st_ret loaded);
      do? loaded <-
        (if bool_decide (ln_cold_vector_l0 loaded = ∅) then st_ret loaded
         else
           let by_field := fold_left (fun m p => <[p.1 := p.2]> m) probes (∅ : gmap string (list f64)) in
           probe_fields name (iter_map by_field) loaded);
      if cold_batch then
        do? st <- sg_map SgCold (ensure_cold_fts_for_hybrid max_keys name (ln_meta loaded)
                    (ln_fts loaded, ln_storage_roundtrips loaded, ln_cold_s3_keys_fetched loaded));
        st_ret (set_fts st loaded)
      else st_ret loaded
  end.

Definition load_vector_indexes_full (name : string) (loaded : LoadedNamespace) : St StorageError LoadedNamespace :=
  do? indexes <- sg_map SgIx (load_vector_indexes_full_for_eval max_probe_clusters ann_build name (ln_meta loaded));
  st_ret (set_vectors (fold_left (fun m p => <[p.1 := p.2]> m) (iter_map indexes) (ln_vectors loaded)) loaded).

(** ** Writes *)

Definition filter_context (loaded : LoadedNamespace) : QueryContext :=
  mkContext (ln_docs loaded) (ln_meta loaded) (ln_fts loaded) (ln_vectors loaded) (ln_filter_index loaded)
    (ln_tail_doc_ids loaded) Strong (ln_storage_roundtrips loaded) None None None.

Definition resolve_ids_for_filter (name : string) (filter_val : Value) : SgM (list string) :=
  do! expr <- sg_io (sg_result SgFilter (parse_filter filter_val));
  do! loaded <- load_namespace name;
  do! ids <- sg_io (sg_result SgQuery (matching_doc_ids_for_filter (filter_context loaded) expr));
  sg_ret (iter_set ids).

Definition not_null (v : option Value) : option Value :=
  match v with Some VNull | None => None | Some v => Some v end.

(** [Vec::contains] before each push. *)
Definition push_new (ids new : list string) : list string :=
  fold_left (fun ids id => if bool_decide (id ∈ ids) then ids else ids ++ [id]) new ids.

(** Merges the attributes into the first queued patch of the id, or appends one. *)
Fixpoint merge_patch (attrs : gmap string Value) (id : string) (patches : list Document) : list Document :=
  match patches with
  | [] => [mkDocument id attrs]
  | p :: rest =>
      if String.eqb (doc_id p) id then mkDocument (doc_id p) (attrs ∪ doc_attributes p) :: rest
      else p :: merge_patch attrs id rest
  end.

(** The condition, parsed, applied to the rows. *)
Definition keep_rows {A} (cond : option Value) (keep : FilterExpr -> A -> bool) (rows : list A) : St StorageError (list A) :=
  match cond with
  | None => st_ret rows
  | Some v =>
      do? expr <- sg_result SgFilter (parse_filter v);
      st_ret (List.filter (keep expr) rows)
  end.

Definition apply_write_conditions (name : string) (ups pats : list Document) (dels : list string)
    (upsert_condition patch_condition delete_condition : option Value)
  : SgM (list Document * list Document * list string) :=
  let uc := not_null upsert_condition in
  let pc := not_null patch_condition in
  let dc := not_null delete_condition in
  match uc, pc, dc with
  | None, None, None => sg_ret (ups, pats, dels)
  | _, _, _ =>
      do! found <- sg_io (namespace_exists name);
      do! docs <-
        (if negb found then sg_ret ∅
         else
           do! view <- load_view_snapshot name;
           do! out <- sg_get (fun sg => overlay_pending_writes name (v_docs view) (sg_buffer sg));
           let '(docs, r) := out in
           match r with Ok _ => sg_ret docs | Err e => sg_err (SgWal e) end);
      do! ups <- sg_io (keep_rows uc (fun e d => should_apply_upsert e (docs !! doc_id d) d) ups);
      do! pats <- sg_io (keep_rows pc (fun e p => should_apply_patch e (docs !! doc_id p) p) pats);
      do! dels <- sg_io (keep_rows dc (fun e id => should_apply_delete e (docs !! id)) dels);
      sg_ret (ups, pats, dels)
  end.

Record WriteOps : Type := mkWriteOps {
  wo_upserts : list Document;
  wo_patches : list Document;
  wo_deletes : list string;
  wo_schema_patch : option Value;
  wo_delete_by_filter : option Value;
  wo_delete_by_filter_allow_partial : bool;
  wo_patch_by_filter : option (Value * gmap string Value);
  wo_patch_by_filter_allow_partial : bool;
  wo_upsert_condition : option Value;
  wo_patch_condition : option Value;
  wo_delete_condition : option Value;
  wo_distance_metric : option DistanceMetric;
  wo_return_affected_ids : bool
}.

Definition delete_by_filter_rows (name : string) (o : WriteOps) : SgM (list string * bool) :=
  match not_null (wo_delete_by_filter o) with
  | None => sg_ret (wo_deletes o, false)
  | Some v =>
      do! resolved <- resolve_ids_for_filter name v;
      do! out <- sg_io (sg_result SgLimit
        (cap_filter_batch resolved (wo_delete_by_filter_allow_partial o) (max_filter_batch_rows limits)));
      sg_ret (push_new (wo_deletes o) out.1, out.2)
  end.

Definition patch_by_filter_rows (name : string) (o : WriteOps) : SgM (list Document * bool) :=
  match wo_patch_by_filter o with
  | None => sg_ret (wo_patches o, false)
  | Some (v, attrs) =>
      do! resolved <- resolve_ids_for_filter name v;
      do! out <- sg_io (sg_result SgLimit
        (cap_filter_batch resolved (wo_patch_by_filter_allow_partial o) (max_filter_batch_rows limits)));
      sg_ret (fold_left (fun ps id => merge_patch attrs id ps) out.1 (wo_patches o), out.2)
  end.

(** The first half of [write_documents]: the rows handed to the buffer. *)
Definition write_rows (name : string) (o : WriteOps) : SgM WriteArgs :=
  do! del <- delete_by_filter_rows name o;
  do! pat <- patch_by_filter_rows name o;
  do! rows <- apply_write_conditions name (wo_upserts o) pat.1 del.1
    (wo_upsert_condition o) (wo_patch_condition o) (wo_delete_condition o);
  let '(ups, pats, dels) := rows in
  let stats := mkWriteStats (lenZ ups) (lenZ pats) (lenZ dels)
    (then_some (wo_return_affected_ids o) (doc_id <$> ups)) (then_some (wo_return_affected_ids o) dels)
    (then_some (del.2 || pat.2) true) in
  sg_ret (mkArgs name ups pats dels (wo_schema_patch o) (wo_distance_metric o) stats).

(** Queues the rows; the writer [tx] then waits for its answer. *)
Definition write_begin (name : string) (o : WriteOps) : SgM positive :=
  do! args <- write_rows name o;
  do! tx <- sg_get (fun sg => next_id (sg_buffer sg));
  do! _ <- modify_buffer (write_start args);
  sg_ret tx.

(** The second half, on the committed batch. *)
Definition write_finish (name : string) (committed : CommittedBatch) : SgM WriteStats :=
  do! _ <- invalidate_namespace_list_cache;
  do! cached <- sg_get (fun sg => vc_views (sg_views sg) !! name);
  match cached with
  | Some v =>
      do! _ <- with_view name v (fun v w =>
        match apply_committed v (cb_seq committed) (cb_entry committed) with
        | (v', Err e) => (w, (v', Err (NsWal e)))
        | (v', Ok _) => refresh_meta name v' w
        end);
      sg_ret (cb_stats committed)
  | None =>
      do! v <- sg_io (sg_map SgNs (view_load policy name));
      do! _ <- modify_views (fun c => vc_insert c name v);
      sg_ret (cb_stats committed)
  end.

Definition flush_writes : SgM unit := modify_buffer flush_all.

(** ** Introspection *)

(** The estimate of the unindexed part of the log; 4096 for a segment whose
    length is not known. *)
Fixpoint head_lengths (name : string) (seqs : list Z) (total : Z) : St StorageError Z :=
  match seqs with
  | [] => st_ret total
  | seq :: rest =>
      do? out <- st_lift (fun w => bucket_head w (wal_key name seq));
      let len := match out with HeadFound l => Z.max (default 0 l) 0 | HeadNotFound | HeadErr _ => 4096 end in
      head_lengths name rest (wrap64 (total + len))
  end.

Definition approx_unindexed_bytes (name : string) (meta : NamespaceMeta) : St StorageError Z :=
  let from := sat_add64 (index_cursor meta) 1 in
  if wal_commit_seq meta <? from then st_ret 0
  else head_lengths name (range_incl from (wal_commit_seq meta)) 0.

Record NamespaceSummary : Type := mkNsSummary {
  nsum_id : string;
  nsum_index_cursor : option Z;
  nsum_wal_commit_seq : option Z;
  nsum_unindexed_bytes : option Z;
  nsum_index_status : option IndexStatus
}.

Definition namespace_summary (name : string) : St StorageError NamespaceSummary :=
  do? cur <- sg_map SgNs (fetch_meta name);
  match cur with
  | None => st_err NamespaceNotFound
  | Some (meta, _) =>
      do? unindexed <- approx_unindexed_bytes name meta;
      st_ret (mkNsSummary name (Some (index_cursor meta)) (Some (wal_commit_seq meta)) (Some unindexed)
        (Some (index_status_from_meta (index_cursor meta) (wal_commit_seq meta))))
  end.

Record NamespaceMetadata : Type := mkNsMetadata {
  nm_id : string;
  nm_index_cursor : Z;
  nm_wal_commit_seq : Z;
  nm_approx_row_count : Z;
  nm_unindexed_bytes : Z;
  nm_index_status : IndexStatus;
  nm_preferred_ann_version : Z
}.

Definition namespace_metadata (name : string) : SgM NamespaceMetadata :=
  do! cur <- sg_io (sg_map SgNs (fetch_meta name));
  match cur with
  | None => sg_err NamespaceNotFound
  | Some (meta, _) =>
      do! unindexed <- sg_io (approx_unindexed_bytes name meta);
      do! rows <- approx_row_count name meta;
      sg_ret (mkNsMetadata name (index_cursor meta) (wal_commit_seq meta) rows unindexed
        (index_status_from_meta (index_cursor meta) (wal_commit_seq meta)) (preferred_ann_version meta))
  end.

Definition debug_cold_plan (name : string) (rank_by : Value) (consistency : QueryConsistency)
  : SgM ColdPlanDebugResponse :=
  do! cur <- sg_io (sg_map SgNs (fetch_meta name));
  match cur with
  | None => sg_err NamespaceNotFound
  | Some (meta, _) =>
      do! view_pinned <- sg_get (fun sg => bool_decide (is_Some (vc_views (sg_views sg) !! name)));
      let strong := is_strong consistency in
      let opts := mkPlanOpts (strong && negb view_pinned) (strong && (index_cursor meta <? wal_commit_seq meta)) in
      let probes := match vector_probe_specs rank_by with Ok p => p | Err _ => [] end in
      do! l0_by_field <-
        (match probes with
         | [] => sg_ret ∅
         | _ => do! out <- sg_io (sg_map SgCold (fetch_cold_vector_l0 max_keys max_probe_clusters name meta));
                sg_ret out.1.1
         end);
      sg_ret (build_cold_plan_debug max_probe_clusters name meta probes l0_by_field opts
        (if strong then "strong" else "eventual") view_pinned)
  end.
End StorageOps.
