(* ===== verification/StorageMonitor.v ===== *)
(** * Storage operations in which the metadata was not misread

    [agree] (see [Monitor]) for the programs that open a namespace, and the fact
    that no operation of the storage facade clears the flag. *)

From Stdlib Require Import ZArith Lia Bool.
From stdpp Require Import base gmap strings list.
From S2P Require Import Prelude F64 Json Models Filter Keys Schema Meta Wal WalReplay ObjectStore Namespace Monitor Durability Compaction FilterIndex View ViewCache Export Buffer VectorEncoding Fts Vector Search VectorBuild Cache Indexer IndexerMonitor ColdFetch Storage.

(** ** Programs that do not clear the flag *)

Section Keeps.
Context {S : ObjectStore} {MO : Monitor}.

Definition keeps {A} (m : World -> World * A) : Prop := forall w, misled w = true -> misled (m w).1 = true.

Lemma agree_keeps {A} (m : World -> World * A) m' : agree m m' -> keeps m.
Proof. intros H w. by destruct (H w). Qed.

Lemma keeps_ret {E A} (a : A) : keeps (st_ret (E := E) a).
Proof. by intros w. Qed.

Lemma keeps_err {E A} (e : E) : keeps (st_err (A := A) e).
Proof. by intros w. Qed.

Lemma keeps_result {E A} (r : result E A) : keeps (st_result r).
Proof. by intros w. Qed.

Lemma keeps_bind {E A B} (m : St E A) (k : A -> St E B) : keeps m -> (forall a, keeps (k a)) -> keeps (st_bind m k).
Proof.
  intros Hm Hk w Hw. specialize (Hm w Hw). unfold st_bind. destruct (m w) as [w1 [a|e]]; [|done]. by apply Hk.
Qed.

Lemma keeps_lift {E A} (f : World -> World * A) : keeps f -> keeps (st_lift (E := E) f).
Proof. intros Hf w Hw. specialize (Hf w Hw). unfold st_lift. by destruct (f w). Qed.
End Keeps.

Create HintDb keeps.
#[export] Hint Resolve keeps_ret keeps_err keeps_result : keeps.

(** Rules for [keeps]; what agrees with its run on the recognised store keeps
    the flag. *)
Ltac keeps_step :=
  match goal with
  | |- forall _, _ => intro
  | |- keeps (st_bind _ _) => apply keeps_bind
  | |- keeps (st_lift _) => apply keeps_lift
  | |- keeps (match ?x with _ => _ end) => destruct x
  | |- _ => solve [eauto 4 with keeps | eapply agree_keeps; eauto 4 with agree]
  end.
Ltac solve_keeps := repeat (cbn zeta; keeps_step).

(** Existence tests and listings do not clear the flag. *)
Class BucketMonitor {S : ObjectStore} {MO : Monitor} {BO : BucketOps} : Prop := {
  misled_head : forall w k, misled w = true -> misled (bucket_head w k).1 = true;
  misled_list : forall w p t n, misled w = true -> misled (bucket_list w p t n).1 = true
}.

(** ** Opening a namespace *)

Section Opening.
Context {IO : IterOrder} {WC : WalCodec} {MC : MetaCodec} {S : ObjectStore} {MO : Monitor} {CO : CompletionOrder}.
Context (policy : WalCorruptPolicy) (max_keys : Z) (cache_enabled : bool).
Local Notation RS := (recognised S).

(** Renaming the error. *)
Lemma agree_rename {E E' A} (f : E -> E') (m : St E A) m' :
  agree m m' ->
  agree (fun w => let '(w', r) := m w in (w', match r with Ok a => Ok a | Err e => Err (f e) end))
    (fun w => let '(w', r) := m' w in (w', match r with Ok a => Ok a | Err e => Err (f e) end)).
Proof.
  intros Hm w. destruct (Hm w) as [M1 M2]. destruct (m w) as [w1 r]; cbn in M1, M2 |- *.
  split; [done|]. intros H. by rewrite <- (M2 H).
Qed.

Lemma agree_cold_ns {A} (m : St NsError A) m' : agree m m' -> agree (cold_ns m) (cold_ns (S := RS) m').
Proof. apply (agree_rename ColdNs). Qed.

Lemma agree_sg_map {E A} (f : E -> StorageError) (m : St E A) m' : agree m m' -> agree (sg_map f m) (sg_map (S := RS) f m').
Proof. apply (agree_rename f). Qed.
#[local] Hint Resolve agree_cold_ns agree_sg_map : agree.

Lemma agree_fetch_each allow keys out : agree (fetch_each allow keys out) (fetch_each (S := RS) allow keys out).
Proof. revert out. induction keys as [|k keys IH]; intros out; cbn [fetch_each]; solve_agree. Qed.
#[local] Hint Resolve agree_fetch_each : agree.

Lemma agree_fetch_chunks allow batches out : agree (fetch_chunks allow batches out) (fetch_chunks (S := RS) allow batches out).
Proof. revert out. induction batches as [|b batches IH]; intros out; cbn [fetch_chunks]; unfold fetch_round_batch; solve_agree. Qed.
#[local] Hint Resolve agree_fetch_chunks : agree.

Lemma agree_fetch_round keys allow : agree (fetch_round_inner max_keys keys allow) (fetch_round_inner (S := RS) max_keys keys allow).
Proof. unfold fetch_round_inner. solve_agree. Qed.
#[local] Hint Resolve agree_fetch_round : agree.

Lemma agree_load_cold ns include_wal :
  agree (load_cold_batched max_keys policy ns include_wal) (load_cold_batched (S := RS) max_keys policy ns include_wal).
Proof. unfold load_cold_batched, cold_load_meta_only, cold_load_meta_and_wal, fetch_round. solve_agree. Qed.
#[local] Hint Resolve agree_load_cold : agree.

Lemma agree_open_view ns include_wal :
  agree (open_view policy max_keys cache_enabled ns include_wal) (open_view (S := RS) policy max_keys cache_enabled ns include_wal).
Proof. unfold open_view. solve_agree. Qed.

Lemma agree_catch_up_fresh ns v : agree (catch_up_fresh policy ns v) (catch_up_fresh (S := RS) policy ns v).
Proof.
  intros w. destruct (agree_catch_up policy ns v w) as [M1 M2]. unfold catch_up_fresh.
  destruct (catch_up policy ns v w) as [w1 [v1 r]]; cbn in M1, M2 |- *. split; [done|]. intros H. by rewrite <- (M2 H).
Qed.

(** The postcondition of a run on the recognised store. *)
Lemma agree_post {E A} (m : St E A) (m' : @St RS E A) w (P : World -> result E A -> Prop) :
  agree m m' -> st_post (S := RS) m' w P -> st_post m w (fun w' r => misled w' = false -> P w' r).
Proof. intros Hm. destruct (Hm w) as [_ Eq]. unfold st_post. intros H Hw. by rewrite <- (Eq Hw) in H. Qed.
End Opening.

#[export] Hint Resolve agree_cold_ns agree_sg_map agree_fetch_round agree_open_view agree_catch_up_fresh : agree.

(** ** Operations on the process state *)

Section StateKeeps.
Context {S : ObjectStore} {MO : Monitor}.

Definition sg_keeps {A} (x : SgM A) : Prop := forall sg, misled (world (sg_buffer sg)) = true -> misled (world (sg_buffer (x sg).1)) = true.

Lemma sg_keeps_bind {A B} (x : SgM A) (k : A -> SgM B) : sg_keeps x -> (forall a, sg_keeps (k a)) -> sg_keeps (sg_bind x k).
Proof.
  intros Hx Hk sg Hs. specialize (Hx sg Hs). unfold sg_bind. destruct (x sg) as [sg1 [a|e]]; [|done]. by apply Hk.
Qed.

Lemma sg_keeps_io {A} (m : St StorageError A) : keeps m -> sg_keeps (sg_io m).
Proof. intros Hm sg Hs. specialize (Hm _ Hs). unfold sg_io. by destruct (m (world (sg_buffer sg))). Qed.

Lemma sg_keeps_ret {A} (a : A) : sg_keeps (sg_ret a).
Proof. by intros sg. Qed.

Lemma sg_keeps_err {A} e : sg_keeps (sg_err (A := A) e).
Proof. by intros sg. Qed.

Lemma sg_keeps_get {A} (f : Storage -> A) : sg_keeps (sg_get f).
Proof. by intros sg. Qed.

Lemma sg_keeps_views f : sg_keeps (modify_views f).
Proof. by intros sg. Qed.

Lemma sg_keeps_with_view {A} ns v (m : NamespaceView -> World -> World * (NamespaceView * result NsError A)) :
  keeps (m v) -> sg_keeps (with_view ns v m).
Proof. intros Hm sg Hs. specialize (Hm _ Hs). unfold with_view. by destruct (m v (world (sg_buffer sg))) as [w [v' r]]. Qed.

End StateKeeps.

(** Rules for [sg_keeps]. *)
Ltac sg_keeps_step :=
  match goal with
  | |- forall _, _ => intro
  | |- sg_keeps (sg_bind _ _) => apply sg_keeps_bind
  | |- sg_keeps (sg_io _) => apply sg_keeps_io
  | |- sg_keeps (sg_ret _) => apply sg_keeps_ret
  | |- sg_keeps (sg_err _) => apply sg_keeps_err
  | |- sg_keeps (sg_get _) => apply sg_keeps_get
  | |- sg_keeps (modify_views _) => apply sg_keeps_views
  | |- sg_keeps (with_view _ _ _) => apply sg_keeps_with_view
  | |- sg_keeps (match ?x with _ => _ end) => destruct x
  | |- sg_keeps _ => solve [eauto 4 with keeps]
  | |- keeps _ => keeps_step
  end.
Ltac solve_sg_keeps := solve [repeat (cbn zeta; sg_keeps_step)].


Section Operations.
Context {IO : IterOrder} {WC : WalCodec} {MC : MetaCodec} {S : ObjectStore} {MO : Monitor}.
Context {BO : BucketOps} {BM : BucketMonitor} {CO : CompletionOrder}.
Context {LC : LocalCache} {CM : CacheMonitor} {CR : CachedReads} {RM : ReadsMonitor} {SC : SegmentCodec} {TL : TextLib} {FT : F64Text} {VL : VectorLib}.
Context (policy : WalCorruptPolicy) (max_keys max_probe_clusters : Z) (ann_build : AnnBuildConfig) (cache_enabled : bool).
Context (limits : LimitsConfig).

Lemma keeps_rename {E E' A} (f : E -> E') (m : St E A) :
  keeps m -> keeps (fun w => let '(w', r) := m w in (w', match r with Ok a => Ok a | Err e => Err (f e) end)).
Proof. intros Hm w Hw. specialize (Hm w Hw). by destruct (m w). Qed.

Lemma keeps_cold_ns {A} (m : St NsError A) : keeps m -> keeps (cold_ns m).
Proof. apply (keeps_rename ColdNs). Qed.

Lemma keeps_sg_map {E A} (f : E -> StorageError) (m : St E A) : keeps m -> keeps (sg_map f m).
Proof. apply (keeps_rename f). Qed.

Lemma keeps_sg_result {E A} (f : E -> StorageError) (r : result E A) : keeps (sg_result f r).
Proof. apply keeps_result. Qed.
#[local] Hint Resolve keeps_cold_ns keeps_sg_map keeps_sg_result : keeps.

Lemma keeps_fetch_round keys allow : keeps (fetch_round_inner max_keys keys allow).
Proof. eapply agree_keeps. apply agree_fetch_round. Qed.

Lemma keeps_cache_get k : keeps (cache_get k).
Proof. intros w. apply misled_cache_get. Qed.
#[local] Hint Resolve keeps_fetch_round keeps_cache_get : keeps.

Lemma keeps_bootstrap ns meta : keeps (fetch_cold_index_bootstrap max_keys ns meta).
Proof. unfold fetch_cold_index_bootstrap, fetch_round. solve_keeps. Qed.

Lemma keeps_unindexed_tail ns meta : keeps (fetch_cold_unindexed_wal_tail max_keys policy ns meta).
Proof. unfold fetch_cold_unindexed_wal_tail, replay_wal_entries_batched, fetch_round. solve_keeps. Qed.

Lemma keeps_vector_l0 ns meta : keeps (fetch_cold_vector_l0 max_keys max_probe_clusters ns meta).
Proof. unfold fetch_cold_vector_l0, fetch_round. solve_keeps. Qed.

Lemma keeps_ensure_fts ns meta st : keeps (ensure_cold_fts_for_hybrid max_keys ns meta st).
Proof. unfold ensure_cold_fts_for_hybrid, fetch_round. solve_keeps. Qed.

Lemma keeps_vector_probed ns meta field l0 query :
  keeps (fetch_cold_vector_probed max_keys max_probe_clusters ns meta field l0 query).
Proof. unfold fetch_cold_vector_probed, fetch_round, fetch_round_optional. solve_keeps. Qed.

Lemma keeps_objects_from_cache keys out : keeps (fetch_index_objects_from_cache keys out).
Proof. revert out. induction keys as [|k keys IH]; intros out; cbn [fetch_index_objects_from_cache]; solve_keeps. Qed.
#[local] Hint Resolve keeps_objects_from_cache : keeps.

Lemma keeps_probed_from_cache ns meta field l0 query : keeps (load_vector_index_probed_for_query ns meta field l0 query).
Proof. unfold load_vector_index_probed_for_query. solve_keeps. Qed.
#[local] Hint Resolve keeps_bootstrap keeps_unindexed_tail keeps_vector_l0 keeps_ensure_fts keeps_vector_probed keeps_probed_from_cache : keeps.

Lemma keeps_loaded ns v rt nk skip :
  keeps (loaded_from_view policy max_keys max_probe_clusters ann_build cache_enabled ns v rt nk skip).
Proof. unfold loaded_from_view. solve_keeps. Qed.

Lemma keeps_probe_fields ns specs ln : keeps (probe_fields max_keys max_probe_clusters cache_enabled ns specs ln).
Proof. revert ln. induction specs as [|[field query] specs IH]; intros ln; cbn [probe_fields]; solve_keeps. Qed.
#[local] Hint Resolve keeps_probe_fields : keeps.

Lemma keeps_finish_probes ns ln probes :
  keeps (finish_cold_vector_probes max_keys max_probe_clusters cache_enabled ns ln probes).
Proof. unfold finish_cold_vector_probes. solve_keeps. Qed.

Lemma keeps_exists ns : keeps (namespace_exists ns).
Proof.
  unfold namespace_exists, object_exists.
  assert (keeps (fun w => bucket_head w (meta_key ns))) by (intros w; apply misled_head).
  assert (keeps (fun w => bucket_list w (namespace_prefix ns) None (Some 1))) by (intros w; apply misled_list).
  solve_keeps.
Qed.
#[local] Hint Resolve keeps_exists : keeps.

Lemma keeps_require ns : keeps (require_namespace ns).
Proof. unfold require_namespace. solve_keeps. Qed.

Lemma keeps_keep_rows {A} cond (keep : FilterExpr -> A -> bool) rows : keeps (keep_rows cond keep rows).
Proof. unfold keep_rows. solve_keeps. Qed.
#[local] Hint Resolve keeps_loaded keeps_finish_probes keeps_require keeps_keep_rows : keeps.

Lemma keeps_refresh ns v : keeps (refresh_meta ns v).
Proof.
  intros w Hw. destruct (agree_fetch_meta ns w) as [M _]. specialize (M Hw). unfold refresh_meta.
  by destruct (fetch_meta ns w) as [w' [[[meta et]|]|e]].
Qed.
#[local] Hint Resolve keeps_refresh : keeps.

Lemma sg_keeps_load ns c :
  sg_keeps (load_namespace_for_query policy max_keys max_probe_clusters ann_build cache_enabled ns c).
Proof. unfold load_namespace_for_query. solve_sg_keeps. Qed.

Lemma sg_keeps_snapshot ns : sg_keeps (load_view_snapshot policy max_keys cache_enabled ns).
Proof. unfold load_view_snapshot. solve_sg_keeps. Qed.
#[local] Hint Resolve sg_keeps_load sg_keeps_snapshot : keeps.

Lemma sg_keeps_resolve ns v :
  sg_keeps (resolve_ids_for_filter policy max_keys max_probe_clusters ann_build cache_enabled ns v).
Proof. unfold resolve_ids_for_filter, load_namespace. solve_sg_keeps. Qed.
#[local] Hint Resolve sg_keeps_resolve : keeps.

Lemma sg_keeps_delete_rows ns o :
  sg_keeps (delete_by_filter_rows policy max_keys max_probe_clusters ann_build cache_enabled limits ns o).
Proof. unfold delete_by_filter_rows. solve_sg_keeps. Qed.

Lemma sg_keeps_patch_rows ns o :
  sg_keeps (patch_by_filter_rows policy max_keys max_probe_clusters ann_build cache_enabled limits ns o).
Proof. unfold patch_by_filter_rows. solve_sg_keeps. Qed.

Lemma sg_keeps_conditions ns ups pats dels uc pc dc :
  sg_keeps (apply_write_conditions policy max_keys cache_enabled ns ups pats dels uc pc dc).
Proof. unfold apply_write_conditions. solve_sg_keeps. Qed.
End Operations.

#[export] Hint Resolve keeps_cold_ns keeps_sg_map keeps_sg_result keeps_fetch_round keeps_cache_get keeps_loaded keeps_finish_probes
  keeps_exists keeps_require keeps_keep_rows keeps_refresh : keeps.
#[export] Hint Resolve sg_keeps_load sg_keeps_snapshot sg_keeps_resolve sg_keeps_delete_rows sg_keeps_patch_rows sg_keeps_conditions : keeps.
