(* ===== verification/CloneSpec.v ===== *)
(** * Copies and deletions of namespaces

    A copy (or branch) of a namespace holds the source's metadata, log and index
    and touches nothing else; a deletion removes exactly the objects of the
    namespace.  Both list the keys page by page. *)

From Stdlib Require Import ZArith Lia Bool.
From stdpp Require Import base gmap strings list.
From S2P Require Import Prelude F64 Json Models Keys Schema Meta Wal WalReplay ObjectStore Namespace Durability FilterIndex View ViewCache Buffer ColdFetch ColdSpec Storage.

Local Infix "+:+" := String.append (right associativity, at level 60).

(** ** What the store documents about these requests *)

(** [bucket_pending] is what a listing has still to return from a token,
    [bucket_pages] the number of pages that takes.  A failed copy may have been
    carried out; a failed deletion may have removed some of the keys, and a
    successful one removes those its answer does not name. *)
Class BucketLaws {S : ObjectStore} {BO : BucketOps} : Type := {
  bucket_pending : Objects -> string -> option string -> list string;
  bucket_pages : Objects -> string -> option string -> nat;
  bucket_pending_start objs p k :
    k ∈ bucket_pending objs p None <-> String.prefix p k = true /\ is_Some (objs !! k);
  bucket_pending_nodup objs p : NoDup (bucket_pending objs p None);
  bucket_head_keeps w k : objects (bucket_head w k).1 = objects w;
  bucket_head_found w k n : (bucket_head w k).2 = HeadFound n -> is_Some (objects w !! k);
  bucket_head_absent w k : (bucket_head w k).2 = HeadNotFound -> objects w !! k = None;
  bucket_list_keeps w p t n : objects (bucket_list w p t n).1 = objects w;
  bucket_list_page w p t page next : (bucket_list w p t None).2 = Ok (page, next) ->
    match next with
    | None => page = bucket_pending (objects w) p t
    | Some _ => bucket_pending (objects w) p t = page ++ bucket_pending (objects w) p next /\
        (bucket_pages (objects w) p next < bucket_pages (objects w) p t)%nat
    end;
  bucket_pages_pos objs p t : (0 < bucket_pages objs p t)%nat;
  bucket_list_one w p page next : (bucket_list w p None (Some 1)).2 = Ok (page, next) ->
    (page = [] <-> bucket_pending (objects w) p None = []);
  bucket_copy_ok w src dst : (bucket_copy w src dst).2 = Ok tt -> exists b t t',
    objects w !! src = Some (b, t) /\ objects (bucket_copy w src dst).1 = <[dst := (b, t')]> (objects w);
  bucket_copy_err w src dst e : (bucket_copy w src dst).2 = Err e ->
    objects (bucket_copy w src dst).1 = objects w \/ exists o, objects (bucket_copy w src dst).1 = <[dst := o]> (objects w);
  bucket_delete_ok w ks failed k : (bucket_delete w ks).2 = Ok failed ->
    objects (bucket_delete w ks).1 !! k = if decide (k ∈ ks /\ k ∉ failed) then None else objects w !! k;
  bucket_delete_err w ks e k : (bucket_delete w ks).2 = Err e ->
    objects (bucket_delete w ks).1 !! k = objects w !! k \/ (k ∈ ks /\ objects (bucket_delete w ks).1 !! k = None)
}.

Section Listing.
Context {S : ObjectStore} {BO : BucketOps} {BL : BucketLaws}.

Lemma object_exists_reads k : reads (object_exists k) (fun objs found => found = true <-> is_Some (objs !! k)).
Proof.
  intros w. unfold object_exists, st_post, st_bind, st_lift.
  pose proof (bucket_head_keeps w k) as Hk. pose proof (bucket_head_found w k) as Hf.
  pose proof (bucket_head_absent w k) as Ha. destruct (bucket_head w k) as [w' [n| |e]]; cbn in *.
  - split; [done|]. split; [|done]. intros _. by apply (Hf n).
  - split; [done|]. rewrite Ha by done. split; [done|by intros [? ?]].
  - done.
Qed.

(** Some object of the namespace. *)
Definition namespace_has (objs : Objects) (ns : string) : Prop :=
  exists k, String.prefix (namespace_prefix ns) k = true /\ is_Some (objs !! k).

Lemma meta_key_prefix ns : String.prefix (namespace_prefix ns) (meta_key ns) = true.
Proof. apply prefix_app_iff. exists "meta.json". exact (object_key_path ns OMeta). Qed.

Lemma pending_nil objs ns : bucket_pending objs (namespace_prefix ns) None = [] <-> ~ namespace_has objs ns.
Proof.
  split.
  - intros Hn (k & Hk). apply (bucket_pending_start objs (namespace_prefix ns)) in Hk. rewrite Hn in Hk. by apply not_elem_of_nil in Hk.
  - intros Hn. destruct (bucket_pending objs (namespace_prefix ns) None) as [|k l] eqn:E; [done|]. destruct Hn. exists k.
    apply bucket_pending_start. rewrite E. left.
Qed.

Lemma namespace_exists_reads ns :
  reads (namespace_exists ns) (fun objs found => found = true <-> namespace_has objs ns).
Proof.
  unfold namespace_exists. eapply reads_bind; [apply object_exists_reads|]. intros objs found Hfound w Hw. destruct found.
  - split; [done|]. split; [|done]. intros _. exists (meta_key ns). split; [apply meta_key_prefix|by apply Hfound].
  - unfold st_bind, st_lift, st_post. pose proof (bucket_list_keeps w (namespace_prefix ns) None (Some 1)) as Hk.
    pose proof (bucket_list_one w (namespace_prefix ns)) as Hl.
    destruct (bucket_list w _ None (Some 1)) as [w' [[page next]|e]]; cbn in *; [|done]. split; [by rewrite Hk|].
    specialize (Hl page next eq_refl). rewrite Hw in Hl. rewrite pending_nil in Hl. unfold lenZ.
    destruct page as [|k page]; cbn.
    + split; [done|]. intros H. by destruct (proj1 Hl eq_refl).
    + split; [|done]. intros _. destruct (bucket_pending objs (namespace_prefix ns) None) as [|k' l] eqn:E.
      * apply pending_nil in E. by apply Hl in E.
      * exists k'. apply bucket_pending_start. rewrite E. left.
Qed.

Lemma list_pages_reads p fuel token keys :
  reads (list_key_pages fuel p token keys) (fun objs out =>
    (bucket_pages objs p token <= fuel)%nat -> out = keys ++ bucket_pending objs p token).
Proof.
  revert token keys. induction fuel as [|fuel IH]; intros token keys; cbn [list_key_pages].
  - apply reads_ret. intros objs H. pose proof (bucket_pages_pos objs p token). lia.
  - intros w. unfold st_bind, st_lift, st_post. pose proof (bucket_list_keeps w p token None) as Hk.
    pose proof (bucket_list_page w p token) as Hl. destruct (bucket_list w p token None) as [w' [[page next]|e]]; cbn in *; [|done].
    specialize (Hl page next eq_refl). destruct next as [t|].
    + destruct Hl as [Hp Hlt]. pose proof (IH (Some t) (keys ++ page) w') as HI. unfold st_post in HI.
      destruct (list_key_pages fuel p (Some t) (keys ++ page) w') as [w2 r]. destruct HI as [Ho Hr].
      split; [by rewrite Ho|]. destruct r as [out|]; [|done]. intros Hle. rewrite Hk in Hr.
      rewrite Hr by lia. by rewrite Hp, <- app_assoc.
    + split; [done|]. intros _. by rewrite Hl.
Qed.
End Listing.

(** ** Copying *)

Section Copy.
Context {S : ObjectStore} {BO : BucketOps} {BL : BucketLaws}.
Context (dest source : string) (Hdest : validate_namespace_name dest = Ok tt) (Hsource : validate_namespace_name source = Ok tt).
Context (Hne : dest <> source).

Lemma prefixes_disjoint a b : namespace_prefix dest +:+ a <> namespace_prefix source +:+ b.
Proof. intros E. by apply namespace_prefix_inj in E as [? _]. Qed.

(** Nothing outside the destination changes. *)
Definition outside_same (ns : string) (objs objs' : Objects) : Prop :=
  forall k, String.prefix (namespace_prefix ns) k = false -> objs' !! k = objs !! k.

Lemma outside_source objs objs' path :
  outside_same dest objs objs' -> objs' !! (namespace_prefix source +:+ path) = objs !! (namespace_prefix source +:+ path).
Proof.
  intros Ho. apply Ho. destruct (String.prefix _ _) eqn:E; [|done].
  apply prefix_app_iff in E as [t E]. symmetry in E. by apply prefixes_disjoint in E.
Qed.

Lemma outside_insert objs objs' suffix o :
  outside_same dest objs objs' -> outside_same dest objs (<[namespace_prefix dest +:+ suffix := o]> objs').
Proof.
  intros Ho k Hk. rewrite lookup_insert_ne; [by apply Ho|]. intros <-.
  assert (String.prefix (namespace_prefix dest) (namespace_prefix dest +:+ suffix) = true) by (apply prefix_app_iff; eauto). congruence.
Qed.

(** The objects whose source keys are listed have been copied. *)
Definition copied (objs : Objects) (done_keys : list string) (objs' : Objects) : Prop :=
  outside_same dest objs objs' /\
  forall path, fst <$> objs' !! (namespace_prefix dest +:+ path) =
    if decide (namespace_prefix source +:+ path ∈ done_keys) then fst <$> objs !! (namespace_prefix source +:+ path)
    else fst <$> objs !! (namespace_prefix dest +:+ path).

Lemma copied_step objs done_keys objs' suffix b t t' :
  copied objs done_keys objs' -> objs' !! (namespace_prefix source +:+ suffix) = Some (b, t) ->
  copied objs (done_keys ++ [namespace_prefix source +:+ suffix]) (<[namespace_prefix dest +:+ suffix := (b, t')]> objs').
Proof.
  intros [Ho Hc] Hs. rewrite (outside_source objs) in Hs by done. split; [by apply outside_insert|]. intros path.
  destruct (decide (path = suffix)) as [->|Hp].
  - rewrite lookup_insert_eq, decide_True by set_solver. by rewrite Hs.
  - rewrite lookup_insert_ne by (by intros ?%str_app_inv_l). rewrite Hc.
    assert (namespace_prefix source +:+ path <> namespace_prefix source +:+ suffix) as Hp' by (by intros ?%str_app_inv_l).
    destruct (decide (_ ∈ done_keys)); [rewrite decide_True by set_solver|rewrite decide_False by set_solver]; done.
Qed.

Lemma copy_keys_post objs done_keys keys w :
  copied objs done_keys (objects w) -> Forall (fun k => String.prefix (namespace_prefix source) k = true) keys ->
  st_post (copy_keys (namespace_prefix source) (namespace_prefix dest) keys) w (fun w' r =>
    outside_same dest objs (objects w') /\ (r = Ok tt -> copied objs (done_keys ++ keys) (objects w'))).
Proof.
  intros Hc Hk. revert done_keys w Hc. induction Hk as [|k keys Hk Hks IH]; intros done_keys w Hc.
  - unfold st_post. cbn. split; [apply Hc|]. intros _. by rewrite app_nil_r.
  - apply prefix_app_iff in Hk as [suffix ->]. cbn [copy_keys]. rewrite strip_prefix_app. cbn [ok_or].
    apply st_post_bind, st_post_result. unfold st_bind, st_lift, st_post.
    pose proof (bucket_copy_ok w (namespace_prefix source +:+ suffix) (namespace_prefix dest +:+ suffix)) as H1.
    pose proof (bucket_copy_err w (namespace_prefix source +:+ suffix) (namespace_prefix dest +:+ suffix)) as H2.
    destruct (bucket_copy w _ _) as [w' [[]|e]]; cbn in *.
    + destruct (H1 eq_refl) as (b & t & t' & Hs & Ho).
      pose proof (IH (done_keys ++ [namespace_prefix source +:+ suffix]) w') as HI. unfold st_post in HI.
      rewrite <- app_assoc in HI. apply HI. rewrite Ho. by eapply copied_step.
    + split; [|done]. destruct (H2 e eq_refl) as [->|[o ->]]; [apply Hc|apply outside_insert, Hc].
Qed.

(** The listed keys are those of the source; the destination had none. *)
Lemma clone_list_reads fuel :
  reads (clone_list fuel dest source) (fun objs keys =>
    ~ namespace_has objs dest /\ ((bucket_pages objs (namespace_prefix source) None <= fuel)%nat ->
      keys = bucket_pending objs (namespace_prefix source) None)).
Proof.
  unfold clone_list. destruct (String.eqb_spec dest source); [done|].
  eapply reads_bind; [apply namespace_exists_reads|]. intros objs [|] Hd w Hw; [done|].
  eapply st_post_bind, st_post_mono; [apply namespace_exists_reads|]. intros w1 [[|]|e] [Ho1 _]; [|done..]. cbn [negb].
  eapply st_post_bind, st_post_mono; [apply list_pages_reads|]. intros w2 [keys|e] [Ho2 Hk]; rewrite Ho1 in *; [|done].
  destruct keys as [|k keys]; [done|]. split; [done|]. rewrite Hw in Hk.
  split; [|done]. intros Hh. by apply Hd in Hh.
Qed.
End Copy.

(** ** Namespaces with the same bytes *)

Section SameBytes.
Context {IO : IterOrder} {WC : WalCodec} {MC : MetaCodec}.

Definition same_bytes (objs : Objects) (ns : string) (objs' : Objects) (ns' : string) : Prop :=
  forall path, fst <$> objs' !! (namespace_prefix ns' +:+ path) = fst <$> objs !! (namespace_prefix ns +:+ path).

Context (objs objs' : Objects) (ns ns' : string) (Hsame : same_bytes objs ns objs' ns').

Lemma same_object o : fst <$> objs' !! object_key ns' o = fst <$> objs !! object_key ns o.
Proof. rewrite !object_key_path. apply Hsame. Qed.

Lemma same_object_some o b t : objs !! object_key ns o = Some (b, t) -> exists t', objs' !! object_key ns' o = Some (b, t').
Proof.
  intros Hb. pose proof (same_object o) as H. rewrite Hb in H. destruct (objs' !! object_key ns' o) as [[b' t']|]; [|done].
  injection H as ->. by exists t'.
Qed.

Lemma same_segment seq e : segment_at objs ns seq e -> segment_at objs' ns' seq e.
Proof. intros (b & t & Hb & Hd). destruct (same_object_some (OWal seq) b t Hb) as [t' Hb']. by exists b, t'. Qed.

(** The state of a namespace is in the bytes of its objects. *)
Lemma same_ns_state m log : ns_state objs ns m log -> ns_state objs' ns' m log.
Proof.
  intros [H1 H2 H3 H4 H5 H6 H7]. split; try done.
  - destruct H1 as [[Hn ->]|(b & t & Hb & Hm)].
    + left. split; [|done]. pose proof (same_object OMeta) as H. cbn in H. rewrite Hn in H.
      by destruct (objs' !! meta_key ns').
    + right. destruct (same_object_some OMeta b t Hb) as [t' Hb']. by exists b, t'.
  - unfold snapshot_sound in *. pose proof (same_object OSnapshot) as H. cbn in H.
    destruct (objs !! wal_snapshot_key ns) as [[b t]|], (objs' !! wal_snapshot_key ns') as [[b' t']|]; try done.
    by injection H as ->.
  - intros seq e Hs He. apply same_segment. by eapply H6.
Qed.

Lemma same_snapshot_current m : snapshot_current objs ns m -> snapshot_current objs' ns' m.
Proof.
  intros [H|(b & t & s & Hb & Hs)]; [by left|]. right.
  destruct (same_object_some OSnapshot b t Hb) as [t' Hb']. by exists b, t', s.
Qed.
End SameBytes.

(** ** The operations *)

Section CloneOps.
Context {IO : IterOrder} {WC : WalCodec} {MC : MetaCodec} {S : ObjectStore} {BO : BucketOps} {BL : BucketLaws}.
Context (invalidate_disk : string -> World -> World).
Context (Hdisk : forall ns w, objects (invalidate_disk ns w) = objects w).

Definition sg_objects (sg : Storage) : Objects := objects (world (sg_buffer sg)).

(** A request, then the rest of the operation on the new world. *)
Lemma sg_bind_io {A B} (io : St StorageError A) (k : A -> SgM B) sg :
  sg_bind (sg_io io) k sg =
  let '(w, r) := io (world (sg_buffer sg)) in
  match r with Ok a => k a (put_world w sg) | Err e => (put_world w sg, Err e) end.
Proof. unfold sg_bind, sg_io. by destruct (io _) as [w [a|e]]. Qed.

Lemma clone_post fuel dest source sg :
  validate_namespace_name dest = Ok tt -> validate_namespace_name source = Ok tt ->
  (bucket_pages (sg_objects sg) (namespace_prefix source) None <= fuel)%nat ->
  let '(sg', r) := clone_namespace_s3 fuel invalidate_disk dest source sg in
  outside_same dest (sg_objects sg) (sg_objects sg') /\
  (r = Ok tt -> ~ namespace_has (sg_objects sg) dest /\ same_bytes (sg_objects sg) source (sg_objects sg') dest /\
     vc_views (sg_views sg') !! dest = None /\ lc_entry (sg_list_cache sg') = None).
Proof.
  intros Hd Hs Hfuel. unfold sg_objects in *. destruct (decide (dest = source)) as [->|Hne].
  { unfold clone_namespace_s3. rewrite sg_bind_io. unfold clone_list. rewrite String.eqb_refl. by split. }
  unfold clone_namespace_s3. rewrite sg_bind_io.
  pose proof (clone_list_reads dest source Hne fuel (world (sg_buffer sg))) as Hl. unfold st_post in Hl.
  destruct (clone_list fuel dest source _) as [w [keys|e]]; cbn in Hl; destruct Hl as [Ho Hl]; [|cbn; rewrite Ho; by split].
  destruct Hl as [Hempty Hkeys]. specialize (Hkeys Hfuel). rewrite sg_bind_io. cbn [put_world sg_buffer set_world world].
  pose proof (copy_keys_post dest source Hd Hs Hne (objects (world (sg_buffer sg))) [] keys w) as Hc. unfold st_post in Hc.
  destruct (copy_keys _ _ keys w) as [w2 r]. destruct Hc as [Ho2 Hc].
  - rewrite Ho. split; [done|]. intros path. by rewrite decide_False by (by apply not_elem_of_nil).
  - apply Forall_forall. intros k Hk. rewrite Hkeys in Hk. by apply bucket_pending_start in Hk as [? _].
  - destruct r as [[]|e]; [|by split]. cbn. rewrite Hdisk. split; [done|]. intros _. destruct (Hc eq_refl) as [_ Hcopy].
    split_and!; [done| |by rewrite lookup_delete_eq|done]. intros path. rewrite Hcopy, app_nil_l, Hkeys.
    destruct (decide _) as [Hin|Hni]; [done|].
    assert (objects (world (sg_buffer sg)) !! (namespace_prefix dest +:+ path) = None) as ->.
    { destruct (_ !! _) eqn:E; [|done]. destruct Hempty. eexists. split; [|by rewrite E]. apply prefix_app_iff. by eexists. }
    assert (objects (world (sg_buffer sg)) !! (namespace_prefix source +:+ path) = None) as ->; [|done].
    destruct (_ !! (namespace_prefix source +:+ path)) eqn:E; [|done]. destruct Hni. apply bucket_pending_start.
    split; [apply prefix_app_iff; by eexists|by rewrite E].
Qed.

End CloneOps.

Section DeleteOps.
Context {S : ObjectStore} {BO : BucketOps} {BL : BucketLaws}.

(** The keys the answers of a run of deletions say were not deleted; the code
    does not look at them. *)
Fixpoint chunk_failures (parts : list (list string)) (w : World) : list string :=
  match parts with
  | [] => []
  | ks :: rest =>
      match bucket_delete w ks with
      | (w', Ok failed) => failed ++ chunk_failures rest w'
      | (_, Err _) => []
      end
  end.

Definition delete_failures (fuel : nat) (ns : string) (w : World) : list string :=
  match namespace_exists ns w with
  | (w1, Ok _) =>
      match list_all_s3_keys fuel (namespace_prefix ns) w1 with
      | (w2, Ok keys) => chunk_failures (chunks 1000 keys) w2
      | (_, Err _) => []
      end
  | (_, Err _) => []
  end.

(** The keys of [gone] are absent, or as before and reported in [failed]; the
    others are as before. *)
Definition removed (objs : Objects) (gone failed : list string) (objs' : Objects) : Prop :=
  forall k, if decide (k ∈ gone) then objs' !! k = None \/ (k ∈ failed /\ objs' !! k = objs !! k) else objs' !! k = objs !! k.

Lemma removed_step objs gone failed w ks failed' :
  removed objs gone failed (objects w) -> (bucket_delete w ks).2 = Ok failed' ->
  removed objs (gone ++ ks) (failed ++ failed') (objects (bucket_delete w ks).1).
Proof.
  intros Hg Hok k. rewrite (bucket_delete_ok w ks failed' k Hok). specialize (Hg k).
  destruct (decide (k ∈ ks /\ k ∉ failed')) as [[Hk _]|Hn]; [rewrite decide_True by set_solver; by left|].
  destruct (decide (k ∈ gone)) as [Hin|Hni].
  - rewrite decide_True by set_solver. set_solver.
  - destruct (decide (k ∈ ks)) as [Hk|Hk]; [|by rewrite decide_False by set_solver].
    rewrite decide_True by set_solver. right. split; [|done]. apply elem_of_app. right.
    destruct (decide (k ∈ failed')); [done|]. by destruct Hn.
Qed.

(** Every chunk is deleted in turn; on an error only listed keys are gone. *)
Lemma delete_chunks_post parts objs gone failed w :
  removed objs gone failed (objects w) ->
  st_post (delete_chunks parts) w (fun w' r =>
    (r = Ok tt -> removed objs (gone ++ concat parts) (failed ++ chunk_failures parts w) (objects w')) /\
    forall k, k ∉ gone ++ concat parts -> objects w' !! k = objs !! k).
Proof.
  revert gone failed w. induction parts as [|ks parts IH]; intros gone failed w Hg.
  - unfold st_post. cbn. rewrite !app_nil_r. split; [done|]. intros k Hk. specialize (Hg k). by rewrite decide_False in Hg.
  - cbn [delete_chunks chunk_failures concat]. unfold st_bind, st_lift, st_post.
    pose proof (fun f => removed_step objs gone failed w ks f Hg) as H1.
    pose proof (bucket_delete_err w ks) as H2. destruct (bucket_delete w ks) as [w' [failed'|e]]; cbn in *.
    + pose proof (IH (gone ++ ks) (failed ++ failed') w' (H1 failed' eq_refl)) as HI. unfold st_post in HI.
      by rewrite <- !app_assoc in HI.
    + split; [done|]. intros k Hk. destruct (H2 e k eq_refl) as [->|[Hin _]]; [|set_solver].
      specialize (Hg k). rewrite decide_False in Hg; [done|set_solver].
Qed.

Lemma delete_post fuel ns sg :
  (bucket_pages (sg_objects sg) (namespace_prefix ns) None <= fuel)%nat ->
  let '(sg', r) := delete_namespace fuel ns sg in
  outside_same ns (sg_objects sg) (sg_objects sg') /\
  (r = Ok tt ->
     (forall k, String.prefix (namespace_prefix ns) k = true -> sg_objects sg' !! k = None \/
        (k ∈ delete_failures fuel ns (world (sg_buffer sg)) /\ sg_objects sg' !! k = sg_objects sg !! k)) /\
     vc_views (sg_views sg') !! ns = None /\ lc_entry (sg_list_cache sg') = None).
Proof.
  intros Hfuel. unfold sg_objects in *. unfold delete_namespace. rewrite sg_bind_io. unfold delete_namespace_objects, delete_failures.
  unfold st_bind at 1. pose proof (namespace_exists_reads ns (world (sg_buffer sg))) as He. unfold st_post in He.
  destruct (namespace_exists ns _) as [w1 [had|e]]; cbn in He; destruct He as [Ho1 _]; [|cbn; rewrite Ho1; by split].
  unfold st_bind at 1. pose proof (list_pages_reads (namespace_prefix ns) fuel None [] w1) as Hl. unfold st_post in Hl.
  unfold list_all_s3_keys. destruct (list_key_pages fuel _ None [] w1) as [w2 [keys|e]]; cbn in Hl; destruct Hl as [Ho2 Hk];
    [|cbn; rewrite Ho2, Ho1; by split].
  rewrite Ho1 in *. specialize (Hk Hfuel). destruct keys as [|k0 keys].
  - destruct had; cbn; rewrite Ho2; (split; [done|]); [|done]. intros _. split_and!; [|by rewrite lookup_delete_eq|done].
    intros k Hp. left. symmetry in Hk. apply pending_nil in Hk. destruct (objects _ !! k) eqn:E; [|done]. destruct Hk. exists k. by rewrite E.
  - pose proof (delete_chunks_post (chunks 1000 (k0 :: keys)) (objects (world (sg_buffer sg))) [] [] w2) as Hd.
    unfold st_post in Hd. rewrite chunks_concat in Hd by done. rewrite !app_nil_l in Hd.
    destruct (delete_chunks _ w2) as [w3 r]. destruct Hd as [Hok Hout].
    { intros k. by rewrite Ho2, decide_False by apply not_elem_of_nil. }
    assert (outside_same ns (objects (world (sg_buffer sg))) (objects w3)) as Houtside.
    { intros k Hp. apply Hout. rewrite Hk. rewrite bucket_pending_start. intros [? _]. congruence. }
    destruct r as [[]|e]; cbn -[chunks]; (split; [done|]); [|done]. intros _.
    split_and!; [|by rewrite lookup_delete_eq|done]. intros k Hp. pose proof (Hok eq_refl k) as Hgone.
    destruct (decide _) as [Hin|Hni]; [exact Hgone|]. left. cbn in Hgone |- *. rewrite Hgone. destruct (objects (world (sg_buffer sg)) !! k) eqn:E; [|done].
    destruct Hni. rewrite Hk. apply bucket_pending_start. by rewrite E.
Qed.
End DeleteOps.

(** ** A store that satisfies these laws *)

(** Pages of two keys; the token is as long as the number of keys already
    returned. *)
Definition prefix_keys (objs : Objects) (p : string) : list string :=
  List.filter (fun k => String.prefix p k) (map_to_list objs).*1.

Fixpoint marks (n : nat) : string := match n with O => "" | Datatypes.S n => String (Ascii.ascii_of_nat 120) (marks n) end.

Lemma marks_length n : String.length (marks n) = n.
Proof. induction n as [|n IH]; cbn; [done|by rewrite IH]. Qed.

Definition token_offset (t : option string) : nat := String.length (default "" t).

Definition calm_bucket : @BucketOps calm_store :=
  @Build_BucketOps calm_store
    (fun (w : MemWorld) k =>
      (w, match mem_objects w !! k with Some (b, _) => HeadFound (Some (lenZ b)) | None => HeadNotFound end))
    (fun (w : MemWorld) p t n =>
      let rest := drop (token_offset t) (prefix_keys (mem_objects w) p) in
      (w, Ok (take 2 rest, match drop 2 rest with [] => None | _ => Some (marks (token_offset t + 2)) end)))
    (fun (w : MemWorld) src dst =>
      match mem_objects w !! src with
      | Some (b, _) => (mem_tick (<[dst := (b, dec (mem_version w))]> (mem_objects w)) w, Ok tt)
      | None => (w, Err no_such_key)
      end)
    (fun (w : MemWorld) ks =>
      (mem_tick (filter (fun kv => kv.1 ∉ ks) (mem_objects w)) w, Ok [])).

Lemma prefix_keys_elem objs p k : k ∈ prefix_keys objs p <-> String.prefix p k = true /\ is_Some (objs !! k).
Proof.
  unfold prefix_keys. rewrite list_elem_of_In, filter_In, <- list_elem_of_In, list_elem_of_fmap. split.
  - intros [([k' o] & -> & Hin) Hp]. apply elem_of_map_to_list in Hin. cbn in *. eauto.
  - intros [Hp [o Ho]]. split; [|done]. exists (k, o). split; [done|]. by apply elem_of_map_to_list.
Qed.

#[export] Instance calm_bucket_laws : @BucketLaws calm_store calm_bucket.
Proof.
  refine {| bucket_pending := fun objs p t => drop (token_offset t) (prefix_keys objs p);
            bucket_pages := fun objs p t => Datatypes.S (length (drop (token_offset t) (prefix_keys objs p))) |}; cbn.
  - intros objs p k. apply prefix_keys_elem.
  - intros objs p. unfold prefix_keys. apply NoDup_ListNoDup, List.NoDup_filter, NoDup_ListNoDup, NoDup_fst_map_to_list.
  - done.
  - intros w k n. destruct (mem_objects w !! k) as [[b t]|]; [by eexists|done].
  - intros w k. by destruct (mem_objects w !! k) as [[b t]|].
  - done.
  - intros w p t page next [= <- <-]. set (rest := drop (token_offset t) (prefix_keys (mem_objects w) p)).
    destruct rest as [|k1 [|k2 [|k3 rest']]] eqn:E; cbn; try done. rewrite marks_length, <- drop_drop.
    fold rest. rewrite E. cbn. split; [done|lia].
  - intros. lia.
  - intros w p page next [= <- <-]. rewrite drop_0. by destruct (prefix_keys (mem_objects w) p).
  - intros w src dst. destruct (mem_objects w !! src) as [[b t]|] eqn:E; [|done]. intros _. by exists b, t, (dec (mem_version w)).
  - intros w src dst e. destruct (mem_objects w !! src) as [[b t]|]; [done|]. by left.
  - intros w ks failed k [= <-]. rewrite map_lookup_filter. destruct (decide _) as [[Hk _]|Hk].
    + destruct (mem_objects w !! k); cbn; [|done]. by rewrite option_guard_False by (intros ?; done).
    + destruct (mem_objects w !! k); cbn; [|done]. rewrite option_guard_True; [done|]. intros ?. apply Hk.
      split; [done|apply not_elem_of_nil].
  - done.
Defined.

(** ** Theorems *)

(** C15: a copy is exact.  Copying a namespace (which also is what a branch
    does) never changes an object outside the destination, whatever fails; when
    it succeeds the destination had no object before and now has exactly the
    source's objects, byte for byte, so that it has the source's metadata and
    committed log, and a cached view or listing of it is gone.  Listing takes
    several pages. *)
Theorem clone_exact {IO : IterOrder} {WC : WalCodec} {MC : MetaCodec} {S : ObjectStore} {BO : BucketOps} {BL : BucketLaws}
    (invalidate_disk : string -> World -> World) fuel dest source sg :
  (forall ns w, objects (invalidate_disk ns w) = objects w) ->
  validate_namespace_name dest = Ok tt -> validate_namespace_name source = Ok tt ->
  (bucket_pages (sg_objects sg) (namespace_prefix source) None <= fuel)%nat ->
  let '(sg', r) := clone_namespace_s3 fuel invalidate_disk dest source sg in
  outside_same dest (sg_objects sg) (sg_objects sg') /\
  (r = Ok tt ->
     ~ namespace_has (sg_objects sg) dest /\ same_bytes (sg_objects sg) source (sg_objects sg') dest /\
     (forall m log, ns_state (sg_objects sg) source m log -> ns_state (sg_objects sg') dest m log) /\
     (forall m, snapshot_current (sg_objects sg) source m -> snapshot_current (sg_objects sg') dest m) /\
     vc_views (sg_views sg') !! dest = None /\ lc_entry (sg_list_cache sg') = None).
Proof.
  intros Hdisk Hd Hs Hf. pose proof (clone_post invalidate_disk Hdisk fuel dest source sg Hd Hs Hf) as H.
  destruct (clone_namespace_s3 fuel invalidate_disk dest source sg) as [sg' r]. destruct H as [Ho Hr].
  split; [done|]. intros Hok. destruct (Hr Hok) as (H1 & H2 & H3 & H4). split_and!; try done.
  - intros m log. by apply same_ns_state.
  - intros m. by apply same_snapshot_current.
Qed.

Definition calm_storage (w : MemWorld) : @Storage calm_store :=
  @mkStorage calm_store (@manager_new calm_store 0 w) (vc_new 4) (mkListCache DEFAULT_NAMESPACE_LIST_TTL (Some (["ns"], 0))).

Definition calm_clone (w : MemWorld) : @Storage calm_store * result StorageError unit :=
  @clone_namespace_s3 calm_store calm_bucket 4 (fun _ w => w) "copy" "ns" (calm_storage w).

(** Three objects in two pages. *)
Definition three_world : MemWorld :=
  (@append_wal demo_codec demo_metas calm_store "ns" (put_entry "b") None None demo_world).1.

Lemma clone_exact_witness :
  let '(sg', r) := calm_clone three_world in
  r = Ok tt /\ @same_bytes (mem_objects three_world) "ns" (@sg_objects calm_store sg') "copy" /\
  (exists b t, @sg_objects calm_store sg' !! meta_key "copy" = Some (b, t) /\ @meta_from_slice demo_metas b = Some (meta_at 2)) /\
  length (prefix_keys (@sg_objects calm_store sg') "openpuffer/") = 6%nat.
Proof.
  pose proof (@clone_exact canonical_order demo_codec demo_metas calm_store calm_bucket calm_bucket_laws (fun _ w => w) 4 "copy" "ns"
    (calm_storage three_world) ltac:(reflexivity) ltac:(reflexivity) ltac:(reflexivity)) as H.
  assert (Hf : (@bucket_pages calm_store calm_bucket calm_bucket_laws (@sg_objects calm_store (calm_storage three_world))
    (namespace_prefix "ns") None <= 4)%nat) by (apply Nat.leb_le; vm_compute; reflexivity).
  specialize (H Hf). fold (calm_clone three_world) in H. destruct (calm_clone three_world) as [sg' r] eqn:Hc.
  assert (r = Ok tt) as -> by (apply (f_equal snd) in Hc; revert Hc; vm_compute; congruence).
  destruct H as [_ H]. split; [reflexivity|]. split; [by apply H|].
  apply (f_equal fst) in Hc. cbn in Hc. rewrite <- Hc. split; [|vm_compute; reflexivity].
  eexists _, _. split; [vm_compute; reflexivity|]. vm_compute. reflexivity.
Defined.

(** C16: a deletion is exact: it never changes an object outside the namespace,
    whatever fails.  When it succeeds, every object of the namespace is gone
    except those an answer of [DeleteObjects] in this run reported as not
    deleted, which are as they were ([partial_delete_reported_ok]); so nothing of
    the namespace is left when no failure was reported.  Its cached view and the
    listing are gone. *)
Theorem delete_exact {S : ObjectStore} {BO : BucketOps} {BL : BucketLaws} fuel ns sg :
  (bucket_pages (sg_objects sg) (namespace_prefix ns) None <= fuel)%nat ->
  let '(sg', r) := delete_namespace fuel ns sg in
  let failed := delete_failures fuel ns (world (sg_buffer sg)) in
  outside_same ns (sg_objects sg) (sg_objects sg') /\
  (r = Ok tt ->
     (forall k, String.prefix (namespace_prefix ns) k = true -> sg_objects sg' !! k = None \/
        (k ∈ failed /\ sg_objects sg' !! k = sg_objects sg !! k)) /\
     (failed = [] -> ~ namespace_has (sg_objects sg') ns) /\
     vc_views (sg_views sg') !! ns = None /\ lc_entry (sg_list_cache sg') = None).
Proof.
  intros Hf. pose proof (delete_post fuel ns sg Hf) as H. destruct (delete_namespace fuel ns sg) as [sg' r]. destruct H as [H1 H2].
  split; [done|]. intros Hr. destruct (H2 Hr) as (Hk & Hv & Hl). split_and!; [done| |done..].
  intros Hn (k & Hp & Hs). rewrite Hn in Hk. destruct (Hk k Hp) as [E|[Hin _]]; [by rewrite E in Hs; destruct Hs|].
  by apply not_elem_of_nil in Hin.
Qed.

Definition calm_delete (w : MemWorld) : @Storage calm_store * result StorageError unit :=
  @delete_namespace calm_store calm_bucket 4 "ns" (calm_storage w).

Lemma delete_exact_witness :
  let '(sg', r) := calm_delete three_world in
  r = Ok tt /\ ~ @namespace_has (@sg_objects calm_store sg') "ns".
Proof.
  assert (Hf : (@bucket_pages calm_store calm_bucket calm_bucket_laws (@sg_objects calm_store (calm_storage three_world))
    (namespace_prefix "ns") None <= 4)%nat) by (apply Nat.leb_le; vm_compute; reflexivity).
  pose proof (@delete_exact calm_store calm_bucket calm_bucket_laws 4 "ns" (calm_storage three_world) Hf) as H.
  fold (calm_delete three_world) in H. destruct (calm_delete three_world) as [sg' r] eqn:Hc.
  assert (r = Ok tt) as -> by (apply (f_equal snd) in Hc; revert Hc; vm_compute; congruence).
  split; [reflexivity|]. destruct H as [_ H]. destruct (H eq_refl) as (_ & Hn & _). apply Hn. vm_compute. reflexivity.
Defined.

(** ** Findings *)

(** A store that answers a deletion with an error for the keys of [stuck]. *)
Definition stuck_bucket (stuck : list string) : @BucketOps calm_store :=
  @Build_BucketOps calm_store (@bucket_head _ calm_bucket) (@bucket_list _ calm_bucket) (@bucket_copy _ calm_bucket)
    (fun (w : MemWorld) ks =>
      (mem_tick (filter (fun kv => kv.1 ∉ ks \/ kv.1 ∈ stuck) (mem_objects w)) w, Ok (List.filter (fun k => bool_decide (k ∈ stuck)) ks))).

(** a deletion can report success and leave the namespace broken.
    [DeleteObjects] answers per key; the answer is not looked at, so when the
    metadata could not be deleted the operation succeeds, the namespace still
    exists, and loading it fails because its segments are gone. *)
Theorem partial_delete_reported_ok :
  let out := @delete_namespace calm_store (stuck_bucket [meta_key "ns"]) 4 "ns" (calm_storage demo_world) in
  let w' := @world calm_store (sg_buffer out.1) in
  out.2 = Ok tt /\
  (@namespace_exists calm_store (stuck_bucket []) "ns" w').2 = Ok true /\
  (exists v, (@view_load canonical_order demo_codec demo_metas calm_store PolicyFail "ns" demo_world).2 = Ok v) /\
  exists e, (@view_load canonical_order demo_codec demo_metas calm_store PolicyFail "ns" w').2 = Err e.
Proof. cbv zeta. split_and!; [vm_compute; reflexivity..|eexists; vm_compute; reflexivity|eexists; vm_compute; reflexivity]. Qed.

(** a copy taken during a write can be unusable.  The keys are listed
    first and the objects copied one by one afterwards; when a write commits in
    between, the copied metadata names a segment that was not listed.  The copy
    reports success and cannot be loaded. *)
Theorem copy_during_write_unloadable :
  match (@clone_list calm_store calm_bucket 4 "copy" "ns" demo_world).2 with
  | Ok keys =>
      let out := @copy_keys calm_store calm_bucket (namespace_prefix "ns") (namespace_prefix "copy") keys three_world in
      out.2 = Ok tt /\
      (exists v, (@view_load canonical_order demo_codec demo_metas calm_store PolicyFail "ns" out.1).2 = Ok v) /\
      exists e, (@view_load canonical_order demo_codec demo_metas calm_store PolicyFail "copy" out.1).2 = Err e
  | Err _ => False
  end.
Proof.
  vm_compute. split; [reflexivity|]. split; eexists; reflexivity.
Qed.
