(* ===== verification/StorageSpec.v ===== *)
(** * What a load returns, and what copies and deletions do

    A strong load returns the documents of the committed log with a filter
    index and an unindexed tail that make filters exact, from the cache, from
    the store in rounds, or from a view already in memory.  A filter-based
    write touches exactly the matching documents.  A copy has the source's log,
    and a deletion removes exactly the namespace. *)

From Stdlib Require Import ZArith Lia Bool.
From stdpp Require Import base gmap strings list.
From S2P Require Import Prelude F64 Json Models Filter Keys Schema Meta Wal WalReplay ObjectStore Namespace Monitor Durability Compaction FilterIndex View ViewCache Export Buffer VectorEncoding Fts Vector Search SearchSpec VectorBuild Cache Indexer IndexerMonitor IndexerSpec ColdFetch ColdSpec Storage StorageMonitor CloneSpec.

(** ** The cache invariant survives reads *)

Section Confine.
Context {IO : IterOrder} {WC : WalCodec} {MC : MetaCodec} {S : ObjectStore} {SL : StoreLaws} {CO : CompletionOrder}.
Context {LC : LocalCache} {LL : LocalCacheLaws} {CR : CachedReads} {CL : CachedReadsLaws} {SC : SegmentCodec}.
Context (policy : WalCorruptPolicy) (max_keys : Z) (K : string -> Prop).

Lemma confined_cold_ns {A} (m : St NsError A) : confined K m -> confined K (cold_ns m).
Proof. intros Hm w Hw. specialize (Hm w Hw). unfold st_post, cold_ns in *. by destruct (m w) as [w' [a|e]]. Qed.

Lemma confined_sg_map {E A} (f : E -> StorageError) (m : St E A) : confined K m -> confined K (sg_map f m).
Proof. intros Hm w Hw. specialize (Hm w Hw). unfold st_post, sg_map in *. by destruct (m w) as [w' [a|e]]. Qed.

Lemma confined_fetch_each allow keys out : confined K (fetch_each allow keys out).
Proof.
  revert out. induction keys as [|k keys IH]; intros out; cbn [fetch_each]; [apply confined_ret|].
  apply confined_bind; [apply confined_cold_ns, confined_get_bytes_optional|].
  intros [[b et]|]; [apply IH|]. destruct allow; [apply IH|apply confined_err].
Qed.

Lemma confined_fetch_round keys allow : confined K (fetch_round_inner max_keys keys allow).
Proof.
  unfold fetch_round_inner. destruct keys as [|k keys]; [apply confined_ret|].
  apply confined_bind; [apply confined_result|]. intros _. generalize (∅ : gmap string bytes).
  induction (chunks max_keys (k :: keys)) as [|c cs IH]; intros out; cbn [fetch_chunks]; [apply confined_ret|].
  apply confined_bind; [apply confined_fetch_each|]. intros b. apply IH.
Qed.

Lemma confined_bootstrap ns meta : confined K (fetch_cold_index_bootstrap max_keys ns meta).
Proof.
  unfold fetch_cold_index_bootstrap. apply confined_bind; [apply confined_fetch_round|]. intros f.
  apply confined_bind; [apply confined_result|]. intros fts. apply confined_bind.
  - destruct (_ && _); [|apply confined_ret]. apply confined_bind; [apply confined_fetch_round|]. intros e.
    apply confined_bind; [apply confined_result|]. intros fts'. apply confined_ret.
  - intros [fts' n]. apply confined_bind; [apply confined_result|]. intros fil. apply confined_ret.
Qed.

Lemma confined_batched ns from to : confined K (replay_wal_entries_batched max_keys policy ns from to).
Proof.
  unfold replay_wal_entries_batched. destruct (_ || _); [apply confined_ret|].
  apply confined_bind; [apply confined_fetch_round|intros; apply confined_result].
Qed.

Lemma confined_replay ns from to : confined K (replay_wal_entries ns from to).
Proof.
  unfold replay_wal_entries. destruct (_ || _); [apply confined_ret|]. generalize (range_incl from to). intros seqs.
  induction seqs as [|seq seqs IH]; cbn [read_entries]; [apply confined_ret|].
  apply confined_bind; [apply confined_entry|]. intros e. apply confined_bind; [exact IH|]. intros es. apply confined_ret.
Qed.

Lemma confined_load_l0s max_probe build ns meta : confined K (load_vector_l0_for_query max_probe build ns meta).
Proof.
  unfold load_vector_l0_for_query. generalize (∅ : gmap string CentroidIndexL0).
  induction (effective_vector_fields meta) as [|c cs IH]; intros out; cbn [load_l0s]; [apply confined_ret|].
  destruct (_ || _); [apply IH|]. apply confined_bind; [apply confined_load_l0|]. intros o. apply IH.
Qed.

Lemma confined_load_docs ns meta : confined K (load_docs_at_wal_commit policy ns meta).
Proof.
  unfold load_docs_at_wal_commit, read_wal_snapshot. apply confined_bind.
  - destruct (0 <? _); [|apply confined_ret]. apply confined_bind.
    + apply confined_bind; [apply confined_get_bytes_optional|]. intros [[b et]|]; [|apply confined_ret].
      apply confined_bind; [apply confined_result|intros; apply confined_ret].
    + intros [s|]; [destruct (_ =? _)|]; apply confined_ret.
  - intros [docs last]. destruct (wal_replay_from _ _); [|apply confined_ret].
    apply confined_bind; [apply confined_replay_range|intros; apply confined_ret].
Qed.

Lemma confined_build ns meta seed : confined K (build_doc_last_wal_seq ns meta seed).
Proof.
  unfold build_doc_last_wal_seq. match goal with |- confined K (build_seq_map ns ?m0 ?l) => generalize m0; generalize l end.
  intros seqs. induction seqs as [|seq l IH]; intros m1; cbn [build_seq_map]; [apply confined_ret|].
  apply confined_bind; [apply confined_entry|]. intros e. apply IH.
Qed.

Lemma confined_view_load ns : confined K (view_load policy ns).
Proof.
  unfold view_load. apply confined_bind; [apply confined_fetch_meta|]. intros [[meta et]|]; [|apply confined_ret].
  apply confined_bind; [apply confined_load_docs|]. intros [docs last].
  apply confined_bind; [apply confined_build|intros; apply confined_ret].
Qed.

Lemma confined_open_cold ns include_wal : confined K (load_cold_batched max_keys policy ns include_wal).
Proof.
  unfold load_cold_batched. destruct include_wal; cbn [negb]; (apply confined_bind;
    [apply confined_bind; [apply confined_cold_ns, confined_fetch_meta|]; intros [[meta et]|]|]);
    try apply confined_ret.
  - destruct (wal_round_keys ns meta); [apply confined_ret|].
    apply confined_bind; [apply confined_fetch_round|intros; apply confined_ret].
  - intros [[[[meta et] wb] rt] nk]. destruct (_ && _); [apply confined_ret|].
    apply confined_bind; [apply confined_result|intros; apply confined_ret].
  - intros [[[meta et] rt] nk]. destruct (_ && _); apply confined_ret.
Qed.

Lemma cache_inv_of_confined {E A} (m : St E A) w : confined K m -> cache_inv w -> cache_inv (m w).1.
Proof. intros Hm Hw. by destruct (Hm w Hw). Qed.

Lemma catch_up_cache ns v w : cache_inv w -> cache_inv (catch_up policy ns v w).1.
Proof.
  intros Hw. unfold catch_up. pose proof (cache_inv_of_confined _ w (confined_fetch_meta K ns) Hw) as H1.
  destruct (fetch_meta ns w) as [w1 [[[meta et]|]|e]]; cbn in *; [|done..].
  destruct (_ <=? _); [done|]. destruct (_ <? _).
  - pose proof (cache_inv_of_confined _ w1 (confined_load_docs ns meta) H1) as H2.
    destruct (load_docs_at_wal_commit policy ns meta w1) as [w2 [[docs last]|e]]; [|done]. cbn in H2.
    pose proof (cache_inv_of_confined _ w2 (confined_build ns meta (Some docs)) H2) as H3.
    by destruct (build_doc_last_wal_seq ns meta (Some docs) w2) as [w3 [sm|e]].
  - match goal with |- context [catch_up_loop ns v ?l w1] => set (seqs := l); clearbody seqs end.
    assert (cache_inv (catch_up_loop ns v seqs w1).1) as H2.
    { revert v w1 H1. induction seqs as [|seq seqs IH]; intros v w1 H1; cbn [catch_up_loop]; [done|].
      pose proof (cache_inv_of_confined _ w1 (confined_entry K ns seq) H1) as H2.
      destruct (read_wal_entry ns seq w1) as [w2 [e|e]]; cbn in H2; [|done].
      destruct (apply_entry (v_docs v) e) as [docs [u|e']]; [by apply IH|done]. }
    by destruct (catch_up_loop ns v seqs w1) as [w2 [v2 [u|e]]].
Qed.
End Confine.

(** ** A loaded namespace *)

Section Loaded.
Context {IO : IterOrder} {WC : WalCodec} {MC : MetaCodec} {S : ObjectStore} {SL : StoreLaws} {CO : CompletionOrder}.
Context {LC : LocalCache} {LL : LocalCacheLaws} {CR : CachedReads} {CL : CachedReadsLaws} {SC : SegmentCodec}.
Context {TL : TextLib} {FT : F64Text} {VL : VectorLib}.
Context (policy : WalCorruptPolicy) (max_keys max_probe_clusters : Z) (ann_build : AnnBuildConfig) (cache_enabled : bool).
Context (Hmax : 0 < max_keys).

(** The filter segment is the stored one the metadata names. *)
Definition filter_stored (objs : Objects) (ns : string) (m : NamespaceMeta) (o : option FilterSegment) : Prop :=
  match o with
  | None => True
  | Some seg => filter_segment_id m <> 0 /\ index_cursor m <> 0 /\
      exists b t, objs !! filter_segment_key ns (filter_segment_id m) = Some (b, t) /\ filter_deserialize b = Some seg
  end.

(** The tail names the documents of a suffix of the log that reaches back to
    the index cursor at least. *)
Definition tail_covers (m : NamespaceMeta) (log : list WalEntry) (tail : gset string) : Prop :=
  exists k, 0 <= k <= index_cursor m /\ tail = wal_touched_doc_ids (drop (Z.to_nat k) log).

Lemma decode_filter_stored ns m objs keys o :
  decode_filter_from_round ns m (fetched_of objs keys) = Ok o -> filter_stored objs ns m o.
Proof.
  unfold decode_filter_from_round. destruct (_ || _) eqn:E; [by intros [= <-]|].
  apply orb_false_iff in E as [E1%Z.eqb_neq E2%Z.eqb_neq].
  destruct (fetched_of objs keys !! _) as [b|] eqn:Hb; [|by intros [= <-]].
  apply fetched_of_some in Hb as [_ Hb]. unfold ok_or. destruct (filter_deserialize b) as [seg|] eqn:Hs; [|done].
  cbn. intros [= <-]. split_and!; [done..|]. destruct (objs !! _) as [[b' t]|]; [|done]. injection Hb as ->. by exists b, t.
Qed.

Lemma bootstrap_reads ns m :
  reads (fetch_cold_index_bootstrap max_keys ns m) (fun objs art =>
    filter_stored objs ns m (ba_filter art)).
Proof.
  unfold fetch_cold_index_bootstrap. eapply reads_bind; [by apply fetch_round_reads|]. intros objs f [-> _] w Hw.
  apply st_post_bind, st_post_result. destruct (decode_fts_from_round _ _ _) as [fts|e]; [|done]. apply st_post_bind.
  assert (forall w1 (out : option FtsSegment * Z), objects w1 = objects w ->
    st_post (let '(fts, nk) := out in
      do? fil <- st_result (decode_filter_from_round ns m (fetched_of objs (round2_bootstrap_keys ns m)));
      st_ret (mkBootstrap fts fil ∅ (nonempty (round2_bootstrap_keys ns m)) nk)) w1
      (fun w' r => objects w' = objects w /\
        match r with Ok art => filter_stored objs ns m (ba_filter art) | Err _ => True end)) as Hk.
  { intros w1 [fts1 nk] Ho. apply st_post_bind, st_post_result.
    destruct (decode_filter_from_round _ _ _) as [fil|e] eqn:Hd; (split; [done|]); [|done].
    by apply decode_filter_stored in Hd. }
  destruct (_ && _); [|by apply (Hk w (_, _))]. apply st_post_bind.
  eapply st_post_mono; [by apply fetch_round_reads|]. intros w1 [ex|e] [Ho _]; [|done].
  apply st_post_bind, st_post_result. destruct (decode_fts_from_round _ _ _) as [fts1|e]; [|done].
  by apply (Hk w1 (_, _)).
Qed.

Lemma load_filter_stored ns m : creads (load_filter_segment_for_query ns m) (fun objs o => filter_stored objs ns m o).
Proof.
  unfold load_filter_segment_for_query. destruct (_ || _) eqn:E; [by apply creads_ret|].
  apply orb_false_iff in E as [E1 E2%Z.eqb_neq]. eapply creads_weaken; [apply load_filter_reads|].
  intros objs o. rewrite E1. apply Z.eqb_neq in E1. by destruct o.
Qed.

Lemma decode_entries_exact ns raw objs seqs es :
  (forall seq, seq ∈ seqs -> raw !! wal_key ns seq = fst <$> objs !! wal_key ns seq) ->
  Forall2 (segment_at objs ns) seqs es -> decode_entries policy ns raw seqs = Ok es.
Proof.
  intros Hraw Hes. induction Hes as [|seq e seqs es (b & t & Hb & Hd) Hes IH]; [done|]. cbn.
  rewrite Hraw, Hb by left. cbn. unfold decode_segment_with_policy. rewrite Hd.
  rewrite IH; [done|]. intros s Hs. apply Hraw. by right.
Qed.

Lemma batched_entries_reads ns from to :
  reads (replay_wal_entries_batched max_keys policy ns from to) (fun objs es =>
    1 <= from -> forall es', Forall2 (segment_at objs ns) (range_incl from to) es' -> es = es').
Proof.
  unfold replay_wal_entries_batched. destruct (_ || _) eqn:E.
  - apply reads_ret. intros objs Hf es' H. rewrite !orb_true_iff, !Z.eqb_eq, Z.ltb_lt in E.
    rewrite range_incl_empty in H by lia. by inversion H.
  - eapply reads_bind; [by apply fetch_round_reads|]. intros objs raw [-> _] w Hw. apply st_post_result.
    destruct (decode_entries _ _ _ _) as [es|e] eqn:Hd; (split; [done|]); [|done]. intros _ es' H.
    rewrite (decode_entries_exact ns _ objs _ es') in Hd; [congruence| |done].
    intros seq Hseq. rewrite fetched_of_lookup, decide_True; [done|]. unfold wal_keys_from. by apply list_elem_of_fmap_2.
Qed.

Lemma tail_entries_reads ns from to :
  reads (replay_wal_entries ns from to) (fun objs es =>
    1 <= from -> forall es', Forall2 (segment_at objs ns) (range_incl from to) es' -> es = es').
Proof.
  destruct (decide (1 <= from)) as [Hf|Hf].
  - eapply reads_weaken; [by apply replay_entries_reads|]. done.
  - unfold replay_wal_entries. destruct (_ || _); [by apply reads_ret|].
    eapply reads_weaken; [apply entries_reads|]. done.
Qed.

(** The range of the tail starts after the cursor, or after the snapshot. *)
Lemma tail_range_spec m log objs ns :
  ns_state objs ns m log -> lenZ log < u64_max ->
  match unindexed_wal_tail_range m with
  | None => lenZ log <= index_cursor m
  | Some (from, to) => to = lenZ log /\ 1 <= from /\ wal_snapshot_seq m < from <= index_cursor m + 1
  end.
Proof.
  intros Hst Hl. pose proof (wf_cursors _ (nss_wf _ _ _ _ Hst)). pose proof (nss_commit _ _ _ _ Hst) as Hcom.
  unfold unindexed_wal_tail_range. rewrite Hcom. destruct (_ <=? _) eqn:E; case_bool; [lia|].
  assert (sat_add64 (index_cursor m) 1 = index_cursor m + 1) as -> by (unfold sat_add64; lia).
  destruct (0 <? wal_snapshot_seq m) eqn:Es; case_bool.
  - rewrite wal_replay_from_cases by lia. destruct (_ <=? _) eqn:E1; case_bool; [lia|]. cbn.
    destruct (lenZ log <? _) eqn:E2; case_bool; lia.
  - destruct (lenZ log <? _) eqn:E2; case_bool; lia.
Qed.

Lemma tail_covers_range m log objs ns from es :
  ns_state objs ns m log -> 1 <= from -> wal_snapshot_seq m < from <= index_cursor m + 1 ->
  (forall es', Forall2 (segment_at objs ns) (range_incl from (lenZ log)) es' -> es = es') ->
  tail_covers m log (wal_touched_doc_ids es).
Proof.
  intros Hst Hf Hs Hes. exists (from - 1). split; [lia|]. f_equal. apply Hes. apply (segments_range _ _ m); [done|lia..].
Qed.

Lemma creads_sg_map {E A} (f : E -> StorageError) (m : St E A) P : creads m P -> creads (sg_map f m) P.
Proof. intros Hm w Hw. specialize (Hm w Hw). unfold st_post, sg_map in *. by destruct (m w) as [w' [a|e]]. Qed.

(** What a load read: the documents of the view, the stored filter segment and
    the tail. *)
Definition loaded_of (objs : Objects) (ns : string) (v : NamespaceView) (ln : LoadedNamespace) : Prop :=
  ln_docs ln = v_docs v /\ ln_meta ln = v_meta v /\ filter_stored objs ns (v_meta v) (ln_filter_index ln) /\
  forall log, ns_state objs ns (v_meta v) log -> lenZ log < u64_max -> tail_covers (v_meta v) log (ln_tail_doc_ids ln).

(** The artifacts of the index, from rounds or through the cache. *)
Lemma artifacts_creads ns meta k0 :
  creads (if cold_batch cache_enabled then
       do? art <- sg_map SgCold (fetch_cold_index_bootstrap max_keys ns meta);
       st_ret (ba_fts art, ba_l0_by_field art, ba_filter art, ba_storage_roundtrips art,
               sat_add32 k0 (ba_s3_keys_fetched art))
     else
       do? fts <- sg_map SgIx (load_fts_segment_for_query ns meta);
       do? l0 <- sg_map SgIx (load_vector_l0_for_query max_probe_clusters ann_build ns meta);
       do? fil <- sg_map SgIx (load_filter_segment_for_query ns meta);
       st_ret (fts, l0, fil, 0, 0))
    (fun objs out => filter_stored objs ns meta out.1.1.2).
Proof.
  destruct (cold_batch cache_enabled).
  - eapply creads_then; [apply creads_sg_map, creads_of_reads; [apply bootstrap_reads|apply confined_bootstrap]|].
    intros art. by apply creads_ret.
  - eapply creads_then; [apply creads_sg_map, creads_of_confined; unfold load_fts_segment_for_query;
      destruct (_ || _); [apply confined_ret|apply confined_load_fts]|]. intros fts.
    eapply creads_then; [apply creads_sg_map, creads_of_confined, confined_load_l0s|]. intros l0.
    eapply creads_then; [apply creads_sg_map, (load_filter_stored ns meta)|]. intros fil. by apply creads_ret.
Qed.

Lemma tail_creads ns meta rt nk :
  creads (if index_cursor meta <? wal_commit_seq meta then
       if cold_batch cache_enabled then
         do? out <- sg_map SgCold (fetch_cold_unindexed_wal_tail max_keys policy ns meta);
         let '(entries, tail_roundtrips, tail_keys) := out in
         st_ret (wal_touched_doc_ids entries, sat_add32 rt tail_roundtrips, sat_add32 nk tail_keys)
       else
         match unindexed_wal_tail_range meta with
         | Some (from, to) =>
             do? entries <- sg_map SgNs (replay_wal_entries ns from to);
             st_ret (wal_touched_doc_ids entries, rt, nk)
         | None => st_ret (wal_touched_doc_ids [], rt, nk)
         end
     else st_ret (∅, rt, nk))
    (fun objs out => forall log, ns_state objs ns meta log -> lenZ log < u64_max -> tail_covers meta log out.1.1).
Proof.
  assert (forall objs log, ns_state objs ns meta log -> lenZ log <= index_cursor meta ->
    tail_covers meta log (wal_touched_doc_ids [])) as Hnone.
  { intros objs log Hst Hle. pose proof (wf_cursors _ (nss_wf _ _ _ _ Hst)). exists (index_cursor meta).
    split; [lia|]. by rewrite drop_ge by (unfold lenZ in *; lia). }
  destruct (_ <? _) eqn:E; case_bool.
  2: { apply creads_ret. intros objs log Hst _. apply (Hnone objs); [done|].
       pose proof (nss_commit _ _ _ _ Hst). lia. }
  assert (forall (es : list WalEntry) from to objs log, unindexed_wal_tail_range meta = Some (from, to) ->
    (1 <= from -> forall es', Forall2 (segment_at objs ns) (range_incl from to) es' -> es = es') ->
    ns_state objs ns meta log -> lenZ log < u64_max -> tail_covers meta log (wal_touched_doc_ids es)) as Hsome.
  { intros es from to objs log Hr Hes Hst Hl. pose proof (tail_range_spec meta log objs ns Hst Hl) as Hs.
    rewrite Hr in Hs. destruct Hs as (-> & H1 & H2). by eapply tail_covers_range; eauto. }
  unfold fetch_cold_unindexed_wal_tail in *.
  destruct (unindexed_wal_tail_range meta) as [[from to]|] eqn:Hr.
  - pose proof (creads_of_reads _ _ (batched_entries_reads ns from to) (confined_batched policy max_keys _ ns from to)) as Hbatch.
    destruct (cold_batch cache_enabled).
    + eapply creads_then; [eapply creads_sg_map, (creads_then _ _ _ (fun objs out => 1 <= from ->
          forall es', Forall2 (segment_at objs ns) (range_incl from to) es' -> out.1.1 = es') Hbatch);
          intros es; by apply creads_ret|].
      intros [[es a] b]. apply creads_ret. cbn. intros objs Hes log. by apply Hsome with from to.
    + eapply creads_then; [apply creads_sg_map, creads_of_reads; [apply tail_entries_reads|apply confined_replay]|].
      intros es. apply creads_ret. cbn. intros objs Hes log. by apply Hsome with from to.
  - assert (forall objs log, ns_state objs ns meta log -> lenZ log < u64_max -> tail_covers meta log (wal_touched_doc_ids [])) as Hn.
    { intros objs log Hst Hl. apply (Hnone objs); [done|]. pose proof (tail_range_spec meta log objs ns Hst Hl) as Hs.
      by rewrite Hr in Hs. }
    destruct (cold_batch cache_enabled); [|by apply creads_ret].
    eapply creads_then; [apply creads_sg_map; by apply (creads_ret _ (fun _ out => out.1.1 = []))|].
    intros [[es a] b]. apply creads_ret. cbn. intros objs ->. apply Hn.
Qed.

(** Every load, with its tail. *)
Lemma loaded_creads ns v rt nk :
  creads (loaded_from_view policy max_keys max_probe_clusters ann_build cache_enabled ns v rt nk false)
    (fun objs ln => loaded_of objs ns v ln).
Proof.
  unfold loaded_from_view. eapply creads_then; [apply artifacts_creads|].
  intros [[[[fts l0] fil] irt] ikeys]. eapply creads_then; [apply tail_creads|].
  intros [[tail srt] skeys]. apply creads_ret. intros objs Htail Hfil. by split_and!.
Qed.
End Loaded.

(** ** The state a load starts from *)

Section LoadState.
Context {IO : IterOrder} {WC : WalCodec} {MC : MetaCodec} {S : ObjectStore} {SL : StoreLaws} {HM : NoMisreads}.
Context {CO : CompletionOrder} {LC : LocalCache} {LL : LocalCacheLaws} {CR : CachedReads} {CL : CachedReadsLaws}.
Context {SC : SegmentCodec} {TL : TextLib} {FT : F64Text} {VL : VectorLib}.
Context (policy : WalCorruptPolicy) (max_keys max_probe_clusters : Z) (ann_build : AnnBuildConfig) (cache_enabled : bool).

Definition sg_world (sg : Storage) : World := world (sg_buffer sg).

(** The view a process holds of the namespace, if it holds one, is a view of its log. *)
Definition views_ok (sg : Storage) (ns : string) (log : list WalEntry) : Prop :=
  forall v, vc_views (sg_views sg) !! ns = Some v -> view_of log v.

(** What a load of the namespace at [m] and [log] must give. *)
Definition loaded_exact (objs : Objects) (ns : string) (m : NamespaceMeta) (log : list WalEntry) (ln : LoadedNamespace) : Prop :=
  replay ∅ log = Ok (ln_docs ln) /\ ln_meta ln = m /\ filter_stored objs ns m (ln_filter_index ln) /\
  tail_covers m log (ln_tail_doc_ids ln).

Context (ns : string) (m : NamespaceMeta) (log : list WalEntry).
Context (Hmax : 0 < max_keys) (Hlen : lenZ log < u64_max).

(** The namespace, in the store of [w]. *)
Definition load_state (w : World) : Prop :=
  cache_inv w /\ ns_state (objects w) ns m log /\ snapshot_current (objects w) ns m /\ is_Some (objects w !! meta_key ns).

Lemma load_state_keep w w' : load_state w -> objects w' = objects w -> cache_inv w' -> load_state w'.
Proof. intros (H1 & H2 & H3 & H4) Ho Hc. unfold load_state. by rewrite Ho. Qed.

Lemma catch_up_load v w :
  load_state w -> view_of log v ->
  let '(w', (v', r)) := catch_up policy ns v w in
  load_state w' /\ objects w' = objects w /\ view_of log v' /\
  (is_ok r = true -> replay ∅ log = Ok (v_docs v') /\ v_meta v' = m).
Proof.
  intros Hw Hv. pose proof Hw as (Hc & Hst & Hcur & Hm).
  pose proof (catch_up_post policy ns m log v w Hlen Hst Hcur Hv) as H.
  pose proof (catch_up_cache policy (fun _ => False) ns v w Hc) as Hc'.
  destruct (catch_up policy ns v w) as [w' [v' r]]. destruct H as (Ho & Hv' & Hr).
  split_and!; [by eapply load_state_keep|done..|]. intros Hok. destruct (Hr Hok) as [Hd Hmeta].
  split; [done|]. by destruct (Hmeta Hm).
Qed.

Lemma load_from_view v w rt nk :
  load_state w -> replay ∅ log = Ok (v_docs v) -> v_meta v = m ->
  st_post (loaded_from_view policy max_keys max_probe_clusters ann_build cache_enabled ns v rt nk false) w
    (fun w' r => load_state w' /\ objects w' = objects w /\
      match r with Ok ln => loaded_exact (objects w) ns m log ln | Err _ => True end).
Proof.
  intros Hw Hd Hm. pose proof Hw as (Hc & Hst & _).
  eapply st_post_mono; [by apply loaded_creads|]. intros w' [ln|e] (Hc' & Ho & H).
  - split_and!; [by eapply load_state_keep|done|]. destruct H as (H1 & H2 & H3 & H4). rewrite Hm in *.
    split_and!; [by rewrite H1|done..|by apply H4].
  - by split_and!; [eapply load_state_keep| |].
Qed.

Lemma open_view_load w :
  load_state w ->
  st_post (open_view policy max_keys cache_enabled ns true) w (fun w' r => load_state w' /\ objects w' = objects w /\
    match r with Ok out => view_of log out.1.1 | Err _ => True end).
Proof.
  intros Hw. pose proof Hw as (Hc & Hst & Hcur & _).
  assert (forall v, view_current (objects w) ns m log v -> view_of log v) as Hview.
  { intros v (_ & _ & Hl & Hd). apply (view_of_full log v (v_docs v)); [done..|]. unfold lenZ in *. lia. }
  assert (forall (P : Objects -> NamespaceView * Z * Z -> Prop),
    creads (open_view policy max_keys cache_enabled ns true) P -> (forall out, P (objects w) out -> view_of log out.1.1) ->
    st_post (open_view policy max_keys cache_enabled ns true) w (fun w' r => load_state w' /\ objects w' = objects w /\
      match r with Ok out => view_of log out.1.1 | Err _ => True end)) as Hgo.
  { intros P HP Hout. eapply st_post_mono; [by apply HP|]. intros w' [out|e] (H1 & H2 & H3);
      split_and!; try done; try (by eapply load_state_keep). by apply Hout. }
  unfold open_view in *. destruct (cold_batch cache_enabled).
  - eapply Hgo; [apply creads_sg_map, creads_of_reads; [by apply cold_open_reads|apply confined_open_cold]|].
    cbn. intros out H. by apply Hview, H.
  - eapply Hgo; [apply (creads_then _ _ _ (fun objs (out : NamespaceView * Z * Z) => forall m log, lenZ log < u64_max -> ns_state objs ns m log ->
      snapshot_current objs ns m -> view_current objs ns m log out.1.1)
      (creads_sg_map _ _ _ (creads_of_reads _ _ (view_load_reads policy ns) (confined_view_load policy _ ns))));
      intros v; by apply creads_ret|].
    cbn. intros out H. by apply Hview, H.
Qed.

End LoadState.

(** ** Strong loads *)

Section StrongLoad.
Context {IO : IterOrder} {WC : WalCodec} {MC : MetaCodec} {S : ObjectStore} {SL : StoreLaws} {MO : Monitor}.
Context {CO : CompletionOrder} {LC : LocalCache} {LL : LocalCacheLaws} {CR : CachedReads} {CL : CachedReadsLaws} {RM : ReadsMonitor}.
Context {SC : SegmentCodec} {TL : TextLib} {FT : F64Text} {VL : VectorLib}.
Context (policy : WalCorruptPolicy) (max_keys max_probe_clusters : Z) (ann_build : AnnBuildConfig) (cache_enabled : bool).
Context (ns : string) (m : NamespaceMeta) (log : list WalEntry).
Context (Hmax : 0 < max_keys) (Hlen : lenZ log < u64_max).

(** Unless the metadata was misread on the way. *)
Lemma catch_up_unmisled v w :
  load_state ns m log w -> view_of log v ->
  let '(w', (v', r)) := catch_up policy ns v w in
  misled w' = false ->
  load_state ns m log w' /\ objects w' = objects w /\ view_of log v' /\
  (is_ok r = true -> replay ∅ log = Ok (v_docs v') /\ v_meta v' = m).
Proof.
  intros Hw Hv. destruct (agree_catch_up policy ns v w) as [_ E].
  pose proof (catch_up_load (S := recognised S) (LC := recognised_cache LC) (CR := recognised_reads CR)
    (CL := recognised_reads_laws CL) policy ns m log Hlen v w Hw Hv) as H.
  destruct (catch_up policy ns v w) as [w' [v' r]]. intros Hw'. by rewrite <- (E Hw') in H.
Qed.

Lemma open_view_unmisled w :
  load_state ns m log w ->
  st_post (open_view policy max_keys cache_enabled ns true) w (fun w' r => misled w' = false ->
    load_state ns m log w' /\ objects w' = objects w /\ match r with Ok out => view_of log out.1.1 | Err _ => True end).
Proof.
  intros Hw. eapply (agree_post _ _ w _ (agree_open_view policy max_keys cache_enabled ns true)).
  exact (open_view_load (S := recognised S) (LC := recognised_cache LC) (CR := recognised_reads CR)
    (CL := recognised_reads_laws CL) policy max_keys cache_enabled ns m log Hmax Hlen w Hw).
Qed.

(** Requests made on behalf of an operation leave the views alone. *)
Lemma sg_io_post {A} (io : St StorageError A) sg (Q : World -> result StorageError A -> Prop) :
  st_post io (sg_world sg) Q ->
  exists w r, sg_io io sg = (put_world w sg, r) /\ Q w r.
Proof.
  unfold st_post, sg_io, sg_world. destruct (io (world (sg_buffer sg))) as [w r]. intros H. by exists w, r.
Qed.

Lemma put_world_world w sg : sg_world (put_world w sg) = w.
Proof. done. Qed.

Lemma views_ok_put w sg : views_ok sg ns log -> views_ok (put_world w sg) ns log.
Proof. done. Qed.

(** The postcondition of every strong operation on the namespace. *)
Definition strong_post {A} (sg : Storage) (P : A -> Prop) (out : Storage * result StorageError A) : Prop :=
  misled (sg_world out.1) = false ->
  load_state ns m log (sg_world out.1) /\ objects (sg_world out.1) = objects (sg_world sg) /\ views_ok out.1 ns log /\
  match out.2 with Ok a => P a | Err _ => True end.

Lemma strong_post_bind_at {A B} (x : SgM A) (k : A -> SgM B) sg P Q :
  strong_post sg P (x sg) -> (forall a, sg_keeps (k a)) ->
  (forall a sg', x sg = (sg', Ok a) -> load_state ns m log (sg_world sg') -> objects (sg_world sg') = objects (sg_world sg) ->
     views_ok sg' ns log -> P a -> strong_post sg' Q (k a sg')) ->
  strong_post sg Q (sg_bind x k sg).
Proof.
  unfold strong_post, sg_bind. destruct (x sg) as [sg1 [a|e]]; cbn; [|done]. intros H Hkeep Hk Hm.
  assert (misled (sg_world sg1) = false) as Hm1.
  { destruct (misled (sg_world sg1)) eqn:E; [|done]. pose proof (Hkeep a sg1 E). unfold sg_world in *. congruence. }
  destruct (H Hm1) as (H1 & H2 & H3 & H4).
  destruct (Hk a sg1 eq_refl H1 H2 H3 H4 Hm) as (K1 & K2 & K3 & K4). split_and!; try done. by rewrite K2.
Qed.

Lemma strong_post_bind {A B} (x : SgM A) (k : A -> SgM B) sg P Q :
  strong_post sg P (x sg) -> (forall a, sg_keeps (k a)) ->
  (forall a sg', load_state ns m log (sg_world sg') -> objects (sg_world sg') = objects (sg_world sg) -> views_ok sg' ns log -> P a ->
     strong_post sg' Q (k a sg')) ->
  strong_post sg Q (sg_bind x k sg).
Proof. intros Hx Hkeep Hk. eapply strong_post_bind_at; [done..|]. eauto. Qed.

Lemma strong_post_mono {A} sg (P Q : A -> Prop) out : strong_post sg P out -> (forall a, P a -> Q a) -> strong_post sg Q out.
Proof. intros H HPQ Hm. destruct (H Hm) as (H1 & H2 & H3 & H4). split_and!; try done. destruct out.2; [by apply HPQ|done]. Qed.

Lemma strong_post_io {A} (io : St StorageError A) sg (P : A -> Prop) :
  views_ok sg ns log ->
  st_post io (sg_world sg) (fun w' r => misled w' = false -> load_state ns m log w' /\ objects w' = objects (sg_world sg) /\
    match r with Ok a => P a | Err _ => True end) ->
  strong_post sg P (sg_io io sg).
Proof.
  intros Hv (w & r & -> & H)%sg_io_post Hm. destruct (H Hm) as (H1 & H2 & H3). by split_and!.
Qed.

Lemma strong_post_with_view v sg :
  load_state ns m log (sg_world sg) -> vc_views (sg_views sg) !! ns = Some v -> view_of log v ->
  strong_post sg (fun v' => replay ∅ log = Ok (v_docs v') /\ v_meta v' = m) (with_view ns v (catch_up policy ns) sg).
Proof.
  intros Hw Hl Hv. unfold with_view. pose proof (catch_up_unmisled v (sg_world sg) Hw Hv) as H. unfold sg_world in H.
  destruct (catch_up policy ns v (world (sg_buffer sg))) as [w' [v' r]]. intros Hm. destruct (H Hm) as (H1 & H2 & H3 & H4).
  cbn. split_and!; [done..| |].
  - unfold vc_get_mut. rewrite Hl. intros v0. cbn. rewrite lookup_insert_eq. by intros [= <-].
  - destruct r as [b|e]; [by apply H4|done].
Qed.

Lemma vc_insert_own c v : vc_views (vc_insert c ns v) !! ns = Some v.
Proof.
  unfold vc_insert. destruct (vc_views c !! ns); [rewrite (proj1 (touch_views _ _))|destruct (evict_if_needed c)];
    cbn; by rewrite lookup_insert_eq.
Qed.

Lemma strong_post_fresh v sg :
  load_state ns m log (sg_world sg) -> views_ok sg ns log -> view_of log v ->
  strong_post sg (fun v' => (replay ∅ log = Ok (v_docs v') /\ v_meta v' = m) /\ view_of log v')
    (sg_io (catch_up_fresh policy ns v) sg).
Proof.
  intros Hw Hs Hv. apply strong_post_io; [done|]. unfold st_post, catch_up_fresh.
  pose proof (catch_up_unmisled v (sg_world sg) Hw Hv) as H.
  destruct (catch_up policy ns v (sg_world sg)) as [w' [v' r]]. intros Hm. destruct (H Hm) as (K1 & K2 & K3 & K4).
  split_and!; [done..|]. destruct r; [|done]. split; [by apply K4|done].
Qed.

(** Caching a view of the log. *)
Lemma strong_post_insert {A} (a : A) v sg (P : A -> Prop) :
  load_state ns m log (sg_world sg) -> view_of log v -> P a ->
  strong_post sg P (sg_bind (modify_views (fun c => vc_insert c ns v)) (fun _ => sg_ret a) sg).
Proof.
  intros Hw Hv HP _. cbn. split_and!; try done. intros v'. cbn. rewrite vc_insert_own. by intros [= <-].
Qed.

Lemma strong_load_post sg :
  load_state ns m log (sg_world sg) -> views_ok sg ns log ->
  strong_post sg (loaded_exact (objects (sg_world sg)) ns m log)
    (load_namespace_for_query policy max_keys max_probe_clusters ann_build cache_enabled ns Strong sg).
Proof.
  intros Hw Hv.
  assert (forall v rt nk sg', load_state ns m log (sg_world sg') -> objects (sg_world sg') = objects (sg_world sg) ->
    views_ok sg' ns log -> replay ∅ log = Ok (v_docs v) /\ v_meta v = m ->
    strong_post sg' (loaded_exact (objects (sg_world sg)) ns m log)
      (sg_io (loaded_from_view policy max_keys max_probe_clusters ann_build cache_enabled ns v rt nk false) sg')) as Hload.
  { intros v rt nk sg' H1 H2 H3 [H4 H5]. apply strong_post_io; [done|]. rewrite <- H2.
    eapply st_post_mono; [by apply load_from_view|]. done. }
  unfold load_namespace_for_query. cbn [is_strong negb]. unfold sg_bind at 1, sg_get. cbn.
  destruct (vc_views (sg_views sg) !! ns) as [v|] eqn:Hc.
  - eapply strong_post_bind; [apply strong_post_with_view; [done|done|by apply Hv]|solve_sg_keeps|].
    intros v1 sg1 H1 H2 H3 H4. by apply Hload.
  - eapply strong_post_bind; [apply strong_post_io; [done|by apply open_view_unmisled]|solve_sg_keeps|].
    intros [[v rt] nk] sg1 H1 H2 H3 H4. cbn [fst] in H4.
    eapply strong_post_bind; [by apply strong_post_fresh|solve_sg_keeps|].
    intros v1 sg2 K1 K2 K3 [K4 K5]. rewrite H2 in K2.
    eapply strong_post_bind; [by apply Hload|solve_sg_keeps|].
    intros ln sg3 L1 L2 L3 L4. by apply strong_post_insert.
Qed.
End StrongLoad.

(** ** Batches of rows *)

Lemma push_new_elem ids new id : id ∈ push_new ids new <-> id ∈ ids \/ id ∈ new.
Proof.
  unfold push_new. revert ids. induction new as [|x new IH]; intros ids; cbn; [set_solver|].
  rewrite IH. case_bool_decide; set_solver.
Qed.

(** The patch a list of rows holds for an id. *)
Definition find_patch (patches : list Document) (id : string) : option Document :=
  List.find (fun p => String.eqb (doc_id p) id) patches.

Lemma find_merge_patch attrs id patches id' :
  find_patch (merge_patch attrs id patches) id' =
  if String.eqb id id' then Some (mkDocument id (attrs ∪ from_option doc_attributes ∅ (find_patch patches id)))
  else find_patch patches id'.
Proof.
  unfold find_patch. induction patches as [|p patches IH]; cbn.
  - rewrite map_union_empty. by destruct (String.eqb_spec id id').
  - destruct (String.eqb_spec (doc_id p) id) as [Hp|Hp]; cbn.
    + rewrite Hp. by destruct (String.eqb_spec id id').
    + rewrite IH. destruct (String.eqb_spec (doc_id p) id') as [Hp'|Hp'], (String.eqb_spec id id'); congruence.
Qed.

(** Each id of the batch has one patch, with the new attributes over those its
    patch had; the other rows are as they were. *)
Lemma find_merge_patches attrs batch patches id :
  NoDup batch ->
  find_patch (fold_left (fun ps i => merge_patch attrs i ps) batch patches) id =
  if decide (id ∈ batch) then Some (mkDocument id (attrs ∪ from_option doc_attributes ∅ (find_patch patches id)))
  else find_patch patches id.
Proof.
  intros Hnd. revert patches. induction Hnd as [|x batch Hx Hnd IH]; intros patches; cbn [fold_left].
  - by rewrite decide_False by set_solver.
  - rewrite IH, find_merge_patch. destruct (String.eqb_spec x id) as [->|Hne].
    + rewrite decide_False, decide_True by set_solver. done.
    + destruct (decide (id ∈ batch)); [rewrite decide_True by set_solver|rewrite decide_False by set_solver]; done.
Qed.

(** ** Filters over a loaded namespace *)

Section FilterWrites.
Context {IO : IterOrder} {WC : WalCodec} {MC : MetaCodec} {S : ObjectStore} {SL : StoreLaws} {MO : Monitor}.
Context {CO : CompletionOrder} {LC : LocalCache} {LL : LocalCacheLaws} {CR : CachedReads} {CL : CachedReadsLaws} {RM : ReadsMonitor}.
Context {SC : SegmentCodec} {TL : TextLib} {FT : F64Text} {FL : F64TextLaws} {VL : VectorLib}.
Context (policy : WalCorruptPolicy) (max_keys max_probe_clusters : Z) (ann_build : AnnBuildConfig) (cache_enabled : bool).
Context (limits : LimitsConfig).

(** The filter reads attributes the index represents. *)
Definition filter_supported (m : NamespaceMeta) (log : list WalEntry) (expr : FilterExpr) : Prop :=
  forall indexed, docs_after log (index_cursor m) indexed ->
    docs_plain indexed /\ FilterIndex.indexable (filter_fields_from_schema (schema m)) indexed expr.

(** Replaying a suffix that starts at or before the cursor, from the indexed
    documents, gives the documents of the log. *)
Lemma replay_overlap log k c indexed docs :
  0 <= k <= c -> docs_after log c indexed -> replay ∅ log = Ok docs ->
  replay indexed (drop (Z.to_nat k) log) = Ok docs.
Proof.
  intros Hk Hi Hd. unfold docs_after in Hi.
  destruct (decide (Z.to_nat c <= length log)%nat) as [Hc|Hc].
  - assert (drop (Z.to_nat k) log = drop (Z.to_nat k) (take (Z.to_nat c) log) ++ drop (Z.to_nat c) log) as ->.
    { rewrite <- (take_drop (Z.to_nat c) log) at 1. rewrite drop_app_le; [done|]. rewrite length_take. lia. }
    rewrite <- (take_drop (Z.to_nat c) log), replay_app, Hi in Hd. cbn in Hd.
    rewrite <- (take_drop (Z.to_nat k) (take (Z.to_nat c) log)), replay_app in Hi.
    destruct (replay ∅ (take _ (take _ log))) as [d0|]; [|done]. apply replay_self in Hi.
    by rewrite replay_app, Hi.
  - rewrite take_ge in Hi by lia. rewrite Hd in Hi. injection Hi as <-.
    rewrite <- (take_drop (Z.to_nat k) log), replay_app in Hd.
    destruct (replay ∅ (take _ log)) as [d0|]; [|done]. by apply replay_self in Hd.
Qed.

Lemma loaded_filter_current objs ns m log ln expr :
  ns_state objs ns m log -> index_ok objs ns m log -> loaded_exact objs ns m log ln -> filter_supported m log expr ->
  filter_current (filter_context ln) expr.
Proof.
  intros Hst [Hid Hix] (Hd & Hm & Hfil & k & Hk & Htail) Hsup. unfold filter_current. cbn.
  destruct (ln_filter_index ln) as [seg|]; [|done]. destruct Hfil as (_ & Hc & b & t & Hb & Hs).
  pose proof (wf_cursors _ (nss_wf _ _ _ _ Hst)). rewrite Hid in Hb.
  destruct Hix as (indexed & Hi & b' & t' & seg' & Hb' & Hs' & Hrep); [lia|]. assert (seg' = seg) as -> by congruence.
  destruct (Hsup indexed Hi) as [H1 H2].
  exists (filter_fields_from_schema (schema m)), indexed, (drop (Z.to_nat k) log). split_and!; try done.
  by apply (replay_overlap log k (index_cursor m)).
Qed.

Lemma loaded_filter objs ns m log ln expr :
  ns_state objs ns m log -> index_ok objs ns m log -> loaded_exact objs ns m log ln -> filter_supported m log expr ->
  exists ids, matching_doc_ids_for_filter (filter_context ln) expr = Ok ids /\ matches (ln_docs ln) expr ids.
Proof. intros. apply (strong_filter (filter_context ln)); [done|]. by eapply loaded_filter_current. Qed.

Context (ns : string) (m : NamespaceMeta) (log : list WalEntry) (docs : Docs).
Context (Hmax : 0 < max_keys) (Hlen : lenZ log < u64_max) (Hdocs : replay ∅ log = Ok docs).

Lemma resolve_ids_post sg v :
  load_state ns m log (sg_world sg) -> index_ok (objects (sg_world sg)) ns m log -> views_ok sg ns log ->
  (forall expr, parse_filter v = Ok expr -> filter_supported m log expr) ->
  strong_post ns m log sg (fun ids => exists expr, parse_filter v = Ok expr /\
      NoDup ids /\ forall id, id ∈ ids <-> selects docs expr id = true)
    (resolve_ids_for_filter policy max_keys max_probe_clusters ann_build cache_enabled ns v sg).
Proof.
  intros Hw Hix Hv Hsup. unfold resolve_ids_for_filter, load_namespace.
  eapply (strong_post_bind _ _ _ _ _ _ (fun e => parse_filter v = Ok e)); [|solve_sg_keeps|].
  { apply strong_post_io; [done|]. unfold sg_result, st_post. by destruct (parse_filter v). }
  intros expr sg0 Hw0 Ho0 Hv0 Hp. eapply strong_post_bind; [by apply strong_load_post|solve_sg_keeps|].
  intros ln sg1 Hw1 Ho1 Hv1 Hln. destruct Hw0 as (_ & Hst & _).
  destruct (loaded_filter (objects (sg_world sg0)) ns m log ln expr Hst) as (ids & Hids & Hm); [by rewrite Ho0|done|by apply Hsup|].
  rewrite Hids. rewrite matches_selects in Hm. destruct Hln as (Hd & _).
  assert (ln_docs ln = docs) as Heq by congruence. rewrite Heq in Hm.
  unfold sg_bind, sg_io, sg_ret, strong_post. cbn. intros _. split_and!; try done.
  exists expr. split_and!; [done|apply iter_set_NoDup|]. intros id. rewrite elem_of_iter_set. apply Hm.
Qed.

(** The batch a filter selects: all the matching ids, or with partial batches
    as many of them as the limit allows. *)
Definition filter_batch (expr : FilterExpr) (partial : bool) (batch : list string) (remaining : bool) : Prop :=
  NoDup batch /\ lenZ batch <= max_filter_batch_rows limits /\
  (forall id, id ∈ batch -> selects docs expr id = true) /\
  (remaining = false -> forall id, selects docs expr id = true -> id ∈ batch) /\
  (remaining = true -> partial = true /\ lenZ batch = max_filter_batch_rows limits).

Lemma capped_batch ids expr partial batch remaining :
  0 <= max_filter_batch_rows limits ->
  NoDup ids -> (forall id, id ∈ ids <-> selects docs expr id = true) ->
  cap_filter_batch ids partial (max_filter_batch_rows limits) = Ok (batch, remaining) ->
  filter_batch expr partial batch remaining.
Proof.
  intros Hpos Hnd Hids. unfold cap_filter_batch, filter_batch. destruct (_ <=? _) eqn:E; case_bool.
  - intros [= <- <-]. split_and!; try done; intros id; apply Hids.
  - destruct partial; [|done]. intros [= <- <-]. unfold lenZ in *. split_and!.
    + rewrite <- (take_drop (Z.to_nat (max_filter_batch_rows limits)) ids) in Hnd. by apply NoDup_app in Hnd as [? _].
    + rewrite length_take. lia.
    + intros id Hin. apply Hids. rewrite <- (take_drop (Z.to_nat (max_filter_batch_rows limits)) ids). set_solver.
    + done.
    + intros _. split; [done|]. rewrite length_take. lia.
Qed.

(** The batch of an optional filter. *)
Definition filtered (filter : option Value) (partial : bool) (batch : list string) (remaining : bool) : Prop :=
  match filter with
  | None => batch = [] /\ remaining = false
  | Some v => exists expr, parse_filter v = Ok expr /\ filter_batch expr partial batch remaining
  end.

(** Every filter is one the index supports. *)
Definition filter_ok (filter : option Value) : Prop :=
  forall v expr, filter = Some v -> parse_filter v = Ok expr -> filter_supported m log expr.

Lemma batch_post {A} sg v partial (f : list string -> A) :
  0 <= max_filter_batch_rows limits -> filter_ok (Some v) ->
  load_state ns m log (sg_world sg) -> index_ok (objects (sg_world sg)) ns m log -> views_ok sg ns log ->
  strong_post ns m log sg (fun out => exists batch, filtered (Some v) partial batch out.2 /\ out.1 = f batch)
    ((do! resolved <- resolve_ids_for_filter policy max_keys max_probe_clusters ann_build cache_enabled ns v;
      do! out <- sg_io (sg_result SgLimit (cap_filter_batch resolved partial (max_filter_batch_rows limits)));
      sg_ret (f out.1, out.2)) sg).
Proof.
  intros Hpos Hok Hw Hix Hv. eapply strong_post_bind; [apply resolve_ids_post; try done; intros expr; by apply Hok|solve_sg_keeps|].
  intros ids sg1 Hw1 Ho1 Hv1 (expr & Hp & Hnd & Hids).
  destruct (cap_filter_batch ids _ _) as [[batch rem]|e] eqn:Hcap; [|by intros _; split_and!].
  unfold sg_bind, sg_io, sg_ret, strong_post. cbn. intros _. split_and!; try done.
  exists batch. split; [|done]. exists expr. split; [done|]. by eapply capped_batch.
Qed.

Lemma delete_rows_post sg o :
  0 <= max_filter_batch_rows limits -> filter_ok (not_null (wo_delete_by_filter o)) ->
  load_state ns m log (sg_world sg) -> index_ok (objects (sg_world sg)) ns m log -> views_ok sg ns log ->
  strong_post ns m log sg (fun out => exists batch,
      filtered (not_null (wo_delete_by_filter o)) (wo_delete_by_filter_allow_partial o) batch out.2 /\
      out.1 = push_new (wo_deletes o) batch)
    (delete_by_filter_rows policy max_keys max_probe_clusters ann_build cache_enabled limits ns o sg).
Proof.
  intros Hpos Hok Hw Hix Hv. unfold delete_by_filter_rows. destruct (not_null (wo_delete_by_filter o)) as [v|].
  - by apply batch_post.
  - intros _. split_and!; try done. by exists [].
Qed.

Lemma patch_rows_post sg o :
  0 <= max_filter_batch_rows limits -> filter_ok (fst <$> wo_patch_by_filter o) ->
  load_state ns m log (sg_world sg) -> index_ok (objects (sg_world sg)) ns m log -> views_ok sg ns log ->
  strong_post ns m log sg (fun out => exists batch,
      filtered (fst <$> wo_patch_by_filter o) (wo_patch_by_filter_allow_partial o) batch out.2 /\
      out.1 = fold_left (fun ps id => merge_patch (from_option snd ∅ (wo_patch_by_filter o)) id ps) batch (wo_patches o))
    (patch_by_filter_rows policy max_keys max_probe_clusters ann_build cache_enabled limits ns o sg).
Proof.
  intros Hpos Hok Hw Hix Hv. unfold patch_by_filter_rows. destruct (wo_patch_by_filter o) as [[v attrs]|].
  - by apply batch_post.
  - intros _. split_and!; try done. by exists [].
Qed.
End FilterWrites.

(** ** Operations that leave the write buffer alone *)

Section KeepsBuffer.
Context {IO : IterOrder} {WC : WalCodec} {MC : MetaCodec} {S : ObjectStore}.
Context {BO : BucketOps} {CO : CompletionOrder} {LC : LocalCache} {CR : CachedReads} {SC : SegmentCodec}.
Context {TL : TextLib} {FT : F64Text} {VL : VectorLib}.
Context (policy : WalCorruptPolicy) (max_keys max_probe_clusters : Z) (ann_build : AnnBuildConfig) (cache_enabled : bool).
Context (limits : LimitsConfig).

(** Only the world of the buffer changes. *)
Definition keeps_buffer {A} (x : SgM A) : Prop := forall sg, exists w, sg_buffer (x sg).1 = set_world w (sg_buffer sg).

Lemma keeps_buffer_same {A} (x : SgM A) : (forall sg, sg_buffer (x sg).1 = sg_buffer sg) -> keeps_buffer x.
Proof. intros Hx sg. exists (world (sg_buffer sg)). rewrite Hx. by destruct (sg_buffer sg). Qed.

Lemma keeps_buffer_bind {A B} (x : SgM A) (k : A -> SgM B) :
  keeps_buffer x -> (forall a, keeps_buffer (k a)) -> keeps_buffer (sg_bind x k).
Proof.
  intros Hx Hk sg. unfold sg_bind. destruct (Hx sg) as [w H1]. destruct (x sg) as [sg1 [a|e]]; cbn in *; [|by exists w].
  destruct (Hk a sg1) as [w' K1]. exists w'. by rewrite K1, H1.
Qed.

Lemma keeps_buffer_io {A} (io : St StorageError A) : keeps_buffer (sg_io io).
Proof. intros sg. unfold sg_io. destruct (io _) as [w r]. by exists w. Qed.

Lemma keeps_buffer_with_view {A} ns v (f : NamespaceView -> World -> World * (NamespaceView * result NsError A)) :
  keeps_buffer (with_view ns v f).
Proof. intros sg. unfold with_view. destruct (f v _) as [w [v' r]]. by exists w. Qed.

Lemma keeps_buffer_ret {A} (a : A) : keeps_buffer (sg_ret a).
Proof. by apply keeps_buffer_same. Qed.
Lemma keeps_buffer_err {A} e : keeps_buffer (sg_err (A := A) e).
Proof. by apply keeps_buffer_same. Qed.
Lemma keeps_buffer_get {A} (f : Storage -> A) : keeps_buffer (sg_get f).
Proof. by apply keeps_buffer_same. Qed.
Lemma keeps_buffer_views f : keeps_buffer (modify_views f).
Proof. by apply keeps_buffer_same. Qed.

Ltac keep_buffer := repeat first [
  apply keeps_buffer_bind; [|intros ?] | apply keeps_buffer_io | apply keeps_buffer_with_view | apply keeps_buffer_ret
  | apply keeps_buffer_err | apply keeps_buffer_get | apply keeps_buffer_views
  | match goal with
    | |- keeps_buffer (match ?x with _ => _ end) => destruct x
    | |- keeps_buffer (if ?x then _ else _) => destruct x
    end ].

Lemma keeps_buffer_snapshot ns : keeps_buffer (load_view_snapshot policy max_keys cache_enabled ns).
Proof. unfold load_view_snapshot. keep_buffer. Qed.

Lemma keeps_buffer_load ns c :
  keeps_buffer (load_namespace_for_query policy max_keys max_probe_clusters ann_build cache_enabled ns c).
Proof. unfold load_namespace_for_query. keep_buffer. Qed.

Lemma keeps_buffer_resolve ns v :
  keeps_buffer (resolve_ids_for_filter policy max_keys max_probe_clusters ann_build cache_enabled ns v).
Proof. unfold resolve_ids_for_filter, load_namespace. keep_buffer. Qed.

Lemma keeps_buffer_conditions ns ups pats dels uc pc dc :
  keeps_buffer (apply_write_conditions policy max_keys cache_enabled ns ups pats dels uc pc dc).
Proof. unfold apply_write_conditions. keep_buffer. Qed.

Lemma keeps_buffer_delete_rows ns o :
  keeps_buffer (delete_by_filter_rows policy max_keys max_probe_clusters ann_build cache_enabled limits ns o).
Proof. unfold delete_by_filter_rows. keep_buffer. Qed.

Lemma keeps_buffer_patch_rows ns o :
  keeps_buffer (patch_by_filter_rows policy max_keys max_probe_clusters ann_build cache_enabled limits ns o).
Proof. unfold patch_by_filter_rows. keep_buffer. Qed.

Lemma keeps_buffer_rows ns o :
  keeps_buffer (write_rows policy max_keys max_probe_clusters ann_build cache_enabled limits ns o).
Proof.
  unfold write_rows. apply keeps_buffer_bind; [apply keeps_buffer_delete_rows|intros del].
  apply keeps_buffer_bind; [apply keeps_buffer_patch_rows|intros pat]. keep_buffer. apply keeps_buffer_conditions.
Qed.
End KeepsBuffer.

(** ** Conditional writes *)

Section Conditions.
Context {IO : IterOrder} {WC : WalCodec} {MC : MetaCodec} {S : ObjectStore} {SL : StoreLaws} {MO : Monitor}.
Context {BO : BucketOps} {BL : BucketLaws} {BM : BucketMonitor} {CO : CompletionOrder} {LC : LocalCache} {LL : LocalCacheLaws}.
Context {CR : CachedReads} {CL : CachedReadsLaws} {RM : ReadsMonitor}.
Context (policy : WalCorruptPolicy) (max_keys : Z) (cache_enabled : bool).

Context (ns : string) (m : NamespaceMeta) (log : list WalEntry) (docs : Docs).
Context (Hmax : 0 < max_keys) (Hlen : lenZ log < u64_max) (Hdocs : replay ∅ log = Ok docs).

(** Existence tests do not touch the segment cache. *)
Context (Hcache : forall w k, cache_inv w -> cache_inv (bucket_head w k).1).
Context (Hcache' : forall w p t n, cache_inv w -> cache_inv (bucket_list w p t n).1).

Lemma exists_load w :
  load_state ns m log w ->
  st_post (namespace_exists ns) w (fun w' r => load_state ns m log w' /\ objects w' = objects w /\
    match r with Ok found => found = true | Err _ => True end).
Proof.
  intros Hw. pose proof Hw as (Hc & _ & _ & Hm). pose proof (namespace_exists_reads ns w) as Hr.
  assert (cache_inv (namespace_exists ns w).1) as Hc'.
  { unfold namespace_exists, object_exists, st_bind, st_lift. pose proof (Hcache w (meta_key ns) Hc) as H1.
    destruct (bucket_head w (meta_key ns)) as [w1 [n| |e]]; cbn in *; try done.
    pose proof (Hcache' w1 (namespace_prefix ns) None (Some 1) H1) as H2.
    by destruct (bucket_list w1 _ None (Some 1)) as [w2 [[page next]|e]]. }
  unfold st_post in *. destruct (namespace_exists ns w) as [w' r]. cbn in *. destruct Hr as [Ho Hr].
  split_and!; [by eapply load_state_keep|done|]. destruct r as [found|e]; [|done]. apply Hr. exists (meta_key ns).
  split; [apply meta_key_prefix|done].
Qed.

Lemma exists_post sg :
  load_state ns m log (sg_world sg) -> views_ok sg ns log ->
  strong_post ns m log sg (fun found => found = true) (sg_io (namespace_exists ns) sg).
Proof. intros Hw Hv. apply strong_post_io; [done|]. eapply st_post_mono; [by apply exists_load|]. done. Qed.

Lemma snapshot_post sg :
  load_state ns m log (sg_world sg) -> views_ok sg ns log ->
  strong_post ns m log sg (fun v => v_docs v = docs) (load_view_snapshot policy max_keys cache_enabled ns sg).
Proof.
  intros Hw Hv. unfold load_view_snapshot.
  eapply strong_post_bind; [by apply exists_post|solve_sg_keeps|].
  intros found sg1 Hw1 Ho1 Hv1 ->. cbn [negb]. unfold sg_bind at 1, sg_get. cbn.
  destruct (vc_views (sg_views sg1) !! ns) as [v|] eqn:Hc.
  - eapply strong_post_mono; [by apply (strong_post_with_view policy ns m log Hlen v sg1 Hw1 Hc), Hv1|].
    intros v' [Hd _]. congruence.
  - eapply strong_post_bind; [apply strong_post_io; [done|by apply open_view_unmisled]|solve_sg_keeps|].
    intros [[v rt] nk] sg2 Hw2 Ho2 Hv2 Hview. cbn [fst] in *.
    eapply strong_post_bind; [by apply strong_post_fresh|solve_sg_keeps|].
    intros v1 sg3 Hw3 Ho3 Hv3 [[Hd1 _] Hview1]. apply strong_post_insert; [done..|]. congruence.
Qed.

(** The rows a condition lets through. *)
Definition cond_keeps {A} (cond : option Value) (keep : FilterExpr -> A -> bool) (rows rows' : list A) : Prop :=
  match not_null cond with
  | None => rows' = rows
  | Some v => exists e, parse_filter v = Ok e /\ rows' = List.filter (keep e) rows
  end.

Lemma keep_rows_post {A} cond (keep : FilterExpr -> A -> bool) rows sg :
  load_state ns m log (sg_world sg) -> views_ok sg ns log ->
  strong_post ns m log sg (cond_keeps cond keep rows) (sg_io (keep_rows (not_null cond) keep rows) sg).
Proof.
  intros Hw Hv. apply strong_post_io; [done|]. unfold keep_rows, cond_keeps. destruct (not_null cond) as [v|].
  - unfold sg_result. destruct (parse_filter v) as [e|e] eqn:E; unfold st_bind, st_result, st_post; cbn; intros _; split_and!; eauto.
  - intros _. by split_and!.
Qed.

(** The rows the conditions of a write let through, against [current]. *)
Definition conditions_hold (current : Docs) (uc pc dc : option Value) (rows out : list Document * list Document * list string) : Prop :=
  cond_keeps uc (fun e d => should_apply_upsert e (current !! doc_id d) d) rows.1.1 out.1.1 /\
  cond_keeps pc (fun e p => should_apply_patch e (current !! doc_id p) p) rows.1.2 out.1.2 /\
  cond_keeps dc (fun e id => should_apply_delete e (current !! id)) rows.2 out.2.

Lemma conditions_rows_post current uc pc dc ups pats dels sg :
  load_state ns m log (sg_world sg) -> views_ok sg ns log ->
  strong_post ns m log sg (conditions_hold current uc pc dc (ups, pats, dels))
    ((do! ups <- sg_io (keep_rows (not_null uc) (fun e d => should_apply_upsert e (current !! doc_id d) d) ups);
      do! pats <- sg_io (keep_rows (not_null pc) (fun e p => should_apply_patch e (current !! doc_id p) p) pats);
      do! dels <- sg_io (keep_rows (not_null dc) (fun e id => should_apply_delete e (current !! id)) dels);
      sg_ret (ups, pats, dels)) sg).
Proof.
  intros Hw Hv. eapply strong_post_bind; [by apply keep_rows_post|solve_sg_keeps|]. intros ups' sg1 Hw1 _ Hv1 H1.
  eapply strong_post_bind; [by apply keep_rows_post|solve_sg_keeps|]. intros pats' sg2 Hw2 _ Hv2 H2.
  eapply strong_post_bind; [by apply keep_rows_post|solve_sg_keeps|]. intros dels' sg3 Hw3 _ Hv3 H3 _. by split_and!.
Qed.

Lemma conditions_post current uc pc dc ups pats dels sg :
  load_state ns m log (sg_world sg) -> views_ok sg ns log ->
  overlay_pending_writes ns docs (sg_buffer sg) = (current, Ok tt) ->
  strong_post ns m log sg (conditions_hold current uc pc dc (ups, pats, dels))
    (apply_write_conditions policy max_keys cache_enabled ns ups pats dels uc pc dc sg).
Proof.
  intros Hw Hv Hover. unfold apply_write_conditions.
  assert (strong_post ns m log sg (conditions_hold current uc pc dc (ups, pats, dels))
    ((do! found <- sg_io (namespace_exists ns);
      do! docs <-
        (if negb found then sg_ret ∅
         else
           do! view <- load_view_snapshot policy max_keys cache_enabled ns;
           do! out <- sg_get (fun sg => overlay_pending_writes ns (v_docs view) (sg_buffer sg));
           let '(docs, r) := out in
           match r with Ok _ => sg_ret docs | Err e => sg_err (SgWal e) end);
      do! ups <- sg_io (keep_rows (not_null uc) (fun e d => should_apply_upsert e (docs !! doc_id d) d) ups);
      do! pats <- sg_io (keep_rows (not_null pc) (fun e p => should_apply_patch e (docs !! doc_id p) p) pats);
      do! dels <- sg_io (keep_rows (not_null dc) (fun e id => should_apply_delete e (docs !! id)) dels);
      sg_ret (ups, pats, dels)) sg)) as Hgo.
  { eapply strong_post_bind_at; [by apply exists_post|solve_sg_keeps|].
    intros found sg1 E1 Hw1 Ho1 Hv1 ->. cbn [negb].
    eapply (strong_post_bind _ _ _ _ _ _ (fun docs => docs = current)); [|solve_sg_keeps|].
    - eapply strong_post_bind_at; [by apply snapshot_post|solve_sg_keeps|]. intros v sg2 E2 Hw2 Ho2 Hv2 Hd.
      pose proof (keeps_buffer_io (namespace_exists ns) sg) as [wq1 Hq1]. rewrite E1 in Hq1. cbn in Hq1.
      pose proof (keeps_buffer_snapshot policy max_keys cache_enabled ns sg1) as [wq2 Hq2]. rewrite E2 in Hq2. cbn in Hq2.
      unfold sg_bind, sg_get. assert (overlay_pending_writes ns (v_docs v) (sg_buffer sg2) = (current, Ok tt)) as ->.
      { by rewrite Hd, <- Hover, Hq2, Hq1. }
      by intros _.
    - intros docs' sg2 Hw2 Ho2 Hv2 ->. by apply conditions_rows_post. }
  unfold conditions_hold, cond_keeps in *. destruct (not_null uc); [exact Hgo|]. destruct (not_null pc); [exact Hgo|].
  destruct (not_null dc); [exact Hgo|]. intros _. by split_and!.
Qed.

(** ** The rows of a write *)

Context {SC : SegmentCodec} {TL : TextLib} {FT : F64Text} {FL : F64TextLaws} {VL : VectorLib}.
Context (max_probe_clusters : Z) (ann_build : AnnBuildConfig) (limits : LimitsConfig).

(** What a write hands to the buffer: the rows of the request and those of the
    filter batches, as far as the conditions let them through. *)
Definition write_rows_spec (current : Docs) (o : WriteOps) (args : WriteArgs) : Prop :=
  exists dbatch pbatch drem prem pats dels,
    filtered limits docs (not_null (wo_delete_by_filter o)) (wo_delete_by_filter_allow_partial o) dbatch drem /\
    filtered limits docs (fst <$> wo_patch_by_filter o) (wo_patch_by_filter_allow_partial o) pbatch prem /\
    (forall id, id ∈ dels <-> id ∈ wo_deletes o \/ id ∈ dbatch) /\
    (forall id, find_patch pats id =
       if decide (id ∈ pbatch)
       then Some (mkDocument id (from_option snd ∅ (wo_patch_by_filter o) ∪ from_option doc_attributes ∅ (find_patch (wo_patches o) id)))
       else find_patch (wo_patches o) id) /\
    conditions_hold current (wo_upsert_condition o) (wo_patch_condition o) (wo_delete_condition o)
      (wo_upserts o, pats, dels) (wa_upserts args, wa_patches args, wa_deletes args) /\
    wa_namespace args = ns /\ ws_rows_remaining (wa_stats args) = (if drem || prem then Some true else None).

Lemma filtered_NoDup filter partial batch remaining : filtered limits docs filter partial batch remaining -> NoDup batch.
Proof. destruct filter as [v|]; [by intros (expr & _ & H & _)|]. intros [-> _]. constructor. Qed.

Lemma write_rows_post current o sg :
  0 <= max_filter_batch_rows limits ->
  filter_ok m log (not_null (wo_delete_by_filter o)) -> filter_ok m log (fst <$> wo_patch_by_filter o) ->
  load_state ns m log (sg_world sg) -> index_ok (objects (sg_world sg)) ns m log -> views_ok sg ns log ->
  overlay_pending_writes ns docs (sg_buffer sg) = (current, Ok tt) ->
  strong_post ns m log sg (write_rows_spec current o)
    (write_rows policy max_keys max_probe_clusters ann_build cache_enabled limits ns o sg).
Proof.
  intros Hpos Hok1 Hok2 Hw Hix Hv Hover. unfold write_rows.
  eapply strong_post_bind_at; [by apply (delete_rows_post policy max_keys max_probe_clusters ann_build cache_enabled limits ns m log docs)|solve_sg_keeps|].
  intros [dels drem] sg1 E1 Hw1 Ho1 Hv1 (dbatch & Hdb & Hdel).
  eapply strong_post_bind_at;
    [apply (patch_rows_post policy max_keys max_probe_clusters ann_build cache_enabled limits ns m log docs); try done; by rewrite Ho1|solve_sg_keeps|].
  intros [pats prem] sg2 E2 Hw2 Ho2 Hv2 (pbatch & Hpb & Hpat). cbn in Hdb, Hdel, Hpb, Hpat.
  pose proof (keeps_buffer_delete_rows policy max_keys max_probe_clusters ann_build cache_enabled limits ns o sg) as [wq1 Hq1].
  rewrite E1 in Hq1. cbn in Hq1.
  pose proof (keeps_buffer_patch_rows policy max_keys max_probe_clusters ann_build cache_enabled limits ns o sg1) as [wq2 Hq2].
  rewrite E2 in Hq2. cbn in Hq2.
  eapply strong_post_bind; [apply (conditions_post current); [done..|by rewrite Hq2, Hq1]|solve_sg_keeps|].
  intros [[ups' pats'] dels'] sg3 Hw3 Ho3 Hv3 Hc _. cbn. split_and!; try done.
  exists dbatch, pbatch, drem, prem, pats, dels. cbn in Hc. split_and!; try done.
  - rewrite Hdel. apply push_new_elem.
  - intros id. rewrite Hpat. apply find_merge_patches. by eapply filtered_NoDup.
Qed.
End Conditions.

(** ** Theorems *)

(** C7: a strong load is exact.  The namespace exists, its snapshot object is the
    one the metadata names and the segment cache is in step with the store
    ([load_state]; not after [interrupted_compaction_unloadable]), its index objects are
    those the indexer maintains ([index_ok]) and the view cached in the process,
    if there is one, agrees with the log ([views_ok]; [apply_committed_gap],
    [eventual_open_loses_documents] and [recreated_namespace_stale] are ways to
    lose this).  Then whatever requests fail, unless [meta.json] was misread as
    absent, loading the namespace for a strong query changes no object and keeps
    the cached view a view of the log; when it succeeds, from a cached view or
    from the store, through the segment cache or in batched rounds, it returns
    the replay of the whole committed log with the current metadata.  A filter
    the index supports ([filter_supported]: on attributes it represents exactly)
    then selects exactly the committed documents it accepts. *)
Theorem strong_load_exact {IO : IterOrder} {WC : WalCodec} {MC : MetaCodec} {S : ObjectStore} {SL : StoreLaws}
    {MO : Monitor} {CO : CompletionOrder} {LC : LocalCache} {LL : LocalCacheLaws} {CR : CachedReads}
    {CL : CachedReadsLaws} {RM : ReadsMonitor} {SC : SegmentCodec} {FT : F64Text} {FL : F64TextLaws}
    policy max_keys max_probe_clusters ann_build cache_enabled ns m log sg :
  0 < max_keys -> lenZ log < u64_max ->
  load_state ns m log (sg_world sg) -> index_ok (objects (sg_world sg)) ns m log -> views_ok sg ns log ->
  let '(sg', r) := load_namespace policy max_keys max_probe_clusters ann_build cache_enabled ns sg in
  misled (sg_world sg') = false ->
  objects (sg_world sg') = objects (sg_world sg) /\ views_ok sg' ns log /\
  match r with
  | Err _ => True
  | Ok ln => replay ∅ log = Ok (ln_docs ln) /\ ln_meta ln = m /\
      forall expr, filter_supported m log expr -> exists ids,
        matching_doc_ids_for_filter (filter_context ln) expr = Ok ids /\
        forall id, id ∈ ids <-> exists doc, ln_docs ln !! id = Some doc /\ eval_filter expr doc = true
  end.
Proof.
  intros Hmax Hl Hw Hix Hv.
  pose proof (strong_load_post policy max_keys max_probe_clusters ann_build cache_enabled ns m log Hmax Hl sg Hw Hv) as H.
  unfold load_namespace. destruct (load_namespace_for_query _ _ _ _ _ _ _ sg) as [sg' [ln|e]]; intros Hm;
    destruct (H Hm) as (_ & Ho & Hv' & Hln); (split; [done|]; split; [done|]); [|done].
  cbn in Hln. split; [apply Hln|]. split; [apply Hln|]. intros expr Hsup. destruct Hw as (_ & Hst & _).
  by eapply loaded_filter.
Qed.

(** The store of the examples gives no misread answers. *)
Definition calm_store_monitor : @Monitor calm_store := @calm_monitor calm_store calm_store_honest.

Lemma calm_reads_monitor : @ReadsMonitor calm_store calm_store_monitor (no_cache calm_store) (direct_reads calm_store).
Proof. split. intros k w. discriminate. Qed.

Lemma calm_bucket_monitor : @BucketMonitor calm_store calm_store_monitor calm_bucket.
Proof. split; discriminate. Qed.

Definition indexed_storage : @Storage calm_store :=
  @mkStorage calm_store (@manager_new calm_store 0 indexed_world) (vc_new 4) (list_cache_new DEFAULT_NAMESPACE_LIST_TTL).

Definition storage_load (cache_enabled : bool) (sg : @Storage calm_store) : @Storage calm_store * result StorageError LoadedNamespace :=
  @load_namespace canonical_order demo_codec run_metas calm_store in_order (no_cache calm_store) (direct_reads calm_store)
    run_segments PolicyFail 128 64 (mkBuild 4 2 ANN_VERSION_V2) cache_enabled "ns" sg.

(** The load succeeds, cold and warm, and the second load uses the cached view. *)
Example storage_load_ok :
  match (storage_load false indexed_storage).2, (storage_load true indexed_storage).2,
        (storage_load false (storage_load false indexed_storage).1).2 with
  | Ok a, Ok b, Ok c => ln_docs a = {[ "a" := run_doc ]} /\ ln_docs b = ln_docs a /\ ln_docs c = ln_docs a /\
      ln_filter_index a = Some run_filter /\ ln_filter_index b = Some run_filter
  | _, _, _ => False
  end.
Proof. vm_compute. done. Qed.

Lemma indexed_load_state :
  @load_state canonical_order demo_codec run_metas calm_store (no_cache calm_store) (direct_reads calm_store)
    "ns" run_meta [put_entry "a"] (@sg_world calm_store indexed_storage).
Proof.
  split_and!; [exact I|exact indexed_world_state|left; reflexivity|]. eexists. vm_compute. reflexivity.
Qed.

Lemma tier_supported : @filter_supported canonical_order demo_codec run_meta [put_entry "a"] tier_filter.
Proof.
  intros indexed ->%run_docs. split.
  - intros id doc field v fv Hd. apply lookup_singleton_Some in Hd as [<- <-].
    intros Hv. cbn in Hv. apply lookup_singleton_Some in Hv as [<- <-]. by intros [= <-].
  - split; [discriminate|]. split; [by left|]. reflexivity.
Qed.

Lemma strong_load_exact_witness :
  let '(sg', r) := storage_load false indexed_storage in
  @objects calm_store (@sg_world calm_store sg') = mem_objects indexed_world /\
  @views_ok canonical_order demo_codec calm_store sg' "ns" [put_entry "a"] /\
  match r with
  | Err _ => True
  | Ok ln => @replay canonical_order demo_codec ∅ [put_entry "a"] = Ok (ln_docs ln) /\ ln_meta ln = run_meta /\
      forall expr, @filter_supported canonical_order demo_codec run_meta [put_entry "a"] expr -> exists ids,
        @matching_doc_ids_for_filter canonical_order sample_text (filter_context ln) expr = Ok ids /\
        forall id, id ∈ ids <-> exists doc, ln_docs ln !! id = Some doc /\ eval_filter expr doc = true
  end.
Proof.
  pose proof (@strong_load_exact canonical_order demo_codec run_metas calm_store calm_store_laws calm_store_monitor in_order
    (no_cache calm_store) (no_cache_laws _) (direct_reads calm_store) (direct_reads_laws _ _) calm_reads_monitor run_segments sample_text
    sample_text_laws PolicyFail 128 64 (mkBuild 4 2 ANN_VERSION_V2) false "ns" run_meta [put_entry "a"] indexed_storage
    ltac:(reflexivity) ltac:(reflexivity) indexed_load_state indexed_world_ok
    ltac:(intros v Hv; exfalso; revert Hv; vm_compute; discriminate)) as H.
  fold (storage_load false indexed_storage) in H. destruct (storage_load false indexed_storage) as [sg' r].
  apply H. reflexivity.
Defined.

(** C10: the rows of a write are exact.  On a namespace as for a strong load ([load_state],
    [index_ok], [views_ok]), with queued writes that apply, filters the index
    supports,
    with a delete filter, a patch filter, both or none, and with or without
    conditions: the rows handed to the write buffer are those of the request
    plus, for each filter, a duplicate-free batch of at most the configured
    number of committed documents the filter accepts: all of them unless
    leftovers are reported, which happens only when partial batches are allowed
    and then the batch is full.  Each id of the patch batch has one patch, with
    the new attributes over those of the request's own patch of that id.  The
    conditions of the request keep of these rows exactly those whose condition
    holds of the current document ([conditions_hold]).  Unless [meta.json] was
    misread as absent. *)
Theorem filter_write_exact {IO : IterOrder} {WC : WalCodec} {MC : MetaCodec} {S : ObjectStore} {SL : StoreLaws}
    {MO : Monitor} {BO : BucketOps} {BL : BucketLaws} {BM : BucketMonitor} {CO : CompletionOrder} {LC : LocalCache}
    {LL : LocalCacheLaws} {CR : CachedReads} {CL : CachedReadsLaws} {RM : ReadsMonitor} {SC : SegmentCodec}
    {FT : F64Text} {FL : F64TextLaws}
    policy max_keys max_probe_clusters ann_build cache_enabled limits ns m log docs current sg o :
  0 < max_keys -> 0 <= max_filter_batch_rows limits -> lenZ log < u64_max -> replay ∅ log = Ok docs ->
  (forall w k, cache_inv w -> cache_inv (bucket_head w k).1) ->
  (forall w p t n, cache_inv w -> cache_inv (bucket_list w p t n).1) ->
  load_state ns m log (sg_world sg) -> index_ok (objects (sg_world sg)) ns m log -> views_ok sg ns log ->
  overlay_pending_writes ns docs (sg_buffer sg) = (current, Ok tt) ->
  filter_ok m log (not_null (wo_delete_by_filter o)) -> filter_ok m log (fst <$> wo_patch_by_filter o) ->
  let '(sg', r) := write_rows policy max_keys max_probe_clusters ann_build cache_enabled limits ns o sg in
  misled (sg_world sg') = false ->
  objects (sg_world sg') = objects (sg_world sg) /\ views_ok sg' ns log /\
  match r with Err _ => True | Ok args => write_rows_spec ns docs limits current o args end.
Proof.
  intros Hmax Hpos Hl Hd Hc1 Hc2 Hw Hix Hv Hover Hok1 Hok2.
  pose proof (write_rows_post policy max_keys cache_enabled ns m log docs Hmax Hl Hd Hc1 Hc2 max_probe_clusters ann_build limits
    current o sg Hpos Hok1 Hok2 Hw Hix Hv Hover) as H.
  destruct (write_rows _ _ _ _ _ _ _ _ sg) as [sg' r]. intros Hm. destruct (H Hm) as (_ & K1 & K2 & K3). by split_and!.
Qed.

(** C11: conditions are checked against the committed documents with the queued
    writes on top.  On a namespace that exists, with its snapshot and segment
    cache as for a strong load ([load_state]), when the cached view, if there is
    one, agrees with the log and the queued writes apply: the upserts, patches and deletes that
    [apply_write_conditions] lets through are exactly those of the request whose
    condition holds of the current document of their id, that is the replay of
    the whole log (from the cached view or a fresh one) with the operations
    waiting in the queue of the write buffer applied; a batch already taken from
    the queue and not yet committed is not among them, and a namespace without
    objects is taken to be empty ([first_batch_conditions_ignored]).  Unless
    [meta.json] was misread as absent. *)
Theorem conditional_write_exact {IO : IterOrder} {WC : WalCodec} {MC : MetaCodec} {S : ObjectStore} {SL : StoreLaws}
    {MO : Monitor} {BO : BucketOps} {BL : BucketLaws} {BM : BucketMonitor} {CO : CompletionOrder} {LC : LocalCache}
    {LL : LocalCacheLaws} {CR : CachedReads} {CL : CachedReadsLaws} {RM : ReadsMonitor}
    policy max_keys cache_enabled ns m log docs current sg uc pc dc ups pats dels :
  0 < max_keys -> lenZ log < u64_max -> replay ∅ log = Ok docs ->
  (forall w k, cache_inv w -> cache_inv (bucket_head w k).1) ->
  (forall w p t n, cache_inv w -> cache_inv (bucket_list w p t n).1) ->
  load_state ns m log (sg_world sg) -> views_ok sg ns log ->
  overlay_pending_writes ns docs (sg_buffer sg) = (current, Ok tt) ->
  let '(sg', r) := apply_write_conditions policy max_keys cache_enabled ns ups pats dels uc pc dc sg in
  misled (sg_world sg') = false ->
  objects (sg_world sg') = objects (sg_world sg) /\ views_ok sg' ns log /\
  match r with
  | Ok out => conditions_hold current uc pc dc (ups, pats, dels) out
  | Err _ => True
  end.
Proof.
  intros Hmax Hl Hd Hc1 Hc2 Hw Hv Hover.
  pose proof (conditions_post policy max_keys cache_enabled ns m log docs Hmax Hl Hd Hc1 Hc2 current uc pc dc ups pats dels sg
    Hw Hv Hover) as H.
  destruct (apply_write_conditions _ _ _ _ _ _ _ _ _ _ sg) as [sg' r]. intros Hm. destruct (H Hm) as (_ & H1 & H2 & H3). by split_and!.
Qed.

(** Insert "a" and "b" when absent: "a" is committed. *)
Definition insert_value : Value := VArray [VString "id"; VString "Eq"; VNull].

Definition insert_rows : @Storage calm_store * result StorageError (list Document * list Document * list string) :=
  @apply_write_conditions canonical_order demo_codec run_metas calm_store calm_bucket in_order PolicyFail 128 false "ns"
    [run_doc; mkDocument "b" ∅] [] [] (Some insert_value) None None indexed_storage.

Lemma conditional_write_exact_witness :
  match insert_rows.2 with
  | Ok out => conditions_hold {[ "a" := run_doc ]} (Some insert_value) None None ([run_doc; mkDocument "b" ∅], [], []) out /\
      out.1.1 = [mkDocument "b" ∅]
  | Err _ => False
  end.
Proof.
  pose proof (@conditional_write_exact canonical_order demo_codec run_metas calm_store calm_store_laws calm_store_monitor calm_bucket
    calm_bucket_laws calm_bucket_monitor in_order (no_cache calm_store) (no_cache_laws _) (direct_reads calm_store) (direct_reads_laws _ _)
    calm_reads_monitor PolicyFail 128 false "ns" run_meta [put_entry "a"] {[ "a" := run_doc ]} {[ "a" := run_doc ]} indexed_storage
    (Some insert_value) None None [run_doc; mkDocument "b" ∅] [] []
    ltac:(reflexivity) ltac:(reflexivity) ltac:(vm_compute; reflexivity) ltac:(intros; exact I) ltac:(intros; exact I)
    indexed_load_state ltac:(intros v Hv; exfalso; revert Hv; vm_compute; discriminate) ltac:(vm_compute; reflexivity)) as H.
  fold insert_rows in H. destruct insert_rows as [sg' r] eqn:E. destruct (H eq_refl) as (_ & _ & Hout).
  apply (f_equal snd) in E. cbn in E. cbn [snd]. destruct r as [out|e].
  - split; [exact Hout|]. revert E. clear. vm_compute. by intros [= <-].
  - revert E. clear. vm_compute. discriminate.
Defined.

Definition tier_value : Value := VArray [VString "tier"; VString "Eq"; VString "free"].

(** Delete and patch the documents with [tier = "free"]. *)
Definition tier_ops : WriteOps :=
  mkWriteOps [] [mkDocument "z" {[ "x" := VBool true ]}] ["q"] None (Some tier_value) false
    (Some (tier_value, {[ "x" := VBool false ]})) false None None None None false.

Definition tier_rows : @Storage calm_store * result StorageError WriteArgs :=
  @write_rows canonical_order demo_codec run_metas calm_store calm_bucket in_order (no_cache calm_store)
    (direct_reads calm_store) run_segments sample_text PolicyFail 128 64 (mkBuild 4 2 ANN_VERSION_V2) false (mkLimits 100 100)
    "ns" tier_ops indexed_storage.

Lemma tier_filter_ok (v : option Value) :
  (forall v', v = Some v' -> v' = tier_value) -> @filter_ok canonical_order demo_codec run_meta [put_entry "a"] v.
Proof. intros Hv v' expr ->%Hv. vm_compute (parse_filter _). intros [= <-]. exact tier_supported. Qed.

Lemma filter_write_exact_witness :
  @objects calm_store (@sg_world calm_store tier_rows.1) = mem_objects indexed_world /\
  match tier_rows.2 with
  | Ok args => @write_rows_spec "ns" {[ "a" := run_doc ]} (mkLimits 100 100) {[ "a" := run_doc ]} tier_ops args /\
      wa_deletes args = ["q"; "a"]
  | Err _ => False
  end.
Proof.
  pose proof (@filter_write_exact canonical_order demo_codec run_metas calm_store calm_store_laws calm_store_monitor calm_bucket
    calm_bucket_laws calm_bucket_monitor in_order (no_cache calm_store) (no_cache_laws _) (direct_reads calm_store)
    (direct_reads_laws _ _) calm_reads_monitor run_segments sample_text sample_text_laws PolicyFail 128 64
    (mkBuild 4 2 ANN_VERSION_V2) false (mkLimits 100 100) "ns" run_meta [put_entry "a"] {[ "a" := run_doc ]}
    {[ "a" := run_doc ]} indexed_storage tier_ops
    ltac:(reflexivity) ltac:(discriminate) ltac:(reflexivity) ltac:(vm_compute; reflexivity) ltac:(intros; exact I)
    ltac:(intros; exact I) indexed_load_state indexed_world_ok
    ltac:(intros v Hv; exfalso; revert Hv; vm_compute; discriminate) ltac:(vm_compute; reflexivity)
    ltac:(apply tier_filter_ok; cbn; congruence) ltac:(apply tier_filter_ok; cbn; congruence)) as H.
  fold tier_rows in H. destruct tier_rows as [sg' r] eqn:E. destruct (H eq_refl) as (Ho & _ & Hrows). split; [exact Ho|].
  apply (f_equal snd) in E. cbn in E. cbn [snd]. destruct r as [args|e].
  - split; [exact Hrows|]. revert E. clear. vm_compute. by intros [= <-].
  - revert E. clear. vm_compute. discriminate.
Defined.

(** ** Findings *)

Definition demo_query (c : QueryConsistency) (sg : @Storage calm_store) : @Storage calm_store * result StorageError LoadedNamespace :=
  @load_namespace_for_query canonical_order demo_codec demo_metas calm_store in_order (no_cache calm_store) (direct_reads calm_store)
    run_segments PolicyFail 128 64 (mkBuild 4 2 ANN_VERSION_V2) false "ns" c sg.

Definition demo_stats : WriteStats := mkWriteStats 1 0 0 None None None.

(** an eventual query makes later strong queries lose documents.  On a
    process without a disk cache the first query of a namespace, when eventual,
    pins a view with no documents and nothing applied; the next write through
    this process applies its own batch to that view and marks it as current, so
    strong queries see only that batch.  Here the committed document "a" is
    gone from a strong load. *)
Theorem eventual_open_loses_documents :
  let sg1 := (demo_query Eventual (calm_storage demo_world)).1 in
  let appended := @append_wal demo_codec demo_metas calm_store "ns" (put_entry "b") None None (@world calm_store (sg_buffer sg1)) in
  let finished := @write_finish canonical_order demo_codec demo_metas calm_store PolicyFail "ns" (mkCommitted 2 (put_entry "b") demo_stats)
                    (put_world appended.1 sg1) in
  let out := demo_query Strong finished.1 in
  appended.2 = Ok 2 /\ finished.2 = Ok demo_stats /\
  (exists ln, out.2 = Ok ln /\ ln_docs ln !! "a" = None /\ ln_docs ln !! "b" = Some (tier_doc "b" "free")) /\
  exists docs, @replay canonical_order demo_codec ∅ [put_entry "a"; put_entry "b"] = Ok docs /\
    docs !! "a" = Some (tier_doc "a" "free").
Proof.
  cbv zeta. split; [vm_compute; reflexivity|]. split; [vm_compute; reflexivity|].
  split; (eexists; split; [vm_compute; reflexivity|]; vm_compute; done).
Qed.

(** a view outlives its namespace.  Sequence numbers restart when another
    process deletes a namespace and writes it again, and a view is only
    refreshed when the stored number is larger: a strong query of this process
    answers with the deleted documents. *)
Theorem recreated_namespace_stale :
  let sg1 := (demo_query Strong (calm_storage three_world)).1 in
  let gone := (@delete_namespace_objects calm_store calm_bucket 4 "ns" (@world calm_store (sg_buffer sg1))).1 in
  let again := @append_wal demo_codec demo_metas calm_store "ns" (put_entry "c") None None gone in
  let out := demo_query Strong (put_world again.1 sg1) in
  again.2 = Ok 1 /\
  (exists ln, out.2 = Ok ln /\ ln_docs ln !! "a" = Some (tier_doc "a" "free") /\ ln_docs ln !! "c" = None) /\
  exists v, (@view_load canonical_order demo_codec demo_metas calm_store PolicyFail "ns" again.1).2 = Ok v /\
    v_docs v = {[ "c" := tier_doc "c" "free" ]}.
Proof.
  cbv zeta. split; [vm_compute; reflexivity|]. split; (eexists; split; [vm_compute; reflexivity|]; vm_compute; done).
Qed.

(** A write of "a" queued in the buffer of a namespace that has no object yet. *)
Definition queued_manager : @Manager calm_store :=
  default demo_manager (demo_run [AWrite (one_row "a"); ARun false 1]).

(** conditions ignore the queue of a new namespace.  The queued writes are
    laid over the documents only when the namespace exists in the store, so
    before its first commit an "insert if absent" of an id that is already
    queued passes. *)
Theorem first_batch_conditions_ignored :
  let doc := tier_doc "a" "other" in
  let out := @apply_write_conditions canonical_order demo_codec demo_metas calm_store calm_bucket in_order PolicyFail 128 false "ns"
               [doc] [] [] (Some insert_value) None None
               (@mkStorage calm_store queued_manager (vc_new 4) (list_cache_new DEFAULT_NAMESPACE_LIST_TTL)) in
  out.2 = Ok ([doc], [], []) /\
  let '(docs, r) := @overlay_pending_writes canonical_order demo_codec calm_store "ns" ∅ queued_manager in
  r = Ok tt /\ should_apply_upsert (FCmp "id" CEq FNull) (docs !! "a") doc = false.
Proof. split; vm_compute; [reflexivity|done]. Qed.
