(* ===== verification/Api.v ===== *)
(** * The HTTP handlers ([api.rs])

    What a request is checked for, in the order the handlers check it, the
    status an error is answered with, and the calls of the storage facade.
    Bodies arrive parsed, responses are values; the text of an error is known
    where the code inspects it, through [ErrorText]. *)

From Stdlib Require Import ZArith Lia Bool.
From stdpp Require Import base gmap strings list.
From S2P Require Import Prelude F64 Json Models Filter Keys Schema Meta Wal WalReplay ObjectStore Namespace Durability Compaction FilterIndex View ViewCache Export Buffer VectorEncoding Fts Vector Search VectorBuild Cache Indexer ColdFetch Storage.

Inductive StatusCode : Type :=
| OK_200 | BAD_REQUEST | NOT_FOUND | SERVICE_UNAVAILABLE | GATEWAY_TIMEOUT | INTERNAL_SERVER_ERROR.

(** The reason of a rejected request. *)
Inductive ApiError : Type :=
| ApiName (e : LimitError)
| ApiExclusiveClone
| ApiEmptySource
| ApiCloneWithRows
| ApiTooManyRows (rows max_rows : Z)
| ApiDocId (e : DocIdError)
| ApiColumnsNotObject | ApiColumnsNoId | ApiColumnNotArray (key : string) | ApiColumnLength | ApiIdNotString
| ApiPatchFilterNotObject | ApiPatchFilterNoFilters | ApiPatchFilterNoPatch | ApiPatchFilterPatchNotObject
| ApiSchema (e : SchemaError)
| ApiFilter (e : FilterError)
| ApiMetric (e : MetaError)
| ApiVector (e : VecError)
| ApiQuery (e : QueryError)
| ApiStorage (e : StorageError)
| ApiBuffer (e : BufError)
| ApiNotIndexed
| ApiMessage (msg : string).

(** The messages of errors: [to_string()], the outermost one, and [{:#}], the
    whole chain. *)
Class ErrorText : Type := {
  storage_text : StorageError -> string;
  storage_chain : StorageError -> string;
  buffer_text : BufError -> string;
  buffer_chain : BufError -> string
}.

Definition api_error (status : StatusCode) (e : ApiError) : StatusCode * ApiError := (status, e).

Definition s3_error_hint (chain : string) : option string :=
  if str_contains "NoSuchBucket" chain then Some "bucket"
  else if str_contains "XMinioInvalidObjectName" chain || str_contains "InvalidObjectName" chain
  then Some "invalid_object_name"
  else None.

(** The status of [storage_error_response]. *)
Definition storage_status (chain : string) : StatusCode :=
  match s3_error_hint chain with
  | Some hint =>
      if String.eqb hint "bucket" then SERVICE_UNAVAILABLE
      else if String.eqb hint "invalid_object_name" then BAD_REQUEST
      else INTERNAL_SERVER_ERROR
  | None => INTERNAL_SERVER_ERROR
  end.

Section Errors.
Context {ET : ErrorText}.

Definition storage_error_response (e : StorageError) : StatusCode * ApiError :=
  api_error (storage_status (storage_chain e)) (ApiStorage e).

Definition namespace_or_storage_error (e : StorageError) : StatusCode * ApiError :=
  if str_contains "namespace not found" (storage_text e) then api_error NOT_FOUND (ApiStorage e)
  else storage_error_response e.

Definition copy_namespace_error_response (e : StorageError) : StatusCode * ApiError :=
  let msg := storage_text e in
  if str_contains "destination namespace must be empty" msg || str_contains "cannot copy namespace to itself" msg
  then api_error BAD_REQUEST (ApiStorage e)
  else if str_contains "source namespace not found" msg then api_error NOT_FOUND (ApiStorage e)
  else storage_error_response e.

(** The errors of [write_documents]: of its first half, and of the commit. *)
Definition write_error_response (text chain : string) (e : ApiError) : StatusCode * ApiError :=
  if str_contains "distance_metric" text || str_contains "filter matched" text then api_error BAD_REQUEST e
  else api_error (storage_status chain) e.
End Errors.

Definition reject {A} (e : ApiError) : result (StatusCode * ApiError) A := Err (api_error BAD_REQUEST e).

(** [Err(e) => return api_error(BAD_REQUEST, e)]. *)
Definition or_reject {E A} (f : E -> ApiError) (r : result E A) : result (StatusCode * ApiError) A :=
  match r with Ok a => Ok a | Err e => reject (f e) end.

Definition namespace_name_error_response (name : string) : result (StatusCode * ApiError) unit :=
  or_reject ApiName (validate_namespace_name name).

(** ** Row formats *)

Definition write_has_row_ops (body : WriteRequest) : bool :=
  negb (bool_decide (upsert_rows body = [])) || bool_decide (is_Some (upsert_columns body))
  || negb (bool_decide (patch_rows body = [])) || bool_decide (is_Some (patch_columns body))
  || negb (bool_decide (req_deletes body = [])) || bool_decide (is_Some (req_schema body))
  || bool_decide (is_Some (not_null (Models.delete_by_filter body)))
  || bool_decide (is_Some (not_null (Models.patch_by_filter body))).

Fixpoint check_columns (n : Z) (obj : list (string * Value)) : result ApiError unit :=
  match obj with
  | [] => Ok tt
  | (key, values) :: rest =>
      if String.eqb key "id" then check_columns n rest
      else
        let? arr := ok_or (as_array values) (ApiColumnNotArray key) in
        if lenZ arr =? n then check_columns n rest else Err ApiColumnLength
  end.

(** [values.as_array().and_then(|a| a.get(i))]. *)
Definition column_value (values : Value) (i : nat) : option Value := as_array values ≫= fun a => a !! i.

(** The attributes of row [i]. *)
Definition row_attributes (obj : list (string * Value)) (i : nat) : gmap string Value :=
  fold_left (fun attrs kv =>
    if String.eqb kv.1 "id" then attrs
    else match column_value kv.2 i with
         | Some v => <[kv.1 := v]> attrs
         | None => attrs
         end) obj ∅.

Fixpoint column_rows_from (obj : list (string * Value)) (i : nat) (ids : list Value) : result ApiError (list Document) :=
  match ids with
  | [] => Ok []
  | id_val :: rest =>
      let? id := ok_or (as_str id_val) ApiIdNotString in
      match validate_doc_id id with
      | Err e => Err (ApiDocId e)
      | Ok _ =>
          let? rows := column_rows_from obj (Datatypes.S i) rest in
          Ok (mkDocument id (row_attributes obj i) :: rows)
      end
  end.

(** The label of the two column forms appears only in messages. *)
Definition apply_column_batch (rows : list Document) (cols : Value) : result ApiError (list Document) :=
  let? obj := ok_or (as_object cols) ApiColumnsNotObject in
  let? id_col := ok_or (obj_get obj "id" ≫= as_array) ApiColumnsNoId in
  let? _ := check_columns (lenZ id_col) obj in
  let? new := column_rows_from obj 0 id_col in
  Ok (rows ++ new).

Definition parse_patch_by_filter (value : Value) : result ApiError (Value * gmap string Value) :=
  let? obj := ok_or (as_object value) ApiPatchFilterNotObject in
  let? filters := ok_or (obj_get obj "filters") ApiPatchFilterNoFilters in
  let? patch_val := ok_or (obj_get obj "patch") ApiPatchFilterNoPatch in
  let? patch_obj := ok_or (as_object patch_val) ApiPatchFilterPatchNotObject in
  Ok (filters, list_to_map (rev patch_obj)).

Fixpoint check_ids (ids : list string) : result ApiError unit :=
  match ids with
  | [] => Ok tt
  | id :: rest => match validate_doc_id id with Ok _ => check_ids rest | Err e => Err (ApiDocId e) end
  end.

(** Rows, then the column form of the same rows. *)
Definition with_columns (rows : list Document) (cols : option Value) : result ApiError (list Document) :=
  match cols with
  | None => Ok rows
  | Some cols => apply_column_batch rows cols
  end.

Record ParsedWrite : Type := mkParsedWrite {
  pw_upserts : list Document;
  pw_patches : list Document;
  pw_patch_by_filter : option (Value * gmap string Value)
}.

(** The checks of [write_namespace] before anything is read from the store. *)
Definition parse_write (max_rows : Z) (body : WriteRequest) : result ApiError ParsedWrite :=
  let explicit_rows := count_explicit_write_rows body in
  if max_rows <? explicit_rows then Err (ApiTooManyRows explicit_rows max_rows)
  else
    let? _ := check_ids (doc_id <$> upsert_rows body) in
    let? _ := check_ids (req_deletes body) in
    let? upserts := with_columns (upsert_rows body) (upsert_columns body) in
    let? _ := check_ids (doc_id <$> patch_rows body) in
    let? patches := with_columns (patch_rows body) (patch_columns body) in
    let? pbf :=
      match not_null (Models.patch_by_filter body) with
      | None => Ok None
      | Some v => let? parsed := parse_patch_by_filter v in Ok (Some parsed)
      end in
    Ok (mkParsedWrite upserts patches pbf).

(** ** The checks against the schema *)

Section Normalize.
Context {IO : IterOrder} {VL : VectorLib} {CN : Canonicalizers}.

Fixpoint check_patches (schema : Value) (patches : list Document) : result ApiError unit :=
  match patches with
  | [] => Ok tt
  | p :: rest =>
      match validate_patch_attributes (doc_attributes p) schema with
      | Ok _ => check_patches schema rest
      | Err e => Err (ApiSchema e)
      end
  end.

(** A missing condition and [null] are no condition. *)
Definition check_condition (cond : option Value) : result ApiError (option Value) :=
  match not_null cond with
  | None => Ok None
  | Some v => match parse_filter v with Ok _ => Ok cond | Err e => Err (ApiFilter e) end
  end.

Definition check_metric (metric : option string) : result ApiError (option DistanceMetric) :=
  match metric with
  | None => Ok None
  | Some s =>
      if String.eqb s "" then Ok None
      else match parse_distance_metric s with Ok m => Ok (Some m) | Err e => Err (ApiMetric e) end
  end.

Definition normalize_row (schema : Value) (doc : Document) : result ApiError Document :=
  let '(attrs, r) := normalize_document_vectors (doc_attributes doc) (set_schema schema default_meta) in
  match r with
  | Err e => Err (ApiVector e)
  | Ok _ =>
      match validate_and_normalize_document_attributes attrs schema with
      | Err e => Err (ApiSchema e)
      | Ok attrs => Ok (mkDocument (doc_id doc) attrs)
      end
  end.

Fixpoint normalize_rows (schema : Value) (docs : list Document) : result ApiError (list Document) :=
  match docs with
  | [] => Ok []
  | doc :: rest =>
      let? doc := normalize_row schema doc in
      let? rest := normalize_rows schema rest in
      Ok (doc :: rest)
  end.

(** The rows and options handed to the storage, given the effective schema. *)
Definition normalize_write (body : WriteRequest) (schema : Value) (p : ParsedWrite) : result ApiError WriteOps :=
  let? _ :=
    match pw_patch_by_filter p with
    | None => Ok tt
    | Some (_, attrs) => map_err ApiSchema (validate_patch_attributes attrs schema)
    end in
  let? _ := check_patches schema (pw_patches p) in
  let? _ :=
    match pw_patch_by_filter p with
    | None => Ok tt
    | Some (filters, _) => let? _ := map_err ApiFilter (parse_filter filters) in Ok tt
    end in
  let? uc := check_condition (Models.upsert_condition body) in
  let? pc := check_condition (Models.patch_condition body) in
  let? dc := check_condition (Models.delete_condition body) in
  let? metric := check_metric (req_distance_metric body) in
  let? upserts := normalize_rows schema (pw_upserts p) in
  let? patches := normalize_rows schema (pw_patches p) in
  let? pbf :=
    match pw_patch_by_filter p with
    | None => Ok None
    | Some (filters, attrs) =>
        let? attrs := map_err ApiSchema (validate_and_normalize_document_attributes attrs schema) in
        Ok (Some (filters, attrs))
    end in
  Ok (mkWriteOps upserts patches (req_deletes body) (req_schema body)
        (Models.delete_by_filter body) (Models.delete_by_filter_allow_partial body)
        pbf (Models.patch_by_filter_allow_partial body) uc pc dc metric (return_affected_ids body)).
End Normalize.

(** ** Handlers *)

(** The answer of a handler over the storage. *)
Definition ApM {S : ObjectStore} (A : Type) : Type := Storage -> Storage * result (StatusCode * ApiError) A.

Section ApiMonad.
Context {S : ObjectStore}.
Definition ap_ret {A} (a : A) : ApM A := fun sg => (sg, Ok a).
Definition ap_result {A} (r : result (StatusCode * ApiError) A) : ApM A := fun sg => (sg, r).
Definition ap_bind {A B} (m : ApM A) (k : A -> ApM B) : ApM B := fun sg =>
  match m sg with
  | (sg', Ok a) => k a sg'
  | (sg', Err e) => (sg', Err e)
  end.

(** A call of the storage, its error answered by [f]. *)
Definition ap_call {A} (f : StorageError -> StatusCode * ApiError) (m : SgM A) : ApM A := fun sg =>
  let '(sg', r) := m sg in (sg', match r with Ok a => Ok a | Err e => Err (f e) end).

(** Requests whose outcome is used as a value. *)
Definition ap_io {A} (m : World -> World * A) : ApM A := fun sg =>
  let '(w, a) := m (world (sg_buffer sg)) in (put_world w sg, Ok a).
End ApiMonad.

Notation "'ap!' x <- m ; k" := (ap_bind m (fun x => k))
  (at level 20, x pattern, m at level 100, k at level 200) : puffer_scope.

(** What a write request was answered with at once, or is waiting for. *)
Inductive WriteAccepted : Type :=
| Cloned (resp : WriteResponse)
| Queued (tx : positive).

(** The indexer did not catch up before the deadline, or a read failed. *)
Inductive WaitError : Type := WaitTimeout | WaitNs (e : NsError).

Section Handlers.
Context {IO : IterOrder} {WC : WalCodec} {MC : MetaCodec} {S : ObjectStore} {BO : BucketOps} {LS : ListStore}.
Context {CO : CompletionOrder} {LC : LocalCache} {CR : CachedReads} {SC : SegmentCodec}.
Context {TL : TextLib} {FT : F64Text} {VL : VectorLib} {CN : Canonicalizers} {ET : ErrorText}.
Context (policy : WalCorruptPolicy) (max_keys max_probe_clusters : Z) (ann_build : AnnBuildConfig).
Context (cache_enabled : bool) (limits : LimitsConfig) (fts_opts : FtsTokenizeOptions) (ann_rerank : bool).

(** Pages of a listing, and the effect on the disk cache of a copied namespace. *)
Context (fuel : nat) (invalidate_disk : string -> World -> World).

Definition effective_write_schema (namespace : string) (request_schema : option Value) (needs_existing_schema : bool)
  : ApM (result SchemaError Value) :=
  if bool_decide (request_schema = None) && negb needs_existing_schema then ap_ret (Ok (VObject []))
  else
    ap! cur <- ap_io (fetch_meta namespace);
    let base := match cur with Ok (Some (meta, _)) => schema meta | _ => VObject [] end in
    ap_ret (match request_schema with Some patch => merge_schema base patch | None => Ok base end).

(** Copy and branch do the same. *)
Definition handle_namespace_s3_clone (dest source : string) (body : WriteRequest) : ApM WriteResponse :=
  if String.eqb source "" then ap_result (reject ApiEmptySource)
  else if write_has_row_ops body then ap_result (reject ApiCloneWithRows)
  else
    ap! _ <- ap_call copy_namespace_error_response (clone_namespace_s3 fuel invalidate_disk dest source);
    ap_ret (from_stats dest (mkWriteStats 0 0 0 None None None)).

(** The metric of a request is compared with a committed one when it can be read. *)
Definition check_committed_metric (name : string) (metric : option DistanceMetric) : ApM unit :=
  match metric with
  | None => ap_ret tt
  | Some m =>
      ap! cur <- ap_io (fetch_meta name);
      match cur with
      | Ok (Some (meta, _)) =>
          ap_result (match resolve_distance_metric meta (Some m) with Ok _ => Ok tt | Err e => reject (ApiMetric e) end)
      | _ => ap_ret tt
      end
  end.

(** [write_namespace] up to the point where it waits for the commit. *)
Definition write_namespace (name : string) (body : WriteRequest) : ApM WriteAccepted :=
  ap! _ <- ap_result (namespace_name_error_response name);
  match copy_from_namespace body, branch_from_namespace body with
  | Some _, Some _ => ap_result (reject ApiExclusiveClone)
  | None, Some source | Some source, None =>
      ap! _ <- ap_result (namespace_name_error_response source);
      ap! resp <- handle_namespace_s3_clone name source body;
      ap_ret (Cloned resp)
  | None, None =>
      ap! p <- ap_result (or_reject id (parse_write (max_upsert_rows limits) body));
      ap! schema <- effective_write_schema name (req_schema body)
        (negb (bool_decide (pw_upserts p = [])) || negb (bool_decide (pw_patches p = []))
         || bool_decide (is_Some (pw_patch_by_filter p)));
      ap! schema <- ap_result (or_reject ApiSchema schema);
      ap! ops <- ap_result (or_reject id (normalize_write body schema p));
      ap! _ <- check_committed_metric name (wo_distance_metric ops);
      ap! tx <- ap_call (fun e => write_error_response (storage_text e) (storage_chain e) (ApiStorage e))
        (write_begin policy max_keys max_probe_clusters ann_build cache_enabled limits name ops);
      ap_ret (Queued tx)
  end.

(** The loop of [wait_until_indexed_with_indexer]: one element per turn, the
    clock it compares with the deadline and what other processes do while it
    sleeps.  The last reading is the first at or past the deadline. *)
Fixpoint wait_until_indexed (name : string) (deadline : Z) (turns : list (Z * (World -> World))) (bi : BackgroundIndexer)
    (w : World) : World * (BackgroundIndexer * result WaitError unit) :=
  match turns with
  | [] => (w, (bi, Err WaitTimeout))
  | (clock, others) :: rest =>
      match fetch_meta name w with
      | (w, Err e) => (w, (bi, Err (WaitNs e)))
      | (w, Ok cur) =>
          let indexed := match cur with Some (meta, _) => negb (needs_indexing meta) | None => false end in
          if indexed then (w, (bi, Ok tt))
          else
            let bi := wake name bi in
            if deadline <=? clock then (w, (bi, Err WaitTimeout))
            else wait_until_indexed name deadline rest bi (others w)
      end
  end.

(** The rest of [write_documents] and of the handler, on the answer of the
    buffer. *)
Definition write_namespace_done (name : string) (body : WriteRequest) (answer : result BufError CommittedBatch)
    (deadline : Z) (turns : list (Z * (World -> World))) (bi : BackgroundIndexer) (sg : Storage)
  : Storage * BackgroundIndexer * result (StatusCode * ApiError) WriteResponse :=
  match answer with
  | Err e => (sg, bi, Err (write_error_response (buffer_text e) (buffer_chain e) (ApiBuffer e)))
  | Ok committed =>
      match write_finish policy name committed sg with
      | (sg, Err e) => (sg, bi, Err (write_error_response (storage_text e) (storage_chain e) (ApiStorage e)))
      | (sg, Ok stats) =>
          if block_until_indexed body then
            let '(w, (bi, waited)) := wait_until_indexed name deadline turns bi (world (sg_buffer sg)) in
            (put_world w sg, bi,
             match waited with
             | Ok _ => Ok (from_stats name stats)
             | Err WaitTimeout => Err (api_error GATEWAY_TIMEOUT ApiNotIndexed)
             | Err (WaitNs e) =>
                 Err (if str_contains "did not catch up" (storage_text (SgNs e)) then api_error GATEWAY_TIMEOUT (ApiStorage (SgNs e))
                      else storage_error_response (SgNs e))
             end)
          else (sg, bi, Ok (from_stats name stats))
      end
  end.

Definition query_context (consistency : QueryConsistency) (loaded : LoadedNamespace) : QueryContext :=
  mkContext (ln_docs loaded) (ln_meta loaded) (ln_fts loaded) (ln_vectors loaded) (ln_filter_index loaded)
    (ln_tail_doc_ids loaded) consistency (ln_storage_roundtrips loaded)
    ((fun _ => ln_cold_s3_keys_fetched loaded) <$> ln_storage_roundtrips loaded)
    (then_some (0 <? ln_ann_probed_clusters loaded) (ln_ann_probed_clusters loaded)) (Some ann_rerank).

Definition query_namespace (rerank_env : bool) (elapsed_us : Z) (name : string) (body : QueryRequest) : ApM QueryResponse :=
  ap! _ <- ap_result (namespace_name_error_response name);
  ap! _ <- ap_call namespace_or_storage_error (sg_io (require_namespace name));
  ap! consistency <- ap_result (or_reject ApiQuery (parse_consistency (rq_consistency body)));
  ap! loaded <- ap_call namespace_or_storage_error
    (load_namespace_for_query policy max_keys max_probe_clusters ann_build cache_enabled name consistency);
  ap! loaded <-
    match vector_probe_specs (rq_rank_by body) with
    | Ok probes => ap_call storage_error_response
        (sg_io (finish_cold_vector_probes max_keys max_probe_clusters cache_enabled name loaded probes))
    | Err _ => ap_ret loaded
    end;
  ap_result (or_reject ApiQuery (execute_query fts_opts rerank_env elapsed_us (query_context consistency loaded) body)).

Definition delete_namespace_handler (name : string) : ApM unit :=
  ap! _ <- ap_result (namespace_name_error_response name);
  ap_call namespace_or_storage_error (delete_namespace fuel name).

Definition get_namespace_metadata (name : string) : ApM NamespaceMetadata :=
  ap! _ <- ap_result (namespace_name_error_response name);
  ap_call namespace_or_storage_error (namespace_metadata policy name).

(** One page; its rows are formatted by the caller. *)
Definition export_namespace_impl (name : string) (last_id : option string) (limit : option Z) : ApM ExportPage :=
  ap! _ <- ap_result (namespace_name_error_response name);
  ap! _ <- ap_result (match last_id with Some id => or_reject ApiDocId (validate_doc_id id) | None => Ok tt end);
  ap_call namespace_or_storage_error
    (export_namespace_page policy max_keys cache_enabled name last_id ((fun n => Z.min n MAX_EXPORT_LIMIT) <$> limit)).

Fixpoint summaries (names : list string) : ApM (list NamespaceSummary) :=
  match names with
  | [] => ap_ret []
  | id :: rest =>
      ap! summary <- ap_io (namespace_summary id);
      ap! rest <- summaries rest;
      ap_ret (match summary with Ok s => s | Err _ => mkNsSummary id None None None None end :: rest)
  end.

Definition list_namespaces_handler (clock : Z) : ApM (list NamespaceSummary) :=
  ap! names <- ap_call storage_error_response (list_namespaces fuel clock);
  summaries names.

(** The headers of a query response, as the values they print. *)
Definition query_performance_headers (perf : option QueryPerformance) : list (string * string) :=
  match perf with
  | None => []
  | Some p =>
      [("X-Openpuffer-Candidates", dec (perf_candidates p));
       ("X-Openpuffer-Candidates-Fraction",
        String.append (dec (perf_candidates p)) (String.append "/" (dec (approx_namespace_size p))))] ++
      match perf_storage_roundtrips p with
      | Some rt => [("X-Openpuffer-Storage-Roundtrips", dec rt)]
      | None => []
      end
  end.
End Handlers.
