(* ===== verification/ApiSpec.v ===== *)
(** * What the handlers accept and answer

    The column form of a batch means the rows it spells out; an accepted write
    is within the limits and has only valid ids and parsed conditions; a strong
    query answers with committed documents that satisfy its filter. *)

From Stdlib Require Import ZArith Lia Bool.
From stdpp Require Import base gmap strings list.
From S2P Require Import Prelude F64 Json Models Filter Keys Schema Meta Wal WalReplay ObjectStore Namespace Monitor Durability Compaction FilterIndex View ViewCache Export Buffer VectorEncoding Fts Vector Billing Search SearchSpec VectorBuild Cache Indexer IndexerMonitor IndexerSpec ColdFetch ColdSpec Storage StorageMonitor CloneSpec StorageSpec Api.

(** ** Columns *)

Definition valid_id (id : string) : Prop := validate_doc_id id = Ok tt.

(** An object of arrays as long as the [id] array, which holds valid ids. *)
Definition columns_ok (cols : Value) (ids : list string) : Prop :=
  exists obj, cols = VObject obj /\ obj_get obj "id" = Some (VArray (VString <$> ids)) /\ Forall valid_id ids /\
    forall key v, (key, v) ∈ obj -> key <> "id" -> exists arr, v = VArray arr /\ length arr = length ids.

(** The value of a column in a row. *)
Definition cell (cols : Value) (key : string) (i : nat) : option Value :=
  value_get cols key ≫= fun v => column_value v i.

Lemma check_columns_spec n obj :
  check_columns n obj = Ok tt <->
  forall key v, (key, v) ∈ obj -> key <> "id" -> exists arr, v = VArray arr /\ lenZ arr = n.
Proof.
  induction obj as [|[key v] obj IH]; cbn [check_columns].
  { split; [|done]. intros _ k v H. by apply not_elem_of_nil in H. }
  destruct (String.eqb_spec key "id") as [->|Hk].
  - rewrite IH. split; intros H k v' Hin Hne; [apply elem_of_cons in Hin as [[= -> ->]|Hin]; [done|]|]; apply (H k v'); try done. by right.
  - destruct (as_array v) as [arr|] eqn:Ha; cbn.
    + destruct v; try done. injection Ha as ->. destruct (Z.eqb_spec (lenZ arr) n) as [Hl|Hl].
      * rewrite IH. split; intros H k v' Hin Hne; [apply elem_of_cons in Hin as [[= -> ->]|Hin]; [by exists arr|]|]; apply (H k v'); try done. by right.
      * split; [done|]. intros H. destruct (H key (VArray arr)) as (arr' & [= <-] & Hl'); [by left|done..].
    + split; [done|]. intros H. destruct (H key v) as (arr & -> & _); [by left|done..].
Qed.

Lemma VString_list_inj (a b : list string) : VString <$> a = VString <$> b -> a = b.
Proof. revert b. induction a as [|x a IH]; intros [|y b]; try done. cbn. intros [= -> H]. f_equal. by apply IH. Qed.

Lemma column_rows_spec obj i ids rows :
  column_rows_from obj i ids = Ok rows <->
  exists names, ids = VString <$> names /\ Forall valid_id names /\
    rows = imap (fun j id => mkDocument id (row_attributes obj (i + j))) names.
Proof.
  revert i rows. induction ids as [|v ids IH]; intros i rows; cbn [column_rows_from].
  - split.
    + intros [= <-]. by exists [].
    + intros (names & Hn & _ & ->). by destruct names.
  - destruct (as_str v) as [id|] eqn:Hv; cbn [ok_or result_bind].
    2: { split; [done|]. intros (names & Hn & _ & _). destruct names as [|id names]; [done|]. by injection Hn as -> _. }
    destruct v; try done. injection Hv as ->. unfold valid_id. destruct (validate_doc_id id) as [[]|e] eqn:Hid.
    + destruct (column_rows_from obj (S i) ids) as [rest|e] eqn:E; cbn.
      * apply IH in E as (names & -> & Hval & ->). split.
        -- intros [= <-]. exists (id :: names). split; [done|]. split; [by constructor|]. cbn. rewrite Nat.add_0_r. f_equal.
           apply imap_ext. intros j x _. cbn. by rewrite Nat.add_succ_r.
        -- intros (names' & Hn & _ & ->). destruct names' as [|id' names']; [done|]. cbn in Hn. injection Hn as <- Hn.
           apply VString_list_inj in Hn as <-. cbn. rewrite Nat.add_0_r. do 2 f_equal.
           apply imap_ext. intros j x _. cbn. by rewrite Nat.add_succ_r.
      * split; [done|]. intros (names & Hn & Hval & _). destruct names as [|id' names]; [done|]. cbn in Hn. injection Hn as <- ->.
        inversion Hval as [|? ? _ Hval']; subst.
        assert (column_rows_from obj (S i) (VString <$> names) = Ok (imap (fun j id => mkDocument id (row_attributes obj (S i + j))) names)) by (apply IH; by exists names).
        congruence.
    + split; [done|]. intros (names & Hn & Hval & _). destruct names as [|id' names]; [done|]. cbn in Hn. injection Hn as <- _.
      inversion Hval; congruence.
Qed.

(** The attributes of a row are the cells of its columns. *)
Lemma row_attributes_lookup obj i key :
  NoDup obj.*1 -> row_attributes obj i !! key = if String.eqb key "id" then None else cell (VObject obj) key i.
Proof.
  unfold row_attributes, cell. cbn. intros Hnd.
  assert (forall acc : gmap string Value,
    fold_left (fun attrs kv => if String.eqb kv.1 "id" then attrs
      else match column_value kv.2 i with Some v => <[kv.1 := v]> attrs | None => attrs end) obj acc !! key =
    if String.eqb key "id" then acc !! key
    else match obj_get obj key ≫= fun v => column_value v i with Some v => Some v | None => acc !! key end) as H.
  { induction obj as [|[k v] obj IH]; intros acc; cbn; [by destruct (String.eqb key "id")|].
    cbn in Hnd. inversion Hnd as [|? ? Hk Hnd']; subst. rewrite (IH Hnd'). clear IH. cbn.
    destruct (String.eqb_spec key "id") as [->|Hid].
    - destruct (String.eqb_spec k "id") as [|Hki]; [done|]. destruct (column_value v i); [by rewrite lookup_insert_ne|done].
    - destruct (String.eqb_spec k key) as [->|Hkk].
      + assert (obj_get obj key = None) as ->.
        { clear -Hk. induction obj as [|[k' v'] obj IH]; [done|]. cbn in *. apply not_elem_of_cons in Hk as [Hn Hk].
          destruct (String.eqb_spec k' key); [congruence|]. by apply IH. }
        cbn. destruct (String.eqb_spec key "id"); [done|]. cbn. destruct (column_value v i); [by rewrite lookup_insert_eq|done].
      + destruct (obj_get obj key ≫= _); [done|]. destruct (String.eqb_spec k "id"); [done|].
        destruct (column_value v i); [by rewrite lookup_insert_ne|done]. }
  rewrite H, lookup_empty. destruct (String.eqb key "id"); [done|]. by destruct (obj_get obj key ≫= _).
Qed.

Lemma apply_columns_spec rows cols out :
  apply_column_batch rows cols = Ok out <->
  exists ids, columns_ok cols ids /\
    out = rows ++ imap (fun i id => mkDocument id (row_attributes (default [] (as_object cols)) i)) ids.
Proof.
  unfold apply_column_batch. destruct (as_object cols) as [obj|] eqn:Ho; cbn [ok_or result_bind].
  2: { split; [done|]. intros (ids & (obj & -> & _) & _). done. }
  destruct cols; try done. injection Ho as ->. cbn [default].
  destruct (obj_get obj "id" ≫= as_array) as [idc|] eqn:Hid; cbn [ok_or result_bind].
  2: { split; [done|]. intros (ids & (obj' & [= <-] & Hg & _) & _). by rewrite Hg in Hid. }
  assert (obj_get obj "id" = Some (VArray idc)) as Hg.
  { destruct (obj_get obj "id") as [v|]; [|done]. cbn in Hid. destruct v; try done. by injection Hid as ->. }
  destruct (check_columns (lenZ idc) obj) as [[]|e] eqn:Hc; cbn [result_bind].
  - destruct (column_rows_from obj 0 idc) as [new|e] eqn:Hr; cbn [result_bind].
    + apply column_rows_spec in Hr as (names & -> & Hval & ->). pose proof (proj1 (check_columns_spec _ _) Hc) as Hcols.
      assert (columns_ok (VObject obj) names) as Hok.
      { exists obj. split_and!; try done. intros k v Hin Hk. destruct (Hcols k v Hin Hk) as (arr & -> & Hl). exists arr.
        split; [done|]. unfold lenZ in Hl. rewrite length_fmap in Hl. lia. }
      split.
      * intros [= <-]. by exists names.
      * intros (ids & (obj' & [= <-] & Hg' & _) & ->). rewrite Hg in Hg'. injection Hg' as Hn. by apply VString_list_inj in Hn as <-.
    + split; [done|]. intros (ids & (obj' & [= <-] & Hg' & Hval & _) & _). rewrite Hg in Hg'. injection Hg' as ->.
      assert (column_rows_from obj 0 (VString <$> ids) = Ok (imap (fun j id => mkDocument id (row_attributes obj (0 + j))) ids))
        by (apply column_rows_spec; by exists ids). congruence.
  - split; [done|]. intros (ids & (obj' & [= <-] & Hg' & Hval & Hcols) & _). rewrite Hg in Hg'. injection Hg' as ->.
    assert (check_columns (lenZ (VString <$> ids)) obj = Ok tt).
    { apply check_columns_spec. intros k v Hin Hk. destruct (Hcols k v Hin Hk) as (arr & -> & Hl). exists arr.
      split; [done|]. unfold lenZ. rewrite length_fmap. lia. }
    congruence.
Qed.

(** ** Accepted writes *)

Lemma check_ids_spec ids : check_ids ids = Ok tt <-> Forall valid_id ids.
Proof.
  unfold valid_id. induction ids as [|id ids IH]; cbn; [split; [constructor|done]|]. rewrite Forall_cons, <- IH.
  destruct (validate_doc_id id) as [[]|e]; naive_solver.
Qed.

Lemma imap_ids (f : nat -> string -> gmap string Value) ids : doc_id <$> imap (fun i id => mkDocument id (f i id)) ids = ids.
Proof. induction ids as [|id ids IH] using rev_ind; [done|]. rewrite imap_app, fmap_app. cbn. by rewrite IH. Qed.

(** The ids a column batch spells out. *)
Definition column_ids (cols : option Value) : list string :=
  from_option (omap as_str) [] (cols ≫= fun v => value_get v "id" ≫= as_array).

(** The ids of the rows of a request, given as rows or as columns. *)
Definition upsert_ids (body : WriteRequest) : list string := (doc_id <$> upsert_rows body) ++ column_ids (upsert_columns body).
Definition patch_ids (body : WriteRequest) : list string := (doc_id <$> patch_rows body) ++ column_ids (patch_columns body).
Definition request_ids (body : WriteRequest) : list string := upsert_ids body ++ patch_ids body ++ req_deletes body.

Lemma omap_strings (ids : list string) : omap as_str (VString <$> ids) = ids.
Proof. induction ids as [|id ids IH]; [done|]. cbn. by rewrite IH. Qed.

Lemma with_columns_valid rows cols out :
  with_columns rows cols = Ok out -> Forall valid_id (doc_id <$> rows) ->
  doc_id <$> out = (doc_id <$> rows) ++ column_ids cols /\ Forall valid_id (doc_id <$> out) /\
  lenZ out = lenZ rows + column_rows cols.
Proof.
  destruct cols as [cols|]; cbn [with_columns].
  - intros (ids & (obj & -> & Hg & Hval & _) & ->)%apply_columns_spec Hrows. rewrite fmap_app.
    rewrite (imap_ids (fun i _ => row_attributes obj i)). unfold column_ids, column_rows. cbn. rewrite Hg. cbn.
    rewrite omap_strings. split_and!; [done|by apply Forall_app|].
    unfold lenZ. rewrite length_app, length_imap, length_fmap. lia.
  - intros [= <-] Hrows. unfold column_ids, column_rows. cbn. rewrite app_nil_r. split_and!; [done..|]. lia.
Qed.

(** A parsed request has the rows of the request: valid ids, within the limit. *)
Lemma parse_write_valid max_rows body p :
  parse_write max_rows body = Ok p ->
  doc_id <$> pw_upserts p = upsert_ids body /\ doc_id <$> pw_patches p = patch_ids body /\
  (not_null (Models.patch_by_filter body) = None -> pw_patch_by_filter p = None) /\
  Forall valid_id (request_ids body) /\ lenZ (request_ids body) <= max_rows.
Proof.
  unfold parse_write. destruct (_ <? _) eqn:E; case_bool; [done|]. unfold count_explicit_write_rows in E.
  destruct (check_ids (doc_id <$> upsert_rows body)) as [[]|e] eqn:H1; [|done]. cbn [result_bind].
  destruct (check_ids (req_deletes body)) as [[]|e] eqn:H2; [|done]. cbn [result_bind].
  destruct (with_columns (upsert_rows body) _) as [ups|e] eqn:H3; [|done]. cbn [result_bind].
  destruct (check_ids (doc_id <$> patch_rows body)) as [[]|e] eqn:H4; [|done]. cbn [result_bind].
  destruct (with_columns (patch_rows body) _) as [pats|e] eqn:H5; [|done]. cbn [result_bind].
  destruct (match not_null _ with None => _ | Some _ => _ end) as [pbf|e] eqn:Hp; [|done]. intros [= <-]. cbn.
  apply check_ids_spec in H1, H2, H4. destruct (with_columns_valid _ _ _ H3 H1) as (H6 & H7 & H8).
  destruct (with_columns_valid _ _ _ H5 H4) as (H9 & H10 & H11). unfold request_ids, upsert_ids, patch_ids.
  rewrite <- H6, <- H9. split_and!; try done.
  - intros Hn. rewrite Hn in Hp. by injection Hp as <-.
  - rewrite !Forall_app. by split_and!.
  - unfold lenZ in *. rewrite !length_app, !length_fmap. lia.
Qed.

Section Accepted.
Context {IO : IterOrder} {VL : VectorLib} {CN : Canonicalizers}.

Lemma normalize_rows_ids schema docs docs' : normalize_rows schema docs = Ok docs' -> doc_id <$> docs' = doc_id <$> docs.
Proof.
  revert docs'. induction docs as [|d docs IH]; intros docs'; cbn [normalize_rows]; [by intros [= <-]|].
  unfold normalize_row. destruct (normalize_document_vectors _ _) as [attrs [[]|e]]; [|done].
  destruct (validate_and_normalize_document_attributes attrs schema) as [attrs'|e]; [|done]. cbn [result_bind].
  destruct (normalize_rows schema docs) as [rest|e]; [|done]. cbn. intros [= <-]. cbn. by rewrite (IH rest).
Qed.

(** The condition kept is the one of the request, and parses. *)
Lemma check_condition_spec cond out :
  check_condition cond = Ok out -> not_null out = not_null cond /\ forall v, not_null out = Some v -> exists e, parse_filter v = Ok e.
Proof.
  unfold check_condition. destruct (not_null cond) as [v|] eqn:E; [|by intros [= <-]].
  destruct (parse_filter v) as [e|e] eqn:Hp; [|done]. intros [= <-]. rewrite E. split; [done|]. intros v' [= <-]. eauto.
Qed.

(** The rows keep their ids, and the conditions of the request parse. *)
Lemma normalize_write_valid body schema p ops :
  normalize_write body schema p = Ok ops ->
  doc_id <$> wo_upserts ops = doc_id <$> pw_upserts p /\ doc_id <$> wo_patches ops = doc_id <$> pw_patches p /\
  wo_deletes ops = req_deletes body /\ wo_delete_by_filter ops = Models.delete_by_filter body /\
  (pw_patch_by_filter p = None -> wo_patch_by_filter ops = None) /\
  (forall c v, c ∈ [Models.upsert_condition body; Models.patch_condition body; Models.delete_condition body] ->
     not_null c = Some v -> exists e, parse_filter v = Ok e).
Proof.
  unfold normalize_write.
  destruct (match pw_patch_by_filter p with None => Ok tt | Some (_, attrs) => _ end) as [[]|e]; [|done]. cbn [result_bind].
  destruct (check_patches schema (pw_patches p)) as [[]|e]; [|done]. cbn [result_bind].
  destruct (match pw_patch_by_filter p with None => Ok tt | Some (filters, _) => _ end) as [[]|e]; [|done]. cbn [result_bind].
  destruct (check_condition (Models.upsert_condition body)) as [uc|e] eqn:H1; [|done]. cbn [result_bind].
  destruct (check_condition (Models.patch_condition body)) as [pc|e] eqn:H2; [|done]. cbn [result_bind].
  destruct (check_condition (Models.delete_condition body)) as [dc|e] eqn:H3; [|done]. cbn [result_bind].
  destruct (check_metric _) as [metric|e]; [|done]. cbn [result_bind].
  destruct (normalize_rows schema (pw_upserts p)) as [ups|e] eqn:Hu; [|done]. cbn [result_bind].
  destruct (normalize_rows schema (pw_patches p)) as [pats|e] eqn:Hps; [|done]. cbn [result_bind].
  destruct (match pw_patch_by_filter p with None => Ok None | Some (filters, attrs) => _ end) as [pbf|e] eqn:Hpbf; [|done].
  cbn [result_bind]. intros [= <-]. cbn. split; [by eapply normalize_rows_ids|]. split; [by eapply normalize_rows_ids|].
  split_and!; [done..| |]. { intros Hn. rewrite Hn in Hpbf. by injection Hpbf as <-. }
  apply check_condition_spec in H1 as [E1 H1], H2 as [E2 H2], H3 as [E3 H3]. rewrite E1 in H1. rewrite E2 in H2. rewrite E3 in H3.
  intros c v Hc Hn. repeat (apply elem_of_cons in Hc as [->|Hc]; [eauto|]). by apply not_elem_of_nil in Hc.
Qed.
End Accepted.

(** ** What is queued *)

Section Queued.
Context {IO : IterOrder} {WC : WalCodec} {MC : MetaCodec} {S : ObjectStore} {BO : BucketOps}.
Context {CO : CompletionOrder} {LC : LocalCache} {CR : CachedReads} {SC : SegmentCodec}.
Context {FT : F64Text} {VL : VectorLib} {CN : Canonicalizers} {ET : ErrorText}.
Context (policy : WalCorruptPolicy) (max_keys max_probe_clusters : Z) (ann_build : AnnBuildConfig).
Context (cache_enabled : bool) (limits : LimitsConfig).

Definition sg_returns {A} (x : SgM A) (P : A -> Prop) : Prop := forall sg sg' a, x sg = (sg', Ok a) -> P a.

Lemma sg_returns_bind {A B} (x : SgM A) (k : A -> SgM B) P Q :
  sg_returns x P -> (forall a, P a -> sg_returns (k a) Q) -> sg_returns (sg_bind x k) Q.
Proof.
  intros Hx Hk sg sg' b. unfold sg_bind. destruct (x sg) as [sg1 [a|e]] eqn:E; [|done].
  apply Hx in E. by apply (Hk a E).
Qed.

Lemma sg_returns_any {A} (x : SgM A) : sg_returns x (fun _ => True).
Proof. done. Qed.

Lemma sublist_filter_fun {A} (f : A -> bool) (l : list A) : List.filter f l `sublist_of` l.
Proof. induction l as [|x l IH]; cbn; [constructor|]. destruct (f x); by constructor. Qed.

Lemma sublist_map {A B} (f : A -> B) (l l' : list A) : l `sublist_of` l' -> (f <$> l) `sublist_of` (f <$> l').
Proof. induction 1; cbn; by constructor. Qed.

Lemma keep_rows_returns {A} cond (keep : FilterExpr -> A -> bool) rows :
  sg_returns (sg_io (keep_rows cond keep rows)) (fun out => out `sublist_of` rows).
Proof.
  intros sg sg' out. unfold sg_io, keep_rows. destruct cond as [v|].
  - unfold sg_result, st_bind, st_result. destruct (parse_filter v) as [e|e]; cbn; [|done]. intros [= _ <-].
    apply sublist_filter_fun.
  - cbn. by intros [= _ <-].
Qed.

Lemma conditions_return ns ups pats dels uc pc dc :
  sg_returns (apply_write_conditions policy max_keys cache_enabled ns ups pats dels uc pc dc)
    (fun out => out.1.1 `sublist_of` ups /\ out.1.2 `sublist_of` pats /\ out.2 `sublist_of` dels).
Proof.
  assert (forall docs : Docs, sg_returns
    (do! ups <- sg_io (keep_rows (not_null uc) (fun e d => should_apply_upsert e (docs !! doc_id d) d) ups);
     do! pats <- sg_io (keep_rows (not_null pc) (fun e p => should_apply_patch e (docs !! doc_id p) p) pats);
     do! dels <- sg_io (keep_rows (not_null dc) (fun e id => should_apply_delete e (docs !! id)) dels);
     sg_ret (ups, pats, dels)) (fun out => out.1.1 `sublist_of` ups /\ out.1.2 `sublist_of` pats /\ out.2 `sublist_of` dels)) as Hrows.
  { intros docs. eapply sg_returns_bind; [apply keep_rows_returns|]. intros u Hu.
    eapply sg_returns_bind; [apply keep_rows_returns|]. intros p Hp. eapply sg_returns_bind; [apply keep_rows_returns|].
    intros d Hd sg sg' out [= _ <-]. done. }
  unfold apply_write_conditions.
  destruct (not_null uc), (not_null pc), (not_null dc);
    try (intros sg sg' out [= _ <-]; done);
    (eapply sg_returns_bind; [apply sg_returns_any|]; intros found _; eapply sg_returns_bind; [apply sg_returns_any|]; intros docs _; apply Hrows).
Qed.

(** Without filters only rows of the request are written. *)
Definition rows_of (o : WriteOps) (ns : string) (args : WriteArgs) : Prop :=
  wa_namespace args = ns /\ wa_upserts args `sublist_of` wo_upserts o /\
  (wo_patch_by_filter o = None -> wa_patches args `sublist_of` wo_patches o) /\
  (not_null (wo_delete_by_filter o) = None -> wa_deletes args `sublist_of` wo_deletes o).

Lemma write_rows_return ns o :
  sg_returns (write_rows policy max_keys max_probe_clusters ann_build cache_enabled limits ns o) (rows_of o ns).
Proof.
  unfold write_rows.
  eapply (sg_returns_bind _ _ (fun del => not_null (wo_delete_by_filter o) = None -> del.1 = wo_deletes o)).
  { unfold delete_by_filter_rows. destruct (not_null (wo_delete_by_filter o)); [done|]. by intros sg sg' del [= _ <-]. }
  intros del Hdel. eapply (sg_returns_bind _ _ (fun pat => wo_patch_by_filter o = None -> pat.1 = wo_patches o)).
  { unfold patch_by_filter_rows. destruct (wo_patch_by_filter o) as [[v attrs]|]; [done|]. by intros sg sg' pat [= _ <-]. }
  intros pat Hpat. eapply sg_returns_bind; [apply conditions_return|].
  intros [[ups pats] dels] (Hu & Hp & Hd) sg sg' args [= _ <-]. split_and!; cbn in *; try done.
  - intros Hn. by rewrite <- (Hpat Hn).
  - intros Hn. by rewrite <- (Hdel Hn).
Qed.

(** The writes waiting to be committed or answered. *)
Definition queued_writes (sg : Storage) : gmap positive WriteArgs := requests (sg_buffer sg).

Lemma write_begin_spec ns o sg sg' r :
  write_begin policy max_keys max_probe_clusters ann_build cache_enabled limits ns o sg = (sg', r) ->
  match r with
  | Ok tx => exists args, queued_writes sg' = <[tx := args]> (queued_writes sg) /\ rows_of o ns args
  | Err _ => queued_writes sg' = queued_writes sg
  end.
Proof.
  unfold write_begin, queued_writes. unfold sg_bind at 1.
  pose proof (keeps_buffer_rows policy max_keys max_probe_clusters ann_build cache_enabled limits ns o sg) as [w Hk].
  pose proof (write_rows_return ns o sg) as Hr. destruct (write_rows _ _ _ _ _ _ ns o sg) as [sg1 [args|e]]; cbn in Hk.
  - specialize (Hr sg1 args eq_refl). unfold sg_bind, sg_get, modify_buffer, sg_ret. cbn. intros [= <- <-].
    exists args. split; [|done]. cbn. rewrite Hk. unfold write_start. cbn. by destruct (buffers (sg_buffer sg) !! wa_namespace args).
  - intros [= <- <-]. by rewrite Hk.
Qed.

Context (fuel : nat) (invalidate_disk : string -> World -> World).

Lemma effective_schema_keeps ns sch needs sg sg' r :
  effective_write_schema ns sch needs sg = (sg', r) -> queued_writes sg' = queued_writes sg.
Proof.
  unfold effective_write_schema. destruct (_ && _); [by intros [= <- _]|]. unfold ap_bind, ap_io.
  destruct (fetch_meta ns _) as [w cur]. by intros [= <- _].
Qed.

Lemma metric_check_keeps ns metric sg sg' r :
  check_committed_metric ns metric sg = (sg', r) -> queued_writes sg' = queued_writes sg.
Proof.
  unfold check_committed_metric. destruct metric; [|by intros [= <- _]]. unfold ap_bind, ap_io.
  destruct (fetch_meta ns _) as [w [[[m et]|]|e]]; [destruct (resolve_distance_metric _ _)|..]; by intros [= <- _].
Qed.

Lemma clone_keeps_requests dest source sg :
  queued_writes (clone_namespace_s3 fuel invalidate_disk dest source sg).1 = queued_writes sg.
Proof.
  unfold clone_namespace_s3. rewrite sg_bind_io. destruct (clone_list _ _ _ _) as [w [keys|e]]; [|done].
  rewrite sg_bind_io. by destruct (copy_keys _ _ _ _) as [w2 [u|e]].
Qed.

Lemma handle_clone_keeps dest source body sg :
  queued_writes (handle_namespace_s3_clone fuel invalidate_disk dest source body sg).1 = queued_writes sg.
Proof.
  unfold handle_namespace_s3_clone. destruct (String.eqb source ""); [done|]. destruct (write_has_row_ops body); [done|].
  unfold ap_bind, ap_call. pose proof (clone_keeps_requests dest source sg) as Hk.
  by destruct (clone_namespace_s3 _ _ _ _ sg) as [sg1 [u|e]].
Qed.

(** What the queue holds after a write request, and what was checked. *)
Definition write_checked (name : string) (body : WriteRequest) (sg sg' : Storage)
    (r : result (StatusCode * ApiError) WriteAccepted) : Prop :=
  match r with
  | Ok (Queued tx) =>
      validate_namespace_name name = Ok tt /\ Forall valid_id (request_ids body) /\
      lenZ (request_ids body) <= max_upsert_rows limits /\
      (forall c v, c ∈ [Models.upsert_condition body; Models.patch_condition body; Models.delete_condition body] ->
         not_null c = Some v -> exists e, parse_filter v = Ok e) /\
      exists args, queued_writes sg' = <[tx := args]> (queued_writes sg) /\ wa_namespace args = name /\
        (doc_id <$> wa_upserts args) `sublist_of` upsert_ids body /\
        (not_null (Models.patch_by_filter body) = None -> (doc_id <$> wa_patches args) `sublist_of` patch_ids body) /\
        (not_null (Models.delete_by_filter body) = None -> wa_deletes args `sublist_of` req_deletes body)
  | Ok (Cloned _) => validate_namespace_name name = Ok tt /\ queued_writes sg' = queued_writes sg
  | Err _ => queued_writes sg' = queued_writes sg
  end.

(** The last steps of the handler, with a parsed request. *)
Lemma accept_checked name body p schema ops sg sg' tx :
  validate_namespace_name name = Ok tt -> parse_write (max_upsert_rows limits) body = Ok p ->
  normalize_write body schema p = Ok ops ->
  write_begin policy max_keys max_probe_clusters ann_build cache_enabled limits name ops sg = (sg', Ok tx) ->
  write_checked name body sg sg' (Ok (Queued tx)).
Proof.
  intros Hname Hp Hn Hb. apply parse_write_valid in Hp as (Hu & Hpt & Hpbf & Hval & Hl).
  apply normalize_write_valid in Hn as (Hids & Hpids & Hdels & Hdbf & Hpbf' & Hcond).
  apply write_begin_spec in Hb as (args & Hq & Hns & Hsub & Hps & Hds).
  cbn. split_and!; try done. exists args. split_and!; try done.
  - rewrite <- Hu, <- Hids. by apply sublist_map.
  - intros Hf. rewrite <- Hpt, <- Hpids. by apply sublist_map, Hps, Hpbf', Hpbf.
  - intros Hf. rewrite <- Hdels. apply Hds. by rewrite Hdbf.
Qed.

Lemma write_namespace_post name body sg :
  let '(sg', r) := write_namespace policy max_keys max_probe_clusters ann_build cache_enabled limits fuel invalidate_disk name body sg in
  write_checked name body sg sg' r.
Proof.
  unfold write_namespace, namespace_name_error_response, or_reject. unfold ap_bind at 1, ap_result at 1.
  destruct (validate_namespace_name name) as [[]|e] eqn:Hname; [|done].
  assert (forall source, let '(sg', r) := (ap! _ <- ap_result (or_reject ApiName (validate_namespace_name source));
      ap! resp <- handle_namespace_s3_clone fuel invalidate_disk name source body; ap_ret (Cloned resp)) sg in
    write_checked name body sg sg' r) as Hclone.
  { intros source. unfold or_reject. unfold ap_bind at 1, ap_result at 1. destruct (validate_namespace_name source); [|done].
    unfold ap_bind. pose proof (handle_clone_keeps name source body sg) as Hk.
    by destruct (handle_namespace_s3_clone _ _ _ _ _ sg) as [sg1 [resp|e]]. }
  destruct (copy_from_namespace body) as [src|], (branch_from_namespace body) as [src'|]; [done|apply Hclone..|].
  unfold ap_bind at 1, ap_result at 1. destruct (parse_write _ body) as [p|e] eqn:Hp; [|done].
  unfold ap_bind at 1. destruct (effective_write_schema _ _ _ sg) as [sg1 [schema|e]] eqn:Hs; apply effective_schema_keeps in Hs; [|done].
  unfold ap_bind at 1, ap_result at 1. destruct schema as [schema|e]; [|exact Hs].
  unfold ap_bind at 1, ap_result at 1. destruct (normalize_write body schema p) as [ops|e] eqn:Hn; [|exact Hs].
  unfold ap_bind at 1. destruct (check_committed_metric _ _ sg1) as [sg2 [[]|e]] eqn:Hm; apply metric_check_keeps in Hm; [|cbn; congruence].
  unfold ap_bind at 1, ap_call. destruct (write_begin _ _ _ _ _ _ name ops sg2) as [sg3 [tx|e]] eqn:Hb.
  - pose proof (accept_checked name body p schema ops sg2 sg3 tx Hname Hp Hn Hb) as H. cbn in *. by rewrite <- Hs, <- Hm.
  - apply write_begin_spec in Hb. cbn. congruence.
Qed.
End Queued.

(** ** Queries *)

Section Queries.
Context {IO : IterOrder} {WC : WalCodec} {MC : MetaCodec} {S : ObjectStore} {SL : StoreLaws} {MO : Monitor}.
Context {BO : BucketOps} {BL : BucketLaws} {BM : BucketMonitor} {CO : CompletionOrder} {LC : LocalCache} {LL : LocalCacheLaws}.
Context {CR : CachedReads} {CL : CachedReadsLaws} {RM : ReadsMonitor} {SC : SegmentCodec} {TL : TextLib} {FT : F64Text} {FL : F64TextLaws}.
Context {VL : VectorLib} {ET : ErrorText}.
Context (policy : WalCorruptPolicy) (max_keys max_probe_clusters : Z) (ann_build : AnnBuildConfig) (cache_enabled : bool).

(** Probing fetches vector and full-text parts; what a filter reads stays. *)
Definition same_documents (a b : LoadedNamespace) : Prop :=
  ln_docs b = ln_docs a /\ ln_meta b = ln_meta a /\ ln_filter_index b = ln_filter_index a /\ ln_tail_doc_ids b = ln_tail_doc_ids a.

Definition st_returns {E A} (m : St E A) (P : A -> Prop) : Prop := forall w w' a, m w = (w', Ok a) -> P a.

Lemma st_returns_bind {E A B} (m : St E A) (k : A -> St E B) P Q :
  st_returns m P -> (forall a, P a -> st_returns (k a) Q) -> st_returns (st_bind m k) Q.
Proof.
  intros Hm Hk w w' b. unfold st_bind. destruct (m w) as [w1 [a|e]] eqn:E1; [|done]. apply Hm in E1. by apply (Hk a E1).
Qed.

Lemma st_returns_any {E A} (m : St E A) : st_returns m (fun _ => True).
Proof. done. Qed.

Lemma st_returns_ret {E A} (a : A) (P : A -> Prop) : P a -> st_returns (E := E) (st_ret a) P.
Proof. intros Ha w w' b [= _ <-]. done. Qed.

Lemma probe_fields_same name specs ln :
  st_returns (probe_fields max_keys max_probe_clusters cache_enabled name specs ln) (same_documents ln).
Proof.
  revert ln. induction specs as [|[field query] specs IH]; intros ln; cbn [probe_fields].
  { by apply st_returns_ret. }
  assert (forall ln', same_documents ln ln' -> st_returns (probe_fields max_keys max_probe_clusters cache_enabled name specs ln') (same_documents ln)) as Hgo.
  { intros ln' (H1 & H2 & H3 & H4) w w' out Hout. apply IH in Hout as (K1 & K2 & K3 & K4). unfold same_documents. by rewrite K1, K2, K3, K4. }
  destruct (ln_vectors ln !! field); [by apply Hgo|]. destruct (ln_cold_vector_l0 ln !! field) as [l0|]; [|by apply Hgo].
  eapply (st_returns_bind _ _ (fun out => same_documents ln out.2)).
  - destruct (cold_batch cache_enabled).
    + eapply st_returns_bind; [apply st_returns_any|]. intros [[[vi rt] nk] probed] _. by apply st_returns_ret.
    + eapply st_returns_bind; [apply st_returns_any|]. intros out _. by apply st_returns_ret.
  - intros [[vi probed] ln'] Hs. apply Hgo. exact Hs.
Qed.

Lemma probes_same name ln probes :
  st_returns (finish_cold_vector_probes max_keys max_probe_clusters cache_enabled name ln probes) (same_documents ln).
Proof.
  unfold finish_cold_vector_probes. destruct probes as [|p probes]; [by apply st_returns_ret|].
  eapply (st_returns_bind _ _ (same_documents ln)).
  { destruct (_ && _); [|by apply st_returns_ret]. eapply st_returns_bind; [apply st_returns_any|].
    intros [[l0 rt] nk] _. by apply st_returns_ret. }
  intros ln1 H1. eapply (st_returns_bind _ _ (same_documents ln)).
  { destruct (bool_decide _); [by apply st_returns_ret|]. intros w w' out Hout. apply probe_fields_same in Hout.
    unfold same_documents in *. naive_solver congruence. }
  intros ln2 H2. destruct (cold_batch cache_enabled); [|by apply st_returns_ret].
  eapply st_returns_bind; [apply st_returns_any|]. intros [[fts rt] nk] _. by apply st_returns_ret.
Qed.

Context (fts_opts : FtsTokenizeOptions) (ann_rerank rerank_env : bool) (elapsed_us : Z).
Context (ns : string) (m : NamespaceMeta) (log : list WalEntry) (docs : Docs).
Context (Hmax : 0 < max_keys) (Hlen : lenZ log < u64_max) (Hdocs : replay ∅ log = Ok docs).
Context (Hcache : forall w k, cache_inv w -> cache_inv (bucket_head w k).1).
Context (Hcache' : forall w p t n, cache_inv w -> cache_inv (bucket_list w p t n).1).

Lemma strong_query_rows sg sg' req resp expr row :
  load_state ns m log (sg_world sg) -> index_ok (objects (sg_world sg)) ns m log -> views_ok sg ns log ->
  parse_consistency (rq_consistency req) = Ok Strong ->
  parse_optional (fun v => map_err QFilter (parse_filter v)) (rq_filters req) = Ok expr ->
  match expr with Some e => filter_supported m log e | None => True end ->
  query_namespace policy max_keys max_probe_clusters ann_build cache_enabled fts_opts ann_rerank rerank_env elapsed_us ns req sg = (sg', Ok resp) ->
  misled (sg_world sg') = false -> row ∈ resp_rows resp ->
  exists doc, docs !! row_id row = Some doc /\ match expr with Some e => eval_filter e doc = true | None => True end.
Proof.
  intros Hw Hix Hv Hc Hf Hsup Hq Hmis Hrow. unfold query_namespace, ap_bind in Hq. unfold ap_result at 1 in Hq.
  destruct (namespace_name_error_response ns) as [[]|e]; [|done]. unfold ap_call at 1 in Hq.
  assert (strong_post ns m log sg (fun _ => True) (sg_io (require_namespace ns) sg)) as Hreq.
  { apply strong_post_io; [done|]. unfold require_namespace. apply st_post_bind.
    eapply st_post_mono; [by apply (exists_load ns m log Hcache Hcache')|].
    intros w' [found|e] (H1 & H2 & H3); [|by intros _; split_and!]. intros _. by destruct found. }
  destruct (sg_io (require_namespace ns) sg) as [sg1 [[]|e]]; [|done]. rewrite Hc in Hq. cbn in Hq. unfold ap_call at 1 in Hq.
  pose proof (sg_keeps_load policy max_keys max_probe_clusters ann_build cache_enabled ns Strong sg1) as Hk1.
  assert (forall Hw1 Hv1, strong_post ns m log sg1 (loaded_exact (objects (sg_world sg1)) ns m log)
    (load_namespace_for_query policy max_keys max_probe_clusters ann_build cache_enabled ns Strong sg1)) as Hload
    by exact (strong_load_post policy max_keys max_probe_clusters ann_build cache_enabled ns m log Hmax Hlen sg1).
  destruct (load_namespace_for_query _ _ _ _ _ ns Strong sg1) as [sg2 [ln|e]]; [|done].
  assert (exists sg3 ln', same_documents ln ln' /\ (misled (sg_world sg2) = true -> misled (sg_world sg3) = true) /\
    ap_result (or_reject ApiQuery (execute_query fts_opts rerank_env elapsed_us (query_context ann_rerank Strong ln') req)) sg3 = (sg', Ok resp))
    as (sg3 & ln' & Hsame & Hk2 & Hx).
  { destruct (vector_probe_specs (rq_rank_by req)) as [probes|e]; cbn in Hq; [|by exists sg2, ln]. unfold ap_call, sg_io in Hq.
    pose proof (probes_same ns ln probes (world (sg_buffer sg2))) as Hp.
    pose proof (keeps_finish_probes max_keys max_probe_clusters cache_enabled ns ln probes (world (sg_buffer sg2))) as Hk.
    destruct (finish_cold_vector_probes _ _ _ _ _ _ _) as [w3 [ln'|e]]; [|done].
    exists (put_world w3 sg2), ln'. split; [by eapply Hp|]. split; [exact Hk|exact Hq]. }
  assert (sg3 = sg') as -> by (unfold ap_result in Hx; congruence).
  assert (misled (sg_world sg2) = false) as Hm2 by (destruct (misled (sg_world sg2)); [by rewrite Hk2 in Hmis|done]).
  assert (misled (sg_world sg1) = false) as Hm1.
  { destruct (misled (sg_world sg1)) eqn:E; [|done]. cbn in Hk1. unfold sg_world in *. by rewrite Hk1 in Hm2. }
  destruct (Hreq Hm1) as (Hw1 & Ho1 & Hv1 & _). destruct (Hload Hw1 Hv1 Hm2) as (_ & _ & _ & Hln).
  cbn in Ho1, Hln. rewrite Ho1 in Hln. destruct Hw as (_ & Hst & _).
  unfold ap_result, or_reject in Hx. destruct (execute_query _ _ _ _ _) as [resp'|e] eqn:Hexec; [|done]. injection Hx as ->.
  destruct Hsame as (S1 & S2 & S3 & S4). destruct Hln as (Hd & Hm & Hfil & Htail).
  assert (ln_docs ln' = docs) as Hd' by congruence. rewrite <- Hd'.
  eapply (strong_rows fts_opts rerank_env elapsed_us (query_context ann_rerank Strong ln') req resp expr row); try done.
  destruct expr as [e|]; [|done].
  assert (loaded_exact (objects (sg_world sg)) ns m log ln') as Hln'.
  { unfold loaded_exact. rewrite S1, S2, S3, S4. by split_and!. }
  exact (loaded_filter_current (objects (sg_world sg)) ns m log ln' e Hst Hix Hln' Hsup).
Qed.
End Queries.

(** ** Theorems *)

(** C33: the column form of a batch means its rows.  A column batch is accepted
    exactly when it is an object whose [id] column holds valid ids and whose
    other columns are arrays of the same length; it then appends one row per id,
    in order, whose attributes are exactly the values of the columns at that
    position. *)
Theorem columns_exact rows obj out :
  NoDup obj.*1 ->
  apply_column_batch rows (VObject obj) = Ok out <->
  exists ids new, columns_ok (VObject obj) ids /\ out = rows ++ new /\ doc_id <$> new = ids /\
    forall i doc key, new !! i = Some doc ->
      doc_attributes doc !! key = if String.eqb key "id" then None else cell (VObject obj) key i.
Proof.
  intros Hnd. rewrite apply_columns_spec. cbn [as_object default]. split.
  - intros (ids & Hok & ->). exists ids, (imap (fun i id => mkDocument id (row_attributes obj i)) ids). split_and!; try done.
    + apply (imap_ids (fun i _ => row_attributes obj i)).
    + intros i doc key Hi. rewrite list_lookup_imap in Hi. apply fmap_Some in Hi as (id & _ & ->). by apply row_attributes_lookup.
  - intros (ids & new & Hok & -> & Hids & Hnew). exists ids. split; [done|]. f_equal. apply list_eq. intros i.
    rewrite list_lookup_imap, <- Hids, list_lookup_fmap. destruct (new !! i) as [doc|] eqn:E; [|done]. cbn -[row_attributes]. f_equal.
    destruct doc as [id attrs]. cbn [doc_id]. f_equal. apply map_eq. intros key. rewrite (row_attributes_lookup obj i key Hnd).
    exact (Hnew i _ key E).
Qed.

(** C12: an accepted write is valid, and a rejected one queues nothing.
    [write_namespace] queues a write only when the namespace name and the ids of
    all upserts, patches (also those given as columns) and deletes are valid,
    together they are within the row limit, and the conditions parse; what is
    queued is one write for that namespace, whose upserts are for ids of the
    request's upserts, in their order, and likewise its patches and deletes
    unless the request has a filter for them.  In every other case, copies
    included, nothing is queued. *)
Theorem accepted_write_valid {IO : IterOrder} {WC : WalCodec} {MC : MetaCodec} {S : ObjectStore} {BO : BucketOps}
    {CO : CompletionOrder} {LC : LocalCache} {CR : CachedReads} {SC : SegmentCodec} {FT : F64Text} {VL : VectorLib}
    {CN : Canonicalizers} {ET : ErrorText} policy max_keys max_probe_clusters ann_build cache_enabled limits fuel invalidate_disk
    name body sg :
  let '(sg', r) := write_namespace policy max_keys max_probe_clusters ann_build cache_enabled limits fuel invalidate_disk name body sg in
  match r with
  | Ok (Queued tx) =>
      validate_namespace_name name = Ok tt /\ Forall valid_id (request_ids body) /\
      lenZ (request_ids body) <= max_upsert_rows limits /\
      (forall c v, c ∈ [Models.upsert_condition body; Models.patch_condition body; Models.delete_condition body] ->
         not_null c = Some v -> exists e, parse_filter v = Ok e) /\
      exists args, queued_writes sg' = <[tx := args]> (queued_writes sg) /\ wa_namespace args = name /\
        (doc_id <$> wa_upserts args) `sublist_of` upsert_ids body /\
        (not_null (Models.patch_by_filter body) = None -> (doc_id <$> wa_patches args) `sublist_of` patch_ids body) /\
        (not_null (Models.delete_by_filter body) = None -> wa_deletes args `sublist_of` req_deletes body)
  | Ok (Cloned _) => validate_namespace_name name = Ok tt /\ queued_writes sg' = queued_writes sg
  | Err _ => queued_writes sg' = queued_writes sg
  end.
Proof.
  exact (write_namespace_post policy max_keys max_probe_clusters ann_build cache_enabled limits fuel invalidate_disk name body sg).
Qed.

(** A row of a committed document that satisfies the filter. *)
Definition committed_row (docs : Docs) (expr : option FilterExpr) (row : QueryRow) : Prop :=
  exists doc, docs !! row_id row = Some doc /\ match expr with Some e => eval_filter e doc = true | None => True end.

(** C8: a strong query is answered from the committed documents.  The namespace
    exists, its snapshot object is the one the metadata names, the segment cache
    is in step with the store ([load_state]), its index objects are those the indexer maintains ([index_ok]) and
    the cached view, if there is one, agrees with the log ([views_ok]).  Then a
    successful strong query over HTTP, unless [meta.json] was misread as absent
    on the way, returns only rows whose documents are in the replay of the
    committed log and satisfy the filter of the request, when that filter is
    one the index represents exactly ([filter_supported]). *)
Theorem strong_query_committed {IO : IterOrder} {WC : WalCodec} {MC : MetaCodec} {S : ObjectStore} {SL : StoreLaws}
    {MO : Monitor} {BO : BucketOps} {BL : BucketLaws} {BM : BucketMonitor} {CO : CompletionOrder} {LC : LocalCache} {LL : LocalCacheLaws}
    {CR : CachedReads} {CL : CachedReadsLaws} {RM : ReadsMonitor} {SC : SegmentCodec} {TL : TextLib} {FT : F64Text} {FL : F64TextLaws}
    {VL : VectorLib} {ET : ErrorText} policy max_keys max_probe_clusters ann_build cache_enabled fts_opts ann_rerank rerank_env
    elapsed_us ns m log docs sg sg' req resp expr row :
  0 < max_keys -> lenZ log < u64_max -> replay ∅ log = Ok docs ->
  (forall w k, cache_inv w -> cache_inv (bucket_head w k).1) ->
  (forall w p t n, cache_inv w -> cache_inv (bucket_list w p t n).1) ->
  load_state ns m log (sg_world sg) -> index_ok (objects (sg_world sg)) ns m log -> views_ok sg ns log ->
  parse_consistency (rq_consistency req) = Ok Strong ->
  parse_optional (fun v => map_err QFilter (parse_filter v)) (rq_filters req) = Ok expr ->
  match expr with Some e => filter_supported m log e | None => True end ->
  query_namespace policy max_keys max_probe_clusters ann_build cache_enabled fts_opts ann_rerank rerank_env elapsed_us ns req sg = (sg', Ok resp) ->
  misled (sg_world sg') = false -> row ∈ resp_rows resp ->
  committed_row docs expr row.
Proof. intros. by eapply (strong_query_rows policy max_keys max_probe_clusters ann_build cache_enabled fts_opts ann_rerank rerank_env elapsed_us ns m log docs). Qed.

Lemma columns_exact_witness :
  apply_column_batch [] (VObject [("id", VArray [VString "a"; VString "b"]); ("x", VArray [VBool true; VBool false])])
    = Ok [mkDocument "a" {[ "x" := VBool true ]}; mkDocument "b" {[ "x" := VBool false ]}] /\
  exists ids new, columns_ok (VObject [("id", VArray [VString "a"; VString "b"]); ("x", VArray [VBool true; VBool false])]) ids /\
    [mkDocument "a" {[ "x" := VBool true ]}; mkDocument "b" {[ "x" := VBool false ]}] = [] ++ new /\ doc_id <$> new = ids.
Proof.
  assert (H : apply_column_batch [] (VObject [("id", VArray [VString "a"; VString "b"]); ("x", VArray [VBool true; VBool false])])
    = Ok [mkDocument "a" {[ "x" := VBool true ]}; mkDocument "b" {[ "x" := VBool false ]}]) by (vm_compute; reflexivity).
  split; [exact H|]. apply columns_exact in H as (ids & new & H1 & H2 & H3 & _); [by exists ids, new|].
  cbn. constructor; [|constructor; [|constructor]]; set_solver.
Defined.

(** The messages the classification looks at. *)
Definition plain_errors : ErrorText := {|
  storage_text := fun e => match e with NamespaceNotFound => "namespace not found" | SourceNotFound => "source namespace not found"
    | CopyToItself => "cannot copy namespace to itself" | DestinationNotEmpty => "destination namespace must be empty"
    | SgLimit _ => "filter matched too many rows" | _ => "storage" end;
  storage_chain := fun _ => "storage";
  buffer_text := fun _ => "buffer";
  buffer_chain := fun _ => "buffer"
|}.

(** Order by id, with the tier filter. *)
Definition tier_query : QueryRequest :=
  mkRequest (VArray [VString "BM25"; VString "tier"; VString "free"]) (Some 5) (Some tier_value) None None None None None.

Definition tier_answer : @Storage calm_store * result (StatusCode * ApiError) QueryResponse :=
  @query_namespace canonical_order demo_codec run_metas calm_store calm_bucket in_order (no_cache calm_store) (direct_reads calm_store)
    run_segments ascii_text sample_text rfc4648 plain_errors PolicyFail 128 64 (mkBuild 4 2 ANN_VERSION_V2) false plain_opts false false 0
    "ns" tier_query indexed_storage.

Lemma strong_query_committed_witness :
  match tier_answer.2 with
  | Ok resp => row_id <$> resp_rows resp = ["a"] /\
      forall row, row ∈ resp_rows resp -> exists doc,
        ({[ "a" := run_doc ]} : Docs) !! row_id row = Some doc /\ eval_filter tier_filter doc = true
  | Err _ => False
  end.
Proof.
  destruct tier_answer as [sg' r] eqn:E. cbn [snd]. destruct r as [resp|e].
  - split.
    + apply (f_equal snd) in E. cbn in E. revert E. clear. vm_compute. by intros [= <-].
    + intros row Hrow.
      apply (@strong_query_committed canonical_order demo_codec run_metas calm_store calm_store_laws calm_store_monitor calm_bucket
        calm_bucket_laws calm_bucket_monitor in_order (no_cache calm_store) (no_cache_laws _) (direct_reads calm_store) (direct_reads_laws _ _)
        calm_reads_monitor run_segments ascii_text sample_text sample_text_laws rfc4648 plain_errors PolicyFail 128 64 (mkBuild 4 2 ANN_VERSION_V2)
        false plain_opts false false 0 "ns" run_meta [put_entry "a"] {[ "a" := run_doc ]} indexed_storage sg' tier_query resp
        (Some tier_filter) row).
      * reflexivity.
      * reflexivity.
      * vm_compute. reflexivity.
      * intros; exact I.
      * intros; exact I.
      * exact indexed_load_state.
      * exact indexed_world_ok.
      * intros v Hv. exfalso. revert Hv. vm_compute. discriminate.
      * reflexivity.
      * vm_compute. reflexivity.
      * exact tier_supported.
      * exact E.
      * reflexivity.
      * exact Hrow.
  - exfalso. apply (f_equal snd) in E. cbn in E. revert E. clear. vm_compute. discriminate.
Defined.

(** A write of two columns is queued, and one with a bad id is refused. *)
Example column_write_queued :
  let body cols := mkWriteRequest [] (Some cols) [] None [] None None false None false None None None None None None false false in
  let write cols := @write_namespace canonical_order demo_codec run_metas calm_store calm_bucket in_order (no_cache calm_store)
    (direct_reads calm_store) run_segments sample_text rfc4648 {| datetime_canonical := Some; uuid_canonical := Some |} plain_errors
    PolicyFail 128 64 (mkBuild 4 2 ANN_VERSION_V2) false (mkLimits 100 100) 4 (fun _ w => w) "ns" (body cols) indexed_storage in
  (write (VObject [("id", VArray [VString "c"; VString "d"]); ("x", VArray [VBool true; VBool false])])).2 = Ok (Queued 1) /\
  (write (VObject [("id", VArray [VString "c/d"])])).2 = Err (BAD_REQUEST, ApiDocId IdBadChar).
Proof. split; vm_compute; reflexivity. Qed.
