(* ===== verification/Recall.v ===== *)
(** * Recall evaluation ([recall.rs], [brute_force_top_k] of [index/vector.rs])

    Query vectors are sampled from the corpus by a linear congruential
    generator; the loop draws until it has enough distinct ones, and ends
    because the generator runs through all its states. *)

From Stdlib Require Import ZArith Lia Bool.
From stdpp Require Import base gmap strings list.
From S2P Require Import Prelude F64 Json Models Filter Keys Schema Meta Wal WalReplay ObjectStore Namespace Durability Compaction FilterIndex View ViewCache Export Buffer VectorEncoding Fts Vector Search VectorBuild Cache Indexer ColdFetch ColdSpec ProbeSpec Storage Api.

(** ** Sampling *)

Definition LCG_MUL : Z := 6364136223846793005.
Definition LCG_ADD : Z := 1442695040888963407.

(** [state.wrapping_mul(..).wrapping_add(..)]. *)
Definition lcg_next (state : Z) : Z := wrap64 (wrap64 (state * LCG_MUL) + LCG_ADD).

(** The [while] loop; [None] when the fuel ran out. *)
Fixpoint sample_loop (fuel : nat) (corpus_len want state : Z) (picked : gset Z) (out : list Z) : option (list Z) :=
  if want <=? lenZ out then Some out
  else
    match fuel with
    | O => None
    | Datatypes.S fuel =>
        let state := lcg_next state in
        let idx := state mod corpus_len in
        if bool_decide (idx ∈ picked) then sample_loop fuel corpus_len want state picked out
        else sample_loop fuel corpus_len want state ({[idx]} ∪ picked) (out ++ [idx])
    end.

Definition sample_corpus_indices (fuel : nat) (corpus_len num seed : Z) : option (list Z) :=
  if (corpus_len =? 0) || (num =? 0) then Some []
  else sample_loop fuel corpus_len (Z.min num corpus_len) seed ∅ [].

(** FNV-1a over the bytes of the name. *)
Definition recall_seed (namespace : string) : Z :=
  fold_left (fun h b => wrap64 (Z.lxor h (ascii_code b) * 1099511628211))
    (String.list_ascii_of_string namespace) 14695981039346656037.

(** ** Evaluation *)

Record RecallMetrics : Type := mkRecall {
  avg_recall : f64;
  avg_ann_count : f64;
  avg_exhaustive_count : f64
}.

Inductive RecallError : Type :=
| NoVectorIndex (field : string)
| NoVectorDocuments (field : string)
| NoVectorField
| RecallFilter (e : FilterError)
| RecallQuery (e : QueryError).

Definition brute_force_top_k (docs : list (string * list f64)) (query : list f64) (metric : DistanceMetric) (top_k : Z)
  : list string :=
  let scored := (fun p => (p.1, score_vector query p.2 metric)) <$> docs in
  (take (Z.to_nat top_k) (sort_by (ranked_cmp str_cmp) scored)).*1.

Section Recall.
Context {IO : IterOrder} {TL : TextLib} {FT : F64Text} {VL : VectorLib}.

Definition in_allowed (allowed : option (gset string)) (id : string) : bool :=
  match allowed with Some a => bool_decide (id ∈ a) | None => true end.

(** The approximate answers of one query. *)
Definition ann_results (index : VectorIndex) (query : list f64) (top_k : Z) (use_rerank : bool)
    (view_vector : string -> option (list f64)) (allowed : option (gset string)) : list string :=
  if use_rerank then
    (List.filter (fun r => in_allowed allowed r.1) (rerank_top_k index query top_k view_vector)).*1
  else
    let oversample := Z.max (sat_mul64 top_k 8) top_k in
    take (Z.to_nat top_k) (List.filter (fun r => in_allowed allowed r.1) (query_ann index query oversample)).*1.

(** The three sums, over the sampled queries. *)
Fixpoint recall_sums (index : VectorIndex) (corpus : list (string * list f64)) (top_k : Z) (use_rerank : bool)
    (view_vector : string -> option (list f64)) (allowed : option (gset string)) (samples : list Z) (sums : f64 * f64 * f64)
  : f64 * f64 * f64 :=
  match samples with
  | [] => sums
  | idx :: rest =>
      let query := from_option snd [] (corpus !! Z.to_nat idx) in
      let brute := brute_force_top_k corpus query (l0_distance_metric (vi_l0 index)) top_k in
      let ann := ann_results index query top_k use_rerank view_vector allowed in
      let hits := lenZ (List.filter (fun id => bool_decide (id ∈ ann)) brute) in
      let denom := Z.max (Z.min (lenZ brute) top_k) 1 in
      let '(recall_sum, ann_sum, exhaustive_sum) := sums in
      recall_sums index corpus top_k use_rerank view_vector allowed rest
        (f64_add recall_sum (f64_div (f64_of_Z hits) (f64_of_Z denom)),
         f64_add ann_sum (f64_of_Z (lenZ ann)), f64_add exhaustive_sum (f64_of_Z (lenZ brute)))
  end.

Definition measure_recall (fuel : nat) (index : VectorIndex) (corpus : list (string * list f64)) (num top_k : Z)
    (use_rerank : bool) (view_vector : string -> option (list f64)) (seed : Z) (allowed : option (gset string))
  : option RecallMetrics :=
  if bool_decide (corpus = []) || (num =? 0) || (top_k =? 0) then Some (mkRecall f64_zero f64_zero f64_zero)
  else
    samples ← sample_corpus_indices fuel (lenZ corpus) num seed;
    let n := f64_of_Z (lenZ samples) in
    let '(recall_sum, ann_sum, exhaustive_sum) :=
      recall_sums index corpus top_k use_rerank view_vector allowed samples (f64_zero, f64_zero, f64_zero) in
    Some (mkRecall (f64_div recall_sum n) (f64_div ann_sum n) (f64_div exhaustive_sum n)).

(** The benchmark's variant: evenly spaced queries, no filter. *)
Definition measure_recall_at_k (index : VectorIndex) (vectors : list (string * list f64)) (queries top_k : Z)
    (use_rerank : bool) (view_vector : string -> option (list f64)) : f64 :=
  if (queries =? 0) || bool_decide (vectors = []) then f64_zero
  else
    let recall_sum := fold_left (fun recall_sum q =>
      let query := from_option snd [] (vectors !! Z.to_nat (q * (lenZ vectors / queries))) in
      let brute := brute_force_top_k vectors query (l0_distance_metric (vi_l0 index)) top_k in
      let ann := if use_rerank then (rerank_top_k index query top_k view_vector).*1 else (query_ann index query top_k).*1 in
      let hits := lenZ (List.filter (fun id => bool_decide (id ∈ ann)) brute) in
      let denom := Z.max (Z.min (lenZ brute) top_k) 1 in
      f64_add recall_sum (f64_div (f64_of_Z hits) (f64_of_Z denom))) (range0 queries) f64_zero in
    f64_div recall_sum (f64_of_Z queries).

(** Its queries are vectors of the corpus. *)
Lemma benchmark_query_in_corpus (vectors : list (string * list f64)) queries q :
  vectors <> [] -> 0 <= q < queries -> is_Some (vectors !! Z.to_nat (q * (lenZ vectors / queries))).
Proof.
  intros Hne Hq. apply lookup_lt_is_Some. assert (0 < lenZ vectors) as Hn by (destruct vectors; [done|unfold lenZ; cbn; lia]).
  pose proof (Z.mul_div_le (lenZ vectors) queries ltac:(lia)). pose proof (Z.div_pos (lenZ vectors) queries ltac:(lia) ltac:(lia)).
  unfold lenZ in *. set (d := Z.of_nat (length vectors) / queries) in *. nia.
Qed.

Definition build_corpus (docs : Docs) (field : string) (allowed : option (gset string)) : list (string * list f64) :=
  sort_by (fun a b => str_cmp a.1 b.1)
    (omap (fun p =>
       if negb (in_allowed allowed p.1) then None
       else (fun v => (p.1, v)) <$> extract_vector (doc_attributes p.2) field) (iter_map docs)).

Definition view_vector_of (docs : Docs) (field : string) (id : string) : option (list f64) :=
  d ← docs !! id; extract_vector (doc_attributes d) field.

Definition recall_context (loaded : LoadedNamespace) (use_rerank : bool) : QueryContext :=
  mkContext (ln_docs loaded) (ln_meta loaded) (ln_fts loaded) (ln_vectors loaded) (ln_filter_index loaded)
    (ln_tail_doc_ids loaded) Strong (ln_storage_roundtrips loaded) None None (Some use_rerank).

(** [Ok None] when the sampling ran out of fuel. *)
Definition measure_recall_for_loaded (fuel : nat) (loaded : LoadedNamespace) (field : string) (num top_k : Z)
    (use_rerank : bool) (filters : option Value) (namespace : string) : result RecallError (option RecallMetrics) :=
  let? index := ok_or (ln_vectors loaded !! field) (NoVectorIndex field) in
  let? allowed :=
    match not_null filters with
    | None => Ok None
    | Some f =>
        let? expr := map_err RecallFilter (parse_filter f) in
        let? ids := map_err RecallQuery (matching_doc_ids_for_filter (recall_context loaded use_rerank) expr) in
        Ok (Some ids)
    end in
  let corpus := build_corpus (ln_docs loaded) field allowed in
  if bool_decide (corpus = []) then Err (NoVectorDocuments field)
  else Ok (measure_recall fuel index corpus num top_k use_rerank (view_vector_of (ln_docs loaded) field)
             (recall_seed namespace) allowed).

Definition or_else {A} (a b : option A) : option A := match a with Some x => Some x | None => b end.

Definition recall_vector_field (loaded : LoadedNamespace) : result RecallError string :=
  let sample := head (iter_map (ln_docs loaded)).*2 in
  ok_or (or_else (primary_vector_field (schema (ln_meta loaded)) sample)
        (or_else (head (iter_keys (ln_vectors loaded)))
        (or_else (head (iter_keys (ln_cold_vector_l0 loaded)))
                 (head (vf_name <$> effective_vector_fields (ln_meta loaded)))))) NoVectorField.
End Recall.

(** ** The handler *)

Record RecallRequest : Type := mkRecallRequest {
  rr_num : Z;
  rr_top_k : Z;
  rr_filters : option Value
}.

(** A body, with the fields it has; absent ones take the [serde] defaults. *)
Record RecallBody : Type := mkRecallBody {
  rb_num : option Z;
  rb_top_k : option Z;
  rb_filters : option Value
}.

Definition default_recall_num : Z := 25.
Definition default_recall_top_k : Z := 10.

Definition recall_request_of (b : RecallBody) : RecallRequest :=
  mkRecallRequest (default default_recall_num (rb_num b)) (default default_recall_top_k (rb_top_k b)) (rb_filters b).

(** The derived [Default], which is not that of [serde]. *)
Definition recall_request_default : RecallRequest := mkRecallRequest 0 0 None.

(** [to_string()] and [{:#}] of the errors of an evaluation; the filter and
    query errors are worded by the caller. *)
Definition recall_text (other : RecallError -> string) (e : RecallError) : string :=
  match e with
  | NoVectorIndex field => String.append "no vector index for field " field
  | NoVectorDocuments field => String.append "no documents with vector field " field
  | NoVectorField => "namespace has no vector field"
  | RecallFilter _ | RecallQuery _ => other e
  end.

Section RecallHandler.
Context {IO : IterOrder} {WC : WalCodec} {MC : MetaCodec} {S : ObjectStore} {BO : BucketOps} {LS : ListStore}.
Context {CO : CompletionOrder} {LC : LocalCache} {CR : CachedReads} {SC : SegmentCodec}.
Context {TL : TextLib} {FT : F64Text} {VL : VectorLib} {ET : ErrorText} (other_text other_chain : RecallError -> string).
Context (policy : WalCorruptPolicy) (max_keys max_probe_clusters : Z) (ann_build : AnnBuildConfig).
Context (cache_enabled ann_rerank : bool).

Definition recall_error_response (e : RecallError) : StatusCode * ApiError :=
  let msg := recall_text other_text e in
  if str_contains "no vector index" msg || str_contains "no documents" msg then api_error BAD_REQUEST (ApiMessage msg)
  else api_error (storage_status (recall_text other_chain e)) (ApiMessage msg).

(** [fuel] bounds the draws of the sampling; [None] when it runs out. *)
Definition recall_namespace_handler (fuel : nat) (name : string) (body : option RecallBody) : ApM (option RecallMetrics) :=
  ap! _ <- ap_result (namespace_name_error_response name);
  let req := match body with Some b => recall_request_of b | None => recall_request_default end in
  if rr_num req =? 0 then ap_result (reject (ApiMessage "num must be at least 1"))
  else if rr_top_k req =? 0 then ap_result (reject (ApiMessage "top_k must be at least 1"))
  else
    ap! _ <- ap_call namespace_or_storage_error (sg_io (require_namespace name));
    ap! loaded <- ap_call namespace_or_storage_error
      (load_namespace_for_query policy max_keys max_probe_clusters ann_build cache_enabled name Strong);
    ap! loaded <- ap_call storage_error_response (sg_io (load_vector_indexes_full max_probe_clusters ann_build name loaded));
    ap! field <- ap_result (or_reject (fun e => ApiMessage (recall_text other_text e)) (recall_vector_field loaded));
    ap_result (match measure_recall_for_loaded fuel loaded field (rr_num req) (rr_top_k req) ann_rerank (rr_filters req) name with
               | Ok metrics => Ok metrics
               | Err e => Err (recall_error_response e)
               end).
End RecallHandler.

(** ** The generator runs through every state *)

Definition affine (x : Z) : Z := x * LCG_MUL + LCG_ADD.

(** [affine] iterated [2 ^ k] times is again an affine map. *)
Fixpoint lcg_power (k : nat) : Z * Z :=
  match k with
  | O => (LCG_MUL, LCG_ADD)
  | Datatypes.S k => let '(a, c) := lcg_power k in (a * a, (a + 1) * c)
  end.

Lemma iter_affine k x :
  Nat.iter (2 ^ k) affine x = (lcg_power k).1 * x + (lcg_power k).2.
Proof.
  revert x. induction k as [|k IH]; intros x; cbn [lcg_power].
  - cbn. unfold affine. lia.
  - replace (2 ^ Datatypes.S k)%nat with (2 ^ k + 2 ^ k)%nat by (cbn; lia). rewrite Nat.iter_add, !IH.
    destruct (lcg_power k) as [a c]. cbn. lia.
Qed.

(** The factor is 1 modulo [4 * 2 ^ k], the summand an odd multiple of [2 ^ k]. *)
Lemma lcg_power_shape k :
  exists s t, (lcg_power k).1 = 1 + 4 * 2 ^ Z.of_nat k * s /\ (lcg_power k).2 = 2 ^ Z.of_nat k * (1 + 2 * t).
Proof.
  induction k as [|k (s & t & Ha & Hc)].
  - exists 1591034055961698251, 721347520444481703. split; reflexivity.
  - cbn [lcg_power]. destruct (lcg_power k) as [a c]. cbn in Ha, Hc |- *. rewrite Nat2Z.inj_succ, Z.pow_succ_r by lia.
    set (p := 2 ^ Z.of_nat k) in *. exists (s + 2 * p * s * s), (t + p * s * (1 + 2 * t)).
    rewrite Ha, Hc. split; ring.
Qed.

(** From any state, any other is reached modulo [2 ^ k] in fewer than [2 ^ k] steps. *)
Lemma affine_reaches k x y :
  exists n q, (n < 2 ^ k)%nat /\ Nat.iter n affine x = y + q * 2 ^ Z.of_nat k.
Proof.
  induction k as [|k (n & q & Hn & Hi)].
  - exists 0%nat, (x - y). split; [cbn; lia|]. cbn. lia.
  - rewrite Nat2Z.inj_succ, Z.pow_succ_r by lia. set (p := 2 ^ Z.of_nat k) in *.
    destruct (Z.Even_or_Odd q) as [[q' ->]|[q' ->]].
    + exists n, q'. split; [cbn; lia|]. rewrite Hi. ring.
    + destruct (lcg_power_shape k) as (s & t & Ha & Hc). fold p in Ha, Hc.
      exists (2 ^ k + n)%nat, (q' + 1 + t + 2 * s * (y + (2 * q' + 1) * p)). split; [cbn; lia|].
      rewrite Nat.iter_add, Hi, iter_affine, Ha, Hc. ring.
Qed.

Lemma lcg_next_affine x : lcg_next x = affine x mod 2 ^ 64.
Proof. unfold lcg_next, wrap64, affine. by rewrite Zplus_mod_idemp_l. Qed.

Lemma lcg_iter_affine n x : Nat.iter (Datatypes.S n) lcg_next x = Nat.iter (Datatypes.S n) affine x mod 2 ^ 64.
Proof.
  induction n as [|n IH]; [apply lcg_next_affine|].
  change (Nat.iter (Datatypes.S (Datatypes.S n)) lcg_next x) with (lcg_next (Nat.iter (Datatypes.S n) lcg_next x)).
  change (Nat.iter (Datatypes.S (Datatypes.S n)) affine x) with (affine (Nat.iter (Datatypes.S n) affine x)).
  rewrite IH, lcg_next_affine. unfold affine at 1 3. by rewrite Zplus_mod, Zmult_mod_idemp_l, <- Zplus_mod.
Qed.

Lemma lcg_reaches x y : 0 <= y < 2 ^ 64 -> exists n, Nat.iter (Datatypes.S n) lcg_next x = y.
Proof.
  intros Hy. destruct (affine_reaches 64 (affine x) y) as (n & q & _ & Hi). exists n.
  rewrite lcg_iter_affine, Nat.iter_succ_r, Hi. rewrite Z.mod_add by lia. by apply Z.mod_small.
Qed.

(** ** Sampling ends *)

Section Sampling.
Context (corpus_len want : Z) (Hlen : 0 < corpus_len <= 2 ^ 64) (Hwant : want <= corpus_len).

Definition sampled (out : list Z) : Prop :=
  NoDup out /\ Forall (fun i => 0 <= i < corpus_len) out /\ lenZ out <= want.

Lemma fresh_index out : sampled out -> lenZ out < want -> exists i, 0 <= i < corpus_len /\ i ∉ out.
Proof.
  intros (Hnd & Hr & _) Hlt. destruct (decide (Forall (fun i => i ∈ out) (seqZ 0 corpus_len))) as [Hall|Hn].
  - exfalso. assert (seqZ 0 corpus_len ⊆+ out) as Hsub.
    { apply NoDup_submseteq; [apply NoDup_seqZ|]. by apply Forall_forall. }
    apply submseteq_length in Hsub. rewrite length_seqZ in Hsub. unfold lenZ in *. lia.
  - apply not_Forall_Exists in Hn; [|apply _]. apply Exists_exists in Hn as (i & Hi & Hni). apply elem_of_seqZ in Hi.
    exists i. split; [lia|done].
Qed.

(** The loop returns, with this result for every larger amount of fuel. *)
Definition loop_ends (state : Z) (picked : gset Z) (out : list Z) : Prop :=
  exists fuel res, (forall more, sample_loop (fuel + more) corpus_len want state picked out = Some res) /\
    sampled res /\ lenZ res = want.

Lemma loop_draws n state picked out :
  lenZ out < want ->
  (forall state' i, 0 <= i < corpus_len -> i ∉ picked -> loop_ends state' ({[i]} ∪ picked) (out ++ [i])) ->
  Nat.iter (Datatypes.S n) lcg_next state mod corpus_len ∉ picked -> loop_ends state picked out.
Proof.
  intros Hlt Hnext. revert state. induction n as [|n IH]; intros state Hfresh;
    destruct (decide (lcg_next state mod corpus_len ∈ picked)) as [Hin|Hni].
  1: done.
  2: { rewrite Nat.iter_succ_r in Hfresh. destruct (IH (lcg_next state) Hfresh) as (fuel & res & Hr & Hs).
       exists (Datatypes.S fuel), res. split; [|done]. intros more. cbn [sample_loop Nat.add].
       rewrite (proj2 (Z.leb_gt _ _)) by lia. by rewrite bool_decide_eq_true_2. }
  all: destruct (Hnext (lcg_next state) (lcg_next state mod corpus_len)) as (fuel & res & Hr & Hs);
    [apply Z.mod_pos_bound; lia|done|]; exists (Datatypes.S fuel), res; (split; [|done]); intros more; cbn [sample_loop Nat.add];
    rewrite (proj2 (Z.leb_gt _ _)) by lia; by rewrite bool_decide_eq_false_2.
Qed.

Lemma sample_loop_ends state out :
  sampled out -> loop_ends state (list_to_set out) out.
Proof.
  remember (Z.to_nat (want - lenZ out)) as d eqn:Hd. revert state out Hd.
  induction d as [|d IH]; intros state out Hd Hs; destruct Hs as (Hnd & Hr & Hle).
  - exists 0%nat, out. split; [|split; [done|lia]]. intros more. destruct more; cbn [sample_loop Nat.add];
      by rewrite (proj2 (Z.leb_le _ _)) by lia.
  - assert (lenZ out < want) as Hlt by lia. destruct (fresh_index out) as (i & Hi & Hni); [done..|].
    destruct (lcg_reaches state i) as [n Hn]; [lia|].
    apply (loop_draws n); [done| |].
    + intros state' j Hj Hnj. rewrite not_elem_of_list_to_set in Hnj.
      assert ({[j]} ∪ list_to_set out =@{gset Z} list_to_set (out ++ [j])) as -> by (rewrite list_to_set_app_L; set_solver).
      assert (lenZ (out ++ [j]) = lenZ out + 1) as Hl by (unfold lenZ; rewrite length_app; cbn; lia).
      apply IH; [lia|]. split_and!; [|by apply Forall_app; split; [|by constructor]|lia].
      apply NoDup_app. split_and!; [done|set_solver|apply NoDup_singleton].
    + rewrite Hn, Z.mod_small by lia. by rewrite not_elem_of_list_to_set.
Qed.
End Sampling.

(** ** Theorem *)

(** C32: the sampling of a recall evaluation terminates.  Whatever the seed, the
    generator passes through all of its 2^64 states, so the loop that draws
    until it has enough distinct indices ends, for every corpus; it returns the
    smaller of the requested number and the size of the corpus, distinct and
    within the corpus. *)
Theorem sampling_terminates corpus_len num seed :
  0 <= corpus_len <= 2 ^ 64 -> 0 <= num ->
  exists fuel samples,
    (forall more, sample_corpus_indices (fuel + more) corpus_len num seed = Some samples) /\
    NoDup samples /\ lenZ samples = Z.min num corpus_len /\ Forall (fun i => 0 <= i < corpus_len) samples.
Proof.
  intros Hlen Hnum. unfold sample_corpus_indices. destruct (_ || _) eqn:E.
  - exists 0%nat, []. apply orb_true_iff in E. rewrite !Z.eqb_eq in E. split_and!; [done|constructor| |constructor].
    unfold lenZ. cbn. lia.
  - apply orb_false_iff in E as [E1%Z.eqb_neq E2%Z.eqb_neq].
    destruct (sample_loop_ends corpus_len (Z.min num corpus_len)) with (state := seed) (out := @nil Z)
      as (fuel & res & Hr & (H1 & H2 & _) & H3); [lia|lia| |by exists fuel, res].
    split_and!; [constructor|constructor|]. unfold lenZ. cbn. lia.
Qed.

Lemma sampling_terminates_witness :
  sample_corpus_indices 20 5 3 (recall_seed "ns") <> None /\
  exists fuel samples, (forall more, sample_corpus_indices (fuel + more) 5 3 (recall_seed "ns") = Some samples) /\
    lenZ samples = 3.
Proof.
  split; [vm_compute; discriminate|].
  destruct (sampling_terminates 5 3 (recall_seed "ns")) as (fuel & samples & H1 & _ & H2 & _); [lia|lia|].
  exists fuel, samples. split; [exact H1|]. rewrite H2. reflexivity.
Defined.

(** ** Finding *)

(** Two documents at the same place; only "a" passes the filter. *)
Definition twin_index : VectorIndex :=
  mkVectorIndex one_l0 {[ 0 := one_l1 ]}
    {[ 0 := mkCluster 1 0 [mkMember "0" [f64_of_Z 1] None; mkMember "a" [f64_of_Z 1] None] ]} None ∅.

Definition twin_recall (use_rerank : bool) : option RecallMetrics :=
  @measure_recall canonical_order rfc4648 20 twin_index [("a", [f64_of_Z 1])] 1 1 use_rerank (fun _ => Some [f64_of_Z 1])
    (recall_seed "ns") (Some {["a"]}).

(** recall under a filter is understated when answers are reranked.  The
    reranked answers are cut to [top_k] before the filter is applied, unlike the
    other branch, which oversamples: the same index has recall 1 without and
    recall 0 with reranking, although the allowed document is among the
    candidates. *)
Theorem filtered_rerank_recall_zero :
  avg_recall <$> twin_recall false = Some f64_one /\ avg_recall <$> twin_recall true = Some f64_zero /\
  @ann_candidate_doc_ids twin_index [f64_of_Z 1] = {[ "0"; "a" ]}.
Proof. split_and!; vm_compute; reflexivity. Qed.

(** a recall request without a body is refused with status 400, before
    anything is read, although every field of the body is optional with a
    positive default: the handler falls back on the derived [Default], in which
    the counts are zero, while an empty body asks for 25 queries. *)
Theorem recall_without_body_rejected {IO : IterOrder} {WC : WalCodec} {MC : MetaCodec} {S : ObjectStore} {BO : BucketOps}
    {CO : CompletionOrder} {LC : LocalCache} {CR : CachedReads} {SC : SegmentCodec} {TL : TextLib} {FT : F64Text}
    {VL : VectorLib} {ET : ErrorText} other_text other_chain policy max_keys max_probe build cache_enabled rerank fuel name sg :
  (exists e, recall_namespace_handler other_text other_chain policy max_keys max_probe build cache_enabled rerank fuel name None sg
    = (sg, Err (BAD_REQUEST, e))) /\
  rr_num (recall_request_of (mkRecallBody None None None)) = 25.
Proof.
  split; [|done]. unfold recall_namespace_handler, ap_bind, ap_result, namespace_name_error_response, or_reject.
  destruct (validate_namespace_name name) as [[]|e]; eexists; reflexivity.
Qed.
