(* ===== verification/Warm.v ===== *)
(** * Warming a namespace ([warm.rs])

    Reads the objects a query would read through the segment cache and pins
    the view. *)

From Stdlib Require Import ZArith Lia Bool.
From stdpp Require Import base gmap strings list.
From S2P Require Import Prelude F64 Json Models Filter Keys Schema Meta Wal WalReplay ObjectStore Namespace Monitor Durability Compaction FilterIndex View ViewCache Export Buffer VectorEncoding Fts Vector Search VectorBuild Cache Indexer IndexerMonitor IndexerSpec ColdFetch ColdSpec Storage StorageMonitor CloneSpec StorageSpec Api.

Definition WAL_WARM_MAX_SEGMENTS : Z := 128.

Record WarmStats : Type := mkWarmStats {
  warm_status : string;
  warm_namespace_name : string;
  warm_pinned : bool;
  warm_meta_loaded : bool;
  warm_fts_segments : Z;
  warm_filter_segments : Z;
  warm_cluster_segments : Z;
  warm_wal_segments : Z
}.

Definition index_keys_for_warm (namespace : string) (meta : NamespaceMeta) : list string :=
  (if (0 <? Meta.fts_segment_id meta) && (0 <? index_cursor meta) then [fts_segment_key namespace (Meta.fts_segment_id meta)] else []) ++
  (if (0 <? filter_segment_id meta) && (0 <? index_cursor meta) then [filter_segment_key namespace (filter_segment_id meta)] else []) ++
  concat ((fun cfg =>
    if (0 <? vf_segment_id cfg) && (0 <? index_cursor meta) && (0 <? vf_dimensions cfg) then
      [if vector_index_uses_legacy_paths meta (vf_name cfg) then l0_key namespace "" else l0_key namespace (vf_name cfg)]
    else []) <$> effective_vector_fields meta).

Definition wal_keys_for_warm (namespace : string) (meta : NamespaceMeta) : list string :=
  if wal_commit_seq meta =? 0 then []
  else
    let keys := if 0 <? wal_snapshot_seq meta then [wal_snapshot_key namespace] else [] in
    let replay_from :=
      if 0 <? wal_snapshot_seq meta then wal_replay_from (wal_snapshot_seq meta) (wal_commit_seq meta)
      else if 0 <? wal_commit_seq meta then Some 1
      else None in
    match replay_from with
    | None => keys
    | Some from =>
        let span := Z.min (wal_commit_seq meta - from + 1) WAL_WARM_MAX_SEGMENTS in
        let start := Z.max (Z.max (wal_commit_seq meta - (span - 1)) 0) from in
        keys ++ (wal_key namespace <$> range_incl start (wal_commit_seq meta))
    end.

Section Warm.
Context {IO : IterOrder} {WC : WalCodec} {MC : MetaCodec} {S : ObjectStore} {LC : LocalCache} {CR : CachedReads} {SC : SegmentCodec}.
Context (policy : WalCorruptPolicy).

(** Reads for their effect on the cache. *)
Fixpoint touch_keys (keys : list string) : St NsError unit :=
  match keys with
  | [] => st_ret tt
  | key :: rest => do? _ <- cache_get key; touch_keys rest
  end.

(** The clusters of one index that were found. *)
Fixpoint touch_clusters (namespace field : string) (use_legacy : bool) (ids : list Z) (count : Z) : St NsError Z :=
  match ids with
  | [] => st_ret count
  | fine_id :: rest =>
      do? b <- cache_get (cluster_key namespace field fine_id);
      do? found <-
        (match b with
         | Some _ => st_ret true
         | None =>
             if use_legacy then
               do? b <- cache_get (cluster_key namespace "" fine_id);
               st_ret (bool_decide (is_Some b))
             else st_ret false
         end);
      touch_clusters namespace field use_legacy rest (if found then count + 1 else count)
  end.

Definition warm_l0 (namespace : string) (meta : NamespaceMeta) (key : string) (count : Z) : St NsError Z :=
  do? b <- cache_get key;
  match b ≫= l0_decode with
  | None => st_ret count
  | Some l0 =>
      let field := if String.eqb (l0_vector_field l0) "" then vector_field meta else l0_vector_field l0 in
      let use_legacy := vector_index_uses_legacy_paths meta field in
      do? _ <- touch_keys (concat ((fun c =>
        l1_key namespace field c :: (if use_legacy then [l1_key namespace "" c] else [])) <$> range0 (l0_num_coarse l0)));
      touch_clusters namespace field use_legacy (range0 (l0_num_fine_total l0)) count
  end.

(** Full-text, filter and cluster objects found. *)
Fixpoint warm_index (namespace : string) (meta : NamespaceMeta) (keys : list string) (counts : Z * Z * Z) : St NsError (Z * Z * Z) :=
  match keys with
  | [] => st_ret counts
  | key :: rest =>
      let '(fts, fil, clusters) := counts in
      if str_ends_with "centroids-l0.bin" key then
        do? clusters <- warm_l0 namespace meta key clusters;
        warm_index namespace meta rest (fts, fil, clusters)
      else
        do? b <- cache_get key;
        warm_index namespace meta rest
          (match b with
           | Some _ =>
               if str_contains "/index/fts-" key then (fts + 1, fil, clusters)
               else if str_contains "/index/filter-" key then (fts, fil + 1, clusters)
               else counts
           | None => counts
           end)
  end.

(** The reads before the view is loaded; the number of reads and the duration
    are not recorded. *)
Definition warm_objects (namespace : string) : St StorageError (Z * Z * Z * Z) :=
  do? cur <- sg_map SgNs (fetch_meta namespace);
  match cur with
  | None => st_err NamespaceNotFound
  | Some (meta, _) =>
      do? _ <- sg_map SgNs (cache_get (meta_key namespace));
      do? counts <- sg_map SgNs (warm_index namespace meta (index_keys_for_warm namespace meta) (0, 0, 0));
      let wal_keys := wal_keys_for_warm namespace meta in
      do? _ <- sg_map SgNs (touch_keys wal_keys);
      st_ret (counts, lenZ wal_keys)
  end.

Definition warm_namespace (namespace : string) : SgM WarmStats :=
  do! out <- sg_io (warm_objects namespace);
  let '(fts, fil, clusters, wal) := out in
  do! v <- sg_io (sg_map SgNs (view_load policy namespace));
  do! v <- sg_io (catch_up_fresh policy namespace v);
  do! _ <- modify_views (fun c => vc_insert c namespace v);
  do! pinned <- sg_get (fun sg => bool_decide (is_Some (vc_views (sg_views sg) !! namespace)));
  sg_ret (mkWarmStats "ok" namespace pinned true fts fil clusters wal).

Definition warm_namespace_handler {ET : ErrorText} (name : string) : ApM WarmStats :=
  ap! _ <- ap_result (namespace_name_error_response name);
  ap_call namespace_or_storage_error (warm_namespace name).
End Warm.

(** ** Exactness *)

Section WarmSpec.
Context {IO : IterOrder} {WC : WalCodec} {MC : MetaCodec} {S : ObjectStore} {SL : StoreLaws} {MO : Monitor}.
Context {LC : LocalCache} {LL : LocalCacheLaws} {CR : CachedReads} {CL : CachedReadsLaws} {RM : ReadsMonitor} {SC : SegmentCodec}.
Context (policy : WalCorruptPolicy).

(** The keys read are the snapshot and at most the last segments after it, all
    of them stored. *)
Lemma wal_keys_live objs ns m log :
  lenZ log < u64_max -> ns_state objs ns m log ->
  Forall (fun k => is_Some (objs !! k)) (wal_keys_for_warm ns m) /\
  lenZ (wal_keys_for_warm ns m) <= WAL_WARM_MAX_SEGMENTS + 1 /\
  forall seq, wal_snapshot_seq m < seq <= lenZ log -> lenZ log - WAL_WARM_MAX_SEGMENTS < seq ->
    wal_key ns seq ∈ wal_keys_for_warm ns m.
Proof.
  intros Hl Hst. pose proof (wf_cursors _ (nss_wf _ _ _ _ Hst)) as Hwf. pose proof (nss_commit _ _ _ _ Hst) as Hcom.
  assert (Hseg : forall seq, wal_snapshot_seq m < seq <= lenZ log -> is_Some (objs !! wal_key ns seq)).
  { intros seq Hs. destruct (lookup_lt_is_Some_2 log (Z.to_nat (seq - 1))) as [e He]; [unfold lenZ in *; lia|].
    destruct (nss_segments _ _ _ _ Hst seq e) as (b & t & Hb & _); [lia|done|]. by rewrite Hb. }
  assert (Hsnap : 0 < wal_snapshot_seq m -> is_Some (objs !! wal_snapshot_key ns)).
  { intros Hs. pose proof (nss_snapshot _ _ _ _ Hst) as H. unfold snapshot_sound in H.
    destruct (objs !! wal_snapshot_key ns) as [[b t]|]; [by eexists|lia]. }
  unfold wal_keys_for_warm. rewrite Hcom. destruct (lenZ log =? 0) eqn:E0; case_bool.
  { split_and!; [constructor|unfold lenZ, WAL_WARM_MAX_SEGMENTS; cbn; lia|]. intros seq Hs. lia. }
  assert (Hgo : forall keys from, Forall (fun k => is_Some (objs !! k)) keys -> (length keys <= 1)%nat ->
    wal_snapshot_seq m < from <= lenZ log -> 1 <= from ->
    let start := Z.max (Z.max (lenZ log - (Z.min (lenZ log - from + 1) WAL_WARM_MAX_SEGMENTS - 1)) 0) from in
    let all := keys ++ (wal_key ns <$> range_incl start (lenZ log)) in
    Forall (fun k => is_Some (objs !! k)) all /\ lenZ all <= WAL_WARM_MAX_SEGMENTS + 1 /\
    forall seq, from <= seq <= lenZ log -> lenZ log - WAL_WARM_MAX_SEGMENTS < seq -> wal_key ns seq ∈ all).
  { intros keys from Hk Hkl Hf Hf1 start all. unfold WAL_WARM_MAX_SEGMENTS in *. subst start all. split_and!.
    - apply Forall_app. split; [done|]. apply Forall_fmap, Forall_forall. intros seq Hs. unfold range_incl in Hs.
      apply elem_of_seqZ in Hs. cbn. apply Hseg. lia.
    - unfold lenZ, range_incl in *. rewrite length_app, length_fmap, length_seqZ. lia.
    - intros seq Hs1 Hs2. apply elem_of_app. right. apply list_elem_of_fmap_2. unfold range_incl. apply elem_of_seqZ. lia. }
  destruct (0 <? wal_snapshot_seq m) eqn:Es; case_bool.
  - rewrite wal_replay_from_cases by lia. destruct (lenZ log <=? wal_snapshot_seq m) eqn:E1; case_bool.
    + split_and!; [constructor; [by apply Hsnap|constructor]|unfold lenZ, WAL_WARM_MAX_SEGMENTS; cbn; lia|]. intros seq Hs. lia.
    + destruct (Hgo [wal_snapshot_key ns] (wal_snapshot_seq m + 1)) as (H1 & H2 & H3);
        [constructor; [by apply Hsnap|constructor]|cbn; lia|lia..|]. split_and!; [done..|]. intros seq Hs1 Hs2. apply H3; lia.
  - rewrite (proj2 (Z.ltb_lt _ _)) by (unfold lenZ in *; lia).
    destruct (Hgo [] 1) as (H1 & H2 & H3); [constructor|cbn; lia|unfold lenZ in *; lia..|].
    split_and!; [done..|]. intros seq Hs1 Hs2. apply H3; lia.
Qed.

Lemma confined_touch K keys : confined K (touch_keys keys).
Proof.
  induction keys as [|k keys IH]; cbn [touch_keys]; [apply confined_ret|].
  apply confined_bind; [apply confined_cache_get|]. intros _. exact IH.
Qed.

Lemma confined_clusters K ns field use ids count : confined K (touch_clusters ns field use ids count).
Proof.
  revert count. induction ids as [|f ids IH]; intros count; cbn [touch_clusters]; [apply confined_ret|].
  apply confined_bind; [apply confined_cache_get|]. intros b. apply confined_bind; [|intros found; apply IH].
  destruct b; [apply confined_ret|]. destruct use; [|apply confined_ret].
  apply confined_bind; [apply confined_cache_get|intros; apply confined_ret].
Qed.

Lemma confined_warm_index K ns m keys counts : confined K (warm_index ns m keys counts).
Proof.
  revert counts. induction keys as [|k keys IH]; intros [[fts fil] cl]; cbn [warm_index]; [apply confined_ret|].
  destruct (str_ends_with _ k).
  - apply confined_bind; [|intros cl'; apply IH]. unfold warm_l0. apply confined_bind; [apply confined_cache_get|].
    intros b. destruct (b ≫= l0_decode); [|apply confined_ret]. apply confined_bind; [apply confined_touch|].
    intros _. apply confined_clusters.
  - apply confined_bind; [apply confined_cache_get|]. intros b. apply IH.
Qed.

Lemma warm_objects_creads ns : creads (warm_objects ns) (fun _ _ => True).
Proof.
  apply creads_of_confined. unfold warm_objects. apply confined_bind; [apply confined_sg_map, confined_fetch_meta|].
  intros [[m et]|]; [|apply confined_err]. apply confined_bind; [apply confined_sg_map, confined_cache_get|]. intros _.
  apply confined_bind; [apply confined_sg_map, confined_warm_index|]. intros counts.
  apply confined_bind; [apply confined_sg_map, confined_touch|]. intros _. apply confined_ret.
Qed.

(** Loading a view from the store gives a view of the log. *)
Lemma fresh_view_post ns m log sg :
  lenZ log < u64_max -> load_state ns m log (sg_world sg) -> views_ok sg ns log ->
  strong_post ns m log sg (fun v => view_of log v) (sg_io (sg_map SgNs (view_load policy ns)) sg).
Proof.
  intros Hl Hw Hv. apply strong_post_io; [done|].
  eapply (agree_post _ _ _ _ (agree_sg_map SgNs _ _ (agree_view_load policy ns))).
  pose proof Hw as (Hc & Hst & Hcur & _).
  eapply (st_post_mono (S := recognised S)).
  { apply (creads_sg_map (S := recognised S) (LC := recognised_cache LC) (CR := recognised_reads CR) SgNs _ _
      (creads_of_reads (LC := recognised_cache LC) (CR := recognised_reads CR) _ _ (view_load_reads (S := recognised S) policy ns)
        (confined_view_load (S := recognised S) (LC := recognised_cache LC) (CR := recognised_reads CR)
           (CL := recognised_reads_laws CL) policy _ ns))). exact Hc. }
  intros w' r (K1 & K2 & K3). split_and!; [exact (load_state_keep (S := S) ns m log (sg_world sg) w' Hw K2 K1)|exact K2|]. destruct r as [v|]; [|done].
  destruct (K3 m log Hl Hst Hcur) as (_ & _ & Kl & Kd). apply (view_of_full log v (v_docs v)); [done..|]. unfold lenZ in *. lia.
Qed.

Lemma warm_post ns m log sg :
  lenZ log < u64_max -> load_state ns m log (sg_world sg) -> views_ok sg ns log ->
  let '(sg', r) := warm_namespace policy ns sg in
  misled (sg_world sg') = false ->
  objects (sg_world sg') = objects (sg_world sg) /\ views_ok sg' ns log /\
  match r with
  | Err _ => True
  | Ok stats => warm_pinned stats = true /\ exists v, vc_views (sg_views sg') !! ns = Some v /\
      replay ∅ log = Ok (v_docs v) /\ v_meta v = m
  end.
Proof.
  intros Hl Hw Hv. unfold warm_namespace.
  assert (strong_post ns m log sg (fun x => view_of log x.2 /\ replay ∅ log = Ok (v_docs x.2) /\ v_meta x.2 = m)
    ((do! out <- sg_io (warm_objects ns); do! v <- sg_io (sg_map SgNs (view_load policy ns));
      do! v <- sg_io (catch_up_fresh policy ns v); sg_ret (out, v)) sg)) as H.
  { eapply (strong_post_bind _ _ _ _ _ _ (fun _ => True)); [|solve_sg_keeps|].
    - apply strong_post_io; [done|]. pose proof Hw as (Hc & _). eapply st_post_mono; [by apply warm_objects_creads|].
      intros w' r (K1 & K2 & _) _. split_and!; [by eapply load_state_keep|done|by destruct r].
    - intros out sg1 Hw1 _ Hv1 _. eapply strong_post_bind; [by apply fresh_view_post|solve_sg_keeps|].
      intros v sg2 Hw2 _ Hv2 Hview. eapply strong_post_bind; [by apply strong_post_fresh|solve_sg_keeps|].
      intros v' sg3 Hw3 _ Hv3 [[Hd Hm] Hview'] _. by split_and!. }
  revert H. unfold sg_bind. destruct (sg_io (warm_objects ns) sg) as [sg1 [[[[fts fil] cl] wal]|e]];
    [|by intros H Hm; destruct (H Hm) as (_ & H1 & H2 & _)].
  destruct (sg_io (sg_map SgNs (view_load policy ns)) sg1) as [sg2 [v|e]]; [|by intros H Hm; destruct (H Hm) as (_ & H1 & H2 & _)].
  destruct (sg_io (catch_up_fresh policy ns v) sg2) as [sg3 [v'|e]]; [|by intros H Hm; destruct (H Hm) as (_ & H1 & H2 & _)].
  intros H Hm. destruct (H Hm) as (_ & H1 & H2 & Hview & Hd & Hmeta). cbn in *. rewrite vc_insert_own. split_and!; [done| |done|by exists v'].
  intros v0. cbn. rewrite vc_insert_own. by intros [= <-].
Qed.
End WarmSpec.

(** warming is exact.  Whatever requests fail, unless [meta.json] was
    misread as absent, it changes no object; it asks
    for the snapshot and at most the last 128 segments after it, every one of
    which is stored; and when it succeeds the pinned view holds the replay of
    the committed log and the current metadata. *)
Theorem warm_exact {IO : IterOrder} {WC : WalCodec} {MC : MetaCodec} {S : ObjectStore} {SL : StoreLaws} {MO : Monitor}
    {LC : LocalCache} {LL : LocalCacheLaws} {CR : CachedReads} {CL : CachedReadsLaws} {RM : ReadsMonitor} {SC : SegmentCodec} policy ns m log sg :
  lenZ log < u64_max -> load_state ns m log (sg_world sg) -> views_ok sg ns log ->
  Forall (fun k => is_Some (objects (sg_world sg) !! k)) (wal_keys_for_warm ns m) /\
  lenZ (wal_keys_for_warm ns m) <= WAL_WARM_MAX_SEGMENTS + 1 /\
  let '(sg', r) := warm_namespace policy ns sg in
  misled (sg_world sg') = false ->
  objects (sg_world sg') = objects (sg_world sg) /\ views_ok sg' ns log /\
  match r with
  | Err _ => True
  | Ok stats => warm_pinned stats = true /\ exists v, vc_views (sg_views sg') !! ns = Some v /\
      replay ∅ log = Ok (v_docs v) /\ v_meta v = m
  end.
Proof.
  intros Hl Hw Hv. destruct Hw as (Hc & Hst & Hcur & Hm).
  destruct (wal_keys_live (objects (sg_world sg)) ns m log Hl Hst) as (H1 & H2 & _). split; [done|]. split; [done|].
  by apply (warm_post policy ns m log sg Hl).
Qed.

Definition warm_run : @Storage calm_store * result StorageError WarmStats :=
  @warm_namespace canonical_order demo_codec run_metas calm_store (no_cache calm_store) (direct_reads calm_store) run_segments
    PolicyFail "ns" indexed_storage.

Lemma warm_exact_witness :
  warm_run.2 = Ok (mkWarmStats "ok" "ns" true true 1 1 0 1) /\
  exists v, vc_views (sg_views warm_run.1) !! "ns" = Some v /\ @replay canonical_order demo_codec ∅ [put_entry "a"] = Ok (v_docs v).
Proof.
  assert (Hr : warm_run.2 = Ok (mkWarmStats "ok" "ns" true true 1 1 0 1)) by (vm_compute; reflexivity).
  split; [exact Hr|].
  pose proof (@warm_exact canonical_order demo_codec run_metas calm_store calm_store_laws calm_store_monitor (no_cache calm_store)
    (no_cache_laws _) (direct_reads calm_store) (direct_reads_laws _ _) calm_reads_monitor run_segments PolicyFail "ns" run_meta [put_entry "a"]
    indexed_storage ltac:(reflexivity) indexed_load_state ltac:(intros v Hv; exfalso; revert Hv; vm_compute; discriminate)) as (_ & _ & H).
  fold warm_run in H. destruct warm_run as [sg' r]. cbn in Hr. rewrite Hr in H. destruct (H eq_refl) as (_ & _ & _ & v & H1 & H2 & _).
  exists v. split; [exact H1|exact H2].
Defined.
