(* ===== verification/CommitLock.v ===== *)
(** * The commit lock ([commit_lock.rs])

    One mutex per namespace, created on first use: looked up under a read lock
    and, if absent, inserted under the write lock.  Commits of a process
    ([append_wal], the indexer's commit and the compaction) run between taking
    and releasing it.  The table and the tasks are a transition system. *)

From Stdlib Require Import ZArith Lia Bool.
From stdpp Require Import base gmap strings list.
From S2P Require Import Prelude.

(** An [Arc<Mutex<()>>] is its allocation; the table never forgets one. *)
Notation LockId := positive (only parsing).

Record LockTable : Type := mkTable {
  locks : gmap string LockId;
  next_lock : LockId
}.

(** The look-up under the read guard. *)
Definition lookup_lock (namespace : string) (t : LockTable) : option LockId := locks t !! namespace.

(** [guard.entry(namespace).or_insert_with(..)] under the write guard: another
    task may have inserted it in between. *)
Definition entry_lock (namespace : string) (t : LockTable) : LockTable * LockId :=
  match locks t !! namespace with
  | Some l => (t, l)
  | None => (mkTable (<[namespace := next_lock t]> (locks t)) (Pos.succ (next_lock t)), next_lock t)
  end.

(** Where a commit of a namespace is. *)
Inductive CommitPhase : Type :=
| Reading
| Inserting
| Waiting (l : LockId)
| Committing (l : LockId).

Record LockState : Type := mkLockState {
  table : LockTable;
  commits_of : gmap positive (string * CommitPhase);
  holder : gmap LockId positive
}.

Definition lock_init : LockState := mkLockState (mkTable ∅ 1%positive) ∅ ∅.

(** What a task does next. *)
Inductive LockAction : Type :=
| LStart (tid : positive) (ns : string)
| LLookup (tid : positive)
| LInsert (tid : positive)
| LAcquire (tid : positive)
| LRelease (tid : positive).

Inductive lock_step : LockAction -> LockState -> LockState -> Prop :=
| step_start s tid ns :
    commits_of s !! tid = None ->
    lock_step (LStart tid ns) s (mkLockState (table s) (<[tid := (ns, Reading)]> (commits_of s)) (holder s))
| step_found s tid ns l :
    commits_of s !! tid = Some (ns, Reading) -> lookup_lock ns (table s) = Some l ->
    lock_step (LLookup tid) s (mkLockState (table s) (<[tid := (ns, Waiting l)]> (commits_of s)) (holder s))
| step_absent s tid ns :
    commits_of s !! tid = Some (ns, Reading) -> lookup_lock ns (table s) = None ->
    lock_step (LLookup tid) s (mkLockState (table s) (<[tid := (ns, Inserting)]> (commits_of s)) (holder s))
| step_insert s tid ns t l :
    commits_of s !! tid = Some (ns, Inserting) -> entry_lock ns (table s) = (t, l) ->
    lock_step (LInsert tid) s (mkLockState t (<[tid := (ns, Waiting l)]> (commits_of s)) (holder s))
| step_acquire s tid ns l :
    commits_of s !! tid = Some (ns, Waiting l) -> holder s !! l = None ->
    lock_step (LAcquire tid) s (mkLockState (table s) (<[tid := (ns, Committing l)]> (commits_of s)) (<[l := tid]> (holder s)))
| step_release s tid ns l :
    commits_of s !! tid = Some (ns, Committing l) ->
    lock_step (LRelease tid) s (mkLockState (table s) (delete tid (commits_of s)) (delete l (holder s))).

Definition lock_moves (s s' : LockState) : Prop := exists a, lock_step a s s'.

(** ** Invariant *)

Definition phase_lock (p : CommitPhase) : option LockId :=
  match p with Waiting l | Committing l => Some l | _ => None end.

Record lock_inv (s : LockState) : Prop := {
  li_fresh : forall ns l, locks (table s) !! ns = Some l -> (l < next_lock (table s))%positive;
  li_inj : forall ns ns' l, locks (table s) !! ns = Some l -> locks (table s) !! ns' = Some l -> ns = ns';
  li_task : forall tid ns p l, commits_of s !! tid = Some (ns, p) -> phase_lock p = Some l -> locks (table s) !! ns = Some l;
  li_holder : forall tid l, holder s !! l = Some tid <-> exists ns, commits_of s !! tid = Some (ns, Committing l)
}.

Lemma lock_init_inv : lock_inv lock_init.
Proof.
  split; cbn; intros *; rewrite ?lookup_empty; try done. split; [done|]. by intros [ns ?].
Qed.

Lemma entry_lock_spec ns t t' l :
  entry_lock ns t = (t', l) ->
  locks t' !! ns = Some l /\ (forall ns', ns' <> ns -> locks t' !! ns' = locks t !! ns') /\
  (forall l', locks t !! ns = Some l' -> l' = l /\ t' = t) /\
  (locks t !! ns = None -> l = next_lock t /\ next_lock t' = Pos.succ (next_lock t)).
Proof.
  unfold entry_lock. destruct (locks t !! ns) as [l0|] eqn:E; intros [= <- <-].
  - split_and!; try done. intros l' [= <-]. done.
  - cbn. rewrite lookup_insert_eq. split_and!; try done. intros ns' Hn. by rewrite lookup_insert_ne.
Qed.

(** Moving a task that does not commit keeps the holders. *)
Lemma holder_move s tid ns p h :
  lock_inv s -> (forall ns' l, commits_of s !! tid <> Some (ns', Committing l)) -> (forall l, p <> Committing l) ->
  h = holder s ->
  forall tid' l, h !! l = Some tid' <-> exists ns', <[tid := (ns, p)]> (commits_of s) !! tid' = Some (ns', Committing l).
Proof.
  intros Hi Hno Hp -> tid' l. rewrite (li_holder s Hi). destruct (decide (tid' = tid)) as [->|Hne].
  - rewrite lookup_insert_eq. split; intros [ns' H]; [by apply Hno in H|]. injection H as _ H. by apply Hp in H.
  - by rewrite lookup_insert_ne.
Qed.

Lemma task_move s tid ns p l0 :
  lock_inv s -> (phase_lock p = Some l0 \/ phase_lock p = None) -> locks (table s) !! ns = Some l0 \/ phase_lock p = None ->
  forall tid' ns' p' l, <[tid := (ns, p)]> (commits_of s) !! tid' = Some (ns', p') -> phase_lock p' = Some l ->
    locks (table s) !! ns' = Some l.
Proof.
  intros Hi Hp Hl tid' ns' p' l H Hpl. destruct (decide (tid' = tid)) as [->|Hne].
  - rewrite lookup_insert_eq in H. injection H as <- <-. destruct Hp as [Hp|Hp], Hl as [Hl|Hl]; congruence.
  - rewrite lookup_insert_ne in H by done. by eapply (li_task s Hi).
Qed.

Lemma insert_step_inv s tid ns t l :
  lock_inv s -> commits_of s !! tid = Some (ns, Inserting) -> entry_lock ns (table s) = (t, l) ->
  lock_inv (mkLockState t (<[tid := (ns, Waiting l)]> (commits_of s)) (holder s)).
Proof.
  intros Hi Ht He. destruct (entry_lock_spec _ _ _ _ He) as (H1 & H2 & H3 & H4).
  assert (Hold : forall ns' l', locks (table s) !! ns' = Some l' -> locks t !! ns' = Some l').
  { intros ns' l' Hl. destruct (decide (ns' = ns)) as [->|Hn]; [|by rewrite H2]. by destruct (H3 l' Hl) as [-> ->]. }
  split; cbn.
  - intros ns' l' Hl. destruct (locks (table s) !! ns) as [l0|] eqn:E.
    + destruct (H3 l0 eq_refl) as [_ ->]. by eapply (li_fresh s Hi).
    + destruct (H4 eq_refl) as [-> ->]. destruct (decide (ns' = ns)) as [->|Hn].
      * rewrite H1 in Hl. injection Hl as <-. lia.
      * rewrite H2 in Hl by done. apply (li_fresh s Hi) in Hl. lia.
  - intros a b l' Ha Hb. destruct (locks (table s) !! ns) as [l0|] eqn:E.
    + destruct (H3 l0 eq_refl) as [_ ->]. by eapply (li_inj s Hi).
    + destruct (H4 eq_refl) as [-> _]. destruct (decide (a = ns)) as [->|Hna], (decide (b = ns)) as [->|Hnb]; try done.
      * rewrite H2 in Hb by done. rewrite H1 in Ha. injection Ha as <-. apply (li_fresh s Hi) in Hb. lia.
      * rewrite H2 in Ha by done. rewrite H1 in Hb. injection Hb as <-. apply (li_fresh s Hi) in Ha. lia.
      * rewrite H2 in Ha, Hb by done. by eapply (li_inj s Hi).
  - intros tid' ns' p l' H Hp. destruct (decide (tid' = tid)) as [->|Hne].
    + rewrite lookup_insert_eq in H. injection H as <- <-. by injection Hp as <-.
    + rewrite lookup_insert_ne in H by done. apply Hold. by eapply (li_task s Hi).
  - apply holder_move; [done| |done|done]. intros ns' l' H. congruence.
Qed.

Lemma lock_step_inv a s s' : lock_inv s -> lock_step a s s' -> lock_inv s'.
Proof.
  intros Hi Hs. inversion Hs as [? tid ns H|? tid ns l H Hl|? tid ns H Hl|? tid ns t l H He|? tid ns l H Hh|? tid ns l H]; subst.
  4: by eapply insert_step_inv.
  all: destruct Hi as [I1 I2 I3 I4] eqn:EI; clear EI.
  1, 2, 3: (split; cbn; [exact I1|exact I2| |apply holder_move; [done| |done|done]; intros ns' l'; congruence]).
  - apply (task_move s tid ns Reading 1); [done|by right|by right].
  - apply (task_move s tid ns (Waiting l) l); [done|by left|by left].
  - apply (task_move s tid ns Inserting 1); [done|by right|by right].
  - assert (Hlk : locks (table s) !! ns = Some l) by (by eapply I3).
    split; cbn; [exact I1|exact I2|apply (task_move s tid ns (Committing l) l); [done|by left|by left]|].
    intros tid' l'. destruct (decide (l' = l)) as [->|Hn].
    + rewrite lookup_insert_eq. split.
      * intros [= <-]. exists ns. by rewrite lookup_insert_eq.
      * intros [ns' H']. destruct (decide (tid' = tid)) as [->|Hne]; [done|]. rewrite lookup_insert_ne in H' by done.
        assert (holder s !! l = Some tid') by (apply I4; eauto). congruence.
    + rewrite lookup_insert_ne, I4 by done. destruct (decide (tid' = tid)) as [->|Hne]; [|by rewrite lookup_insert_ne].
      rewrite lookup_insert_eq. split; intros [ns' H']; congruence.
  - split; cbn; [exact I1|exact I2| |].
    + intros tid' ns' p l' H' Hp. apply lookup_delete_Some in H' as [_ H']. by eapply I3.
    + intros tid' l'. destruct (decide (tid' = tid)) as [->|Hne].
      * rewrite lookup_delete_eq. split; [|by intros [ns' ?]]. intros H'. apply lookup_delete_Some in H' as [Hn H'].
        apply I4 in H' as [ns' H']. congruence.
      * rewrite (lookup_delete_ne (commits_of s) tid tid') by congruence. destruct (decide (l' = l)) as [->|Hn].
        -- rewrite lookup_delete_eq. split; [done|]. intros [ns' H']. assert (holder s !! l = Some tid') by (apply I4; eauto).
           assert (holder s !! l = Some tid) by (apply I4; eauto). congruence.
        -- rewrite (lookup_delete_ne (holder s) l l') by congruence. apply I4.
Qed.

Lemma lock_reachable_inv s : rtc lock_moves lock_init s -> lock_inv s.
Proof.
  intros H. remember lock_init as s0 eqn:E. assert (lock_inv s0) as Hi by (subst; apply lock_init_inv). clear E.
  induction H as [|s0 s1 s2 [a H1] _ IH]; [done|]. apply IH. by eapply lock_step_inv.
Qed.

(** ** Theorem *)

(** commits of a namespace exclude each other.  In every reachable state of
    the lock table and its tasks, whatever the interleaving of the two look-ups
    of the double-checked creation, all commits of a namespace use one lock,
    commits of different namespaces use different locks, and at most one commit
    of a namespace is running. *)
Theorem commits_exclusive s tid tid' ns ns' p p' l l' :
  rtc lock_moves lock_init s ->
  commits_of s !! tid = Some (ns, p) -> phase_lock p = Some l ->
  commits_of s !! tid' = Some (ns', p') -> phase_lock p' = Some l' ->
  (ns = ns' <-> l = l') /\ (p = Committing l -> p' = Committing l' -> ns = ns' -> tid = tid').
Proof.
  intros Hr Ht Hp Ht' Hp'. pose proof (lock_reachable_inv s Hr) as Hi.
  pose proof (li_task s Hi _ _ _ _ Ht Hp) as H1. pose proof (li_task s Hi _ _ _ _ Ht' Hp') as H2. split.
  - split; [intros ->; congruence|]. intros ->. by eapply (li_inj s Hi).
  - intros -> -> ->. assert (l' = l) as -> by congruence.
    assert (holder s !! l = Some tid) by (apply (li_holder s Hi); eauto).
    assert (holder s !! l = Some tid') by (apply (li_holder s Hi); eauto). congruence.
Qed.

(** Two tasks that both found no lock, the first of which runs. *)
Definition race_state : LockState :=
  mkLockState (mkTable {[ "ns" := 1%positive ]} 2%positive)
    {[ 1%positive := ("ns", Committing 1); 2%positive := ("ns", Waiting 1) ]} {[ 1%positive := 1%positive ]}.

Lemma race_reachable : rtc lock_moves lock_init race_state.
Proof.
  eapply rtc_l; [eexists; apply (step_start _ 1 "ns"); reflexivity|].
  eapply rtc_l; [eexists; apply (step_start _ 2 "ns"); reflexivity|].
  eapply rtc_l; [eexists; apply (step_absent _ 1 "ns"); reflexivity|].
  eapply rtc_l; [eexists; apply (step_absent _ 2 "ns"); reflexivity|].
  eapply rtc_l; [eexists; eapply (step_insert _ 1 "ns"); reflexivity|].
  eapply rtc_l; [eexists; eapply (step_insert _ 2 "ns"); reflexivity|].
  eapply rtc_l; [eexists; apply (step_acquire _ 1 "ns" 1); reflexivity|].
  match goal with |- rtc _ ?a ?b => replace a with b by (vm_compute; reflexivity) end. apply rtc_refl.
Qed.

Lemma commits_exclusive_witness :
  ("ns" = "ns" <-> 1%positive = 1%positive) /\
  (Committing 1 = Committing 1 -> Waiting 1 = Committing 1 -> "ns" = "ns" -> 1%positive = 2%positive).
Proof.
  apply (commits_exclusive race_state 1 2 "ns" "ns" (Committing 1) (Waiting 1) 1 1 race_reachable); reflexivity.
Defined.
