(* ===== verification/ConcurrentCommits.v ===== *)
(** * Commits of one process, interleaved ([namespace.rs], [commit_lock.rs])

    [append_wal] takes the commit lock of its namespace and then reads the
    metadata, writes the segment and advances the metadata, each a request or a
    run of retried requests during which other tasks proceed.  Here the tasks of
    a process run stage by stage in any order: appends, maintenance under the
    lock (the indexer's commit, the compaction) and writes of other objects
    without it.  Run without interruption the stages are [append_wal]; run in
    any interleaving they still append one entry each. *)

From Stdlib Require Import ZArith Lia Bool.
From stdpp Require Import base gmap strings list relations.
From S2P Require Import Prelude F64 Json Models Keys Schema Meta Wal WalReplay ObjectStore Namespace Monitor Durability Compaction Buffer Cache IndexerSpec CommitLock.

(** ** The stages of an append *)

(** [StRead n]: [n] attempts are left. *)
Inductive Stage : Type :=
| StRead (attempts : nat)
| StPut (attempts : nat) (meta : NamespaceMeta) (etag : option string)
| StCas (attempts : nat) (meta : NamespaceMeta) (etag : option string)
| StDone (r : result NsError Z).

Section Stages.
Context {WC : WalCodec} {MC : MetaCodec} {S : ObjectStore}.
Context (ns : string) (entry : WalEntry) (patch : option Value) (metric : option DistanceMetric).

Definition stage_step (st : Stage) (w : World) : option (World * Stage) :=
  match st with
  | StRead O => Some (w, StDone (Err CasExhausted))
  | StRead (Datatypes.S n) =>
      let '(w', r) := append_read ns w in
      Some (w', match r with Ok (m, et) => StPut n m et | Err e => StDone (Err e) end)
  | StPut n m et =>
      let '(w', r) := append_put ns entry (next_wal_seq m) w in
      Some (w', match r with Ok _ => StCas n m et | Err e => StDone (Err e) end)
  | StCas n m et =>
      let '(w', r) := append_cas ns patch metric (Nat.eqb n 0) m et (next_wal_seq m) w in
      Some (w', match r with Ok (Some seq) => StDone (Ok seq) | Ok None => StRead n | Err e => StDone (Err e) end)
  | StDone _ => None
  end.

Fixpoint run_stages (fuel : nat) (st : Stage) (w : World) : World * Stage :=
  match fuel with
  | O => (w, st)
  | Datatypes.S fuel =>
      match stage_step st w with
      | Some (w', st') => run_stages fuel st' w'
      | None => (w, st)
      end
  end.

Lemma run_stages_done fuel r w : run_stages fuel (StDone r) w = (w, StDone r).
Proof. by destruct fuel. Qed.

(** Uninterrupted, the stages are the loop of [append_wal]. *)
Lemma run_stages_append n fuel w :
  (3 * n < fuel)%nat ->
  run_stages fuel (StRead n) w =
    let '(w', r) := append_loop n ns entry patch metric w in (w', StDone r).
Proof.
  revert fuel w. induction n as [|n IH]; intros fuel w Hf.
  - destruct fuel as [|fuel]; [lia|]. cbn. by rewrite run_stages_done.
  - destruct fuel as [|[|[|fuel]]]; [lia..|]. cbn [run_stages stage_step append_loop]. unfold append_attempt, st_bind.
    destruct (append_read ns w) as [w1 [[m et]|e]]; [|reflexivity]. cbn [stage_step].
    destruct (append_put ns entry (next_wal_seq m) w1) as [w2 [[]|e]]; [|reflexivity]. cbn [stage_step].
    destruct (append_cas ns patch metric (Nat.eqb n 0) m et (next_wal_seq m) w2) as [w3 [[seq|]|e]];
      [by rewrite run_stages_done| |by rewrite run_stages_done].
    apply IH. lia.
Qed.

(** A stage that ends unmisled is the same on the recognised store. *)
Lemma stage_step_recognised {MO : Monitor} st w w' st' :
  stage_step st w = Some (w', st') -> misled w' = false ->
  match st with
  | StRead (Datatypes.S _) => append_read (S := recognised S) ns w = append_read ns w
  | StPut _ m _ => append_put (S := recognised S) ns entry (next_wal_seq m) w = append_put ns entry (next_wal_seq m) w
  | StCas n m et => append_cas (S := recognised S) ns patch metric (Nat.eqb n 0) m et (next_wal_seq m) w =
      append_cas ns patch metric (Nat.eqb n 0) m et (next_wal_seq m) w
  | _ => True
  end.
Proof.
  destruct st as [[|n]|n m et|n m et|r]; cbn [stage_step]; intros Hs Hm; try exact I; revert Hs Hm.
  - destruct (agree_append_read ns w) as [_ E]. destruct (append_read ns w) as [w1 r]. intros [= <- _] H. symmetry. by apply E.
  - destruct (agree_append_put ns entry (next_wal_seq m) w) as [_ E]. destruct (append_put _ _ _ w) as [w1 r].
    intros [= <- _] H. symmetry. by apply E.
  - destruct (agree_append_cas ns patch metric (Nat.eqb n 0) m et (next_wal_seq m) w) as [_ E].
    destruct (append_cas _ _ _ _ _ _ _ w) as [w1 r]. intros [= <- _] H. symmetry. by apply E.
Qed.
End Stages.

(** ** The tasks of a process *)

Inductive Job : Type :=
| JAppend (entry : WalEntry) (patch : option Value) (metric : option DistanceMetric)
| JMaintain.

(** [cc_acks]: the tasks whose append succeeded, with their sequence numbers, at
    the time they released the lock. *)
Record ConcState {S : ObjectStore} : Type := mkConc {
  cc_lock : LockState;
  cc_world : World;
  cc_stage : gmap positive Stage;
  cc_acks : list (positive * Z)
}.

#[global] Arguments mkConc {S}.

(** The log objects of the other namespaces are as they were. *)
Definition others_same (ns : string) (objs objs' : Objects) : Prop :=
  forall ns' k, validate_namespace_name ns' = Ok tt -> ns' <> ns -> wal_keys ns' k -> objs' !! k = objs !! k.

Section Tasks.
Context {IO : IterOrder} {WC : WalCodec} {MC : MetaCodec} {S : ObjectStore}.

(** What each task is for: a namespace and a job. *)
Context (job : positive -> string * Job) (w0 : World).
Implicit Types s : @ConcState S.

Definition holds_lock s (tid : positive) : Prop :=
  exists l, commits_of (cc_lock s) !! tid = Some ((job tid).1, Committing l).

Definition finished (j : Job) (st : option Stage) : option (option Z) :=
  match j, st with
  | JMaintain, _ => Some None
  | JAppend _ _ _, Some (StDone (Ok seq)) => Some (Some seq)
  | JAppend _ _ _, Some (StDone (Err _)) => Some None
  | _, _ => None
  end.

Inductive conc_step : ConcState -> ConcState -> Prop :=
| conc_start s tid ls :
    lock_step (LStart tid (job tid).1) (cc_lock s) ls ->
    conc_step s (mkConc ls (cc_world s) (cc_stage s) (cc_acks s))
| conc_lookup s tid ls :
    lock_step (LLookup tid) (cc_lock s) ls ->
    conc_step s (mkConc ls (cc_world s) (cc_stage s) (cc_acks s))
| conc_insert s tid ls :
    lock_step (LInsert tid) (cc_lock s) ls ->
    conc_step s (mkConc ls (cc_world s) (cc_stage s) (cc_acks s))
| conc_acquire s tid ls :
    lock_step (LAcquire tid) (cc_lock s) ls ->
    conc_step s (mkConc ls (cc_world s) (<[tid := StRead META_RETRIES]> (cc_stage s)) (cc_acks s))
| conc_run s tid entry patch metric st w' st' :
    holds_lock s tid -> (job tid).2 = JAppend entry patch metric -> cc_stage s !! tid = Some st ->
    stage_step (job tid).1 entry patch metric st (cc_world s) = Some (w', st') ->
    conc_step s (mkConc (cc_lock s) w' (<[tid := st']> (cc_stage s)) (cc_acks s))
| conc_maintain s tid w' :
    holds_lock s tid -> (job tid).2 = JMaintain ->
    (forall m log, lenZ log < u64_max -> ns_state (objects (cc_world s)) (job tid).1 m log ->
       exists m', ns_state (objects w') (job tid).1 m' log) ->
    others_same (job tid).1 (objects (cc_world s)) (objects w') ->
    conc_step s (mkConc (cc_lock s) w' (cc_stage s) (cc_acks s))
| conc_other s w' :
    (forall ns k, validate_namespace_name ns = Ok tt -> wal_keys ns k -> objects w' !! k = objects (cc_world s) !! k) ->
    conc_step s (mkConc (cc_lock s) w' (cc_stage s) (cc_acks s))
| conc_release s tid ls out :
    finished (job tid).2 (cc_stage s !! tid) = Some out -> lock_step (LRelease tid) (cc_lock s) ls ->
    conc_step s (mkConc ls (cc_world s) (delete tid (cc_stage s))
      (cc_acks s ++ match out with Some seq => [(tid, seq)] | None => [] end)).

(** The states reached in [n] steps, as long as no read of an existing
    [meta.json] was misread. *)
Inductive conc_reach {MO : Monitor} : nat -> ConcState -> Prop :=
| conc_reach_start : conc_reach 0 (mkConc lock_init w0 ∅ [])
| conc_reach_step n s s' : conc_reach n s -> conc_step s s' -> misled (cc_world s') = false -> conc_reach (Datatypes.S n) s'.
End Tasks.

(** ** Invariant *)

Lemma lock_step_committing a s s' tid ns l :
  lock_step a s s' -> a <> LRelease tid ->
  commits_of s !! tid = Some (ns, Committing l) -> commits_of s' !! tid = Some (ns, Committing l).
Proof.
  intros Hs Ha Ht. inversion Hs as [? t n H|? t n l' H|? t n H|? t n tb l' H|? t n l' H|? t n l' H]; subst; cbn;
    (destruct (decide (t = tid)) as [->|Hne]; [congruence|]); by rewrite ?lookup_insert_ne, ?lookup_delete_ne by done.
Qed.

Lemma lock_step_origin a s s' tid ns p :
  lock_step a s s' -> commits_of s' !! tid = Some (ns, p) ->
  a = LStart tid ns \/ exists p', commits_of s !! tid = Some (ns, p').
Proof.
  intros Hs. inversion Hs as [? t n H|? t n l' H|? t n H|? t n tb l' H|? t n l' H|? t n l' H]; subst; cbn;
    (destruct (decide (t = tid)) as [->|Hne];
     [rewrite ?lookup_insert_eq, ?lookup_delete_eq|rewrite ?lookup_insert_ne, ?lookup_delete_ne by done; by eauto]);
    try done; intros [= <- <-]; eauto.
Qed.

(** Holding the lock of a namespace excludes every other task. *)
Lemma committing_unique s tid tid' ns l l' :
  lock_inv s -> commits_of s !! tid = Some (ns, Committing l) -> commits_of s !! tid' = Some (ns, Committing l') ->
  tid = tid'.
Proof.
  intros Hi H H'. pose proof (li_task s Hi _ _ _ l H eq_refl) as H1. pose proof (li_task s Hi _ _ _ l' H' eq_refl) as H2.
  assert (l' = l) as -> by congruence. assert (holder s !! l = Some tid) by (apply (li_holder s Hi); eauto).
  assert (holder s !! l = Some tid') by (apply (li_holder s Hi); eauto). congruence.
Qed.

Lemma others_same_keys ns seq objs objs' :
  validate_namespace_name ns = Ok tt ->
  (forall k, k <> wal_key ns seq -> k <> meta_key ns -> objs' !! k = objs !! k) -> others_same ns objs objs'.
Proof.
  intros Hv Hf ns' k Hv' Hne Hk.
  assert (exists o, k = object_key ns' o) as [o ->].
  { destruct Hk as [->|[->|(q & ->)]]; [by exists OMeta|by exists OSnapshot|by exists (OWal q)]. }
  apply Hf; [apply (keys_disjoint _ _ _ (OWal seq))|apply (keys_disjoint _ _ _ OMeta)]; done.
Qed.

Section Interleaving.
Context {IO : IterOrder} {WC : WalCodec} {WL : WalCodecLaws} {MC : MetaCodec} {ML : MetaCodecLaws}.
Context {S : ObjectStore} {SL : StoreLaws} {MO : Monitor}.
Context (job : positive -> string * Job) (w0 : World) (meta0 : string -> NamespaceMeta) (log0 : string -> list WalEntry).
Implicit Types (s : @ConcState S) (meta : string -> NamespaceMeta) (log : string -> list WalEntry).

Hypothesis jobs_valid : forall tid, validate_namespace_name (job tid).1 = Ok tt.
Hypothesis jobs_ok : forall tid e p me, (job tid).2 = JAppend e p me -> entry_ok e = true /\ schema_exact p.

(** The entries after the initial log were submitted. *)
Definition submitted (ns : string) (e : WalEntry) : Prop := exists tid p me, job tid = (ns, JAppend e p me).

Definition log_ok (n : nat) (objs : Objects) (ns : string) (m : NamespaceMeta) (l : list WalEntry) : Prop :=
  ns_state objs ns m l /\ lenZ l <= lenZ (log0 ns) + Z.of_nat n /\
  exists new, l = log0 ns ++ new /\ Forall (submitted ns) new.

(** What a task knows at a stage, since it holds the lock. *)
Definition stage_ok (objs : Objects) (acks : list (positive * Z)) (ns : string) (e : WalEntry) (m : NamespaceMeta)
    (l : list WalEntry) (st : Stage) : Prop :=
  match st with
  | StRead _ | StDone (Err _) => True
  | StPut _ m' _ => m' = m
  | StCas _ m' _ => m' = m /\ segment_at objs ns (lenZ l + 1) e
  | StDone (Ok seq) => lenZ (log0 ns) < seq /\ l !! Z.to_nat (seq - 1) = Some e /\
      forall tid', (tid', seq) ∈ acks -> (job tid').1 <> ns
  end.

Definition ack_slot (a : positive * Z) : string * Z := ((job a.1).1, a.2).

Record conc_inv (n : nat) s meta log : Prop := {
  ci_lock : lock_inv (cc_lock s);
  ci_job : forall tid ns p, commits_of (cc_lock s) !! tid = Some (ns, p) -> ns = (job tid).1;
  ci_holds : forall tid st, cc_stage s !! tid = Some st -> holds_lock job s tid;
  ci_log : forall ns, validate_namespace_name ns = Ok tt -> log_ok n (objects (cc_world s)) ns (meta ns) (log ns);
  ci_know : forall tid st e p me, cc_stage s !! tid = Some st -> (job tid).2 = JAppend e p me ->
    stage_ok (objects (cc_world s)) (cc_acks s) (job tid).1 e (meta (job tid).1) (log (job tid).1) st;
  ci_acks : forall tid seq, (tid, seq) ∈ cc_acks s ->
    exists e p me, (job tid).2 = JAppend e p me /\ lenZ (log0 (job tid).1) < seq /\
      log (job tid).1 !! Z.to_nat (seq - 1) = Some e;
  ci_slots : NoDup (ack_slot <$> cc_acks s)
}.

Lemma log_ok_mono n objs ns m l : log_ok n objs ns m l -> log_ok (Datatypes.S n) objs ns m l.
Proof. intros (H1 & H2 & H3). split; [done|]. split; [lia|done]. Qed.

Lemma log_ok_frame n objs objs' ns m l :
  (forall k, wal_keys ns k -> objs' !! k = objs !! k) -> log_ok n objs ns m l -> log_ok n objs' ns m l.
Proof.
  intros Hf (H1 & H2 & H3). split; [|done]. eapply ns_state_frame; [|exact H1]. intros k Hk. apply Hf.
  destruct Hk as [?|[?|(seq & ? & _)]]; [by left|by right; left|right; right; by exists seq].
Qed.

Lemma stage_ok_frame objs objs' acks ns e m l st :
  (forall k, wal_keys ns k -> objs' !! k = objs !! k) -> stage_ok objs acks ns e m l st -> stage_ok objs' acks ns e m l st.
Proof.
  intros Hf. destruct st as [| |k m' et|[seq|]]; try done. cbn. intros [-> (b & t & Hb & Hd)]. split; [done|].
  exists b, t. split; [|done]. rewrite Hf; [done|]. right; right. by eexists.
Qed.

(** A step of the lock alone. *)
Lemma conc_inv_lock a n s meta log ls :
  conc_inv n s meta log -> lock_step a (cc_lock s) ls ->
  (forall tid, a <> LRelease tid) -> (forall tid ns, a = LStart tid ns -> ns = (job tid).1) ->
  conc_inv (Datatypes.S n) (mkConc ls (cc_world s) (cc_stage s) (cc_acks s)) meta log.
Proof.
  intros [I1 I2 I3 I4 I5 I6 I7] Hs Hr Hj. split; cbn; try done.
  - by eapply lock_step_inv.
  - intros tid ns p H. destruct (lock_step_origin _ _ _ _ _ _ Hs H) as [->|[p' H']]; [by apply Hj|by eapply I2].
  - intros tid st H. destruct (I3 tid st H) as [l Hl]. exists l. by eapply lock_step_committing.
  - intros ns Hv. by apply log_ok_mono, I4.
Qed.

Definition upd {A} (f : string -> A) (ns : string) (a : A) : string -> A := fun ns' => if decide (ns' = ns) then a else f ns'.

Lemma upd_eq {A} (f : string -> A) ns a : upd f ns a ns = a.
Proof. unfold upd. by rewrite decide_True. Qed.

Lemma upd_ne {A} (f : string -> A) ns ns' a : ns' <> ns -> upd f ns a ns' = f ns'.
Proof. intros H. unfold upd. by rewrite decide_False. Qed.

(** A step of the holder of the lock of a namespace, on its objects: the log
    grows by [l'], the stage of the task changes if it is an append. *)
Lemma conc_inv_update n s meta log tid w' stages m' l' :
  let ns := (job tid).1 in
  conc_inv n s meta log -> holds_lock job s tid ->
  ns_state (objects w') ns m' (log ns ++ l') -> lenZ l' <= 1 -> Forall (submitted ns) l' ->
  others_same ns (objects (cc_world s)) (objects w') ->
  (forall tid', tid' <> tid -> stages !! tid' = cc_stage s !! tid') ->
  (forall st e p me, stages !! tid = Some st -> (job tid).2 = JAppend e p me ->
     stage_ok (objects w') (cc_acks s) ns e m' (log ns ++ l') st) ->
  conc_inv (Datatypes.S n) (mkConc (cc_lock s) w' stages (cc_acks s)) (upd meta ns m') (upd log ns (log ns ++ l')).
Proof.
  intros ns [I1 I2 I3 I4 I5 I6 I7] Hh Hst Hl Hsub Hoth Hstages Hok. split; cbn; try done.
  - intros tid' st H. destruct (decide (tid' = tid)) as [->|Hne]; [done|]. rewrite Hstages in H by done. by eapply I3.
  - intros ns' Hv. destruct (decide (ns' = ns)) as [->|Hne].
    + rewrite !upd_eq. destruct (I4 ns Hv) as (_ & Hlen & new & Hnew & Hall). split; [done|].
      split; [unfold lenZ in *; rewrite length_app; lia|]. exists (new ++ l'). rewrite Hnew, app_assoc.
      split; [done|]. by apply Forall_app.
    + rewrite !upd_ne by done. apply log_ok_mono. eapply log_ok_frame; [|by apply I4]. intros k Hk. by apply (Hoth ns').
  - intros tid' st e p me H Hj. destruct (decide (tid' = tid)) as [->|Hne].
    + fold ns. rewrite !upd_eq. by eapply Hok.
    + rewrite Hstages in H by done. assert ((job tid').1 <> ns) as Hns.
      { intros E. destruct (I3 _ _ H) as [l1 H1]. destruct Hh as [l2 H2]. rewrite E in H1.
        by eapply Hne, committing_unique. }
      rewrite !upd_ne by done. eapply stage_ok_frame; [|by eapply I5]. intros k Hk. by apply (Hoth (job tid').1).
  - intros tid' seq H. destruct (I6 tid' seq H) as (e & p & me & H1 & H2 & H3). exists e, p, me. split_and!; [done..|].
    destruct (decide ((job tid').1 = ns)) as [E|Hne]; [|by rewrite upd_ne]. rewrite E in H3 |- *. rewrite upd_eq.
    by apply lookup_app_l_Some.
Qed.

Lemma others_before ns m l objs objs' :
  validate_namespace_name ns = Ok tt -> before_commit ns m l objs objs' -> others_same ns objs objs'.
Proof. intros Hv [_ Hf]. eapply (others_same_keys ns (lenZ l + 1)); [done|]. intros k Hk _. by apply Hf. Qed.

Lemma others_after ns m l e p me objs objs' :
  validate_namespace_name ns = Ok tt -> after_commit ns m l e p me objs objs' -> others_same ns objs objs'.
Proof. intros Hv [_ Hf]. by eapply (others_same_keys ns (lenZ l + 1)). Qed.

(** What a stage does, for the task that holds the lock. *)
Lemma stage_step_post ns e p me m l acks st w w' st' :
  validate_namespace_name ns = Ok tt -> lenZ l < u64_max -> entry_ok e = true -> schema_exact p ->
  ns_state (objects w) ns m l -> lenZ (log0 ns) <= lenZ l ->
  (forall tid seq, (tid, seq) ∈ acks -> (job tid).1 = ns -> seq <= lenZ l) ->
  stage_ok (objects w) acks ns e m l st -> stage_step ns e p me st w = Some (w', st') -> misled w' = false ->
  exists m' l', (l' = [] \/ l' = [e]) /\ ns_state (objects w') ns m' (l ++ l') /\
    others_same ns (objects w) (objects w') /\ stage_ok (objects w') acks ns e m' (l ++ l') st'.
Proof.
  intros Hv Hl He Hp Hst Hlog0 Hacks Hok.
  assert (before_commit ns m l (objects w) (objects w)) as Hb by done.
  assert (forall w' st', before_commit ns m l (objects w) (objects w') -> stage_ok (objects w') acks ns e m l st' ->
    exists m' l', (l' = [] \/ l' = [e]) /\ ns_state (objects w') ns m' (l ++ l') /\
      others_same ns (objects w) (objects w') /\ stage_ok (objects w') acks ns e m' (l ++ l') st') as Hsame.
  { intros w1 st1 Hb1 Hok1. exists m, []. rewrite app_nil_r. split_and!; [by left|by apply Hb1|by eapply others_before|done]. }
  assert (forall w' st', after_commit ns m l e p me (objects w) (objects w') ->
    (forall seq, st' = StDone (Ok seq) -> seq = lenZ l + 1) -> (exists r, st' = StDone r) ->
    exists m' l', (l' = [] \/ l' = [e]) /\ ns_state (objects w') ns m' (l ++ l') /\
      others_same ns (objects w) (objects w') /\ stage_ok (objects w') acks ns e m' (l ++ l') st') as Hnew.
  { intros w1 st1 Ha1 Hseq [r ->]. pose proof Ha1 as [(m' & _ & Hst') _]. exists m', [e].
    split_and!; [by right|done|by eapply others_after|]. destruct r as [seq|]; [|done]. rewrite (Hseq seq eq_refl). cbn.
    split; [lia|]. split; [rewrite lookup_app_r by (unfold lenZ; lia); by replace (_ - _)%nat with 0%nat by (unfold lenZ; lia)|].
    intros tid Hin E. pose proof (Hacks _ _ Hin E). lia. }
  intros Hstep Hclean. pose proof (stage_step_recognised ns e p me st w w' st' Hstep Hclean) as Hrec. revert Hstep.
  destruct st as [[|n]|n m1 et|n m1 et|r]; cbn [stage_step].
  - intros [= <- <-]. by apply Hsame.
  - pose proof (append_read_post (S := recognised S) ns m l (objects w) w Hb) as Hr. unfold st_post in Hr. rewrite Hrec in Hr.
    destruct (append_read ns w) as [w1 r]. cbn in Hr. intros [= <- <-]. destruct Hr as [Ho Hr]. apply Hsame; [by rewrite Ho|].
    by destruct r as [[m1 et]|].
  - cbn in Hok. subst m1. rewrite (next_seq_log ns m l Hl (objects w) (objects w) Hb) in *.
    pose proof (append_put_post ns m l e Hl (objects w) w Hb) as Hr. unfold st_post in Hr.
    destruct (append_put ns e (lenZ l + 1) w) as [w1 r]. cbn in Hr. intros [= <- <-]. destruct Hr as [Hb1 Hseg]. apply Hsame; [done|].
    destruct r as [[]|]; [|done]. split; [done|]. by apply Hseg.
  - destruct Hok as [-> Hseg]. rewrite (next_seq_log ns m l Hl (objects w) (objects w) Hb) in *.
    pose proof (append_cas_post ns m l e p me Hl He Hp (objects w) w (Nat.eqb n 0) et Hb Hseg) as Hr. unfold st_post in Hr.
    destruct (append_cas ns p me (Nat.eqb n 0) m et (lenZ l + 1) w) as [w1 [[seq|]|x]]; cbn in Hr; intros [= <- <-].
    + destruct Hr as [-> Ha]. apply Hnew; [done| |by eexists]. by intros ? [= ->].
    + by apply Hsame.
    + destruct Hr as [Hb1|Ha]; [by apply Hsame|]. apply Hnew; [done|done|by eexists].
  - done.
Qed.

Lemma inv_run n s meta log tid e p me st w' st' :
  (forall ns, lenZ (log0 ns) + Z.of_nat n < u64_max) ->
  conc_inv n s meta log -> holds_lock job s tid -> (job tid).2 = JAppend e p me -> cc_stage s !! tid = Some st ->
  stage_step (job tid).1 e p me st (cc_world s) = Some (w', st') -> misled w' = false ->
  exists meta' log', conc_inv (Datatypes.S n) (mkConc (cc_lock s) w' (<[tid := st']> (cc_stage s)) (cc_acks s)) meta' log'.
Proof.
  intros Hn Hi Hh Hj Hst Hstep Hclean. set (ns := (job tid).1) in *. pose proof (jobs_valid tid) as Hv. fold ns in Hv.
  destruct (ci_log _ _ _ _ Hi ns Hv) as (Hns & Hlen & new & Hnew & _). destruct (jobs_ok _ _ _ _ Hj) as [He Hp].
  destruct (stage_step_post ns e p me (meta ns) (log ns) (cc_acks s) st (cc_world s) w' st') as (m' & l' & Hl' & H1 & H2 & H3); try done.
  - specialize (Hn ns). lia.
  - rewrite Hnew. unfold lenZ. rewrite length_app. lia.
  - intros tid' seq Hin E. destruct (ci_acks _ _ _ _ Hi _ _ Hin) as (e' & _ & _ & _ & Hpos & Hlk). rewrite E in Hlk.
    apply lookup_lt_Some in Hlk. unfold lenZ in *. lia.
  - by eapply (ci_know _ _ _ _ Hi).
  - exists (upd meta ns m'), (upd log ns (log ns ++ l')). apply (conc_inv_update n s meta log tid); try done.
    + destruct Hl' as [->| ->]; unfold lenZ; cbn; lia.
    + destruct Hl' as [->| ->]; constructor; [|constructor]. exists tid, p, me. rewrite <- Hj. by destruct (job tid).
    + intros tid' Hne. by rewrite lookup_insert_ne.
    + intros st1 e1 p1 me1. rewrite lookup_insert_eq. intros [= <-] Hj1. rewrite Hj in Hj1. by injection Hj1 as <- <- <-.
Qed.

Lemma inv_other n s meta log w' :
  conc_inv n s meta log ->
  (forall ns k, validate_namespace_name ns = Ok tt -> wal_keys ns k -> objects w' !! k = objects (cc_world s) !! k) ->
  conc_inv (Datatypes.S n) (mkConc (cc_lock s) w' (cc_stage s) (cc_acks s)) meta log.
Proof.
  intros [I1 I2 I3 I4 I5 I6 I7] Hf. split; cbn; try done.
  - intros ns Hv. apply log_ok_mono. eapply log_ok_frame; [|by apply I4]. intros k. by apply Hf.
  - intros tid st e p me H Hj. eapply stage_ok_frame; [|by eapply I5]. intros k. by apply Hf.
Qed.

Lemma inv_release n s meta log tid ls out :
  conc_inv n s meta log -> finished (job tid).2 (cc_stage s !! tid) = Some out -> lock_step (LRelease tid) (cc_lock s) ls ->
  conc_inv (Datatypes.S n) (mkConc ls (cc_world s) (delete tid (cc_stage s))
    (cc_acks s ++ match out with Some seq => [(tid, seq)] | None => [] end)) meta log.
Proof.
  intros Hi Hf Hs. pose proof Hi as [I1 I2 I3 I4 I5 I6 I7].
  assert (forall seq, out = Some seq -> exists e p me, (job tid).2 = JAppend e p me /\
    holds_lock job s tid /\ stage_ok (objects (cc_world s)) (cc_acks s) (job tid).1 e (meta (job tid).1) (log (job tid).1) (StDone (Ok seq))) as Hack.
  { intros seq ->. destruct (job tid).2 as [e p me|] eqn:Hj; [|done].
    destruct (cc_stage s !! tid) as [[| | |[seq'|]]|] eqn:Hst; try done. injection Hf as ->. exists e, p, me.
    split; [done|]. split; [by eapply I3|by eapply I5]. }
  split; cbn.
  - by eapply lock_step_inv.
  - intros tid' ns p H. destruct (lock_step_origin _ _ _ _ _ _ Hs H) as [?|[p' H']]; [done|by eapply I2].
  - intros tid' st H. apply lookup_delete_Some in H as [Hne H]. destruct (I3 tid' st H) as [l Hl]. exists l.
    eapply lock_step_committing; [done| |done]. congruence.
  - intros ns Hv. by apply log_ok_mono, I4.
  - intros tid' st e p me H Hj. apply lookup_delete_Some in H as [Hne H]. pose proof (I5 _ _ _ _ _ H Hj) as Hk.
    destruct st as [| | |[seq|]]; try done. destruct Hk as (K1 & K2 & K3). split_and!; [done..|].
    intros tid1 [Hin|Hin]%elem_of_app; [by apply K3|]. destruct out as [seq1|]; [|by apply not_elem_of_nil in Hin].
    apply list_elem_of_singleton in Hin as [= -> <-]. intros E. destruct (Hack seq eq_refl) as (_ & _ & _ & _ & [l1 H1] & _).
    destruct (I3 _ _ H) as [l2 H2]. rewrite E in H1. by eapply Hne, committing_unique.
  - intros tid' seq [Hin|Hin]%elem_of_app; [by apply I6|]. destruct out as [seq1|]; [|by apply not_elem_of_nil in Hin].
    apply list_elem_of_singleton in Hin as [= -> ->]. destruct (Hack seq1 eq_refl) as (e & p & me & Hj & _ & K1 & K2 & _).
    by exists e, p, me.
  - rewrite fmap_app. apply NoDup_app. split; [done|]. split; [|destruct out; cbn; [apply NoDup_singleton|constructor]].
    intros a Ha Hin. destruct out as [seq|]; cbn in Hin; [|by apply not_elem_of_nil in Hin].
    apply list_elem_of_singleton in Hin as ->. apply list_elem_of_fmap in Ha as ([tid1 seq1] & E & Hin1).
    unfold ack_slot in E. cbn in E. injection E as E1 E2. subst seq1. destruct (Hack seq eq_refl) as (_ & _ & _ & _ & _ & _ & _ & K3).
    by apply (K3 tid1 Hin1).
Qed.

Lemma conc_step_inv n s s' meta log :
  (forall ns, lenZ (log0 ns) + Z.of_nat n < u64_max) ->
  conc_inv n s meta log -> conc_step job s s' -> misled (cc_world s') = false -> exists meta' log', conc_inv (Datatypes.S n) s' meta' log'.
Proof.
  intros Hn Hi Hs Hclean. destruct Hs as [s tid ls Hs|s tid ls Hs|s tid ls Hs|s tid ls Hs|s tid e p me st w' st' Hh Hj Hst Hstep
    |s tid w' Hh Hj Hm Ho|s w' Ho|s tid ls out Hf Hs].
  - exists meta, log. eapply conc_inv_lock; try done. by intros ? ? [= -> <-].
  - exists meta, log. by eapply conc_inv_lock.
  - exists meta, log. by eapply conc_inv_lock.
  - exists meta, log. pose proof (conc_inv_lock _ _ _ _ _ _ Hi Hs ltac:(done) ltac:(done)) as [I1 I2 I3 I4 I5 I6 I7].
    split; cbn in *; try done.
    + intros tid' st H. apply lookup_insert_Some in H as [[<- <-]|[_ H]]; [|by eapply I3]. unfold holds_lock. cbn.
      inversion Hs as [| | | |? t ns l Ht Hl|]; subst; cbn. exists l. rewrite lookup_insert_eq.
      by rewrite (ci_job _ _ _ _ Hi _ _ _ Ht).
    + intros tid' st e p me H Hj. apply lookup_insert_Some in H as [[<- <-]|[_ H]]; [done|by eapply I5].
  - by eapply inv_run.
  - pose proof (jobs_valid tid) as Hv. destruct (ci_log _ _ _ _ Hi _ Hv) as (Hns & Hlen & _).
    assert (lenZ (log (job tid).1) < u64_max) as Hlt by (specialize (Hn (job tid).1); lia).
    destruct (Hm _ _ Hlt Hns) as [m' Hm'].
    exists (upd meta (job tid).1 m'), (upd log (job tid).1 (log (job tid).1 ++ [])). apply (conc_inv_update n s meta log tid); try done.
    + by rewrite app_nil_r.
    + intros st e p me _ Hj'. congruence.
  - exists meta, log. by apply inv_other.
  - exists meta, log. by apply inv_release.
Qed.

Hypothesis initial_state : forall ns, validate_namespace_name ns = Ok tt -> ns_state (objects w0) ns (meta0 ns) (log0 ns).

Lemma conc_reach_inv n s :
  conc_reach job w0 n s -> (forall ns, lenZ (log0 ns) + Z.of_nat n < u64_max) -> exists meta log, conc_inv n s meta log.
Proof.
  induction 1 as [|n s s' _ IH Hs Hclean]; intros Hn.
  - exists meta0, log0. split; cbn; try (intros ? ? ? E; by rewrite lookup_empty in E); try done.
    + apply lock_init_inv.
    + intros ns Hv. split; [by apply initial_state|]. split; [lia|]. exists []. by rewrite app_nil_r.
    + intros tid seq H. by apply not_elem_of_nil in H.
    + constructor.
  - destruct IH as (meta & log & Hi); [intros ns; specialize (Hn ns); lia|]. eapply conc_step_inv; [|done|done|done].
    intros ns. specialize (Hn ns). lia.
Qed.
End Interleaving.

(** A compaction is such maintenance: it changes only the log objects of its
    namespace, and not the log. *)
Lemma compaction_maintains {IO : IterOrder} {WC : WalCodec} {MC : MetaCodec} {ML : MetaCodecLaws} {S : ObjectStore}
    {SL : StoreLaws} {MO : Monitor} {LC : LocalCache} {LL : LocalCacheLaws} {CM : CacheMonitor} {CR : CachedReads} {CL : CachedReadsLaws}
    policy ns (w : World) :
  validate_namespace_name ns = Ok tt -> cache_inv w ->
  (forall d b, snapshot_to_vec d = Some b -> snapshot_from_slice b = Some d) ->
  let w' := (maybe_compact_wal policy ns w).1 in
  misled w' = false ->
  (forall m log, lenZ log < u64_max -> ns_state (objects w) ns m log -> exists m', ns_state (objects w') ns m' log) /\
  others_same ns (objects w) (objects w').
Proof.
  intros Hv Hw Hex w' Hclean. split.
  - intros m log Hl Hst. pose proof (maybe_compact_keeps (S := recognised S) (LL := recognised_cache_laws LL) policy ns m log w Hl Hst ltac:(intros; by apply Hex)) as H.
    pose proof (proj2 (agree_compact policy ns w) Hclean) as E. rewrite <- E in H.
    unfold w'. destruct (maybe_compact_wal policy ns w) as [w1 r]. destruct H as (m' & H & _). by exists m'.
  - intros ns' k Hv' Hne Hk. pose proof (confined_compact policy ns w Hw) as H. unfold st_post in H. unfold w'.
    destruct (maybe_compact_wal policy ns w) as [w1 r]. destruct H as [_ H]. apply H. intros Hk'.
    assert (forall n, wal_keys n k -> exists o, k = object_key n o) as Hobj.
    { intros n [->|[->|(q & ->)]]; [by exists OMeta|by exists OSnapshot|by exists (OWal q)]. }
    destruct (Hobj _ Hk) as [o ->]. destruct (Hobj _ Hk') as [o' E]. by eapply keys_disjoint in E.
Qed.

(** ** Theorem *)

(** C5: appends of one process do not lose each other's commits.  The tasks of a
    process run stage by stage in any order, with maintenance of the log under
    the lock, writes of other objects without it, and failing requests, as long
    as no read of an existing [meta.json] is answered by an error taken for its
    absence (see [unhandled_error_loses_commit]).
    In every state reached, each namespace has a log that is the initial one
    followed by submitted entries; every acknowledged append is in it at its
    sequence number, and no two acknowledgements name the same place.  Without
    the lock this fails (see [two_instances_lose_commit]). *)
Theorem interleaved_commits_kept {IO : IterOrder} {WC : WalCodec} {WL : WalCodecLaws} {MC : MetaCodec} {ML : MetaCodecLaws}
    {S : ObjectStore} {SL : StoreLaws} {MO : Monitor} job w0 meta0 log0 n s :
  (forall tid, validate_namespace_name (job tid).1 = Ok tt) ->
  (forall tid e p me, (job tid).2 = JAppend e p me -> entry_ok e = true /\ schema_exact p) ->
  (forall ns, validate_namespace_name ns = Ok tt -> ns_state (objects w0) ns (meta0 ns) (log0 ns)) ->
  (forall ns, lenZ (log0 ns) + Z.of_nat n < u64_max) ->
  conc_reach job w0 n s ->
  exists log,
    (forall ns, validate_namespace_name ns = Ok tt -> exists m new,
       ns_state (objects (cc_world s)) ns m (log ns) /\ log ns = log0 ns ++ new /\ Forall (submitted job ns) new) /\
    (forall tid seq, (tid, seq) ∈ cc_acks s -> exists e p me,
       (job tid).2 = JAppend e p me /\ lenZ (log0 (job tid).1) < seq /\ log (job tid).1 !! Z.to_nat (seq - 1) = Some e) /\
    NoDup (ack_slot job <$> cc_acks s).
Proof.
  intros Hv Hok Hinit Hn Hr. destruct (conc_reach_inv job w0 meta0 log0 Hv Hok Hinit n s Hr Hn) as (meta & log & Hi).
  exists log. split_and!; [|exact (ci_acks _ _ _ _ _ _ Hi)|exact (ci_slots _ _ _ _ _ _ Hi)].
  intros ns Hns. destruct (ci_log _ _ _ _ _ _ Hi ns Hns) as (H1 & _ & new & H2 & H3). by exists (meta ns), new.
Qed.

(** Two appends to one namespace and one to another.  The second finds the lock
    taken; the third runs between the stages of the first. *)
Definition three_jobs (tid : positive) : string * Job :=
  match tid with
  | 1%positive => ("ns", JAppend (put_entry "a") None None)
  | 2%positive => ("ns", JAppend (put_entry "b") None None)
  | _ => ("other", JAppend (put_entry "c") None None)
  end.

Ltac conc_advance H step :=
  let H' := fresh in
  eassert (conc_reach three_jobs _ _ _) as H' by (eapply conc_reach_step; [exact H|step|reflexivity]);
  clear H; rename H' into H; cbn [cc_lock cc_world cc_stage cc_acks table commits_of holder] in H.

Ltac conc_begin H t := conc_advance H ltac:(eapply conc_start with (tid := t); apply step_start; reflexivity).
Ltac conc_absent H t := conc_advance H ltac:(eapply conc_lookup with (tid := t); eapply step_absent; reflexivity).
Ltac conc_create H t := conc_advance H ltac:(eapply conc_insert with (tid := t); eapply step_insert; reflexivity).
Ltac conc_take H t := conc_advance H ltac:(eapply conc_acquire with (tid := t); eapply step_acquire; reflexivity).
Ltac conc_stage H t :=
  conc_advance H ltac:(eapply conc_run with (tid := t); [eexists; reflexivity|reflexivity|reflexivity|vm_compute; reflexivity]).
Ltac conc_finish H t :=
  conc_advance H ltac:(eapply conc_release with (tid := t); [reflexivity|eapply step_release; reflexivity]).

Lemma three_reachable :
  exists s, @conc_reach canonical_order demo_codec demo_metas calm_store three_jobs (mkMem ∅ 0 []) calm_monitor 24 s /\
    cc_acks s = [(3%positive, 1); (1%positive, 1); (2%positive, 2)].
Proof.
  pose proof (@conc_reach_start canonical_order demo_codec demo_metas calm_store three_jobs (mkMem ∅ 0 []) calm_monitor) as H.
  conc_begin H 1%positive.
  conc_begin H 2%positive.
  conc_absent H 1%positive.
  conc_absent H 2%positive.
  conc_create H 1%positive.
  conc_create H 2%positive.
  conc_take H 1%positive.
  conc_stage H 1%positive. conc_stage H 1%positive.
  conc_begin H 3%positive.
  conc_absent H 3%positive.
  conc_create H 3%positive.
  conc_take H 3%positive.
  conc_stage H 3%positive. conc_stage H 3%positive. conc_stage H 3%positive. conc_finish H 3%positive.
  conc_stage H 1%positive. conc_finish H 1%positive.
  conc_take H 2%positive.
  conc_stage H 2%positive. conc_stage H 2%positive. conc_stage H 2%positive. conc_finish H 2%positive.
  eexists. split; [exact H|reflexivity].
Qed.

Lemma interleaved_commits_kept_witness :
  exists s log,
    cc_acks s = [(3%positive, 1); (1%positive, 1); (2%positive, 2)] /\
    (exists m new, @ns_state canonical_order demo_codec demo_metas (@objects calm_store (cc_world s)) "ns" m (log "ns") /\
       log "ns" = [] ++ new /\ Forall (submitted three_jobs "ns") new) /\
    log "ns" !! 0%nat = Some (put_entry "a") /\ log "ns" !! 1%nat = Some (put_entry "b").
Proof.
  destruct three_reachable as (s & Hr & Ha). exists s.
  destruct (@interleaved_commits_kept canonical_order demo_codec (table_codec_laws _ _ _) demo_metas (meta_table_laws _)
    calm_store calm_store_laws calm_monitor three_jobs (mkMem ∅ 0 []) (fun _ => default_meta) (fun _ => []) 24 s) as (log & H1 & H2 & _).
  - intros [p|p|]; [destruct p; reflexivity..|reflexivity].
  - intros [[p|p|]|[p|p|]|] e pa me; cbn; intros [= <- <- <-]; (split; [vm_compute; reflexivity|by intros ? [=]]).
  - intros ns _. apply ns_state_empty; reflexivity.
  - intros ns. reflexivity.
  - exact Hr.
  - exists log. rewrite Ha in H2 |- *. split; [reflexivity|]. split; [by apply H1|].
    destruct (H2 1%positive 1 ltac:(set_solver)) as (e1 & ? & ? & [= <- _ _] & _ & K1).
    destruct (H2 2%positive 2 ltac:(set_solver)) as (e2 & ? & ? & [= <- _ _] & _ & K2). by split.
Defined.
