(* ===== verification/Health.v ===== *)
(** * Health and readiness ([health.rs], the probes of [api.rs])

    Three requests, each of which must succeed: the bucket, a listing of the
    namespaces, and the metadata of the first one as a canary. *)

From Stdlib Require Import ZArith Lia Bool Ascii.
From stdpp Require Import base gmap strings list.
From S2P Require Import Prelude F64 Json Models Keys Schema Meta Wal WalReplay ObjectStore Namespace Durability FilterIndex Search Indexer ColdFetch Storage CloneSpec Api.

Inductive HealthError : Type :=
| HeadBucketFailed (e : S3Error)
| ListFailed (e : S3Error)
| NoCommonPrefix
| PrefixNotParsed
| CanaryFailed (key : string) (e : option S3Error).

(** [HeadBucket], and one page of common prefixes of at most so many entries. *)
Class HealthOps {S : ObjectStore} : Type := {
  head_bucket : World -> World * result S3Error unit;
  list_common_prefixes : World -> string -> Z -> World * result S3Error (list (option string))
}.

Inductive HealthStatus : Type := HealthOk | HealthDegraded.

(** [HealthResponse]. *)
Record HealthResponse : Type := mkHealth {
  hr_status : HealthStatus;
  hr_s3 : option bool;
  hr_deep : option bool
}.

(** [strip_prefix], [strip_suffix] and [filter] of the first common prefix. *)
Definition canary_name (prefix : string) : option string :=
  s ← strip_prefix ROOT_PREFIX prefix;
  s ← strip_suffix_slash s;
  if bool_decide (s = "") then None else Some s.

Section Probe.
Context {S : ObjectStore} {BO : BucketOps} {HO : HealthOps}.

Definition probe_s3_storage : St HealthError unit :=
  do? b <- st_lift head_bucket;
  do? _ <- st_result (map_err HeadBucketFailed b);
  do? l <- st_lift (fun w => list_common_prefixes w ROOT_PREFIX 10);
  do? prefixes <- st_result (map_err ListFailed l);
  match prefixes with
  | [] => st_ret tt
  | cp :: _ =>
      do? prefix <- st_result (ok_or cp NoCommonPrefix);
      do? name <- st_result (ok_or (canary_name prefix) PrefixNotParsed);
      do? out <- st_lift (fun w => bucket_head w (meta_key name));
      match out with
      | HeadFound _ => st_ret tt
      | HeadNotFound => st_err (CanaryFailed (meta_key name) None)
      | HeadErr e => st_err (CanaryFailed (meta_key name) (Some e))
      end
  end.

Definition health (deep : option Z) : World -> World * (StatusCode * HealthResponse) := fun w =>
  if bool_decide (deep = Some 1) then
    let '(w', r) := probe_s3_storage w in
    (w', match r with
         | Ok _ => (OK_200, mkHealth HealthOk (Some true) (Some true))
         | Err _ => (SERVICE_UNAVAILABLE, mkHealth HealthDegraded (Some false) (Some true))
         end)
  else (w, (OK_200, mkHealth HealthOk None None)).

(** The status and the [ready] flag. *)
Definition ready : World -> World * (StatusCode * bool) := fun w =>
  let '(w', r) := probe_s3_storage w in
  (w', match r with Ok _ => (OK_200, true) | Err _ => (SERVICE_UNAVAILABLE, false) end).
End Probe.

(** ** What the listing answers *)

(** [first_namespace] is the first directory below the root: that of some key,
    and there is one when there is a key in a directory. *)
Class HealthLaws {S : ObjectStore} {HO : HealthOps} : Type := {
  first_namespace : Objects -> option string;
  head_bucket_keeps w : objects (head_bucket w).1 = objects w;
  list_prefixes_keeps w n : objects (list_common_prefixes w ROOT_PREFIX n).1 = objects w;
  list_prefixes_first w n page : 0 < n -> (list_common_prefixes w ROOT_PREFIX n).2 = Ok page ->
    head page = Some ∘ namespace_prefix <$> first_namespace (objects w);
  first_namespace_has objs s : first_namespace objs = Some s -> namespace_has objs s;
  first_namespace_none objs ns : first_namespace objs = None -> ~ namespace_has objs ns
}.

(** No request of the probe fails. *)
Class HealthReliable {S : ObjectStore} {BO : BucketOps} {HO : HealthOps} : Prop := {
  head_bucket_ok w : (head_bucket w).2 = Ok tt;
  list_prefixes_ok w n : is_ok (list_common_prefixes w ROOT_PREFIX n).2 = true;
  bucket_head_ok w k e : (bucket_head w k).2 <> HeadErr e
}.

Lemma list_ascii_app a b :
  String.list_ascii_of_string (String.append a b) = String.list_ascii_of_string a ++ String.list_ascii_of_string b.
Proof. induction a as [|c a IH]; [done|]. rewrite str_app_cons. cbn. by rewrite IH. Qed.

Lemma strip_suffix_slash_app s : strip_suffix_slash (String.append s "/") = Some s.
Proof.
  unfold strip_suffix_slash. rewrite list_ascii_app, reverse_app. change (reverse (String.list_ascii_of_string "/")) with ["/"%char].
  cbn [app]. rewrite Ascii.eqb_refl, reverse_involutive.
  by rewrite String.string_of_list_ascii_of_string.
Qed.

Lemma canary_name_prefix s : canary_name (namespace_prefix s) = if bool_decide (s = "") then None else Some s.
Proof.
  unfold canary_name, namespace_prefix. rewrite strip_prefix_app. cbn [mbind option_bind].
  by rewrite strip_suffix_slash_app.
Qed.

Section Ready.
Context {S : ObjectStore} {BO : BucketOps} {BL : BucketLaws} {HO : HealthOps} {HL : HealthLaws} {HR : HealthReliable}.

Definition canary_present (objs : Objects) : Prop :=
  match first_namespace objs with None => True | Some s => s <> "" /\ is_Some (objs !! meta_key s) end.

Lemma probe_spec w :
  objects (probe_s3_storage w).1 = objects w /\ (is_ok (probe_s3_storage w).2 = true <-> canary_present (objects w)).
Proof.
  unfold probe_s3_storage, st_bind, st_lift, st_result, canary_present.
  pose proof (head_bucket_keeps w) as Hk. pose proof (head_bucket_ok w) as Ho. destruct (head_bucket w) as [w1 r1].
  cbn in Hk, Ho. subst r1. cbn -[canary_name]. pose proof (list_prefixes_keeps w1 10) as Hk2. pose proof (list_prefixes_ok w1 10) as Ho2.
  pose proof (list_prefixes_first w1 10) as Hf. destruct (list_common_prefixes w1 ROOT_PREFIX 10) as [w2 [page|]]; [|done].
  cbn -[canary_name] in Hk2, Hf |- *. specialize (Hf page eq_refl eq_refl). rewrite Hk in Hf.
  destruct (first_namespace (objects w)) as [s|], page as [|cp page]; cbn in Hf; try done.
  - injection Hf as ->. cbn [ok_or]. rewrite canary_name_prefix. case_bool_decide as He.
    + subst. cbn. split; [congruence|]. split; [done|]. by intros [? _].
    + cbn. pose proof (bucket_head_keeps w2 (meta_key s)) as Hk3. pose proof (bucket_head_found w2 (meta_key s)) as Hf3.
      pose proof (bucket_head_absent w2 (meta_key s)) as Ha3. pose proof (bucket_head_ok w2 (meta_key s)) as Hr3.
      destruct (bucket_head w2 (meta_key s)) as [w3 [n| |e]]; cbn in *; [| |by destruct (Hr3 e)].
      * split; [congruence|]. split; [|done]. intros _. split; [done|]. rewrite <- Hk, <- Hk2. by apply (Hf3 n).
      * split; [congruence|]. split; [done|]. intros [_ H]. rewrite <- Hk, <- Hk2, Ha3 in H by done. by destruct H.
  - cbn. split; [congruence|done].
Qed.
End Ready.

(** ** A store with these requests *)

(** The directory of a key below the root. *)
Definition key_dir (k : string) : option string :=
  s ← strip_prefix ROOT_PREFIX k; fst <$> split_once "/"%char s.

Definition calm_health : @HealthOps calm_store :=
  @Build_HealthOps calm_store
    (fun w : MemWorld => (w, Ok tt))
    (fun (w : MemWorld) _ n =>
      (w, Ok (take (Z.to_nat n) (Some ∘ namespace_prefix <$> sort_dedup (omap key_dir (map_to_list (mem_objects w)).*1))))).

Lemma strip_prefix_inv p k r : strip_prefix p k = Some r -> k = String.append p r.
Proof.
  revert k. induction p as [|a p IH]; intros k; [by intros [= ->]|]. destruct k as [|b k]; cbn; [done|].
  destruct (Ascii.eqb_spec a b) as [->|]; [|done]. intros H. by rewrite str_app_cons, (IH k H).
Qed.

Lemma split_once_inv c s a b : split_once c s = Some (a, b) -> s = String.append a (String c b).
Proof.
  revert a b. induction s as [|d s IH]; intros a b; cbn; [done|]. destruct (Ascii.eqb_spec c d) as [->|].
  - by intros [= <- <-].
  - destruct (split_once c s) as [[a' b']|]; [|done]. intros [= <- <-]. by rewrite (IH a' b').
Qed.

Lemma split_once_some c a b : is_Some (split_once c (String.append a (String c b))).
Proof.
  induction a as [|d a [[a' b'] IH]].
  - change (is_Some (split_once c (String c b))). cbn. rewrite Ascii.eqb_refl. by eexists.
  - rewrite str_app_cons. cbn. destruct (Ascii.eqb c d); [by eexists|]. rewrite IH. by eexists.
Qed.

Lemma key_dir_prefix k s : key_dir k = Some s -> String.prefix (namespace_prefix s) k = true.
Proof.
  unfold key_dir. rewrite prefix_app_iff. destruct (strip_prefix ROOT_PREFIX k) as [r|] eqn:Hr; [|done]. cbn.
  destruct (split_once "/"%char r) as [[a b]|] eqn:Hs; [|done].
  intros [= <-]. apply strip_prefix_inv in Hr as ->. apply split_once_inv in Hs as ->. exists b.
  unfold namespace_prefix. by rewrite !str_app_assoc.
Qed.

Lemma prefix_key_dir k ns : String.prefix (namespace_prefix ns) k = true -> is_Some (key_dir k).
Proof.
  rewrite prefix_app_iff. intros [b ->]. unfold key_dir, namespace_prefix. rewrite !str_app_assoc, strip_prefix_app.
  cbn [mbind option_bind]. change (String.append "/" b) with (String "/"%char b).
  destruct (split_once_some "/"%char ns b) as [ab ->]. by eexists.
Qed.

Definition calm_first (objs : Objects) : option string := head (sort_by str_cmp (omap key_dir (map_to_list objs).*1)).

Lemma head_dedup {A} `{EqDecision A} (l : list A) : head (dedup l) = head l.
Proof. induction l as [|x [|y l] IH]; [done|done|]. cbn in *. destruct (decide _) as [->|]; [|done]. exact IH. Qed.

#[export] Instance calm_health_laws : @HealthLaws calm_store calm_health.
Proof.
  refine {| first_namespace := (calm_first : @gmap _ _ _ _ -> _) |}; cbn.
  - done.
  - done.
  - intros w n page Hn [= <-]. unfold sort_dedup, calm_first. rewrite <- (head_dedup (sort_by str_cmp _)).
    destruct (Z.to_nat n) as [|n'] eqn:En; [lia|]. by destruct (dedup _).
  - intros objs s H. apply head_Some_elem_of, elem_of_sort_by, list_elem_of_omap in H as (k & Hk & Hs).
    apply list_elem_of_fmap in Hk as ([k' o] & -> & Hk). apply elem_of_map_to_list in Hk. exists k'.
    split; [by apply key_dir_prefix|by eexists].
  - intros objs ns H (k & Hp & o & Ho). apply prefix_key_dir in Hp as [s Hs].
    assert (s ∈ sort_by str_cmp (omap key_dir (map_to_list objs).*1)) as Hin.
    { apply elem_of_sort_by, list_elem_of_omap. exists k. split; [|done]. apply list_elem_of_fmap. exists (k, o). split; [done|].
      by apply elem_of_map_to_list. }
    unfold calm_first in H. apply head_None in H. rewrite H in Hin. by apply not_elem_of_nil in Hin.
Defined.

#[export] Instance calm_health_reliable : @HealthReliable calm_store calm_bucket calm_health.
Proof. split; [done|done|]. intros w k e. cbn. by destruct (mem_objects w !! k) as [[b t]|]. Qed.

(** ** Theorems *)

(** when no request fails, the process is ready exactly when the first
    namespace of the listing has metadata; in particular it is ready when every
    namespace that has an object has metadata.  The probe writes nothing, and
    the deep health answer agrees with the readiness answer. *)
Theorem ready_exact {S : ObjectStore} {BO : BucketOps} {BL : BucketLaws} {HO : HealthOps} {HL : HealthLaws}
    {HR : HealthReliable} (w : World) :
  let '(w', (status, ok)) := ready w in
  objects w' = objects w /\ (ok = true <-> canary_present (objects w)) /\
  status = (if ok then OK_200 else SERVICE_UNAVAILABLE) /\ (health (Some 1) w).2.1 = status /\
  ((forall s, namespace_has (objects w) s -> s <> "" /\ is_Some (objects w !! meta_key s)) -> ok = true).
Proof.
  pose proof (probe_spec w) as [Hk Hp]. unfold ready, health. rewrite bool_decide_eq_true_2 by done.
  assert ((forall s, namespace_has (objects w) s -> s <> "" /\ is_Some (objects w !! meta_key s)) -> canary_present (objects w)) as Hc.
  { intros Hall. unfold canary_present. destruct (first_namespace (objects w)) as [s|] eqn:Hs; [|done].
    by apply Hall, first_namespace_has. }
  destruct (probe_s3_storage w) as [w' [[]|e]]; cbn in Hk, Hp |- *; (split_and!; [done|exact Hp|done|done|]);
    intros H; apply Hp; by apply Hc.
Qed.

(** an interrupted first write makes the process not ready.  A write to a
    new namespace whose metadata request is lost leaves its segment; from then
    on the readiness probe answers 503 although no request fails, while the
    other namespace can be written. *)
Theorem orphan_segment_not_ready :
  let faulty := mkMem (mem_objects demo_world) 3 [NoFault; NoFault; FailLost (mkS3Error false (Some "Timeout") "timeout")] in
  let '(w1, r1) := @append_wal demo_codec demo_metas mem_store "new" (put_entry "a") None None faulty in
  let '(w2, r2) := @append_wal demo_codec demo_metas calm_store "ns" (put_entry "b") None None w1 in
  is_ok r1 = false /\ is_ok r2 = true /\
  (@ready calm_store calm_bucket calm_health demo_world).2 = (OK_200, true) /\
  (@ready calm_store calm_bucket calm_health w1).2 = (SERVICE_UNAVAILABLE, false) /\
  (@ready calm_store calm_bucket calm_health w2).2 = (SERVICE_UNAVAILABLE, false).
Proof. vm_compute. split_and!; reflexivity. Qed.
