(* ===== verification/Serve.v ===== *)
(** * The process: configuration and start ([config.rs], [main.rs])

    Command-line arguments, with their environment variables and defaults
    already resolved, become the configuration; the configuration builds the
    state the other components start from. *)

From Stdlib Require Import ZArith Lia Bool Ascii.
From stdpp Require Import base gmap strings list.
From S2P Require Import Prelude F64 Json Models Filter Keys Schema Meta Wal WalReplay ObjectStore Namespace Durability FilterIndex View ViewCache Buffer Vector VectorBuild Cache Indexer ColdFetch Storage StorageSpec Api.

(** ** Configuration *)

(** The credentials, which only the S3 client uses, are left out. *)
Record ServeArgs : Type := mkServeArgs {
  sa_listen : string;
  sa_s3_endpoint : string;
  sa_s3_bucket : string;
  sa_s3_region : string;
  sa_cache_dir : string;
  sa_max_pinned_namespaces : Z;
  sa_write_max_delay_ms : Z;
  sa_write_max_batch_ops : Z;
  sa_max_upsert_rows : Z;
  sa_max_filter_batch_rows : Z;
  sa_ann_coarse_probe : Z;
  sa_ann_fine_probe : Z;
  sa_ann_version : Z;
  sa_wal_corrupt_policy : string;
  sa_ann_rerank : bool
}.

(** The defaults of the arguments that have one. *)
Definition default_args (endpoint bucket : string) : ServeArgs :=
  mkServeArgs "0.0.0.0:8080" endpoint bucket "us-east-1" "/tmp/openpuffer-cache" 32 1000 512 10000 5000
    DEFAULT_PROBE_COARSE DEFAULT_PROBE_FINE ANN_VERSION_V2 "fail" false.

Record AppConfig : Type := mkAppConfig {
  ac_listen : string;
  ac_bucket : string;
  ac_cache_dir : option string;
  ac_max_pinned_namespaces : Z;
  ac_write_buffer : WriteBufferConfig;
  ac_limits : LimitsConfig;
  ac_ann_probes : Z * Z;
  ac_ann_build : AnnBuildConfig;
  ac_ann_rerank : bool;
  ac_wal_corrupt_policy : WalCorruptPolicy
}.

Definition limits_default : LimitsConfig := mkLimits DEFAULT_MAX_UPSERT_ROWS DEFAULT_MAX_FILTER_BATCH_ROWS.

Definition ann_version_from_env (var : option string) : Z :=
  if bool_decide (str_trim <$> var = Some "3") then ANN_VERSION_V3 else ANN_VERSION_V2.

Definition build_from_probes (var : option string) (probes : Z * Z) : AnnBuildConfig :=
  mkBuild probes.1 probes.2 (ann_version_from_env var).

Definition build_default (var : option string) : AnnBuildConfig :=
  build_from_probes var (DEFAULT_PROBE_COARSE, DEFAULT_PROBE_FINE).

Definition with_ann_version (v : Z) (b : AnnBuildConfig) : AnnBuildConfig :=
  mkBuild (ab_probe_coarse b) (ab_probe_fine b) v.

(** The commit interval is the flush delay. *)
Definition write_buffer_config (args : ServeArgs) : WriteBufferConfig :=
  mkConfig (sa_write_max_delay_ms args) (sa_write_max_batch_ops args) (sa_write_max_delay_ms args).

Definition app_config (args : ServeArgs) : AppConfig :=
  let dir := str_trim (sa_cache_dir args) in
  let cache_dir := if String.eqb dir "" then None else Some dir in
  let probes := (Z.max (sa_ann_coarse_probe args) 1, Z.max (sa_ann_fine_probe args) 1) in
  mkAppConfig (sa_listen args) (sa_s3_bucket args) cache_dir (sa_max_pinned_namespaces args) (write_buffer_config args)
    (mkLimits (sa_max_upsert_rows args) (sa_max_filter_batch_rows args)) probes
    (mkBuild probes.1 probes.2 (sa_ann_version args)) (sa_ann_rerank args) (from_env_str (sa_wal_corrupt_policy args)).

(** ** Start *)

(** [SegmentCache::from_optional], and whether the cache is enabled. *)
Definition cache_root (root : option string) : option string :=
  match root with
  | Some p => if String.eqb p "" then None else Some p
  | None => None
  end.

Definition cache_is_enabled (root : option string) : bool := bool_decide (is_Some root).

Section Start.
Context {S : ObjectStore}.

(** [Storage::new]: no view, no queued write, no cached listing. *)
Definition storage_new (max_pinned_namespaces now : Z) (w : World) : Storage :=
  mkStorage (manager_new now w) (vc_new max_pinned_namespaces) (list_cache_new DEFAULT_NAMESPACE_LIST_TTL).

(** The state [serve] hands to the router, and the empty queue of the indexer
    that [Storage::new] spawns. *)
Definition serve (args : ServeArgs) (now : Z) (w : World) : Storage * BackgroundIndexer :=
  (storage_new (ac_max_pinned_namespaces (app_config args)) now w, mkIndexer [] ∅).
End Start.

(** ** The limit on bodies *)

Definition MAX_WRITE_BODY_BYTES : Z := 64 * 1024 * 1024.

(** [str::parse::<usize>] on a 64-bit machine. *)
Definition parse_usize (s : string) : option Z :=
  let digits := match s with String "+"%char s' => s' | _ => s end in
  if String.eqb digits "" then None
  else if negb (str_forallb (fun c => in_range c 48 57) digits) then None
  else let n := undec 0 digits in if u64_max <? n then None else Some n.

(** The [Content-Length] of a request, when it is a readable header value. *)
Definition reject_oversized_write_body (content_length : option string) : result (StatusCode * ApiError) unit :=
  match content_length with
  | Some s =>
      match parse_usize s with
      | Some n =>
          if MAX_WRITE_BODY_BYTES <? n
          then reject (ApiMessage (String.append "request body exceeds maximum write size of "
                 (String.append (dec (MAX_WRITE_BODY_BYTES / (1024 * 1024))) " MiB")))
          else Ok tt
      | None => Ok tt
      end
  | None => Ok tt
  end.

(** ** Theorem *)

(** a process starts in a state the other components' theorems assume.  For
    any arguments the probe widths are at least one, flushes are as far apart as
    their delay, and the disk cache is off exactly when its directory is blank;
    the state is an initial state of the write buffer, its view cache is
    well-formed and holds no view that could be stale, no listing is cached and
    nothing is queued for the indexer. *)
Theorem serve_start {IO : IterOrder} {WC : WalCodec} {MC : MetaCodec} {S : ObjectStore} args now (w : World) :
  let c := app_config args in
  let '(sg, indexer) := serve args now w in
  1 <= ab_probe_coarse (ac_ann_build c) /\ 1 <= ab_probe_fine (ac_ann_build c) /\
  ac_ann_probes c = (ab_probe_coarse (ac_ann_build c), ab_probe_fine (ac_ann_build c)) /\
  min_commit_interval (ac_write_buffer c) = max_delay (ac_write_buffer c) /\
  (cache_is_enabled (cache_root (ac_cache_dir c)) = false <-> str_trim (sa_cache_dir args) = "") /\
  reachable (ac_write_buffer c) w now 0 (sg_buffer sg) /\
  vc_wf (sg_views sg) /\ (forall ns log, views_ok sg ns log) /\
  (forall t, list_cache_get t (sg_list_cache sg) = None) /\ queue indexer = [].
Proof.
  cbn. split_and!; try (done || lia).
  - destruct (String.eqb_spec (str_trim (sa_cache_dir args)) "") as [E|E]; cbn.
    + by rewrite E.
    + destruct (String.eqb_spec (str_trim (sa_cache_dir args)) "") as [E'|_]; done.
  - constructor.
  - apply vc_new_wf.
Qed.

(** The default arguments, as the documentation lists them. *)
Example default_config_values :
  let c := app_config (default_args "http://localhost:9000" "puffer") in
  ac_write_buffer c = default_config /\ ac_limits c = limits_default /\ ac_ann_build c = build_default None /\
  ac_wal_corrupt_policy c = PolicyFail /\ ac_cache_dir c = Some "/tmp/openpuffer-cache".
Proof. vm_compute. split_and!; reflexivity. Qed.
