(* ===== verification/ExportHttp.v ===== *)
(** * Export over HTTP (the export handlers of [api.rs])

    A page as a response: the cursor and the commit point in headers, the rows
    as JSON or as one line per row. *)

From Stdlib Require Import ZArith Lia Bool Ascii.
From stdpp Require Import base gmap strings list.
From S2P Require Import Prelude F64 Json Models Filter Keys Schema Meta Wal WalReplay ObjectStore Namespace Durability Compaction FilterIndex View ViewCache Export Buffer VectorEncoding Fts Vector Search VectorBuild Cache Indexer ColdFetch Storage Api.

(** [serde_json::to_string] of a row, and the values [HeaderValue::from_str]
    accepts. *)
Class ResponseLib : Type := {
  row_to_string : ExportRow -> result string string;
  header_value_ok : string -> bool
}.

Definition newline : ascii := ascii_of_nat 10.

(** Compact JSON escapes control characters; a header holds none. *)
Class ResponseLaws {RL : ResponseLib} : Prop := {
  row_one_line r line : row_to_string r = Ok line -> no_char newline line = true /\ line <> EmptyString;
  header_one_line v : header_value_ok v = true -> no_char newline v = true
}.

Inductive ExportBody : Type :=
| NdjsonBody (body : string)
| JsonBody (wal_commit_seq : Z) (rows : list ExportRow) (next_last_id : option string).

Record ExportResponse : Type := mkExportResponse {
  xr_headers : list (string * string);
  xr_body : ExportBody
}.

Definition eq_ignore_ascii_case (a b : string) : bool := String.eqb (to_ascii_lowercase a) (to_ascii_lowercase b).

Section Response.
Context {RL : ResponseLib}.

(** The loop over the rows; [i > 0] separates them. *)
Fixpoint ndjson_rows (first : bool) (body : string) (rows : list ExportRow) : result string string :=
  match rows with
  | [] => Ok body
  | row :: rest =>
      let body := if first then body else String.append body (String newline EmptyString) in
      let? line := row_to_string row in
      ndjson_rows false (String.append body line) rest
  end.

Definition valid_header (name value : string) : list (string * string) :=
  if header_value_ok value then [(name, value)] else [].

Definition export_page_response (page : ExportPage) (format : option string) : result (StatusCode * ApiError) ExportResponse :=
  let headers :=
    valid_header "X-Openpuffer-Wal-Commit-Seq" (dec (ep_wal_commit_seq page)) ++
    match ep_next_last_id page with Some next => valid_header "X-Openpuffer-Export-Next-Last-Id" next | None => [] end in
  if match format with Some f => eq_ignore_ascii_case f "ndjson" | None => false end then
    match ndjson_rows true EmptyString (ep_rows page) with
    | Ok body => Ok (mkExportResponse (headers ++ [("content-type", "application/x-ndjson")]) (NdjsonBody body))
    | Err e => Err (api_error INTERNAL_SERVER_ERROR (ApiMessage e))
    end
  else Ok (mkExportResponse headers (JsonBody (ep_wal_commit_seq page) (ep_rows page) (ep_next_last_id page))).
End Response.

(** The query parameters of GET, and the body of POST. *)
Record ExportRequest : Type := mkExportRequest {
  xq_last_id : option string;
  xq_limit : option Z;
  xq_format : option string
}.

Section ExportHandlers.
Context {IO : IterOrder} {WC : WalCodec} {MC : MetaCodec} {S : ObjectStore} {BO : BucketOps} {CO : CompletionOrder}.
Context {ET : ErrorText} {RL : ResponseLib} (policy : WalCorruptPolicy) (max_keys : Z) (cache_enabled : bool).

Definition export_namespace_get (name : string) (params : ExportRequest) : ApM ExportResponse :=
  ap! page <- export_namespace_impl policy max_keys cache_enabled name (xq_last_id params) (xq_limit params);
  ap_result (export_page_response page (xq_format params)).

(** An absent body is the default request. *)
Definition export_namespace_post (name : string) (body : option ExportRequest) : ApM ExportResponse :=
  export_namespace_get name (default (mkExportRequest None None None) body).
End ExportHandlers.

(** ** What a client reads *)

(** [str::split] at a character, and the lines of a body. *)
Fixpoint split_char (c : ascii) (s : string) : list string :=
  match s with
  | EmptyString => [EmptyString]
  | String d s' =>
      if Ascii.eqb c d then EmptyString :: split_char c s'
      else match split_char c s' with
           | [] => [String d EmptyString]
           | l :: rest => String d l :: rest
           end
  end.

Definition body_lines (s : string) : list string := if String.eqb s EmptyString then [] else split_char newline s.

Lemma no_char_cons c d s : no_char c (String d s) = true -> Ascii.eqb c d = false /\ no_char c s = true.
Proof. unfold no_char. cbn. rewrite andb_true_iff, negb_true_iff. done. Qed.

Lemma split_char_line c a : no_char c a = true -> split_char c a = [a].
Proof.
  induction a as [|d a IH]; [done|]. intros [Hd Ha]%no_char_cons. cbn. by rewrite Hd, IH.
Qed.

Lemma split_char_app c a b : no_char c a = true -> split_char c (String.append a (String c b)) = a :: split_char c b.
Proof.
  induction a as [|d a IH].
  - intros _. change (String.append "" (String c b)) with (String c b). cbn. by rewrite Ascii.eqb_refl.
  - intros [Hd Ha]%no_char_cons. rewrite str_app_cons. cbn. by rewrite Hd, (IH Ha).
Qed.

Lemma str_app_empty_r a : String.append a EmptyString = a.
Proof. induction a as [|d a IH]; [done|]. by rewrite str_app_cons, IH. Qed.

(** The rows after the first. *)
Fixpoint ndjson_tail (lines : list string) : string :=
  match lines with
  | [] => EmptyString
  | l :: rest => String newline (String.append l (ndjson_tail rest))
  end.

Section ResponseSpec.
Context {RL : ResponseLib} {RW : ResponseLaws}.

Lemma ndjson_rows_tail rows body out :
  ndjson_rows false body rows = Ok out ->
  exists lines, Forall2 (fun r l => row_to_string r = Ok l) rows lines /\ out = String.append body (ndjson_tail lines).
Proof.
  revert body. induction rows as [|r rows IH]; intros body; cbn [ndjson_rows].
  - intros [= <-]. exists []. split; [constructor|]. by rewrite str_app_empty_r.
  - destruct (row_to_string r) as [l|] eqn:Hr; [|done]. cbn. intros H. destruct (IH _ H) as (lines & Hl & ->). exists (l :: lines).
    split; [by constructor|]. cbn. by rewrite !str_app_assoc.
Qed.

Lemma ndjson_lines l lines :
  Forall (fun l => no_char newline l = true) (l :: lines) ->
  split_char newline (String.append l (ndjson_tail lines)) = l :: lines.
Proof.
  revert l. induction lines as [|l' lines IH]; intros l [Hl Hrest]%Forall_cons; cbn [ndjson_tail].
  - rewrite str_app_empty_r. by apply split_char_line.
  - rewrite split_char_app by done. by rewrite IH.
Qed.

Lemma ndjson_body rows out :
  ndjson_rows true EmptyString rows = Ok out ->
  Forall2 (fun r l => row_to_string r = Ok l) rows (body_lines out).
Proof.
  destruct rows as [|r rows]; cbn [ndjson_rows].
  - intros [= <-]. constructor.
  - destruct (row_to_string r) as [l|] eqn:Hr; [|done]. cbn. intros H. apply ndjson_rows_tail in H as (lines & Hl & ->).
    rewrite (str_app_nil l). destruct (row_one_line _ _ Hr) as [Hn He].
    assert (Forall (fun l => no_char newline l = true) (l :: lines)) as Hall.
    { constructor; [done|]. apply Forall_forall. intros x Hx. apply list_elem_of_lookup in Hx as [i Hi].
      destruct (Forall2_lookup_r _ _ _ _ _ Hl Hi) as (r' & _ & Hr'). by apply row_one_line in Hr' as [? _]. }
    unfold body_lines. destruct (String.eqb_spec (String.append l (ndjson_tail lines)) "") as [E|_].
    + destruct l; [done|]. by rewrite str_app_cons in E.
    + rewrite ndjson_lines by done. by constructor.
Qed.
End ResponseSpec.

(** ** Theorems *)

(** C21: an export in lines is read back: splitting the body at newlines gives
    one line per row of the page, in order, each the row's own JSON. *)
Theorem ndjson_roundtrip {RL : ResponseLib} {RW : ResponseLaws} page format resp :
  eq_ignore_ascii_case format "ndjson" = true -> export_page_response page (Some format) = Ok resp ->
  exists body, xr_body resp = NdjsonBody body /\
    Forall2 (fun r l => row_to_string r = Ok l) (ep_rows page) (body_lines body).
Proof.
  intros Hf. unfold export_page_response. rewrite Hf. destruct (ndjson_rows true "" (ep_rows page)) as [body|] eqn:H; [|done].
  intros [= <-]. exists body. split; [done|]. by apply ndjson_body.
Qed.

(** Rows as their ids, headers without control characters. *)
Definition id_lines : ResponseLib := {|
  row_to_string := fun r =>
    if no_char newline (er_id r) then Ok (String "{" (String.append (er_id r) "}")) else Ok "{}";
  header_value_ok := fun v => str_forallb (fun c => in_range c 32 126) v
|}.

Lemma no_char_wrap s : no_char newline s = true -> no_char newline (String "{" (String.append s "}")) = true.
Proof. intros H. unfold no_char in *. cbn [str_forallb]. by rewrite str_forallb_app, H. Qed.

#[export] Instance id_lines_laws : @ResponseLaws id_lines.
Proof.
  split; cbn.
  - intros r line. destruct (no_char newline (er_id r)) eqn:H; intros [= <-]; split; try done. by apply no_char_wrap.
  - intros v. unfold no_char. induction v as [|c v IH]; [done|]. cbn. intros [Hc Hv]%andb_true_iff. rewrite IH by done.
    rewrite andb_true_r. unfold in_range in Hc. destruct (Ascii.eqb_spec newline c) as [<-|]; [by vm_compute in Hc|done].
Qed.

Definition two_rows : ExportPage := mkExportPage 3 [mkExportRow "a" ∅; mkExportRow "b" ∅] None.

Lemma ndjson_roundtrip_witness :
  exists body, Forall2 (fun r l => @row_to_string id_lines r = Ok l) (ep_rows two_rows) (body_lines body) /\
    body = String.append "{a}" (String newline "{b}").
Proof.
  destruct (@ndjson_roundtrip id_lines id_lines_laws two_rows "NDJSON" _ ltac:(reflexivity) ltac:(reflexivity)) as (body & Hb & H).
  exists body. split; [exact H|]. by injection Hb as <-.
Defined.

(** an export in lines can lose its cursor.  A valid document id may contain
    a newline, which no header value may; when the last row of a full page has
    such an id, the response has neither a cursor header nor, in this format, a
    cursor in its body, although documents are left. *)
Theorem ndjson_cursor_lost {RL : ResponseLib} {RW : ResponseLaws} :
  let id := String "a" (String newline EmptyString) in
  let docs : Docs := {[ id := mkDocument id ∅; "b" := mkDocument "b" ∅ ]} in
  let page := @export_page canonical_order docs 1 None 1 in
  validate_doc_id id = Ok tt /\ ep_next_last_id page = Some id /\ ep_rows page = [mkExportRow id ∅] /\
  match export_page_response page (Some "ndjson") with
  | Ok resp => forall v, ("X-Openpuffer-Export-Next-Last-Id", v) ∉ xr_headers resp
  | Err _ => True
  end.
Proof.
  intros id docs page. assert (page = mkExportPage 1 [mkExportRow id ∅] (Some id)) as -> by (vm_compute; reflexivity).
  split_and!; [reflexivity..|]. unfold export_page_response. cbn [ep_next_last_id ep_wal_commit_seq].
  change (eq_ignore_ascii_case "ndjson" "ndjson") with true. destruct (ndjson_rows _ _ _) as [body|]; [|done]. intros v Hin.
  unfold valid_header in Hin. destruct (header_value_ok id) eqn:Hid; [apply header_one_line in Hid; by vm_compute in Hid|].
  destruct (header_value_ok (dec 1)); cbn in Hin; set_solver.
Qed.
