(* ===== verification/IndexStore.v ===== *)
(** * Writing a vector index ([write_vector_index] of [indexer.rs])

    What the store holds after the indexer wrote an index, part by part, and
    that a query which fetches only the probed parts answers as the index that
    was written. *)

From Stdlib Require Import ZArith Lia Bool.
From stdpp Require Import base gmap strings list.
From S2P Require Import Prelude F64 Json Models Keys Schema Meta Wal WalReplay ObjectStore Namespace Durability Compaction VectorEncoding FilterIndex Fts Vector VectorBuild VectorSpec View Cache Indexer IndexerSpec ColdFetch ColdSpec ProbeSpec.

(** Encoded parts decode; no encoded cluster is empty. *)
Class VectorCodecLaws {SC : SegmentCodec} : Prop := {
  l0_roundtrip x b : l0_serialize x = Some b -> l0_deserialize b = Some x;
  l1_roundtrip x b : l1_serialize x = Some b -> l1_deserialize b = Some x;
  l2_roundtrip x b : l2_serialize x = Some b -> l2_deserialize b = Some x;
  routing_roundtrip x b : routing_serialize x = Some b -> routing_deserialize b = Some x;
  cluster_roundtrip x b : cluster_serialize x = Some b -> cluster_deserialize b = Some x;
  cluster_nonempty x b : cluster_serialize x = Some b -> b <> []
}.

(** The ids inside the parts are those they are filed under. *)
Record layout_ok (vi : VectorIndex) : Prop := {
  lo_cells : lenZ (l0_centroids (vi_l0 vi)) <= l0_num_coarse (vi_l0 vi) < 2 ^ 32;
  lo_l1 : forall c l1, vi_l1 vi !! c = Some l1 -> l1_coarse_id l1 = c /\ is_u32 c;
  lo_routing : l0_has_routing (vi_l0 vi) = bool_decide (is_Some (vi_routing vi));
  lo_l2 : forall c l seg, vi_l2 vi !! (c, l) = Some seg ->
    (l2_coarse_id seg, l2_l2_id seg) = (c, l) /\ is_u32 c /\ is_u32 l /\ 0 <= l2_global_fine_start seg;
  lo_parts : forall c, 0 <= parts_of (vi_routing vi) c < 2 ^ 32 /\ (0 < parts_of (vi_routing vi) c -> is_u32 c);
  lo_clusters : forall f c, vi_clusters vi !! f = Some c -> is_u32 f
}.

Section Written.
Context {IO : IterOrder} {S : ObjectStore} {SL : StoreLaws} {LC : LocalCache} {LL : LocalCacheLaws}.
Context {CR : CachedReads} {CL : CachedReadsLaws} {SC : SegmentCodec}.
Context (ns field : string).

(** Objects written: each named object holds its body, the others are as before. *)
Definition stores (body : ObjectName -> option bytes) (names : list ObjectName) (objs objs' : Objects) : Prop :=
  (forall o, o ∈ names -> exists b t, body o = Some b /\ objs' !! object_key ns o = Some (b, t)) /\
  forall k, (forall o, o ∈ names -> k <> object_key ns o) -> objs' !! k = objs !! k.

Lemma stores_app body n1 n2 objs0 objs1 objs2 :
  Forall object_ok (n1 ++ n2) -> NoDup (n1 ++ n2) ->
  stores body n1 objs0 objs1 -> stores body n2 objs1 objs2 -> stores body (n1 ++ n2) objs0 objs2.
Proof.
  intros Hok Hnd [A1 A2] [B1 B2]. rewrite Forall_forall in Hok. apply NoDup_app in Hnd as (_ & Hd & _). split.
  - intros o [Ho|Ho]%elem_of_app; [|by apply B1]. destruct (A1 o Ho) as (b & t & Hb & Hobj). exists b, t. split; [done|].
    rewrite B2; [done|]. intros o' Ho' E. apply object_key_same_ns in E as ->; [by apply (Hd o')|apply Hok; set_solver..].
  - intros k Hk. rewrite B2, A2; [done|..]; intros o Ho; apply Hk; set_solver.
Qed.

Lemma stores_nil body objs : stores body [] objs objs.
Proof. split; [|done]. by intros o ?%not_elem_of_nil. Qed.

Lemma put_encoded_stores body o w :
  cache_inv w -> st_post (put_encoded (object_key ns o) (body o)) w (fun w' r =>
    cache_inv w' /\ (r = Ok tt -> stores body [o] (objects w) (objects w'))).
Proof.
  intros Hw. eapply st_post_mono; [by apply (put_encoded_post (fun k => k = object_key ns o))|].
  intros w' r (Hw' & Hf & Hr). split; [done|]. intros ->. destruct (Hr eq_refl) as (b & t & Hb & Ho). split.
  - intros o' ->%list_elem_of_singleton. by exists b, t.
  - intros k Hk. apply Hf. apply Hk. by left.
Qed.

Lemma put_each_stores {A} body (name : A -> ObjectName) (key : A -> string) (enc : A -> option bytes) items w :
  (forall x, x ∈ items -> key x = object_key ns (name x) /\ enc x = body (name x)) ->
  Forall object_ok (name <$> items) -> NoDup (name <$> items) ->
  cache_inv w -> st_post (put_each key enc items) w (fun w' r =>
    cache_inv w' /\ (r = Ok tt -> stores body (name <$> items) (objects w) (objects w'))).
Proof.
  revert w. induction items as [|x items IH]; intros w Hx Hok Hnd Hw; cbn [put_each].
  - split; [done|]. intros _. apply stores_nil.
  - destruct (Hx x ltac:(by left)) as [-> ->]. apply st_post_bind. eapply st_post_mono; [by apply put_encoded_stores|].
    intros w1 [[]|e] (Hw1 & H1); [|done]. specialize (H1 eq_refl).
    eapply st_post_mono; [apply IH; [intros; apply Hx; by right|by inversion Hok|by inversion Hnd|done]|].
    intros w2 r (Hw2 & H2). split; [done|]. intros Hr. change (name <$> x :: items) with ([name x] ++ (name <$> items)) in *.
    eapply stores_app; [done|done|exact H1|by apply H2].
Qed.

(** ** The parts of an index *)

Context (vi : VectorIndex).

Definition part_body (o : ObjectName) : option bytes :=
  match o with
  | OL0 _ => l0_serialize (vi_l0 vi)
  | ORouting _ => vi_routing vi ≫= routing_serialize
  | OL1 _ c => vi_l1 vi !! c ≫= l1_serialize
  | OL2 _ c l => vi_l2 vi !! (c, l) ≫= l2_serialize
  | OCluster _ f => vi_clusters vi !! f ≫= cluster_serialize
  | _ => None
  end.

Definition l1_names : list ObjectName := (fun l1 => OL1 field (l1_coarse_id l1)) <$> iter_values (vi_l1 vi).
Definition cluster_names : list ObjectName := (fun e : Z * ClusterSegment => OCluster field e.1) <$> iter_map (vi_clusters vi).
Definition routing_names : list ObjectName := match vi_routing vi with Some _ => [ORouting field] | None => [] end.
Definition l2_names : list ObjectName :=
  (fun e : (Z * Z) * CentroidIndexL2 => OL2 field e.1.1 e.1.2) <$> iter_map (vi_l2 vi).
Definition part_names : list ObjectName := l1_names ++ cluster_names ++ routing_names ++ l2_names ++ [OL0 field].

Context (Hlayout : layout_ok vi) (Hfield : validate_s3_path_segment field = Ok tt).

Lemma part_names_ok : Forall object_ok part_names.
Proof.
  destruct Hlayout as [_ H1 _ H2 _ H3]. unfold part_names, l1_names, cluster_names, routing_names, l2_names.
  rewrite !Forall_app, !Forall_fmap. split_and!.
  - apply Forall_forall. intros l1 (c & Hc)%elem_of_iter_values. cbn. destruct (H1 _ _ Hc) as [-> Hu]. done.
  - apply Forall_forall. intros [f c] Hc%iter_map_elem. cbn. split; [done|by eapply H3].
  - destruct (vi_routing vi); repeat constructor; done.
  - apply Forall_forall. intros [[c l] seg] Hc%iter_map_elem. cbn. destruct (H2 _ _ _ Hc) as (_ & ? & ? & _). done.
  - repeat constructor; done.
Qed.

(** Every part is named once. *)
Lemma l1_names_NoDup : NoDup l1_names.
Proof.
  unfold l1_names, iter_values. rewrite <- list_fmap_compose.
  assert ((fun l1 => OL1 field (l1_coarse_id l1)) ∘ snd <$> iter_map (vi_l1 vi) = OL1 field <$> (iter_map (vi_l1 vi)).*1) as ->.
  { rewrite <- list_fmap_compose. apply list_fmap_ext. intros i [c l1] Hi. apply list_elem_of_lookup_2, iter_map_elem in Hi. cbn.
    by destruct (lo_l1 _ Hlayout _ _ Hi) as [-> _]. }
  apply NoDup_fmap_2; [intros ? ? [=]; done|]. apply iter_map_NoDup_keys.
Qed.

Lemma keyed_names_NoDup {K V} `{Countable K} (m : gmap K V) (name : K -> ObjectName) :
  (forall a b, name a = name b -> a = b) -> NoDup ((fun e : K * V => name e.1) <$> iter_map m).
Proof.
  intros Hinj. change (NoDup (name ∘ fst <$> iter_map m)). rewrite list_fmap_compose. apply NoDup_fmap_2; [done|]. apply iter_map_NoDup_keys.
Qed.

Lemma part_names_NoDup : NoDup part_names.
Proof.
  unfold part_names. rewrite !NoDup_app. unfold cluster_names, l2_names, routing_names.
  assert (forall o, o ∈ l1_names -> exists c, o = OL1 field c) as K1.
  { intros o (l1 & -> & _)%list_elem_of_fmap. by eexists. }
  assert (forall o, o ∈ ((fun e : (Z * Z) * CentroidIndexL2 => OL2 field e.1.1 e.1.2) <$> iter_map (vi_l2 vi)) -> exists c l, o = OL2 field c l) as K2.
  { intros o (e & -> & _)%list_elem_of_fmap. by eexists _, _. }
  assert (forall o, o ∈ ((fun e : Z * ClusterSegment => OCluster field e.1) <$> iter_map (vi_clusters vi)) -> exists c, o = OCluster field c) as K3.
  { intros o (e & -> & _)%list_elem_of_fmap. by eexists. }
  split_and!.
  - apply l1_names_NoDup.
  - intros o (c & ->)%K1. rewrite !elem_of_app. intros [(? & [=])%K3|[H|[(? & ? & [=])%K2|H]]].
    + destruct (vi_routing vi); set_solver.
    + set_solver.
  - apply (keyed_names_NoDup _ (OCluster field)). by intros ? ? [=].
  - intros o (c & ->)%K3. rewrite !elem_of_app. intros [H|[(? & ? & [=])%K2|H]].
    + destruct (vi_routing vi); set_solver.
    + set_solver.
  - destruct (vi_routing vi); [apply NoDup_singleton|constructor].
  - intros o Ho. destruct (vi_routing vi); [|by apply not_elem_of_nil in Ho]. apply list_elem_of_singleton in Ho as ->.
    rewrite elem_of_app. intros [(? & ? & [=])%K2|H]. set_solver.
  - apply (keyed_names_NoDup (vi_l2 vi) (fun p : Z * Z => OL2 field p.1 p.2)). intros [a b] [a' b'] [=]. cbn in *. congruence.
  - intros o (c & l & ->)%K2. set_solver.
  - apply NoDup_singleton.
Qed.

Lemma stores_cons_app body n1 n2 objs0 objs1 objs2 :
  Forall object_ok (n1 ++ n2) /\ NoDup (n1 ++ n2) ->
  stores body n1 objs0 objs1 -> stores body n2 objs1 objs2 ->
  stores body (n1 ++ n2) objs0 objs2.
Proof. intros [H1 H2]. by apply stores_app. Qed.

Lemma suffix_ok n1 n2 : Forall object_ok (n1 ++ n2) /\ NoDup (n1 ++ n2) -> Forall object_ok n2 /\ NoDup n2.
Proof. rewrite Forall_app, NoDup_app. tauto. Qed.

Lemma prefix_ok n1 n2 : Forall object_ok (n1 ++ n2) /\ NoDup (n1 ++ n2) -> Forall object_ok n1 /\ NoDup n1.
Proof. rewrite Forall_app, NoDup_app. tauto. Qed.

(** What the indexer's write leaves in the store. *)
Lemma write_vector_index_stores w :
  cache_inv w -> st_post (write_vector_index ns field vi) w (fun w' r =>
    cache_inv w' /\ (r = Ok tt -> stores part_body part_names (objects w) (objects w'))).
Proof.
  intros Hw. pose proof (conj part_names_ok part_names_NoDup) as H1. pose proof (suffix_ok _ _ H1) as H2.
  pose proof (suffix_ok _ _ H2) as H3. pose proof (suffix_ok _ _ H3) as H4. pose proof (prefix_ok _ _ H1) as P1.
  pose proof (prefix_ok _ _ H2) as P2. pose proof (prefix_ok _ _ H4) as P4.
  unfold write_vector_index. apply st_post_bind, st_post_result. destruct (l0_serialize (vi_l0 vi)) as [b0|] eqn:E0; [|done]. cbn [ok_or].
  apply st_post_bind. eapply st_post_mono; [apply (put_each_stores part_body (fun l1 => OL1 field (l1_coarse_id l1))); [|apply P1|apply P1|done]|].
  { intros l1 (c & Hc)%elem_of_iter_values. destruct (lo_l1 _ Hlayout _ _ Hc) as [<- _]. cbn. by rewrite Hc. }
  intros w1 [[]|e] (Hw1 & S1); [|done]. apply st_post_bind.
  eapply st_post_mono; [apply (put_each_stores part_body (fun e : Z * ClusterSegment => OCluster field e.1)); [|apply P2|apply P2|done]|].
  { intros [f c] Hc%iter_map_elem. cbn. by rewrite Hc. }
  intros w2 [[]|e] (Hw2 & S2); [|done]. apply st_post_bind.
  eapply (st_post_mono _ _ (fun w' r => cache_inv w' /\ (r = Ok tt -> stores part_body routing_names (objects w2) (objects w')))).
  { unfold routing_names. destruct (vi_routing vi) as [r|] eqn:Er; [|split; [done|intros _; apply stores_nil]].
    pose proof (put_encoded_stores part_body (ORouting field) w2 Hw2) as H. cbn [part_body] in H. by rewrite Er in H. }
  intros w3 [[]|e] (Hw3 & S3); [|done]. apply st_post_bind.
  eapply st_post_mono; [apply (put_each_stores part_body (fun e : (Z * Z) * CentroidIndexL2 => OL2 field e.1.1 e.1.2)); [|apply P4|apply P4|done]|].
  { intros [[c l] seg] Hc%iter_map_elem. cbn. by rewrite Hc. }
  intros w4 [[]|e] (Hw4 & S4); [|done].
  pose proof (put_encoded_stores part_body (OL0 field) w4 Hw4) as H. cbn [part_body] in H. rewrite E0 in H.
  change (put_encoded (object_key ns (OL0 field)) (Some b0)) with (put_and_cache (l0_key ns field) b0) in H.
  eapply st_post_mono; [exact H|]. intros w5 r (Hw5 & S5). split; [done|]. intros Hr.
  apply (stores_cons_app part_body _ _ _ (objects w1) _ H1); [by apply S1|].
  apply (stores_cons_app part_body _ _ _ (objects w2) _ H2); [by apply S2|].
  apply (stores_cons_app part_body _ _ _ (objects w3) _ H3); [by apply S3|].
  apply (stores_cons_app part_body _ _ _ (objects w4) _ H4); [by apply S4|by apply S5].
Qed.

(** No object of the field from an earlier index is left that this one lacks. *)
Definition no_leftover (objs : Objects) : Prop :=
  forall o, object_ok o -> match o with
    | OL1 f _ | OL2 f _ _ | OCluster f _ | ORouting f => f = field /\ part_body o = None
    | _ => False
    end -> objs !! object_key ns o = None.

Context {VCL : VectorCodecLaws}.

(** A part of the index, in the store after the write: its body, or nothing. *)
Lemma stored_part objs objs' o :
  stores part_body part_names objs objs' -> no_leftover objs -> object_ok o ->
  match o with OL1 f _ | OL2 f _ _ | OCluster f _ | ORouting f => f = field | _ => False end ->
  (is_Some (part_body o) -> o ∈ part_names) ->
  fst <$> objs' !! object_key ns o = part_body o.
Proof.
  intros [Hs Hf] Hno Hok Hkind Hin. destruct (part_body o) as [b|] eqn:Hb.
  - destruct (Hs o) as (b' & t & Hb' & Ho); [by apply Hin|]. rewrite Ho. cbn. congruence.
  - rewrite Hf, Hno; [done|done|by destruct o|]. intros o' Ho' E. destruct (Hs o' Ho') as (b' & t & Hb' & _).
    apply object_key_same_ns in E as ->; [congruence|done|]. pose proof part_names_ok as Hall. rewrite Forall_forall in Hall. auto.
Qed.

Lemma stored_body objs objs' o :
  stores part_body part_names objs objs' -> o ∈ part_names -> exists b, part_body o = Some b.
Proof. intros [Hs _] Ho. destruct (Hs o Ho) as (b & t & Hb & _). by exists b. Qed.

Lemma l1_named c l1 : vi_l1 vi !! c = Some l1 -> OL1 field c ∈ part_names.
Proof.
  intros Hc. apply elem_of_app. left. apply list_elem_of_fmap. exists l1. destruct (lo_l1 _ Hlayout _ _ Hc) as [-> _].
  split; [done|]. apply elem_of_iter_values. by exists c.
Qed.

Lemma cluster_named f c : vi_clusters vi !! f = Some c -> OCluster field f ∈ part_names.
Proof.
  intros Hc. apply elem_of_app. right. apply elem_of_app. left. apply list_elem_of_fmap. exists (f, c).
  split; [done|]. by apply iter_map_elem.
Qed.

Lemma routing_named r : vi_routing vi = Some r -> ORouting field ∈ part_names.
Proof. intros Hr. unfold part_names, routing_names. rewrite Hr. set_solver. Qed.

Lemma l2_named c l seg : vi_l2 vi !! (c, l) = Some seg -> OL2 field c l ∈ part_names.
Proof.
  intros Hc. unfold part_names. rewrite !elem_of_app. do 3 right. left. apply list_elem_of_fmap. exists ((c, l), seg).
  split; [done|]. by apply iter_map_elem.
Qed.

(** The written index is the stored one. *)
Lemma written_stored objs objs' :
  stores part_body part_names objs objs' -> no_leftover objs -> index_stored objs' ns field vi.
Proof.
  intros Hs Hno. pose proof Hlayout as [Hcells H1 Hr H2 Hp H3].
  assert (forall c, is_u32 c -> vi_l1 vi !! c = decoded keep_all l1_deserialize (fst <$> objs' !! l1_key ns field c)) as HL1.
  { intros c Hu. pose proof (stored_part _ _ (OL1 field c) Hs Hno (conj Hfield Hu) eq_refl) as Hb. cbn [object_key] in Hb.
    cbn [part_body] in Hb. destruct (vi_l1 vi !! c) as [l1|] eqn:Hc; cbn in Hb.
    - destruct (stored_body _ _ _ Hs (l1_named _ _ Hc)) as [b E]. cbn in E. rewrite Hc in E. cbn in E. rewrite Hb by (intros; by eapply l1_named).
      rewrite E. cbn. symmetry. by apply l1_roundtrip.
    - by rewrite Hb by (intros [? [=]]). }
  assert (forall c l, is_u32 c -> is_u32 l -> fst <$> objs' !! l2_key ns field c l = vi_l2 vi !! (c, l) ≫= l2_serialize /\
    vi_l2 vi !! (c, l) = decoded keep_all l2_deserialize (fst <$> objs' !! l2_key ns field c l)) as HL2.
  { intros c l Hu Hu'. pose proof (stored_part _ _ (OL2 field c l) Hs Hno (conj Hfield (conj Hu Hu')) eq_refl) as Hb.
    cbn [object_key part_body] in Hb. destruct (vi_l2 vi !! (c, l)) as [seg|] eqn:Hc; cbn in Hb |- *.
    - destruct (stored_body _ _ _ Hs (l2_named _ _ _ Hc)) as [b E]. cbn in E. rewrite Hc in E. cbn in E.
      rewrite Hb by (intros; by eapply l2_named). rewrite E. cbn. split; [done|]. symmetry. by apply l2_roundtrip.
    - rewrite Hb by (intros [? [=]]). done. }
  split.
  - lia.
  - intros c Hc. apply HL1. unfold is_u32, u32_max. lia.
  - rewrite Hr. pose proof (stored_part _ _ (ORouting field) Hs Hno Hfield eq_refl) as Hb. cbn [object_key part_body] in Hb.
    destruct (vi_routing vi) as [r|] eqn:Er; cbn in Hb |- *; [|done].
    destruct (stored_body _ _ _ Hs (routing_named _ Er)) as [b E]. cbn in E. rewrite Er in E. cbn in E.
    rewrite Hb by (intros; by eapply routing_named). rewrite E. cbn. symmetry. by apply routing_roundtrip.
  - intros c l Hl. destruct (Hp c) as [Hpb Hpc]. apply HL2; [apply Hpc; lia|unfold is_u32, u32_max; lia].
  - intros c l b seg Hl Hb Hseg. destruct (Hp c) as [Hpb Hpc].
    destruct (HL2 c l) as [Hl2 _]; [apply Hpc; lia|unfold is_u32, u32_max; lia|]. rewrite Hb in Hl2.
    destruct (vi_l2 vi !! (c, l)) as [seg'|] eqn:E; [|done]. cbn in Hl2. symmetry in Hl2. apply l2_roundtrip in Hl2.
    assert (seg' = seg) as <- by congruence. by destruct (H2 _ _ _ E).
  - intros [c l] seg Hseg. by destruct (H2 _ _ _ Hseg) as (_ & _ & _ & ?).
  - intros f Hu. pose proof (stored_part _ _ (OCluster field f) Hs Hno (conj Hfield Hu) eq_refl) as Hb.
    cbn [object_key part_body] in Hb. destruct (vi_clusters vi !! f) as [c|] eqn:Hc; cbn in Hb.
    + destruct (stored_body _ _ _ Hs (cluster_named _ _ Hc)) as [b E]. cbn in E. rewrite Hc in E. cbn in E.
      rewrite Hb by (intros; by eapply cluster_named). rewrite E. cbn. pose proof (cluster_nonempty _ _ E).
      destruct b as [|x b]; [done|]. cbn. symmetry. by apply cluster_roundtrip.
    + by rewrite Hb by (intros [? [=]]).
Qed.

(** Every object a probe of the written index reads is there and decodes. *)
Lemma written_readable objs objs' lq query :
  stores part_body part_names objs objs' -> no_leftover objs ->
  validate_namespace_name ns = Ok tt -> str_contains ".." ns = false ->
  vi_routing vi = None -> (forall c, 0 <= c < l0_num_coarse (vi_l0 vi) -> is_Some (vi_l1 vi !! c)) ->
  l0_num_coarse lq = l0_num_coarse (vi_l0 vi) -> l0_centroids lq = l0_centroids (vi_l0 vi) ->
  probe_readable objs' ns field query (set_l0 lq vi).
Proof.
  intros Hs Hno Hns Hdots Hr Hl1 Hnc Hcen. pose proof (written_stored _ _ Hs Hno) as Hst.
  pose proof Hlayout as [Hcells _ _ _ _ _].
  assert (forall c, 0 <= c < l0_num_coarse (vi_l0 vi) -> is_u32 c) as Hu by (intros c Hc; unfold is_u32, u32_max; lia).
  assert (forall c, c ∈ nearest_coarse lq query (probe_coarse_count lq) -> 0 <= c < l0_num_coarse (vi_l0 vi)) as Hnear.
  { intros c Hc. apply nearest_coarse_range in Hc. rewrite Hcen in Hc. lia. }
  assert (forall o, object_ok o -> validate_s3_object_key (object_key ns o) = Ok tt) as Hkey
    by (intros; by apply object_key_valid).
  split; cbn [vi_l0 vi_routing vi_l1 vi_l2 vi_clusters set_l0].
  - unfold validate_cold_namespace. by rewrite Hns.
  - unfold validate_cold_vector_field. by rewrite Hfield.
  - apply validate_cold_keys_all, Forall_fmap, Forall_forall. intros c Hc. apply (Hkey (OL1 field c)). split; [done|]. by apply Hu, Hnear.
  - apply validate_cold_keys_all, Forall_singleton. by apply (Hkey (ORouting field)).
  - by rewrite Hr.
  - apply validate_cold_keys_all, Forall_fmap, Forall_forall. intros f Hf. apply (Hkey (OCluster field f)). split; [done|].
    eapply (probe_ids_u32 _ _ _ _ query); [|exact Hf]. intros p seg. apply (is_l2_start _ _ _ _ Hst).
  - apply Forall_fmap, Forall_forall. intros c Hc. apply Hnear in Hc. cbn. destruct (Hl1 c Hc) as [l1 E].
    rewrite (is_l1 _ _ _ _ Hst c Hc) in E. destruct (objs' !! l1_key ns field c); [by eexists|done].
  - rewrite Hr. constructor.
  - intros c b Hc Hb. rewrite Hnc in Hc. destruct (Hl1 c Hc) as [l1 E]. rewrite (is_l1 _ _ _ _ Hst c Hc), Hb in E. cbn in E. by exists l1.
  - intros b Hb. pose proof (stored_part _ _ (ORouting field) Hs Hno Hfield eq_refl) as E. cbn [object_key part_body] in E.
    rewrite Hr, Hb in E. cbn in E. by specialize (E ltac:(by intros [? [=]])).
  - rewrite Hr. cbn. lia.
  - intros f b Hf Hb Hnil. assert (is_u32 f) as Hfu.
    { eapply (probe_ids_u32 _ _ _ _ query); [|exact Hf]. intros p seg. apply (is_l2_start _ _ _ _ Hst). }
    pose proof (stored_part _ _ (OCluster field f) Hs Hno (conj Hfield Hfu) eq_refl) as E. cbn [object_key part_body] in E.
    rewrite Hb in E. destruct (vi_clusters vi !! f) as [c|] eqn:Hc; cbn in E.
    + specialize (E ltac:(intros; by eapply cluster_named)). symmetry in E. apply cluster_roundtrip in E. rewrite E. by eexists.
    + by specialize (E ltac:(by intros [? [=]])).
Qed.
End Written.

(** ** The header of a query *)

(** The query header differs from the written one in its probe widths and its
    format version only. *)
Record same_layout (l0 l0' : CentroidIndexL0) : Prop := {
  sl_cells : l0_num_coarse l0' = l0_num_coarse l0;
  sl_centroids : l0_centroids l0' = l0_centroids l0;
  sl_routing : l0_has_routing l0' = l0_has_routing l0
}.

#[export] Instance same_layout_preorder : PreOrder same_layout.
Proof.
  split; [by intros l0|]. intros a b c [H1 H2 H3] [H4 H5 H6]. split; congruence.
Qed.

Lemma align_same_layout meta b l0 : same_layout l0 (align_with_namespace_meta meta b l0).
Proof. unfold align_with_namespace_meta. destruct (_ <? _); [done|]. by destruct (default _ b). Qed.

Lemma clamp_same_layout n l0 : same_layout l0 (clamp_probe_plan_for_query n l0).
Proof.
  unfold clamp_probe_plan_for_query. destruct (_ <=? 32); [done|]. destruct (clamp_probe_widths_to_cluster_cap _ _ _) as [c f].
  by destruct (negb _ || negb _).
Qed.

(** The header of the index an open namespace keeps for its queries. *)
Definition query_header (max_probe_clusters : Z) (meta : NamespaceMeta) (vi : VectorIndex) : CentroidIndexL0 :=
  clamp_probe_plan_for_query max_probe_clusters (align_with_namespace_meta meta None (vi_l0 vi)).

Lemma query_header_layout n meta vi : same_layout (vi_l0 vi) (query_header n meta vi).
Proof. unfold query_header. by rewrite <- clamp_same_layout, <- align_same_layout. Qed.

Lemma stored_set_l0 {SC : SegmentCodec} objs ns field vi l0 :
  same_layout (vi_l0 vi) l0 -> index_stored objs ns field vi -> index_stored objs ns field (set_l0 l0 vi).
Proof.
  intros [H1 H2 H3] [A B C D E F G]. split; cbn [set_l0 vi_l0 vi_l1 vi_l2 vi_routing vi_clusters]; rewrite ?H1, ?H2, ?H3; done.
Qed.

(** ** A built index *)

Lemma built_layout {VL : VectorLib} field build element pairs vi to : built field build element pairs vi -> layout_ok (stamp_segment to vi).
Proof.
  intros [_ _ _ W _ [R1 R2] L2 [C1 C2] L1]. pose proof (wf_total_bound vi W) as Ht. pose proof (vw_coarse_max _ W) as Hm.
  unfold MAX_COARSE_CENTROIDS_V3 in Hm.
  split; cbn [stamp_segment vi_l0 vi_l1 vi_l2 vi_routing vi_clusters l0_num_coarse l0_centroids l0_has_routing].
  - lia.
  - intros c l1. rewrite lookup_fmap, fmap_Some. intros (l1' & Hc & ->). destruct (L1 _ _ Hc) as [E Hr]. cbn.
    split; [done|]. unfold is_u32, u32_max. lia.
  - by rewrite R1, R2.
  - intros c l seg. by rewrite L2, lookup_empty.
  - intros c. rewrite R1. cbn. lia.
  - intros f c. rewrite lookup_fmap, fmap_Some. intros (c' & Hc & _). apply (vw_clusters _ W) in Hc.
    unfold is_u32, u32_max. lia.
Qed.

Lemma stamp_members to vi : all_members (stamp_segment to vi) = all_members vi.
Proof.
  unfold all_members, members_of. cbn [stamp_segment vi_clusters]. rewrite map_to_list_fmap, <- list_fmap_compose. done.
Qed.

Lemma built_l1 {VL : VectorLib} field build element pairs vi to c :
  built field build element pairs vi -> 0 <= c < l0_num_coarse (vi_l0 vi) -> is_Some (vi_l1 (stamp_segment to vi) !! c).
Proof.
  intros [_ _ _ W _ _ _ _ _] Hc. pose proof (vw_coarse _ W) as Hl. unfold lenZ in Hl.
  destruct (lookup_lt_is_Some_2 (l0_fine_counts (vi_l0 vi)) (Z.to_nat c)) as [n Hn]; [lia|].
  destruct (vw_l1 _ W _ _ Hn) as (l1 & H1 & _). rewrite Z2Nat.id in H1 by lia. cbn. rewrite lookup_fmap, H1. by eexists.
Qed.

(** ** The inventory of an index *)

Definition all_l1_keys (namespace : string) (vi : VectorIndex) : list string :=
  l1_key namespace (l0_vector_field (vi_l0 vi)) <$> range0 (l0_num_coarse (vi_l0 vi)).

Definition all_cluster_keys (namespace : string) (vi : VectorIndex) : list string :=
  cluster_key namespace (l0_vector_field (vi_l0 vi)) <$> range0 (l0_num_fine_total (vi_l0 vi)).

Definition all_v3_aux_keys {IO : IterOrder} (namespace : string) (vi : VectorIndex) : list string :=
  let field := l0_vector_field (vi_l0 vi) in
  sort_dedup (
    (if l0_has_routing (vi_l0 vi) then [routing_key namespace field] else []) ++
    ((fun p : Z * Z => l2_key namespace field p.1 p.2) <$> (iter_map (vi_l2 vi)).*1)).

Definition index_object_count {IO : IterOrder} (vi : VectorIndex) : Z :=
  l0_num_coarse (vi_l0 vi) + l0_num_fine_total (vi_l0 vi) + lenZ (all_v3_aux_keys "" vi).

Definition max_cluster_members {IO : IterOrder} (vi : VectorIndex) : Z :=
  fold_left Z.max ((fun c => lenZ (cs_members c)) <$> iter_values (vi_clusters vi)) 0.

(** ** The number of objects of a v3 index *)

(** Cells of 500 to 1799 documents get eight fine centroids. *)
Lemma large_cells_full : forallb (fun m => 8 <=? sqrt_ceil m) (seqZ 500 1300) = true.
Proof. vm_compute. reflexivity. Qed.

Lemma num_fine_v3_large m : 500 <= m < 1800 -> num_fine_v3 m = 8.
Proof.
  intros Hm. pose proof large_cells_full as H. rewrite forallb_forall in H.
  specialize (H m ltac:(apply list_elem_of_In, elem_of_seqZ; lia)). cbn beta in H. apply Z.leb_le in H.
  unfold num_fine_v3, clampZ, MAX_FINE_PER_COARSE_V3. replace (m =? 0) with false by lia.
  replace (sqrt_ceil m <? 1) with false by lia. destruct (m <? sqrt_ceil m); lia.
Qed.

(** The loop that lowers the coarse count stops below 56 cells. *)
Lemma shrink_coarse_max fuel n k :
  n <= 100000 -> k <= n / V3_TARGET_DOCS_PER_COARSE \/ k <= 55 -> k - 8 <= Z.of_nat fuel -> shrink_coarse fuel n k <= 55.
Proof.
  intros Hn. revert k. induction fuel as [|fuel IH]; intros k Hk Hf; cbn [shrink_coarse]; [lia|].
  destruct (decide (k <= 55)) as [Hs|Hs].
  - destruct (_ && _); [apply IH; lia|done].
  - destruct Hk as [Hk|Hk]; [|lia]. unfold V3_TARGET_DOCS_PER_COARSE in Hk.
    assert (500 * k <= n) as Hnk by (pose proof (Z.mul_div_le n 500 ltac:(lia)); lia).
    assert (500 <= div_ceil n k < 1800) as Hcell.
    { unfold div_ceil. split; [apply Z.div_le_lower_bound; nia|apply Z.div_lt_upper_bound; nia]. }
    unfold v3_l1_cluster_object_count_estimate. rewrite (num_fine_v3_large _ Hcell). replace (k =? 0) with false by lia.
    assert (k <= 200) by nia.
    replace (sat_mul64 k 8) with (k * 8) by (unfold sat_mul64, u64_max; lia).
    unfold V3_INDEX_OBJECT_CAP. replace ((8 <? k) && (500 <=? k + k * 8)) with true by lia.
    apply IH; [left; unfold V3_TARGET_DOCS_PER_COARSE; lia|lia].
Qed.

Lemma num_coarse_v3_max n : n <= 100000 -> num_coarse_v3 n <= 55.
Proof.
  intros Hn. unfold num_coarse_v3. destruct (n <=? 32) eqn:E; case_bool; [lia|]. apply shrink_coarse_max; [done| |lia].
  unfold clampZ. destruct (_ <? 8) eqn:E1; case_bool; [lia|]. destruct (n <? _) eqn:E2; case_bool; lia.
Qed.

Lemma build_pairs_length {VL : VectorLib} field docs : lenZ (build_pairs field docs).2 <= lenZ docs.
Proof.
  unfold build_pairs. match goal with |- lenZ (fold_left ?f docs _).2 <= _ =>
    assert (forall ds acc, lenZ (fold_left f ds acc).2 <= lenZ ds + lenZ acc.2) as H end.
  2: { specialize (H docs (0, [])). unfold lenZ in *. cbn in H. lia. }
  induction ds as [|d ds IH]; intros acc; [done|]. cbn [fold_left]. etransitivity; [apply IH|]. destruct acc as [dims ps].
  unfold lenZ. cbn [length]. repeat case_match; cbn [snd]; rewrite ?length_app; cbn [length]; lia.
Qed.

Section Inventory.
Context {IO : IterOrder} {VL : VectorLib} (field : string) (build : AnnBuildConfig) (element : VectorElement).
Context (pairs : list Pair) (vi : VectorIndex) (Hbuilt : built field build element pairs vi) (to : Z).

Lemma built_aux_keys ns : all_v3_aux_keys ns (stamp_segment to vi) = [].
Proof.
  destruct Hbuilt as [_ _ _ _ _ [_ R] L2 _ _]. unfold all_v3_aux_keys. cbn [stamp_segment vi_l0 l0_has_routing vi_l2].
  rewrite R, L2. destruct (iter_map ∅) as [|e l] eqn:E; [done|].
  assert (e ∈ iter_map (∅ : gmap (Z * Z) CentroidIndexL2)) as H by (rewrite E; left).
  destruct e as [p seg]. apply iter_map_elem in H. by rewrite lookup_empty in H.
Qed.

(** The parts of a built index are in its inventory. *)
Lemma built_inventory ns o : o ∈ part_names field (stamp_segment to vi) ->
  object_key ns o ∈ l0_key ns field :: all_l1_keys ns (stamp_segment to vi) ++ all_cluster_keys ns (stamp_segment to vi).
Proof.
  destruct Hbuilt as [F _ _ W _ [R _] L2 _ L1]. unfold part_names, l1_names, cluster_names, routing_names, l2_names.
  unfold all_l1_keys, all_cluster_keys.
  cbn [stamp_segment vi_l0 vi_l1 vi_l2 vi_routing vi_clusters l0_vector_field l0_num_coarse l0_num_fine_total]. rewrite F, R, L2.
  rewrite !elem_of_app, !list_elem_of_fmap. intros [H|[H|[H|[H|H]]]].
  - destruct H as (l1 & -> & (c & Hc)%elem_of_iter_values). rewrite lookup_fmap, fmap_Some in Hc. destruct Hc as (l1' & Hc & ->).
    destruct (L1 _ _ Hc) as [E Hr]. cbn. rewrite E. right. apply elem_of_app. left. apply list_elem_of_fmap. exists c.
    split; [done|]. apply elem_of_seqZ. lia.
  - destruct H as ([f c] & -> & Hc%iter_map_elem). rewrite lookup_fmap, fmap_Some in Hc. destruct Hc as (c' & Hc & _).
    apply (vw_clusters _ W) in Hc. cbn. right. apply elem_of_app. right. apply list_elem_of_fmap. exists f.
    split; [done|]. apply elem_of_seqZ. lia.
  - by apply not_elem_of_nil in H.
  - destruct H as (e & _ & He). destruct e as [p seg]. apply iter_map_elem in He. by rewrite lookup_empty in He.
  - apply list_elem_of_singleton in H as ->. left.
Qed.

Lemma built_object_count :
  ANN_VERSION_V3 <= ab_ann_version build -> 1 <= lenZ pairs <= 100000 -> index_object_count (stamp_segment to vi) < V3_INDEX_OBJECT_CAP.
Proof.
  intros Hv Hn. unfold index_object_count. rewrite built_aux_keys. destruct Hbuilt as [_ C F W _ _ _ _ _].
  cbn [stamp_segment vi_l0 l0_num_coarse l0_num_fine_total]. destruct W as [W1 W2 _ W4 _ _].
  assert (Forall (fun c => 0 <= c <= 8) (l0_fine_counts (vi_l0 vi))) as H8.
  { rewrite Forall_forall in W1 |- *. specialize (F Hv). rewrite Forall_forall in F. intros c Hc.
    specialize (W1 c Hc). specialize (F c Hc). unfold MAX_FINE_PER_COARSE_V3 in F. lia. }
  apply total_le in H8. rewrite W4. rewrite W2 in H8. rewrite C in *. unfold num_coarse_for_version in *.
  replace (lenZ pairs =? 0) with false in * by lia. replace (ANN_VERSION_V3 <=? ab_ann_version build) with true in * by lia.
  pose proof (num_coarse_v3_max (lenZ pairs) ltac:(lia)). unfold V3_INDEX_OBJECT_CAP. change (lenZ []) with 0. lia.
Qed.
End Inventory.

(** ** Theorems *)

(** C31: an index that was built and written answers queries from its parts, for a
    namespace name without [..] and a field in the per-field layout, with a
    segment cache in step with the store ([cache_inv]): when
    [write_vector_index] of a freshly built index succeeds and no part
    of an earlier index of the field is left where the new one has none
    ([no_leftover]; the write does not remove such objects), the stored L0
    decodes to its header, its clusters hold the vectors it was built from, and
    every query that then fetches only the parts it probes gives the answers of
    the built index under the query's header, on the cold path and through the
    segment cache; on a reliable store the cold path does succeed. *)
Theorem built_index_answered {IO : IterOrder} {WC : WalCodec} {MC : MetaCodec} {S : ObjectStore} {SL : StoreLaws}
    {CO : CompletionOrder} {SC : SegmentCodec} {VCL : VectorCodecLaws} {VL : VectorLib} {LC : LocalCache}
    {LL : LocalCacheLaws} {CR : CachedReads} {CL : CachedReadsLaws}
    max_keys max_probe ns meta field to metric build docs sch query vi w :
  0 < max_keys -> validate_namespace_name ns = Ok tt -> str_contains ".." ns = false ->
  validate_s3_path_segment field = Ok tt -> vector_index_uses_legacy_paths meta field = false ->
  cache_inv w -> vector_build to field metric build docs sch = Some vi ->
  no_leftover ns field (stamp_segment to vi) (objects w) ->
  let stamped := stamp_segment to vi in
  let l0 := query_header max_probe meta stamped in
  let '(w', r) := write_vector_index ns field stamped w in
  all_members stamped ≡ₚ (fun p : Pair => from_values p.1 p.2 (vector_element_for_field sch field)) <$> (build_pairs field docs).2 /\
  (r = Ok tt ->
  (exists b t, objects w' !! l0_key ns field = Some (b, t) /\ l0_decode b = Some (vi_l0 stamped)) /\
  match (fetch_cold_vector_probed max_keys max_probe ns meta field l0 query w').2 with
  | Ok (vi', _, _, _) => same_answers query (set_l0 (clamp_probe_plan_for_query max_probe l0) stamped) vi'
  | Err _ => StoreReliable -> False
  end /\
  match (load_vector_index_probed_for_query ns meta field l0 query w').2 with
  | Ok (vi', _) => same_answers query (set_l0 l0 stamped) vi'
  | Err _ => True
  end).
Proof.
  intros Hmax Hns Hdots Hf Hp Hw Hb Hno stamped l0.
  pose proof (vector_build_built to field metric build docs sch) as Hbt.
  destruct (build_pairs field docs).2 as [|p ps]; [congruence|]. destruct Hbt as (vi0 & Hb' & Hbt).
  assert (vi0 = vi) as -> by congruence. clear Hb'.
  pose proof (built_layout _ _ _ _ _ to Hbt) as Hlay.
  pose proof (write_vector_index_stores ns field stamped Hlay Hf w Hw) as Hst. unfold st_post in Hst.
  destruct (write_vector_index ns field stamped w) as [w' r]. destruct Hst as [Hw' Hst].
  split; [unfold stamped; rewrite stamp_members; by destruct Hbt|]. intros Hr. specialize (Hst Hr).
  pose proof (written_stored ns field stamped Hlay Hf _ _ Hst Hno) as Hix.
  pose proof (query_header_layout max_probe meta stamped) as Hl. fold l0 in Hl.
  split; [|split].
  - destruct Hst as [Hst _]. destruct (Hst (OL0 field)) as (b & t & Eb & Eo).
    { unfold part_names. rewrite !elem_of_app. do 4 right. by left. }
    exists b, t. split; [done|]. unfold l0_decode. by rewrite (l0_roundtrip _ _ Eb).
  - set (lq := clamp_probe_plan_for_query max_probe l0).
    assert (same_layout (vi_l0 stamped) lq) as Hlq by (unfold lq; by rewrite <- clamp_same_layout).
    pose proof (stored_set_l0 _ _ _ _ _ Hlq Hix) as Hixq.
    pose proof (cold_probe_reads ns meta field query Hp max_keys max_probe l0 Hmax w') as H. unfold st_post in H.
    destruct (fetch_cold_vector_probed _ _ _ _ _ _ _ w') as [w2 [[[[vi' rt] nk] n]|e]] eqn:E; cbn in H |- *.
    + by apply H.
    + intros SR. destruct (cold_probe_succeeds (objects w') ns field meta query (set_l0 lq stamped)) with
        (max_keys := max_keys) (max_probe_clusters := max_probe) (lq := l0) (w := w') as [a Ha]; try done.
      * apply (written_readable ns field stamped Hlay Hf (objects w)); try done; [by destruct Hbt as [_ _ _ _ _ [? _] _ _ _]| |by destruct Hlq..].
        intros c Hc. by eapply built_l1.
      * unfold yields, st_post in Ha. rewrite E in Ha. by destruct Ha.
  - pose proof (warm_probe_creads ns meta field query Hp l0 w' Hw') as H. unfold st_post in H.
    destruct (load_vector_index_probed_for_query _ _ _ _ _ w') as [w2 [[vi' n]|e]]; cbn in H |- *; [|done].
    destruct H as (_ & _ & H). by apply (H (set_l0 l0 stamped)); [apply stored_set_l0|].
Qed.

(** C38: a v3 index stays under its object cap: an index built in format 3 from at
    most 100000 documents has fewer than 500 objects beside its header, and
    writing it changes no object that its inventory (header, L1, cluster, routing
    and L2 keys) does not list.  The build only bounds an estimate that assumes
    cells of equal size; the theorem is about the cells k-means really makes. *)
Theorem v3_object_cap {IO : IterOrder} {S : ObjectStore} {SL : StoreLaws} {SC : SegmentCodec} {VL : VectorLib}
    {LC : LocalCache} {LL : LocalCacheLaws} {CR : CachedReads} {CL : CachedReadsLaws} ns field to metric build docs sch vi w :
  vector_build to field metric build docs sch = Some vi -> ANN_VERSION_V3 <= ab_ann_version build ->
  lenZ docs <= 100000 -> validate_s3_path_segment field = Ok tt -> cache_inv w ->
  let stamped := stamp_segment to vi in
  index_object_count stamped < V3_INDEX_OBJECT_CAP /\
  let '(w', r) := write_vector_index ns field stamped w in
  r = Ok tt -> forall k, objects w' !! k <> objects w !! k ->
    k ∈ l0_key ns field :: all_l1_keys ns stamped ++ all_cluster_keys ns stamped ++ all_v3_aux_keys ns stamped.
Proof.
  intros Hb Hv Hn Hf Hw stamped. pose proof (vector_build_built to field metric build docs sch) as Hbt.
  pose proof (build_pairs_length field docs) as Hlen.
  destruct (build_pairs field docs).2 as [|p ps]; [congruence|]. destruct Hbt as (vi0 & Hb' & Hbt).
  assert (vi0 = vi) as -> by congruence. split.
  - eapply built_object_count; [exact Hbt|done|]. unfold lenZ in *. cbn [length] in *. lia.
  - pose proof (write_vector_index_stores ns field stamped (built_layout _ _ _ _ _ to Hbt) Hf w Hw) as Hst. unfold st_post in Hst.
    destruct (write_vector_index ns field stamped w) as [w' r]. destruct Hst as [_ Hst]. intros Hr k Hk.
    destruct (Hst Hr) as [_ Hframe]. unfold stamped. erewrite built_aux_keys, app_nil_r by exact Hbt.
    destruct (decide (k ∈ object_key ns <$> part_names field stamped)) as [Hin|Hnot].
    + apply list_elem_of_fmap in Hin as (o & -> & Ho). by eapply built_inventory.
    + exfalso. apply Hk, Hframe. intros o Ho ->. apply Hnot, list_elem_of_fmap. by exists o.
Qed.

(** ** A concrete index *)

Lemma segment_table_vector_laws fts fil l0s l1s cls : @VectorCodecLaws (segment_table fts fil l0s l1s cls).
Proof.
  split; try (intros x b; apply table_roundtrip); try done.
  intros x b. cbn. unfold table_write. rewrite fmap_Some. by intros (p & _ & ->).
Qed.

Definition demo_vectors : list (string * Document) := [vec_doc "a" 1; ("b", mkDocument "b" ∅); vec_doc "c" 9].
Definition demo_index : VectorIndex :=
  default default_vector_index
    (vector_build (VL := rfc4648) 7 "emb" EuclideanSquared (mkBuild 4 2 ANN_VERSION_V3) demo_vectors (VObject [])).
Definition demo_parts : SegmentCodec :=
  segment_table [] [] [vi_l0 demo_index] (snd <$> map_to_list (vi_l1 demo_index)) (snd <$> map_to_list (vi_clusters demo_index)).
Definition write_demo : MemWorld * result IxError unit :=
  @write_vector_index canonical_order calm_store (no_cache calm_store) demo_parts "ns" "emb" (stamp_segment 7 demo_index) (mkMem ∅ 0 []).

Lemma built_index_answered_witness :
  let '(w', r) := write_demo in
  r = Ok tt /\
  match (@fetch_cold_vector_probed calm_store in_order demo_parts 128 64 "ns" default_meta "emb"
           (query_header 64 default_meta (stamp_segment 7 demo_index)) [f64_of_Z 2] w').2 with
  | Ok (vi', _, _, _) => @same_answers canonical_order rfc4648 [f64_of_Z 2]
      (set_l0 (clamp_probe_plan_for_query 64 (query_header 64 default_meta (stamp_segment 7 demo_index))) (stamp_segment 7 demo_index)) vi'
  | Err _ => False
  end.
Proof.
  pose proof (@built_index_answered canonical_order demo_codec demo_metas calm_store calm_store_laws in_order demo_parts
    (segment_table_vector_laws _ _ _ _ _) rfc4648 (no_cache calm_store) (no_cache_laws _) (direct_reads calm_store)
    (direct_reads_laws _ _) 128 64 "ns" default_meta "emb" 7 EuclideanSquared (mkBuild 4 2 ANN_VERSION_V3) demo_vectors
    (VObject []) [f64_of_Z 2] demo_index (mkMem ∅ 0 []) eq_refl eq_refl eq_refl eq_refl eq_refl I) as H.
  assert (vector_build (VL := rfc4648) 7 "emb" EuclideanSquared (mkBuild 4 2 ANN_VERSION_V3) demo_vectors (VObject []) = Some demo_index)
    as Hb by (vm_compute; reflexivity).
  specialize (H Hb (fun o _ _ => lookup_empty _)). cbn zeta in H.
  assert (write_demo.2 = Ok tt) as Hr by (vm_compute; reflexivity).
  change (@write_vector_index canonical_order calm_store (no_cache calm_store) demo_parts "ns" "emb" (stamp_segment 7 demo_index) (mkMem ∅ 0 []))
    with write_demo in H.
  revert Hr H. destruct write_demo as [w' r]. intros Hr H. destruct H as [_ H]. destruct (H Hr) as (_ & Hc & _). split; [exact Hr|].
  destruct (@fetch_cold_vector_probed calm_store in_order demo_parts 128 64 "ns" default_meta "emb" _ _ w')
    as [w2 [[[[vi' rt] nk] n]|e]]; [exact Hc|]. exact (Hc calm_store_reliable).
Defined.

Lemma v3_object_cap_witness :
  @index_object_count canonical_order (stamp_segment 7 demo_index) < V3_INDEX_OBJECT_CAP /\
  let '(w', r) := write_demo in
  r = Ok tt /\ forall k, mem_objects w' !! k <> None ->
    k ∈ l0_key "ns" "emb" :: all_l1_keys "ns" (stamp_segment 7 demo_index) ++
      all_cluster_keys "ns" (stamp_segment 7 demo_index) ++ @all_v3_aux_keys canonical_order "ns" (stamp_segment 7 demo_index).
Proof.
  destruct (@v3_object_cap canonical_order calm_store calm_store_laws demo_parts rfc4648 (no_cache calm_store) (no_cache_laws _)
    (direct_reads calm_store) (direct_reads_laws _ _) "ns" "emb" 7 EuclideanSquared (mkBuild 4 2 ANN_VERSION_V3) demo_vectors
    (VObject []) demo_index (mkMem ∅ 0 [])) as [H1 H2]; [vm_compute; reflexivity|done|done|reflexivity|exact I|].
  split; [exact H1|]. clear H1.
  assert (write_demo.2 = Ok tt) as Hr by (vm_compute; reflexivity).
  change (@write_vector_index canonical_order calm_store (no_cache calm_store) demo_parts "ns" "emb" (stamp_segment 7 demo_index) (mkMem ∅ 0 []))
    with write_demo in H2.
  revert Hr H2. destruct write_demo as [w' r]. intros Hr H2. split; [exact Hr|]. intros k Hk. apply (H2 Hr). exact Hk.
Defined.
